(* ===== verification/_CoqProject ===== *)
-Q . S2P
Prelude.v
GoStrings.v
Float64.v
Dtime.v
GoTime.v
Utils.v
Score.v
Message.v
Cache.v
MemoryCache.v
MemoryCacheFacts.v
Fixtures.v
CacheProps.v
Delivery.v
Storage.v
MemoryStorage.v
MemoryStorageFacts.v
StorageProps.v
Goroutines.v
StorageGoroutines.v
StorageSections.v
Linearizability.v
AuditTrail.v
QueueConfiguration.v
Metrics.v
Queue.v
QueueFacts.v
QueueProps.v
QueueHistory.v
Housekeeper.v
Recovery.v
RecoveryOverlap.v
HousekeeperProps.v
RecoveryProps.v
Service.v
ServiceProps.v
Lifecycle.v
LifecycleProps.v
Tasks.v
GoFloat.v
Config.v
ConfigProps.v
Server.v
Instruments.v
Counters.v
Tracing.v
AuditBulk.v
AuditSender.v
Logger.v
Mongo.v
MongoModel.v
MongoStorage.v
MongoDocs.v
MongoFacts.v
MongoSpec.v
MongoProps.v
StorageEquivalence.v
StorageErrors.v
Redis.v
RedisScripts.v
RedisCache.v
RedisKeys.v
RedisEffects.v
RedisFacts.v
RedisProps.v
RedisCluster.v
RedisClusterProps.v
Connection.v
StartUp.v
Production.v
ProductionRecovery.v
Interleaving.v
InterleavingFacts.v
InterleavingProps.v
