(* ===== verification/Prelude.v ===== *)
(** * Deckard: a verification development for the priority queue service

    Deckard is a priority queue served over gRPC.  A publisher adds messages
    with a score; a consumer pulls the messages with the smallest scores of a
    queue and answers each one with an ack or a nack, which makes it available
    again, locks it for a while, or removes it.  The program keeps each message
    twice: the _storage_ has its content, the _cache_ has its id and score in
    one of four pools (primary, processing, locked by an ack, locked by a
    nack).  A queue object combines the two and reports to an auditor;
    background tasks (the housekeeper) give back the messages that were not
    answered in time, unlock the locked ones, remove the expired and the
    exceeding ones, and refill an empty cache from the storage.

    ** Files and the code they model (paths under [internal/])

    - [Prelude]: Go integers of 64 bits, errors, panics, the iteration order of
      maps, [sort.Slice] and [sort.SliceStable], shared list lemmas.
      [GoStrings]: the functions of [strings].  [Float64]: the [float64] of
      scores, on [SpecFloat].  [GoTime]: [time.ParseDuration].
      [GoFloat]: [strconv.ParseFloat] with the rounding of exact values.
    - [Dtime] ([dtime/deckard_time.go]), [Utils] ([queue/utils]), [Score]
      ([queue/score]), [Message] ([queue/message], [queue/pool]).
    - [Cache] ([queue/cache/cache.go]): the interface as a class, its contract
      [CacheSpec] on the pool each message is in, and the life cycle of a
      message as an inductive step relation.
    - [MemoryCache] ([queue/cache/memory_cache.go]) models every method on the
      four maps of sorted lists; [MemoryCacheFacts] proves the contract;
      [CacheProps] has the properties over histories of calls.
    - [Redis]: the commands of a Redis server as a class of operations
      ([RedisCommands]) and a class with their documented behaviour as laws
      for the keys the server owns ([Redis]), a monad of scripts, and a model
      server.  [RedisScripts] ([queue/cache/redis_cache_scripts.go]): the Lua
      scripts.  [RedisCache] ([queue/cache/redis_cache.go]): the methods over
      the scripts.  [RedisKeys]: the keys of pools are told apart;
      [RedisEffects]: what each script does to the sets of a queue;
      [RedisFacts] proves the contract of a cache; [RedisProps] the properties.
    - [RedisCluster] (the same two files, in cluster mode): the methods over a
      family of servers, each the master of some hash slots; a script runs on
      the master of its keys, [Flush] and the scans visit every master.
      [RedisClusterProps] proves the contract of a cache and that the keys of
      a queue share a master.
    - [Storage] ([queue/storage/storage.go]): the interface and its contract
      [StorageSpec] on the message stored for a queue and an id.  The contract
      is the common part of the two storages: it says what a query with a
      projection gives, and leaves open whether a storage hides expired
      messages and how precisely it keeps times.
    - [MemoryStorage] ([queue/storage/memory_storage.go]),
      [MemoryStorageFacts] (the contract) and [StorageProps].
    - [Goroutines]: goroutines that share a memory and a read-write lock, and
      the reduction of their runs to critical sections.  [StorageGoroutines]
      (the same file as [MemoryStorage]): its methods access by access;
      [StorageSections]: what each section does; [Linearizability]: the
      methods under concurrent calls.
    - [Mongo]: documents, filters, updates and the commands of a MongoDB server
      as a class with laws; [MongoModel] a server that keeps them.
      [MongoStorage] ([queue/storage/mongo_storage.go]): the methods, with the
      encoding and the decoding of messages.  [MongoDocs]: what an update
      leaves in a document; [MongoFacts]: what a filter means, collections
      with unique keys; [MongoSpec] proves the contract of a storage;
      [MongoProps] the properties; [StorageEquivalence] relates the storages.
    - [AuditTrail] ([audit/audit.go]): the entries and what [Store] makes of
      one.  [AuditBulk] (the same file): the body of the request that sends a
      batch.  [AuditSender] (the same file): the channel and the sender as a
      machine whose events are the branches of its select and the calls of
      [Store], with the requests it makes and what they are answered.
    - [QueueConfiguration] ([queue/queue_configuration_service.go]): the local
      cache of limits in front of the storage, and the histories of a storage
      that others change too.
    - [Queue] ([queue/queue.go]): the operations, in a state monad with panics,
      over the three interfaces.  [QueueFacts] and [QueueProps] prove what each
      does from the contracts alone; [QueueHistory] proves that storage and
      cache agree over any history, and that the memory implementation runs.
      [Production] puts the MongoDB storage and a Redis cache under it, of a
      single node or of a cluster.  [StorageErrors] follows the operations
      through the errors of a storage.
    - [Delivery]: a message is given to one consumer at a time.
    - [Interleaving]: operations of concurrent requests as threads whose steps
      are the single calls of a storage, a cache or the configuration;
      [InterleavingFacts] has what each step does and [InterleavingProps] the
      properties of every interleaving.
    - [Housekeeper] ([queue/queue_housekeeper.go]): the tasks;
      [HousekeeperProps] the removals.  [Recovery]: the recovery over any
      storage and cache that keep the laws of [RecoverySource] and
      [ReliableCache]; [RecoveryProps] in memory, [ProductionRecovery] with
      MongoDB and Redis.  [RecoveryOverlap]: requests between the two halves of
      a round.
    - [Service] ([service/deckard_service.go]): the handlers; [ServiceProps]
      what a client sees.  [Server] (the same file): the start of the server
      and its TLS credentials.
    - [Lifecycle] ([cmd/deckard/main.go], [shutdown/shutdown.go]): the
      schedulers of the tasks, the calls of the server, the sender of the
      audit and the shutdown as one machine; an event is one step of one
      goroutine, the wait groups are those of [sync] with their panics, and a
      running task or call may store in the audit at any time.
      [LifecycleProps]: its invariant and properties.
    - [Config] ([config/]): the keys, [Configure] and the getters, over viper
      as an interface; [ConfigProps]: the laws of viper and the value of a key.
    - [Connection]: [NewMongoStorage] and [NewRedisCache] with the options of
      their drivers, their retries and the clients they open and close.
    - [Metrics] ([metrics/metrics_map.go]), [Instruments]
      ([metrics/metrics.go], [metrics/registry.go]: the instruments, their
      callbacks, the boundaries of the histograms and where they are served),
      [Logger] ([logger/logger.go]), [Tracing] ([trace/]: the provider that is
      installed and the one that is shut down, and what the handlers of the
      service set on their spans).  [Counters]: the counters that
      the queue and the housekeeper add to are created.
    - [Tasks] ([startHouseKeeperJobs] and [executeTask] of
      [cmd/deckard/main.go]): the function of each task and its latency, and
      requests and tasks one after the other.
    - [StartUp] ([main] and [startHouseKeeperJobs] of [cmd/deckard/main.go],
      [CreateStorage], [CreateCache], [NewAuditor]): what the process creates,
      starts and closes, with its deferred calls, and the clients and the
      listener it leaves open.
    - [Fixtures]: small inputs for the witnesses.

    ** What the theorems show

    The operations of the queue are correct for every implementation of the two
    contracts ([Pull_correct], [Ack_Nack_correct], [Remove_correct]), and
    storage and cache never lose each other's messages
    ([storage_and_cache_agree]).  Both caches and both storages keep the
    contracts, so that this holds in memory, where valid requests and tasks in
    any order never panic or fail ([memory_queue_runs],
    [memory_process_runs]), and in production, where a message is
    in the cache exactly when it is stored ([production_in_step],
    [cluster_in_step]).  When requests overlap, the agreement is kept as far as
    each operation's order of calls allows ([concurrent_operations_agree],
    [live_messages_accounted_for]), every thread finishes ([threads_finish]),
    and one alone behaves as the sequential operation ([thread_alone]);
    [readded_message_lost] shows what a removal and an addition can lose.
    Within a call, the memory storage is linearizable
    ([memory_storage_linearizable]), up to two defects
    ([insert_overtaken_panics], [count_error_blocks_writers]).  The
    recovery refills the cache and ends, in memory and in production
    ([recovery_completes], [production_recovery_completes],
    [cluster_recovery_completes]), unless the storage has a message of a queue
    that Redis refuses ([recovery_blocked]); a message removed during a round
    can come back to the cache until it is pulled ([recovery_overtaken]).

    Each cache refines the life cycle of a message ([memory_cache_life_cycle],
    [redis_cache_life_cycle]); the memory cache keeps a message in one pool and
    its lists sorted; both hand out the best messages ([PullMessages_priority],
    [redis_pull_best]) and keep a locked message locked.  The keys of Redis are
    read back and never coincide; in a cluster every script has its keys on one
    master ([cluster_one_master]).  Queries of the storages find exactly what
    they ask for and give back what was inserted ([mongo_Find_exact],
    [mongo_insert_roundtrip], [Insert_Find_roundtrip]); answers change the
    fields they name; the documents of MongoDB stay well typed through errors
    ([mongo_documents_typed]); removals end ([mongo_Remove_terminates]); and
    the two storages are interchangeable ([storages_equivalent]), except where
    [storages_differ] shows that they are not.

    The housekeeper removes the messages whose date has passed and those above
    a limit, and no others ([RemoveTTLMessages_correct],
    [removeExceeding_correct], which say what becomes of timeless and of hidden
    messages); the handlers read back what was added ([Add_GetById],
    [add_expiry_date]) and release or remove what was answered; the limit of a
    queue is at most nine minutes old ([configuration_staleness]); audit
    entries are sent in order, and are lost only when they cannot be encoded or
    their request fails ([audit_in_order]), or at the shutdown
    ([audit_done_loses_channel]).  The background tasks exclude each other, a
    shutdown cancels the context after the calls and the registered recovery,
    it panics only in the ways of [shutdown_panic], each of which a run shows
    ([store_after_close_panics], [group_reused_panics],
    [late_task_misuse_panics], [late_sender_misuse_panics]), and it is never
    stuck ([background_tasks_exclusive], [shutdown_order],
    [shutdown_terminates]).
    A configuration key has the value the environment gives under its name or
    an alias, a bad duration is ignored, and TLS is never weaker than
    configured ([configured_text], [configured_duration],
    [tls_as_configured]); a start that fails serves nothing, closes the storage
    and the cache it had created, and leaves open exactly what [start_up]
    says ([listener_left_open], [first_client_left_open]).  Every counter that is added to is one that was
    created ([counters_registered]).

    Where the code does less than its comments say, a theorem states what it
    does, such as [TimeoutMessages_one_at_a_time], [redis_MakeAvailable_nan],
    [recovery_after_cancel], [histogram_buckets_unconfigured] or
    [provider_never_shut_down].

    ** Choices of the model

    - Operations take an environment: the reading of the clock, the order in
      which [range] visits a map, and the result of the unstable sort.  The
      clock is read once for a call, where the code may read it a few times
      within a call; maps and sorts are any the Go specification allows, and
      theorems hold for all of them.
    - Messages are values.  The storage and its callers share pointers to
      messages, but no operation reads a message through a pointer after
      another call changed it, except for the identity that [Insert] assigns,
      which the cache does not read.
    - An exported method of the memory cache holds the mutex for its whole
      body, and is one step; a Lua script of Redis is atomic, and so is a
      method of the Redis cache, which runs one script or one command except
      for the batches of an insertion or a removal and for the scans.  The
      methods of the storages are one step too; concurrent operations
      interleave between these calls ([Interleaving]).  For the memory storage
      [memory_storage_linearizable] shows, from its accesses and its lock, that
      this is right except for [Insert], which is two steps for each message;
      what can happen between the two is in [insert_overtaken_panics].
      The configurations of the memory storage, which it keeps without the
      lock, are outside of this.
    - Third-party code is a parameter: the commands of Redis and MongoDB
      (classes [Redis] and [Mongo]; reads see the writes before them, so that a
      replica that lags behind is not covered), the encoding of a protobuf
      value and the decoding of documents ([AnyCodec], [BsonDecoder]), the
      encoding of an audit entry, the
      partition of a range ([Gopart]), the glob matcher ([Glob]), the expiring
      map of the configuration service ([LocalCache]) and viper ([ViperSpec]).
      Each has a concrete instance in the witnesses.  A Lua script can
      unpack at least 4000 values, so that a pull of the Redis cache is covered
      for 1 to 4000 messages.
    - Fuel is used where the recursion of the code is not structural: the
      printing of integers (their size in bits), the trimming of texts and the
      parsing of durations (the length of the text; [duration_terms_fuel]), the
      removals of MongoDB (the number of ids; [mongo_Remove_terminates]
      shows that one round for each hundred ids is enough), and the retries of
      a connection (the number of attempts).
    - In [Lifecycle] the function of a task stores any number of entries in the
      audit and returns (that it returns is assumed there); the guards of its
      loops are oracles of [Housekeeper].  Of the channel of the audit it keeps
      whether it is closed, not its capacity, so that a [Store] never blocks
      there; [AuditSender] has the capacity.  A [select] takes any of its ready
      cases, a delay may pass at any time, and closing a channel wakes those
      that are blocked on it.
    - Logs, spans and the latencies of calls have no effect on the state and
      are left out of the operations; the latencies of the tasks are in
      [Tasks].  The counters of the queue are a log of its state.
    - In [Tasks] requests and tasks happen one after the other; [Lifecycle]
      has the schedulers with their locks, and [Interleaving] the requests
      that overlap.

    ** Not modelled

    The movement of slots between the masters of a cluster, the closing of
    connections but for its errors, the answers of Elasticsearch, the serving
    of gRPC and HTTP connections, generated code and the example client: they
    are input and output, or belong to libraries.  Of the tasks that overlap
    with requests, the timeouts, the unlocks and the removals are operations
    of [Interleaving]; a round of the recovery is taken as two steps, its query
    and its additions ([RecoveryOverlap]). *)

From Stdlib Require Export ZArith Lia Bool List Ascii String.
From stdpp Require Export base tactics strings gmap list sorting fin_maps.

#[global] Open Scope Z_scope.
#[global] Set Default Proof Using "Type".

(** ** Go's fixed width integers *)

Definition min_int64 : Z := - 2 ^ 63.
Definition max_int64 : Z := 2 ^ 63 - 1.

(** [wrap64 z] is the [int64] that Go's arithmetic leaves when the exact
    result of an operation is [z] (two's complement wrap-around). *)
Definition wrap64 (z : Z) : Z := (z + 2 ^ 63) mod 2 ^ 64 - 2 ^ 63.

Definition is_int64 (z : Z) : Prop := min_int64 <= z <= max_int64.

(** [x +64 y], [x -64 y], [x *64 y]: [int64] arithmetic. *)
Declare Scope go_scope.
Delimit Scope go_scope with go.
Notation "x +64 y" := (wrap64 (x + y)) (at level 50, left associativity) : go_scope.
Notation "x -64 y" := (wrap64 (x - y)) (at level 50, left associativity) : go_scope.
Notation "x *64 y" := (wrap64 (x * y)) (at level 40, left associativity) : go_scope.

(** ** Errors, panics and results *)

(** gRPC status codes the service uses. *)
Inductive Code := Internal | InvalidArgument.

(** The [error] values the code builds: [errors.New]/[fmt.Errorf] without a
    wrapped error, [fmt.Errorf] with [%w], [status.Error] and [errors.Join] of
    two errors. *)
Inductive error :=
  | ErrorString (msg : string)
  | WrapError (msg : string) (err : error)
  | StatusError (c : Code) (msg : string)
  | JoinError (err err' : error).

(** A Go result pair [(value, err)]: the value is there even when [err] is not
    nil, as in Go. *)
Definition result (A : Type) : Type := A * option error.

Definition is_ok {A} (r : result A) : bool :=
  match snd r with None => true | Some _ => false end.

(** Code that can panic at run time returns an [outcome]. *)
Inductive outcome (A : Type) :=
  | Ret (a : A)
  | Panic (msg : string).
Arguments Ret {A} a.
Arguments Panic {A} msg.

Definition obind {A B} (o : outcome A) (k : A -> outcome B) : outcome B :=
  match o with Ret a => k a | Panic msg => Panic msg end.

Notation "'let!' x ':=' o 'in' k" := (obind o (fun x => k))
  (at level 10, x binder, o at level 100, k at level 200) : go_scope.

(** ** What the Go runtime supplies to a call *)

(** The iteration order of [range m] over a Go map is unspecified: a
    [MapOrder] is any way of listing the bindings of a map, each exactly
    once.  It is a record of the listing function with its law. *)
Record MapOrder := {
  map_range : forall A, gmap string A -> list (string * A);
  map_range_perm : forall A (m : gmap string A), map_range A m ≡ₚ map_to_list m
}.
Arguments map_range _ {A} m.

(** A concrete order, for evaluation. *)
Definition canonical_order : MapOrder :=
  {| map_range := fun A m => map_to_list m;
     map_range_perm := fun A m => reflexivity _ |}.

(** ** Sorting *)

(** [sort.SliceStable(l, less)]: the stable sort of [l].  [stable_insert]
    puts an element that comes before all of [l] in front of the first
    element that is not less than it. *)
Section StableSort.
Context {A : Type} (less : A -> A -> bool).

Fixpoint stable_insert (x : A) (l : list A) : list A :=
  match l with
  | [] => [x]
  | y :: l' => if less y x then y :: stable_insert x l' else x :: y :: l'
  end.

Definition stable_sort (l : list A) : list A := foldr stable_insert [] l.
End StableSort.

(** The same sort with a comparison that can panic. *)
Section StableSortOutcome.
Context {A : Type} (less : A -> A -> outcome bool).

Fixpoint stable_insert_o (x : A) (l : list A) : outcome (list A) :=
  match l with
  | [] => Ret [x]
  | y :: l' =>
      obind (less y x) (fun b : bool =>
        if b then obind (stable_insert_o x l') (fun r => Ret (y :: r))
        else Ret (x :: y :: l'))
  end.

Fixpoint stable_sort_o (l : list A) : outcome (list A) :=
  match l with
  | [] => Ret []
  | x :: l' => obind (stable_sort_o l') (stable_insert_o x)
  end.
End StableSortOutcome.

(** A list is sorted for [less] when no element is less than an earlier one. *)
Definition sorted_by {A} (less : A -> A -> bool) : list A -> Prop :=
  StronglySorted (fun x y => less y x = false).

(** [less] is a strict weak order on the elements that satisfy [P]. *)
Definition weak_order {A} (less : A -> A -> bool) (P : A -> Prop) : Prop :=
  (forall x y, P x -> P y -> less x y = true -> less y x = false) /\
  (forall x y z, P x -> P y -> P z -> less x y = false -> less y z = false -> less x z = false).

(** [sort.Slice] is not stable: a [SliceSort] is any function that permutes
    its argument and sorts it when the comparison is a strict weak order. *)
Record SliceSort := {
  sort_Slice : forall A, (A -> A -> bool) -> list A -> list A;
  sort_Slice_perm : forall A (less : A -> A -> bool) l, sort_Slice A less l ≡ₚ l;
  sort_Slice_sorted : forall A (less : A -> A -> bool) P l,
    weak_order less P -> Forall P l -> sorted_by less (sort_Slice A less l)
}.
Arguments sort_Slice _ {A} less l.

(** The environment of one call: the reading of the clock (nanoseconds since
    the Unix epoch), the iteration order of the maps it ranges over and the
    unstable sort. *)
Record Env := { env_now : Z; env_order : MapOrder; env_sort : SliceSort }.

(** ** Tactics *)

(** Case analysis on the condition of the leftmost [if] of the goal. *)
Ltac case_if :=
  match goal with
  | |- context [if ?b then _ else _] => let E := fresh "E" in destruct b eqn:E
  end.

(** Splits boolean hypotheses into propositions. *)
Ltac bool_hyps :=
  repeat match goal with
  | H : _ && _ = true |- _ => apply andb_true_iff in H as [? ?]
  | H : _ || _ = false |- _ => apply orb_false_iff in H as [? ?]
  | H : negb _ = true |- _ => apply negb_true_iff in H
  | H : negb _ = false |- _ => apply negb_false_iff in H
  | H : bool_decide _ = true |- _ => apply bool_decide_eq_true in H
  | H : bool_decide _ = false |- _ => apply bool_decide_eq_false in H
  | H : Z.leb _ _ = true |- _ => apply Z.leb_le in H
  | H : Z.leb _ _ = false |- _ => apply Z.leb_gt in H
  | H : Z.ltb _ _ = true |- _ => apply Z.ltb_lt in H
  | H : Z.ltb _ _ = false |- _ => apply Z.ltb_ge in H
  | H : Z.eqb _ _ = true |- _ => apply Z.eqb_eq in H
  | H : Z.eqb _ _ = false |- _ => apply Z.eqb_neq in H
  | H : String.eqb _ _ = true |- _ => apply String.eqb_eq in H
  | H : String.eqb _ _ = false |- _ => apply String.eqb_neq in H
  end.

Create HintDb deckard.

(** ** Lemmas on machine integers *)

Lemma wrap64_id z : is_int64 z -> wrap64 z = z.
Proof.
  unfold is_int64, min_int64, max_int64, wrap64. intros H.
  rewrite Z.mod_small by lia. lia.
Qed.

Lemma wrap64_range z : is_int64 (wrap64 z).
Proof.
  unfold is_int64, min_int64, max_int64, wrap64.
  pose proof (Z.mod_pos_bound (z + 2 ^ 63) (2 ^ 64) ltac:(lia)). lia.
Qed.

Lemma wrap64_idemp z : wrap64 (wrap64 z) = wrap64 z.
Proof. apply wrap64_id, wrap64_range. Qed.

Lemma wrap64_add_l a b : wrap64 (wrap64 a + b) = wrap64 (a + b).
Proof.
  unfold wrap64. replace ((a + 2 ^ 63) mod 2 ^ 64 - 2 ^ 63 + b + 2 ^ 63)
    with ((a + 2 ^ 63) mod 2 ^ 64 + b) by lia.
  rewrite Z.add_mod_idemp_l by lia. do 2 f_equal. lia.
Qed.

(** ** Lemmas on ranges over maps *)

Section MapRange.
Context (o : MapOrder) {A : Type}.
Implicit Types m : gmap string A.

Lemma elem_of_map_range m k v : (k, v) ∈ map_range o m <-> m !! k = Some v.
Proof. rewrite (map_range_perm o). apply elem_of_map_to_list. Qed.

Lemma NoDup_map_range_fst m : NoDup (map_range o m).*1.
Proof. rewrite (map_range_perm o). apply NoDup_fst_map_to_list. Qed.

Lemma NoDup_map_range m : NoDup (map_range o m).
Proof. eapply NoDup_fmap_1, NoDup_map_range_fst. Qed.

Lemma length_map_range m : length (map_range o m) = size m.
Proof. rewrite (map_range_perm o). apply length_map_to_list. Qed.
End MapRange.

(** ** Lemmas on stable sorting *)

Section StableSortLemmas.
Context {A : Type} (less : A -> A -> bool).

Lemma stable_insert_perm x l : stable_insert less x l ≡ₚ x :: l.
Proof.
  induction l as [|y l IH]; simpl; [done|].
  case_if; [|done]. rewrite IH. constructor.
Qed.

Lemma stable_sort_perm l : stable_sort less l ≡ₚ l.
Proof.
  induction l as [|x l IH]; simpl; [done|].
  by rewrite stable_insert_perm, IH.
Qed.

Lemma length_stable_sort l : length (stable_sort less l) = length l.
Proof. by rewrite stable_sort_perm. Qed.

Context (P : A -> Prop) (Hless : weak_order less P).

Lemma stable_insert_sorted x l :
  P x -> Forall P l -> sorted_by less l -> sorted_by less (stable_insert less x l).
Proof using Hless.
  destruct Hless as [less_asym less_trans].
  unfold sorted_by. intros Hx Hl Hs. induction Hs as [|y l Hs IH Hy]; simpl.
  { repeat constructor. }
  apply Forall_cons in Hl as [Hpy Hl]. case_if.
  - constructor; [auto|]. rewrite stable_insert_perm. constructor; auto.
  - constructor; [by constructor|]. constructor; [done|].
    rewrite Forall_forall in *. eauto.
Qed.

Lemma stable_sort_sorted l : Forall P l -> sorted_by less (stable_sort less l).
Proof using Hless.
  induction 1 as [|x l Hx Hl IH]; simpl; [constructor|]. apply stable_insert_sorted; [done| |done].
  change (foldr (stable_insert less) [] l) with (stable_sort less l). by rewrite stable_sort_perm.
Qed.
End StableSortLemmas.

(** A concrete unstable sort, for evaluation. *)
Definition canonical_sort : SliceSort := {|
  sort_Slice := fun A less l => stable_sort less l;
  sort_Slice_perm := fun A less l => stable_sort_perm less l;
  sort_Slice_sorted := fun A less P l H Hl => stable_sort_sorted less P H l Hl
|}.

(** A comparison that does not panic on the elements sorts as the pure one. *)
Section StableSortOutcomeLemmas.
Context {A : Type} (less_o : A -> A -> outcome bool) (less : A -> A -> bool).

Lemma stable_insert_o_pure x l :
  (forall y, y ∈ l -> less_o y x = Ret (less y x)) ->
  stable_insert_o less_o x l = Ret (stable_insert less x l).
Proof.
  induction l as [|y l IH]; intros H; simpl; [done|].
  rewrite H by set_solver. simpl. destruct (less y x); [|done].
  rewrite IH by set_solver. done.
Qed.

Lemma stable_sort_o_pure l :
  (forall x y, x ∈ l -> y ∈ l -> less_o x y = Ret (less x y)) ->
  stable_sort_o less_o l = Ret (stable_sort less l).
Proof.
  induction l as [|x l IH]; intros H; simpl; [done|].
  rewrite IH by set_solver. simpl. apply stable_insert_o_pure.
  intros y. change (foldr (stable_insert less) [] l) with (stable_sort less l).
  rewrite stable_sort_perm. set_solver.
Qed.
End StableSortOutcomeLemmas.

(** ** Lemmas on sorted lists *)

Lemma StronglySorted_impl {A} (R S : A -> A -> Prop) l :
  (forall x y, R x y -> S x y) -> StronglySorted R l -> StronglySorted S l.
Proof.
  intros HRS. induction 1 as [|x l Hl IH Hx]; constructor; [done|].
  eapply Forall_impl; [exact Hx|]. eauto.
Qed.

(** In a sorted list the elements taken are related to the elements left. *)
Lemma StronglySorted_take_drop {A} (R : A -> A -> Prop) n l x y :
  StronglySorted R l -> x ∈ take n l -> y ∈ drop n l -> R x y.
Proof.
  intros Hs. revert n. induction Hs as [|a l Hs IH Ha]; intros [|n]; simpl; [set_solver..|].
  rewrite elem_of_cons. intros [->|Hx] Hy; [|by eapply IH].
  rewrite Forall_forall in Ha. apply Ha. rewrite <- (take_drop n l). set_solver.
Qed.

Lemma StronglySorted_take {A} (R : A -> A -> Prop) n l :
  StronglySorted R l -> StronglySorted R (take n l).
Proof.
  intros Hs. revert n. induction Hs as [|a l Hs IH Ha]; intros [|n]; simpl; try constructor; [done|].
  rewrite Forall_forall in *. intros x Hx. apply Ha. rewrite <- (take_drop n l). set_solver.
Qed.

Lemma filter_sublist {A} (f : A -> bool) l : sublist (List.filter f l) l.
Proof. induction l as [|x l IH]; simpl; [done|]. destruct (f x); by constructor. Qed.

Lemma filter_true {A} (l : list A) : List.filter (fun _ => true) l = l.
Proof. induction l as [|x l IH]; [done|]. simpl. by rewrite IH. Qed.

Lemma elem_of_filter_iff {A} (f : A -> bool) l x : x ∈ List.filter f l <-> x ∈ l /\ f x = true.
Proof. by rewrite list_elem_of_In, filter_In, <- list_elem_of_In. Qed.

Lemma StronglySorted_filter {A} (P : A -> A -> Prop) f l :
  StronglySorted P l -> StronglySorted P (List.filter f l).
Proof.
  induction 1 as [|x l Hl IH Hx]; simpl; [constructor|]. case_if; [|done]. constructor; [done|].
  rewrite Forall_forall in *. intros y Hy. apply Hx.
  eapply elem_of_sublist; [exact Hy|apply filter_sublist].
Qed.

Lemma StronglySorted_fst {A B} (P : A * B -> A * B -> Prop) (Q : A -> A -> Prop) l :
  (forall x y, x ∈ l -> y ∈ l -> P x y -> Q x.1 y.1) -> StronglySorted P l -> StronglySorted Q l.*1.
Proof.
  intros HPQ Hs. induction Hs as [|x l Hl IH Hx]; [constructor|]. rewrite fmap_cons. constructor.
  - apply IH. intros y z Hy Hz. apply HPQ; by apply list_elem_of_further.
  - rewrite Forall_forall in Hx. apply Forall_forall. intros y (z & -> & Hz)%list_elem_of_fmap.
    apply HPQ; [apply list_elem_of_here|by apply list_elem_of_further|by apply Hx].
Qed.

Lemma StronglySorted_snoc {A} (P : A -> A -> Prop) l x :
  StronglySorted P l -> Forall (fun y => P y x) l -> StronglySorted P (l ++ [x]).
Proof.
  induction 1 as [|y l Hl IH Hy]; intros Hx; simpl; [by repeat constructor|].
  apply Forall_cons in Hx as [Hyx Hx]. constructor; [by apply IH|]. apply Forall_app. by repeat constructor.
Qed.

Lemma StronglySorted_reverse {A} (P : A -> A -> Prop) l :
  StronglySorted P l -> StronglySorted (fun x y => P y x) (reverse l).
Proof.
  induction 1 as [|x l Hl IH Hx]; [constructor|]. rewrite reverse_cons.
  apply StronglySorted_snoc; [done|]. by rewrite reverse_Permutation.
Qed.

#[export] Hint Resolve wrap64_range : deckard.

(** The last element of a non-empty list does not depend on the default. *)
Lemma last_cons {A} (x : A) l d : List.last (x :: l) d = List.last l x.
Proof. revert x d. induction l as [|y l IH]; intros x d; [done|]. etransitivity; [apply (IH y d)|symmetry; apply (IH y x)]. Qed.
