(* ===== verification/GoStrings.v ===== *)
(** * Go's [strings] package

    The functions on text the code calls, on byte strings, with the lemmas
    that relate them to concatenation; and the text of an error. *)

From S2P Require Import Prelude.
#[local] Open Scope string_scope.
#[local] Open Scope list_scope.
#[local] Open Scope nat_scope.

(** ** Definitions *)

(** [s[n:]] and [s[:n]] for an [n] in range. *)
Fixpoint str_drop (n : nat) (s : string) : string :=
  match n, s with S n', String _ s' => str_drop n' s' | _, _ => s end.

Fixpoint str_take (n : nat) (s : string) : string :=
  match n, s with S n', String c s' => String c (str_take n' s') | _, _ => EmptyString end.

(** A suffix of [s] satisfies [f]. *)
Fixpoint any_suffix (f : string -> bool) (s : string) : bool :=
  f s || match s with EmptyString => false | String _ s' => any_suffix f s' end.

Definition HasPrefix (s prefix : string) : bool := String.prefix prefix s.
Definition HasSuffix (s suffix : string) : bool := any_suffix (String.eqb suffix) s.
Definition Contains (s substr : string) : bool := any_suffix (String.prefix substr) s.

Definition ContainsAny (s chars : string) : bool :=
  existsb (fun c => existsb (Ascii.eqb c) (list_ascii_of_string chars)) (list_ascii_of_string s).

Definition TrimPrefix (s prefix : string) : string :=
  if HasPrefix s prefix then str_drop (String.length prefix) s else s.

Definition TrimSuffix (s suffix : string) : string :=
  if HasSuffix s suffix then str_take (String.length s - String.length suffix) s else s.

(** The order of the bytes of two texts. *)
Definition str_ltb (s t : string) : bool :=
  match String.compare s t with Lt => true | _ => false end.

(** Drops encodings of [cutset] from the left, at most [fuel] of them; the
    length of [s] is enough when none is empty. *)
Fixpoint trim_left (fuel : nat) (cutset : list string) (s : string) : string :=
  match fuel with
  | O => s
  | S fuel' =>
      match List.find (HasPrefix s) cutset with
      | Some c => trim_left fuel' cutset (TrimPrefix s c)
      | None => s
      end
  end.

Fixpoint trim_right (fuel : nat) (cutset : list string) (s : string) : string :=
  match fuel with
  | O => s
  | S fuel' =>
      match List.find (HasSuffix s) cutset with
      | Some c => trim_right fuel' cutset (TrimSuffix s c)
      | None => s
      end
  end.

(** [strings.Trim], with the characters of the cutset as encoded in UTF-8. *)
Definition Trim (s : string) (cutset : list string) : string :=
  let s := trim_left (String.length s) cutset s in trim_right (String.length s) cutset s.

Definition bytes (l : list nat) : string := string_of_list_ascii (map ascii_of_nat l).

(** The white space of Unicode, in UTF-8: [\t \n \v \f \r], space, U+0085,
    U+00A0, U+1680, U+2000 to U+200A, U+2028, U+2029, U+202F, U+205F, U+3000. *)
Definition unicode_space : list string :=
  map bytes
    ([[9]; [10]; [11]; [12]; [13]; [32]; [194; 133]; [194; 160]; [225; 154; 128];
      [226; 128; 168]; [226; 128; 169]; [226; 128; 175]; [226; 129; 159]; [227; 128; 128]] ++
     map (fun n => [226; 128; 128 + n]) (seq 0 11)).

Definition TrimSpace (s : string) : string := Trim s unicode_space.

(** [err.Error()]. *)
Fixpoint error_Error (err : error) : string :=
  match err with
  | ErrorString msg => msg
  | WrapError msg err' => msg +:+ ": " +:+ error_Error err'
  | StatusError Internal msg => "rpc error: code = Internal desc = " +:+ msg
  | StatusError InvalidArgument msg => "rpc error: code = InvalidArgument desc = " +:+ msg
  | JoinError err1 err2 => error_Error err1 +:+ bytes [10%nat] +:+ error_Error err2
  end.

(** ** Lemmas *)

Lemma str_ltb_asym s t : str_ltb s t = true -> str_ltb t s = false.
Proof. unfold str_ltb. rewrite (String.compare_antisym t s). by destruct (String.compare s t). Qed.

Lemma str_ltb_cons c s d t :
  str_ltb (String c s) (String d t) = (N_of_ascii c <? N_of_ascii d)%N || Ascii.eqb c d && str_ltb s t.
Proof.
  unfold str_ltb. simpl. unfold Ascii.compare.
  destruct (N.compare_spec (N_of_ascii c) (N_of_ascii d)) as [E|Hlt|Hgt].
  - assert (c = d) as -> by (rewrite <- (ascii_N_embedding c), <- (ascii_N_embedding d); by f_equal).
    by rewrite N.ltb_irrefl, Ascii.eqb_refl.
  - by rewrite (proj2 (N.ltb_lt _ _)).
  - rewrite (proj2 (N.ltb_ge _ _)) by lia. destruct (Ascii.eqb_spec c d) as [->|]; [lia|done].
Qed.

Lemma str_nltb_trans s t u : str_ltb s t = false -> str_ltb t u = false -> str_ltb s u = false.
Proof.
  revert t u. induction s as [|c s IH]; intros [|d t] [|e u]; try done.
  rewrite !str_ltb_cons, !orb_false_iff, !andb_false_iff, !N.ltb_ge, !Ascii.eqb_neq.
  intros [H1 H2] [H3 H4]. split; [lia|].
  destruct (decide (c = e)) as [->|Hne]; [right|by left].
  assert (Hd : N_of_ascii d = N_of_ascii e) by lia.
  assert (d = e) as -> by (rewrite <- (ascii_N_embedding d), <- (ascii_N_embedding e); by f_equal).
  destruct H2; [done|]. destruct H4; [done|]. by eapply IH.
Qed.

Lemma append_nil (s : string) : (EmptyString +:+ s) = s.
Proof. reflexivity. Qed.

Lemma append_cons c (s t : string) : (String c s +:+ t) = String c (s +:+ t).
Proof. reflexivity. Qed.

Lemma append_nil_r (s : string) : (s +:+ EmptyString) = s.
Proof. induction s as [|c s IH]; [done|]. by rewrite append_cons, IH. Qed.

Lemma append_assoc (s t u : string) : ((s +:+ t) +:+ u) = (s +:+ (t +:+ u)).
Proof. induction s as [|c s IH]; [done|]. by rewrite !append_cons, IH. Qed.

Lemma append_length (s t : string) : String.length (s +:+ t) = String.length s + String.length t.
Proof. induction s as [|c s IH]; [done|]. rewrite append_cons. simpl. by rewrite IH. Qed.

Lemma list_ascii_append (s t : string) :
  list_ascii_of_string (s +:+ t) = list_ascii_of_string s ++ list_ascii_of_string t.
Proof. induction s as [|c s IH]; [done|]. rewrite append_cons. simpl. by rewrite IH. Qed.

Lemma str_drop_append (s t : string) : str_drop (String.length s) (s +:+ t) = t.
Proof. induction s as [|c s IH]; [done|]. by rewrite append_cons. Qed.

Lemma str_take_append (s t : string) : str_take (String.length s) (s +:+ t) = s.
Proof. induction s as [|c s IH]; [by destruct t|]. rewrite append_cons. simpl. by rewrite IH. Qed.

Lemma any_suffix_true f s : any_suffix f s = true <-> exists t u, s = (t +:+ u) /\ f u = true.
Proof.
  induction s as [|c s IH]; simpl; rewrite orb_true_iff.
  - split; [intros [H|?]; [by exists "", ""|done]|].
    intros (t & u & E & H). left. destruct t; [|done]. rewrite append_nil in E. by subst.
  - rewrite IH. split.
    + intros [H|(t & u & -> & H)]; [by exists "", (String c s)|by exists (String c t), u].
    + intros ([|c' t] & u & E & H); [rewrite append_nil in E; left; by subst|].
      rewrite append_cons in E. injection E as -> ->. right. by exists t, u.
Qed.

Lemma HasPrefix_true s p : HasPrefix s p = true <-> exists t, s = (p +:+ t).
Proof.
  unfold HasPrefix. revert s. induction p as [|c p IH]; intros s; simpl.
  - split; [intros _; by exists s|by destruct s].
  - destruct s as [|d s]; [split; [done|by intros [? ?]]|].
    setoid_rewrite append_cons.
    change (String.prefix (String c p) (String d s)) with (if ascii_dec c d then String.prefix p s else false).
    destruct (ascii_dec c d) as [->|Hc]; [rewrite IH|]; naive_solver.
Qed.

Lemma HasSuffix_true s p : HasSuffix s p = true <-> exists t, s = (t +:+ p).
Proof.
  unfold HasSuffix. rewrite any_suffix_true. split.
  - intros (t & u & -> & <-%String.eqb_eq). by exists t.
  - intros [t ->]. exists t, p. by rewrite String.eqb_refl.
Qed.

Lemma HasSuffix_append s p : HasSuffix (s +:+ p) p = true.
Proof. apply HasSuffix_true. by exists s. Qed.

Lemma TrimPrefix_append p s : TrimPrefix (p +:+ s) p = s.
Proof.
  unfold TrimPrefix. rewrite (proj2 (HasPrefix_true _ _)) by eauto. apply str_drop_append.
Qed.

Lemma TrimSuffix_append p s : TrimSuffix (s +:+ p) p = s.
Proof.
  unfold TrimSuffix. rewrite HasSuffix_append, append_length, Nat.add_sub. apply str_take_append.
Qed.

(** The last characters of two texts. *)
Lemma append_last_inj (s t : string) c d :
  (s +:+ String c EmptyString) = (t +:+ String d EmptyString) -> s = t /\ c = d.
Proof.
  revert t. induction s as [|a s IH]; intros [|b t]; rewrite ?append_cons, ?append_nil; intros E.
  - by injection E as ->.
  - injection E as _ E. by destruct t.
  - injection E as _ E. by destruct s.
  - injection E as -> [-> ->]%IH. done.
Qed.

Lemma append_inj_r (s t u : string) : (s +:+ u) = (t +:+ u) -> s = t.
Proof.
  intros E. assert (Hl : String.length s = String.length t).
  { apply (f_equal String.length) in E. rewrite !append_length in E. lia. }
  apply (f_equal (str_take (String.length s))) in E. rewrite str_take_append in E.
  by rewrite Hl, str_take_append in E.
Qed.

Lemma Contains_true s t : Contains s t = true <-> exists u v, s = (u +:+ (t +:+ v)).
Proof.
  unfold Contains. rewrite any_suffix_true. split.
  - intros (u & w & -> & [v ->]%HasPrefix_true). by exists u, v.
  - intros (u & v & ->). exists u, (t +:+ v). split; [done|]. apply HasPrefix_true. by exists v.
Qed.

Lemma ContainsAny_false s chars :
  ContainsAny s chars = false <->
  forall c, c ∈ list_ascii_of_string s -> c ∉ list_ascii_of_string chars.
Proof.
  unfold ContainsAny. rewrite <- not_true_iff_false, existsb_exists. split.
  - intros H c Hc Hin. apply H. exists c. split; [by apply list_elem_of_In|].
    apply existsb_exists. exists c. split; [by apply list_elem_of_In|]. apply Ascii.eqb_refl.
  - intros H (c & Hc%list_elem_of_In & (d & Hd%list_elem_of_In & ->%Ascii.eqb_eq)%existsb_exists).
    by apply (H d).
Qed.

(** Trimming stops when nothing of the cutset is left on the side. *)
Lemma TrimPrefix_shorter s p :
  HasPrefix s p = true -> String.length (TrimPrefix s p) = String.length s - String.length p.
Proof. intros [t ->]%HasPrefix_true. rewrite TrimPrefix_append, append_length. lia. Qed.

Lemma TrimSuffix_shorter s p :
  HasSuffix s p = true -> String.length (TrimSuffix s p) = String.length s - String.length p.
Proof. intros [t ->]%HasSuffix_true. rewrite TrimSuffix_append, append_length. lia. Qed.

Lemma HasPrefix_empty p : HasPrefix "" p = true -> p = "".
Proof. intros [t E]%HasPrefix_true. by destruct p. Qed.

Lemma trim_left_done cutset : Forall (fun c => c <> "") cutset -> forall fuel s,
  String.length s <= fuel ->
  Forall (fun c => HasPrefix (trim_left fuel cutset s) c = false) cutset.
Proof.
  intros Hc. induction fuel as [|fuel IH]; intros s Hs; simpl.
  - assert (s = "") as -> by (destruct s; [done|simpl in Hs; lia]).
    eapply Forall_impl; [exact Hc|]. intros c Hne. apply not_true_iff_false.
    by intros ?%HasPrefix_empty.
  - destruct (List.find _ _) as [c|] eqn:E.
    + apply find_some in E as [Hin Hp]. apply IH. rewrite TrimPrefix_shorter by done.
      rewrite Forall_forall in Hc. specialize (Hc c (proj2 (list_elem_of_In _ _) Hin)).
      destruct c; [done|]. simpl. lia.
    + apply Forall_forall. intros c Hin%list_elem_of_In. by eapply find_none.
Qed.

Lemma trim_right_done cutset : Forall (fun c => c <> "") cutset -> forall fuel s,
  String.length s <= fuel ->
  Forall (fun c => HasSuffix (trim_right fuel cutset s) c = false) cutset.
Proof.
  intros Hc. induction fuel as [|fuel IH]; intros s Hs; simpl.
  - assert (s = "") as -> by (destruct s; [done|simpl in Hs; lia]).
    eapply Forall_impl; [exact Hc|]. intros c Hne. apply not_true_iff_false.
    intros [t E]%HasSuffix_true. destruct t; [rewrite append_nil in E; congruence|done].
  - destruct (List.find _ _) as [c|] eqn:E.
    + apply find_some in E as [Hin Hp]. apply IH. rewrite TrimSuffix_shorter by done.
      rewrite Forall_forall in Hc. specialize (Hc c (proj2 (list_elem_of_In _ _) Hin)).
      destruct c; [done|]. simpl. lia.
    + apply Forall_forall. intros c Hin%list_elem_of_In. by eapply find_none.
Qed.

(** Trimming the right side keeps a left side that had nothing to trim. *)
Lemma trim_right_prefix cutset : forall fuel s, exists t, s = (trim_right fuel cutset s +:+ t).
Proof.
  induction fuel as [|fuel IH]; intros s; simpl; [exists ""; by rewrite append_nil_r|].
  destruct (List.find _ _) as [c|] eqn:E; [|exists ""; by rewrite append_nil_r].
  apply find_some in E as [_ [u ->]%HasSuffix_true]. rewrite TrimSuffix_append.
  destruct (IH u) as [t Ht]. exists (t +:+ c). by rewrite <- append_assoc, <- Ht.
Qed.

(** A text without the characters of the cutset is not trimmed. *)
Lemma trim_left_id cutset s :
  Forall (fun c => exists x, x ∈ list_ascii_of_string c /\ x ∉ list_ascii_of_string s) cutset ->
  forall fuel, trim_left fuel cutset s = s /\ trim_right fuel cutset s = s.
Proof.
  intros Hc [|fuel]; [done|]. rewrite Forall_forall in Hc. cbn [trim_left trim_right]. split.
  - destruct (List.find _ _) as [c|] eqn:E; [|done]. apply find_some in E as [Hin [t ->]%HasPrefix_true].
    apply list_elem_of_In in Hin. destruct (Hc c Hin) as (x & Hx & Hn). destruct Hn.
    rewrite list_ascii_append. by apply elem_of_app; left.
  - destruct (List.find _ _) as [c|] eqn:E; [|done]. apply find_some in E as [Hin [t ->]%HasSuffix_true].
    apply list_elem_of_In in Hin. destruct (Hc c Hin) as (x & Hx & Hn). destruct Hn.
    rewrite list_ascii_append. by apply elem_of_app; right.
Qed.

Lemma Trim_id cutset s :
  Forall (fun c => exists x, x ∈ list_ascii_of_string c /\ x ∉ list_ascii_of_string s) cutset ->
  Trim s cutset = s.
Proof.
  intros Hc. unfold Trim. destruct (trim_left_id cutset s Hc (String.length s)) as [-> Hr]. exact Hr.
Qed.

(** The result of [Trim] neither starts nor ends with the cutset. *)
Lemma Trim_done s cutset c :
  Forall (fun c => c <> "") cutset -> c ∈ cutset ->
  HasPrefix (Trim s cutset) c = false /\ HasSuffix (Trim s cutset) c = false.
Proof.
  intros Hc Hin. unfold Trim. set (s1 := trim_left _ _ s).
  pose proof (trim_left_done cutset Hc _ s (le_n _)) as Hl. fold s1 in Hl.
  pose proof (trim_right_done cutset Hc _ s1 (le_n _)) as Hr.
  rewrite Forall_forall in Hl, Hr. split; [|by apply Hr].
  apply not_true_iff_false. intros [u Hu]%HasPrefix_true.
  destruct (trim_right_prefix cutset (String.length s1) s1) as [t Ht].
  specialize (Hl c Hin). apply not_true_iff_false in Hl. apply Hl. apply HasPrefix_true.
  exists (u +:+ t). rewrite Ht at 1. by rewrite Hu, append_assoc.
Qed.
