(* ===== verification/Float64.v ===== *)
(** * IEEE 754 binary64, the [float64] of Go

    Scores are [float64] values.  They are modelled with the executable
    specification of binary64 of the standard library ([SpecFloat]): zeros,
    infinities, NaN and finite numbers are distinct values, and the operators
    are the IEEE ones.  The file gives the operators the code uses, the order
    they induce, and the exactness of the conversions between [int64] and
    [float64] up to [2^53]. *)

From Stdlib Require Import SpecFloat.
From S2P Require Import Prelude.

(** ** Definitions *)

Abbreviation float64 := spec_float (only parsing).

Definition f64_prec : Z := 53.
Definition f64_emax : Z := 1024.

(** [x == y], [x < y], [x <= y], [x > y]. *)
Definition f64_eqb (x y : float64) : bool := SFeqb x y.
Definition f64_ltb (x y : float64) : bool := SFltb x y.
Definition f64_leb (x y : float64) : bool := SFleb x y.
Definition f64_gtb (x y : float64) : bool := SFltb y x.

Definition f64_add (x y : float64) : float64 := SFadd f64_prec f64_emax x y.
Definition f64_sub (x y : float64) : float64 := SFsub f64_prec f64_emax x y.

Definition f64_is_nan (x : float64) : bool :=
  match x with S754_nan => true | _ => false end.

Definition f64_zero : float64 := S754_zero false.

(** [float64(z)] for an integer [z]: rounding to nearest even. *)
Definition f64_of_Z (z : Z) : float64 := binary_normalize f64_prec f64_emax z 0 false.

(** [int64(x)]: truncation toward zero.  A value that [int64] cannot hold has
    an implementation-defined conversion: the amd64 one is written here. *)
Definition f64_trunc (x : float64) : option Z :=
  match x with
  | S754_zero _ => Some 0
  | S754_finite s m e =>
      let a := if 0 <=? e then Z.pos m * 2 ^ e else Z.pos m / 2 ^ (- e) in
      Some (if s then - a else a)
  | _ => None
  end.

Definition f64_to_int64 (x : float64) : Z :=
  match f64_trunc x with
  | Some z => if (min_int64 <=? z) && (z <=? max_int64) then z else min_int64
  | None => min_int64
  end.

(** The key under which finite and infinite floats are ordered: sign and size
    of the exponent first, then the signed mantissa. *)
Definition f64_key (x : float64) : option (Z * Z * Z) :=
  match x with
  | S754_nan => None
  | S754_zero _ => Some (0, 0, 0)
  | S754_infinity s => Some (if s then (-2, 0, 0) else (2, 0, 0))
  | S754_finite false m e => Some (1, e, Z.pos m)
  | S754_finite true m e => Some (-1, - e, Z.neg m)
  end.

Definition lex_ltb (a b : Z * Z * Z) : bool :=
  let '(a1, a2, a3) := a in
  let '(b1, b2, b3) := b in
  (a1 <? b1) || (a1 =? b1) && ((a2 <? b2) || (a2 =? b2) && (a3 <? b3)).

(** ** The order of the non-NaN floats *)

Lemma pos_compare_cont_Z p q : Pos.compare_cont Eq p q = Z.compare (Z.pos p) (Z.pos q).
Proof. reflexivity. Qed.

Lemma f64_ltb_key x y :
  f64_ltb x y = match f64_key x, f64_key y with
                | Some a, Some b => lex_ltb a b
                | _, _ => false
                end.
Proof.
  unfold f64_ltb, SFltb, SFcompare.
  destruct x as [sx|sx| |sx mx ex], y as [sy|sy| |sy my ey]; try destruct sx; try destruct sy;
    try reflexivity; simpl; rewrite pos_compare_cont_Z;
    destruct (Z.compare_spec ex ey), (Z.compare_spec (Z.pos mx) (Z.pos my)); simpl;
    rewrite <- ?Pos2Z.opp_pos; lia.
Qed.

Lemma f64_leb_key x y :
  f64_leb x y = match f64_key x, f64_key y with
                | Some a, Some b => negb (lex_ltb b a)
                | _, _ => false
                end.
Proof.
  unfold f64_leb, SFleb, SFcompare.
  destruct x as [sx|sx| |sx mx ex], y as [sy|sy| |sy my ey]; try destruct sx; try destruct sy;
    try reflexivity; simpl; rewrite pos_compare_cont_Z;
    destruct (Z.compare_spec ex ey), (Z.compare_spec (Z.pos mx) (Z.pos my)); simpl;
    rewrite <- ?Pos2Z.opp_pos; lia.
Qed.

Lemma lex_ltb_true a1 a2 a3 b1 b2 b3 :
  lex_ltb (a1, a2, a3) (b1, b2, b3) = true <->
  a1 < b1 \/ a1 = b1 /\ (a2 < b2 \/ a2 = b2 /\ a3 < b3).
Proof. simpl. lia. Qed.

Lemma lex_ltb_false a1 a2 a3 b1 b2 b3 :
  lex_ltb (a1, a2, a3) (b1, b2, b3) = false <->
  b1 < a1 \/ b1 = a1 /\ (b2 < a2 \/ b2 = a2 /\ b3 <= a3).
Proof. rewrite <- not_true_iff_false, lex_ltb_true. lia. Qed.

Lemma lex_ltb_asym a b : lex_ltb a b = true -> lex_ltb b a = false.
Proof.
  destruct a as [[a1 a2] a3], b as [[b1 b2] b3].
  rewrite lex_ltb_true, lex_ltb_false. lia.
Qed.

Lemma lex_ltb_trans a b c : lex_ltb a b = true -> lex_ltb b c = true -> lex_ltb a c = true.
Proof.
  destruct a as [[a1 a2] a3], b as [[b1 b2] b3], c as [[c1 c2] c3].
  rewrite !lex_ltb_true. lia.
Qed.

Lemma lex_nltb_trans a b c : lex_ltb a b = false -> lex_ltb b c = false -> lex_ltb a c = false.
Proof.
  destruct a as [[a1 a2] a3], b as [[b1 b2] b3], c as [[c1 c2] c3].
  rewrite !lex_ltb_false. lia.
Qed.

Lemma f64_key_nan x : f64_is_nan x = false -> exists a, f64_key x = Some a.
Proof. destruct x as [?|[]| |[]]; simpl; eauto; done. Qed.

(** Replaces the comparisons of floats by those of their keys, and closes the
    cases where a NaN makes them false. *)
Ltac f64_keys :=
  unfold f64_gtb in *; rewrite ?f64_ltb_key, ?f64_leb_key in *;
  repeat match goal with
  | H : f64_is_nan _ = false |- _ => apply f64_key_nan in H as [? H]; rewrite ?H in *
  end;
  repeat case_match; simplify_eq; try done.

Lemma f64_leb_refl x : f64_is_nan x = false -> f64_leb x x = true.
Proof.
  intros [a Ha]%f64_key_nan. rewrite f64_leb_key, Ha.
  destruct (lex_ltb a a) eqn:E; [|done]. by rewrite (lex_ltb_asym _ _ E) in E.
Qed.

Lemma f64_leb_trans x y z : f64_leb x y = true -> f64_leb y z = true -> f64_leb x z = true.
Proof.
  f64_keys. rewrite !negb_true_iff. eauto using lex_nltb_trans.
Qed.

Lemma f64_ltb_nleb x y : f64_ltb x y = true -> f64_leb y x = false.
Proof. f64_keys. by intros ->. Qed.

Lemma f64_ltb_leb x y : f64_ltb x y = true -> f64_leb x y = true.
Proof. f64_keys. by intros ->%lex_ltb_asym. Qed.

Lemma f64_nltb_leb x y :
  f64_is_nan x = false -> f64_is_nan y = false -> f64_ltb x y = false -> f64_leb y x = true.
Proof. intros Hx Hy. f64_keys. by intros ->. Qed.

Lemma f64_nleb_leb x y :
  f64_is_nan x = false -> f64_is_nan y = false -> f64_leb x y = false -> f64_leb y x = true.
Proof. intros Hx Hy. f64_keys. by intros ->%negb_false_iff%lex_ltb_asym. Qed.

Lemma f64_ltb_asym x y : f64_ltb x y = true -> f64_ltb y x = false.
Proof. f64_keys. apply lex_ltb_asym. Qed.

Lemma f64_ltb_trans x y z : f64_ltb x y = true -> f64_ltb y z = true -> f64_ltb x z = true.
Proof. f64_keys. apply lex_ltb_trans. Qed.

Lemma f64_nltb_trans x y z :
  f64_is_nan y = false ->
  f64_ltb x y = false -> f64_ltb y z = false -> f64_ltb x z = false.
Proof. intros Hy. f64_keys. apply lex_nltb_trans. Qed.

Lemma f64_ltb_nan_l x y : f64_is_nan x = true -> f64_ltb x y = false.
Proof. by destruct x. Qed.

Lemma f64_ltb_not_nan x y :
  f64_ltb x y = true -> f64_is_nan x = false /\ f64_is_nan y = false.
Proof. destruct x, y; simpl; done. Qed.

Lemma f64_leb_not_nan x y :
  f64_leb x y = true -> f64_is_nan x = false /\ f64_is_nan y = false.
Proof. destruct x, y; simpl; done. Qed.

(** ** Exact conversions *)

Lemma digits2_pos_bounds p :
  2 ^ (Z.pos (digits2_pos p) - 1) <= Z.pos p < 2 ^ Z.pos (digits2_pos p).
Proof.
  induction p as [p IH|p IH|]; simpl digits2_pos; [..|lia];
    rewrite Pos2Z.inj_succ, Z.pow_succ_r by lia;
    replace (2 ^ (Z.succ (Z.pos (digits2_pos p)) - 1))
      with (2 * 2 ^ (Z.pos (digits2_pos p) - 1))
      by (rewrite <- Z.pow_succ_r by lia; f_equal; lia);
    lia.
Qed.

Lemma digits2_pos_unique p d :
  0 < d -> 2 ^ (d - 1) <= Z.pos p < 2 ^ d -> Z.pos (digits2_pos p) = d.
Proof.
  intros Hd [Hl Hu]. pose proof (digits2_pos_bounds p) as [Hl' Hu'].
  assert (d - 1 < Z.pos (digits2_pos p)) by (apply (Z.pow_lt_mono_r_iff 2); lia).
  assert (Z.pos (digits2_pos p) - 1 < d) by (apply (Z.pow_lt_mono_r_iff 2); lia).
  lia.
Qed.

Lemma iter_xO_pow p n : Z.pos (Pos.iter xO p n) = Z.pos p * 2 ^ Z.pos n.
Proof.
  induction n as [|n IH] using Pos.peano_ind; [simpl; lia|].
  rewrite Pos.iter_succ, Pos2Z.inj_succ, Z.pow_succ_r by lia.
  change (Z.pos (xO (Pos.iter xO p n))) with (2 * Z.pos (Pos.iter xO p n)). rewrite IH. lia.
Qed.

(** A mantissa of exactly 53 bits is not rounded. *)
Lemma binary_round_aux_53 s m e :
  Z.pos (digits2_pos m) = 53 -> -1074 <= e <= 971 ->
  binary_round_aux f64_prec f64_emax s (Z.pos m) e loc_Exact = S754_finite s m e.
Proof.
  intros Hd He.
  assert (Hshr : shr_fexp f64_prec f64_emax (Z.pos m) e loc_Exact =
    ({| shr_m := Z.pos m; shr_r := false; shr_s := false |}, e)).
  { unfold shr_fexp, fexp, emin, Zdigits2. rewrite Hd. unfold f64_prec, f64_emax.
    replace (Z.max (53 + e - 53) (3 - 1024 - 53) - e) with 0 by lia. done. }
  unfold binary_round_aux. rewrite Hshr. cbn -[shr_fexp Z.leb]. rewrite Hshr. cbn -[Z.leb].
  by destruct (Z.leb_spec e (Z.sub f64_emax f64_prec)); [|unfold f64_emax, f64_prec in *; lia].
Qed.

Lemma binary_round_exact s p :
  Z.pos p < 2 ^ 53 ->
  exists m e, binary_round f64_prec f64_emax s p 0 = S754_finite s m e /\
    2 ^ 52 <= Z.pos m < 2 ^ 53 /\ -52 <= e <= 0 /\ Z.pos m = Z.pos p * 2 ^ (- e).
Proof.
  intros Hp. pose proof (digits2_pos_bounds p) as [Hl Hu].
  set (d := Z.pos (digits2_pos p)) in *.
  assert (Hd : 1 <= d <= 53).
  { split; [subst d; lia|]. assert (d - 1 < 53); [|lia].
    apply (Z.pow_lt_mono_r_iff 2); lia. }
  set (n := 53 - d).
  assert (Hshl : shl_align p 0 (fexp f64_prec f64_emax (d + 0)) =
    (match n with Z.pos k => Pos.iter xO p k | _ => p end, - n)).
  { unfold fexp, emin, f64_prec, f64_emax.
    replace (Z.max (d + 0 - 53) (3 - 1024 - 53)) with (- n) by lia.
    unfold shl_align. rewrite Z.sub_0_r. destruct n as [|k|k] eqn:En; simpl; [done..|lia]. }
  set (m := match n with Z.pos k => Pos.iter xO p k | _ => p end) in *.
  assert (Hm : Z.pos m = Z.pos p * 2 ^ n).
  { subst m. destruct n as [|k|k] eqn:En; [lia|apply iter_xO_pow|lia]. }
  assert (Hb : 2 ^ 52 <= Z.pos m < 2 ^ 53).
  { rewrite Hm. replace 52 with ((d - 1) + n) by lia. replace 53 with (d + n) by lia.
    rewrite !Z.pow_add_r by lia. nia. }
  exists m, (- n). unfold binary_round. fold d. rewrite Hshl.
  rewrite binary_round_aux_53; [|apply digits2_pos_unique; lia|lia].
  rewrite Z.opp_involutive. split_and!; try done; lia.
Qed.

(** The shape of [float64(z)] for [|z| <= 2^53]. *)
Lemma f64_of_Z_shape z :
  Z.abs z <= 2 ^ 53 ->
  z = 0 /\ f64_of_Z z = S754_zero false \/
  exists m e, z <> 0 /\ f64_of_Z z = S754_finite (z <? 0) m e /\
    2 ^ 52 <= Z.pos m < 2 ^ 53 /\
    (-52 <= e <= 0 /\ Z.pos m = Z.abs z * 2 ^ (- e) \/
     e = 1 /\ Z.pos m = 2 ^ 52 /\ Z.abs z = 2 ^ 53).
Proof.
  intros Hz. destruct z as [|p|p]; [by left|right..]; simpl in Hz;
    (destruct (Z.eq_dec (Z.pos p) (2 ^ 53)) as [He|Hne];
     [injection He as ->; eexists _, _; split_and!;
        [done|vm_compute; reflexivity|lia..|right; lia]|]).
  - destruct (binary_round_exact false p) as (m & e & H & ? & ? & ?); [lia|].
    exists m, e. split_and!; [done|exact H|lia..|left; lia].
  - destruct (binary_round_exact true p) as (m & e & H & ? & ? & ?); [lia|].
    exists m, e. split_and!; [done|exact H|lia..|left; lia].
Qed.

(** [int64(float64(z))] is [z] for [|z| <= 2^53]. *)
Lemma f64_to_int64_of_Z z : Z.abs z <= 2 ^ 53 -> f64_to_int64 (f64_of_Z z) = z.
Proof.
  intros Hz. assert (Ht : f64_trunc (f64_of_Z z) = Some z).
  { destruct (f64_of_Z_shape z Hz) as [[-> _]|(m & e & Hn & -> & Hm & He)]; [done|].
    simpl. f_equal. destruct He as [[He Hme]|(-> & -> & Habs)].
    - assert (Ha : (if 0 <=? e then Z.pos m * 2 ^ e else Z.pos m / 2 ^ (- e)) = Z.abs z).
      { case_if; bool_hyps; rewrite Hme.
        - replace e with 0 by lia. simpl. lia.
        - apply Z.div_mul. lia. }
      rewrite Ha. case_if; bool_hyps; lia.
    - case_if; bool_hyps; simpl; lia. }
  unfold f64_to_int64. rewrite Ht. unfold min_int64, max_int64. by destruct (_ && _) eqn:?; [|lia].
Qed.

(** The conversion of an integer is never a NaN. *)
Lemma shr_m_nonneg mrs e n :
  0 <= shr_m mrs -> 0 <= shr_m (fst (shr mrs e n)).
Proof.
  assert (H1 : forall r, 0 <= shr_m r -> 0 <= shr_m (shr_1 r)).
  { intros [m r s]. simpl. destruct m as [|[]|]; simpl; lia. }
  assert (Hi : forall p r, 0 <= shr_m r -> 0 <= shr_m (SpecFloat.iter_pos shr_1 p r)).
  { induction p as [p IH|p IH|]; simpl; auto. }
  destruct n; simpl; auto.
Qed.

Lemma shr_fexp_nonneg m e l : 0 <= m -> 0 <= shr_m (fst (shr_fexp f64_prec f64_emax m e l)).
Proof.
  intros Hm. unfold shr_fexp. apply shr_m_nonneg. by destruct l as [|[]].
Qed.

Lemma round_nearest_even_nonneg m l : 0 <= m -> 0 <= round_nearest_even m l.
Proof. intros Hm. destruct l as [|[]]; simpl; try case_if; lia. Qed.

Lemma binary_round_aux_not_nan s m e l :
  0 <= m -> f64_is_nan (binary_round_aux f64_prec f64_emax s m e l) = false.
Proof.
  intros Hm. unfold binary_round_aux.
  pose proof (shr_fexp_nonneg m e l Hm) as H1.
  destruct (shr_fexp f64_prec f64_emax m e l) as [mrs e']. simpl in H1.
  pose proof (shr_fexp_nonneg (round_nearest_even (shr_m mrs) (loc_of_shr_record mrs)) e' loc_Exact
    (round_nearest_even_nonneg _ _ H1)) as H2.
  destruct (shr_fexp f64_prec f64_emax _ e' loc_Exact) as [mrs' e'']. simpl in H2.
  destruct (shr_m mrs'); [done|by destruct (e'' <=? _)|lia].
Qed.

Lemma binary_normalize_not_nan m e szero :
  f64_is_nan (binary_normalize f64_prec f64_emax m e szero) = false.
Proof.
  unfold binary_normalize. destruct m as [|p|p]; [done|..]; unfold binary_round;
    destruct (shl_align _ _ _); by apply binary_round_aux_not_nan.
Qed.

Lemma f64_of_Z_not_nan z : f64_is_nan (f64_of_Z z) = false.
Proof. apply binary_normalize_not_nan. Qed.

(** A difference is a NaN only for a NaN or for two infinities. *)
Lemma f64_sub_not_nan x y :
  f64_is_nan x = false -> f64_is_nan y = false -> (forall s, x <> S754_infinity s) ->
  f64_is_nan (f64_sub x y) = false.
Proof.
  intros Hx Hy Hinf. unfold f64_sub, SFsub. destruct x as [sx|sx| |sx mx ex]; try done.
  - destruct y as [[]|sy| |sy my ey], sx; done.
  - by destruct (Hinf sx).
  - destruct y as [sy|sy| |sy my ey]; try done. apply binary_normalize_not_nan.
Qed.

Lemma f64_of_Z_not_infinity z s : Z.abs z <= 2 ^ 53 -> f64_of_Z z <> S754_infinity s.
Proof. intros Hz. by destruct (f64_of_Z_shape z Hz) as [[_ ->]|(m & e & _ & -> & _)]. Qed.

(** Larger integers have lexicographically larger exponent and mantissa. *)
Lemma scaled_lt p q mp mq ep eq :
  0 < p < q -> -52 <= ep <= 0 -> -52 <= eq <= 0 ->
  2 ^ 52 <= mp -> mq < 2 ^ 53 -> mp = p * 2 ^ (- ep) -> mq = q * 2 ^ (- eq) ->
  ep < eq \/ ep = eq /\ mp < mq.
Proof.
  intros Hpq Hep Heq Hmp Hmq -> ->.
  destruct (Z.lt_trichotomy ep eq) as [?|[->|Hlt]]; [by left|right; split; [done|]|exfalso].
  - apply Z.mul_lt_mono_pos_r; lia.
  - assert (2 ^ (- eq) = 2 ^ (- ep) * 2 ^ (ep - eq)) as E
      by (rewrite <- Z.pow_add_r by lia; f_equal; lia).
    assert (2 <= 2 ^ (ep - eq)) by (apply (Z.pow_le_mono_r 2 1); lia).
    assert (0 < 2 ^ (- ep)) by lia. nia.
Qed.

Lemma f64_of_Z_ltb_pos p q :
  0 < p < q -> q <= 2 ^ 53 ->
  exists mp ep mq eq, f64_of_Z p = S754_finite false mp ep /\
    f64_of_Z q = S754_finite false mq eq /\
    f64_of_Z (- p) = S754_finite true mp ep /\ f64_of_Z (- q) = S754_finite true mq eq /\
    (ep < eq \/ ep = eq /\ Z.pos mp < Z.pos mq).
Proof.
  intros Hpq Hq.
  assert (forall z, 0 < z <= 2 ^ 53 -> exists m e,
    f64_of_Z z = S754_finite false m e /\ f64_of_Z (- z) = S754_finite true m e /\
    2 ^ 52 <= Z.pos m < 2 ^ 53 /\
    (-52 <= e <= 0 /\ Z.pos m = z * 2 ^ (- e) \/ e = 1 /\ Z.pos m = 2 ^ 52 /\ z = 2 ^ 53)) as Hs.
  { intros z Hz. destruct (f64_of_Z_shape z) as [[? _]|(m & e & _ & H & Hm & He)]; [lia..|].
    exists m, e. rewrite Z.abs_eq in He by lia. split_and!; [|..|done].
    - rewrite H. f_equal. lia.
    - assert (Hsym : forall x, 0 < x -> f64_of_Z (- x) = SFopp (f64_of_Z x)).
      { intros [|x|x] Hx; [lia| |lia]. unfold f64_of_Z. simpl. unfold binary_round.
        destruct (shl_align _ _ _) as [mz ez]. unfold binary_round_aux.
        destruct (shr_fexp _ _ _ _ _) as [m1 e1]. destruct (shr_fexp _ _ _ _ _) as [m2 e2].
        destruct (shr_m m2); [done| |done]. by destruct (e2 <=? _). }
      rewrite Hsym, H by lia. simpl. f_equal. destruct (Z.ltb_spec z 0); [lia|done].
    - lia. - lia. }
  destruct (Hs p ltac:(lia)) as (mp & ep & Hp1 & Hp2 & Hpm & Hpe).
  destruct (Hs q ltac:(lia)) as (mq & eq & Hq1 & Hq2 & Hqm & Hqe).
  exists mp, ep, mq, eq. split_and!; try done.
  destruct Hpe as [[? ?]|[? [? ?]]]; [|lia]. destruct Hqe as [[? ?]|[? [? ?]]]; [|lia].
  eapply (scaled_lt p q); lia.
Qed.

Lemma f64_of_Z_ltb_true a b :
  Z.abs a <= 2 ^ 53 -> Z.abs b <= 2 ^ 53 -> a < b -> f64_ltb (f64_of_Z a) (f64_of_Z b) = true.
Proof.
  intros Ha Hb Hab. rewrite f64_ltb_key.
  assert (Hpos : forall z, 0 < z <= 2 ^ 53 -> exists m e, f64_key (f64_of_Z z) = Some (1, e, Z.pos m)).
  { intros z Hz. destruct (f64_of_Z_shape z) as [[? _]|(m & e & _ & H & _)]; [lia..|].
    exists m, e. rewrite H. by destruct (Z.ltb_spec z 0); [lia|]. }
  assert (Hneg : forall z, - 2 ^ 53 <= z < 0 -> exists m e, f64_key (f64_of_Z z) = Some (-1, e, m)).
  { intros z Hz. destruct (f64_of_Z_shape z) as [[? _]|(m & e & _ & H & _)]; [lia..|].
    exists (Z.neg m), (- e). rewrite H. by destruct (Z.ltb_spec z 0); [|lia]. }
  destruct (Z.lt_trichotomy a 0) as [Ha0|[->|Ha0]], (Z.lt_trichotomy b 0) as [Hb0|[->|Hb0]]; try lia.
  - destruct (f64_of_Z_ltb_pos (- b) (- a)) as (mp & ep & mq & eq & _ & _ & Hp & Hq & H); [lia..|].
    rewrite Z.opp_involutive in Hp, Hq. rewrite Hp, Hq.
    apply lex_ltb_true. rewrite <- !Pos2Z.opp_pos. lia.
  - destruct (Hneg a) as (m & e & ->); [lia|done].
  - destruct (Hneg a) as (m & e & ->); [lia|]. destruct (Hpos b) as (m' & e' & ->); [lia|done].
  - destruct (Hpos b) as (m' & e' & ->); [lia|done].
  - destruct (f64_of_Z_ltb_pos a b) as (mp & ep & mq & eq & Hp & Hq & _ & _ & H); [lia..|].
    rewrite Hp, Hq. apply lex_ltb_true. lia.
Qed.

Lemma f64_of_Z_leb a b :
  Z.abs a <= 2 ^ 53 -> Z.abs b <= 2 ^ 53 -> f64_leb (f64_of_Z a) (f64_of_Z b) = (a <=? b).
Proof.
  intros Ha Hb. destruct (Z.leb_spec a b) as [Hle|Hlt].
  - apply Z.lt_eq_cases in Hle as [Hlt| ->].
    + by apply f64_ltb_leb, f64_of_Z_ltb_true.
    + by apply f64_leb_refl, f64_of_Z_not_nan.
  - by apply f64_ltb_nleb, f64_of_Z_ltb_true.
Qed.

Lemma f64_of_Z_ltb a b :
  Z.abs a <= 2 ^ 53 -> Z.abs b <= 2 ^ 53 -> f64_ltb (f64_of_Z a) (f64_of_Z b) = (a <? b).
Proof.
  intros Ha Hb. destruct (Z.ltb_spec a b) as [Hlt|Hle]; [by apply f64_of_Z_ltb_true|].
  destruct (f64_ltb (f64_of_Z a) (f64_of_Z b)) eqn:E; [|done].
  apply f64_ltb_nleb in E. rewrite f64_of_Z_leb in E by done. lia.
Qed.

#[export] Hint Resolve f64_leb_refl f64_ltb_leb f64_of_Z_not_nan : deckard.
