(* ===== verification/Dtime.v ===== *)
(** * Time

    [internal/dtime/deckard_time.go] and the parts of Go's [time] package the
    program uses.  A [time.Time] is an instant: nanoseconds since the Unix
    epoch, as an unbounded integer; [UnixNano] is where the program narrows
    it to [int64].  Durations are [int64] nanoseconds. *)

From S2P Require Import Prelude Float64.

(** ** Package [time] *)

Abbreviation Time := Z (only parsing).

Definition Nanosecond : Z := 1.
Definition Millisecond : Z := 1000000.
Definition Second : Z := 1000000000.
Definition Minute : Z := 60 * Second.

(** [time.Time{}], January 1 of year 1. *)
Definition time_zero : Time := -62135596800 * Second.

Definition UnixNano (t : Time) : Z := wrap64 t.
Definition Unix (t : Time) : Z := t / Second.

(** [time.Unix(sec, nsec)]. *)
Definition time_Unix (sec nsec : Z) : Time := sec * Second + nsec.

Definition Before (t u : Time) : bool := t <? u.
Definition After (t u : Time) : bool := u <? t.
Definition Equal (t u : Time) : bool := t =? u.

(** [t.Add(d)]. *)
Definition time_Add (t : Time) (d : Z) : Time := t + d.

(** [t.Sub(u)] saturates at the bounds of [Duration]. *)
Definition time_Sub (t u : Time) : Z :=
  if t - u <? min_int64 then min_int64
  else if max_int64 <? t - u then max_int64
  else t - u.

(** The proleptic Gregorian calendar, in UTC: days since the epoch of a civil
    date and back.  Years start in March, so that the leap day is the last. *)
Definition days_from_civil (y m d : Z) : Z :=
  let y' := if m <=? 2 then y - 1 else y in
  let era := y' / 400 in
  let yoe := y' mod 400 in
  let doy := (153 * ((m + 9) mod 12) + 2) / 5 + d - 1 in
  era * 146097 + (yoe * 365 + yoe / 4 - yoe / 100 + doy) - 719468.

Definition civil_from_days (days : Z) : Z * Z * Z :=
  let z := days + 719468 in
  let era := z / 146097 in
  let doe := z mod 146097 in
  let yoe := (doe - doe / 1460 + doe / 36524 - doe / 146096) / 365 in
  let doy := doe - (365 * yoe + yoe / 4 - yoe / 100) in
  let mp := (5 * doy + 2) / 153 in
  let d := doy - (153 * mp + 2) / 5 + 1 in
  let m := if mp <? 10 then mp + 3 else mp - 9 in
  (yoe + era * 400 + (if m <=? 2 then 1 else 0), m, d).

Definition day : Z := 86400 * Second.

(** [t.AddDate(years, 0, 0)]: the same civil date [years] later (a leap day
    that does not exist becomes March 1), at the same time of day. *)
Definition AddDate_years (t : Time) (years : Z) : Time :=
  let '(y, m, d) := civil_from_days (t / day) in
  t + (days_from_civil (y + years) m d - days_from_civil y m d) * day.

(** ** Package [dtime] *)

Definition millisPerSecond : Z := Z.quot Second Millisecond.
Definition nanosPerMillisecond : Z := Z.quot Millisecond Nanosecond.

(** [Now]: the provider is the clock reading of the environment of the call. *)
Definition Now (env : Env) : Time := env_now env.

(** The provider [SetNowProviderValues] installs: it returns the first value
    and drops it, except for the last one, which it keeps returning. *)
Definition mockedNow (internalTimeMocking : list Time) : outcome (Time * list Time) :=
  match internalTimeMocking with
  | [t] => Ret (t, [t])
  | t :: rest => Ret (t, rest)
  | [] => Panic "index out of range"
  end.

(** [n] calls of [Now] with the mocked provider. *)
Fixpoint mockedNows (n : nat) (values : list Time) : outcome (list Time) :=
  match n with
  | O => Ret []
  | S n' => obind (mockedNow values) (fun '(t, values') =>
              obind (mockedNows n' values') (fun ts => Ret (t :: ts)))
  end.

Definition TimeToMs (t : Time) : Z := Z.quot (UnixNano t) (Z.quot Millisecond Nanosecond).

Definition NowMs (env : Env) : Z := TimeToMs (Now env).

Definition MsToTime (msInt : Z) : Time :=
  time_Unix (Z.quot msInt millisPerSecond) ((Z.rem msInt millisPerSecond) * nanosPerMillisecond).

Definition MsPrecision (t : Time) : Time := MsToTime (TimeToMs t).

Definition ElapsedTime (env : Env) (since : Time) : Z :=
  Z.quot (time_Sub (Now env) since) Millisecond.

(** ** Lemmas *)

Lemma MsToTime_ms ms : MsToTime ms = ms * Millisecond.
Proof.
  unfold MsToTime, time_Unix, millisPerSecond, nanosPerMillisecond.
  change (Z.quot Second Millisecond) with 1000. change (Z.quot Millisecond Nanosecond) with 1000000.
  pose proof (Z.quot_rem' ms 1000). unfold Second, Millisecond. lia.
Qed.

(** An instant whose nanoseconds fit [int64] (years 1678 to 2262). *)
Definition nano_ok (t : Time) : Prop := is_int64 t.

Lemma TimeToMs_quot t : nano_ok t -> TimeToMs t = Z.quot t Millisecond.
Proof. intros Ht. unfold TimeToMs, UnixNano. by rewrite wrap64_id. Qed.

Lemma TimeToMs_MsToTime_id ms :
  is_int64 (ms * Millisecond) -> TimeToMs (MsToTime ms) = ms.
Proof.
  intros H. rewrite MsToTime_ms, TimeToMs_quot by done.
  unfold Millisecond. by rewrite Z.quot_mul.
Qed.

Lemma TimeToMs_mono t u : nano_ok t -> nano_ok u -> t <= u -> TimeToMs t <= TimeToMs u.
Proof.
  intros. rewrite !TimeToMs_quot by done. apply Z.quot_le_mono; [|done].
  unfold Millisecond. lia.
Qed.

Lemma TimeToMs_bound t : Z.abs (TimeToMs t) <= 2 ^ 53.
Proof.
  unfold TimeToMs. change (Z.quot Millisecond Nanosecond) with 1000000.
  pose proof (wrap64_range t) as [? ?]. fold (UnixNano t) in *.
  unfold min_int64, max_int64 in *.
  pose proof (Z.quot_rem' (UnixNano t) 1000000).
  pose proof (Z.rem_bound_abs (UnixNano t) 1000000 ltac:(lia)). lia.
Qed.

Lemma NowMs_bound env : Z.abs (NowMs env) <= 2 ^ 53.
Proof. apply TimeToMs_bound. Qed.

Lemma AddDate_century_days y m d :
  days_from_civil (y + 100) m d - days_from_civil y m d ∈ [36524; 36525].
Proof.
  unfold days_from_civil.
  rewrite !elem_of_cons. case_match; Z.to_euclidean_division_equations; lia.
Qed.

#[export] Hint Resolve TimeToMs_bound NowMs_bound : deckard.
