(* ===== verification/GoTime.v ===== *)
(** * Durations as text

    [time.ParseDuration] of the standard library, on byte strings: decimal
    numbers with a unit, their sum limited to an [int64] of nanoseconds. *)

From Stdlib Require Import SpecFloat.
From S2P Require Import Prelude GoStrings Float64 Dtime.
#[local] Open Scope string_scope.
#[local] Open Scope list_scope.
#[local] Open Scope Z_scope.

Definition digit_of (c : ascii) : option Z :=
  let n := Z.of_nat (nat_of_ascii c) in if (48 <=? n) && (n <=? 57) then Some (n - 48) else None.

(** [leadingInt]: the digits at the start and the rest; [None] when the
    number does not fit. *)
Fixpoint leading_int (x : Z) (s : string) : option (Z * string) :=
  match s with
  | String c s' =>
      match digit_of c with
      | Some d =>
          if 2 ^ 63 / 10 <? x then None
          else let x := x * 10 + d in if 2 ^ 63 <? x then None else leading_int x s'
      | None => Some (x, s)
      end
  | EmptyString => Some (x, s)
  end.

(** [leadingFraction]: the digits as an integer, the power of ten that divides
    it, and the rest; digits that do not fit are dropped. *)
Fixpoint leading_fraction (x : Z) (scale : float64) (overflow : bool) (s : string) : Z * float64 * string :=
  match s with
  | String c s' =>
      match digit_of c with
      | Some d =>
          if overflow || ((2 ^ 63 - 1) / 10 <? x) then leading_fraction x scale true s'
          else if 2 ^ 63 <? x * 10 + d then leading_fraction x scale true s'
          else leading_fraction (x * 10 + d) (SFmul f64_prec f64_emax scale (f64_of_Z 10)) false s'
      | None => (x, scale, s)
      end
  | EmptyString => (x, scale, s)
  end.

(** The unit at the start: all up to the next digit or point. *)
Fixpoint span_unit (s : string) : string * string :=
  match s with
  | String c s' =>
      match digit_of c with
      | Some _ => (EmptyString, s)
      | None =>
          if Ascii.eqb c "."%char then (EmptyString, s)
          else let '(u, rest) := span_unit s' in (String c u, rest)
      end
  | EmptyString => (EmptyString, EmptyString)
  end.

(** The units; the two signs for micro are encoded in UTF-8. *)
Definition duration_unit (u : string) : option Z :=
  if String.eqb u "ns" then Some 1
  else if String.eqb u "us" || String.eqb u (bytes [194; 181; 115]%nat) || String.eqb u (bytes [206; 188; 115]%nat)
       then Some 1000
  else if String.eqb u "ms" then Some Millisecond
  else if String.eqb u "s" then Some Second
  else if String.eqb u "m" then Some Minute
  else if String.eqb u "h" then Some (60 * Minute)
  else None.

(** One number with its unit: its nanoseconds and the rest of the text. *)
Definition duration_term (s : string) : option (Z * string) :=
  match leading_int 0 s with
  | None => None
  | Some (v, rest) =>
      let pre := negb (Nat.eqb (String.length rest) (String.length s)) in
      let '(f, scale, rest', post) :=
        match rest with
        | String "." after =>
            let '(f, scale, rest') := leading_fraction 0 (f64_of_Z 1) false after in
            (f, scale, rest', negb (Nat.eqb (String.length rest') (String.length after)))
        | _ => (0, f64_of_Z 1, rest, false)
        end in
      if negb pre && negb post then None
      else
        let '(u, rest'') := span_unit rest' in
        match duration_unit u with
        | None => None
        | Some unit =>
            if 2 ^ 63 / unit <? v then None
            else
              let v := v * unit in
              let fraction :=
                if 0 <? f then
                  default 0 (f64_trunc (SFmul f64_prec f64_emax (f64_of_Z f)
                                          (SFdiv f64_prec f64_emax (f64_of_Z unit) scale)))
                else 0 in
              if 2 ^ 63 <? v + fraction then None else Some (v + fraction, rest'')
        end
  end.

(** The sum of the terms, an [uint64]; each takes at least one byte. *)
Fixpoint duration_terms (fuel : nat) (d : Z) (s : string) : option Z :=
  match s with
  | EmptyString => Some d
  | _ =>
      match fuel with
      | O => None
      | S fuel' =>
          match duration_term s with
          | None => None
          | Some (v, rest) =>
              let d := (d + v) mod 2 ^ 64 in
              if 2 ^ 63 <? d then None else duration_terms fuel' d rest
          end
      end
  end.

Definition ParseDuration (s : string) : Z + error :=
  let invalid : Z + error := inr (ErrorString ("time: invalid duration " +:+ s)) in
  let '(neg, s) :=
    match s with
    | String "-" s' => (true, s')
    | String "+" s' => (false, s')
    | _ => (false, s)
    end in
  if String.eqb s "0" then inl 0
  else if String.eqb s "" then invalid
  else match duration_terms (String.length s) 0 s with
       | None => invalid
       | Some d => if neg then inl (- d) else if 2 ^ 63 - 1 <? d then invalid else inl d
       end.

Lemma leading_int_shorter s : forall x v rest,
  leading_int x s = Some (v, rest) -> (String.length rest <= String.length s)%nat.
Proof.
  induction s as [|c s IH]; intros x v rest; cbn [leading_int]; [by intros [= _ <-]|].
  destruct (digit_of c); [|by intros [= _ <-]]. repeat case_if; try done.
  intros H. apply IH in H. cbn. lia.
Qed.

Lemma leading_fraction_shorter s : forall x scale b f scale' rest,
  leading_fraction x scale b s = (f, scale', rest) -> (String.length rest <= String.length s)%nat.
Proof.
  induction s as [|c s IH]; intros x scale b f scale' rest; cbn [leading_fraction]; [by intros [= _ _ <-]|].
  destruct (digit_of c); [|by intros [= _ _ <-]]. repeat case_if; intros H; apply IH in H; cbn; lia.
Qed.

Lemma span_unit_length s : (String.length (span_unit s).1 + String.length (span_unit s).2 = String.length s)%nat.
Proof.
  induction s as [|c s IH]; [done|]. cbn [span_unit]. destruct (digit_of c); [done|]. case_if; [done|].
  destruct (span_unit s) as [u rest]. cbn in *. lia.
Qed.

Lemma duration_unit_nonempty u z : duration_unit u = Some z -> u <> "".
Proof. by intros H ->. Qed.

(** A term is shorter than the text before it, so that the length of the text
    is enough fuel. *)
Lemma duration_term_shorter s v rest :
  duration_term s = Some (v, rest) -> (String.length rest < String.length s)%nat.
Proof.
  unfold duration_term. destruct (leading_int 0 s) as [[x r1]|] eqn:E1; [|done].
  apply leading_int_shorter in E1. intros H.
  assert (Hmid : forall f scale r2 post, (String.length r2 <= String.length r1)%nat ->
    (if negb (negb (Nat.eqb (String.length r1) (String.length s))) && negb post then None
     else let '(u, rest'') := span_unit r2 in
       match duration_unit u with
       | None => None
       | Some unit =>
           if 2 ^ 63 / unit <? x then None
           else let v := x * unit in
             let fraction :=
               if 0 <? f then
                 default 0 (f64_trunc (SFmul f64_prec f64_emax (f64_of_Z f)
                                         (SFdiv f64_prec f64_emax (f64_of_Z unit) scale)))
               else 0 in
             if 2 ^ 63 <? v + fraction then None else Some (v + fraction, rest'')
       end) = Some (v, rest) -> (String.length rest < String.length s)%nat).
  { intros f scale r2 post Hr2. case_if; [done|]. pose proof (span_unit_length r2) as Hlen.
    destruct (span_unit r2) as [u r3]. cbn in Hlen. destruct (duration_unit u) eqn:Eu; [|done].
    apply duration_unit_nonempty in Eu. cbv zeta. case_if; [done|].
    destruct (2 ^ 63 <? _); [done|]. intros [= _ <-].
    destruct u; [done|]. cbn in Hlen. lia. }
  destruct r1 as [|c r1]; [eapply (Hmid 0 (f64_of_Z 1) "" false); [done|exact H]|].
  destruct (ascii_dec c "."%char) as [->|Hc].
  - destruct (leading_fraction 0 (f64_of_Z 1) false r1) as [[f scale] r2] eqn:E2.
    pose proof (leading_fraction_shorter _ _ _ _ _ _ _ E2). eapply Hmid; [|exact H]. cbn. lia.
  - eapply (Hmid 0 (f64_of_Z 1) (String c r1) false); [done|]. rewrite <- H.
    destruct c as [[] [] [] [] [] [] [] []]; try reflexivity. by destruct Hc.
Qed.

Lemma duration_terms_fuel : forall fuel fuel' d s,
  (String.length s <= fuel)%nat -> (String.length s <= fuel')%nat ->
  duration_terms fuel d s = duration_terms fuel' d s.
Proof.
  induction fuel as [|fuel IH]; intros [|fuel'] d [|c s] H H'; cbn in H, H'; try done; try lia.
  cbn [duration_terms]. destruct (duration_term (String c s)) as [[v rest]|] eqn:E; [|done].
  apply duration_term_shorter in E. cbn in E. cbv zeta. destruct (2 ^ 63 <? _); [done|]. apply IH; lia.
Qed.

Example ParseDuration_seconds : ParseDuration "5s" = inl (5 * Second).
Proof. vm_compute. reflexivity. Qed.

Example ParseDuration_mixed : ParseDuration "-1h1.5s" = inl (- (60 * Minute + 1500 * Millisecond)).
Proof. vm_compute. reflexivity. Qed.

Example ParseDuration_bad : exists err, ParseDuration "bad" = inr err.
Proof. vm_compute. by eexists. Qed.
