(* ===== verification/Utils.v ===== *)
(** * Small helpers

    [internal/queue/utils]: the integer minimum, the decimal conversions of
    [strconv] and the glob matcher (a third-party library, hence a class). *)

From S2P Require Import Prelude.
#[local] Open Scope string_scope.
#[local] Open Scope Z_scope.

Definition MinInt64 (x y : Z) : Z := if x <? y then x else y.

(** ** [strconv.FormatInt(z, 10)] *)

Definition digit (d : Z) : ascii := ascii_of_nat (48 + Z.to_nat d).

Fixpoint format_digits (fuel : nat) (n : Z) (acc : string) : string :=
  match fuel with
  | O => acc
  | S fuel' =>
      let acc' := String (digit (n mod 10)) acc in
      if n <? 10 then acc' else format_digits fuel' (n / 10) acc'
  end.

(** The number of decimal digits is at most the number of binary ones. *)
Definition FormatInt (z : Z) : string :=
  let a := Z.abs z in
  let s := format_digits (Z.to_nat (Z.log2 a) + 1) a "" in
  if z <? 0 then String "-"%char s else s.

(** ** [strconv.ParseInt(s, 10, 64)] *)

Definition digit_value (c : ascii) : option Z :=
  let n := Z.of_nat (nat_of_ascii c) in
  if (48 <=? n) && (n <=? 57) then Some (n - 48) else None.

Fixpoint parse_digits (s : string) (acc : Z) : option Z :=
  match s with
  | EmptyString => Some acc
  | String c s' =>
      match digit_value c with
      | Some d => parse_digits s' (acc * 10 + d)
      | None => None
      end
  end.

Definition parse_unsigned (s : string) : option Z :=
  match s with EmptyString => None | _ => parse_digits s 0 end.

(** [None] stands for the error of [ParseInt] (bad syntax or out of range). *)
Definition StrToInt64 (data : string) : option Z :=
  let value :=
    match data with
    | String "-"%char s => Z.opp <$> parse_unsigned s
    | String "+"%char s => parse_unsigned s
    | _ => parse_unsigned data
    end in
  match value with
  | Some z => if (min_int64 <=? z) && (z <=? max_int64) then Some z else None
  | None => None
  end.

(** ** Glob patterns *)

(** [github.com/gobwas/glob]: [glob_compile] fails on a malformed pattern.
    The program relies on the documented meaning of ["*"]: it matches any
    sequence of characters. *)
Class Glob := {
  glob_compile : string -> option (string -> bool);
  glob_star : exists f, glob_compile "*" = Some f /\ forall s, f s = true
}.

(** [glob.MustCompile] panics on a malformed pattern. *)
Definition MatchGlob `{Glob} (value pattern : string) : outcome bool :=
  match glob_compile pattern with
  | Some matches => Ret (matches value)
  | None => Panic "malformed glob pattern"
  end.

(** ** Partitions *)

(** [l[low:high]]. *)
Definition slice {A} (low high : Z) (l : list A) : list A :=
  take (Z.to_nat (high - low)) (drop (Z.to_nat low) l).

(** [github.com/meirf/gopart]: [Partition len size] gives consecutive ranges
    of indexes that cover a collection of [len] elements, each of at most
    [size] and at least one of them. *)
Class Gopart := {
  Partition : Z -> Z -> list (Z * Z);
  Partition_cover : forall A (l : list A) size, 0 < size ->
    concat (map (fun p => slice p.1 p.2 l) (Partition (Z.of_nat (length l)) size)) = l;
  Partition_size : forall A (l : list A) size, 0 < size ->
    Forall (fun p => slice p.1 p.2 l <> [] /\ Z.of_nat (length (slice p.1 p.2 l)) <= size)
      (Partition (Z.of_nat (length l)) size)
}.

(** ** Lemmas *)

Lemma MinInt64_min x y : MinInt64 x y = Z.min x y.
Proof. unfold MinInt64. case_if; bool_hyps; lia. Qed.

Lemma digit_value_digit d : 0 <= d < 10 -> digit_value (digit d) = Some d.
Proof.
  intros Hd. unfold digit_value, digit. rewrite nat_ascii_embedding by lia.
  rewrite Nat2Z.inj_add, Z2Nat.id by lia.
  change (Z.of_nat 48) with 48. case_if; [f_equal; lia|]. apply andb_false_iff in E. lia.
Qed.

Lemma parse_digits_digit d s a :
  0 <= d < 10 -> parse_digits (String (digit d) s) a = parse_digits s (a * 10 + d).
Proof. intros Hd. cbn [parse_digits]. by rewrite digit_value_digit. Qed.

(** Printing [n] in front of [acc] and parsing it back adds [n]. *)
Lemma parse_format_digits fuel : forall n acc,
  0 <= n < 2 ^ Z.of_nat fuel -> (0 < fuel)%nat ->
  exists k, 0 <= k /\
    forall a, parse_digits (format_digits fuel n acc) a = parse_digits acc (a * 10 ^ k + n).
Proof.
  induction fuel as [|fuel IH]; intros n acc Hn Hf; [lia|]. cbn [format_digits].
  pose proof (Z.div_mod n 10 ltac:(lia)) as Hdm.
  pose proof (Z.mod_pos_bound n 10 ltac:(lia)) as Hm.
  case_if; bool_hyps.
  - exists 1. split; [lia|]. intros a. rewrite parse_digits_digit by exact Hm.
    f_equal. rewrite Z.mod_small; lia.
  - rewrite Nat2Z.inj_succ, Z.pow_succ_r in Hn by lia.
    assert (Hf' : (0 < fuel)%nat) by (destruct fuel; [simpl in Hn; lia|lia]).
    destruct (IH (n / 10) (String (digit (n mod 10)) acc)) as (k & Hk & IHk); [lia|done|].
    exists (k + 1). split; [lia|]. intros a. rewrite IHk, parse_digits_digit by exact Hm.
    f_equal. rewrite Z.pow_add_r by lia. lia.
Qed.

Lemma format_digits_head fuel : forall n acc,
  0 <= n -> (0 < fuel)%nat ->
  exists d s, format_digits fuel n acc = String (digit d) s /\ 0 <= d < 10.
Proof.
  induction fuel as [|fuel IH]; intros n acc Hn Hf; [lia|]. cbn [format_digits].
  assert (0 <= n mod 10 < 10) by (apply Z.mod_pos_bound; lia).
  case_if; [by eauto|]. destruct fuel; [simpl; by eauto|].
  apply IH; [apply Z.div_pos; lia|lia].
Qed.

Lemma FormatInt_abs z :
  exists d s, format_digits (Z.to_nat (Z.log2 (Z.abs z)) + 1) (Z.abs z) "" = String (digit d) s /\
    0 <= d < 10 /\ parse_digits (String (digit d) s) 0 = Some (Z.abs z).
Proof.
  set (fuel := (Z.to_nat (Z.log2 (Z.abs z)) + 1)%nat).
  destruct (format_digits_head fuel (Z.abs z) "") as (d & s & E & Hd); [lia|lia|].
  exists d, s. split_and!; [done|lia..|]. rewrite <- E.
  destruct (parse_format_digits fuel (Z.abs z) "") as (k & Hk & H); [|lia|].
  - split; [lia|]. pose proof (Z.log2_nonneg (Z.abs z)).
    subst fuel. rewrite Nat2Z.inj_add, Z2Nat.id by done.
    destruct (Z.eq_dec (Z.abs z) 0) as [->|]; [done|].
    apply Z.log2_spec. lia.
  - rewrite H. by simpl.
Qed.

Lemma digit_not_sign d c : 0 <= d < 10 -> (c = "-"%char \/ c = "+"%char) -> digit d <> c.
Proof.
  intros Hd Hc E. pose proof (digit_value_digit d Hd) as H. rewrite E in H.
  destruct Hc as [-> | ->]; done.
Qed.

Lemma StrToInt64_digit d s :
  0 <= d < 10 ->
  StrToInt64 (String (digit d) s) =
  match parse_digits (String (digit d) s) 0 with
  | Some z => if (min_int64 <=? z) && (z <=? max_int64) then Some z else None
  | None => None
  end.
Proof.
  intros Hd. pose proof (digit_not_sign d "-"%char Hd ltac:(auto)) as H1.
  pose proof (digit_not_sign d "+"%char Hd ltac:(auto)) as H2.
  unfold StrToInt64, parse_unsigned.
  destruct (digit d) as [[] [] [] [] [] [] [] []]; try reflexivity; by destruct H1 || by destruct H2.
Qed.

Lemma StrToInt64_FormatInt_id z : is_int64 z -> StrToInt64 (FormatInt z) = Some z.
Proof.
  intros Hz. destruct (FormatInt_abs z) as (d & s & E & Hd & Hp).
  unfold FormatInt. rewrite E.
  assert (Hr : (min_int64 <=? z) && (z <=? max_int64) = true) by (unfold is_int64 in Hz; lia).
  destruct (Z.ltb_spec z 0).
  - unfold StrToInt64, parse_unsigned. rewrite Hp. simpl.
    replace (- Z.abs z) with z by lia. by rewrite Hr.
  - rewrite StrToInt64_digit by done. rewrite Hp. rewrite Z.abs_eq by lia. by rewrite Hr.
Qed.

Lemma FormatInt_not_empty z : FormatInt z <> "".
Proof.
  destruct (FormatInt_abs z) as (d & s & E & _). unfold FormatInt. rewrite E. by case_if.
Qed.

(** The characters of a number. *)
Definition is_number_char (c : ascii) : bool :=
  match digit_value c with Some _ => true | None => Ascii.eqb c "-" end.

Lemma parse_digits_chars s : forall a v, parse_digits s a = Some v ->
  Forall (fun c => is_number_char c = true) (list_ascii_of_string s).
Proof.
  induction s as [|c s IH]; intros a v; cbn [parse_digits]; [constructor|].
  destruct (digit_value c) as [d|] eqn:E; [|done]. intros Hv. constructor; [|by eapply IH].
  unfold is_number_char. by rewrite E.
Qed.

Lemma FormatInt_chars z : Forall (fun c => is_number_char c = true) (list_ascii_of_string (FormatInt z)).
Proof.
  destruct (FormatInt_abs z) as (d & s & E & _ & Hp). apply parse_digits_chars in Hp.
  unfold FormatInt. rewrite E. case_if; [by constructor|done].
Qed.
