(* ===== verification/Score.v ===== *)
(** * Scores

    [internal/queue/score/score.go]: the bounds of a score, the thresholds of
    a pull request and the score of a new message. *)

From S2P Require Import Prelude Float64 Dtime.

(** ** Definitions *)

Definition Max : float64 := f64_of_Z 9007199254740992.
Definition Min : float64 := f64_of_Z 0.
Definition Undefined : float64 := f64_of_Z (-1).

Definition GetPullMaxScore (score : float64) : option float64 :=
  if f64_eqb score f64_zero then None
  else if f64_gtb score Max then Some Max
  else if f64_ltb score Min then Some Min
  else Some score.

Definition GetPullMinScore (score : float64) : option float64 :=
  if f64_eqb score f64_zero then None
  else if f64_gtb score Max then Some Max
  else if f64_leb score Min then Some Min
  else Some score.

Definition GetScoreByDefaultAlgorithm (env : Env) : float64 := f64_of_Z (NowMs env).

Definition GetAddScore (env : Env) (addRequestScore : float64) : float64 :=
  if f64_eqb addRequestScore f64_zero then GetScoreByDefaultAlgorithm env
  else if f64_ltb addRequestScore Min then Min
  else if f64_gtb addRequestScore Max then Max
  else addRequestScore.

Definition GetScoreFromTime (time : Time) : float64 := f64_of_Z (TimeToMs time).

Definition IsUndefined (score : float64) : bool := f64_eqb score Undefined.

(** A score within the documented bounds. *)
Definition score_ok (s : float64) : bool := f64_leb Min s && f64_leb s Max.

(** ** Lemmas *)

Lemma Max_Z : Max = f64_of_Z (2 ^ 53).
Proof. reflexivity. Qed.

Lemma score_ok_of_Z z : 0 <= z <= 2 ^ 53 -> score_ok (f64_of_Z z) = true.
Proof.
  intros Hz. unfold score_ok, Min. rewrite Max_Z, !f64_of_Z_leb by lia. lia.
Qed.

Lemma score_ok_not_nan s : score_ok s = true -> f64_is_nan s = false.
Proof. unfold score_ok. intros [H _]%andb_true_iff. by apply f64_leb_not_nan in H as [_ ?]. Qed.

(** The cap both the score of a new message and the threshold of a pull apply. *)
Lemma capped_score_ok s :
  f64_is_nan s = false -> f64_ltb s Min = false -> f64_gtb s Max = false -> score_ok s = true.
Proof.
  intros Hn Hmin Hmax. unfold score_ok, f64_gtb in *.
  rewrite (f64_nltb_leb s Min), (f64_nltb_leb Max s) by done. done.
Qed.

Lemma GetAddScore_score_ok env s :
  f64_is_nan s = false -> 0 <= NowMs env -> score_ok (GetAddScore env s) = true.
Proof.
  intros Hn Hnow. unfold GetAddScore, GetScoreByDefaultAlgorithm.
  pose proof (NowMs_bound env).
  case_if; [by apply score_ok_of_Z; lia|]. case_if; [done|]. case_if; [done|].
  by apply capped_score_ok.
Qed.

#[export] Hint Resolve score_ok_of_Z score_ok_not_nan : deckard.
