(* ===== verification/Message.v ===== *)
(** * Messages and queue names

    [internal/queue/message]: the message record, its diagnostics, and the
    split of a queue name at the separator of [internal/queue/pool]. *)

From S2P Require Import Prelude Float64 Dtime.
#[local] Open Scope string_scope.
#[local] Open Scope Z_scope.

(** ** Data *)

(** [anypb.Any]: a type URL and an encoded value, opaque to the program. *)
Record Any := { any_type_url : string; any_value : string }.

(** [MessageDiagnostics]: pointers to counters, any of which may be nil. *)
Record MessageDiagnostics := {
  Acks : option Z;
  Nacks : option Z;
  ConsecutiveAcks : option Z;
  ConsecutiveNacks : option Z
}.

(** The internal id is an [interface{}]: nil before the message is stored, an
    [int64] with the memory storage, an object id with MongoDB. *)
Inductive InternalIdValue :=
  | IdNil
  | IdInt64 (z : Z)
  | IdObjectID (hex : string).

Record Message := {
  ID : string;
  Description : string;
  Queue : string;
  ExpiryDate : Time;
  Timeless : bool;
  Metadata : option (gmap string string);
  Payload : option (gmap string Any);
  StringPayload : string;
  LockMs : Z;
  InternalId : InternalIdValue;
  Score : float64;
  LastUsage : option Time;
  Breakpoint : string;
  LastScoreSubtract : float64;
  TotalScoreSubtract : float64;
  UsageCount : Z;
  QueuePrefix : string;
  QueueSuffix : string;
  Diagnostics : option MessageDiagnostics
}.

#[export] Instance spec_float_eq_dec : EqDecision SpecFloat.spec_float.
Proof. solve_decision. Defined.

#[export] Instance Any_eq_dec : EqDecision Any.
Proof. solve_decision. Defined.

#[export] Instance MessageDiagnostics_eq_dec : EqDecision MessageDiagnostics.
Proof. solve_decision. Defined.

#[export] Instance InternalIdValue_eq_dec : EqDecision InternalIdValue.
Proof. solve_decision. Defined.

#[export] Instance Message_eq_dec : EqDecision Message.
Proof. solve_decision. Defined.

(** [message.Message{}]: every field at its zero value. *)
Definition zero_message : Message := {|
  ID := ""; Description := ""; Queue := ""; ExpiryDate := time_zero; Timeless := false;
  Metadata := None; Payload := None; StringPayload := ""; LockMs := 0; InternalId := IdNil;
  Score := f64_zero; LastUsage := None; Breakpoint := ""; LastScoreSubtract := f64_zero;
  TotalScoreSubtract := f64_zero; UsageCount := 0; QueuePrefix := ""; QueueSuffix := "";
  Diagnostics := None
|}.

(** The message with another score (the field assignments of the code). *)
Definition set_Score (s : float64) (m : Message) : Message := {|
  ID := ID m; Description := Description m; Queue := Queue m; ExpiryDate := ExpiryDate m;
  Timeless := Timeless m; Metadata := Metadata m; Payload := Payload m;
  StringPayload := StringPayload m; LockMs := LockMs m; InternalId := InternalId m;
  Score := s; LastUsage := LastUsage m; Breakpoint := Breakpoint m;
  LastScoreSubtract := LastScoreSubtract m; TotalScoreSubtract := TotalScoreSubtract m;
  UsageCount := UsageCount m; QueuePrefix := QueuePrefix m; QueueSuffix := QueueSuffix m;
  Diagnostics := Diagnostics m
|}.

(** ** Queue names *)

Definition QUEUE_SEPARATOR : string := "::".

(** [strings.Contains(s, sep)]. *)
Fixpoint str_contains (sep s : string) : bool :=
  String.prefix sep s ||
  match s with EmptyString => false | String _ s' => str_contains sep s' end.

(** [s] without its first [n] bytes. *)
Fixpoint str_drop (n : nat) (s : string) : string :=
  match n, s with
  | S n', String _ s' => str_drop n' s'
  | _, _ => s
  end.

(** [strings.SplitN(s, sep, 2)]: the text before the first occurrence of
    [sep] and the text after it, or [s] alone. *)
Fixpoint SplitN2 (sep s : string) : list string :=
  if String.prefix sep s then [""; str_drop (String.length sep) s]
  else match s with
       | EmptyString => [s]
       | String c s' =>
           match SplitN2 sep s' with
           | before :: rest => String c before :: rest
           | [] => [s]
           end
       end.

Definition GetQueueParts (queue : string) : string * string :=
  if negb (str_contains QUEUE_SEPARATOR queue) then (queue, "")
  else
    let data := SplitN2 QUEUE_SEPARATOR queue in
    (nth 0 data "", nth 1 data "").

(** The method [(q *Message) GetQueueParts]. *)
Definition Message_GetQueueParts (q : Message) : string * string := GetQueueParts (Queue q).

Definition GetQueuePrefix (queue : string) : string := fst (GetQueueParts queue).

(** ** Lemmas *)

Lemma str_prefix_app sep s :
  String.prefix sep s = true -> s = String.append sep (str_drop (String.length sep) s).
Proof.
  revert s. induction sep as [|c sep IH]; intros s H; [by destruct s|].
  destruct s as [|c' s]; [done|]. simpl in *. destruct (ascii_dec c c') as [->|]; [|done].
  change (String c' s = String c' (String.append sep (str_drop (String.length sep) s))).
  f_equal. by apply IH.
Qed.

Lemma prefix_nil s : String.prefix "" s = true.
Proof. by destruct s. Qed.

Lemma SplitN2_contains sep s :
  str_contains sep s = true ->
  exists before after, SplitN2 sep s = [before; after] /\
    s = String.append before (String.append sep after).
Proof.
  induction s as [|c s IH]; cbn [str_contains SplitN2]; intros H.
  - rewrite orb_false_r in H. rewrite H. exists "", (str_drop (String.length sep) "").
    split; [done|by apply str_prefix_app].
  - destruct (String.prefix sep (String c s)) eqn:E.
    + exists "", (str_drop (String.length sep) (String c s)).
      split; [done|by apply str_prefix_app].
    + destruct (IH H) as (b & a & -> & ->).
      by exists (String c b), a.
Qed.

(** A separator does not start inside the text before the first one. *)
Lemma SplitN2_first s before after :
  SplitN2 QUEUE_SEPARATOR s = [before; after] ->
  s = String.append before (String.append QUEUE_SEPARATOR after) ->
  str_contains QUEUE_SEPARATOR (String.append before ":") = false.
Proof.
  unfold QUEUE_SEPARATOR.
  revert before. induction s as [|c s IH]; intros before; [done|]. cbn [SplitN2].
  destruct (String.prefix "::" (String c s)) eqn:E.
  { intros [= <- _] _. done. }
  destruct (SplitN2 "::" s) as [|b rest] eqn:Es; [done|].
  intros [= <- ->] Hs. cbn [String.append] in Hs. injection Hs as Hs.
  specialize (IH b eq_refl Hs).
  change (String.append (String c b) ":") with (String c (String.append b ":")).
  cbn [str_contains]. rewrite IH, orb_false_r.
  rewrite Hs in E. cbn [String.prefix] in E |- *. destruct (ascii_dec ":" c); [|done].
  destruct b as [|c2 b].
  - change (String.prefix "" (String ":" after) = false) in E. done.
  - change (String.append (String c2 b) ?x) with (String c2 (String.append b x)) in *.
    cbn [String.prefix] in E |- *. destruct (ascii_dec ":" c2); [|done].
    by rewrite prefix_nil in E.
Qed.
