(* ===== verification/Cache.v ===== *)
(** * The cache interface

    [internal/queue/cache/cache.go] and [internal/queue/pool/pool.go]: the
    pools, the lock types, the keys of the recovery state, the [Cache]
    interface as a class of operations, and the contract its implementations
    keep, stated on the pool each message is in. *)

From S2P Require Import Prelude Float64 Dtime Message.
#[local] Open Scope string_scope.
#[local] Open Scope Z_scope.

(** ** Definitions *)

Inductive PoolType := PRIMARY_POOL | PROCESSING_POOL | LOCK_ACK_POOL | LOCK_NACK_POOL.

Inductive LockType := LOCK_ACK | LOCK_NACK.

#[export] Instance PoolType_eq_dec : EqDecision PoolType.
Proof. solve_decision. Defined.

#[export] Instance LockType_eq_dec : EqDecision LockType.
Proof. solve_decision. Defined.

(** The text of a lock type, used in keys and audit reasons. *)
Definition LockType_string (t : LockType) : string :=
  match t with LOCK_ACK => "lock_ack" | LOCK_NACK => "lock_nack" end.

(** The pool of the messages locked with a lock type. *)
Definition lock_pool (t : LockType) : PoolType :=
  match t with LOCK_ACK => LOCK_ACK_POOL | LOCK_NACK => LOCK_NACK_POOL end.

Definition RECOVERY_RUNNING : string := "recovery".
Definition RECOVERY_FINISHED : string := "recovery_finished".
Definition RECOVERY_STORAGE_BREAKPOINT_KEY : string := "recovery_storage_breakpoint".
Definition RECOVERY_BREAKPOINT_KEY : string := "recovery_breakpoint".

(** [time.Duration(5 * time.Minute).Milliseconds()]. *)
Definition DefaultTimeoutMs : Z := Z.quot (5 * Minute) Millisecond.

(** The [Cache] interface.  Every method takes the state of the cache and
    gives the next one; the methods that read the clock or range over a map
    take the environment of the call, and the ones that can panic return an
    [outcome]. *)
Class Cache (C : Type) := {
  cache_MakeAvailable : Env -> Message -> C -> C * result bool;
  cache_IsProcessing : string -> string -> C -> result bool;
  cache_PullMessages : Env -> string -> Z -> option float64 -> option float64 -> Z -> C ->
    outcome (C * result (list string));
  cache_TimeoutMessages : Env -> string -> C -> C * result (list string);
  cache_LockMessage : Env -> Message -> LockType -> C -> C * result bool;
  cache_UnlockMessages : Env -> string -> LockType -> C -> C * result (list string);
  cache_ListQueues : Env -> string -> PoolType -> C -> outcome (result (list string));
  cache_Insert : Env -> string -> list Message -> C -> C * result (list string);
  cache_Remove : Env -> string -> list string -> C -> C * result Z;
  cache_Flush : Env -> C -> C;
  cache_Get : Env -> string -> C -> result string;
  cache_Set : Env -> string -> string -> C -> C * option error
}.

(** ** The contract *)

(** [moved w q ids p w']: the messages [ids] of queue [q] are now in pool [p]
    ([None]: in no pool) and every other message is where it was. *)
Definition moved (w : string -> string -> option PoolType) (q : string) (ids : list string)
    (p : option PoolType) (w' : string -> string -> option PoolType) : Prop :=
  forall q' id, w' q' id = if decide (q' = q /\ id ∈ ids) then p else w q' id.

Lemma moved_nil (w : string -> string -> option PoolType) q p : moved w q [] p w.
Proof. intros q' i. rewrite decide_False; [done|]. set_solver. Qed.

(** What an implementation of the interface promises to its clients: an
    invariant every operation keeps, and the moves of messages between pools
    each operation makes. *)
Class CacheSpec (C : Type) `{Cache C} := {
  cache_inv : C -> Prop;
  (** the pool a message of a queue is in *)
  where_is : C -> string -> string -> option PoolType;
  (** the value of a key *)
  cache_key : C -> string -> string;
  (** the messages whose operations fail without effect, if they fail *)
  cache_msg_ok : Message -> Prop;
  (** the number of messages one pull may ask for *)
  cache_pull_ok : Z -> Prop;

  spec_MakeAvailable : forall env m c c' b err,
    cache_inv c -> cache_MakeAvailable env m c = (c', (b, err)) ->
    cache_inv c' /\ (forall k, cache_key c' k = cache_key c k) /\
    (b = true -> err = None /\ where_is c (Queue m) (ID m) = Some PROCESSING_POOL) /\
    (err = None -> where_is c (Queue m) (ID m) = Some PROCESSING_POOL -> b = true) /\
    (err = None \/ cache_msg_ok m ->
     moved (where_is c) (Queue m) (if b then [ID m] else []) (Some PRIMARY_POOL) (where_is c'));

  spec_LockMessage : forall env m t c c' b err,
    cache_inv c -> cache_LockMessage env m t c = (c', (b, err)) ->
    cache_inv c' /\ (forall k, cache_key c' k = cache_key c k) /\
    (b = true -> err = None /\ where_is c (Queue m) (ID m) = Some PROCESSING_POOL) /\
    (err = None -> where_is c (Queue m) (ID m) = Some PROCESSING_POOL -> b = true) /\
    (err = None \/ cache_msg_ok m ->
     moved (where_is c) (Queue m) (if b then [ID m] else []) (Some (lock_pool t)) (where_is c'));

  spec_PullMessages : forall env q n minScore maxScore ackDeadlineMs c c' ids err,
    cache_inv c -> cache_pull_ok n ->
    cache_PullMessages env q n minScore maxScore ackDeadlineMs c = Ret (c', (ids, err)) ->
    cache_inv c' /\ (forall k, cache_key c' k = cache_key c k) /\
    NoDup ids /\ (0 < n -> Z.of_nat (length ids) <= n) /\
    Forall (fun id => where_is c q id = Some PRIMARY_POOL) ids /\
    moved (where_is c) q ids (Some PROCESSING_POOL) (where_is c');

  spec_TimeoutMessages : forall env q c c' ids err,
    cache_inv c -> cache_TimeoutMessages env q c = (c', (ids, err)) ->
    cache_inv c' /\ (forall k, cache_key c' k = cache_key c k) /\
    NoDup ids /\ Forall (fun id => where_is c q id = Some PROCESSING_POOL) ids /\
    moved (where_is c) q ids (Some PRIMARY_POOL) (where_is c');

  (** the messages unlocked, with their queues *)
  spec_UnlockMessages : forall env q t c c' ids err,
    cache_inv c -> cache_UnlockMessages env q t c = (c', (ids, err)) ->
    cache_inv c' /\ (forall k, cache_key c' k = cache_key c k) /\
    exists unlocked : list (string * string),
      ids = unlocked.*2 /\ NoDup unlocked /\
      Forall (fun x => where_is c x.1 x.2 = Some (lock_pool t)) unlocked /\
      forall q' id, where_is c' q' id =
        if decide ((q', id) ∈ unlocked) then Some PRIMARY_POOL else where_is c q' id;

  spec_Insert : forall env q ms c c' ids err,
    cache_inv c -> cache_Insert env q ms c = (c', (ids, err)) ->
    cache_inv c' /\ (forall k, cache_key c' k = cache_key c k) /\
    (forall id, id ∈ ids -> where_is c q id = None /\ id ∈ ID <$> ms) /\
    (err = None -> forall id, id ∈ ID <$> ms -> where_is c q id = None -> id ∈ ids) /\
    (err = None \/ Forall cache_msg_ok ms ->
     moved (where_is c) q ids (Some PRIMARY_POOL) (where_is c'));

  (** [gone]: the ids removed, all of them when there is no error *)
  spec_Remove : forall env q ids c c' n err,
    cache_inv c -> cache_Remove env q ids c = (c', (n, err)) ->
    cache_inv c' /\ (forall k, cache_key c' k = cache_key c k) /\
    exists gone, gone ⊆ ids /\ (err = None -> ids ⊆ gone) /\
      moved (where_is c) q gone None (where_is c');

  spec_Flush : forall env c, cache_inv c ->
    cache_inv (cache_Flush env c) /\
    (forall k, cache_key (cache_Flush env c) k = "") /\
    (forall q id, where_is (cache_Flush env c) q id = None);

  spec_Get : forall env k c v, cache_inv c -> cache_Get env k c = (v, None) -> v = cache_key c k;

  spec_Set : forall env k v c c',
    cache_inv c -> cache_Set env k v c = (c', None) ->
    cache_inv c' /\ (forall q id, where_is c' q id = where_is c q id) /\
    (forall k', cache_key c' k' = if decide (k' = k) then v else cache_key c k');

  spec_Set_error : forall env k v c c' e,
    cache_inv c -> cache_Set env k v c = (c', Some e) ->
    cache_inv c' /\ (forall q id, where_is c' q id = where_is c q id)
}.

(** ** Operations as data *)

Section Operations.
Context {C : Type} `{Cache C}.

(** The calls of the interface that change the state. *)
Inductive cache_op :=
  | OpMakeAvailable (m : Message)
  | OpLockMessage (m : Message) (t : LockType)
  | OpPullMessages (q : string) (n : Z) (minScore maxScore : option float64) (ackDeadlineMs : Z)
  | OpTimeoutMessages (q : string)
  | OpUnlockMessages (q : string) (t : LockType)
  | OpInsert (q : string) (ms : list Message)
  | OpRemove (q : string) (ids : list string)
  | OpSet (k v : string)
  | OpFlush.

Definition run_op (env : Env) (op : cache_op) (c : C) : outcome C :=
  match op with
  | OpMakeAvailable m => Ret (cache_MakeAvailable env m c).1
  | OpLockMessage m t => Ret (cache_LockMessage env m t c).1
  | OpPullMessages q n mn mx dl =>
      obind (cache_PullMessages env q n mn mx dl c) (fun r => Ret r.1)
  | OpTimeoutMessages q => Ret (cache_TimeoutMessages env q c).1
  | OpUnlockMessages q t => Ret (cache_UnlockMessages env q t c).1
  | OpInsert q ms => Ret (cache_Insert env q ms c).1
  | OpRemove q ids => Ret (cache_Remove env q ids c).1
  | OpSet k v => Ret (cache_Set env k v c).1
  | OpFlush => Ret (cache_Flush env c)
  end.

(** A history: calls in any order, each with its own environment. *)
Fixpoint run_ops (h : list (Env * cache_op)) (c : C) : outcome C :=
  match h with
  | [] => Ret c
  | (env, op) :: h' => obind (run_op env op c) (run_ops h')
  end.
End Operations.

(** The life cycle of a message: the moves between pools each operation may
    make for the message [id] of queue [q]. *)
Inductive life_step (q id : string) : cache_op -> option PoolType -> option PoolType -> Prop :=
  | life_stay op p : life_step q id op p p
  | life_insert ms : id ∈ ID <$> ms -> life_step q id (OpInsert q ms) None (Some PRIMARY_POOL)
  | life_pull n mn mx dl :
      life_step q id (OpPullMessages q n mn mx dl) (Some PRIMARY_POOL) (Some PROCESSING_POOL)
  | life_available m : Queue m = q -> ID m = id ->
      life_step q id (OpMakeAvailable m) (Some PROCESSING_POOL) (Some PRIMARY_POOL)
  | life_timeout : life_step q id (OpTimeoutMessages q) (Some PROCESSING_POOL) (Some PRIMARY_POOL)
  | life_lock m t : Queue m = q -> ID m = id ->
      life_step q id (OpLockMessage m t) (Some PROCESSING_POOL) (Some (lock_pool t))
  | life_unlock q' t : life_step q id (OpUnlockMessages q' t) (Some (lock_pool t)) (Some PRIMARY_POOL)
  | life_remove ids p : id ∈ ids -> life_step q id (OpRemove q ids) p None
  | life_flush p : life_step q id OpFlush p None.
