(* ===== verification/MemoryCache.v ===== *)
(** * The memory cache

    [internal/queue/cache/memory_cache.go].  A pool maps a queue to a
    [*list.List], kept sorted by score; [None] is the nil pointer.  Every
    exported method holds the mutex of the cache for its whole body, so a
    method is one transition of the state. *)

From S2P Require Import Prelude Float64 Dtime Utils Score Message Cache.
#[local] Open Scope string_scope.
#[local] Open Scope Z_scope.

(** ** State *)

Record MemoryMessageEntry := {
  score : float64;
  id : string;
  lockUntil : float64
}.

(** A [*list.List] of entries. *)
Abbreviation List := (option (list MemoryMessageEntry)) (only parsing).

Abbreviation Pool := (gmap string (option (list MemoryMessageEntry))) (only parsing).

Record MemoryCache := {
  queues : Pool;
  processingQueues : Pool;
  lockAckQueues : Pool;
  lockNackQueues : Pool;
  keys : gmap string string
}.

Definition NewMemoryCache : MemoryCache :=
  {| queues := ∅; processingQueues := ∅; lockAckQueues := ∅; lockNackQueues := ∅; keys := ∅ |}.

(** [m[queue]]: nil when the key is absent. *)
Definition pool_get (p : Pool) (queue : string) : List := default None (p !! queue).

(** The elements of a list, none for nil. *)
Definition entries (l : List) : list MemoryMessageEntry := default [] l.

Definition with_queues (p : Pool) (c : MemoryCache) : MemoryCache :=
  {| queues := p; processingQueues := processingQueues c; lockAckQueues := lockAckQueues c;
     lockNackQueues := lockNackQueues c; keys := keys c |}.
Definition with_processing (p : Pool) (c : MemoryCache) : MemoryCache :=
  {| queues := queues c; processingQueues := p; lockAckQueues := lockAckQueues c;
     lockNackQueues := lockNackQueues c; keys := keys c |}.
Definition with_lock (t : LockType) (p : Pool) (c : MemoryCache) : MemoryCache :=
  match t with
  | LOCK_ACK => {| queues := queues c; processingQueues := processingQueues c; lockAckQueues := p;
                   lockNackQueues := lockNackQueues c; keys := keys c |}
  | LOCK_NACK => {| queues := queues c; processingQueues := processingQueues c;
                    lockAckQueues := lockAckQueues c; lockNackQueues := p; keys := keys c |}
  end.

(** The map a pool type or a lock type selects. *)
Definition pool_map (poolType : PoolType) (c : MemoryCache) : Pool :=
  match poolType with
  | PRIMARY_POOL => queues c
  | PROCESSING_POOL => processingQueues c
  | LOCK_ACK_POOL => lockAckQueues c
  | LOCK_NACK_POOL => lockNackQueues c
  end.

(** ** List operations *)

Definition createEntry (message : Message) : MemoryMessageEntry :=
  {| score := Score message; id := ID message; lockUntil := f64_zero |}.

Definition set_score (s : float64) (e : MemoryMessageEntry) : MemoryMessageEntry :=
  {| score := s; id := id e; lockUntil := lockUntil e |}.

Definition set_lockUntil (u : float64) (e : MemoryMessageEntry) : MemoryMessageEntry :=
  {| score := score e; id := id e; lockUntil := u |}.

(** The loop of [removeEntry]: unlinks the first element with the id. *)
Fixpoint remove_id (i : string) (l : list MemoryMessageEntry) : list MemoryMessageEntry * bool :=
  match l with
  | [] => ([], false)
  | e :: l' =>
      if String.eqb (id e) i then (l', true)
      else let '(l'', b) := remove_id i l' in (e :: l'', b)
  end.

Definition removeEntry (data : MemoryMessageEntry) (listToRemove : List) : List * bool :=
  match listToRemove with
  | None => (None, false)
  | Some l => let '(l', b) := remove_id (id data) l in (Some l', b)
  end.

(** The loop of [insertEntry]: before the first element whose score is not
    smaller, or at the back. *)
Fixpoint insert_sorted (data : MemoryMessageEntry) (l : list MemoryMessageEntry) :
    list MemoryMessageEntry :=
  match l with
  | [] => [data]
  | value :: l' =>
      if f64_leb (score data) (score value) then data :: l
      else value :: insert_sorted data l'
  end.

Definition insertEntry (data : MemoryMessageEntry) (listData : List) : List * bool :=
  let listData := match listData with None => Some [] | Some l => Some l end in
  let '(listData, removed) := removeEntry data listData in
  (Some (insert_sorted data (entries listData)), negb removed).

(** Assignment of the result of [insertEntry] to the list of a queue. *)
Definition insert_in (p : Pool) (queue : string) (data : MemoryMessageEntry) : Pool :=
  <[queue := fst (insertEntry data (pool_get p queue))]> p.

Definition isPresentOnPool (p : Pool) (queue i : string) : bool :=
  existsb (fun value => String.eqb (id value) i) (entries (pool_get p queue)).

Definition isPresentOnAnyPool (c : MemoryCache) (queue i : string) : bool :=
  let isActive := isPresentOnPool (queues c) queue i in
  let isProcessing := isPresentOnPool (processingQueues c) queue i in
  let isLockedAck := isPresentOnPool (lockAckQueues c) queue i in
  let isLockedNack := isPresentOnPool (lockNackQueues c) queue i in
  isActive || isProcessing || isLockedAck || isLockedNack.

(** ** Operations *)

Definition Flush (_ : MemoryCache) : MemoryCache := NewMemoryCache.

(** Each id unlinks at most one element (the inner loop breaks). *)
Fixpoint removeFromSlice_loop (ids : list string) (l : list MemoryMessageEntry) (count : Z) :
    list MemoryMessageEntry * Z :=
  match ids with
  | [] => (l, count)
  | i :: ids' =>
      let '(l', removed) := remove_id i l in
      removeFromSlice_loop ids' l' (if removed : bool then count + 1 else count)
  end.

Definition removeFromSlice (data : List) (ids : list string) : Z * List * option error :=
  match data with
  | None => (0, data, None)
  | Some [] => (0, data, None)
  | Some l => let '(l', count) := removeFromSlice_loop ids l 0 in (count, Some l', None)
  end.

(** One of the four steps of [Remove], on the pool of one kind. *)
Definition remove_step (p : Pool) (queue : string) (ids : list string) : Pool * Z :=
  let '(result, dataResult, _) := removeFromSlice (pool_get p queue) ids in
  (<[queue := dataResult]> p, result).

(** [removeFromSlice] never returns an error, so the four steps run. *)
Definition Remove (queue : string) (ids : list string) (cache : MemoryCache) :
    MemoryCache * result Z :=
  let '(q, n1) := remove_step (queues cache) queue ids in
  let '(p, n2) := remove_step (processingQueues cache) queue ids in
  let '(a, n3) := remove_step (lockAckQueues cache) queue ids in
  let '(n, n4) := remove_step (lockNackQueues cache) queue ids in
  ({| queues := q; processingQueues := p; lockAckQueues := a; lockNackQueues := n;
      keys := keys cache |},
   (n1 + n2 + n3 + n4, None)).

Definition MakeAvailable (message : Message) (cache : MemoryCache) : MemoryCache * result bool :=
  if String.eqb (Queue message) "" then (cache, (false, Some (ErrorString "invalid message queue")))
  else
    let entry := createEntry message in
    let q := Queue message in
    let '(l, result) := removeEntry entry (pool_get (processingQueues cache) q) in
    let cache := with_processing (<[q := l]> (processingQueues cache)) cache in
    if result : bool then (with_queues (insert_in (queues cache) q entry) cache, (true, None))
    else (cache, (false, None)).

Definition LockMessage (env : Env) (message : Message) (lockType : LockType)
    (cache : MemoryCache) : MemoryCache * result bool :=
  let q := Queue message in
  if String.eqb q "" then (cache, (false, Some (ErrorString "invalid queue to lock")))
  else if LockMs message <=? 0 then (cache, (false, Some (ErrorString "invalid lock seconds")))
  else match processingQueues cache !! q with
  | None => (cache, (false, None))
  | Some _ =>
      let entry := createEntry message in
      let '(l, result) := removeEntry entry (pool_get (processingQueues cache) q) in
      let cache := with_processing (<[q := l]> (processingQueues cache)) cache in
      if result : bool then
        let entry := set_lockUntil (f64_of_Z (NowMs env +64 LockMs message)%go) entry in
        (with_lock lockType (insert_in (pool_map (lock_pool lockType) cache) q entry) cache,
         (true, None))
      else (cache, (false, None))
  end.

(** The loop over one lock list.  [list.Remove(e)] clears the links of [e],
    so that [e.Next()] is nil and the loop ends after the first element it
    unlinks: this finds that element and the list without it. *)
Fixpoint find_unlocked (nowMs : Z) (l : list MemoryMessageEntry) :
    option (MemoryMessageEntry * list MemoryMessageEntry) :=
  match l with
  | [] => None
  | value :: l' =>
      if f64_to_int64 (lockUntil value) <=? nowMs then Some (value, l')
      else match find_unlocked nowMs l' with
           | Some (v, l'') => Some (v, value :: l'')
           | None => None
           end
  end.

(** The body of the loop over the queues of the lock pool. *)
Definition unlock_queue (nowMs : Z) (defaultScore : float64) (queue : string)
    (st : Pool * Pool * list string) : Pool * Pool * list string :=
  let '(data, qs, unlockedMessages) := st in
  match pool_get data queue with
  | None => st
  | Some l =>
      match find_unlocked nowMs l with
      | None => st
      | Some (value, l') =>
          let value := if IsUndefined (score value) then set_score defaultScore value else value in
          (<[queue := Some l']> data, insert_in qs queue value,
           (unlockedMessages ++ [id value])%list)
      end
  end.

(** The parameter [queue] of the method is shadowed by the loop variable and
    is not used: every queue of the lock pool is visited. *)
Definition UnlockMessages (env : Env) (queue : string) (lockType : LockType)
    (cache : MemoryCache) : MemoryCache * result (list string) :=
  let data := pool_map (lock_pool lockType) cache in
  let defaultScore :=
    match lockType with LOCK_ACK => GetScoreByDefaultAlgorithm env | LOCK_NACK => Min end in
  let '(data, qs, unlockedMessages) :=
    foldl (fun st q => unlock_queue (NowMs env) defaultScore q st)
      (data, queues cache, []) (map_range (env_order env) data).*1 in
  (with_queues qs (with_lock lockType data cache), (unlockedMessages, None)).

Definition score_filtered_out (minScore maxScore : option float64) (s : float64) : bool :=
  match minScore with Some m => f64_ltb s m | None => false end
  || match maxScore with Some m => f64_gtb s m | None => false end.

(** The loop of [PullMessages]: at most [n] elements of the front of the
    queue are examined; the ones out of the score range are set aside. *)
Fixpoint pull_loop (n : nat) (queue : string) (minScore maxScore : option float64)
    (deadline : float64) (cache : MemoryCache)
    (filteredOut : list MemoryMessageEntry) (result : list string) :
    MemoryCache * list MemoryMessageEntry * list string :=
  match n with
  | O => (cache, filteredOut, result)
  | S n' =>
      match entries (pool_get (queues cache) queue) with
      | [] => (cache, filteredOut, result)
      | entry :: _ =>
          let '(l, _) := removeEntry entry (pool_get (queues cache) queue) in
          let cache := with_queues (<[queue := l]> (queues cache)) cache in
          if score_filtered_out minScore maxScore (score entry) then
            pull_loop n' queue minScore maxScore deadline cache (filteredOut ++ [entry]) result
          else
            let processingEntry := {| id := id entry; score := deadline; lockUntil := f64_zero |} in
            pull_loop n' queue minScore maxScore deadline
              (with_processing (insert_in (processingQueues cache) queue processingEntry) cache)
              filteredOut (result ++ [id entry])
      end
  end.

Definition PullMessages (env : Env) (queue : string) (n : Z) (minScore maxScore : option float64)
    (ackDeadlineMs : Z) (cache : MemoryCache) : outcome (MemoryCache * result (list string)) :=
  match entries (pool_get (queues cache) queue) with
  | [] => Ret (cache, ([], None))
  | _ =>
      let ackDeadlineMs := if ackDeadlineMs =? 0 then DefaultTimeoutMs else ackDeadlineMs in
      let total := Z.of_nat (length (entries (pool_get (queues cache) queue))) in
      if MinInt64 n total <? 0 then Panic "makeslice: cap out of range"
      else
        let deadline := f64_of_Z (Unix (Now env) +64 ackDeadlineMs)%go in
        let '(cache, filteredOut, result) :=
          pull_loop (Z.to_nat (Z.min n total)) queue minScore maxScore deadline cache [] [] in
        let qs := foldl (fun qs entry => insert_in qs queue entry) (queues cache) filteredOut in
        Ret (with_queues qs cache, (result, None))
  end.

(** The loop of [TimeoutMessages] ends after the first element it unlinks, as
    the one of [UnlockMessages]: this is that element. *)
Fixpoint find_timeout (timeoutTime : Z) (l : list MemoryMessageEntry) : option MemoryMessageEntry :=
  match l with
  | [] => None
  | value :: l' =>
      if f64_leb (score value) (f64_of_Z timeoutTime) then Some value
      else find_timeout timeoutTime l'
  end.

Definition TimeoutMessages (env : Env) (queue : string) (cache : MemoryCache) :
    MemoryCache * result (list string) :=
  match pool_get (processingQueues cache) queue with
  | None => (cache, ([], None))
  | Some l =>
      match find_timeout (Unix (Now env)) l with
      | None => (cache, ([], None))
      | Some value =>
          let value := set_score Min value in
          let '(l', _) := removeEntry value (Some l) in
          let cache := with_processing (<[queue := l']> (processingQueues cache)) cache in
          (with_queues (insert_in (queues cache) queue value) cache, ([id value], None))
      end
  end.

Definition Insert (queue : string) (messages : list Message) (cache : MemoryCache) :
    MemoryCache * result (list string) :=
  if existsb (fun message => negb (String.eqb (Queue message) queue)) messages then
    (cache, ([], Some (ErrorString "invalid queue to insert data")))
  else
    let insertions :=
      List.filter (fun message => negb (isPresentOnAnyPool cache queue (ID message))) messages in
    (with_queues
       (foldl (fun qs message => insert_in qs (Queue message) (createEntry message))
          (queues cache) insertions) cache,
     (map ID insertions, None)).

(** The loop of [ListQueues] over the bindings of the selected map. *)
Fixpoint list_queues_loop `{Glob} (pattern : string) (l : list (string * List))
    (result : list string) : outcome (list string) :=
  match l with
  | [] => Ret result
  | (_, None) :: l' => list_queues_loop pattern l' result
  | (queue, Some elements) :: l' =>
      obind (MatchGlob queue pattern) (fun matches =>
        list_queues_loop pattern l'
          (if matches && negb (Nat.eqb (length elements) 0) then (result ++ [queue])%list
           else result))
  end.

Definition ListQueues `{Glob} (env : Env) (pattern : string) (poolType : PoolType)
    (cache : MemoryCache) : outcome (result (list string)) :=
  obind (list_queues_loop pattern (map_range (env_order env) (pool_map poolType cache)) [])
    (fun result => Ret (result, None)).

Definition IsProcessing (queue i : string) (cache : MemoryCache) : result bool :=
  (isPresentOnPool (processingQueues cache) queue i, None).

(** A missing key reads as the empty string. *)
Definition Get (key : string) (cache : MemoryCache) : result string :=
  (default "" (keys cache !! key), None).

Definition Set_ (key value : string) (cache : MemoryCache) : MemoryCache * option error :=
  ({| queues := queues cache; processingQueues := processingQueues cache;
      lockAckQueues := lockAckQueues cache; lockNackQueues := lockNackQueues cache;
      keys := <[key := value]> (keys cache) |}, None).

#[export] Instance MemoryCache_Cache `{Glob} : Cache MemoryCache := {
  cache_MakeAvailable := fun _ => MakeAvailable;
  cache_IsProcessing := IsProcessing;
  cache_PullMessages := PullMessages;
  cache_TimeoutMessages := TimeoutMessages;
  cache_LockMessage := LockMessage;
  cache_UnlockMessages := UnlockMessages;
  cache_ListQueues := ListQueues;
  cache_Insert := fun _ => Insert;
  cache_Remove := fun _ => Remove;
  cache_Flush := fun _ => Flush;
  cache_Get := fun _ => Get;
  cache_Set := fun _ => Set_
}.

(** ** Invariants *)

(** The ids a queue has in one pool, and in the four pools. *)
Definition ids_in (p : Pool) (queue : string) : list string :=
  id <$> entries (pool_get p queue).

Definition all_ids (c : MemoryCache) (queue : string) : list string :=
  ids_in (queues c) queue ++ ids_in (processingQueues c) queue ++
  ids_in (lockAckQueues c) queue ++ ids_in (lockNackQueues c) queue.

(** Each message of a queue is in at most one pool, at most once. *)
Definition cache_unique (c : MemoryCache) : Prop := forall queue, NoDup (all_ids c queue).

(** A list sorted by score, smallest first. *)
Definition sorted_list (l : list MemoryMessageEntry) : Prop :=
  StronglySorted (fun x y => f64_leb (score x) (score y) = true) l.

(** No score is a NaN, in any pool. *)
Definition no_nan (l : list MemoryMessageEntry) : Prop :=
  Forall (fun e => f64_is_nan (score e) = false) l.

Definition pool_sorted (p : Pool) : Prop :=
  forall queue, sorted_list (entries (pool_get p queue)) /\ no_nan (entries (pool_get p queue)).

(** Every list of every pool is sorted. *)
Definition cache_sorted (c : MemoryCache) : Prop :=
  forall poolType, pool_sorted (pool_map poolType c).

(** The pool a message is in. *)
Definition mem_where_is (c : MemoryCache) (queue i : string) : option PoolType :=
  if isPresentOnPool (queues c) queue i then Some PRIMARY_POOL
  else if isPresentOnPool (processingQueues c) queue i then Some PROCESSING_POOL
  else if isPresentOnPool (lockAckQueues c) queue i then Some LOCK_ACK_POOL
  else if isPresentOnPool (lockNackQueues c) queue i then Some LOCK_NACK_POOL
  else None.
