(* ===== verification/MemoryCacheFacts.v ===== *)
(** * The memory cache: lemmas and the cache contract

    Membership of the pools after each list operation, the invariants each
    operation keeps (no message in two pools, lists sorted by score), and the
    instance of the cache contract of [Cache.v]. *)

From S2P Require Import Prelude Float64 Dtime Utils Score Message Cache MemoryCache.
#[local] Open Scope string_scope.
#[local] Open Scope list_scope.
#[local] Open Scope Z_scope.
#[local] Abbreviation score := MemoryCache.score.
#[local] Abbreviation id := MemoryCache.id.

(** ** Pools as sets of ids *)

Section Pools.
Implicit Types (p : Pool) (l : list MemoryMessageEntry) (e : MemoryMessageEntry).

Lemma pool_get_insert p q q' (l : List) :
  pool_get (<[q := l]> p) q' = if decide (q = q') then l else pool_get p q'.
Proof. unfold pool_get. rewrite lookup_insert. by case_decide. Qed.

Lemma ids_in_insert p q q' (l : List) :
  ids_in (<[q := l]> p) q' = if decide (q = q') then id <$> entries l else ids_in p q'.
Proof. unfold ids_in. rewrite pool_get_insert. by case_decide. Qed.

Lemma isPresentOnPool_spec p q i : isPresentOnPool p q i = bool_decide (i ∈ ids_in p q).
Proof.
  unfold isPresentOnPool, ids_in. induction (entries (pool_get p q)) as [|e l IH]; [done|].
  simpl. rewrite IH, ?fmap_cons. destruct (String.eqb_spec (id e) i) as [<-|Hne]; simpl.
  - symmetry. apply bool_decide_eq_true. set_solver.
  - apply bool_decide_ext. set_solver.
Qed.

Lemma remove_id_true i l : snd (remove_id i l) = bool_decide (i ∈ id <$> l).
Proof.
  induction l as [|e l IH]; [done|]. simpl. rewrite ?fmap_cons.
  destruct (String.eqb_spec (id e) i) as [<-|Hne]; simpl.
  - symmetry. apply bool_decide_eq_true. set_solver.
  - destruct (remove_id i l) as [l' b]. simpl in *. rewrite IH.
    apply bool_decide_ext. set_solver.
Qed.

(** Unlinking an id leaves the other ones. *)
Lemma remove_id_sublist i l : sublist (fst (remove_id i l)) l.
Proof.
  induction l as [|e l IH]; simpl; [done|]. case_if; simpl; [by apply sublist_cons|].
  destruct (remove_id i l) as [l' b]. by apply sublist_skip.
Qed.

Lemma elem_of_remove_id i j l :
  j <> i -> j ∈ id <$> l -> j ∈ id <$> fst (remove_id i l).
Proof.
  intros Hne. induction l as [|e l IH]; simpl; [done|]. rewrite ?fmap_cons.
  destruct (String.eqb_spec (id e) i) as [<-|Hne']; simpl; [set_solver|].
  destruct (remove_id i l) as [l' b]. simpl in *. rewrite ?fmap_cons. set_solver.
Qed.

Lemma remove_id_absent i l : NoDup (id <$> l) -> i ∉ id <$> fst (remove_id i l).
Proof.
  induction l as [|e l IH]; simpl; [set_solver|]. rewrite ?fmap_cons, NoDup_cons. intros [Hn Hd].
  destruct (String.eqb_spec (id e) i) as [<-|Hne']; simpl; [done|].
  specialize (IH Hd). destruct (remove_id i l) as [l' b]. simpl in *. rewrite ?fmap_cons. set_solver.
Qed.

Lemma elem_of_remove_id_iff i j l :
  NoDup (id <$> l) -> j ∈ id <$> fst (remove_id i l) <-> j ∈ id <$> l /\ j <> i.
Proof.
  intros Hd. split.
  - intros Hj. split; [|intros ->; by apply (remove_id_absent i l)].
    eapply elem_of_sublist; [exact Hj|]. apply fmap_sublist, remove_id_sublist.
  - intros [Hj Hne]. by apply elem_of_remove_id.
Qed.

Lemma insert_sorted_perm e l : insert_sorted e l ≡ₚ e :: l.
Proof.
  induction l as [|x l IH]; simpl; [done|]. case_if; [done|]. rewrite IH. constructor.
Qed.

Lemma insertEntry_entries e (l : List) :
  entries (fst (insertEntry e l)) = insert_sorted e (fst (remove_id (id e) (entries l))).
Proof.
  unfold insertEntry, removeEntry. destruct l as [l|]; simpl; [|done].
  by destruct (remove_id (id e) l) as [l' b].
Qed.

Lemma removeEntry_entries e (l : List) :
  entries (fst (removeEntry e l)) = fst (remove_id (id e) (entries l)).
Proof. destruct l as [l|]; simpl; [|done]. by destruct (remove_id (id e) l). Qed.

Lemma removeEntry_found e (l : List) :
  snd (removeEntry e l) = bool_decide (id e ∈ id <$> entries l).
Proof.
  destruct l as [l|]; simpl; [|done]. rewrite <- remove_id_true.
  by destruct (remove_id (id e) l).
Qed.

Lemma elem_of_insert_in p q e q' i :
  i ∈ ids_in (insert_in p q e) q' <-> q' = q /\ i = id e \/ i ∈ ids_in p q'.
Proof.
  unfold insert_in. rewrite ids_in_insert, insertEntry_entries. unfold ids_in.
  case_decide as Hq; [subst q'|naive_solver].
  rewrite insert_sorted_perm, ?fmap_cons, elem_of_cons.
  set (l := entries (pool_get p q)). pose proof (remove_id_sublist (id e) l) as Hs.
  destruct (decide (i = id e)) as [->|Hne]; [tauto|].
  split; [|intros [[_ ?]|?]; [done|right; by apply elem_of_remove_id]].
  intros [?|Hi]; [done|]. right. eapply elem_of_sublist; [exact Hi|]. by apply fmap_sublist.
Qed.

Lemma NoDup_insert_in p q e q' : NoDup (ids_in p q') -> NoDup (ids_in (insert_in p q e) q').
Proof.
  unfold insert_in. rewrite ids_in_insert, insertEntry_entries. unfold ids_in.
  case_decide as Hq; [subst q'|done]. intros Hd.
  rewrite insert_sorted_perm, ?fmap_cons. apply NoDup_cons. split; [by apply remove_id_absent|].
  eapply sublist_NoDup; [exact Hd|]. apply fmap_sublist, remove_id_sublist.
Qed.

Lemma pool_get_insert_in_ne p q e q' : q' <> q -> pool_get (insert_in p q e) q' = pool_get p q'.
Proof. intros. unfold insert_in. rewrite pool_get_insert. by rewrite decide_False. Qed.

(** Several insertions in the same queue. *)
Lemma elem_of_foldl_insert_in es p q q' i :
  i ∈ ids_in (foldl (fun qs e => insert_in qs q e) p es) q' <->
  q' = q /\ i ∈ id <$> es \/ i ∈ ids_in p q'.
Proof.
  revert p. induction es as [|e es IH]; intros p; simpl; [set_solver|].
  rewrite IH, elem_of_insert_in, ?fmap_cons, elem_of_cons. naive_solver.
Qed.

Lemma NoDup_foldl_insert_in es p q q' :
  NoDup (ids_in p q') -> NoDup (ids_in (foldl (fun qs e => insert_in qs q e) p es) q').
Proof.
  revert p. induction es as [|e es IH]; intros p Hd; simpl; [done|].
  by apply IH, NoDup_insert_in.
Qed.
End Pools.

(** ** Uniqueness and the pool of a message *)

(** A message is in a pool. *)
Definition in_pool (c : MemoryCache) (P : PoolType) (q i : string) : Prop :=
  i ∈ ids_in (pool_map P c) q.

Lemma cache_unique_alt c :
  cache_unique c <->
  (forall P q, NoDup (ids_in (pool_map P c) q)) /\
  (forall P P' q i, in_pool c P q i -> in_pool c P' q i -> P = P').
Proof.
  unfold cache_unique, all_ids, in_pool. split.
  - intros H. split.
    + intros P q. specialize (H q). rewrite !NoDup_app in H. destruct P; simpl; tauto.
    + intros P P' q i. specialize (H q). rewrite !NoDup_app in H.
      destruct H as (_ & H1 & _ & H2 & _ & H3 & _).
      specialize (H1 i). specialize (H2 i). specialize (H3 i). rewrite !elem_of_app in *.
      destruct P, P'; simpl; tauto.
  - intros [Hd Hu] q. rewrite !NoDup_app.
    split_and!;
      [apply (Hd PRIMARY_POOL)| |apply (Hd PROCESSING_POOL)| |apply (Hd LOCK_ACK_POOL)| |
       apply (Hd LOCK_NACK_POOL)];
      intros i Hi Hn; rewrite ?elem_of_app in Hn;
      pose proof (Hu PRIMARY_POOL PROCESSING_POOL q i); pose proof (Hu PRIMARY_POOL LOCK_ACK_POOL q i);
      pose proof (Hu PRIMARY_POOL LOCK_NACK_POOL q i); pose proof (Hu PROCESSING_POOL LOCK_ACK_POOL q i);
      pose proof (Hu PROCESSING_POOL LOCK_NACK_POOL q i); pose proof (Hu LOCK_ACK_POOL LOCK_NACK_POOL q i);
      simpl in *; intuition discriminate.
Qed.

Lemma mem_where_is_cases c q i :
  match mem_where_is c q i with
  | Some P => in_pool c P q i
  | None => forall P, ~ in_pool c P q i
  end.
Proof.
  unfold mem_where_is, in_pool. rewrite !isPresentOnPool_spec.
  destruct (bool_decide _) eqn:E1; bool_hyps; [done|].
  destruct (bool_decide _) eqn:E2 in |- *; bool_hyps; [done|].
  destruct (bool_decide _) eqn:E3 in |- *; bool_hyps; [done|].
  destruct (bool_decide _) eqn:E4 in |- *; bool_hyps; [done|]. by intros [].
Qed.

Lemma mem_where_is_Some c q i P :
  cache_unique c -> mem_where_is c q i = Some P <-> in_pool c P q i.
Proof.
  intros [_ Hu]%cache_unique_alt. pose proof (mem_where_is_cases c q i) as H.
  destruct (mem_where_is c q i) as [P'|] eqn:E.
  - split; [by intros [= ->]|]. intros Hp. f_equal. eauto.
  - split; [done|]. intros Hp. by destruct (H P).
Qed.

Lemma mem_where_is_None c q i :
  mem_where_is c q i = None <-> forall P, ~ in_pool c P q i.
Proof.
  pose proof (mem_where_is_cases c q i) as H.
  destruct (mem_where_is c q i) as [P'|]; [|done]. split; [done|]. intros Hn. by destruct (Hn P').
Qed.

Lemma isPresentOnAnyPool_spec c q i :
  isPresentOnAnyPool c q i = bool_decide (is_Some (mem_where_is c q i)).
Proof.
  unfold isPresentOnAnyPool, mem_where_is.
  by repeat case_if.
Qed.

(** The general form of a move: [ids] of queue [q] go to pool [P] (or to no
    pool) and nothing else changes. *)
Lemma mem_moved c c' q ids (P : option PoolType) :
  cache_unique c ->
  (forall P' q', NoDup (ids_in (pool_map P' c') q')) ->
  (forall P' q' i, in_pool c' P' q' i <->
     (q' = q /\ i ∈ ids) /\ P = Some P' \/ ~ (q' = q /\ i ∈ ids) /\ in_pool c P' q' i) ->
  cache_unique c' /\ moved (mem_where_is c) q ids P (mem_where_is c').
Proof.
  intros Hc Hd Hin.
  assert (Hc' : cache_unique c').
  { apply cache_unique_alt. split; [done|]. intros P1 P2 q' i. rewrite !Hin.
    apply cache_unique_alt in Hc as [_ Hu]. specialize (Hu P1 P2 q' i).
    intuition congruence. }
  split; [done|]. intros q' i.
  destruct (mem_where_is c' q' i) as [P'|] eqn:E.
  - apply mem_where_is_Some, Hin in E; [|done]. case_decide; [by intuition congruence|].
    symmetry. apply mem_where_is_Some; [done|]. by intuition.
  - symmetry. pose proof (proj1 (mem_where_is_None c' q' i) E) as Hn.
    case_decide as Hq.
    + destruct P as [P'|]; [|done]. exfalso. apply (Hn P'), Hin. by left.
    + apply mem_where_is_None. intros P' Hp. apply (Hn P'), Hin. by right.
Qed.

(** ** The single moves out of the processing pool *)

(** [removeEntry] on the processing list of the queue of a message. *)
Lemma processing_removed c e q l b :
  removeEntry e (pool_get (processingQueues c) q) = (l, b) ->
  (b = true <-> in_pool c PROCESSING_POOL q (id e)) /\
  (forall q', sublist (ids_in (<[q := l]> (processingQueues c)) q') (ids_in (processingQueues c) q')) /\
  (NoDup (ids_in (processingQueues c) q) -> forall q' i,
     i ∈ ids_in (<[q := l]> (processingQueues c)) q' <->
     i ∈ ids_in (processingQueues c) q' /\ ~ (q' = q /\ i = id e)).
Proof.
  intros E. pose proof (removeEntry_found e (pool_get (processingQueues c) q)) as Hf.
  pose proof (removeEntry_entries e (pool_get (processingQueues c) q)) as He.
  rewrite E in Hf, He. simpl in Hf, He. split_and!.
  - rewrite Hf, bool_decide_eq_true. done.
  - intros q'. rewrite ids_in_insert. destruct (decide (q = q')) as [<-|]; [|done].
    rewrite He. apply fmap_sublist, remove_id_sublist.
  - intros Hd q' i. rewrite ids_in_insert. destruct (decide (q = q')) as [<-|]; [|naive_solver].
    rewrite He, elem_of_remove_id_iff by done. unfold ids_in. naive_solver.
Qed.

(** Reduces a statement about the pools of an updated cache, for each pool. *)
Ltac by_pool P := destruct P; unfold in_pool; simpl.

Lemma unique_NoDup c P q : cache_unique c -> NoDup (ids_in (pool_map P c) q).
Proof. intros [? _]%cache_unique_alt. done. Qed.

Lemma unique_pool c P P' q i : cache_unique c -> in_pool c P q i -> in_pool c P' q i -> P = P'.
Proof. intros [_ ?]%cache_unique_alt. eauto. Qed.

#[local] Hint Resolve NoDup_insert_in NoDup_foldl_insert_in sublist_NoDup : deckard.

(** A message leaves the processing pool and enters pool [P] of its queue. *)
Lemma from_processing c c' q e (P : PoolType) :
  cache_unique c -> P <> PROCESSING_POOL -> in_pool c PROCESSING_POOL q (id e) ->
  let l := fst (removeEntry e (pool_get (processingQueues c) q)) in
  processingQueues c' = <[q := l]> (processingQueues c) ->
  (forall P', P' <> PROCESSING_POOL -> P' <> P -> pool_map P' c' = pool_map P' c) ->
  (exists e', id e' = id e /\ pool_map P c' = insert_in (pool_map P c) q e') ->
  cache_unique c' /\ moved (mem_where_is c) q [id e] (Some P) (mem_where_is c').
Proof.
  intros Hc HP Hin l Hproc Hother (e' & He' & Hto).
  destruct (removeEntry e (pool_get (processingQueues c) q)) as [l' b] eqn:E.
  destruct (processing_removed c e q l' b E) as (_ & Hsub & Hmem).
  specialize (Hmem (unique_NoDup c PROCESSING_POOL q Hc)). simpl in l. subst l.
  apply mem_moved; [done|..].
  - intros P' q'. destruct (decide (P' = PROCESSING_POOL)) as [->|Hn1].
    { simpl. rewrite Hproc. eapply sublist_NoDup; [|apply Hsub].
      apply (unique_NoDup c PROCESSING_POOL q' Hc). }
    destruct (decide (P' = P)) as [->|Hn2].
    + rewrite Hto. by apply NoDup_insert_in, unique_NoDup.
    + rewrite Hother by done. by apply unique_NoDup.
  - intros P' q' i. unfold in_pool. destruct (decide (P' = PROCESSING_POOL)) as [->|Hn1].
    { simpl. rewrite Hproc, Hmem, list_elem_of_singleton. intuition congruence. }
    rewrite list_elem_of_singleton.
    assert (Hex : i ∈ ids_in (pool_map P' c) q' -> ~ (q' = q /\ i = id e)).
    { intros Hi [-> ->]. apply Hn1. by eapply (unique_pool c P' PROCESSING_POOL). }
    destruct (decide (P' = P)) as [->|Hn2].
    + rewrite Hto, elem_of_insert_in, He'.
      destruct (decide (q' = q /\ i = id e)); intuition congruence.
    + rewrite Hother by done. intuition congruence.
Qed.

(** [removeEntry] on the processing list found nothing. *)
Lemma not_processing c c' q e :
  cache_unique c -> ~ in_pool c PROCESSING_POOL q (id e) ->
  let l := fst (removeEntry e (pool_get (processingQueues c) q)) in
  processingQueues c' = <[q := l]> (processingQueues c) ->
  (forall P', P' <> PROCESSING_POOL -> pool_map P' c' = pool_map P' c) ->
  cache_unique c' /\ moved (mem_where_is c) q [] (Some PRIMARY_POOL) (mem_where_is c').
Proof.
  intros Hc Hin l Hproc Hother.
  destruct (removeEntry e (pool_get (processingQueues c) q)) as [l' b] eqn:E.
  destruct (processing_removed c e q l' b E) as (_ & Hsub & Hmem).
  specialize (Hmem (unique_NoDup c PROCESSING_POOL q Hc)). simpl in l. subst l.
  apply mem_moved; [done|..].
  - intros P' q'. destruct (decide (P' = PROCESSING_POOL)) as [->|Hn1].
    { simpl. rewrite Hproc. eapply sublist_NoDup; [|apply Hsub].
      apply (unique_NoDup c PROCESSING_POOL q' Hc). }
    rewrite Hother by done. by apply unique_NoDup.
  - intros P' q' i. rewrite elem_of_nil.
    unfold in_pool in *. destruct (decide (P' = PROCESSING_POOL)) as [->|Hn1].
    + simpl in *. rewrite Hproc, Hmem. split; [intuition|]. intros [[[_ []] _]|[_ Hi]].
      split; [done|]. by intros [-> ->].
    + rewrite Hother by done. intuition.
Qed.

Lemma MakeAvailable_moves m c c' b err :
  cache_unique c -> MakeAvailable m c = (c', (b, err)) ->
  cache_unique c' /\ keys c' = keys c /\
  (b = true -> err = None /\ mem_where_is c (Queue m) (ID m) = Some PROCESSING_POOL) /\
  (err = None -> mem_where_is c (Queue m) (ID m) = Some PROCESSING_POOL -> b = true) /\
  moved (mem_where_is c) (Queue m) (if b then [ID m] else []) (Some PRIMARY_POOL) (mem_where_is c').
Proof.
  intros Hc. unfold MakeAvailable. case_if.
  { intros [= <- <- <-]. split_and!; try done. apply moved_nil. }
  destruct (removeEntry _ _) as [l r] eqn:Er.
  pose proof (processing_removed c _ _ _ _ Er) as [Hr _].
  assert (Hl : l = fst (removeEntry (createEntry m) (pool_get (processingQueues c) (Queue m))))
    by (by rewrite Er).
  rewrite !mem_where_is_Some by done.
  destruct r; intros [= <- <- <-].
  - destruct (from_processing c
      (with_queues (insert_in (queues c) (Queue m) (createEntry m))
         (with_processing (<[Queue m:=l]> (processingQueues c)) c))
      (Queue m) (createEntry m) PRIMARY_POOL) as [Hu Hm]; try done.
    + by apply Hr.
    + by rewrite <- Hl.
    + by intros [].
    + by exists (createEntry m).
    + split_and!; try done. intros _. split; [done|]. by apply Hr.
  - assert (Hn : ~ in_pool c PROCESSING_POOL (Queue m) (ID m)) by (intros Hi; by apply Hr in Hi).
    destruct (not_processing c (with_processing (<[Queue m:=l]> (processingQueues c)) c)
      (Queue m) (createEntry m)) as [Hu Hm]; try done.
    + by rewrite <- Hl.
    + by intros [].
Qed.

Lemma LockMessage_moves env m t c c' b err :
  cache_unique c -> LockMessage env m t c = (c', (b, err)) ->
  cache_unique c' /\ keys c' = keys c /\
  (b = true -> err = None /\ mem_where_is c (Queue m) (ID m) = Some PROCESSING_POOL) /\
  (err = None -> mem_where_is c (Queue m) (ID m) = Some PROCESSING_POOL -> b = true) /\
  moved (mem_where_is c) (Queue m) (if b then [ID m] else []) (Some (lock_pool t)) (mem_where_is c').
Proof.
  intros Hc. unfold LockMessage. case_if; [|case_if]; [intros [= <- <- <-]..|].
  1, 2: split_and!; try done; apply moved_nil.
  rewrite !mem_where_is_Some by done.
  destruct (processingQueues c !! Queue m) as [l0|] eqn:El; cycle 1.
  { intros [= <- <- <-]. split_and!; try done; [|apply moved_nil].
    unfold in_pool, ids_in, pool_get. simpl. rewrite El. simpl. set_solver. }
  destruct (removeEntry _ _) as [l r] eqn:Er.
  pose proof (processing_removed c _ _ _ _ Er) as [Hr _].
  assert (Hl : l = fst (removeEntry (createEntry m) (pool_get (processingQueues c) (Queue m))))
    by (by rewrite Er).
  destruct r; intros [= <- <- <-].
  - set (e' := set_lockUntil _ _). set (c1 := with_processing _ _).
    destruct (from_processing c
      (with_lock t (insert_in (pool_map (lock_pool t) c1) (Queue m) e') c1)
      (Queue m) (createEntry m) (lock_pool t)) as [Hu Hm]; try done.
    + by destruct t.
    + by apply Hr.
    + rewrite <- Hl. by destruct t.
    + by intros []; destruct t.
    + exists e'. split; [done|]. by destruct t.
    + split_and!; try done; [by destruct t|]. intros _. split; [done|]. by apply Hr.
  - assert (Hn : ~ in_pool c PROCESSING_POOL (Queue m) (ID m)) by (intros Hi; by apply Hr in Hi).
    destruct (not_processing c (with_processing (<[Queue m:=l]> (processingQueues c)) c)
      (Queue m) (createEntry m)) as [Hu Hm]; try done.
    + by rewrite <- Hl.
    + by intros [].
    + split_and!; try done. intros q' i. rewrite Hm. by rewrite !decide_False by set_solver.
Qed.

(** ** Insertion *)

Lemma foldl_insert_messages q ms p :
  Forall (fun m => Queue m = q) ms ->
  foldl (fun qs message => insert_in qs (Queue message) (createEntry message)) p ms =
  foldl (fun qs e => insert_in qs q e) p (createEntry <$> ms).
Proof.
  intros H. revert p. induction H as [|m ms <- _ IH]; intros p; [done|]. simpl. apply IH.
Qed.

Lemma existsb_queue_false q ms :
  existsb (fun message => negb (String.eqb (Queue message) q)) ms = false ->
  Forall (fun m => Queue m = q) ms.
Proof.
  induction ms as [|m ms IH]; simpl; intros H; bool_hyps; constructor; auto.
Qed.

(** The messages [Insert] adds: the ones in no pool. *)
Lemma elem_of_insertions c q ms i :
  i ∈ ID <$> List.filter (fun m => negb (isPresentOnAnyPool c q (ID m))) ms <->
  mem_where_is c q i = None /\ i ∈ ID <$> ms.
Proof.
  rewrite !list_elem_of_fmap. setoid_rewrite list_elem_of_In. setoid_rewrite filter_In.
  setoid_rewrite isPresentOnAnyPool_spec. setoid_rewrite negb_true_iff.
  setoid_rewrite bool_decide_eq_false. setoid_rewrite <- eq_None_not_Some.
  split; [intros (m & -> & ? & ?)|intros [? (m & -> & ?)]]; eauto.
Qed.

Lemma Insert_moves q ms c c' ids err :
  cache_unique c -> Insert q ms c = (c', (ids, err)) ->
  cache_unique c' /\ keys c' = keys c /\
  (forall i, i ∈ ids -> mem_where_is c q i = None /\ i ∈ ID <$> ms) /\
  (err = None -> forall i, i ∈ ID <$> ms -> mem_where_is c q i = None -> i ∈ ids) /\
  moved (mem_where_is c) q ids (Some PRIMARY_POOL) (mem_where_is c').
Proof.
  intros Hc. unfold Insert. case_if.
  { intros [= <- <- <-]. split_and!; try done; [set_solver|apply moved_nil]. }
  apply existsb_queue_false in E. intros [= <- <- <-].
  set (ins := List.filter _ ms).
  assert (Hids : forall i, i ∈ map ID ins <-> mem_where_is c q i = None /\ i ∈ ID <$> ms)
    by (intros i; apply elem_of_insertions).
  assert (Hins : Forall (fun m => Queue m = q) ins).
  { apply Forall_forall. intros m Hm%list_elem_of_In%filter_In. rewrite Forall_forall in E.
    apply E, list_elem_of_In, Hm. }
  rewrite (foldl_insert_messages q) by done.
  destruct (mem_moved c
    (with_queues (foldl (fun qs e => insert_in qs q e) (queues c) (createEntry <$> ins)) c)
    q (map ID ins) (Some PRIMARY_POOL)) as [Hu Hm]; [done|..].
  - intros P q'. by_pool P; [|apply (unique_NoDup c PROCESSING_POOL)|
      apply (unique_NoDup c LOCK_ACK_POOL)|apply (unique_NoDup c LOCK_NACK_POOL)]; try done.
    apply NoDup_foldl_insert_in. by apply (unique_NoDup c PRIMARY_POOL).
  - intros P q' i.
    assert (Hex : in_pool c P q' i -> ~ (q' = q /\ i ∈ map ID ins)).
    { intros Hi [-> Hx]. apply Hids in Hx as [Hx _]. by apply (proj1 (mem_where_is_None c q i) Hx P). }
    revert Hex. by_pool P; [|intuition congruence..]. rewrite elem_of_foldl_insert_in.
    replace (id <$> (createEntry <$> ins)) with (map ID ins)
      by (rewrite <- list_fmap_compose; done).
    intros Hex. destruct (decide (q' = q /\ i ∈ map ID ins)); intuition congruence.
  - split_and!; try done.
    + intros i. apply Hids.
    + intros _ i Hi Hn. by apply Hids.
Qed.

(** ** Removal *)

Lemma removeFromSlice_loop_spec ids : forall l n l' n',
  removeFromSlice_loop ids l n = (l', n') ->
  sublist l' l /\ n' = n + Z.of_nat (length l) - Z.of_nat (length l') /\
  (NoDup (id <$> l) -> forall i, i ∈ id <$> l' <-> i ∈ id <$> l /\ i ∉ ids).
Proof.
  induction ids as [|j ids IH]; intros l n l' n'; simpl.
  { intros [= <- <-]. split_and!; [done|lia|set_solver]. }
  destruct (remove_id j l) as [l1 b] eqn:E. intros H. apply IH in H as (Hs & Hn & Hi).
  pose proof (remove_id_sublist j l) as Hs1. rewrite E in Hs1. simpl in Hs1.
  assert (Hlen : Z.of_nat (length l) = Z.of_nat (length l1) + if b then 1 else 0).
  { clear -E. revert l1 E. induction l as [|e l IHl]; simpl; intros l1; [by intros [= <- <-]|].
    case_if; [intros [= <- <-]; lia|]. destruct (remove_id j l) as [l2 b2]. intros [= <- <-].
    simpl. specialize (IHl l2 eq_refl). lia. }
  split_and!; [by etrans|destruct b; lia|].
  intros Hd i. rewrite Hi by (eapply sublist_NoDup; [exact Hd|by apply fmap_sublist]).
  pose proof (elem_of_remove_id_iff j i l Hd) as Hj. rewrite E in Hj. simpl in Hj.
  rewrite Hj. set_solver.
Qed.

Lemma remove_step_spec p q ids p' n :
  remove_step p q ids = (p', n) ->
  (forall q', sublist (ids_in p' q') (ids_in p q')) /\
  n = Z.of_nat (length (ids_in p q)) - Z.of_nat (length (ids_in p' q)) /\
  (NoDup (ids_in p q) -> forall q' i,
     i ∈ ids_in p' q' <-> i ∈ ids_in p q' /\ ~ (q' = q /\ i ∈ ids)).
Proof.
  unfold remove_step, removeFromSlice.
  destruct (pool_get p q) as [l|] eqn:El; [destruct l as [|e l]|]; cycle 1.
  - destruct (removeFromSlice_loop ids (e :: l) 0) as [l' n'] eqn:E. intros [= <- <-].
    apply removeFromSlice_loop_spec in E as (Hs & Hn & Hi).
    assert (Hq : ids_in p q = id <$> e :: l) by (unfold ids_in; by rewrite El).
    split_and!.
    + intros q'. rewrite ids_in_insert. destruct (decide (q = q')) as [<-|]; [|done].
      rewrite Hq. by apply fmap_sublist.
    + rewrite ids_in_insert, decide_True, Hq, !length_fmap by done.
      cbn [entries default Datatypes.id]. lia.
    + rewrite Hq. intros Hd q' i. rewrite ids_in_insert.
      destruct (decide (q = q')) as [<-|]; [|naive_solver].
      rewrite Hq. simpl. rewrite Hi by done. naive_solver.
  - intros [= <- <-].
    assert (Hids : forall q', ids_in (<[q:=None]> p) q' = ids_in p q').
    { intros q'. rewrite ids_in_insert. destruct (decide (q = q')) as [<-|]; [|done].
      unfold ids_in. by rewrite El. }
    setoid_rewrite Hids. split_and!; [done|lia|]. intros _ q' i. split; [|naive_solver].
    intros Hi. split; [done|]. intros [-> _]. unfold ids_in in Hi. rewrite El in Hi.
    by apply elem_of_nil in Hi.
  - intros [= <- <-].
    assert (Hids : forall q', ids_in (<[q:=Some []]> p) q' = ids_in p q').
    { intros q'. rewrite ids_in_insert. destruct (decide (q = q')) as [<-|]; [|done].
      unfold ids_in. by rewrite El. }
    setoid_rewrite Hids. split_and!; [done|lia|]. intros _ q' i. split; [|naive_solver].
    intros Hi. split; [done|]. intros [-> _]. unfold ids_in in Hi. rewrite El in Hi.
    by apply elem_of_nil in Hi.
Qed.

Lemma Remove_moves q ids c c' n err :
  cache_unique c -> Remove q ids c = (c', (n, err)) ->
  cache_unique c' /\ keys c' = keys c /\ err = None /\
  n = Z.of_nat (length (all_ids c q)) - Z.of_nat (length (all_ids c' q)) /\
  moved (mem_where_is c) q ids None (mem_where_is c').
Proof.
  intros Hc. unfold Remove.
  destruct (remove_step (queues c) q ids) as [p1 n1] eqn:E1.
  destruct (remove_step (processingQueues c) q ids) as [p2 n2] eqn:E2.
  destruct (remove_step (lockAckQueues c) q ids) as [p3 n3] eqn:E3.
  destruct (remove_step (lockNackQueues c) q ids) as [p4 n4] eqn:E4.
  apply remove_step_spec in E1 as (S1 & N1 & M1). apply remove_step_spec in E2 as (S2 & N2 & M2).
  apply remove_step_spec in E3 as (S3 & N3 & M3). apply remove_step_spec in E4 as (S4 & N4 & M4).
  intros [= <- <- <-].
  pose proof (fun P q' => unique_NoDup c P q' Hc) as Hd.
  set (c' := {| queues := p1 |}).
  assert (Hm : cache_unique c' /\ moved (mem_where_is c) q ids None (mem_where_is c')).
  { apply mem_moved; [done|..].
    - intros P q'. eapply sublist_NoDup; [apply (Hd P q')|]. by destruct P; simpl.
    - specialize (M1 (Hd PRIMARY_POOL q)). specialize (M2 (Hd PROCESSING_POOL q)).
      specialize (M3 (Hd LOCK_ACK_POOL q)). specialize (M4 (Hd LOCK_NACK_POOL q)).
      intros P q' i. by_pool P; rewrite ?M1, ?M2, ?M3, ?M4; intuition congruence. }
  destruct Hm as [Hu Hm]. split_and!; try done.
  unfold all_ids. subst c'. simpl. rewrite !length_app. lia.
Qed.

(** ** Pull *)

(** The entry of the processing pool for a pulled entry. *)
Definition processing_entry (deadline : float64) (e : MemoryMessageEntry) : MemoryMessageEntry :=
  {| MemoryCache.score := deadline; MemoryCache.id := id e; lockUntil := f64_zero |}.

(** The entries of [ex] in the score range, and the others. *)
Definition in_range (mn mx : option float64) (ex : list MemoryMessageEntry) :=
  List.filter (fun e => negb (score_filtered_out mn mx (score e))) ex.
Definition out_of_range (mn mx : option float64) (ex : list MemoryMessageEntry) :=
  List.filter (fun e => score_filtered_out mn mx (score e)) ex.

Lemma in_range_perm mn mx ex : ex ≡ₚ in_range mn mx ex ++ out_of_range mn mx ex.
Proof.
  unfold in_range, out_of_range. induction ex as [|e ex IH]; simpl; [done|].
  destruct (score_filtered_out mn mx (score e)); simpl; [|by rewrite <- IH].
  rewrite <- Permutation_middle. by rewrite <- IH.
Qed.

(** The loop examines the first [n] entries: the ones in range move to the
    processing pool, the others are set aside, and the rest stays. *)
Lemma pull_loop_spec n q mn mx d : forall c fo res c' fo' res',
  pull_loop n q mn mx d c fo res = (c', fo', res') ->
  let l := entries (pool_get (queues c) q) in
  let ex := take n l in
  fo' = fo ++ out_of_range mn mx ex /\
  res' = res ++ (id <$> in_range mn mx ex) /\
  entries (pool_get (queues c') q) = drop n l /\
  (forall q', q' <> q -> pool_get (queues c') q' = pool_get (queues c) q') /\
  processingQueues c' =
    foldl (fun p e => insert_in p q e) (processingQueues c) (processing_entry d <$> in_range mn mx ex) /\
  lockAckQueues c' = lockAckQueues c /\ lockNackQueues c' = lockNackQueues c /\ keys c' = keys c.
Proof.
  induction n as [|n IH]; intros c fo res c' fo' res'; cbn [pull_loop].
  { intros [= <- <- <-]. simpl. rewrite drop_0, !app_nil_r. done. }
  destruct (entries (pool_get (queues c) q)) as [|e l] eqn:El.
  { intros [= <- <- <-]. simpl. rewrite El, !app_nil_r. done. }
  assert (Hre : removeEntry e (pool_get (queues c) q) = (Some l, true)).
  { destruct (pool_get (queues c) q) as [l0|]; simpl in El; [|done]. subst l0.
    simpl. by rewrite String.eqb_refl. }
  rewrite Hre. unfold in_range, out_of_range. cbn [take drop List.filter].
  case_if; cbn [negb]; intros H; apply IH in H;
    destruct H as (-> & -> & Hq & Hne & Hp & Ha & Hn & Hk); simpl in *;
    rewrite pool_get_insert, decide_True in * by done; cbn [entries default Datatypes.id] in *;
    split_and!; rewrite <- ?app_assoc; try done;
    intros q' Hq'; rewrite Hne by done; by rewrite pool_get_insert, decide_False.
Qed.

(** The closed form of [PullMessages] on a queue with messages. *)
Lemma PullMessages_spec env q n mn mx dl c c' ids err :
  PullMessages env q n mn mx dl c = Ret (c', (ids, err)) ->
  let l := entries (pool_get (queues c) q) in
  let ex := take (Z.to_nat n) l in
  let d := f64_of_Z (wrap64 (Unix (Now env) + (if dl =? 0 then DefaultTimeoutMs else dl))) in
  err = None /\ ids = id <$> in_range mn mx ex /\
  entries (pool_get (queues c') q) =
    foldl (fun l e => insert_sorted e (fst (remove_id (id e) l))) (drop (Z.to_nat n) l)
      (out_of_range mn mx ex) /\
  (forall q', q' <> q -> pool_get (queues c') q' = pool_get (queues c) q') /\
  processingQueues c' =
    foldl (fun p e => insert_in p q e) (processingQueues c) (processing_entry d <$> in_range mn mx ex) /\
  lockAckQueues c' = lockAckQueues c /\ lockNackQueues c' = lockNackQueues c /\ keys c' = keys c.
Proof.
  unfold PullMessages. destruct (entries (pool_get (queues c) q)) as [|e0 l0] eqn:El.
  { intros [= <- <- <-]. simpl. rewrite take_nil, drop_nil, El. done. }
  rewrite <- El. set (l := entries (pool_get (queues c) q)).
  assert (0 < Z.of_nat (length l)) by (subst l; rewrite El; simpl; lia).
  rewrite MinInt64_min. case_if; [done|]. bool_hyps.
  destruct (pull_loop _ _ _ _ _ _ _ _) as [[c1 fo] res] eqn:Ep.
  apply pull_loop_spec in Ep. fold l in Ep.
  replace (take (Z.to_nat (Z.min n (Z.of_nat (length l)))) l) with (take (Z.to_nat n) l) in Ep
    by (destruct (Z.min_spec n (Z.of_nat (length l))) as [[? ->]|[? ->]]; [done|];
        rewrite Nat2Z.id, firstn_all, take_ge by lia; done).
  replace (drop (Z.to_nat (Z.min n (Z.of_nat (length l)))) l) with (drop (Z.to_nat n) l) in Ep
    by (destruct (Z.min_spec n (Z.of_nat (length l))) as [[? ->]|[? ->]]; [done|];
        rewrite Nat2Z.id, skipn_all, drop_ge by lia; done).
  destruct Ep as (-> & -> & Hq & Hne & Hp & Ha & Hn & Hk). intros [= <- <- <-]. simpl in *.
  split_and!; try done.
  - rewrite <- Hq. generalize (out_of_range mn mx (take (Z.to_nat n) l)). intros fo.
    clear. generalize (queues c1). induction fo as [|e fo IH]; intros p; simpl; [done|].
    rewrite IH. f_equal. unfold insert_in. rewrite pool_get_insert, decide_True by done.
    by rewrite insertEntry_entries.
  - intros q' Hq'. rewrite <- (Hne q' Hq').
    generalize (out_of_range mn mx (take (Z.to_nat n) l)). intros fo.
    clear -Hq'. generalize (queues c1). induction fo as [|e fo IH]; intros p; simpl; [done|].
    by rewrite IH, pool_get_insert_in_ne.
Qed.

Lemma PullMessages_returns env q n mn mx dl c :
  0 <= n -> exists c' ids, PullMessages env q n mn mx dl c = Ret (c', (ids, None)).
Proof.
  intros Hn. unfold PullMessages. destruct (entries _) as [|e l]; [by eauto|].
  rewrite MinInt64_min. destruct (_ <? 0) eqn:En; bool_hyps; [simpl in En; lia|].
  destruct (pull_loop _ _ _ _ _ _ _ _) as [[c' fo] ids]. by eauto.
Qed.

Lemma foldl_reinsert_spec es : forall l,
  NoDup (id <$> l) ->
  let l' := foldl (fun l e => insert_sorted e (fst (remove_id (id e) l))) l es in
  NoDup (id <$> l') /\ forall i, i ∈ id <$> l' <-> i ∈ id <$> es \/ i ∈ id <$> l.
Proof.
  induction es as [|e es IH]; intros l Hd; simpl; [split; [done|set_solver]|].
  assert (Hd' : NoDup (id <$> insert_sorted e (fst (remove_id (id e) l)))).
  { rewrite insert_sorted_perm. simpl. apply NoDup_cons. split; [by apply remove_id_absent|].
    eapply sublist_NoDup; [exact Hd|]. apply fmap_sublist, remove_id_sublist. }
  destruct (IH _ Hd') as [H1 H2]. split; [done|]. intros i. rewrite H2, insert_sorted_perm.
  simpl. rewrite !elem_of_cons, elem_of_remove_id_iff by done.
  destruct (decide (i = id e)); tauto.
Qed.

Lemma elem_of_in_range mn mx ex i :
  i ∈ id <$> ex <-> i ∈ id <$> in_range mn mx ex \/ i ∈ id <$> out_of_range mn mx ex.
Proof. by rewrite (in_range_perm mn mx ex) at 1; rewrite fmap_app, elem_of_app. Qed.

Lemma PullMessages_moves env q n mn mx dl c c' ids err :
  cache_unique c -> PullMessages env q n mn mx dl c = Ret (c', (ids, err)) ->
  cache_unique c' /\ keys c' = keys c /\
  NoDup ids /\ Z.of_nat (length ids) <= Z.max 0 n /\
  Forall (fun i => mem_where_is c q i = Some PRIMARY_POOL) ids /\
  moved (mem_where_is c) q ids (Some PROCESSING_POOL) (mem_where_is c').
Proof.
  intros Hc H. apply PullMessages_spec in H. simpl in H.
  set (l := entries (pool_get (queues c) q)) in H. set (ex := take (Z.to_nat n) l) in H.
  destruct H as (_ & Hids & Hq & Hne & Hp & Ha & Hn & Hk).
  pose proof (unique_NoDup c PRIMARY_POOL q Hc) as Hd. unfold ids_in in Hd. simpl in Hd. fold l in Hd.
  rewrite <- (take_drop (Z.to_nat n) l) in Hd. fold ex in Hd.
  rewrite fmap_app, (in_range_perm mn mx ex), fmap_app in Hd.
  rewrite !NoDup_app in Hd. destruct Hd as ((Hd1 & Hd12 & Hd2) & Hd3 & Hd4).
  destruct (foldl_reinsert_spec (out_of_range mn mx ex) (drop (Z.to_nat n) l) Hd4) as [Hr1 Hr2].
  rewrite <- Hq in Hr1, Hr2.
  assert (Hl : forall i, i ∈ ids_in (queues c) q <->
    i ∈ ids \/ i ∈ id <$> out_of_range mn mx ex \/ i ∈ id <$> drop (Z.to_nat n) l).
  { intros i. unfold ids_in. fold l. rewrite <- (take_drop (Z.to_nat n) l) at 1.
    rewrite fmap_app, elem_of_app. fold ex. rewrite (elem_of_in_range mn mx ex), <- Hids. tauto. }
  assert (Hpr : forall i, i ∈ ids -> in_pool c PRIMARY_POOL q i) by (intros i Hi; apply Hl; by left).
  destruct (mem_moved c c' q ids (Some PROCESSING_POOL)) as [Hu Hm]; [done|..].
  - intros P q'. by_pool P; rewrite ?Ha, ?Hn; [|rewrite Hp; apply NoDup_foldl_insert_in|..];
      [|apply (unique_NoDup c PROCESSING_POOL)|apply (unique_NoDup c LOCK_ACK_POOL)|
        apply (unique_NoDup c LOCK_NACK_POOL)]; try done.
    destruct (decide (q' = q)) as [->|Hq']; [done|]. unfold ids_in. rewrite Hne by done.
    by apply (unique_NoDup c PRIMARY_POOL).
  - intros P q' i.
    assert (Hex : P <> PRIMARY_POOL -> in_pool c P q' i -> ~ (q' = q /\ i ∈ ids)).
    { intros HP Hi [-> Hx]. apply HP. eapply unique_pool; [done|exact Hi|]. by apply Hpr. }
    revert Hex. by_pool P; rewrite ?Ha, ?Hn; intros Hex; try (intuition congruence).
    + destruct (decide (q' = q)) as [->|Hq']; cycle 1.
      { unfold ids_in. rewrite Hne by done. intuition congruence. }
      unfold ids_in at 1. rewrite Hr2, Hl. rewrite <- Hids in Hd12, Hd3.
      specialize (Hd12 i). specialize (Hd3 i). rewrite elem_of_app in Hd3.
      split; [|intuition congruence]. intros Hi. right. intuition.
    + rewrite Hp, elem_of_foldl_insert_in.
      replace (id <$> (processing_entry _ <$> in_range mn mx ex)) with ids
        by (rewrite Hids, <- list_fmap_compose; done).
      destruct (decide (q' = q /\ i ∈ ids)); intuition congruence.
  - split_and!; try done.
    + by rewrite Hids.
    + rewrite Hids, length_fmap. unfold in_range.
      pose proof (filter_length_le (fun e => negb (score_filtered_out mn mx (score e))) ex).
      subst ex. rewrite length_take in *. lia.
    + apply Forall_forall. intros i Hi. apply mem_where_is_Some; [done|]. by apply Hpr.
Qed.

(** ** Timeout *)

Lemma find_timeout_Some t l e :
  find_timeout t l = Some e -> e ∈ l /\ f64_leb (score e) (f64_of_Z t) = true.
Proof.
  induction l as [|x l IH]; simpl; [done|]. case_if; [intros [= ->]|]; set_solver.
Qed.

Lemma TimeoutMessages_moves env q c c' ids err :
  cache_unique c -> TimeoutMessages env q c = (c', (ids, err)) ->
  cache_unique c' /\ keys c' = keys c /\
  NoDup ids /\ Forall (fun i => mem_where_is c q i = Some PROCESSING_POOL) ids /\
  moved (mem_where_is c) q ids (Some PRIMARY_POOL) (mem_where_is c').
Proof.
  intros Hc. unfold TimeoutMessages.
  destruct (pool_get (processingQueues c) q) as [l|] eqn:El; cycle 1.
  { intros [= <- <- <-]. split_and!; try done; [constructor..|apply moved_nil]. }
  destruct (find_timeout _ l) as [e|] eqn:Ef; cycle 1.
  { intros [= <- <- <-]. split_and!; try done; [constructor..|apply moved_nil]. }
  apply find_timeout_Some in Ef as [He _].
  destruct (removeEntry _ _) as [l' b] eqn:Er. intros [= <- <- <-].
  assert (Hin : in_pool c PROCESSING_POOL q (id e)).
  { unfold in_pool, ids_in. simpl. rewrite El. by apply list_elem_of_fmap_2. }
  destruct (from_processing c
    (with_queues (insert_in (queues c) q (set_score Min e))
       (with_processing (<[q:=l']> (processingQueues c)) c)) q (set_score Min e) PRIMARY_POOL)
    as [Hu Hm]; try done.
  - rewrite El, Er. done.
  - by intros [].
  - by exists (set_score Min e).
  - split_and!; try done; [by apply NoDup_singleton|].
    apply Forall_singleton. by apply mem_where_is_Some.
Qed.

(** ** Unlock *)

Lemma find_unlocked_Some t l e l' :
  find_unlocked t l = Some (e, l') ->
  exists l1 l2, l = l1 ++ e :: l2 /\ l' = l1 ++ l2 /\ f64_to_int64 (lockUntil e) <= t /\
    Forall (fun x => t < f64_to_int64 (lockUntil x)) l1.
Proof.
  revert l'. induction l as [|x l IH]; simpl; intros l'; [done|]. case_if; bool_hyps.
  - intros [= -> ->]. exists [], l'. done.
  - destruct (find_unlocked t l) as [[v l'']|]; [|done]. intros [= -> <-].
    destruct (IH l'' eq_refl) as (l1 & l2 & -> & -> & ? & ?).
    exists (x :: l1), l2. split_and!; try done. by constructor.
Qed.

(** The cache with the maps the loop of [UnlockMessages] works on. *)
Definition unlock_state (t : LockType) (c : MemoryCache) (st : Pool * Pool * list string) :
    MemoryCache :=
  with_queues st.1.2 (with_lock t st.1.1 c).

(** Taking an entry out of a lock list and putting it in the primary pool. *)
Section UnlockOne.
Context (t : LockType) (c0 c1 : MemoryCache) (q : string).
Context (l1 l2 : list MemoryMessageEntry) (e e' : MemoryMessageEntry).
Hypothesis Hc : cache_unique c0.
Hypothesis El : pool_get (pool_map (lock_pool t) c0) q = Some (l1 ++ e :: l2).
Hypothesis He' : id e' = id e.
Hypothesis Hlock : pool_map (lock_pool t) c1 =
  (<[q := Some (l1 ++ l2)]> (pool_map (lock_pool t) c0) : Pool).
Hypothesis Hprim : queues c1 = insert_in (queues c0) q e'.
Hypothesis Hrest : forall P, P <> lock_pool t -> P <> PRIMARY_POOL -> pool_map P c1 = pool_map P c0.

Lemma unlock_one_ids : ids_in (pool_map (lock_pool t) c0) q = id <$> (l1 ++ e :: l2).
Proof using El. unfold ids_in. by rewrite El. Qed.

Lemma unlock_one_in : in_pool c0 (lock_pool t) q (id e).
Proof using El. unfold in_pool. rewrite unlock_one_ids, fmap_app, elem_of_app. right. left. Qed.

Lemma unlock_one_NoDup : (id e ∉ id <$> (l1 ++ l2)) /\ NoDup (id <$> (l1 ++ l2)).
Proof using Hc El.
  pose proof (unique_NoDup c0 (lock_pool t) q Hc) as Hd. rewrite unlock_one_ids in Hd.
  rewrite fmap_app, fmap_cons, <- Permutation_middle, NoDup_cons, <- fmap_app in Hd. done.
Qed.

Lemma unlock_one_lists P q' : NoDup (ids_in (pool_map P c1) q').
Proof using Hc El Hlock Hprim Hrest.
  destruct (decide (P = lock_pool t)) as [->|HP].
  { rewrite Hlock, ids_in_insert. destruct (decide (q = q')) as [<-|]; [apply unlock_one_NoDup|].
    by apply unique_NoDup. }
  destruct (decide (P = PRIMARY_POOL)) as [->|HP']; [|rewrite Hrest by done; by apply unique_NoDup].
  simpl. rewrite Hprim. apply NoDup_insert_in. apply (unique_NoDup c0 PRIMARY_POOL q' Hc).
Qed.

Lemma unlock_one_moves :
  cache_unique c1 /\ moved (mem_where_is c0) q [id e] (Some PRIMARY_POOL) (mem_where_is c1).
Proof using Type*.
  apply mem_moved; [done|apply unlock_one_lists|]. intros P q' i. rewrite list_elem_of_singleton.
  assert (Hex : P <> lock_pool t -> in_pool c0 P q' i -> ~ (q' = q /\ i = id e)).
  { intros HP Hi [-> ->]. apply HP. eapply (unique_pool c0); [done|exact Hi|apply unlock_one_in]. }
  unfold in_pool in *. destruct (decide (P = lock_pool t)) as [->|HP].
  { assert (Hne : Some PRIMARY_POOL <> Some (lock_pool t)) by (by destruct t). clear Hex.
    rewrite Hlock, ids_in_insert. destruct (decide (q = q')) as [<-|]; [|intuition congruence].
    destruct unlock_one_NoDup as [Hd _]. rewrite unlock_one_ids.
    rewrite (fmap_app _ l1 (e :: l2)), fmap_cons, <- (Permutation_middle (id <$> l1)), elem_of_cons,
      <- fmap_app.
    destruct (decide (i = id e)) as [->|]; [|by intuition congruence].
    split; [done|]. intuition congruence. }
  destruct (decide (P = PRIMARY_POOL)) as [->|HP']; [|rewrite Hrest by done; intuition congruence].
  simpl in *. rewrite Hprim, elem_of_insert_in, He'.
  destruct (decide (q' = q /\ i = id e)); intuition congruence.
Qed.
End UnlockOne.

(** One iteration moves at most one message of the queue to the primary pool. *)
Lemma unlock_queue_moves t c now ds q st st' :
  cache_unique (unlock_state t c st) ->
  unlock_queue now ds q st = st' ->
  cache_unique (unlock_state t c st') /\
  exists ids, st'.2 = st.2 ++ ids /\ NoDup ids /\
    Forall (fun i => mem_where_is (unlock_state t c st) q i = Some (lock_pool t)) ids /\
    moved (mem_where_is (unlock_state t c st)) q ids (Some PRIMARY_POOL)
      (mem_where_is (unlock_state t c st')).
Proof.
  intros Hc <-. destruct st as [[data qs] acc]. unfold unlock_queue.
  assert (Hnone : exists ids, acc = acc ++ ids /\ NoDup ids /\
    Forall (fun i => mem_where_is (unlock_state t c (data, qs, acc)) q i = Some (lock_pool t)) ids /\
    moved (mem_where_is (unlock_state t c (data, qs, acc))) q ids (Some PRIMARY_POOL)
      (mem_where_is (unlock_state t c (data, qs, acc)))).
  { exists []. rewrite app_nil_r. split_and!; [done|constructor..|apply moved_nil]. }
  destruct (pool_get data q) as [l|] eqn:El; [|done].
  destruct (find_unlocked now l) as [[e l']|] eqn:Ef; [|done].
  apply find_unlocked_Some in Ef as (l1 & l2 & -> & -> & _ & _). clear Hnone.
  set (e' := if IsUndefined (score e) then _ else e).
  assert (He' : id e' = id e) by (unfold e'; by case_if).
  set (c0 := unlock_state t c (data, qs, acc)) in *.
  assert (Hdata : pool_map (lock_pool t) c0 = data) by (by destruct t). rewrite <- Hdata in El.
  set (c1 := unlock_state t c (<[q := Some (l1 ++ l2)]> data, insert_in qs q e', acc ++ [id e'])).
  destruct (unlock_one_moves t c0 c1 q l1 l2 e e') as [Hu Hm]; [done|done|done|..].
  - rewrite Hdata. by destruct t.
  - done.
  - intros P ? ?. by destruct P, t.
  - split; [done|]. exists [id e]. rewrite He'. split_and!; try done; [by apply NoDup_singleton|].
    apply Forall_singleton, mem_where_is_Some; [done|]. by eapply unlock_one_in.
Qed.

(** The loop over the queues of the lock pool. *)
Lemma unlock_loop_moves t c now ds qs : forall st,
  cache_unique (unlock_state t c st) ->
  let st' := foldl (fun st q => unlock_queue now ds q st) st qs in
  cache_unique (unlock_state t c st') /\
  exists unlocked : list (string * string),
    st'.2 = st.2 ++ unlocked.*2 /\ NoDup unlocked /\
    Forall (fun x => mem_where_is (unlock_state t c st) x.1 x.2 = Some (lock_pool t)) unlocked /\
    forall q' i, mem_where_is (unlock_state t c st') q' i =
      if decide ((q', i) ∈ unlocked) then Some PRIMARY_POOL
      else mem_where_is (unlock_state t c st) q' i.
Proof.
  induction qs as [|q qs IH]; intros st Hc; simpl.
  { split; [done|]. exists []. rewrite app_nil_r. split_and!; [done|constructor..|].
    intros q' i. rewrite decide_False; [done|]. set_solver. }
  destruct (unlock_queue_moves t c now ds q st _ Hc eq_refl) as (Hc1 & ids & E1 & D1 & F1 & M1).
  destruct (IH _ Hc1) as (Hc2 & un & E2 & D2 & F2 & M2). split; [done|].
  assert (Hnew : forall q' i, (q', i) ∈ un -> ~ (q' = q /\ i ∈ ids)).
  { intros q' i Hi Hq. rewrite Forall_forall in F2. specialize (F2 _ Hi). simpl in F2.
    rewrite M1, decide_True in F2 by done. by destruct t. }
  exists ((pair q <$> ids) ++ un). rewrite E2, E1, fmap_app, <- list_fmap_compose, <- app_assoc.
  split_and!.
  - f_equal. f_equal. clear. induction ids as [|i ids IH]; simpl; [done|]. by f_equal.
  - apply NoDup_app. split_and!; [by apply NoDup_fmap_2; [intros ?? [=]|]|..|done].
    intros [q' i] (i' & [= -> ->] & Hi)%list_elem_of_fmap Hun. by apply (Hnew q i').
  - apply Forall_app. split.
    + apply Forall_fmap. eapply Forall_impl; [exact F1|]. done.
    + apply Forall_forall. intros [q' i] Hi. rewrite Forall_forall in F2.
      specialize (F2 _ Hi). simpl in *. rewrite M1, decide_False in F2; [done|]. by apply Hnew.
  - intros q' i. rewrite M2, M1.
    assert (Hp : (q', i) ∈ (pair q <$> ids) <-> q' = q /\ i ∈ ids).
    { rewrite list_elem_of_fmap. split; [intros (? & [= -> ->] & ?)|intros [-> ?]]; eauto. }
    destruct (decide ((q', i) ∈ un)) as [Hu|Hu].
    + rewrite decide_True; [done|]. set_solver.
    + destruct (decide (q' = q /\ i ∈ ids)) as [Hq|Hq].
      * rewrite decide_True; [done|]. rewrite elem_of_app. left. by apply Hp.
      * rewrite decide_False; [done|]. rewrite elem_of_app, Hp. tauto.
Qed.

Lemma unlock_state_id t c acc :
  unlock_state t c (pool_map (lock_pool t) c, queues c, acc) = c.
Proof. by destruct t, c. Qed.

Lemma UnlockMessages_moves env q t c c' ids err :
  cache_unique c -> UnlockMessages env q t c = (c', (ids, err)) ->
  cache_unique c' /\ keys c' = keys c /\
  exists unlocked : list (string * string),
    ids = unlocked.*2 /\ NoDup unlocked /\
    Forall (fun x => mem_where_is c x.1 x.2 = Some (lock_pool t)) unlocked /\
    forall q' i, mem_where_is c' q' i =
      if decide ((q', i) ∈ unlocked) then Some PRIMARY_POOL else mem_where_is c q' i.
Proof.
  intros Hc. unfold UnlockMessages.
  set (ds := match t with LOCK_ACK => _ | LOCK_NACK => _ end).
  pose proof (unlock_loop_moves t c (NowMs env) ds
    (map_range (env_order env) (pool_map (lock_pool t) c)).*1
    (pool_map (lock_pool t) c, queues c, [])) as H.
  rewrite unlock_state_id in H. specialize (H Hc). simpl in H.
  destruct (foldl _ _ _) as [[data qs] acc]. simpl in H. unfold unlock_state in H. simpl in H.
  intros [= <- <- <-]. destruct H as [Hu (un & -> & H)].
  split; [done|]. split; [by destruct t|]. by exists un.
Qed.

(** ** Sorted lists *)

Definition list_ok (l : list MemoryMessageEntry) : Prop := sorted_list l /\ no_nan l.

Lemma list_ok_nil : list_ok [].
Proof. split; constructor. Qed.

Lemma StronglySorted_sublist {A} (R : A -> A -> Prop) l l' :
  sublist l' l -> StronglySorted R l -> StronglySorted R l'.
Proof.
  induction 1 as [|x l' l Hs IH|x l' l Hs IH]; intros H; [done|..];
    apply StronglySorted_inv in H as [H Hx]; [|by apply IH].
  constructor; [by apply IH|]. rewrite Forall_forall in *. intros y Hy.
  apply Hx. by eapply elem_of_sublist.
Qed.

Lemma list_ok_sublist l l' : sublist l' l -> list_ok l -> list_ok l'.
Proof.
  intros Hs [H1 H2]. split; [by eapply StronglySorted_sublist|].
  unfold no_nan in *. rewrite Forall_forall in *. intros x Hx. apply H2. by eapply elem_of_sublist.
Qed.

Lemma list_ok_insert e l : f64_is_nan (score e) = false -> list_ok l -> list_ok (insert_sorted e l).
Proof.
  intros He [Hs Hn]. split; cycle 1.
  { unfold no_nan. rewrite insert_sorted_perm. by constructor. }
  unfold sorted_list in *. induction Hs as [|x l Hs IH Hx]; simpl; [by repeat constructor|].
  apply Forall_cons in Hn as [Hnx Hn]. case_if.
  - constructor; [by constructor|]. constructor; [done|].
    eapply Forall_impl; [exact Hx|]. intros y Hy. by eapply f64_leb_trans.
  - constructor; [by apply IH|]. rewrite insert_sorted_perm. constructor; [|done].
    by apply f64_nleb_leb.
Qed.

Lemma pool_sorted_update p q (l : List) :
  pool_sorted p -> list_ok (entries l) -> pool_sorted (<[q := l]> p).
Proof. intros Hp Hl q'. rewrite pool_get_insert. case_decide; [done|apply Hp]. Qed.

Lemma pool_sorted_insert_in p q e :
  pool_sorted p -> f64_is_nan (score e) = false -> pool_sorted (insert_in p q e).
Proof.
  intros Hp He. apply pool_sorted_update; [done|]. rewrite insertEntry_entries.
  apply list_ok_insert; [done|]. eapply list_ok_sublist; [apply remove_id_sublist|apply Hp].
Qed.

Lemma pool_sorted_foldl es p q :
  pool_sorted p -> Forall (fun e => f64_is_nan (score e) = false) es ->
  pool_sorted (foldl (fun p e => insert_in p q e) p es).
Proof.
  intros Hp He. revert p Hp. induction He; intros p Hp; simpl; [done|].
  auto using pool_sorted_insert_in.
Qed.

Lemma pool_sorted_removeEntry p q e :
  pool_sorted p -> pool_sorted (<[q := fst (removeEntry e (pool_get p q))]> p).
Proof.
  intros Hp. apply pool_sorted_update; [done|]. rewrite removeEntry_entries.
  eapply list_ok_sublist; [apply remove_id_sublist|apply Hp].
Qed.

Lemma pool_sorted_remove_step p q ids p' n :
  remove_step p q ids = (p', n) -> pool_sorted p -> pool_sorted p'.
Proof.
  unfold remove_step, removeFromSlice. intros E Hp.
  destruct (pool_get p q) as [[|e l]|] eqn:El; simplify_eq.
  - apply pool_sorted_update; [done|apply list_ok_nil].
  - destruct (removeFromSlice_loop ids (e :: l) 0) as [l' n'] eqn:Er. simplify_eq.
    apply removeFromSlice_loop_spec in Er as (Hs & _). apply pool_sorted_update; [done|].
    eapply list_ok_sublist; [exact Hs|]. specialize (Hp q). by rewrite El in Hp.
  - apply pool_sorted_update; [done|apply list_ok_nil].
Qed.

(** The score given to an unlocked message. *)
Lemma unlock_queue_sorted now ds q st :
  f64_is_nan ds = false -> pool_sorted st.1.1 -> pool_sorted st.1.2 ->
  let st' := unlock_queue now ds q st in pool_sorted st'.1.1 /\ pool_sorted st'.1.2.
Proof.
  destruct st as [[data qs] acc]. simpl. intros Hds Hd Hq.
  destruct (pool_get data q) as [l|] eqn:El; [|done].
  destruct (find_unlocked now l) as [[e l']|] eqn:Ef; [|done].
  apply find_unlocked_Some in Ef as (l1 & l2 & -> & -> & _ & _).
  pose proof (Hd q) as Hl. rewrite El in Hl. simpl in Hl |- *. split.
  - apply pool_sorted_update; [done|]. eapply list_ok_sublist; [|exact Hl]. simpl.
    apply sublist_app; [done|]. by apply sublist_cons.
  - apply pool_sorted_insert_in; [done|]. case_if; [done|].
    destruct Hl as [_ Hn]. unfold no_nan in Hn. rewrite Forall_app, Forall_cons in Hn. apply Hn.
Qed.

(** The scores a call brings in are not NaN. *)
Definition op_no_nan (op : cache_op) : Prop :=
  match op with
  | OpMakeAvailable m | OpLockMessage m _ => f64_is_nan (Score m) = false
  | OpInsert _ ms => Forall (fun m => f64_is_nan (Score m) = false) ms
  | _ => True
  end.

Lemma cache_sorted_alt c :
  cache_sorted c <-> pool_sorted (queues c) /\ pool_sorted (processingQueues c) /\
    pool_sorted (lockAckQueues c) /\ pool_sorted (lockNackQueues c).
Proof.
  split; [|by intros (? & ? & ? & ?) []].
  intros H. split_and!; [apply (H PRIMARY_POOL)|apply (H PROCESSING_POOL)|apply (H LOCK_ACK_POOL)|
    apply (H LOCK_NACK_POOL)].
Qed.

(** ** The contract *)

#[export] Instance MemoryCache_spec `{Glob} : CacheSpec MemoryCache.
Proof.
  refine {|
    cache_inv := cache_unique;
    where_is := mem_where_is;
    cache_key := fun c k => default "" (keys c !! k);
    cache_msg_ok := fun _ => True;
    cache_pull_ok := fun _ => True
  |}; simpl.
  - intros env m c c' b err Hc E.
    destruct (MakeAvailable_moves m c c' b err Hc E) as (? & -> & ? & ? & ?). by split_and!.
  - intros env m t c c' b err Hc E.
    destruct (LockMessage_moves env m t c c' b err Hc E) as (? & -> & ? & ? & ?). by split_and!.
  - intros env q n mn mx dl c c' ids err Hc _ E.
    destruct (PullMessages_moves env q n mn mx dl c c' ids err Hc E) as (? & -> & ? & ? & ?).
    split; [done|]. split; [done|]. split; [done|]. split; [intros; lia|done].
  - intros env q c c' ids err Hc E.
    destruct (TimeoutMessages_moves env q c c' ids err Hc E) as (? & -> & ?). done.
  - intros env q t c c' ids err Hc E.
    destruct (UnlockMessages_moves env q t c c' ids err Hc E) as (? & -> & ?). done.
  - intros env q ms c c' ids err Hc E.
    destruct (Insert_moves q ms c c' ids err Hc E) as (? & -> & ? & ? & ?). by split_and!.
  - intros env q ids c c' n err Hc E.
    destruct (Remove_moves q ids c c' n err Hc E) as (? & -> & _ & _ & ?).
    split_and!; [done..|]. by exists ids.
  - intros env c _. split_and!; [|done..]. intros q'. constructor.
  - intros env k c v _ [= <-]. done.
  - intros env k v c c' Hc [= <-]. split_and!; [exact Hc|done|]. simpl. intros k'.
    rewrite lookup_insert. destruct (decide (k = k')) as [->|]; [by rewrite decide_True|].
    by rewrite decide_False.
  - done.
Defined.

(** Putting entries back in a list keeps it sorted. *)
Lemma list_ok_reinsert fo l : no_nan fo -> list_ok l ->
  list_ok (foldl (fun l e => insert_sorted e (remove_id (id e) l).1) l fo).
Proof.
  intros Hfo. revert l. induction Hfo as [|e fo He _ IH]; intros l Hl; simpl; [done|].
  apply IH, list_ok_insert; [done|]. eapply list_ok_sublist; [apply remove_id_sublist|done].
Qed.

Lemma PullMessages_sorted env q n mn mx dl c c' r :
  pool_sorted (queues c) -> pool_sorted (processingQueues c) ->
  PullMessages env q n mn mx dl c = Ret (c', r) ->
  pool_sorted (queues c') /\ pool_sorted (processingQueues c') /\
  lockAckQueues c' = lockAckQueues c /\ lockNackQueues c' = lockNackQueues c.
Proof.
  intros Hq Hp E. destruct r as [ids err].
  apply PullMessages_spec in E as (_ & _ & E1 & E2 & E3 & E4 & E5 & _).
  split_and!; try done.
  - intros q'. destruct (decide (q' = q)) as [->|Hne]; [|rewrite E2 by done; apply Hq].
    rewrite E1. specialize (Hq q). set (l := entries (pool_get (queues c) q)) in *.
    apply list_ok_reinsert.
    + destruct Hq as [_ Hnn]. unfold no_nan in *. rewrite Forall_forall in *.
      intros e [He _]%list_elem_of_In%filter_In. apply list_elem_of_In in He.
      apply Hnn. eapply elem_of_sublist; [exact He|apply sublist_take].
    + eapply list_ok_sublist; [apply sublist_drop|exact Hq].
  - rewrite E3. apply pool_sorted_foldl; [done|]. apply Forall_fmap, Forall_forall.
    intros e _. apply f64_of_Z_not_nan.
Qed.

Lemma unlock_loop_sorted now ds ks : f64_is_nan ds = false ->
  forall st, pool_sorted st.1.1 -> pool_sorted st.1.2 ->
  let st' := foldl (fun st q => unlock_queue now ds q st) st ks in
  pool_sorted st'.1.1 /\ pool_sorted st'.1.2.
Proof.
  intros Hds. induction ks as [|k ks IH]; intros st H1 H2; simpl; [done|].
  destruct (unlock_queue_sorted now ds k st Hds H1 H2). by apply IH.
Qed.

Lemma insert_messages_sorted ms : forall p,
  Forall (fun m => f64_is_nan (Score m) = false) ms -> pool_sorted p ->
  pool_sorted (foldl (fun p m => insert_in p (Queue m) (createEntry m)) p ms).
Proof.
  induction ms as [|m ms IH]; intros p; simpl; [done|].
  intros [Hm Hl]%Forall_cons Hp. by apply IH, pool_sorted_insert_in.
Qed.

(** Every call keeps the pools sorted. *)
Lemma run_op_sorted `{Glob} env op c c' :
  cache_sorted c -> op_no_nan op -> run_op env op c = Ret c' -> cache_sorted c'.
Proof.
  rewrite !cache_sorted_alt. intros (Hq & Hp & Ha & Hn) Hop Hr.
  destruct op as [m|m t|q n mn mx dl|q|q t|q ms|q ids|k v|]; simpl in Hr.
  - injection Hr as <-. unfold MakeAvailable. case_if; [done|].
    destruct (removeEntry _ _) as [l r] eqn:Er.
    pose proof (pool_sorted_removeEntry _ (Queue m) (createEntry m) Hp) as Hp'. rewrite Er in Hp'.
    destruct r; simpl; split_and!; try done. by apply pool_sorted_insert_in.
  - injection Hr as <-. unfold LockMessage. case_if; [done|]. case_if; [done|].
    destruct (processingQueues c !! Queue m); [|done].
    destruct (removeEntry _ _) as [l r] eqn:Er.
    pose proof (pool_sorted_removeEntry _ (Queue m) (createEntry m) Hp) as Hp'. rewrite Er in Hp'.
    destruct r, t; simpl; split_and!; try done; by apply pool_sorted_insert_in.
  - destruct (PullMessages env q n mn mx dl c) as [[c1 r]|] eqn:E; [|done].
    injection Hr as <-. apply PullMessages_sorted in E as (? & ? & E4 & E5); [|done..].
    simpl. rewrite E4, E5. done.
  - injection Hr as <-. unfold TimeoutMessages.
    destruct (pool_get (processingQueues c) q) as [l|] eqn:El; [|done].
    destruct (find_timeout _ l) as [e|]; [|done].
    pose proof (pool_sorted_removeEntry _ q (set_score Min e) Hp) as Hp'. rewrite El in Hp'.
    destruct (removeEntry _ _) as [l' b]. simpl. split_and!; try done.
    by apply pool_sorted_insert_in.
  - injection Hr as <-. unfold UnlockMessages.
    set (ds := match t with LOCK_ACK => _ | LOCK_NACK => _ end).
    assert (Hds : f64_is_nan ds = false) by (destruct t; [apply f64_of_Z_not_nan|done]).
    destruct (unlock_loop_sorted (NowMs env) ds
      (map_range (env_order env) (pool_map (lock_pool t) c)).*1 Hds
      (pool_map (lock_pool t) c, queues c, [])) as [H1 H2]; [by destruct t|done|].
    destruct (foldl _ _ _) as [[data qs] acc]. by destruct t.
  - injection Hr as <-. unfold Insert. case_if; [done|]. apply existsb_queue_false in E.
    simpl. split_and!; try done. simpl in Hop.
    assert (Hms : Forall (fun m => f64_is_nan (Score m) = false)
      (List.filter (fun m => negb (isPresentOnAnyPool c q (ID m))) ms)).
    { rewrite Forall_forall in *. intros m [Hm _]%list_elem_of_In%filter_In.
      by apply Hop, list_elem_of_In. }
    by apply insert_messages_sorted.
  - injection Hr as <-. unfold Remove.
    destruct (remove_step (queues c) q ids) eqn:E1. destruct (remove_step (processingQueues c) q ids) eqn:E2.
    destruct (remove_step (lockAckQueues c) q ids) eqn:E3. destruct (remove_step (lockNackQueues c) q ids) eqn:E4.
    simpl. split_and!; by eapply pool_sorted_remove_step.
  - injection Hr as <-. done.
  - injection Hr as <-. simpl. split_and!; intros q; apply list_ok_nil.
Qed.

(** ** The effect of an unlock on one queue *)

(** What [UnlockMessages] leaves in the lock list of a queue. *)
Definition unlock_rest (now : Z) (l : list MemoryMessageEntry) : list MemoryMessageEntry :=
  match find_unlocked now l with Some (_, l') => l' | None => l end.

(** The loop touches the list of a queue exactly once. *)
Lemma unlock_loop_rest now ds ks : forall st q,
  NoDup ks ->
  let st' := foldl (fun st q => unlock_queue now ds q st) st ks in
  entries (pool_get st'.1.1 q) =
    if decide (q ∈ ks) then unlock_rest now (entries (pool_get st.1.1 q))
    else entries (pool_get st.1.1 q).
Proof.
  induction ks as [|k ks IH]; intros st q Hd; simpl; [done|].
  apply NoDup_cons in Hd as [Hk Hd]. rewrite IH by done.
  assert (E : entries (pool_get (unlock_queue now ds k st).1.1 q) =
    if decide (q = k) then unlock_rest now (entries (pool_get st.1.1 q))
    else entries (pool_get st.1.1 q)).
  { destruct st as [[data qs] acc]. unfold unlock_queue, unlock_rest. simpl.
    destruct (pool_get data k) as [l|] eqn:El; cycle 1.
    { simpl. case_decide as Hq; [subst q; by rewrite El|done]. }
    destruct (find_unlocked now l) as [[e l']|] eqn:Ef; simpl.
    - rewrite pool_get_insert. destruct (decide (k = q)) as [<-|].
      + by rewrite El, decide_True; simpl; rewrite ?Ef.
      + by rewrite decide_False.
    - case_decide as Hq; [subst q; rewrite El; simpl; by rewrite Ef|done]. }
  rewrite E. destruct (decide (q = k)) as [->|Hne].
  - rewrite decide_False by done. by rewrite decide_True by set_solver.
  - destruct (decide (q ∈ ks)); [rewrite decide_True by set_solver|rewrite decide_False by set_solver];
      done.
Qed.

Lemma UnlockMessages_rest env q t c c' r q' :
  UnlockMessages env q t c = (c', r) ->
  entries (pool_get (pool_map (lock_pool t) c') q') =
  unlock_rest (NowMs env) (entries (pool_get (pool_map (lock_pool t) c) q')).
Proof.
  unfold UnlockMessages. set (ds := match t with LOCK_ACK => _ | LOCK_NACK => _ end).
  set (data := pool_map (lock_pool t) c). set (ks := (map_range (env_order env) data).*1).
  pose proof (unlock_loop_rest (NowMs env) ds ks (data, queues c, []) q'
    (NoDup_map_range_fst _ _)) as H.
  destruct (foldl _ _ _) as [[data' qs] acc]. simpl in H. intros [= <- _].
  replace (pool_map (lock_pool t) (with_queues qs (with_lock t data' c))) with data'
    by (by destruct t).
  rewrite H. case_decide as Hq; [done|].
  assert (Hnone : pool_get data q' = None).
  { unfold pool_get. destruct (data !! q') as [l|] eqn:El; [|done]. exfalso. apply Hq.
    apply list_elem_of_fmap. exists (q', l). split; [done|]. by apply elem_of_map_range. }
  by rewrite Hnone.
Qed.

(** ** Entries with unique ids *)

Lemma entry_unique l x y :
  NoDup (id <$> l) -> x ∈ l -> y ∈ l -> id x = id y -> x = y.
Proof.
  intros Hd [i Hi]%list_elem_of_lookup [j Hj]%list_elem_of_lookup E.
  assert (i = j) as ->; [|congruence].
  eapply (NoDup_lookup (id <$> l) i j (id x)); [done|..]; rewrite list_lookup_fmap.
  - by rewrite Hi.
  - rewrite Hj. simpl. by rewrite E.
Qed.

Lemma elem_of_remove_id_ne e i l : id e <> i -> e ∈ l -> e ∈ fst (remove_id i l).
Proof.
  intros Hne. induction l as [|x l IH]; simpl; [done|].
  destruct (String.eqb_spec (id x) i) as [<-|Hx]; simpl; [set_solver|].
  destruct (remove_id i l) as [l' b]. simpl in *. set_solver.
Qed.

Lemma elem_of_insert_in_self p q e : e ∈ entries (pool_get (insert_in p q e) q).
Proof.
  unfold insert_in. rewrite pool_get_insert, decide_True, insertEntry_entries by done.
  rewrite insert_sorted_perm. set_solver.
Qed.

Lemma elem_of_insert_in_keep p q e x :
  id x <> id e -> x ∈ entries (pool_get p q) -> x ∈ entries (pool_get (insert_in p q e) q).
Proof.
  intros Hne Hx. unfold insert_in. rewrite pool_get_insert, decide_True, insertEntry_entries by done.
  rewrite insert_sorted_perm. apply elem_of_cons. right. by apply elem_of_remove_id_ne.
Qed.

Lemma elem_of_foldl_insert_in_entries es p q e :
  NoDup (id <$> es) -> e ∈ es ->
  e ∈ entries (pool_get (foldl (fun p e => insert_in p q e) p es) q).
Proof.
  intros Hd He. revert p.
  assert (Hkeep : forall es p x, id x ∉ id <$> es -> x ∈ entries (pool_get p q) ->
    x ∈ entries (pool_get (foldl (fun p e => insert_in p q e) p es) q)).
  { clear. induction es as [|e es IH]; intros p x Hn Hx; simpl in *; [done|].
    apply not_elem_of_cons in Hn as [? ?]. apply IH; [done|]. by apply elem_of_insert_in_keep. }
  induction es as [|x es IH]; intros p; [set_solver|]. simpl in *.
  apply NoDup_cons in Hd as [Hx Hd]. apply elem_of_cons in He as [->|He]; [|by apply IH].
  apply Hkeep; [done|]. apply elem_of_insert_in_self.
Qed.
