(* ===== verification/Fixtures.v ===== *)
(** * Concrete inputs

    Small values on which the theorems of the development are evaluated. *)

From S2P Require Import Prelude Float64 Dtime Utils Message.
#[local] Open Scope string_scope.
#[local] Open Scope Z_scope.

(** A glob matcher that knows ["*"] and otherwise compares. *)
Definition plain_glob : Glob.
Proof.
  refine {| glob_compile := fun p => Some (fun s => String.eqb p "*" || String.eqb p s) |}.
  by exists (fun s => String.eqb "*" "*" || String.eqb "*" s).
Defined.

(** The environment of a call made at [ms] milliseconds after the epoch. *)
Definition at_ms (ms : Z) : Env := 
  {| env_now := ms * Millisecond; env_order := canonical_order; env_sort := canonical_sort |}.

(** A message with its score and lock time, never expiring. *)
Definition msg (queue i : string) (score : Z) (lock : Z) : Message := {|
  ID := i; Description := ""; Queue := queue; ExpiryDate := 4102444800 * Second; Timeless := false;
  Metadata := None; Payload := None; StringPayload := ""; LockMs := lock; InternalId := IdNil;
  Score := f64_of_Z score; LastUsage := None; Breakpoint := ""; LastScoreSubtract := f64_zero;
  TotalScoreSubtract := f64_zero; UsageCount := 0; QueuePrefix := queue; QueueSuffix := "";
  Diagnostics := None
|}.
