(* ===== verification/CacheProps.v ===== *)
(** * Properties of the caches

    The life cycle of a message, for every implementation of the cache
    contract; then the guarantees and the limits of the memory cache. *)

From S2P Require Import Prelude Float64 Dtime Utils Score Message Cache MemoryCache.
From S2P Require Import MemoryCacheFacts Fixtures.
#[local] Open Scope string_scope.
#[local] Open Scope list_scope.
#[local] Open Scope Z_scope.
#[local] Abbreviation score := MemoryCache.score.
#[local] Abbreviation id := MemoryCache.id.

(** ** The life cycle, from the contract alone *)

Section LifeCycle.
Context {C : Type} `{HS : CacheSpec C}.

(** The moves of the contract that go to one pool. *)
Lemma moved_life q ids (P : option PoolType) (w w' : string -> string -> option PoolType)
    (op : cache_op) :
  moved w q ids P w' ->
  (forall i, i ∈ ids -> life_step q i op (w q i) P) ->
  forall q' i, life_step q' i op (w q' i) (w' q' i).
Proof using Type.
  intros Hm Hl q' i. rewrite Hm. case_decide as Hq; [|constructor].
  destruct Hq as [-> Hi]. by apply Hl.
Qed.

(** The messages of a call are ones whose operations fail without effect. *)
Definition op_ok (op : cache_op) : Prop :=
  match op with
  | OpMakeAvailable m | OpLockMessage m _ => cache_msg_ok m
  | OpInsert _ ms => Forall cache_msg_ok ms
  | OpPullMessages _ n _ _ _ => cache_pull_ok n
  | _ => True
  end.

Lemma run_op_life env op c c' :
  cache_inv c -> op_ok op -> run_op env op c = Ret c' ->
  cache_inv c' /\ forall q i, life_step q i op (where_is c q i) (where_is c' q i).
Proof using HS.
  intros Hc Hok Hr. destruct op as [m|m t|q n mn mx dl|q|q t|q ms|q ids|k v|]; simpl in Hr, Hok.
  - injection Hr as <-. destruct (cache_MakeAvailable env m c) as [c1 [b err]] eqn:E.
    apply spec_MakeAvailable in E as (Hi & _ & Hb & _ & Hm); [|done]. split; [done|].
    specialize (Hm (or_intror Hok)).
    eapply moved_life; [exact Hm|]. intros i Hin. destruct b; [|set_solver].
    apply list_elem_of_singleton in Hin as ->. destruct Hb as [_ ->]; [done|]. by constructor.
  - injection Hr as <-. destruct (cache_LockMessage env m t c) as [c1 [b err]] eqn:E.
    apply spec_LockMessage in E as (Hi & _ & Hb & _ & Hm); [|done]. split; [done|].
    specialize (Hm (or_intror Hok)).
    eapply moved_life; [exact Hm|]. intros i Hin. destruct b; [|set_solver].
    apply list_elem_of_singleton in Hin as ->. destruct Hb as [_ ->]; [done|]. by constructor.
  - destruct (cache_PullMessages env q n mn mx dl c) as [[c1 [ids err]]|] eqn:E; [|done].
    injection Hr as <-. apply spec_PullMessages in E as (Hi & _ & _ & _ & Hf & Hm); [|done..].
    split; [done|]. eapply moved_life; [exact Hm|]. intros i Hin.
    rewrite Forall_forall in Hf. rewrite Hf by done. constructor.
  - injection Hr as <-. destruct (cache_TimeoutMessages env q c) as [c1 [ids err]] eqn:E.
    apply spec_TimeoutMessages in E as (Hi & _ & _ & Hf & Hm); [|done]. split; [done|].
    eapply moved_life; [exact Hm|]. intros i Hin.
    rewrite Forall_forall in Hf. rewrite Hf by done. constructor.
  - injection Hr as <-. destruct (cache_UnlockMessages env q t c) as [c1 [ids err]] eqn:E.
    apply spec_UnlockMessages in E as (Hi & _ & un & _ & _ & Hf & Hm); [|done]. split; [done|].
    intros q' i. rewrite Hm. case_decide as Hin; [|constructor].
    rewrite Forall_forall in Hf. apply Hf in Hin. simpl in Hin. rewrite Hin. constructor.
  - injection Hr as <-. destruct (cache_Insert env q ms c) as [c1 [ids err]] eqn:E.
    apply spec_Insert in E as (Hi & _ & Hn & _ & Hm); [|done]. split; [done|].
    specialize (Hm (or_intror Hok)).
    eapply moved_life; [exact Hm|]. intros i Hin. apply Hn in Hin as [-> ?]. by constructor.
  - injection Hr as <-. destruct (cache_Remove env q ids c) as [c1 [n err]] eqn:E.
    apply spec_Remove in E as (Hi & _ & gone & Hg & _ & Hm); [|done]. split; [done|].
    eapply moved_life; [exact Hm|]. intros i Hin. constructor. by apply Hg.
  - injection Hr as <-. destruct (cache_Set env k v c) as [c1 [e|]] eqn:E.
    + apply spec_Set_error in E as (Hi & Hw); [|done]. split; [done|].
      intros q i. simpl. rewrite Hw. constructor.
    + apply spec_Set in E as (Hi & Hw & _); [|done]. split; [done|].
      intros q i. simpl. rewrite Hw. constructor.
  - injection Hr as <-. destruct (spec_Flush env c Hc) as (Hi & _ & Hw). split; [done|].
    intros q i. rewrite Hw. constructor.
Qed.

Lemma run_op_inv env op c c' : cache_inv c -> op_ok op -> run_op env op c = Ret c' -> cache_inv c'.
Proof using HS.
  intros Hc Hok Hr. destruct op as [m|m t|q n mn mx dl|q|q t|q ms|q ids|k v|]; simpl in Hr, Hok;
    try (injection Hr as <-).
  - destruct (cache_MakeAvailable env m c) as [c1 [b err]] eqn:E. by apply spec_MakeAvailable in E as (? & _).
  - destruct (cache_LockMessage env m t c) as [c1 [b err]] eqn:E. by apply spec_LockMessage in E as (? & _).
  - destruct (cache_PullMessages env q n mn mx dl c) as [[c1 [ids err]]|] eqn:E; [|done].
    injection Hr as <-. by apply spec_PullMessages in E as (? & _).
  - destruct (cache_TimeoutMessages env q c) as [c1 [ids err]] eqn:E. by apply spec_TimeoutMessages in E as (? & _).
  - destruct (cache_UnlockMessages env q t c) as [c1 [ids err]] eqn:E. by apply spec_UnlockMessages in E as (? & _).
  - destruct (cache_Insert env q ms c) as [c1 [ids err]] eqn:E. by apply spec_Insert in E as (? & _).
  - destruct (cache_Remove env q ids c) as [c1 [n err]] eqn:E. by apply spec_Remove in E as (? & _).
  - destruct (cache_Set env k v c) as [c1 [e|]] eqn:E; [by apply spec_Set_error in E as (? & _)|].
    by apply spec_Set in E as (? & _).
  - by destruct (spec_Flush env c Hc).
Qed.

Lemma run_ops_inv h : forall c c', cache_inv c -> Forall (fun x => op_ok x.2) h ->
  run_ops h c = Ret c' -> cache_inv c'.
Proof using HS.
  induction h as [|[env op] h IH]; intros c c' Hc Hok; simpl; [by intros [= <-]|].
  apply Forall_cons in Hok as [Hop Hok].
  destruct (run_op env op c) as [c1|] eqn:E; [|done]. simpl.
  apply run_op_inv in E; [|done..]. by apply IH.
Qed.
End LifeCycle.

#[local] Existing Instance plain_glob.

(** Two messages inserted in one queue. *)
Definition two_messages : MemoryCache :=
  (Insert "q" [msg "q" "a" 10 0; msg "q" "b" 5 0] NewMemoryCache).1.

Lemma NewMemoryCache_unique : cache_unique NewMemoryCache.
Proof. intros q. constructor. Qed.

Lemma Insert_unique q ms c : cache_unique c -> cache_unique (Insert q ms c).1.
Proof.
  intros Hc. destruct (Insert q ms c) as [c' [ids err]] eqn:E.
  by apply Insert_moves in E as [? _].
Qed.

(** The memory cache accepts every call. *)
Lemma memory_op_ok `{Glob} op : op_ok (C := MemoryCache) op.
Proof. by destruct op; try done; apply Forall_true. Qed.

Lemma memory_ops_ok `{Glob} (h : list (Env * cache_op)) : Forall (fun x => op_ok (C := MemoryCache) x.2) h.
Proof. apply Forall_true. intros x. apply memory_op_ok. Qed.

(** C17. The memory cache refines the life cycle of a message: after any history,
    whatever the next call, the message of every queue moves only along the
    edges that call may take (an insertion makes it available, a pull makes it
    processing, an answer or a timeout makes it available or locked, an unlock
    makes it available, a removal forgets it). *)
Theorem memory_cache_life_cycle `{Glob} (h : list (Env * cache_op)) env op c c'
    (Hreach : run_ops h NewMemoryCache = Ret c) (Hrun : run_op env op c = Ret c') :
  forall q i, life_step q i op (mem_where_is c q i) (mem_where_is c' q i).
Proof.
  eapply (run_op_life (HS := MemoryCache_spec)); [|apply memory_op_ok|exact Hrun].
  exact (run_ops_inv (HS := MemoryCache_spec) h NewMemoryCache c NewMemoryCache_unique (memory_ops_ok h) Hreach).
Qed.

Lemma memory_cache_life_cycle_witness :
  exists c', run_op (at_ms 1000) (OpPullMessages "q" 1 None None 0) two_messages = Ret c' /\
    mem_where_is c' "q" "b" = Some PROCESSING_POOL /\
    life_step "q" "b" (OpPullMessages "q" 1 None None 0)
      (mem_where_is two_messages "q" "b") (mem_where_is c' "q" "b").
Proof.
  eexists. split; [reflexivity|]. split; [reflexivity|].
  apply (memory_cache_life_cycle
    [(at_ms 0, OpInsert "q" [msg "q" "a" 10 0; msg "q" "b" 5 0])]
    (at_ms 1000) (OpPullMessages "q" 1 None None 0) two_messages); reflexivity.
Defined.

(** ** Invariants of the memory cache over histories *)

(** C20. After any sequence of calls on a new memory cache, a message of a queue
    is in at most one of the four pools and at most once in it. *)
Theorem memory_cache_unique `{Glob} (h : list (Env * cache_op)) c
    (Hrun : run_ops h NewMemoryCache = Ret c) :
  forall queue, NoDup (all_ids c queue).
Proof.
  apply (run_ops_inv (HS := MemoryCache_spec) h NewMemoryCache c NewMemoryCache_unique (memory_ops_ok h) Hrun).
Qed.

(** A history with every kind of move. *)
Definition busy_history : list (Env * cache_op) :=
  [ (at_ms 1000, OpInsert "q" [msg "q" "a" 10 0; msg "q" "b" 5 0; msg "q" "c" 7 0]);
    (at_ms 2000, OpPullMessages "q" 2 None None 0);
    (at_ms 3000, OpLockMessage (msg "q" "b" (-1) 500) LOCK_NACK);
    (at_ms 3100, OpMakeAvailable (msg "q" "c" 20 0));
    (at_ms 3200, OpInsert "q" [msg "q" "b" 1 0; msg "q" "d" 15 0]);
    (at_ms 3600, OpUnlockMessages "q" LOCK_NACK) ].

Lemma memory_cache_unique_witness :
  exists c, run_ops busy_history NewMemoryCache = Ret c /\
    all_ids c "q" = ["b"; "a"; "d"; "c"] /\ NoDup (all_ids c "q").
Proof.
  eexists. split; [reflexivity|]. split; [reflexivity|].
  apply (memory_cache_unique busy_history). reflexivity.
Defined.

(** As long as no call brings in a NaN score, every list of every pool stays
    sorted by score, smallest (highest priority) first. *)
Theorem memory_cache_sorted `{Glob} (h : list (Env * cache_op)) c
    (Hops : Forall (fun x => op_no_nan x.2) h)
    (Hrun : run_ops h NewMemoryCache = Ret c) :
  forall poolType queue, sorted_list (entries (pool_get (pool_map poolType c) queue)).
Proof.
  assert (Hc : cache_sorted NewMemoryCache) by (intros [] q; apply list_ok_nil).
  assert (Hs : cache_sorted c); [|intros P q; apply Hs].
  revert Hc Hrun. generalize NewMemoryCache as c0.
  induction Hops as [|[env op] h Hop _ IH]; intros c0 Hc0; simpl; [by intros [= <-]|].
  destruct (run_op env op c0) as [c1|] eqn:E; [|done]. simpl.
  apply IH. by eapply run_op_sorted.
Qed.

Lemma memory_cache_sorted_witness :
  exists c, run_ops busy_history NewMemoryCache = Ret c /\
    sorted_list (entries (pool_get (pool_map PRIMARY_POOL c) "q")).
Proof.
  eexists. split; [reflexivity|].
  apply (memory_cache_sorted busy_history); [|reflexivity].
  repeat constructor.
Defined.

(** ** Pulling *)

(** C21. A pull without score filter hands out the best messages: when the pools
    are sorted, it returns the first [n] messages of the queue in order of
    score, and no message it leaves behind has a smaller score than a message
    it returns. *)
Theorem PullMessages_priority env q n ackDeadlineMs c c' ids err
    (Hs : cache_sorted c)
    (Hpull : PullMessages env q n None None ackDeadlineMs c = Ret (c', (ids, err))) :
  let l := entries (pool_get (queues c) q) in
  exists pulled left_behind,
    l = pulled ++ left_behind /\ ids = id <$> pulled /\
    entries (pool_get (queues c') q) = left_behind /\
    length pulled = Nat.min (Z.to_nat n) (length l) /\
    sorted_list pulled /\
    forall x y, x ∈ pulled -> y ∈ left_behind -> f64_leb (score x) (score y) = true.
Proof.
  intros l. apply PullMessages_spec in Hpull as (_ & Hids & Hq & _). fold l in Hids, Hq.
  assert (Hall : forall ex, in_range None None ex = ex /\ out_of_range None None ex = []).
  { unfold in_range, out_of_range. induction ex as [|e ex [IH1 IH2]]; [done|].
    split; [cbn; f_equal; exact IH1|exact IH2]. }
  destruct (Hall (take (Z.to_nat n) l)) as [H1 H2]. rewrite H1 in Hids. rewrite H2 in Hq. simpl in Hq.
  exists (take (Z.to_nat n) l), (drop (Z.to_nat n) l).
  destruct (Hs PRIMARY_POOL q) as [Hsl _]. simpl in Hsl. fold l in Hsl.
  split_and!; [by rewrite take_drop|done|done|apply length_take| |].
  - eapply StronglySorted_sublist; [apply sublist_take|exact Hsl].
  - unfold sorted_list in Hsl. rewrite <- (take_drop (Z.to_nat n) l) in Hsl.
    revert Hsl. generalize (take (Z.to_nat n) l), (drop (Z.to_nat n) l). clear.
    induction l as [|a l IH]; intros l0 Hsl x y; [set_solver|].
    simpl in Hsl. apply StronglySorted_inv in Hsl as [Hsl Ha].
    intros [->|Hx]%elem_of_cons Hy; [|by eapply IH].
    rewrite Forall_forall in Ha. apply Ha. set_solver.
Qed.

Lemma two_messages_sorted : cache_sorted two_messages.
Proof.
  eapply (run_op_sorted (at_ms 0) (OpInsert "q" [msg "q" "a" 10 0; msg "q" "b" 5 0])
    NewMemoryCache); [|repeat constructor|reflexivity].
  intros [] q; apply list_ok_nil.
Qed.

Lemma PullMessages_priority_witness :
  exists c', PullMessages (at_ms 1000) "q" 1 None None 0 two_messages = Ret (c', (["b"], None)) /\
    exists pulled left_behind, entries (pool_get (queues two_messages) "q") = pulled ++ left_behind /\
      ["b"] = id <$> pulled /\ entries (pool_get (queues c') "q") = left_behind.
Proof.
  eexists. split; [reflexivity|].
  destruct (PullMessages_priority (at_ms 1000) "q" 1 0 two_messages _ ["b"] None
    two_messages_sorted eq_refl) as (p & r & H1 & H2 & H3 & _).
  exists p, r. auto.
Defined.

(** The limit of a pull is applied before its score filter: only the first
    [n] messages of the queue are examined, so when they are all out of the
    score range the pull returns nothing, however many other messages of the
    queue are in range, and the queue keeps all its messages. *)
Theorem PullMessages_limit_before_filter env q n minScore maxScore ackDeadlineMs c
    (Hn : 0 <= n) (Hc : cache_unique c)
    (Hout : Forall (fun e => score_filtered_out minScore maxScore (score e) = true)
       (take (Z.to_nat n) (entries (pool_get (queues c) q)))) :
  exists c', PullMessages env q n minScore maxScore ackDeadlineMs c = Ret (c', ([], None)) /\
    forall q' i, mem_where_is c' q' i = mem_where_is c q' i.
Proof.
  destruct (PullMessages_returns env q n minScore maxScore ackDeadlineMs c Hn) as (c' & ids & E).
  pose proof (PullMessages_moves _ _ _ _ _ _ _ _ _ _ Hc E) as (_ & _ & _ & _ & _ & Hm).
  apply PullMessages_spec in E as E'. destruct E' as (_ & Hids & _).
  replace (in_range minScore maxScore (take (Z.to_nat n) (entries (pool_get (queues c) q))))
    with (@nil MemoryMessageEntry) in Hids.
  { subst ids. exists c'. split; [done|]. intros q' i. rewrite Hm, decide_False; set_solver. }
  symmetry. revert Hout. clear. unfold in_range.
  induction 1 as [|e l He _ IH]; [done|]. cbn [List.filter]. by rewrite He.
Qed.

Lemma PullMessages_limit_before_filter_witness :
  mem_where_is two_messages "q" "a" = Some PRIMARY_POOL /\
  score_filtered_out (Some (f64_of_Z 8)) None (f64_of_Z 10) = false /\
  exists c', PullMessages (at_ms 1000) "q" 1 (Some (f64_of_Z 8)) None 0 two_messages
               = Ret (c', ([], None)) /\
    forall q' i, mem_where_is c' q' i = mem_where_is two_messages q' i.
Proof.
  split; [reflexivity|]. split; [reflexivity|].
  apply (PullMessages_limit_before_filter (at_ms 1000) "q" 1 (Some (f64_of_Z 8)) None 0 two_messages).
  - lia.
  - apply Insert_unique, NewMemoryCache_unique.
  - repeat constructor.
Defined.

(** ** Deadlines *)

(** A message pulled with an ack deadline of [d] milliseconds is given back
    by the timeout task only when [d] _seconds_ have passed: the deadline is
    added to a clock in seconds and compared with a clock in seconds. *)
Theorem TimeoutMessages_deadline_in_seconds env1 env2 q n mn mx d c c1 c2 pulled ids err1 err2 i
    (Hc : cache_unique c) (Hd : d <> 0)
    (Hb1 : Z.abs (Unix (Now env1) + d) <= 2 ^ 53) (Hb2 : Z.abs (Unix (Now env2)) <= 2 ^ 53)
    (Hpull : PullMessages env1 q n mn mx d c = Ret (c1, (pulled, err1)))
    (Htimeout : TimeoutMessages env2 q c1 = (c2, (ids, err2)))
    (Hpulled : i ∈ pulled) (Hi : i ∈ ids) :
  Unix (Now env1) + d <= Unix (Now env2).
Proof.
  pose proof (PullMessages_moves _ _ _ _ _ _ _ _ _ _ Hc Hpull) as (Hc1 & _ & Hnd & _ & _ & _).
  apply PullMessages_spec in Hpull as (_ & Hids & _ & _ & Hproc & _).
  rewrite (proj2 (Z.eqb_neq d 0) Hd) in Hproc.
  rewrite wrap64_id in Hproc by (unfold is_int64, min_int64, max_int64; lia).
  set (r := in_range _ _ _) in *. set (dl := f64_of_Z (Unix (Now env1) + d)) in *.
  assert (He : exists e, e ∈ processing_entry dl <$> r /\ id e = i).
  { rewrite Hids in Hpulled. apply list_elem_of_fmap in Hpulled as (e & -> & He).
    exists (processing_entry dl e). split; [by apply list_elem_of_fmap_2|done]. }
  destruct He as (e & He & Hei).
  assert (Hse : score e = dl) by (apply list_elem_of_fmap in He as (? & -> & _); done).
  assert (Hin : e ∈ entries (pool_get (processingQueues c1) q)).
  { rewrite Hproc. apply elem_of_foldl_insert_in_entries; [|done].
    rewrite <- list_fmap_compose. rewrite Hids in Hnd. done. }
  unfold TimeoutMessages in Htimeout.
  destruct (pool_get (processingQueues c1) q) as [l|] eqn:El; [|simplify_eq; set_solver].
  destruct (find_timeout _ l) as [v|] eqn:Ef; [|simplify_eq; set_solver].
  apply find_timeout_Some in Ef as [Hv Hle].
  destruct (removeEntry _ _) as [l' b]. simplify_eq. apply list_elem_of_singleton in Hi. simpl in Hi.
  pose proof (unique_NoDup c1 PROCESSING_POOL q Hc1) as Hdl. unfold ids_in in Hdl. simpl in Hdl.
  rewrite El in Hdl. assert (v = e) as -> by (eapply entry_unique; [exact Hdl|done..]).
  rewrite Hse in Hle. rewrite f64_of_Z_leb in Hle by done. by apply Z.leb_le.
Qed.

(** Pulled with the documented default of 300000 ms, given back after 300000 s. *)
Lemma TimeoutMessages_deadline_in_seconds_witness :
  exists c1 c2,
    PullMessages (at_ms 1000) "q" 1 None None 300000 two_messages = Ret (c1, (["b"], None)) /\
    TimeoutMessages (at_ms 301000) "q" c1 = (c1, ([], None)) /\
    TimeoutMessages (at_ms 300001000) "q" c1 = (c2, (["b"], None)) /\
    Unix (Now (at_ms 1000)) + 300000 <= Unix (Now (at_ms 300001000)).
Proof.
  eexists _, _. split; [reflexivity|]. split; [reflexivity|]. split; [reflexivity|].
  eapply (TimeoutMessages_deadline_in_seconds (at_ms 1000) (at_ms 300001000) "q" 1 None None 300000
    two_messages _ _ ["b"] ["b"] None None "b").
  - apply Insert_unique, NewMemoryCache_unique.
  - lia.
  - vm_compute; discriminate.
  - vm_compute; discriminate.
  - reflexivity.
  - reflexivity.
  - constructor.
  - constructor.
Defined.

Lemma find_timeout_None t l :
  find_timeout t l = None -> Forall (fun e => f64_leb (score e) (f64_of_Z t) = false) l.
Proof. induction l as [|e l IH]; simpl; [constructor|]. case_if; [done|]. constructor; auto. Qed.

(** One call of the timeout task gives back at most one message of the
    queue, however many have passed their deadline, and exactly one when there
    is one; the others wait for the next calls. *)
Theorem TimeoutMessages_one_at_a_time env q c c' ids err
    (Htimeout : TimeoutMessages env q c = (c', (ids, err))) :
  err = None /\ (length ids <= 1)%nat /\
  (ids <> [] <-> exists e, e ∈ entries (pool_get (processingQueues c) q) /\
     f64_leb (score e) (f64_of_Z (Unix (Now env))) = true).
Proof.
  unfold TimeoutMessages in Htimeout.
  destruct (pool_get (processingQueues c) q) as [l|]; cycle 1.
  { simplify_eq. split_and!; try done; [simpl; lia|]. simpl. split; [done|].
    intros (e & He & _). by apply elem_of_nil in He. }
  destruct (find_timeout _ l) as [v|] eqn:Ef.
  - destruct (removeEntry _ _) as [l' b]. simplify_eq. split_and!; try done.
    split; [|done]. intros _. exists v. by apply find_timeout_Some.
  - simplify_eq. split_and!; try done; [simpl; lia|]. split; [done|].
    intros (e & He & Hs). apply find_timeout_None in Ef. rewrite Forall_forall in Ef.
    simpl in He. by rewrite Ef in Hs.
Qed.

(** Two messages past their deadline; one call gives back one. *)
Definition two_processing : MemoryCache :=
  match PullMessages (at_ms 1000) "q" 2 None None 5 two_messages with
  | Ret (c, _) => c
  | Panic _ => two_messages
  end.

Lemma TimeoutMessages_one_at_a_time_witness :
  ids_in (processingQueues two_processing) "q" = ["a"; "b"] /\
  exists c', TimeoutMessages (at_ms 1000000) "q" two_processing = (c', (["a"], None)) /\
    (length ["a"] <= 1)%nat.
Proof.
  split; [reflexivity|]. eexists. split; [reflexivity|].
  eapply (TimeoutMessages_one_at_a_time (at_ms 1000000) "q" two_processing). reflexivity.
Defined.

(** ** Locks *)

Lemma LockMessage_entry env m t c c' err :
  LockMessage env m t c = (c', (true, err)) ->
  {| MemoryCache.score := Score m; MemoryCache.id := ID m;
     lockUntil := f64_of_Z (wrap64 (NowMs env + LockMs m)) |}
    ∈ entries (pool_get (pool_map (lock_pool t) c') (Queue m)).
Proof.
  unfold LockMessage. repeat case_if; try done.
  destruct (processingQueues c !! Queue m) as [l|]; [|done].
  destruct (removeEntry _ _) as [l' []]; [|done]. intros [= <- _].
  destruct t; simpl; apply elem_of_insert_in_self.
Qed.

Lemma elem_of_unlock_rest now l e :
  e ∈ l -> now < f64_to_int64 (lockUntil e) -> e ∈ unlock_rest now l.
Proof.
  intros He Hlt. unfold unlock_rest. destruct (find_unlocked now l) as [[v l']|] eqn:E; [|done].
  apply find_unlocked_Some in E as (l1 & l2 & -> & -> & Hle & _).
  rewrite elem_of_app, elem_of_cons in He. rewrite elem_of_app.
  destruct He as [?|[->|?]]; [auto|lia|auto].
Qed.

(** A locked message is held for its whole lock time: it becomes available
    again through an unlock of its lock type only when the lock milliseconds
    given with it have passed since it was locked. *)
Theorem LockMessage_holds env1 env2 m t q c c1 c2 err r
    (Hc : cache_unique c)
    (Hb : Z.abs (NowMs env1 + LockMs m) <= 2 ^ 53)
    (Hlock : LockMessage env1 m t c = (c1, (true, err)))
    (Hunlock : UnlockMessages env2 q t c1 = (c2, r))
    (Hfree : mem_where_is c2 (Queue m) (ID m) = Some PRIMARY_POOL) :
  NowMs env1 + LockMs m <= NowMs env2.
Proof.
  pose proof (LockMessage_moves _ _ _ _ _ _ _ Hc Hlock) as (Hc1 & _).
  apply LockMessage_entry in Hlock.
  destruct (Z.le_gt_cases (NowMs env1 + LockMs m) (NowMs env2)) as [|Hlt]; [done|]. exfalso.
  apply (elem_of_unlock_rest (NowMs env2)) in Hlock; cycle 1.
  { simpl. rewrite wrap64_id by (unfold is_int64, min_int64, max_int64; lia).
    by rewrite f64_to_int64_of_Z. }
  rewrite <- (UnlockMessages_rest _ _ _ _ _ _ (Queue m) Hunlock) in Hlock.
  destruct r as [ids err2].
  apply UnlockMessages_moves in Hunlock as (Hc2 & _); [|done].
  apply (list_elem_of_fmap_2 id) in Hlock. simpl in Hlock.
  assert (mem_where_is c2 (Queue m) (ID m) = Some (lock_pool t)) by (by apply mem_where_is_Some).
  destruct t; simpl in *; congruence.
Qed.

Lemma LockMessage_holds_witness :
  let m := msg "q" "a" 3 500 in
  exists c1 c2,
    LockMessage (at_ms 1000) m LOCK_NACK two_processing = (c1, (true, None)) /\
    UnlockMessages (at_ms 1499) "q" LOCK_NACK c1 = (c1, ([], None)) /\
    UnlockMessages (at_ms 1500) "q" LOCK_NACK c1 = (c2, (["a"], None)) /\
    NowMs (at_ms 1000) + 500 <= NowMs (at_ms 1500).
Proof.
  intros m. do 2 eexists. split; [reflexivity|]. split; [reflexivity|]. split; [reflexivity|].
  eapply (LockMessage_holds (at_ms 1000) (at_ms 1500) m LOCK_NACK "q" two_processing).
  - eapply (PullMessages_moves (at_ms 1000) "q" 2 None None 5 two_messages); [|reflexivity].
    apply Insert_unique, NewMemoryCache_unique.
  - vm_compute; discriminate.
  - reflexivity.
  - reflexivity.
  - reflexivity.
Defined.

Lemma find_unlocked_None t l :
  find_unlocked t l = None <-> Forall (fun e => t < f64_to_int64 (lockUntil e)) l.
Proof.
  induction l as [|e l IH]; simpl; [by split|]. case_if; bool_hyps.
  - split; [done|]. rewrite Forall_cons. lia.
  - rewrite Forall_cons. destruct (find_unlocked t l) as [[? ?]|].
    + split; [done|]. intros [_ H]. by apply IH in H.
    + split; [|done]. intros _. split; [lia|]. by apply IH.
Qed.

(** One call of the unlock task frees, in every queue of the lock pool (not
    only in the queue it is called with), the first message whose lock time has
    passed and only that one: the lock list of each queue loses its first
    expired entry, and is unchanged when none has expired. *)
Theorem UnlockMessages_first_expired env q t c c' r
    (Hunlock : UnlockMessages env q t c = (c', r)) :
  let expired e := f64_to_int64 (lockUntil e) <= NowMs env in
  forall queue,
    let l := entries (pool_get (pool_map (lock_pool t) c) queue) in
    let l' := entries (pool_get (pool_map (lock_pool t) c') queue) in
    (Forall (fun e => ~ expired e) l /\ l' = l) \/
    (exists l1 e l2, l = l1 ++ e :: l2 /\ l' = l1 ++ l2 /\ expired e /\
       Forall (fun e => ~ expired e) l1).
Proof.
  intros expired queue l l'. subst l l'.
  rewrite (UnlockMessages_rest _ _ _ _ _ _ queue Hunlock). unfold unlock_rest.
  assert (Hx : forall e, NowMs env < f64_to_int64 (lockUntil e) <-> ~ expired e)
    by (intros e; unfold expired; lia).
  destruct (find_unlocked _ _) as [[e l']|] eqn:E.
  - right. apply find_unlocked_Some in E as (l1 & l2 & -> & -> & He & Hl1).
    exists l1, e, l2. split_and!; try done. eapply Forall_impl; [exact Hl1|]. intros. by apply Hx.
  - left. split; [|done]. apply find_unlocked_None in E.
    eapply Forall_impl; [exact E|]. intros. by apply Hx.
Qed.

(** Two locked messages of a queue, both past their lock time. *)
Definition two_locked : MemoryCache :=
  (LockMessage (at_ms 1000) (msg "q" "b" 4 100) LOCK_ACK
    (LockMessage (at_ms 1000) (msg "q" "a" 3 100) LOCK_ACK two_processing).1).1.

Lemma UnlockMessages_first_expired_witness :
  ids_in (lockAckQueues two_locked) "q" = ["a"; "b"] /\
  exists c', UnlockMessages (at_ms 9000) "other" LOCK_ACK two_locked = (c', (["a"], None)) /\
    ids_in (lockAckQueues c') "q" = ["b"] /\
    exists l1 e l2, entries (pool_get (lockAckQueues two_locked) "q") = l1 ++ e :: l2 /\
      entries (pool_get (lockAckQueues c') "q") = l1 ++ l2.
Proof.
  split; [reflexivity|]. eexists. split; [reflexivity|]. split; [reflexivity|].
  destruct (UnlockMessages_first_expired (at_ms 9000) "other" LOCK_ACK two_locked _ _ eq_refl "q")
    as [[H _]|(l1 & e & l2 & H1 & H2 & _)].
  - apply Forall_cons in H as [H _]. exfalso. apply H. vm_compute. discriminate.
  - by exists l1, e, l2.
Defined.

(** A removal reports exactly the number of messages it took out of the
    four pools of the queue, and none of the ids given is in a pool after it. *)
Theorem Remove_count q ids c c' n err
    (Hc : cache_unique c) (Hremove : Remove q ids c = (c', (n, err))) :
  err = None /\ n = Z.of_nat (length (all_ids c q)) - Z.of_nat (length (all_ids c' q)) /\
  (forall i, i ∈ ids -> i ∉ all_ids c' q) /\
  (forall i, i ∉ ids -> i ∈ all_ids c q <-> i ∈ all_ids c' q) /\
  (forall q', q' <> q -> forall i, i ∈ all_ids c q' <-> i ∈ all_ids c' q').
Proof.
  apply Remove_moves in Hremove as (Hc' & _ & -> & -> & Hm); [|done].
  assert (Hin : forall c q i, i ∈ all_ids c q <-> mem_where_is c q i <> None).
  { intros c0 q0 i. rewrite mem_where_is_None. unfold all_ids. rewrite !elem_of_app. split.
    - intros [H|[H|[H|H]]] Hn; [apply (Hn PRIMARY_POOL H)|apply (Hn PROCESSING_POOL H)|
        apply (Hn LOCK_ACK_POOL H)|apply (Hn LOCK_NACK_POOL H)].
    - intros Hn. apply dec_stable. intros H. apply Hn. intros [] HP; apply H; unfold in_pool in HP;
        simpl in HP; tauto. }
  split_and!; try done.
  - intros i Hi. rewrite Hin, Hm, decide_True by done. tauto.
  - intros i Hi. rewrite !Hin, Hm, decide_False by tauto. done.
  - intros q' Hq i. rewrite !Hin, Hm, decide_False by tauto. done.
Qed.

Lemma Remove_count_witness :
  exists c', Remove "q" ["a"; "z"; "a"] two_messages = (c', (1, None)) /\
    all_ids c' "q" = ["b"] /\ 1 = 2 - Z.of_nat (length (all_ids c' "q")).
Proof.
  eexists. split; [reflexivity|]. split; [reflexivity|].
  destruct (Remove_count "q" ["a"; "z"; "a"] two_messages _ 1 None
    (Insert_unique _ _ _ NewMemoryCache_unique) eq_refl) as (_ & H & _). exact H.
Defined.
