(* ===== verification/Delivery.v ===== *)
(** * One delivery at a time

    What the pools of the cache are for: a message handed out by a pull is
    handed out again only after something gave it back.  Proved from the
    contract of the cache, for every implementation. *)

From S2P Require Import Prelude Float64 Dtime Utils Message Cache MemoryCache MemoryCacheFacts Fixtures CacheProps.
#[local] Open Scope string_scope.
#[local] Open Scope list_scope.
#[local] Open Scope Z_scope.

Section Delivery.
Context {C : Type} `{HCS : CacheSpec C}.
Implicit Types c : C.

(** The call hands out the message [id] of queue [q]. *)
Definition delivers (env : Env) (op : cache_op) (q id : string) c : Prop :=
  match op with
  | OpPullMessages q' n mn mx dl =>
      q' = q /\ exists c' ids err, cache_PullMessages env q' n mn mx dl c = Ret (c', (ids, err)) /\ id ∈ ids
  | _ => False
  end.

(** The call reports that it made the message available: an ack or a nack
    without a lock, a timeout, the end of a lock, or an insertion of a message
    the cache did not have. *)
Definition gives_back (env : Env) (op : cache_op) (q id : string) c : Prop :=
  match op with
  | OpMakeAvailable m => Queue m = q /\ ID m = id /\ (cache_MakeAvailable env m c).2.1 = true
  | OpTimeoutMessages q' => q' = q /\ id ∈ (cache_TimeoutMessages env q' c).2.1
  | OpUnlockMessages q' t => id ∈ (cache_UnlockMessages env q' t c).2.1
  | OpInsert q' ms => q' = q /\ id ∈ (cache_Insert env q' ms c).2.1
  | _ => False
  end.

#[export] Instance gives_back_dec env op q id c : Decision (gives_back env op q id c).
Proof using Type. destruct op; cbn; apply _. Defined.

Lemma moved_elsewhere (w : string -> string -> option PoolType) queue ids p w' q id :
  moved w queue ids p w' -> p <> Some PRIMARY_POOL -> w q id <> Some PRIMARY_POOL -> w' q id <> Some PRIMARY_POOL.
Proof using Type. intros Hm Hp Hw. rewrite Hm. by case_decide. Qed.

(** A call that does not give the message back does not make it available. *)
Lemma not_given_back env op q id c c' :
  cache_inv c -> op_ok op -> run_op env op c = Ret c' -> ~ gives_back env op q id c ->
  cache_inv c' /\ (where_is c q id <> Some PRIMARY_POOL -> where_is c' q id <> Some PRIMARY_POOL).
Proof using HCS.
  intros Hc Hok Hrun Hno. destruct op as [m|m t|q' n mn mx dl|q'|q' t|q' ms|q' ids|k v|]; cbn in Hrun, Hok, Hno.
  - destruct (cache_MakeAvailable env m c) as [c1 [b err]] eqn:E. injection Hrun as <-. cbn in Hno.
    apply spec_MakeAvailable in E as (Hc' & _ & _ & _ & Hm); [|done]. split; [done|]. intros Hw.
    rewrite Hm by (by right). case_decide as Hd; [|done]. destruct Hd as [-> Hi], b; [|set_solver].
    apply list_elem_of_singleton in Hi. naive_solver.
  - destruct (cache_LockMessage env m t c) as [c1 [b err]] eqn:E. injection Hrun as <-.
    apply spec_LockMessage in E as (Hc' & _ & _ & _ & Hm); [|done]. split; [done|].
    eapply moved_elsewhere; [apply Hm; by right|by destruct t].
  - destruct (cache_PullMessages env q' n mn mx dl c) as [[c1 [ids err]]|] eqn:E; [|done]. injection Hrun as <-.
    apply spec_PullMessages in E as (Hc' & _ & _ & _ & _ & Hm); [|done..]. split; [done|].
    by eapply moved_elsewhere.
  - destruct (cache_TimeoutMessages env q' c) as [c1 [ids err]] eqn:E. injection Hrun as <-. cbn in Hno.
    apply spec_TimeoutMessages in E as (Hc' & _ & _ & _ & Hm); [|done]. split; [done|]. intros Hw.
    rewrite Hm. case_decide as Hd; [|done]. by destruct Hd as [-> Hi], Hno.
  - destruct (cache_UnlockMessages env q' t c) as [c1 [ids err]] eqn:E. injection Hrun as <-. cbn in Hno.
    apply spec_UnlockMessages in E as (Hc' & _ & unlocked & -> & _ & _ & Hm); [|done]. split; [done|]. intros Hw.
    rewrite Hm. case_decide as Hd; [|done]. destruct Hno. by apply (list_elem_of_fmap_2 snd) in Hd.
  - destruct (cache_Insert env q' ms c) as [c1 [ids err]] eqn:E. injection Hrun as <-. cbn in Hno.
    apply spec_Insert in E as (Hc' & _ & _ & _ & Hm); [|done]. split; [done|]. intros Hw.
    rewrite Hm by (by right). case_decide as Hd; [|done]. by destruct Hd as [-> Hi], Hno.
  - destruct (cache_Remove env q' ids c) as [c1 [n err]] eqn:E. injection Hrun as <-.
    apply spec_Remove in E as (Hc' & _ & gone & _ & _ & Hm); [|done]. split; [done|]. by eapply moved_elsewhere.
  - destruct (cache_Set env k v c) as [c1 [err|]] eqn:E; injection Hrun as <-.
    + apply spec_Set_error in E as [Hc' Hw]; [|done]. split; [done|]. by rewrite Hw.
    + apply spec_Set in E as (Hc' & Hw & _); [|done]. split; [done|]. by rewrite Hw.
  - injection Hrun as <-. destruct (spec_Flush env c Hc) as (Hc' & _ & Hw). split; [done|]. by rewrite Hw.
Qed.

Lemma given_back_between h : forall c c' q id,
  cache_inv c -> Forall (fun x => op_ok x.2) h -> run_ops h c = Ret c' ->
  where_is c q id <> Some PRIMARY_POOL -> where_is c' q id = Some PRIMARY_POOL ->
  exists h1 env op h2 c1, h = h1 ++ (env, op) :: h2 /\ run_ops h1 c = Ret c1 /\ gives_back env op q id c1.
Proof using HCS.
  induction h as [|[env op] h IH]; intros c c' q id Hc Hok Hrun Hw Hw'; [by injection Hrun as <-|].
  apply Forall_cons in Hok as [Hop Hok]. cbn in Hrun. destruct (run_op env op c) as [c0|] eqn:E; [|done]. cbn in Hrun.
  destruct (decide (gives_back env op q id c)) as [Hg|Hg].
  { by exists [], env, op, h, c. }
  destruct (not_given_back env op q id c c0 Hc Hop E Hg) as [Hc0 H0].
  destruct (IH c0 c' q id Hc0 Hok Hrun (H0 Hw) Hw') as (h1 & env' & op' & h2 & c1 & -> & Hr & Hb).
  exists ((env, op) :: h1), env', op', h2, c1. split; [done|]. split; [|done]. cbn. by rewrite E.
Qed.

Lemma delivers_moves env op q id c c' :
  cache_inv c -> op_ok op -> run_op env op c = Ret c' -> delivers env op q id c ->
  cache_inv c' /\ where_is c q id = Some PRIMARY_POOL /\ where_is c' q id = Some PROCESSING_POOL.
Proof using HCS.
  intros Hc Hok Hrun Hd. destruct op; try done. destruct Hd as (-> & c1 & ids & err & E & Hid). cbn in Hrun.
  rewrite E in Hrun. injection Hrun as ->. apply spec_PullMessages in E as (Hc' & _ & _ & _ & Hids & Hm); [|done..].
  split; [done|]. rewrite Forall_forall in Hids. split; [by apply Hids|]. by rewrite Hm, decide_True.
Qed.

(** C4. A message is handed out to one client at a time.  Between two pulls
    that hand out the same message there is a call that reports that it gave
    the message back: an ack or a nack without a lock, a run of the timeout
    task, the end of a lock, or an insertion after the message had left the
    cache; and one pull hands out a message once.  The calls may come from any
    number of operations, in any order. *)
Theorem no_double_delivery env1 op1 h env2 op2 q id c c1 c2
    (Hc : cache_inv c) (Hop1 : op_ok op1) (Hops : Forall (fun x => op_ok x.2) h) (Hop2 : op_ok op2)
    (Hfirst : delivers env1 op1 q id c) (Hrun1 : run_op env1 op1 c = Ret c1) (Hrun : run_ops h c1 = Ret c2)
    (Hsecond : delivers env2 op2 q id c2) :
  (forall c' ids err q' n mn mx dl, op1 = OpPullMessages q' n mn mx dl ->
     cache_PullMessages env1 q' n mn mx dl c = Ret (c', (ids, err)) -> NoDup ids) /\
  exists h1 env op h2 c', h = h1 ++ (env, op) :: h2 /\ run_ops h1 c1 = Ret c' /\ gives_back env op q id c'.
Proof using HCS.
  split.
  - intros c' ids err q' n mn mx dl -> E. by apply spec_PullMessages in E as (_ & _ & ? & _).
  - destruct (delivers_moves env1 op1 q id c c1 Hc Hop1 Hrun1 Hfirst) as (Hc1 & _ & Hw1).
    assert (Hc2 : cache_inv c2) by (by eapply run_ops_inv).
    apply (given_back_between h c1 c2 q id Hc1 Hops Hrun); [congruence|].
    destruct op2; try done. destruct Hsecond as (-> & c3 & ids & err & E & Hid).
    apply spec_PullMessages in E as (_ & _ & _ & _ & Hids & _); [|done..].
    rewrite Forall_forall in Hids. by apply Hids.
Qed.
End Delivery.

(** ** Witness *)

#[local] Existing Instance plain_glob.

(** One message; it is pulled, acked and pulled again. *)
Definition one_available : MemoryCache := (MemoryCache.Insert "q" [msg "q" "a" 10 0] NewMemoryCache).1.

Definition pull_a : cache_op := OpPullMessages "q" 1 None None 0.

Definition after_op (env : Env) (op : cache_op) (c : MemoryCache) : MemoryCache :=
  match run_op env op c with Ret c' => c' | Panic _ => c end.

Lemma no_double_delivery_witness :
  let c1 := after_op (at_ms 1000) pull_a one_available in
  let h := [(at_ms 1500, OpLockMessage (msg "q" "b" 1 0) LOCK_ACK); (at_ms 2000, OpMakeAvailable (msg "q" "a" 10 0))] in
  exists h1 env op h2 c', h = h1 ++ (env, op) :: h2 /\ run_ops h1 c1 = Ret c' /\ gives_back env op "q" "a" c'.
Proof.
  intros c1 h.
  destruct (no_double_delivery (at_ms 1000) pull_a h (at_ms 3000) pull_a "q" "a" one_available c1
    (after_op (at_ms 2000) (OpMakeAvailable (msg "q" "a" 10 0)) c1)) as [_ H].
  - apply (run_ops_inv (HS := MemoryCache_spec) [(at_ms 500, OpInsert "q" [msg "q" "a" 10 0])] NewMemoryCache one_available
      NewMemoryCache_unique (memory_ops_ok _)). vm_compute. reflexivity.
  - apply memory_op_ok.
  - apply memory_ops_ok.
  - apply memory_op_ok.
  - split; [reflexivity|]. exists c1, ["a"], None. split; [vm_compute; reflexivity|apply list_elem_of_here].
  - vm_compute. reflexivity.
  - vm_compute. reflexivity.
  - split; [reflexivity|].
    exists (after_op (at_ms 3000) pull_a (after_op (at_ms 2000) (OpMakeAvailable (msg "q" "a" 10 0)) c1)), ["a"], None.
    split; [vm_compute; reflexivity|apply list_elem_of_here].
  - exact H.
Defined.
