(* ===== verification/Storage.v ===== *)
(** * The storage interface

    [internal/queue/storage/storage.go] and
    [internal/queue/configuration/queue_configuration.go]: the filters and
    options of a query, the [Storage] interface as a class of operations, and
    the contract its implementations keep, stated on the message stored for
    each queue and id. *)

From S2P Require Import Prelude GoStrings Float64 Dtime Message.
#[local] Open Scope string_scope.
#[local] Open Scope list_scope.
#[local] Open Scope Z_scope.

(** ** Data *)

Record QueueConfiguration := { cfg_Queue : string; MaxElements : Z }.

Record InternalFilter := {
  InternalIdBreakpointGt : string;
  InternalIdBreakpointLte : string;
  Ids : option (list string);
  f_Queue : string;
  f_QueuePrefix : string;
  f_ExpiryDate : option Time
}.

(** [&InternalFilter{}]. *)
Definition empty_filter : InternalFilter := {|
  InternalIdBreakpointGt := ""; InternalIdBreakpointLte := ""; Ids := None; f_Queue := "";
  f_QueuePrefix := ""; f_ExpiryDate := None
|}.

(** [Sort] and [Projection] list the bindings of the maps in order. *)
Record FindOptions := {
  Projection : option (list (string * Z));
  Sort : option (list (string * Z));
  Limit : Z;
  opt_InternalFilter : option InternalFilter;
  Retry : bool;
  Comment : string
}.

Record CountOptions := { count_Comment : string }.

(** [&FindOptions{InternalFilter: f}]. *)
Definition filter_only (f : option InternalFilter) : FindOptions := {|
  Projection := None; Sort := None; Limit := 0; opt_InternalFilter := f; Retry := false;
  Comment := ""
|}.

(** The [Storage] interface. *)
Class Storage (S : Type) := {
  storage_Insert : Env -> list Message -> S -> S * result (Z * Z);
  storage_Find : Env -> option FindOptions -> S -> outcome (result (list Message));
  storage_Remove : Env -> string -> list string -> S -> S * result Z;
  storage_Ack : Env -> Message -> S -> S * result Z;
  storage_Nack : Env -> Message -> S -> S * result Z;
  storage_ListQueueNames : Env -> S -> result (list string);
  storage_ListQueuePrefixes : Env -> S -> result (list string);
  storage_Count : Env -> option FindOptions -> option CountOptions -> S -> outcome (result Z);
  storage_GetStringInternalId : S -> Message -> outcome string;
  storage_EditQueueConfiguration : Env -> QueueConfiguration -> S -> S * option error;
  storage_GetQueueConfiguration : Env -> string -> S -> result (option QueueConfiguration);
  storage_ListQueueConfigurations : Env -> S -> result (list QueueConfiguration);
  storage_Flush : Env -> S -> S * result Z
}.

(** ** The meaning of a query *)

Definition no_breakpoints (f : option InternalFilter) : Prop :=
  match f with
  | None => True
  | Some f => InternalIdBreakpointGt f = "" /\ InternalIdBreakpointLte f = ""
  end.

(** The conditions of a filter other than its breakpoints. *)
Definition filter_holds (f : option InternalFilter) (m : Message) : Prop :=
  match f with
  | None => True
  | Some f =>
      (f_Queue f = "" \/ Queue m = f_Queue f) /\
      (f_QueuePrefix f = "" \/ QueuePrefix m = f_QueuePrefix f) /\
      match Ids f with None | Some [] => True | Some ids => ID m ∈ ids end /\
      match f_ExpiryDate f with None => True | Some d => ExpiryDate m <= d end
  end.

(** A message is expired when its expiry date is not after now. *)
Definition expired (env : Env) (m : Message) : Prop :=
  Timeless m = false /\ ExpiryDate m <= Now env.

Definition has_expiry_filter (f : option InternalFilter) : Prop :=
  match f with Some f => f_ExpiryDate f <> None | None => False end.

(** What a query selects: the messages its filter accepts.  A storage that
    hides the expired messages leaves them out, unless the filter is on the
    expiry date. *)
Definition selected (hides : bool) (env : Env) (f : option InternalFilter) (m : Message) : Prop :=
  filter_holds f m /\ (hides = true -> has_expiry_filter f \/ ~ expired env m).

(** The order of the results for the single sort keys the program uses:
    [m] may come before [m']. *)
Definition sort_le (key : string) (m m' : Message) : Prop :=
  (key = "score" -> f64_ltb (Score m') (Score m) = false) /\
  (key = "expiry_date" -> ExpiryDate m <= ExpiryDate m').

Definition msg_key (m : Message) : string * string := (Queue m, ID m).

Definition opt_filter (opt : option FindOptions) : option InternalFilter :=
  match opt with None => None | Some o => opt_InternalFilter o end.

Definition opt_limit (opt : option FindOptions) : Z :=
  match opt with None => 0 | Some o => Limit o end.

Definition opt_projection (opt : option FindOptions) : option (list (string * Z)) :=
  match opt with None => None | Some o => Projection o end.

(** The projections every implementation understands: top-level fields to
    keep, and the internal id to leave out. *)
Definition projection_ok (p : option (list (string * Z))) : bool :=
  forallb (fun kv => negb (ContainsAny kv.1 ".$") &&
                     ((kv.2 =? 1) || (kv.2 =? 0) && String.eqb kv.1 "_id")) (default [] p).

(** The projection asks for a field. *)
Definition asks (field : string) (p : option (list (string * Z))) : Prop :=
  match p with None => True | Some p => (field, 1) ∈ p end.

Definition opt_sort (opt : option FindOptions) : option (list (string * Z)) :=
  match opt with None => None | Some o => Sort o end.

(** The messages [vs], of those [stored], answer a query: selected ones, with
    distinct keys, as many as the limit allows; those left out are selected
    only when the limit is reached, and come later in the order of the sort. *)
Record answers (stored : string -> string -> option Message) (hides : bool) (env : Env)
    (opt : option FindOptions) (vs : list Message) : Prop := {
  ans_keys : NoDup (msg_key <$> vs);
  ans_selected : Forall (fun m => stored (Queue m) (ID m) = Some m /\
                                  selected hides env (opt_filter opt) m) vs;
  ans_limit : 0 < opt_limit opt -> Z.of_nat (length vs) <= opt_limit opt;
  ans_complete : forall q i m, stored q i = Some m -> selected hides env (opt_filter opt) m ->
    m ∉ vs -> 0 < opt_limit opt /\ Z.of_nat (length vs) = opt_limit opt;
  ans_order : forall key, opt_sort opt = Some [(key, 1)] ->
    (forall q i m, stored q i = Some m -> f64_is_nan (Score m) = false) ->
    StronglySorted (sort_le key) vs /\
    (forall q i m m', stored q i = Some m -> selected hides env (opt_filter opt) m -> m ∉ vs ->
       m' ∈ vs -> sort_le key m' m)
}.

(** The value kept for an edited configuration: 0 (no limit) for a negative
    number of elements. *)
Definition normalized (cfg : QueueConfiguration) : QueueConfiguration :=
  {| cfg_Queue := cfg_Queue cfg; MaxElements := Z.max 0 (MaxElements cfg) |}.

(** ** The contract *)

Class StorageSpec (S : Type) `{Storage S} := {
  storage_inv : S -> Prop;
  (** the queue names the implementation tells apart *)
  queue_name_ok : string -> Prop;
  stored : S -> string -> string -> option Message;
  config : S -> string -> option QueueConfiguration;
  (** queries leave expired messages out *)
  storage_hides : bool;
  (** a message found, with the fields the projection asks for *)
  view : option (list (string * Z)) -> Message -> Message;
  (** an instant, to the precision of the storage *)
  kept_time : Time -> Time;

  spec_stored_key : forall s q i m,
    storage_inv s -> stored s q i = Some m -> Queue m = q /\ ID m = i /\ q <> "" /\ i <> "";

  spec_storage_Insert : forall env ms s s' n k,
    storage_inv s -> Forall (fun m => queue_name_ok (Queue m)) ms ->
    storage_Insert env ms s = (s', ((n, k), None)) ->
    storage_inv s' /\ (forall q, config s' q = config s q) /\
    0 <= n /\ 0 <= k /\ n + k <= Z.of_nat (length ms) /\
    (forall q i, (q, i) ∉ msg_key <$> ms -> stored s' q i = stored s q i) /\
    (forall m, m ∈ ms -> exists m', stored s' (Queue m) (ID m) = Some m');

  (** the score of a stored message is not changed by another insertion *)
  spec_storage_Insert_score : forall env ms s s' n k,
    storage_inv s -> Forall (fun m => queue_name_ok (Queue m)) ms -> NoDup (msg_key <$> ms) ->
    storage_Insert env ms s = (s', ((n, k), None)) ->
    forall m, m ∈ ms -> exists v, stored s' (Queue m) (ID m) = Some v /\
      Score v = match stored s (Queue m) (ID m) with Some b => Score b | None => Score m end;

  spec_storage_Insert_inv : forall env ms s s' r,
    storage_inv s -> Forall (fun m => queue_name_ok (Queue m)) ms ->
    storage_Insert env ms s = (s', r) -> storage_inv s';

  spec_Find_returns : forall env opt s,
    storage_inv s -> 0 <= opt_limit opt -> exists r, storage_Find env opt s = Ret r;

  spec_view_none : forall m, view None m = m;
  spec_view_ID : forall p m, projection_ok p = true -> asks "id" p -> ID (view p m) = ID m;
  spec_view_Queue : forall p m, projection_ok p = true -> asks "queue" p -> Queue (view p m) = Queue m;
  spec_view_Score : forall p m, projection_ok p = true -> asks "score" p -> Score (view p m) = Score m;

  spec_Find : forall env opt s ms,
    storage_inv s -> no_breakpoints (opt_filter opt) ->
    projection_ok (opt_projection opt) = true -> 0 <= opt_limit opt ->
    storage_Find env opt s = Ret (ms, None) ->
    exists vs, ms = view (opt_projection opt) <$> vs /\ answers (stored s) storage_hides env opt vs;

  spec_storage_Remove : forall env q ids s s' n,
    storage_inv s -> storage_Remove env q ids s = (s', (n, None)) ->
    storage_inv s' /\ (forall q, config s' q = config s q) /\
    (forall q' i, stored s' q' i = if decide (q' = q /\ i ∈ ids) then None else stored s q' i) /\
    (NoDup ids -> n = Z.of_nat (length (List.filter (fun i => bool_decide (is_Some (stored s q i))) ids)));

  spec_storage_Remove_error : forall env q ids s s' n e,
    storage_inv s -> storage_Remove env q ids s = (s', (n, Some e)) ->
    storage_inv s' /\ (forall q, config s' q = config s q) /\
    (forall q' i, stored s' q' i = None \/ stored s' q' i = stored s q' i);

  (** an ack or a nack replaces the message it names, if there is one *)
  spec_storage_Ack : forall env m s s' n,
    storage_inv s -> queue_name_ok (Queue m) -> storage_Ack env m s = (s', (n, None)) ->
    storage_inv s' /\ (forall q, config s' q = config s q) /\
    (forall q i, (q, i) <> msg_key m -> stored s' q i = stored s q i) /\
    match stored s (Queue m) (ID m) with
    | None => stored s' (Queue m) (ID m) = None
    | Some v => exists v', stored s' (Queue m) (ID m) = Some v' /\
        Score v' = Score m /\ LockMs v' = LockMs m /\ Breakpoint v' = Breakpoint m /\
        LastUsage v' = kept_time <$> LastUsage m /\ ExpiryDate v' = ExpiryDate v /\ Timeless v' = Timeless v
    end;

  spec_storage_Nack : forall env m s s' n,
    storage_inv s -> queue_name_ok (Queue m) -> storage_Nack env m s = (s', (n, None)) ->
    storage_inv s' /\ (forall q, config s' q = config s q) /\
    (forall q i, (q, i) <> msg_key m -> stored s' q i = stored s q i) /\
    match stored s (Queue m) (ID m) with
    | None => stored s' (Queue m) (ID m) = None
    | Some v => exists v', stored s' (Queue m) (ID m) = Some v' /\
        Score v' = Score m /\ LockMs v' = LockMs m /\ Breakpoint v' = Breakpoint v /\
        LastUsage v' = LastUsage v /\ ExpiryDate v' = ExpiryDate v /\ Timeless v' = Timeless v
    end;

  spec_Count : forall env opt copt s n,
    storage_inv s -> no_breakpoints (opt_filter opt) ->
    storage_Count env opt copt s = Ret (n, None) ->
    exists l, NoDup l /\ n = Z.of_nat (length l) /\
      forall q i, (q, i) ∈ l <->
        exists m, stored s q i = Some m /\ filter_holds (opt_filter opt) m;

  spec_EditQueueConfiguration : forall env cfg s s',
    storage_inv s -> storage_EditQueueConfiguration env cfg s = (s', None) ->
    storage_inv s' /\ (forall q i, stored s' q i = stored s q i) /\
    forall q, config s' q =
      if decide (q = cfg_Queue cfg /\ MaxElements cfg <> 0) then Some (normalized cfg)
      else config s q;

  spec_EditQueueConfiguration_error : forall env cfg s s' e,
    storage_inv s -> storage_EditQueueConfiguration env cfg s = (s', Some e) ->
    storage_inv s' /\ (forall q i, stored s' q i = stored s q i) /\
    forall q, q <> cfg_Queue cfg -> config s' q = config s q;

  spec_GetQueueConfiguration : forall env q s c,
    storage_inv s -> storage_GetQueueConfiguration env q s = (c, None) -> c = config s q;

  spec_config_key : forall s q c, storage_inv s -> config s q = Some c -> cfg_Queue c = q /\ 0 <= MaxElements c;

  spec_ListQueueConfigurations : forall env s l,
    storage_inv s -> storage_ListQueueConfigurations env s = (l, None) ->
    NoDup (cfg_Queue <$> l) /\
    forall c, c ∈ l <-> config s (cfg_Queue c) = Some c;

  spec_storage_Flush : forall env s s' n,
    storage_inv s -> storage_Flush env s = (s', (n, None)) ->
    storage_inv s' /\ (forall q i, stored s' q i = None) /\ (forall q, config s' q = None)
}.

(** The content an insertion leaves for [m]; [old]: the message that was
    stored. *)
Record inserted_content (overwrites keeps_timeless : bool) (old : option Message) (m v : Message) : Prop := {
  ic_Description : Description v =
    if negb overwrites && String.eqb (Description m) "" then default "" (Description <$> old) else Description m;
  ic_Payload : Payload v =
    if negb overwrites && bool_decide (Payload m = None) then old ≫= Payload else Payload m;
  ic_StringPayload : StringPayload v =
    if negb overwrites && String.eqb (StringPayload m) "" then default "" (StringPayload <$> old)
    else StringPayload m;
  ic_Metadata : Metadata v =
    if negb overwrites && bool_decide (Metadata m = None) then old ≫= Metadata else Metadata m;
  ic_Score : Score v = match old with Some b => Score b | None => Score m end;
  ic_Timeless : Timeless v =
    match old with Some b => Timeless b | None => keeps_timeless && Timeless m end
}.

(** What a storage keeps of the messages that are inserted. *)
Class InsertContent (S : Type) `{StorageSpec S} := {
  (** a field that is empty replaces that of the message stored *)
  overwrites_empty : bool;
  (** a new message keeps its timeless flag *)
  keeps_timeless : bool;
  spec_storage_Insert_content : forall env ms s s' n k,
    storage_inv s -> Forall (fun m => queue_name_ok (Queue m)) ms -> NoDup (msg_key <$> ms) ->
    storage_Insert env ms s = (s', ((n, k), None)) ->
    forall m, m ∈ ms -> exists v, stored s' (Queue m) (ID m) = Some v /\
      inserted_content overwrites_empty keeps_timeless (stored s (Queue m) (ID m)) m v /\
      ExpiryDate v = kept_time (ExpiryDate m)
}.

(** The query hides no message but the expired ones, when the storage does. *)
Definition shown (S : Type) `{StorageSpec S} (env : Env) (m : Message) : Prop :=
  storage_hides (S := S) = true -> ~ expired env m.

(** The keys of the messages found, when the projection asks for them. *)
Lemma view_keys {S : Type} `{StorageSpec S} p (ms : list Message) :
  projection_ok p = true -> asks "id" p -> asks "queue" p -> msg_key <$> (view p <$> ms) = msg_key <$> ms.
Proof.
  intros Hp Hi Hq. rewrite <- list_fmap_compose. apply list_fmap_ext. intros j m _.
  unfold msg_key. simpl. by rewrite spec_view_ID, spec_view_Queue.
Qed.

Lemma view_IDs {S : Type} `{StorageSpec S} p (ms : list Message) :
  projection_ok p = true -> asks "id" p -> ID <$> (view p <$> ms) = ID <$> ms.
Proof.
  intros Hp Hi. rewrite <- list_fmap_compose. apply list_fmap_ext. intros j m _. by apply spec_view_ID.
Qed.

(** A query without projection returns the messages as they are stored. *)
Lemma spec_Find_all {S : Type} `{StorageSpec S} env opt (s : S) ms :
  storage_inv s -> no_breakpoints (opt_filter opt) -> opt_projection opt = None ->
  0 <= opt_limit opt -> storage_Find env opt s = Ret (ms, None) -> answers (stored s) storage_hides env opt ms.
Proof.
  intros Hs Hb Hp Hl Hf. destruct (spec_Find env opt s ms Hs Hb) as (vs & -> & Ha); [by rewrite Hp|done..|].
  rewrite Hp, (list_fmap_ext _ id), list_fmap_id; [done|]. intros i m _. apply spec_view_none.
Qed.
