(* ===== verification/MemoryStorage.v ===== *)
(** * The memory storage

    [internal/queue/storage/memory_storage.go].  Messages are kept in a map
    from the text [queue:id]; a message stored is a value of the model, its
    in-place assignments are updates of the map. *)

From S2P Require Import Prelude Float64 Dtime Utils Message Storage.
#[local] Open Scope string_scope.
#[local] Open Scope list_scope.
#[local] Open Scope Z_scope.

(** ** State *)

Record MemoryStorage := {
  docs : gmap string Message;
  configurations : gmap string QueueConfiguration;
  internalCounter : Z
}.

Definition NewMemoryStorage : MemoryStorage :=
  {| docs := ∅; configurations := ∅; internalCounter := 0 |}.

Definition with_docs (d : gmap string Message) (storage : MemoryStorage) : MemoryStorage :=
  {| docs := d; configurations := configurations storage;
     internalCounter := internalCounter storage |}.

Definition getKey (message : Message) : string :=
  String.append (Queue message) (String.append ":" (ID message)).

(** ** Field assignments *)

(** The fields [Insert] overwrites in a message already stored. *)
Definition update_content (m value : Message) : Message := {|
  ID := ID value; Description := Description m; Queue := Queue value;
  ExpiryDate := ExpiryDate m; Timeless := Timeless value; Metadata := Metadata m;
  Payload := Payload m; StringPayload := StringPayload m; LockMs := LockMs value;
  InternalId := InternalId value; Score := Score value; LastUsage := LastUsage value;
  Breakpoint := Breakpoint value; LastScoreSubtract := LastScoreSubtract value;
  TotalScoreSubtract := TotalScoreSubtract value; UsageCount := UsageCount value;
  QueuePrefix := QueuePrefix value; QueueSuffix := QueueSuffix value;
  Diagnostics := Diagnostics value
|}.

(** The fields [Insert] sets in a new message. *)
Definition set_identity (internalId : Z) (now : Time) (m : Message) : Message := {|
  ID := ID m; Description := Description m; Queue := Queue m; ExpiryDate := ExpiryDate m;
  Timeless := Timeless m; Metadata := Metadata m; Payload := Payload m;
  StringPayload := StringPayload m; LockMs := LockMs m; InternalId := IdInt64 internalId;
  Score := Score m; LastUsage := Some now; Breakpoint := Breakpoint m;
  LastScoreSubtract := LastScoreSubtract m; TotalScoreSubtract := TotalScoreSubtract m;
  UsageCount := UsageCount m; QueuePrefix := QueuePrefix m; QueueSuffix := QueueSuffix m;
  Diagnostics := Diagnostics m
|}.

(** The assignments of [Ack] before the diagnostics. *)
Definition set_ack (msg value : Message) : Message := {|
  ID := ID value; Description := Description value; Queue := Queue value;
  ExpiryDate := ExpiryDate value; Timeless := Timeless value; Metadata := Metadata value;
  Payload := Payload value; StringPayload := StringPayload value; LockMs := LockMs msg;
  InternalId := InternalId value; Score := Score msg; LastUsage := LastUsage msg;
  Breakpoint := Breakpoint msg; LastScoreSubtract := LastScoreSubtract msg;
  TotalScoreSubtract := f64_add (TotalScoreSubtract value) (LastScoreSubtract msg);
  UsageCount := (UsageCount value +64 1)%go; QueuePrefix := QueuePrefix value;
  QueueSuffix := QueueSuffix value; Diagnostics := Diagnostics value
|}.

(** The assignments of [Nack] before the diagnostics. *)
Definition set_nack (msg value : Message) : Message := {|
  ID := ID value; Description := Description value; Queue := Queue value;
  ExpiryDate := ExpiryDate value; Timeless := Timeless value; Metadata := Metadata value;
  Payload := Payload value; StringPayload := StringPayload value; LockMs := LockMs msg;
  InternalId := InternalId value; Score := Score msg; LastUsage := LastUsage value;
  Breakpoint := Breakpoint value; LastScoreSubtract := LastScoreSubtract value;
  TotalScoreSubtract := TotalScoreSubtract value; UsageCount := UsageCount value;
  QueuePrefix := QueuePrefix value; QueueSuffix := QueueSuffix value;
  Diagnostics := Diagnostics value
|}.

Definition set_Diagnostics (d : MessageDiagnostics) (value : Message) : Message := {|
  ID := ID value; Description := Description value; Queue := Queue value;
  ExpiryDate := ExpiryDate value; Timeless := Timeless value; Metadata := Metadata value;
  Payload := Payload value; StringPayload := StringPayload value; LockMs := LockMs value;
  InternalId := InternalId value; Score := Score value; LastUsage := LastUsage value;
  Breakpoint := Breakpoint value; LastScoreSubtract := LastScoreSubtract value;
  TotalScoreSubtract := TotalScoreSubtract value; UsageCount := UsageCount value;
  QueuePrefix := QueuePrefix value; QueueSuffix := QueueSuffix value; Diagnostics := Some d
|}.

(** ** Configurations *)

Definition ListQueueConfigurations (env : Env) (storage : MemoryStorage) :
    result (list QueueConfiguration) :=
  ((map_range (env_order env) (configurations storage)).*2, None).

Definition EditQueueConfiguration (configuration : QueueConfiguration) (storage : MemoryStorage) :
    MemoryStorage * option error :=
  if MaxElements configuration =? 0 then (storage, None)
  else
    let configuration :=
      if MaxElements configuration <? 0
      then {| cfg_Queue := cfg_Queue configuration; MaxElements := 0 |} else configuration in
    ({| docs := docs storage;
        configurations := <[cfg_Queue configuration := configuration]> (configurations storage);
        internalCounter := internalCounter storage |}, None).

Definition GetQueueConfiguration (queue : string) (storage : MemoryStorage) :
    result (option QueueConfiguration) :=
  (configurations storage !! queue, None).

(** ** Messages *)

(** The counter of internal ids is not reset. *)
Definition Flush (storage : MemoryStorage) : MemoryStorage * result Z :=
  let count := Z.of_nat (size (docs storage)) in
  let count := count + Z.of_nat (size (configurations storage)) in
  ({| docs := ∅; configurations := ∅; internalCounter := internalCounter storage |},
   (count, None)).

(** The loop of [Insert].  The messages before an invalid one stay inserted. *)
Fixpoint insert_loop (env : Env) (messages : list Message) (storage : MemoryStorage)
    (inserted modified : Z) : MemoryStorage * result (Z * Z) :=
  match messages with
  | [] => (storage, ((inserted, modified), None))
  | m :: messages' =>
      if String.eqb (Queue m) "" then
        (storage, ((0, 0), Some (ErrorString "message has a invalid queue")))
      else if String.eqb (ID m) "" then
        (storage, ((0, 0), Some (ErrorString "message has a invalid ID")))
      else
        let key := getKey m in
        match docs storage !! key with
        | Some value =>
            insert_loop env messages'
              (with_docs (<[key := update_content m value]> (docs storage)) storage)
              inserted (modified + 1)
        | None =>
            let counter := (internalCounter storage +64 1)%go in
            insert_loop env messages'
              {| docs := <[key := set_identity counter (Now env) m]> (docs storage);
                 configurations := configurations storage;
                 internalCounter := counter |}
              (inserted + 1) modified
        end
  end.

Definition Insert (env : Env) (messages : list Message) (storage : MemoryStorage) :
    MemoryStorage * result (Z * Z) :=
  insert_loop env messages storage 0 0.

(** The type assertion [InternalId.(int64)]. *)
Definition internal_int64 (m : Message) : outcome Z :=
  match InternalId m with
  | IdInt64 z => Ret z
  | _ => Panic "interface conversion: interface {} is not int64"
  end.

Definition GetStringInternalId (message : Message) : outcome string :=
  match InternalId message with
  | IdNil => Ret ""
  | _ => obind (internal_int64 message) (fun z => Ret (FormatInt z))
  end.

Definition breakpoint_error : error :=
  ErrorString "breakpoint for memory storage need to be a valid int64 message".

(** One of the two breakpoint conditions: [keep internalId breakpoint]. *)
Definition matches_breakpoint (message : Message) (text : string) (keep : Z -> Z -> bool) :
    outcome (result bool) :=
  if String.eqb text "" then Ret (true, None)
  else
    obind (internal_int64 message) (fun internalId =>
      match StrToInt64 text with
      | None => Ret (false, Some breakpoint_error)
      | Some breakpoint => Ret (keep internalId breakpoint, None)
      end).

Definition matchesInternalFilter (message : Message) (filter : option InternalFilter) :
    outcome (result bool) :=
  match filter with
  | None => Ret (true, None)
  | Some filter =>
      if negb (String.eqb (f_Queue filter) "") && negb (String.eqb (Queue message) (f_Queue filter))
      then Ret (false, None)
      else if negb (String.eqb (f_QueuePrefix filter) "") &&
              negb (String.eqb (QueuePrefix message) (f_QueuePrefix filter))
      then Ret (false, None)
      else if match Ids filter with
              | None | Some [] => false
              | Some ids => negb (existsb (fun i => String.eqb i (ID message)) ids)
              end
      then Ret (false, None)
      else
        obind (matches_breakpoint message (InternalIdBreakpointGt filter)
                 (fun internalId breakpoint => negb (internalId <=? breakpoint))) (fun r1 =>
        if negb (fst r1) then Ret r1
        else
        obind (matches_breakpoint message (InternalIdBreakpointLte filter)
                 (fun internalId breakpoint => negb (breakpoint <? internalId))) (fun r2 =>
        if negb (fst r2) then Ret r2
        else match f_ExpiryDate filter with
             | Some date => if After (ExpiryDate message) date then Ret (false, None)
                            else Ret (true, None)
             | None => Ret (true, None)
             end))
  end.

Definition messageMatchesFilter (q : Message) (opts : option FindOptions) : outcome (result bool) :=
  match opts with
  | None => Ret (true, None)
  | Some opts => matchesInternalFilter q (opt_InternalFilter opts)
  end.

(** The loop of [Count]. *)
Fixpoint count_loop (findOpts : option FindOptions) (l : list (string * Message)) (count : Z) :
    outcome (result Z) :=
  match l with
  | [] => Ret (count, None)
  | (_, value) :: l' =>
      obind (messageMatchesFilter value findOpts) (fun r =>
        match r with
        | (_, Some err) => Ret (0, Some err)
        | (matches, None) => count_loop findOpts l' (if matches : bool then count + 1 else count)
        end)
  end.

Definition Count (env : Env) (findOpts : option FindOptions) (_ : option CountOptions)
    (storage : MemoryStorage) : outcome (result Z) :=
  count_loop findOpts (map_range (env_order env) (docs storage)) 0.

Definition isExpired (env : Env) (message : Message) : bool :=
  negb (Timeless message) &&
  (Before (ExpiryDate message) (Now env) || Equal (ExpiryDate message) (Now env)).

(** The condition under which [Find] leaves expired messages out. *)
Definition hides_expired (opt : option FindOptions) : bool :=
  match opt with
  | None => true
  | Some o => match opt_InternalFilter o with
              | None => true
              | Some f => match f_ExpiryDate f with None => true | Some _ => false end
              end
  end.

(** The loop of [Find] over the documents. *)
Fixpoint find_loop (env : Env) (opt : option FindOptions) (l : list (string * Message))
    (messages : list Message) : outcome (result (list Message)) :=
  match l with
  | [] => Ret (messages, None)
  | (_, doc) :: l' =>
      if hides_expired opt && isExpired env doc then find_loop env opt l' messages
      else
        obind (messageMatchesFilter doc opt) (fun r =>
          match r with
          | (_, Some err) => Ret ([], Some err)
          | (matches, None) =>
              find_loop env opt l' (if matches : bool then messages ++ [doc] else messages)
          end)
  end.

(** [less] of the internal ids, in the direction of a sort value. *)
Definition id_less (descending : bool) (x y : Message) : outcome bool :=
  obind (internal_int64 x) (fun a => obind (internal_int64 y) (fun b =>
    Ret (if descending then b <? a else a <? b))).

(** The comparison of [Find], over the bindings of [Sort]. *)
Fixpoint find_less (keys : list (string * Z)) (x y : Message) : outcome bool :=
  match keys with
  | [] => id_less false x y
  | (key, value) :: keys' =>
      if String.eqb key "expiry_date" then
        if negb (ExpiryDate x =? time_zero) || negb (ExpiryDate y =? time_zero) then
          Ret (if value =? -1 then After (ExpiryDate x) (ExpiryDate y)
               else Before (ExpiryDate x) (ExpiryDate y))
        else find_less keys' x y
      else if String.eqb key "score" then
        Ret (if value =? -1 then f64_gtb (Score x) (Score y) else f64_ltb (Score x) (Score y))
      else if String.eqb key "_id" then id_less (value =? -1) x y
      else find_less keys' x y
  end.

Definition sort_found (opt : option FindOptions) (messages : list Message) : outcome (list Message) :=
  match opt with
  | Some o => match Sort o with
              | Some keys => stable_sort_o (find_less keys) messages
              | None => Ret messages
              end
  | None => Ret messages
  end.

(** [messages[:opt.Limit]] when there are more. *)
Definition limit_found (opt : option FindOptions) (messages : list Message) : list Message :=
  match opt with
  | Some o =>
      if (0 <? Limit o) && (Limit o <? Z.of_nat (length messages))
      then take (Z.to_nat (Limit o)) messages else messages
  | None => messages
  end.

Definition Find (env : Env) (opt : option FindOptions) (storage : MemoryStorage) :
    outcome (result (list Message)) :=
  obind (find_loop env opt (map_range (env_order env) (docs storage)) []) (fun r =>
    match r with
    | (_, Some err) => Ret ([], Some err)
    | (messages, None) =>
        obind (sort_found opt messages) (fun messages => Ret (limit_found opt messages, None))
    end).

(** The inner loop of [Remove] for one message: the id is looked up in every
    position of [ids], with one deletion and one count per position. *)
Fixpoint remove_ids (key : string) (message : Message) (ids : list string)
    (d : gmap string Message) (count : Z) : gmap string Message * Z :=
  match ids with
  | [] => (d, count)
  | i :: ids' =>
      if String.eqb (ID message) i then remove_ids key message ids' (delete key d) (count + 1)
      else remove_ids key message ids' d count
  end.

Fixpoint remove_loop (queue : string) (ids : list string) (l : list (string * Message))
    (d : gmap string Message) (count : Z) : gmap string Message * Z :=
  match l with
  | [] => (d, count)
  | (key, message) :: l' =>
      if negb (String.eqb (Queue message) queue) then remove_loop queue ids l' d count
      else
        let '(d, count) := remove_ids key message ids d count in
        remove_loop queue ids l' d count
  end.

Definition Remove (env : Env) (queue : string) (ids : list string) (storage : MemoryStorage) :
    MemoryStorage * result Z :=
  let '(d, count) :=
    remove_loop queue ids (map_range (env_order env) (docs storage)) (docs storage) 0 in
  (with_docs d storage, (count, None)).

(** Every nil counter becomes 0. *)
Definition setDiagnosticsStruct (value : Message) : MessageDiagnostics :=
  match Diagnostics value with
  | None => {| Acks := Some 0; Nacks := Some 0; ConsecutiveAcks := Some 0;
               ConsecutiveNacks := Some 0 |}
  | Some d => {| Acks := Some (default 0 (Acks d)); Nacks := Some (default 0 (Nacks d));
                 ConsecutiveAcks := Some (default 0 (ConsecutiveAcks d));
                 ConsecutiveNacks := Some (default 0 (ConsecutiveNacks d)) |}
  end.

(** [*p = *p + 1]. *)
Definition increment (p : option Z) : option Z := (fun n => (n +64 1)%go) <$> p.

Definition Ack (msg : Message) (storage : MemoryStorage) : MemoryStorage * result Z :=
  match docs storage !! getKey msg with
  | None => (storage, (0, None))
  | Some value =>
      let value := set_ack msg value in
      let d := setDiagnosticsStruct value in
      let d := {| Acks := increment (Acks d); Nacks := Nacks d;
                  ConsecutiveAcks := increment (ConsecutiveAcks d);
                  ConsecutiveNacks := Some 0 |} in
      (with_docs (<[getKey msg := set_Diagnostics d value]> (docs storage)) storage, (1, None))
  end.

Definition Nack (msg : Message) (storage : MemoryStorage) : MemoryStorage * result Z :=
  match docs storage !! getKey msg with
  | None => (storage, (0, None))
  | Some value =>
      let value := set_nack msg value in
      let d := setDiagnosticsStruct value in
      let d := {| Acks := Acks d; Nacks := increment (Nacks d);
                  ConsecutiveAcks := Some 0;
                  ConsecutiveNacks := increment (ConsecutiveNacks d) |} in
      (with_docs (<[getKey msg := set_Diagnostics d value]> (docs storage)) storage, (1, None))
  end.

(** The distinct values of a field of the documents, through a temporary map. *)
Definition list_field (env : Env) (field : Message -> string) (storage : MemoryStorage) :
    list string :=
  let temporaryMap :=
    foldl (fun m kv => <[field (snd kv) := true]> m) (∅ : gmap string bool)
      (map_range (env_order env) (docs storage)) in
  (map_range (env_order env) temporaryMap).*1.

Definition ListQueueNames (env : Env) (storage : MemoryStorage) : result (list string) :=
  (list_field env Queue storage, None).

Definition ListQueuePrefixes (env : Env) (storage : MemoryStorage) : result (list string) :=
  (list_field env QueuePrefix storage, None).

#[export] Instance MemoryStorage_Storage : Storage MemoryStorage := {
  storage_Insert := Insert;
  storage_Find := Find;
  storage_Remove := Remove;
  storage_Ack := fun _ => Ack;
  storage_Nack := fun _ => Nack;
  storage_ListQueueNames := ListQueueNames;
  storage_ListQueuePrefixes := ListQueuePrefixes;
  storage_Count := Count;
  storage_GetStringInternalId := fun _ => GetStringInternalId;
  storage_EditQueueConfiguration := fun _ => EditQueueConfiguration;
  storage_GetQueueConfiguration := fun _ => GetQueueConfiguration;
  storage_ListQueueConfigurations := ListQueueConfigurations;
  storage_Flush := fun _ => Flush
}.

(** ** Invariant *)

(** A queue name without [':']: two such names never give the same key. *)
Definition plain_queue (queue : string) : Prop := ":"%char ∉ list_ascii_of_string queue.

(** Every document is under its key, has a queue and an id, and its internal
    id is an [int64] the counter has given. *)
Definition doc_ok (k : string) (m : Message) : Prop :=
  k = getKey m /\ Queue m <> "" /\ ID m <> "" /\ plain_queue (Queue m) /\
  exists n, InternalId m = IdInt64 n.

Definition mem_storage_inv (s : MemoryStorage) : Prop :=
  map_Forall doc_ok (docs s) /\
  map_Forall (fun q c => cfg_Queue c = q /\ 0 <= MaxElements c) (configurations s).

(** The document stored for a queue and an id. *)
Definition mem_stored (s : MemoryStorage) (q i : string) : option Message :=
  match docs s !! String.append q (String.append ":" i) with
  | Some m => if String.eqb (Queue m) q && String.eqb (ID m) i then Some m else None
  | None => None
  end.
