(* ===== verification/MemoryStorageFacts.v ===== *)
(** * Facts on the memory storage

    The lemmas on the operations of [MemoryStorage.v], and the proof that they
    keep the storage contract. *)

From S2P Require Import Prelude Float64 Dtime Utils Message Storage MemoryStorage.
#[local] Open Scope string_scope.
#[local] Open Scope list_scope.
#[local] Open Scope Z_scope.

(** ** Keys *)

Lemma plain_queue_nil : plain_queue "".
Proof. unfold plain_queue. simpl. set_solver. Qed.

Lemma key_inj q i q' i' :
  plain_queue q -> plain_queue q' ->
  String.append q (String.append ":" i) = String.append q' (String.append ":" i') ->
  q = q' /\ i = i'.
Proof.
  unfold plain_queue.
  revert q'. induction q as [|c q IH]; intros [|c' q'] Hq Hq' E;
    repeat match goal with
    | H : context [String.append (String ?c ?s) ?t] |- _ =>
        change (String.append (String c s) t) with (String c (String.append s t)) in H
    | H : context [String.append EmptyString ?t] |- _ =>
        change (String.append EmptyString t) with t in H
    end; cbn [list_ascii_of_string] in *.
  - injection E as ->. done.
  - injection E as <- _. set_solver.
  - injection E as -> _. set_solver.
  - injection E as -> E. destruct (IH q') as [-> ->]; [set_solver..|done|done].
Qed.

Lemma getKey_inj m m' :
  plain_queue (Queue m) -> plain_queue (Queue m') -> getKey m = getKey m' ->
  Queue m = Queue m' /\ ID m = ID m'.
Proof. apply key_inj. Qed.

(** ** Documents and stored messages *)

Lemma mem_stored_Some s q i m :
  mem_stored s q i = Some m <-> docs s !! getKey m = Some m /\ Queue m = q /\ ID m = i.
Proof.
  unfold mem_stored, getKey. split.
  - destruct (docs s !! _) as [m'|] eqn:E; [|done]. case_if; [|done]. intros [= ->].
    bool_hyps. subst. done.
  - intros (E & <- & <-). rewrite E, !String.eqb_refl. done.
Qed.

Lemma doc_stored s k m :
  mem_storage_inv s -> docs s !! k = Some m <-> k = getKey m /\ mem_stored s (Queue m) (ID m) = Some m.
Proof.
  intros [Hd _]. rewrite mem_stored_Some. split.
  - intros E. destruct (Hd _ _ E) as [-> _]. done.
  - by intros (-> & ? & _).
Qed.

(** Under a plain queue name, the document at a key is the one stored. *)
Lemma doc_at_key s m v :
  mem_storage_inv s -> plain_queue (Queue m) -> docs s !! getKey m = Some v ->
  mem_stored s (Queue m) (ID m) = Some v.
Proof.
  intros [Hd _] Hm E. destruct (Hd _ _ E) as (Hk & _ & _ & Hq & _).
  apply getKey_inj in Hk as [Hk1 Hk2]; [|done..]. rewrite mem_stored_Some. split; [|done].
  unfold getKey in *. congruence.
Qed.

Lemma no_doc_at_key s m :
  docs s !! getKey m = None -> mem_stored s (Queue m) (ID m) = None.
Proof. intros E. unfold mem_stored. unfold getKey in E. by rewrite E. Qed.

(** Writing a document under the key of its queue and id. *)
Lemma mem_stored_insert s s' m :
  mem_storage_inv s -> plain_queue (Queue m) ->
  docs s' = <[getKey m := m]> (docs s) ->
  forall q i, mem_stored s' q i =
    if decide ((q, i) = msg_key m) then Some m else mem_stored s q i.
Proof.
  intros [Hd _] Hm E q i. unfold mem_stored. rewrite E. unfold msg_key.
  destruct (decide ((q, i) = (Queue m, ID m))) as [[= -> ->]|Hne].
  - change (String.append (Queue m) (String.append ":" (ID m))) with (getKey m).
    rewrite lookup_insert_eq, !String.eqb_refl. done.
  - destruct (decide (getKey m = String.append q (String.append ":" i))) as [Ek|Ek].
    + rewrite Ek, lookup_insert_eq.
      replace (String.eqb (Queue m) q && String.eqb (ID m) i) with false; cycle 1.
      { symmetry. apply andb_false_iff. rewrite !String.eqb_neq.
        destruct (decide (Queue m = q)); [right|left]; congruence. }
      destruct (docs s !! _) as [m'|] eqn:El; [|done]. case_if; [|done].
      bool_hyps. subst. destruct (Hd _ _ El) as (_ & _ & _ & Hq & _).
      apply key_inj in Ek as [E1 E2]; [|done..]. congruence.
    + by rewrite lookup_insert_ne.
Qed.

Lemma mem_inv_insert s s' m :
  mem_storage_inv s -> doc_ok (getKey m) m -> docs s' = <[getKey m := m]> (docs s) ->
  configurations s' = configurations s -> mem_storage_inv s'.
Proof.
  intros [Hd Hc] Hm E Ec. split; [|by rewrite Ec]. rewrite E. by apply map_Forall_insert_2.
Qed.

(** ** Insert *)

Lemma insert_loop_spec env ms : forall s n k s' r err,
  mem_storage_inv s -> Forall (fun m => plain_queue (Queue m)) ms ->
  insert_loop env ms s n k = (s', (r, err)) ->
  mem_storage_inv s' /\ configurations s' = configurations s /\
  (err = None -> fst r + snd r = n + k + Z.of_nat (length ms)) /\
  (forall q i, (q, i) ∉ msg_key <$> ms -> mem_stored s' q i = mem_stored s q i) /\
  (forall q i, is_Some (mem_stored s q i) -> is_Some (mem_stored s' q i)) /\
  (err = None -> forall m, m ∈ ms -> is_Some (mem_stored s' (Queue m) (ID m))).
Proof.
  induction ms as [|m ms IH]; intros s n k s' r err Hs Hms; simpl.
  { intros [= <- <- <-]. simpl. split_and!; try done; [lia|set_solver]. }
  apply Forall_cons in Hms as [Hm Hms].
  case_if. { intros [= <- <- <-]. split_and!; done. }
  case_if. { intros [= <- <- <-]. split_and!; done. }
  bool_hyps.
  assert (Hstep : forall v s1 n1 k1,
    getKey v = getKey m -> Queue v = Queue m -> ID v = ID m -> doc_ok (getKey v) v ->
    docs s1 = <[getKey v := v]> (docs s) -> configurations s1 = configurations s ->
    n1 + k1 = n + k + 1 ->
    insert_loop env ms s1 n1 k1 = (s', (r, err)) ->
    mem_storage_inv s' /\ configurations s' = configurations s /\
    (err = None -> fst r + snd r = n + k + Z.of_nat (S (length ms))) /\
    (forall q i, (q, i) ∉ msg_key m :: (msg_key <$> ms) -> mem_stored s' q i = mem_stored s q i) /\
    (forall q i, is_Some (mem_stored s q i) -> is_Some (mem_stored s' q i)) /\
    (err = None -> forall m', m' ∈ m :: ms -> is_Some (mem_stored s' (Queue m') (ID m')))).
  { intros v s1 n1 k1 Hk Hq Hi Hv Hd1 Hc1 Hn Hl.
    assert (Hp : plain_queue (Queue v)) by (by rewrite Hq).
    assert (Hs1 : mem_storage_inv s1) by (by eapply mem_inv_insert).
    pose proof (mem_stored_insert s s1 v Hs Hp Hd1) as Hst.
    assert (Hkey : msg_key v = msg_key m) by (unfold msg_key; congruence).
    apply IH in Hl as (H1 & H2 & H3 & H4 & H5 & H6); [|done..].
    assert (Hm1 : forall q i, is_Some (mem_stored s q i) -> is_Some (mem_stored s1 q i)).
    { intros q i. rewrite Hst. by case_decide. }
    split_and!; [done|congruence| | | |].
    - intros He. rewrite H3 by done. lia.
    - intros q i Hnin. rewrite H4 by set_solver. rewrite Hst, decide_False; [done|].
      rewrite Hkey. set_solver.
    - auto.
    - intros He m' [->|Hm']%elem_of_cons; [|by apply H6]. apply H5. rewrite Hst.
      rewrite decide_True; [done|]. by rewrite Hkey. }
  destruct (docs s !! getKey m) as [v|] eqn:Ed; intros Hl.
  - destruct (Hs) as [Hd _]. pose proof (Hd _ _ Ed) as (Hk & Hv).
    pose proof (doc_at_key _ _ _ Hs Hm Ed) as (_ & Hq & Hi)%mem_stored_Some.
    eapply (Hstep (update_content m v)); try exact Hl; try done; [|lia].
    unfold getKey. simpl. by rewrite Hq, Hi.
  - eapply (Hstep (set_identity _ _ m)); try exact Hl; try done; [|lia].
    split_and!; try done. by eexists.
Qed.

(** ** Filters *)

Definition has_int64 (m : Message) : Prop := exists n, InternalId m = IdInt64 n.

(** The internal id of a stored message. *)
Definition id_of (m : Message) : Z := match InternalId m with IdInt64 z => z | _ => 0 end.

Lemma internal_int64_ok m : has_int64 m -> internal_int64 m = Ret (id_of m).
Proof. intros [n E]. unfold internal_int64, id_of. by rewrite E. Qed.

(** A breakpoint text that is empty or a decimal [int64]. *)
Definition bp_ok (text : string) : Prop := text = "" \/ is_Some (StrToInt64 text).

Definition bp_holds (text : string) (keep : Z -> bool) : bool :=
  String.eqb text "" || match StrToInt64 text with Some z => keep z | None => false end.

Definition breakpoints_ok (f : option InternalFilter) : Prop :=
  match f with
  | None => True
  | Some f => bp_ok (InternalIdBreakpointGt f) /\ bp_ok (InternalIdBreakpointLte f)
  end.

(** The conditions of a filter on a message with an internal id. *)
Definition filter_b (f : option InternalFilter) (m : Message) : bool :=
  match f with
  | None => true
  | Some f =>
      (String.eqb (f_Queue f) "" || String.eqb (Queue m) (f_Queue f)) &&
      (String.eqb (f_QueuePrefix f) "" || String.eqb (QueuePrefix m) (f_QueuePrefix f)) &&
      match Ids f with
      | None | Some [] => true
      | Some ids => existsb (fun i => String.eqb i (ID m)) ids
      end &&
      bp_holds (InternalIdBreakpointGt f) (fun b => b <? id_of m) &&
      bp_holds (InternalIdBreakpointLte f) (fun b => id_of m <=? b) &&
      match f_ExpiryDate f with None => true | Some d => ExpiryDate m <=? d end
  end.

Lemma matches_breakpoint_ok m text keep :
  has_int64 m -> bp_ok text ->
  matches_breakpoint m text keep = Ret (bp_holds text (keep (id_of m)), None).
Proof.
  intros Hm Hb. unfold matches_breakpoint, bp_holds. rewrite (internal_int64_ok m Hm). case_if; [done|].
  bool_hyps. destruct Hb as [?|[z ->]]; [done|]. done.
Qed.

Lemma bp_holds_ext text k1 k2 : (forall z, k1 z = k2 z) -> bp_holds text k1 = bp_holds text k2.
Proof. intros H. unfold bp_holds. destruct (StrToInt64 text); [by rewrite H|done]. Qed.

Lemma matchesInternalFilter_ok m f :
  has_int64 m -> breakpoints_ok f -> matchesInternalFilter m f = Ret (filter_b f m, None).
Proof.
  intros Hm Hf. destruct f as [f|]; [|done]. destruct Hf as [Hg Hl].
  unfold matchesInternalFilter, filter_b.
  rewrite !matches_breakpoint_ok by done. simpl.
  rewrite (bp_holds_ext (InternalIdBreakpointGt f) _ (fun b => b <? id_of m)) by (intros; lia).
  rewrite (bp_holds_ext (InternalIdBreakpointLte f) _ (fun b => id_of m <=? b)) by (intros; lia).
  unfold After.
  destruct (String.eqb (f_Queue f) ""), (String.eqb (Queue m) (f_Queue f)); try done;
  destruct (String.eqb (f_QueuePrefix f) ""), (String.eqb (QueuePrefix m) (f_QueuePrefix f)); try done;
  simpl;
  destruct (bp_holds (InternalIdBreakpointGt f) _), (bp_holds (InternalIdBreakpointLte f) _);
  destruct (Ids f) as [[|i ids]|]; simpl; try done;
  try (destruct (String.eqb i (ID m) || existsb (fun i => String.eqb i (ID m)) ids); [|done]);
  simpl; destruct (f_ExpiryDate f) as [d|]; try done;
  rewrite Z.ltb_antisym; by destruct (ExpiryDate m <=? d).
Qed.

Lemma messageMatchesFilter_ok m opt :
  has_int64 m -> breakpoints_ok (opt_filter opt) ->
  messageMatchesFilter m opt = Ret (filter_b (opt_filter opt) m, None).
Proof.
  intros Hm Hf. destruct opt as [o|]; simpl; [|done]. by apply matchesInternalFilter_ok.
Qed.

Lemma matches_breakpoint_returns m text keep :
  has_int64 m -> exists r, matches_breakpoint m text keep = Ret r.
Proof.
  intros Hm. unfold matches_breakpoint. rewrite (internal_int64_ok m Hm). simpl.
  case_if; [by eexists|]. destruct (StrToInt64 text); by eexists.
Qed.

Lemma messageMatchesFilter_returns m opt :
  has_int64 m -> exists r, messageMatchesFilter m opt = Ret r.
Proof.
  intros Hm. destruct opt as [o|]; simpl; [|by eexists]. unfold matchesInternalFilter.
  destruct (opt_InternalFilter o) as [f|]; [|by eexists].
  do 3 (case_if; [by eexists|]).
  destruct (matches_breakpoint_returns m (InternalIdBreakpointGt f)
    (fun i b => negb (i <=? b)) Hm) as [r1 ->]. simpl. case_if; [by eexists|].
  destruct (matches_breakpoint_returns m (InternalIdBreakpointLte f)
    (fun i b => negb (b <? i)) Hm) as [r2 ->]. simpl. case_if; [by eexists|].
  destruct (f_ExpiryDate f); [case_if|]; by eexists.
Qed.

Lemma no_breakpoints_ok f : no_breakpoints f -> breakpoints_ok f.
Proof. destruct f; simpl; [|done]. unfold bp_ok. tauto. Qed.

Lemma existsb_ids ids i : existsb (fun x => String.eqb x i) ids = true <-> i ∈ ids.
Proof.
  rewrite existsb_exists. setoid_rewrite String.eqb_eq. rewrite list_elem_of_In.
  split; [by intros (x & ? & ->)|]. by exists i.
Qed.

Lemma filter_b_holds f m : no_breakpoints f -> filter_b f m = true <-> filter_holds f m.
Proof.
  destruct f as [f|]; simpl; [|done]. intros [-> ->].
  change (bp_holds "" ?k) with true. rewrite !andb_true_r, !andb_true_iff, !orb_true_iff, !String.eqb_eq.
  destruct (Ids f) as [[|i ids]|], (f_ExpiryDate f); rewrite ?existsb_ids, ?Z.leb_le; tauto.
Qed.

Lemma hides_expired_filter opt :
  hides_expired opt = false <-> has_expiry_filter (opt_filter opt).
Proof.
  destruct opt as [o|]; simpl; [|done]. destruct (opt_InternalFilter o) as [f|]; simpl; [|done].
  by destruct (f_ExpiryDate f).
Qed.

Lemma isExpired_expired env m : isExpired env m = true <-> expired env m.
Proof.
  unfold isExpired, expired, Before, Equal. rewrite andb_true_iff, negb_true_iff, orb_true_iff.
  rewrite Z.ltb_lt, Z.eqb_eq. intuition lia.
Qed.

(** ** Find and Count *)

Definition select_b (env : Env) (opt : option FindOptions) (m : Message) : bool :=
  negb (hides_expired opt && isExpired env m) && filter_b (opt_filter opt) m.

Lemma select_b_selected env opt m :
  no_breakpoints (opt_filter opt) -> select_b env opt m = true <-> selected true env (opt_filter opt) m.
Proof.
  intros Hf. unfold select_b, selected.
  rewrite andb_true_iff, filter_b_holds, negb_true_iff, andb_false_iff by done.
  rewrite hides_expired_filter. rewrite <- isExpired_expired, not_true_iff_false. tauto.
Qed.

Lemma find_loop_ok env opt l : forall acc,
  Forall (fun kv => has_int64 kv.2) l -> breakpoints_ok (opt_filter opt) ->
  find_loop env opt l acc = Ret (acc ++ List.filter (select_b env opt) l.*2, None).
Proof.
  induction l as [|[k m] l IH]; intros acc Hl Hf; simpl; [by rewrite app_nil_r|].
  apply Forall_cons in Hl as [Hm Hl]. simpl in Hm.
  rewrite messageMatchesFilter_ok by done. unfold select_b at 1.
  destruct (hides_expired opt && isExpired env m); simpl; [by apply IH|].
  rewrite IH by done. destruct (filter_b _ m); [|done]. by rewrite <- app_assoc.
Qed.

Lemma find_loop_returns env opt l : forall acc,
  Forall (fun kv => has_int64 kv.2) l -> exists r, find_loop env opt l acc = Ret r /\
    Forall (fun m => m ∈ acc \/ m ∈ l.*2) (fst r).
Proof.
  induction l as [|[k m] l IH]; intros acc Hl; simpl.
  { eexists. split; [done|]. simpl. apply Forall_forall. auto. }
  apply Forall_cons in Hl as [Hm Hl]. simpl in Hm.
  assert (Himp : forall (acc' r : list Message), (forall x, x ∈ acc' -> x ∈ acc \/ x = m) ->
    Forall (fun x => x ∈ acc' \/ x ∈ l.*2) r -> Forall (fun x => x ∈ acc \/ x ∈ m :: l.*2) r).
  { intros acc' r Hx Hr. eapply Forall_impl; [exact Hr|]. intros x [Hi|Hi]; [|set_solver].
    apply Hx in Hi as [?| ->]; set_solver. }
  case_if. { destruct (IH acc Hl) as (r & -> & Hr). eexists. split; [done|]. eapply Himp; [|exact Hr]. auto. }
  destruct (messageMatchesFilter_returns m opt Hm) as [[b [e|]] ->]; simpl.
  { eexists. split; [done|]. constructor. }
  destruct (IH (if b then acc ++ [m] else acc) Hl) as (r & -> & Hr). eexists. split; [done|].
  eapply Himp; [|exact Hr]. intros x. destruct b; set_solver.
Qed.

(** The comparison of [Find] on messages with internal ids. *)
Definition id_less_b (descending : bool) (x y : Message) : bool :=
  if descending then id_of y <? id_of x else id_of x <? id_of y.

Fixpoint find_less_b (keys : list (string * Z)) (x y : Message) : bool :=
  match keys with
  | [] => id_less_b false x y
  | (key, value) :: keys' =>
      if String.eqb key "expiry_date" then
        if negb (ExpiryDate x =? time_zero) || negb (ExpiryDate y =? time_zero) then
          (if value =? -1 then After (ExpiryDate x) (ExpiryDate y)
           else Before (ExpiryDate x) (ExpiryDate y))
        else find_less_b keys' x y
      else if String.eqb key "score" then
        (if value =? -1 then f64_gtb (Score x) (Score y) else f64_ltb (Score x) (Score y))
      else if String.eqb key "_id" then id_less_b (value =? -1) x y
      else find_less_b keys' x y
  end.

Lemma find_less_ok keys x y :
  has_int64 x -> has_int64 y -> find_less keys x y = Ret (find_less_b keys x y).
Proof.
  intros Hx Hy.
  assert (Hid : forall d, id_less d x y = Ret (id_less_b d x y)).
  { intros d. unfold id_less. by rewrite !internal_int64_ok. }
  induction keys as [|[key value] keys IH]; simpl; [apply Hid|].
  repeat case_if; done.
Qed.

(** The messages found, sorted. *)
Definition sort_b (opt : option FindOptions) (l : list Message) : list Message :=
  match opt_sort opt with Some keys => stable_sort (find_less_b keys) l | None => l end.

Lemma sort_found_ok opt l : Forall has_int64 l -> sort_found opt l = Ret (sort_b opt l).
Proof.
  intros Hl. unfold sort_found, sort_b, opt_sort. destruct opt as [o|]; [|done].
  destruct (Sort o) as [keys|]; [|done]. apply stable_sort_o_pure.
  rewrite Forall_forall in Hl. intros x y Hx Hy. apply find_less_ok; auto.
Qed.

Lemma sort_b_perm opt l : sort_b opt l ≡ₚ l.
Proof. unfold sort_b. destruct (opt_sort opt); [apply stable_sort_perm|done]. Qed.

(** The type assertions of the storage succeed on every document. *)
Definition docs_typed (s : MemoryStorage) : Prop := map_Forall (fun _ m => has_int64 m) (docs s).

Lemma inv_typed s : mem_storage_inv s -> docs_typed s.
Proof. intros [Hd _] k m Hkm. by destruct (Hd _ _ Hkm) as (_ & _ & _ & _ & ?). Qed.

Lemma typed_range env s :
  docs_typed s -> Forall (fun kv => has_int64 kv.2) (map_range (env_order env) (docs s)).
Proof.
  intros Hd. apply Forall_forall. intros [k m] Hkm. apply elem_of_map_range in Hkm. by apply Hd in Hkm.
Qed.

Lemma docs_int64 env s :
  mem_storage_inv s -> Forall (fun kv => has_int64 kv.2) (map_range (env_order env) (docs s)).
Proof. intros Hs. by apply typed_range, inv_typed. Qed.

(** What [Find] returns, in closed form. *)
Lemma Find_ok env opt s :
  mem_storage_inv s -> breakpoints_ok (opt_filter opt) ->
  Find env opt s = Ret (limit_found opt (sort_b opt
    (List.filter (select_b env opt) (map_range (env_order env) (docs s)).*2)), None).
Proof.
  intros Hs Hf. unfold Find. pose proof (docs_int64 env s Hs) as Hd.
  rewrite find_loop_ok by done. simpl. rewrite sort_found_ok; [done|].
  apply Forall_forall. intros m. rewrite list_elem_of_In, filter_In, <- list_elem_of_In.
  intros [([k ?] & -> & Hm)%list_elem_of_fmap _]. rewrite Forall_forall in Hd. by apply Hd in Hm.
Qed.

Lemma Find_returns env opt s : docs_typed s -> exists r, Find env opt s = Ret r.
Proof.
  intros Hs. unfold Find. pose proof (typed_range env s Hs) as Hd.
  destruct (find_loop_returns env opt _ [] Hd) as (r & -> & Hr). simpl.
  destruct r as [ms [e|]]; [by eexists|]. rewrite sort_found_ok; [by eexists|].
  simpl in Hr. eapply Forall_impl; [exact Hr|]. simpl. intros m [Hm|Hm]; [set_solver|].
  apply list_elem_of_fmap in Hm as (kv & -> & Hkv). rewrite Forall_forall in Hd. by apply Hd.
Qed.

(** The documents in the order of a call. *)
Definition doc_list (env : Env) (s : MemoryStorage) : list Message :=
  (map_range (env_order env) (docs s)).*2.

Lemma elem_of_doc_list env s m :
  mem_storage_inv s -> m ∈ doc_list env s <-> mem_stored s (Queue m) (ID m) = Some m.
Proof.
  intros Hs. unfold doc_list. rewrite list_elem_of_fmap. split.
  - intros ([k m'] & -> & Hm). apply elem_of_map_range in Hm. by apply doc_stored in Hm as [_ ?].
  - intros Hm. exists (getKey m, m). split; [done|]. by apply elem_of_map_range, doc_stored.
Qed.

Lemma doc_list_keys env s :
  mem_storage_inv s -> getKey <$> doc_list env s = (map_range (env_order env) (docs s)).*1.
Proof.
  intros Hs. unfold doc_list. rewrite <- list_fmap_compose. apply list_fmap_ext.
  intros i [k m] E. simpl. apply list_elem_of_lookup_2, elem_of_map_range in E.
  symmetry. by apply (doc_stored s k m) in E as [? _].
Qed.

Lemma NoDup_doc_list env s : mem_storage_inv s -> NoDup (msg_key <$> doc_list env s).
Proof.
  intros Hs. apply (NoDup_fmap_1 (fun x => String.append x.1 (String.append ":" x.2))).
  rewrite <- list_fmap_compose. change (NoDup (getKey <$> doc_list env s)).
  rewrite doc_list_keys by done. apply NoDup_map_range_fst.
Qed.

(** [limit_found] takes a prefix: everything, or exactly [Limit] messages. *)
Lemma limit_found_take opt l :
  exists n, limit_found opt l = take n l /\
    (0 < opt_limit opt -> Z.of_nat (length (take n l)) <= opt_limit opt) /\
    (take n l = l \/ 0 < opt_limit opt /\ Z.of_nat (length (take n l)) = opt_limit opt).
Proof.
  unfold limit_found. destruct opt as [o|]; simpl; cycle 1.
  { exists (length l). rewrite take_ge by lia. split_and!; [done|lia|auto]. }
  case_if; bool_hyps.
  - exists (Z.to_nat (Limit o)). rewrite length_take. split_and!; [done|lia|right; lia].
  - exists (length l). rewrite take_ge by lia. split_and!; [done| |auto].
    intros Hl. apply andb_false_iff in E as [E|E]; bool_hyps; lia.
Qed.

Lemma Find_selects env opt s ms :
  mem_storage_inv s -> no_breakpoints (opt_filter opt) -> Find env opt s = Ret (ms, None) ->
  NoDup (msg_key <$> ms) /\
  Forall (fun m => mem_stored s (Queue m) (ID m) = Some m /\ selected true env (opt_filter opt) m) ms /\
  (0 < opt_limit opt -> Z.of_nat (length ms) <= opt_limit opt) /\
  (forall q i m, mem_stored s q i = Some m -> selected true env (opt_filter opt) m -> m ∉ ms ->
     0 < opt_limit opt /\ Z.of_nat (length ms) = opt_limit opt).
Proof.
  intros Hs Hf. rewrite Find_ok by (try done; by apply no_breakpoints_ok). intros [= <-].
  fold (doc_list env s). set (sel := List.filter _ (doc_list env s)).
  destruct (limit_found_take opt (sort_b opt sel)) as (n & -> & Hle & Hall).
  assert (Hsel : forall m, m ∈ sel <->
    mem_stored s (Queue m) (ID m) = Some m /\ selected true env (opt_filter opt) m).
  { intros m. unfold sel. by rewrite elem_of_filter_iff, elem_of_doc_list, select_b_selected. }
  assert (Hsub : sublist (take n (sort_b opt sel)) (sort_b opt sel)) by apply sublist_take.
  split_and!; [| |done|].
  - eapply sublist_NoDup; [|apply fmap_sublist, Hsub]. rewrite sort_b_perm.
    eapply sublist_NoDup; [apply (NoDup_doc_list env s Hs)|apply fmap_sublist, filter_sublist].
  - apply Forall_forall. intros m Hm. apply Hsel. rewrite <- (sort_b_perm opt). by eapply elem_of_sublist.
  - intros q i m Hm Hse Hnin. destruct Hall as [Heq|?]; [|done]. exfalso. apply Hnin.
    rewrite Heq, sort_b_perm, Hsel. apply mem_stored_Some in Hm as (Hm & <- & <-).
    split; [|done]. by apply mem_stored_Some.
Qed.

Lemma expiry_less_le x y :
  find_less_b [("expiry_date", 1)] y x = false -> ExpiryDate x <= ExpiryDate y.
Proof.
  simpl. unfold Before.
  destruct (Z.eqb_spec (ExpiryDate y) time_zero), (Z.eqb_spec (ExpiryDate x) time_zero); simpl; lia.
Qed.

Lemma find_less_score x y : find_less_b [("score", 1)] x y = f64_ltb (Score x) (Score y).
Proof. done. Qed.

Lemma expiry_less_trans x y z :
  find_less_b [("expiry_date", 1)] x y = false -> find_less_b [("expiry_date", 1)] y z = false ->
  find_less_b [("expiry_date", 1)] x z = false.
Proof.
  simpl. unfold Before, id_less_b. generalize (ExpiryDate x) (ExpiryDate y) (ExpiryDate z).
  intros a b c. destruct (Z.eqb_spec a time_zero), (Z.eqb_spec b time_zero), (Z.eqb_spec c time_zero);
    simpl; rewrite ?Z.ltb_ge; lia.
Qed.

Lemma expiry_less_asym x y :
  find_less_b [("expiry_date", 1)] x y = true -> find_less_b [("expiry_date", 1)] y x = false.
Proof.
  simpl. unfold Before, id_less_b.
  destruct (Z.eqb_spec (ExpiryDate x) time_zero), (Z.eqb_spec (ExpiryDate y) time_zero); simpl; lia.
Qed.

Lemma score_weak_order :
  weak_order (fun x y => f64_ltb (Score x) (Score y)) (fun m => f64_is_nan (Score m) = false).
Proof.
  split; [intros x y _ _; apply f64_ltb_asym|].
  intros x y z _ Hy _. by apply f64_nltb_trans.
Qed.

(** Sorted by one of the two keys, unless a score is a NaN. *)
Lemma sort_b_sorted key opt l :
  opt_sort opt = Some [(key, 1)] -> Forall (fun m => f64_is_nan (Score m) = false) l ->
  StronglySorted (sort_le key) (sort_b opt l).
Proof.
  intros Hk Hn. unfold sort_b. rewrite Hk.
  destruct (decide (key = "score")) as [->|]; [|destruct (decide (key = "expiry_date")) as [->|]].
  - eapply StronglySorted_impl; cycle 1.
    + apply (stable_sort_sorted _ (fun m => f64_is_nan (Score m) = false)); [|exact Hn].
      apply score_weak_order.
    + intros x y Hxy. split; [|done]. intros _. exact Hxy.
  - eapply StronglySorted_impl; cycle 1.
    + apply (stable_sort_sorted _ (fun _ => True)); [|by apply Forall_true].
      split; [intros x y _ _; apply expiry_less_asym|].
      intros x y z _ _ _. apply expiry_less_trans.
    + intros x y Hxy. split; [done|]. intros _. by apply expiry_less_le.
  - apply (StronglySorted_impl (fun _ _ => True)); [by split|].
    generalize (stable_sort (find_less_b [(key, 1)]) l). clear.
    induction l as [|x l IH]; constructor; [done|]. by apply Forall_true.
Qed.

Lemma Find_sorted env opt s ms key :
  mem_storage_inv s -> no_breakpoints (opt_filter opt) -> Find env opt s = Ret (ms, None) ->
  opt_sort opt = Some [(key, 1)] ->
  (forall q i m, mem_stored s q i = Some m -> f64_is_nan (Score m) = false) ->
  StronglySorted (sort_le key) ms /\
  (forall q i m m', mem_stored s q i = Some m -> selected true env (opt_filter opt) m -> m ∉ ms ->
     m' ∈ ms -> sort_le key m' m).
Proof.
  intros Hs Hf. rewrite Find_ok by (try done; by apply no_breakpoints_ok). intros [= <-] Hk Hn.
  fold (doc_list env s). set (sel := List.filter _ (doc_list env s)).
  destruct (limit_found_take opt (sort_b opt sel)) as (n & -> & _).
  assert (Hsel : forall m, m ∈ sel <->
    mem_stored s (Queue m) (ID m) = Some m /\ selected true env (opt_filter opt) m).
  { intros m. unfold sel. by rewrite elem_of_filter_iff, elem_of_doc_list, select_b_selected. }
  assert (Hss : StronglySorted (sort_le key) (sort_b opt sel)).
  { apply sort_b_sorted; [done|]. apply Forall_forall. intros m Hm. apply Hsel in Hm as [Hm _]. eauto. }
  split; [by apply StronglySorted_take|].
  intros q i m m' Hm Hse Hnin Hin. apply (StronglySorted_take_drop _ n _ _ _ Hss Hin).
  apply mem_stored_Some in Hm as (Hm & <- & <-).
  assert (Hm' : m ∈ sort_b opt sel) by (by rewrite sort_b_perm, Hsel, mem_stored_Some).
  rewrite <- (take_drop n) in Hm'. apply elem_of_app in Hm' as [?|?]; done.
Qed.

Lemma count_loop_ok opt l : forall n,
  Forall (fun kv => has_int64 kv.2) l -> breakpoints_ok (opt_filter opt) ->
  count_loop opt l n = Ret (n + Z.of_nat (length (List.filter (filter_b (opt_filter opt)) l.*2)), None).
Proof.
  induction l as [|[k m] l IH]; intros n Hl Hf; simpl; [by rewrite Z.add_0_r|].
  apply Forall_cons in Hl as [Hm Hl]. simpl in Hm.
  rewrite messageMatchesFilter_ok by done. simpl. rewrite IH by done.
  destruct (filter_b _ m); cbn [length]; [|done].
  rewrite Nat2Z.inj_succ. by rewrite <- Z.add_assoc, (Z.add_comm 1).
Qed.

Lemma Count_counts env opt copt s n :
  mem_storage_inv s -> no_breakpoints (opt_filter opt) -> Count env opt copt s = Ret (n, None) ->
  exists l, NoDup l /\ n = Z.of_nat (length l) /\
    forall q i, (q, i) ∈ l <-> exists m, mem_stored s q i = Some m /\ filter_holds (opt_filter opt) m.
Proof.
  intros Hs Hf. unfold Count.
  rewrite count_loop_ok by first [by apply docs_int64|by apply no_breakpoints_ok].
  rewrite Z.add_0_l. intros [= <-]. fold (doc_list env s).
  exists (msg_key <$> List.filter (filter_b (opt_filter opt)) (doc_list env s)).
  split_and!.
  - eapply sublist_NoDup; [apply (NoDup_doc_list env s Hs)|apply fmap_sublist, filter_sublist].
  - by rewrite length_fmap.
  - intros q i. rewrite list_elem_of_fmap. split.
    + intros (m & [= -> ->] & Hm). exists m.
      by rewrite elem_of_filter_iff, elem_of_doc_list, filter_b_holds in Hm.
    + intros (m & Hm & Hh). exists m. apply mem_stored_Some in Hm as (Hm & <- & <-).
      split; [done|]. by rewrite elem_of_filter_iff, elem_of_doc_list, filter_b_holds, mem_stored_Some.
Qed.

(** ** Remove *)

Definition occurrences (i : string) (ids : list string) : nat :=
  length (List.filter (fun x => String.eqb i x) ids).

Lemma remove_ids_spec k m ids : forall d n,
  remove_ids k m ids d n =
    (if bool_decide (ID m ∈ ids) then delete k d else d, n + Z.of_nat (occurrences (ID m) ids)).
Proof.
  unfold occurrences. induction ids as [|i ids IH]; intros d n; simpl.
  { by rewrite Z.add_0_r. }
  destruct (String.eqb_spec (ID m) i) as [<-|Hne]; rewrite IH; simpl; f_equal; try lia.
  - rewrite (bool_decide_eq_true_2 (ID m ∈ ID m :: ids)) by set_solver.
    case_bool_decide; [by rewrite delete_delete_eq|done].
  - apply f_equal with (f := fun b : bool => if b then delete k d else d).
    apply bool_decide_ext. set_solver.
Qed.

(** The messages [Remove] deletes, and what it counts. *)
Definition removed_b (q : string) (ids : list string) (m : Message) : bool :=
  String.eqb (Queue m) q && bool_decide (ID m ∈ ids).

Lemma remove_loop_spec q ids l : forall d n,
  remove_loop q ids l d n =
    (foldr delete d (List.filter (fun kv => removed_b q ids kv.2) l).*1,
     n + Z.of_nat (sum_list (map (fun kv => if String.eqb (Queue kv.2) q
                                            then occurrences (ID kv.2) ids else 0%nat) l))).
Proof.
  assert (Hd : forall k ks (d : gmap string Message),
    foldr delete (delete k d) ks = delete k (foldr delete d ks)).
  { intros k ks d. induction ks as [|k' ks IH]; simpl; [done|].
    by rewrite IH, delete_delete. }
  induction l as [|[k m] l IH]; intros d n; simpl; [by rewrite Z.add_0_r|].
  unfold removed_b at 1. simpl. destruct (String.eqb (Queue m) q); simpl.
  - rewrite remove_ids_spec, IH. case_bool_decide; simpl; rewrite ?Hd; f_equal; lia.
  - rewrite IH. f_equal.
Qed.

Lemma lookup_foldr_delete (d : gmap string Message) ks k :
  foldr delete d ks !! k = if decide (k ∈ ks) then None else d !! k.
Proof.
  induction ks as [|k' ks IH]; cbn [foldr].
  - case_decide as H; [by apply elem_of_nil in H|done].
  - destruct (decide (k = k')) as [->|Hne].
    + rewrite lookup_delete_eq. destruct (decide (k' ∈ k' :: ks)) as [|H]; [done|]. destruct H. set_solver.
    + rewrite lookup_delete_ne, IH by done. apply decide_ext. set_solver.
Qed.

Lemma Remove_docs env q ids s s' n err k m :
  Remove env q ids s = (s', (n, err)) -> docs s !! k = Some m ->
  docs s' !! k = if removed_b q ids m then None else Some m.
Proof.
  unfold Remove. rewrite remove_loop_spec. intros [= <- _ _] Hm. simpl.
  rewrite lookup_foldr_delete, Hm. destruct (removed_b q ids m) eqn:E.
  - rewrite decide_True; [done|]. apply list_elem_of_fmap. exists (k, m). split; [done|].
    by rewrite elem_of_filter_iff, elem_of_map_range.
  - rewrite decide_False; [done|]. intros ([k' m'] & -> & H)%list_elem_of_fmap.
    rewrite elem_of_filter_iff, elem_of_map_range in H. simpl in *. destruct H. congruence.
Qed.

Lemma Remove_docs_sub env q ids s s' n err k :
  Remove env q ids s = (s', (n, err)) -> docs s !! k = None -> docs s' !! k = None.
Proof.
  unfold Remove. rewrite remove_loop_spec. intros [= <- _ _] Hk. simpl.
  rewrite lookup_foldr_delete, Hk. by case_decide.
Qed.

Lemma occurrences_le_1 i ids : NoDup ids -> occurrences i ids = if decide (i ∈ ids) then 1%nat else 0%nat.
Proof.
  unfold occurrences. induction 1 as [|x ids Hx Hd IH].
  { simpl. by destruct (decide (i ∈ [])) as [H%elem_of_nil|]. }
  cbn [List.filter]. destruct (String.eqb_spec i x) as [<-|Hne]; cbn [length]; rewrite IH.
  - rewrite (decide_False (P := i ∈ ids)) by done. by rewrite decide_True by set_solver.
  - apply decide_ext. set_solver.
Qed.

(** Counting the stored ids of a list, by the documents. *)
Lemma removed_count env s q ids :
  mem_storage_inv s -> NoDup ids ->
  length (List.filter (fun i => bool_decide (is_Some (mem_stored s q i))) ids) =
  length (List.filter (removed_b q ids) (doc_list env s)).
Proof.
  intros Hs Hd. rewrite <- (length_fmap ID (List.filter (removed_b q ids) _)).
  apply Permutation_length, NoDup_Permutation.
  - eapply sublist_NoDup; [exact Hd|apply filter_sublist].
  - apply (NoDup_fmap_1 (fun i => (q, i))). rewrite <- list_fmap_compose.
    erewrite list_fmap_ext with (g := msg_key); cycle 1.
    { intros j m Hm%list_elem_of_lookup_2. apply elem_of_filter_iff in Hm as [_ Hm].
      unfold removed_b in Hm. bool_hyps. unfold msg_key. simpl. congruence. }
    eapply sublist_NoDup; [apply (NoDup_doc_list env s Hs)|apply fmap_sublist, filter_sublist].
  - intros i. rewrite elem_of_filter_iff, bool_decide_eq_true, list_elem_of_fmap. split.
    + intros [Hi [m Hm]]. exists m. pose proof Hm as Hm'.
      apply mem_stored_Some in Hm as (Hm & <- & <-). split; [done|].
      rewrite elem_of_filter_iff, elem_of_doc_list by done. split; [done|].
      unfold removed_b. rewrite String.eqb_refl. by apply bool_decide_eq_true.
    + intros (m & -> & Hm). rewrite elem_of_filter_iff, elem_of_doc_list in Hm by done.
      destruct Hm as [Hm Hr]. unfold removed_b in Hr. bool_hyps. subst q.
      split; [done|]. by exists m.
Qed.

Lemma sum_filter (f : Message -> nat) (P : Message -> bool) l :
  (forall m, f m = if P m then 1%nat else 0%nat) ->
  sum_list (map f l) = length (List.filter P l).
Proof. intros H. induction l as [|m l IH]; simpl; [done|]. rewrite H, IH. by destruct (P m). Qed.

Lemma Remove_removes env q ids s s' n err :
  mem_storage_inv s -> Remove env q ids s = (s', (n, err)) ->
  err = None /\ mem_storage_inv s' /\ configurations s' = configurations s /\
  (forall q' i, mem_stored s' q' i = if decide (q' = q /\ i ∈ ids) then None else mem_stored s q' i) /\
  (NoDup ids ->
   n = Z.of_nat (length (List.filter (fun i => bool_decide (is_Some (mem_stored s q i))) ids))).
Proof.
  intros Hs HR. pose proof HR as E. unfold Remove in E. rewrite remove_loop_spec in E.
  injection E as E1 E2 E3. split; [done|]. split; [|split; [by rewrite <- E1|split]].
  - destruct Hs as [Hd Hc]. split; [|by rewrite <- E1]. intros k m Hk.
    destruct (docs s !! k) as [m'|] eqn:Em; [|by rewrite (Remove_docs_sub _ _ _ _ _ _ _ _ HR Em) in Hk].
    rewrite (Remove_docs _ _ _ _ _ _ _ _ _ HR Em) in Hk. destruct (removed_b q ids m'); simplify_eq. by apply Hd.
  - intros q' i. unfold mem_stored. set (k := String.append q' _).
    destruct (docs s !! k) as [m|] eqn:Em; cycle 1.
    { rewrite (Remove_docs_sub _ _ _ _ _ _ _ _ HR Em). by case_decide. }
    rewrite (Remove_docs _ _ _ _ _ _ _ _ _ HR Em).
    destruct (String.eqb (Queue m) q' && String.eqb (ID m) i) eqn:Eq; cycle 1.
    { destruct (removed_b q ids m); simpl; rewrite ?Eq; by destruct (decide _). }
    bool_hyps. subst. unfold removed_b. destruct (String.eqb_spec (Queue m) q); simpl.
    + case_bool_decide; rewrite ?String.eqb_refl;
        [by rewrite decide_True|by rewrite decide_False by tauto].
    + rewrite !String.eqb_refl, decide_False by tauto. done.
  - intros Hnd. rewrite (removed_count env s q ids Hs Hnd), <- E2, Z.add_0_l. f_equal.
    unfold doc_list. rewrite <- (sum_filter (fun m => if String.eqb (Queue m) q then occurrences (ID m) ids else 0%nat)).
    + f_equal. rewrite <- list_fmap_compose. done.
    + intros m. unfold removed_b. rewrite occurrences_le_1 by done.
      destruct (String.eqb _ _); [|done]. simpl. case_bool_decide; case_decide; done.
Qed.

(** ** Ack and Nack *)

(** Both replace the document of the message by one with the same identity. *)
Lemma replace_doc s m v v' :
  mem_storage_inv s -> plain_queue (Queue m) -> docs s !! getKey m = Some v ->
  Queue v' = Queue v -> ID v' = ID v -> InternalId v' = InternalId v ->
  let s' := with_docs (<[getKey m := v']> (docs s)) s in
  mem_storage_inv s' /\ mem_stored s (Queue m) (ID m) = Some v /\
  (forall q i, (q, i) <> msg_key m -> mem_stored s' q i = mem_stored s q i) /\
  mem_stored s' (Queue m) (ID m) = Some v'.
Proof.
  intros Hs Hm E Hq Hi Hint s'. pose proof (doc_at_key _ _ _ Hs Hm E) as Hst.
  pose proof Hst as (_ & Hvq & Hvi)%mem_stored_Some.
  assert (Hk : getKey m = getKey v') by (unfold getKey; congruence).
  assert (Hkey : msg_key v' = msg_key m) by (unfold msg_key; congruence).
  assert (Hdocs : docs s' = <[getKey v' := v']> (docs s)) by (unfold s'; by rewrite Hk).
  assert (Hp : plain_queue (Queue v')) by congruence.
  pose proof (mem_stored_insert s s' v' Hs Hp Hdocs) as Hin. rewrite Hkey in Hin.
  split; [|split; [done|split]].
  - eapply mem_inv_insert; [done| |exact Hdocs|done].
    destruct Hs as [Hd _]. destruct (Hd _ _ E) as (_ & H1 & H2 & H3 & n & H4).
    split_and!; [done|congruence..|]. exists n. congruence.
  - intros q i Hne. by rewrite Hin, decide_False.
  - rewrite Hin, decide_True; done.
Qed.

Definition acked (msg value : Message) : Message :=
  let value := set_ack msg value in
  let d := setDiagnosticsStruct value in
  set_Diagnostics {| Acks := increment (Acks d); Nacks := Nacks d;
    ConsecutiveAcks := increment (ConsecutiveAcks d); ConsecutiveNacks := Some 0 |} value.

Definition nacked (msg value : Message) : Message :=
  let value := set_nack msg value in
  let d := setDiagnosticsStruct value in
  set_Diagnostics {| Acks := Acks d; Nacks := increment (Nacks d);
    ConsecutiveAcks := Some 0; ConsecutiveNacks := increment (ConsecutiveNacks d) |} value.

(** The effect of an ack or a nack whose new document is [f m v]. *)
Lemma replace_op (f : Message -> Message -> Message)
    (op : Message -> MemoryStorage -> MemoryStorage * result Z) m s s' n err :
  (forall m v, Queue (f m v) = Queue v /\ ID (f m v) = ID v /\ InternalId (f m v) = InternalId v) ->
  (forall m s, op m s = match docs s !! getKey m with
     | None => (s, (0, None))
     | Some v => (with_docs (<[getKey m := f m v]> (docs s)) s, (1, None))
     end) ->
  mem_storage_inv s -> plain_queue (Queue m) -> op m s = (s', (n, err)) ->
  err = None /\ mem_storage_inv s' /\ configurations s' = configurations s /\
  n = (if bool_decide (is_Some (mem_stored s (Queue m) (ID m))) then 1 else 0) /\
  (forall q i, (q, i) <> msg_key m -> mem_stored s' q i = mem_stored s q i) /\
  mem_stored s' (Queue m) (ID m) = f m <$> mem_stored s (Queue m) (ID m).
Proof.
  intros Hf Hop Hs Hm. rewrite Hop. destruct (docs s !! getKey m) as [v|] eqn:E; intros [= <- <- <-].
  - destruct (Hf m v) as (H1 & H2 & H3).
    destruct (replace_doc s m v (f m v) Hs Hm E H1 H2 H3) as (Hi & Hst & Hne & Heq).
    rewrite Hst. split_and!; done.
  - rewrite (no_doc_at_key _ _ E). done.
Qed.

Lemma Ack_replaces m s s' n err :
  mem_storage_inv s -> plain_queue (Queue m) -> Ack m s = (s', (n, err)) ->
  err = None /\ mem_storage_inv s' /\ configurations s' = configurations s /\
  n = (if bool_decide (is_Some (mem_stored s (Queue m) (ID m))) then 1 else 0) /\
  (forall q i, (q, i) <> msg_key m -> mem_stored s' q i = mem_stored s q i) /\
  mem_stored s' (Queue m) (ID m) = acked m <$> mem_stored s (Queue m) (ID m).
Proof. by apply replace_op. Qed.

Lemma Nack_replaces m s s' n err :
  mem_storage_inv s -> plain_queue (Queue m) -> Nack m s = (s', (n, err)) ->
  err = None /\ mem_storage_inv s' /\ configurations s' = configurations s /\
  n = (if bool_decide (is_Some (mem_stored s (Queue m) (ID m))) then 1 else 0) /\
  (forall q i, (q, i) <> msg_key m -> mem_stored s' q i = mem_stored s q i) /\
  mem_stored s' (Queue m) (ID m) = nacked m <$> mem_stored s (Queue m) (ID m).
Proof. by apply replace_op. Qed.

(** ** Configurations *)

Lemma EditQueueConfiguration_edits cfg s s' err :
  mem_storage_inv s -> EditQueueConfiguration cfg s = (s', err) ->
  err = None /\ mem_storage_inv s' /\ docs s' = docs s /\
  forall q, configurations s' !! q =
    if decide (q = cfg_Queue cfg /\ MaxElements cfg <> 0) then Some (normalized cfg)
    else configurations s !! q.
Proof.
  intros [Hd Hc]. unfold EditQueueConfiguration.
  destruct (Z.eqb_spec (MaxElements cfg) 0) as [E0|E0]; intros [= <- <-].
  { split_and!; try done. intros q. by rewrite decide_False by tauto. }
  assert (Hn : (if MaxElements cfg <? 0 then {| cfg_Queue := cfg_Queue cfg; MaxElements := 0 |}
                else cfg) = normalized cfg).
  { unfold normalized. destruct (Z.ltb_spec (MaxElements cfg) 0); destruct cfg; simpl in *;
      f_equal; lia. }
  rewrite Hn. split; [done|]. split; [|split; [done|]].
  - split; [done|]. apply map_Forall_insert_2; [simpl; split; [done|lia]|done].
  - intros q. simpl. destruct (decide (q = cfg_Queue cfg)) as [->|Hne].
    + by rewrite lookup_insert_eq, decide_True.
    + rewrite lookup_insert_ne by (simpl; congruence). by rewrite decide_False by tauto.
Qed.

Lemma insert_loop_counts env ms : forall s n k s' n' k' err,
  insert_loop env ms s n k = (s', ((n', k'), err)) -> 0 <= n -> 0 <= k -> 0 <= n' /\ 0 <= k'.
Proof.
  induction ms as [|m ms IH]; intros s n k s' n' k' err; simpl; [by intros [= <- <- <- <-]|].
  repeat case_if; [by intros [= <- <- <- <-]..|].
  case_match; intros Hl ? ?; (eapply IH; [exact Hl|lia..]).
Qed.

(** ** The content of an inserted message *)

(** The document [Insert] leaves for a message, from the one stored before. *)
Definition inserted_doc (m : Message) (before : option Message) (v : Message) : Prop :=
  match before with
  | Some b => v = update_content m b
  | None => exists n now, v = set_identity n now m
  end.

Lemma insert_loop_content env ms : forall s n k s' r,
  mem_storage_inv s -> Forall (fun m => plain_queue (Queue m)) ms -> NoDup (msg_key <$> ms) ->
  insert_loop env ms s n k = (s', (r, None)) ->
  forall m, m ∈ ms -> exists v, mem_stored s' (Queue m) (ID m) = Some v /\
    inserted_doc m (mem_stored s (Queue m) (ID m)) v.
Proof.
  induction ms as [|m0 ms IH]; intros s n k s' r Hs Hms Hnd Hl m Hm; [set_solver|].
  apply Forall_cons in Hms as [Hm0 Hms]. rewrite fmap_cons in Hnd. apply NoDup_cons in Hnd as [Hnin Hnd].
  (* the state after the first message is the one of inserting it alone *)
  assert (H1 : exists s1 n1 k1, insert_loop env [m0] s 0 0 = (s1, ((n1, k1), None)) /\
    insert_loop env ms s1 (n + n1) (k + k1) = (s', (r, None)) /\
    exists v, mem_stored s1 (Queue m0) (ID m0) = Some v /\
      inserted_doc m0 (mem_stored s (Queue m0) (ID m0)) v).
  { simpl in Hl |- *. destruct (String.eqb (Queue m0) ""); [done|].
    destruct (String.eqb (ID m0) ""); [done|].
    destruct (docs s !! getKey m0) as [b|] eqn:Eb.
    - do 3 eexists. split; [done|]. split; [by rewrite Z.add_0_r|].
      pose proof (doc_at_key _ _ _ Hs Hm0 Eb) as Hst. rewrite Hst.
      pose proof Hst as (_ & Hq & Hi)%mem_stored_Some.
      exists (update_content m0 b). split; [|done]. apply mem_stored_Some. simpl.
      split; [|done]. replace (getKey (update_content m0 b)) with (getKey m0)
        by (unfold getKey; simpl; congruence). apply lookup_insert_eq.
    - do 3 eexists. split; [done|]. split; [by rewrite Z.add_0_r|].
      rewrite (no_doc_at_key _ _ Eb). eexists. split; [|by do 2 eexists].
      apply mem_stored_Some. split; [|done]. apply lookup_insert_eq. }
  destruct H1 as (s1 & n1 & k1 & Hl1 & Hl2 & v & Hv & Hdoc).
  apply insert_loop_spec in Hl1 as (Hs1 & _ & _ & Hother & _); [|done|by repeat constructor].
  apply elem_of_cons in Hm as [->|Hm].
  - exists v. split; [|done]. apply insert_loop_spec in Hl2 as (_ & _ & _ & Hrest & _); [|done..].
    by rewrite Hrest.
  - destruct (IH _ _ _ _ _ Hs1 Hms Hnd Hl2 m Hm) as (v' & Hv' & Hd').
    exists v'. split; [done|]. rewrite <- Hother; [done|]. simpl.
    intros [E|?]%elem_of_cons; [|set_solver]. apply Hnin. rewrite <- E.
    by apply (list_elem_of_fmap_2 msg_key).
Qed.


(** ** The contract *)

#[export] Instance MemoryStorage_spec : StorageSpec MemoryStorage.
Proof.
  refine {|
    storage_inv := mem_storage_inv;
    queue_name_ok := plain_queue;
    stored := mem_stored;
    config := fun s q => configurations s !! q;
    storage_hides := true;
    view := fun _ m => m;
    kept_time := fun t => t
  |}.
  - intros s q i m [Hd _] (Hm & <- & <-)%mem_stored_Some.
    destruct (Hd _ _ Hm) as (_ & ? & ? & _). done.
  - intros env ms s s' n k Hs Hms H.
    pose proof H as (H1 & H2 & H3 & H4 & _ & H6)%insert_loop_spec; [|done..].
    apply insert_loop_counts in H as (? & ?); [|done..].
    specialize (H3 eq_refl). simpl in H3. split_and!; [done|by intros; rewrite H2|lia|lia|lia|done|]. intros m Hm.
    destruct (H6 eq_refl m Hm) as [m' ?]. by exists m'.
  - intros env ms s s' n k Hs Hms Hnd H m Hm.
    destruct (insert_loop_content _ _ _ _ _ _ _ Hs Hms Hnd H m Hm) as (v & Hv & Hd). exists v. split; [done|].
    unfold inserted_doc in Hd. destruct (mem_stored s _ _); [by subst v|]. by destruct Hd as (? & ? & ->).
  - intros env ms s s' [r err] Hs Hms H. by apply insert_loop_spec in H as (H1 & _).
  - intros env opt s Hs _. by apply Find_returns, inv_typed.
  - done.
  - done.
  - done.
  - done.
  - intros env opt s ms Hs Hb _ _ Hf. exists ms. rewrite list_fmap_id. split; [done|].
    destruct (Find_selects _ _ _ _ Hs Hb Hf) as (? & ? & ? & ?). split; [done..|].
    intros key. by apply (Find_sorted env opt s ms key).
  - intros env q ids s s' n Hs H. apply Remove_removes in H as (_ & H1 & H2 & H3 & H4); [|done].
    split_and!; [done|by intros; rewrite H2|done|done].
  - intros env q ids s s' n e Hs H. by apply Remove_removes in H as [? _].
  - intros env m s s' n Hs Hq H. apply Ack_replaces in H as (_ & H1 & H2 & _ & H3 & H4); [|done..].
    split_and!; [done|by intros; rewrite H2|done|]. rewrite H4.
    destruct (mem_stored s (Queue m) (ID m)) as [v|]; simpl; [|done]. exists (acked m v).
    split_and!; try done. simpl. by destruct (LastUsage m).
  - intros env m s s' n Hs Hq H. apply Nack_replaces in H as (_ & H1 & H2 & _ & H3 & H4); [|done..].
    split_and!; [done|by intros; rewrite H2|done|]. rewrite H4.
    destruct (mem_stored s (Queue m) (ID m)) as [v|]; simpl; [|done]. by exists (nacked m v).
  - intros env opt copt s n. apply Count_counts.
  - intros env cfg s s' Hs H. apply EditQueueConfiguration_edits in H as (_ & H1 & H2 & H3); [|done].
    split_and!; [done| |done]. intros q i. unfold mem_stored. by rewrite H2.
  - intros env cfg s s' e Hs H. by apply EditQueueConfiguration_edits in H as (? & _).
  - intros env q s c Hs [= <-]. done.
  - intros s q c [_ Hc] Hq. by apply Hc in Hq.
  - intros env s l [_ Hc] [= <-]. split.
    + rewrite <- list_fmap_compose.
      erewrite list_fmap_ext with (g := fst); [apply NoDup_map_range_fst|].
      intros j [q c] Hj%list_elem_of_lookup_2. apply elem_of_map_range in Hj. simpl. by apply Hc in Hj as [? _].
    + intros c. rewrite list_elem_of_fmap. split.
      * intros ([q c'] & -> & H%elem_of_map_range). simpl. by rewrite (proj1 (Hc _ _ H)).
      * intros H. exists (cfg_Queue c, c). split; [done|]. by apply elem_of_map_range.
  - intros env s s' n _ [= <- _]. split_and!; [split; apply map_Forall_empty|done|done].
Defined.

Lemma memory_shown env m : shown MemoryStorage env m <-> ~ expired env m.
Proof. unfold shown. simpl. tauto. Qed.

#[export] Instance MemoryStorage_content : InsertContent MemoryStorage.
Proof.
  refine {| overwrites_empty := true; keeps_timeless := true |}.
  intros env ms s s' n k Hs Hms Hnd H m Hm.
  destruct (insert_loop_content _ _ _ _ _ _ _ Hs Hms Hnd H m Hm) as (v & Hv & Hd). exists v. split; [done|].
  unfold inserted_doc in Hd. unfold stored, MemoryStorage_spec.
  destruct (mem_stored s _ _) as [b|]; [subst v|destruct Hd as (? & ? & ->)]; by repeat split.
Defined.
