(* ===== verification/StorageProps.v ===== *)
(** * Properties of the memory storage

    The type assertions of the storage never fail and its internal ids are
    unique, over histories; queries are exact; the counters of the
    diagnostics; the limits of the keys and of the counts. *)

From S2P Require Import Prelude Float64 Dtime Utils Message Storage MemoryStorage.
From S2P Require Import MemoryStorageFacts Fixtures.
#[local] Open Scope string_scope.
#[local] Open Scope list_scope.
#[local] Open Scope Z_scope.

(** ** Histories *)

(** The calls that change the storage. *)
Inductive storage_op :=
  | StInsert (messages : list Message)
  | StRemove (queue : string) (ids : list string)
  | StAck (m : Message)
  | StNack (m : Message)
  | StEdit (cfg : QueueConfiguration)
  | StFlush.

Definition run_storage_op (env : Env) (op : storage_op) (s : MemoryStorage) : MemoryStorage :=
  match op with
  | StInsert messages => (Insert env messages s).1
  | StRemove queue ids => (Remove env queue ids s).1
  | StAck m => (Ack m s).1
  | StNack m => (Nack m s).1
  | StEdit cfg => (EditQueueConfiguration cfg s).1
  | StFlush => (Flush s).1
  end.

Definition run_storage_ops (h : list (Env * storage_op)) (s : MemoryStorage) : MemoryStorage :=
  foldl (fun s x => run_storage_op x.1 x.2 s) s h.

(** The number of messages a history inserts. *)
Definition inserted_by (h : list (Env * storage_op)) : nat :=
  sum_list (map (fun x => match x.2 with StInsert ms => length ms | _ => 0%nat end) h).

(** Every internal id is an [int64] between 1 and the counter, and no two
    documents share one. *)
Definition ids_unique (s : MemoryStorage) : Prop :=
  0 <= internalCounter s /\
  map_Forall (fun _ m => exists n, InternalId m = IdInt64 n /\ 1 <= n <= internalCounter s) (docs s) /\
  forall k k' m m', docs s !! k = Some m -> docs s !! k' = Some m' ->
    InternalId m = InternalId m' -> k = k'.

(** Replacing documents by documents with the same internal id, or removing
    them, keeps the ids unique. *)
Lemma ids_unique_sub s s' :
  ids_unique s -> internalCounter s' = internalCounter s ->
  (forall k m', docs s' !! k = Some m' ->
     exists m, docs s !! k = Some m /\ InternalId m' = InternalId m) ->
  ids_unique s'.
Proof.
  intros (H0 & H1 & H2) Hc Hsub. split; [by rewrite Hc|]. split.
  - intros k m' Hm'. destruct (Hsub _ _ Hm') as (m & Hm & ->). rewrite Hc. by eapply H1.
  - intros k k' m m' Hm Hm' E. destruct (Hsub _ _ Hm) as (v & Hv & Ev).
    destruct (Hsub _ _ Hm') as (v' & Hv' & Ev'). eapply H2; [done..|]. congruence.
Qed.

Lemma ids_unique_replace s k v v' :
  ids_unique s -> docs s !! k = Some v -> InternalId v' = InternalId v ->
  ids_unique (with_docs (<[k := v']> (docs s)) s).
Proof.
  intros Hs Hv E. eapply ids_unique_sub; [exact Hs|done|]. intros k' m' Hm'. simpl in Hm'.
  destruct (decide (k = k')) as [<-|Hne].
  - rewrite lookup_insert_eq in Hm'. injection Hm' as <-. by exists v.
  - rewrite lookup_insert_ne in Hm' by done. by exists m'.
Qed.

Lemma ids_unique_new s k m :
  ids_unique s -> docs s !! k = None -> internalCounter s < max_int64 ->
  ids_unique {| docs := <[k := set_identity (internalCounter s + 1) m.1 m.2]> (docs s);
                configurations := configurations s; internalCounter := internalCounter s + 1 |}.
Proof.
  intros (H0 & H1 & H2) Hk Hc. split; [simpl; lia|]. split; simpl.
  - apply map_Forall_insert_2; [by eexists; split; [done|lia]|].
    intros k' m' Hm'. destruct (H1 _ _ Hm') as (n & ? & ?). exists n. split; [done|lia].
  - intros k1 k2 m1 m2.
    destruct (decide (k = k1)) as [<-|N1], (decide (k = k2)) as [<-|N2];
      rewrite ?lookup_insert_eq, ?lookup_insert_ne by done; [done| | |by eauto].
    + intros [= <-] Hm2 E. destruct (H1 _ _ Hm2) as (n & En & Hn). simpl in E.
      rewrite En in E. injection E as <-. lia.
    + intros Hm1 [= <-] E. destruct (H1 _ _ Hm1) as (n & En & Hn). simpl in E.
      rewrite En in E. injection E as ->. lia.
Qed.

Lemma insert_loop_unique env ms : forall s n k,
  ids_unique s -> internalCounter s + Z.of_nat (length ms) <= max_int64 ->
  ids_unique (insert_loop env ms s n k).1 /\
  internalCounter (insert_loop env ms s n k).1 <= internalCounter s + Z.of_nat (length ms).
Proof.
  induction ms as [|m ms IH]; intros s n k Hs Hc; cbn [insert_loop length fst] in *; [split; [done|lia]|].
  do 2 (case_if; [split; [done|cbn [fst]; lia]|]).
  destruct (docs s !! getKey m) as [v|] eqn:Ed.
  - edestruct (IH (with_docs (<[getKey m := update_content m v]> (docs s)) s)) as [Hu Hle];
      [by eapply ids_unique_replace|cbn [internalCounter with_docs]; lia|split; [exact Hu|cbn [internalCounter with_docs] in Hle; lia]].
  - destruct Hs as [H0 Hs]. rewrite wrap64_id by (unfold is_int64, min_int64, max_int64 in *; lia).
    edestruct IH as [Hu Hle]; [| |split; [exact Hu|etransitivity; [exact Hle|cbn [internalCounter]; lia]]];
      [|cbn [internalCounter]; lia].
    apply (ids_unique_new s (getKey m) (Now env, m)); [done|done|lia].
Qed.

Lemma run_storage_op_unique env op s :
  ids_unique s ->
  internalCounter s + Z.of_nat (match op with StInsert ms => length ms | _ => 0%nat end) <= max_int64 ->
  ids_unique (run_storage_op env op s) /\
  internalCounter (run_storage_op env op s) <=
    internalCounter s + Z.of_nat (match op with StInsert ms => length ms | _ => 0%nat end).
Proof.
  intros Hs Hc. destruct op as [ms|q ids|m|m|cfg|]; cbn [run_storage_op].
  - by apply insert_loop_unique.
  - destruct (Remove env q ids s) as [s' [n err]] eqn:E. simpl.
    assert (Hcnt : internalCounter s' = internalCounter s).
    { unfold Remove in E. destruct (remove_loop _ _ _ _ _). by simplify_eq. }
    split; [|lia]. eapply ids_unique_sub; [exact Hs|done|]. intros k m' Hm'.
    destruct (docs s !! k) as [m|] eqn:Em; [|by rewrite (Remove_docs_sub _ _ _ _ _ _ _ _ E Em) in Hm'].
    rewrite (Remove_docs _ _ _ _ _ _ _ _ _ E Em) in Hm'. exists m.
    destruct (removed_b q ids m); by simplify_eq.
  - unfold Ack. destruct (docs s !! getKey m) as [v|] eqn:Em; simpl; [|split; [done|lia]].
    split; [|lia]. by eapply ids_unique_replace.
  - unfold Nack. destruct (docs s !! getKey m) as [v|] eqn:Em; simpl; [|split; [done|lia]].
    split; [|lia]. by eapply ids_unique_replace.
  - unfold EditQueueConfiguration. case_if; simpl; (split; [|lia]); [done|].
    eapply ids_unique_sub; [exact Hs|done|]. simpl. eauto.
  - simpl. split; [|lia]. eapply ids_unique_sub; [exact Hs|done|]. simpl. intros k m'.
    by rewrite lookup_empty.
Qed.

Lemma run_storage_ops_unique h : forall s,
  ids_unique s -> internalCounter s + Z.of_nat (inserted_by h) <= max_int64 ->
  ids_unique (run_storage_ops h s).
Proof.
  induction h as [|[env op] h IH]; intros s Hs Hc; [done|]. unfold inserted_by in Hc. simpl in Hc.
  rewrite Nat2Z.inj_add in Hc.
  destruct (run_storage_op_unique env op s Hs) as [Hu Hle]; [lia|].
  apply (IH (run_storage_op env op s)); [done|]. unfold inserted_by. lia.
Qed.

Lemma NewMemoryStorage_unique : ids_unique NewMemoryStorage.
Proof. split; [done|]. split; [apply map_Forall_empty|]. intros k k' m m' Hm. done. Qed.

Lemma ids_unique_typed s : ids_unique s -> docs_typed s.
Proof. intros (_ & H & _) k m Hm. destruct (H _ _ Hm) as (n & ? & _). by exists n. Qed.

(** After any history that inserts fewer than 2^63 messages in a new
    memory storage, whatever the queue names, no two messages share an internal
    id and every type assertion on the internal ids succeeds: [Find] and
    [Count] return, without a panic, for any options. *)
Theorem memory_storage_never_panics h
    (Hbound : Z.of_nat (inserted_by h) <= max_int64) :
  let s := run_storage_ops h NewMemoryStorage in
  ids_unique s /\
  (forall env opt, exists r, Find env opt s = Ret r) /\
  (forall m k, docs s !! k = Some m -> exists t, GetStringInternalId m = Ret t /\ t <> "").
Proof.
  intros s. assert (Hu : ids_unique s).
  { apply run_storage_ops_unique; [apply NewMemoryStorage_unique|]. simpl. lia. }
  split; [done|]. pose proof (ids_unique_typed s Hu) as Ht. split.
  - intros env opt. by apply Find_returns.
  - intros m k Hm. destruct (Ht _ _ Hm) as [n En]. unfold GetStringInternalId, internal_int64.
    rewrite En. simpl. eexists. split; [done|]. apply FormatInt_not_empty.
Qed.

Definition storage_history : list (Env * storage_op) :=
  [ (at_ms 1000, StInsert [msg "q" "a" 10 0; msg "q" "b" 5 0]);
    (at_ms 2000, StRemove "q" ["a"]);
    (at_ms 2500, StInsert [msg "q" "b" 7 0; msg "q" "c" 1 0]);
    (at_ms 3000, StAck (msg "q" "b" 3 0)) ].

Lemma memory_storage_never_panics_witness :
  (InternalId <$> docs (run_storage_ops storage_history NewMemoryStorage) !! "q:c") = Some (IdInt64 3) /\
  exists r, Find (at_ms 4000) None (run_storage_ops storage_history NewMemoryStorage) = Ret r.
Proof.
  split; [reflexivity|].
  apply (memory_storage_never_panics storage_history). vm_compute. discriminate.
Defined.

(** ** Queries *)

Lemma NewMemoryStorage_inv : mem_storage_inv NewMemoryStorage.
Proof. split; apply map_Forall_empty. Qed.

(** The query of the service for one message. *)
Definition by_id (queue i : string) : FindOptions := {|
  Projection := None; Sort := None; Limit := 1;
  opt_InternalFilter := Some {| InternalIdBreakpointGt := ""; InternalIdBreakpointLte := "";
    Ids := Some [i]; f_Queue := queue; f_QueuePrefix := ""; f_ExpiryDate := None |};
  Retry := false; Comment := ""
|}.

(** A query by queue and id finds exactly the message stored there. *)
Lemma Find_by_id env q i s v :
  mem_storage_inv s -> mem_stored s q i = Some v -> ~ expired env v ->
  Find env (Some (by_id q i)) s = Ret ([v], None).
Proof.
  intros Hs Hv Hexp.
  rewrite Find_ok by (done || (split; by left)). set (ms := limit_found _ _).
  destruct (Find_selects env (Some (by_id q i)) s ms Hs) as (Hnd & Hall & Hlim & Hcomp);
    [done|rewrite Find_ok by (done || (split; by left)); done|].
  clearbody ms.
  pose proof Hv as (_ & Hq & Hi)%mem_stored_Some.
  assert (Hsel : selected true env (opt_filter (Some (by_id q i))) v).
  { split; [|by right]. simpl. rewrite Hi. split_and!; auto. set_solver. }
  assert (Hkey : forall m, m ∈ ms -> m = v).
  { intros m Hm. rewrite Forall_forall in Hall. destruct (Hall _ Hm) as [Hm1 [(Hm2 & _ & Hm3 & _) _]].
    simpl in Hm2, Hm3. apply list_elem_of_singleton in Hm3.
    destruct Hm2 as [Hm2|Hm2]; [|congruence].
    destruct Hs as [Hd _]. apply mem_stored_Some in Hv as (Hv & _). destruct (Hd _ _ Hv) as (_ & ? & _).
    congruence. }
  assert (Hin : v ∈ ms).
  { destruct (decide (ms = [])) as [E|E].
    - subst ms. exfalso. destruct (Hcomp q i v Hv Hsel) as [_ Hlen]; [set_solver|]. simpl in Hlen. lia.
    - destruct ms as [|m ms']; [done|]. rewrite (Hkey m) by set_solver. set_solver. }
  destruct ms as [|m [|m' ms']]; [set_solver|by rewrite (Hkey m) by set_solver|].
  simpl in Hlim. lia.
Qed.

(** A message can be read back after it is added: when an insertion
    succeeds, a query by queue and id returns, for each message inserted, one
    message with its content; its score is the one added if the message is
    new, and the one stored before otherwise. *)
Theorem Insert_Find_roundtrip env env' ms s s' r m
    (Hs : mem_storage_inv s) (Hq : Forall (fun m => plain_queue (Queue m)) ms)
    (Hkeys : NoDup (msg_key <$> ms)) (Hm : m ∈ ms)
    (Hinsert : Insert env ms s = (s', (r, None)))
    (Hlive : Timeless m = true /\ mem_stored s (Queue m) (ID m) = None \/ Now env' < ExpiryDate m) :
  exists v, Find env' (Some (by_id (Queue m) (ID m))) s' = Ret ([v], None) /\
    Description v = Description m /\ ExpiryDate v = ExpiryDate m /\ Metadata v = Metadata m /\
    Payload v = Payload m /\ StringPayload v = StringPayload m /\
    Score v = match mem_stored s (Queue m) (ID m) with None => Score m | Some b => Score b end.
Proof.
  destruct (insert_loop_content _ _ _ _ _ _ _ Hs Hq Hkeys Hinsert m Hm) as (v & Hv & Hdoc).
  apply insert_loop_spec in Hinsert as (Hs' & _); [|done..].
  exists v. unfold inserted_doc in Hdoc.
  split; [apply Find_by_id; [done..|]|].
  - unfold expired. destruct (mem_stored s (Queue m) (ID m)) as [b|]; [subst v|destruct Hdoc as (? & ? & ->)];
      simpl; intros [Ht He]; destruct Hlive as [[? ?]|?]; try done; try lia. congruence.
  - destruct (mem_stored s (Queue m) (ID m)) as [b|]; [subst v|destruct Hdoc as (? & ? & ->)]; done.
Qed.

Lemma Insert_Find_roundtrip_witness :
  let m := msg "q" "a" 10 0 in
  exists s' v, Insert (at_ms 1000) [m; msg "q" "b" 5 0] NewMemoryStorage = (s', ((2, 0), None)) /\
    Find (at_ms 2000) (Some (by_id "q" "a")) s' = Ret ([v], None) /\ Score v = Score m.
Proof.
  intros m.
  destruct (Insert_Find_roundtrip (at_ms 1000) (at_ms 2000) [m; msg "q" "b" 5 0] NewMemoryStorage
    (Insert (at_ms 1000) [m; msg "q" "b" 5 0] NewMemoryStorage).1 (2, 0) m) as (v & Hf & _ & _ & _ & _ & _ & Hs).
  - apply NewMemoryStorage_inv.
  - repeat constructor; unfold plain_queue; vm_compute; intros H; by apply elem_of_cons in H as [?|?%elem_of_nil].
  - repeat constructor; vm_compute; [intros H; by apply elem_of_cons in H as [?|?%elem_of_nil]|by intros ?%elem_of_nil].
  - constructor.
  - reflexivity.
  - right. vm_compute. reflexivity.
  - do 2 eexists. split; [reflexivity|]. split; [exact Hf|exact Hs].
Defined.

(** ** Diagnostics *)

(** The four counters of a message, a missing one read as 0. *)
Definition counters (m : Message) : Z * Z * Z * Z :=
  let get f := default 0 (d ← Diagnostics m; f d) in
  (get Acks, get Nacks, get ConsecutiveAcks, get ConsecutiveNacks).

(** Acks ([true]) and nacks ([false]) of the message [m], in order. *)
Definition ack_nack (h : list bool) (m : Message) (s : MemoryStorage) : MemoryStorage :=
  foldl (fun s b => if b : bool then (Ack m s).1 else (Nack m s).1) s h.

(** What the counters should be after a sequence of acks and nacks. *)
Definition count_step (c : Z * Z * Z * Z) (b : bool) : Z * Z * Z * Z :=
  let '(a, n, ca, cn) := c in
  if b then (a + 1, n, ca + 1, 0) else (a, n + 1, 0, cn + 1).

Lemma setDiagnosticsStruct_counters m :
  let d := setDiagnosticsStruct m in
  Acks d = Some (counters m).1.1.1 /\ Nacks d = Some (counters m).1.1.2 /\
  ConsecutiveAcks d = Some (counters m).1.2 /\ ConsecutiveNacks d = Some (counters m).2.
Proof. unfold setDiagnosticsStruct, counters. by destruct (Diagnostics m). Qed.

Definition small (bound : Z) (c : Z * Z * Z * Z) : Prop :=
  let '(a, n, ca, cn) := c in
  0 <= a <= bound /\ 0 <= n <= bound /\ 0 <= ca <= bound /\ 0 <= cn <= bound.

Lemma increment_small n : 0 <= n < max_int64 -> increment (Some n) = Some (n + 1).
Proof.
  intros Hn. unfold increment. simpl. rewrite wrap64_id; [done|].
  unfold is_int64, min_int64, max_int64 in *. lia.
Qed.

Lemma acked_counters m v bound :
  small bound (counters v) -> bound < max_int64 ->
  counters (acked m v) = count_step (counters v) true /\
  counters (nacked m v) = count_step (counters v) false.
Proof.
  intros Hs Hb. destruct (counters v) as [[[a n] ca] cn] eqn:E. simpl in Hs.
  assert (Ha : counters (set_ack m v) = (a, n, ca, cn)) by exact E.
  assert (Hn : counters (set_nack m v) = (a, n, ca, cn)) by exact E.
  destruct (setDiagnosticsStruct_counters (set_ack m v)) as (A1 & A2 & A3 & A4).
  destruct (setDiagnosticsStruct_counters (set_nack m v)) as (N1 & N2 & N3 & N4).
  rewrite Ha in A1, A2, A3, A4. rewrite Hn in N1, N2, N3, N4. simpl in *.
  unfold acked, nacked. rewrite A1, A2, A3, N1, N2, N4, !increment_small by lia. done.
Qed.

(** The diagnostics of a stored message count its acks and nacks: after
    any sequence of acks and nacks of a message, the two totals have grown by
    the number of each, and the consecutive counters hold the length of the
    current run, the other one being 0 (no counter wraps below 2^63). *)
Theorem diagnostics_count h m s v
    (Hs : mem_storage_inv s) (Hq : plain_queue (Queue m))
    (Hv : mem_stored s (Queue m) (ID m) = Some v)
    (Hb : small (max_int64 - Z.of_nat (length h)) (counters v)) :
  exists v', mem_stored (ack_nack h m s) (Queue m) (ID m) = Some v' /\
    counters v' = foldl count_step (counters v) h.
Proof.
  revert s v Hs Hv Hb. induction h as [|b h IH]; intros s v Hs Hv Hb; [by exists v|].
  cbn [length] in Hb. rewrite Nat2Z.inj_succ in Hb.
  destruct (acked_counters m v _ Hb ltac:(lia)) as [Ha Hn].
  assert (Hstep : forall s1 v1, mem_storage_inv s1 -> mem_stored s1 (Queue m) (ID m) = Some v1 ->
    counters v1 = count_step (counters v) b ->
    exists v', mem_stored (ack_nack h m s1) (Queue m) (ID m) = Some v' /\
      counters v' = foldl count_step (count_step (counters v) b) h).
  { intros s1 v1 Hs1 Hv1 Hc. destruct (IH s1 v1 Hs1 Hv1) as (v' & ? & Hv'); [|exists v'; by rewrite <- Hc].
    rewrite Hc. destruct (counters v) as [[[a n] ca] cn]. destruct b; simpl in *; lia. }
  destruct b; simpl.
  - destruct (Ack m s) as [s1 [k e]] eqn:E. apply Ack_replaces in E as (_ & Hs1 & _ & _ & _ & Hst); [|done..].
    rewrite Hv in Hst. by apply (Hstep s1 (acked m v)).
  - destruct (Nack m s) as [s1 [k e]] eqn:E. apply Nack_replaces in E as (_ & Hs1 & _ & _ & _ & Hst); [|done..].
    rewrite Hv in Hst. by apply (Hstep s1 (nacked m v)).
Qed.

Lemma diagnostics_count_witness :
  let s := (Insert (at_ms 1000) [msg "q" "a" 10 0] NewMemoryStorage).1 in
  exists v', mem_stored (ack_nack [true; true; false; true] (msg "q" "a" 3 0) s) "q" "a" = Some v' /\
    counters v' = (3, 1, 1, 0).
Proof.
  intros s. apply (diagnostics_count [true; true; false; true] (msg "q" "a" 3 0) s
    (set_identity 1 (Now (at_ms 1000)) (msg "q" "a" 10 0))).
  - split; [|apply map_Forall_empty]. apply map_Forall_singleton. split_and!; [done|done|done| |].
    + vm_compute. intros H. by apply elem_of_cons in H as [?|?%elem_of_nil].
    + by eexists.
  - vm_compute. intros H. by apply elem_of_cons in H as [?|?%elem_of_nil].
  - reflexivity.
  - vm_compute. intuition discriminate.
Defined.

(** ** Keys *)

(** The key of a message does not tell its queue from its id: two messages
    of different queues whose queue names and ids join to the same text share
    one place.  Adding the second is reported as an update of the first, whose
    content it overwrites; the second is not stored. *)
Theorem key_collision env x y z m m' s
    (Hx : x <> "") (Hz : z <> "") 
    (Hm : Queue m = String.append x (String.append ":" y) /\ ID m = z)
    (Hm' : Queue m' = x /\ ID m' = String.append y (String.append ":" z))
    (Hnew : docs s !! getKey m = None) :
  exists s1 s2 v,
    Insert env [m] s = (s1, ((1, 0), None)) /\ Insert env [m'] s1 = (s2, ((0, 1), None)) /\
    mem_stored s2 (Queue m) (ID m) = Some v /\ StringPayload v = StringPayload m' /\
    mem_stored s2 (Queue m') (ID m') = None.
Proof.
  destruct Hm as [Hq Hi], Hm' as [Hq' Hi'].
  assert (Happ : forall c s, String.append (String c "") s = String c s) by done.
  assert (Hassoc : forall a b c, String.append (String.append a b) c = String.append a (String.append b c)).
  { intros a b c. induction a as [|ch a IH]; [done|].
    change (String ch (String.append (String.append a b) c) =
            String ch (String.append a (String.append b c))). by rewrite IH. }
  assert (Hk : getKey m' = getKey m).
  { unfold getKey. rewrite Hq, Hi, Hq', Hi', !Hassoc. done. }
  assert (Hne : forall a b, b <> "" -> String.append a b <> "") by (intros [] []; done).
  assert (Hqm : Queue m <> "") by (rewrite Hq; apply Hne; done).
  assert (Him' : ID m' <> "") by (rewrite Hi'; apply Hne; done).
  assert (Hqne : Queue m <> Queue m').
  { rewrite Hq, Hq'. clear. induction x as [|c x IH]; [done|].
    change (String c (String.append x (String.append ":" y)) <> String c x). congruence. }
  unfold Insert. do 2 eexists.
  exists (update_content m' (set_identity (wrap64 (internalCounter s + 1)) (Now env) m)).
  split; [|split; [|split; [|split]]].
  - cbn [insert_loop]. rewrite !(proj2 (String.eqb_neq _ _)) by congruence. rewrite Hnew. reflexivity.
  - cbn [insert_loop docs]. rewrite !(proj2 (String.eqb_neq _ _)) by congruence.
    rewrite Hk, lookup_insert_eq. reflexivity.
  - apply mem_stored_Some. simpl. split; [|done].
    exact (lookup_insert_eq _ (getKey m) _).
  - done.
  - unfold mem_stored.
    replace (String.append (Queue m') (String.append ":" (ID m'))) with (getKey m) by exact (eq_sym Hk).
    simpl. rewrite lookup_insert_eq. simpl. by rewrite (proj2 (String.eqb_neq _ _)).
Qed.

Lemma key_collision_witness :
  exists s1 s2 v,
    Insert (at_ms 0) [msg "a:b" "c" 1 0] NewMemoryStorage = (s1, ((1, 0), None)) /\
    Insert (at_ms 0) [msg "a" "b:c" 1 0] s1 = (s2, ((0, 1), None)) /\
    mem_stored s2 "a:b" "c" = Some v /\ StringPayload v = "" /\ mem_stored s2 "a" "b:c" = None.
Proof.
  apply (key_collision (at_ms 0) "a" "b" "c" (msg "a:b" "c" 1 0) (msg "a" "b:c" 1 0)); try done.
Defined.
