(* ===== verification/Goroutines.v ===== *)
(** * Goroutines over a shared memory and a read-write lock

    What Go gives to the methods of a component that keeps its data behind a
    [sync.RWMutex]: goroutines whose accesses interleave, and the lock.  The
    reduction: when every access is made under the lock, a run is one in which
    each critical section runs as a whole, at the moment the lock is taken. *)

From S2P Require Import Prelude.
#[local] Open Scope Z_scope.

(** ** Programs *)

Section Goroutines.
Context {M R : Type}.

(** A goroutine from its next access to what is shared: an access to the
    memory, a call of a method of the lock, or its end.  [Lock] has two parts:
    the writer announces itself, which keeps new readers out, and then waits
    for the readers to leave ([Locking]). *)
Inductive Prog : Type :=
  | Return (r : R)
  | RLock (k : Prog)
  | RUnlock (k : Prog)
  | Lock (k : Prog)
  | Locking (k : Prog)
  | Unlock (k : Prog)
  | Access {X : Type} (f : M -> outcome (M * X)) (k : X -> Prog).

(** The memory, the holders of the lock ([writer] from its announcement on),
    and the goroutines. *)
Record Process := {
  memory : M;
  readers : gset nat;
  writer : option nat;
  goroutines : list Prog
}.

Definition start (m : M) (ps : list Prog) : Process :=
  {| memory := m; readers := ∅; writer := None; goroutines := ps |}.

(** The next access of the [i]-th goroutine; one that is over or has to wait
    for the lock does nothing.  A panic ends the process. *)
Definition step (i : nat) (w : Process) : outcome Process :=
  match goroutines w !! i with
  | None | Some (Return _) => Ret w
  | Some (RLock k) =>
      match writer w with
      | Some _ => Ret w
      | None => Ret {| memory := memory w; readers := {[i]} ∪ readers w; writer := None;
                       goroutines := <[i := k]> (goroutines w) |}
      end
  | Some (RUnlock k) =>
      Ret {| memory := memory w; readers := readers w ∖ {[i]}; writer := writer w;
             goroutines := <[i := k]> (goroutines w) |}
  | Some (Lock k) =>
      match writer w with
      | Some _ => Ret w
      | None => Ret {| memory := memory w; readers := readers w; writer := Some i;
                       goroutines := <[i := Locking k]> (goroutines w) |}
      end
  | Some (Locking k) =>
      if decide (readers w = ∅) then
        Ret {| memory := memory w; readers := readers w; writer := writer w;
               goroutines := <[i := k]> (goroutines w) |}
      else Ret w
  | Some (Unlock k) =>
      Ret {| memory := memory w; readers := readers w; writer := None;
             goroutines := <[i := k]> (goroutines w) |}
  | Some (Access f k) =>
      obind (f (memory w)) (fun '(m, x) =>
        Ret {| memory := m; readers := readers w; writer := writer w;
               goroutines := <[i := k x]> (goroutines w) |})
  end.

(** A schedule names the goroutine of each step. *)
Fixpoint run (schedule : list nat) (w : Process) : outcome Process :=
  match schedule with
  | [] => Ret w
  | i :: schedule' => obind (step i w) (run schedule')
  end.

(** Every goroutine has returned. *)
Definition over (ps : list Prog) : Prop := Forall (fun p => exists r, p = Return r) ps.

(** ** Critical sections as one step *)

(** The rest of a critical section, run at once: the memory at the end of the
    section and the goroutine after it.  Outside of a section, nothing. *)
Fixpoint finish (p : Prog) (m : M) : outcome (M * Prog) :=
  match p with
  | Access f k => obind (f m) (fun '(m', x) => finish (k x) m')
  | RUnlock k | Unlock k => Ret (m, k)
  | Locking k => Ret (m, Lock k)
  | Return _ | RLock _ | Lock _ => Ret (m, p)
  end.

(** The memory and the goroutines, between critical sections. *)
Abbreviation Sections := (M * list Prog)%type.

Definition section_step (i : nat) (u : Sections) : outcome Sections :=
  match u.2 !! i with
  | Some (RLock k) | Some (Lock k) =>
      obind (finish k u.1) (fun '(m, q) => Ret (m, <[i := q]> u.2))
  | _ => Ret u
  end.

(** ** The discipline *)

Inductive Mode := Out | Reading | Waiting | Writing.

(** A program that accesses the memory under the lock only, and writes under
    the lock of the writers only. *)
Fixpoint disciplined (md : Mode) (p : Prog) : Prop :=
  match md, p with
  | Out, Return _ => True
  | Out, RLock k => disciplined Reading k
  | Out, Lock k => disciplined Writing k
  | Reading, RUnlock k => disciplined Out k
  | Reading, Access f k => forall m m' x, f m = Ret (m', x) -> m' = m /\ disciplined Reading (k x)
  | Waiting, Locking k => disciplined Writing k
  | Writing, Unlock k => disciplined Out k
  | Writing, Access f k => forall m m' x, f m = Ret (m', x) -> disciplined Writing (k x)
  | _, _ => False
  end.

(** What the [i]-th goroutine, [p], holds. *)
Definition mode (w : Process) (i : nat) (p : Prog) : Mode :=
  if decide (i ∈ readers w) then Reading
  else if decide (writer w = Some i) then
    match p with Locking _ => Waiting | _ => Writing end
  else Out.

Record wf (w : Process) : Prop := {
  wf_mode : forall i p, goroutines w !! i = Some p -> disciplined (mode w i p) p;
  wf_writer : forall i p, goroutines w !! i = Some p -> mode w i p = Writing -> readers w = ∅;
  wf_readers : forall i, writer w = Some i -> (i ∉ readers w) /\ is_Some (goroutines w !! i)
}.

(** The process between sections that a process stands for. *)
Record settled (w : Process) (u : Sections) : Prop := {
  st_threads : forall i, match goroutines w !! i with
    | Some p => exists q, u.2 !! i = Some q /\
        finish p (memory w) = Ret (if decide (writer w = Some i) then u.1 else memory w, q)
    | None => u.2 !! i = None
    end;
  st_memory : writer w = None -> u.1 = memory w
}.

(** A goroutine is in a section that ends in a panic. *)
Definition doomed (w : Process) : Prop :=
  exists i p msg, goroutines w !! i = Some p /\ (mode w i p = Reading \/ mode w i p = Writing) /\
    finish p (memory w) = Panic msg.

(** ** Facts *)

Lemma goroutines_update (i j : nat) (q p : Prog) (ps : list Prog) :
  <[i := q]> ps !! j = Some p -> i = j /\ p = q \/ i <> j /\ ps !! j = Some p.
Proof using Type.
  destruct (decide (i = j)) as [->|Hne].
  - intros H. left. split; [done|]. assert (Hl : (j < length ps)%nat).
    { apply lookup_lt_Some in H. by rewrite length_insert in H. }
    rewrite list_lookup_insert_eq in H by done. congruence.
  - rewrite list_lookup_insert_ne by done. auto.
Qed.

(** A reading section leaves the memory as it is. *)
Lemma finish_reading p : forall m m' q,
  disciplined Reading p -> finish p m = Ret (m', q) -> m' = m.
Proof using Type.
  induction p as [| | | | | |X f k IH]; intros m m' q Hd Hf; try done; cbn in *; try (by simplify_eq).
  destruct (f m) as [[m1 x]|] eqn:E; [|done]. cbn in Hf. destruct (Hd _ _ _ E) as [-> Hk]. by eapply IH.
Qed.

Lemma finish_out p m : disciplined Out p -> finish p m = Ret (m, p).
Proof using Type. by destruct p. Qed.

(** A section ends outside of the lock. *)
Lemma finish_ends md p : forall m m' q,
  disciplined md p -> finish p m = Ret (m', q) -> disciplined Out q.
Proof using Type.
  induction p as [| | | | | |X f k IH]; intros m m' q Hd Hf; destruct md; try done; cbn in *; simplify_eq; try done.
  all: destruct (f m) as [[m1 x]|] eqn:E; [|done]; cbn in Hf; specialize (Hd _ _ _ E).
  all: eapply IH; [|exact Hf]; first [exact Hd|by destruct Hd].
Qed.

Lemma mode_out w i p : i ∉ readers w -> writer w <> Some i -> mode w i p = Out.
Proof using Type. intros. unfold mode. by rewrite !decide_False. Qed.

Lemma mode_reading w i p : i ∈ readers w -> mode w i p = Reading.
Proof using Type. intros. unfold mode. by rewrite decide_True. Qed.

Lemma mode_writer w i p : i ∉ readers w -> writer w = Some i ->
  mode w i p = match p with Locking _ => Waiting | _ => Writing end.
Proof using Type. intros. unfold mode. by rewrite decide_False, decide_True. Qed.

Lemma start_wf m ps : Forall (disciplined Out) ps -> wf (start m ps).
Proof using Type.
  intros Hps. split.
  - intros i p Hp. rewrite mode_out; [|set_solver|done]. rewrite Forall_lookup in Hps. eauto.
  - intros i p Hp. by rewrite mode_out; [|set_solver|].
  - done.
Qed.

Lemma start_settled m ps : Forall (disciplined Out) ps -> settled (start m ps) (m, ps).
Proof using Type.
  intros Hps. split; [|done]. intros i. cbn. destruct (ps !! i) as [p|] eqn:E; [|done].
  exists p. split; [done|]. rewrite Forall_lookup in Hps. apply finish_out. eauto.
Qed.

(** ** The reduction *)

(** The goroutine of a step, by what it does next. *)
Ltac next_of w i p E :=
  unfold step; destruct (goroutines w !! i) as [p|] eqn:E; [destruct p as [r|k|k|k|k|k|X f k]|].

(** The modes after a step that changes only the goroutine [i]. *)
Lemma mode_other w w' i j p :
  i <> j -> (j ∈ readers w' <-> j ∈ readers w) -> (writer w' = Some j <-> writer w = Some j) ->
  mode w' j p = mode w j p.
Proof using Type.
  intros Hne Hr Hw. unfold mode. by rewrite (decide_ext _ _ _ _ Hr), (decide_ext _ _ _ _ Hw).
Qed.

Lemma wf_move w w' i p p' :
  wf w -> goroutines w !! i = Some p -> goroutines w' = <[i := p']> (goroutines w) ->
  (forall j, i <> j -> j ∈ readers w' <-> j ∈ readers w) ->
  (forall j, i <> j -> writer w' = Some j <-> writer w = Some j) ->
  (readers w' ⊆ readers w \/ writer w' = None) ->
  disciplined (mode w' i p') p' -> (mode w' i p' = Writing -> readers w' = ∅) ->
  (writer w' = Some i -> i ∉ readers w') ->
  wf w'.
Proof using Type.
  intros [Hm Hx Hr] Hi Hg Hrd Hwr Hsub Hd Hex Hri. split.
  - intros j q Hq. rewrite Hg in Hq. apply goroutines_update in Hq as [[<- ->]|[Hne Hq]]; [done|].
    rewrite (mode_other w) with (i := i) by auto. auto.
  - intros j q Hq Hmd. rewrite Hg in Hq. apply goroutines_update in Hq as [[<- ->]|[Hne Hq]]; [auto|].
    destruct Hsub as [Hsub|Hw].
    + rewrite (mode_other w) with (i := i) in Hmd by auto. specialize (Hx j q Hq Hmd). set_solver.
    + unfold mode in Hmd. rewrite Hw in Hmd. by case_decide.
  - intros j Hj. rewrite Hg. destruct (decide (i = j)) as [<-|Hne].
    + rewrite list_lookup_insert_eq by (by eapply lookup_lt_Some). auto.
    + rewrite Hrd, list_lookup_insert_ne by done. apply Hr. by apply Hwr.
Qed.

(** What the mode of a goroutine is, from its next access. *)
Lemma wf_next w i p : wf w -> goroutines w !! i = Some p ->
  match p with
  | Return _ | RLock _ | Lock _ => (i ∉ readers w) /\ writer w <> Some i
  | RUnlock _ => (i ∈ readers w) /\ writer w <> Some i
  | Locking _ => (i ∉ readers w) /\ writer w = Some i
  | Unlock _ => (i ∉ readers w) /\ writer w = Some i /\ readers w = ∅
  | Access _ _ => (i ∈ readers w) /\ writer w <> Some i \/ (i ∉ readers w) /\ writer w = Some i /\ readers w = ∅
  end.
Proof using Type.
  intros [Hm Hx Hr] Hi. specialize (Hm i p Hi). specialize (Hx i p Hi). specialize (Hr i).
  unfold mode in *. destruct (decide (i ∈ readers w)), (decide (writer w = Some i)); destruct p; try done; naive_solver.
Qed.

Lemma step_wf i w w' : wf w -> step i w = Ret w' -> wf w'.
Proof using Type.
  intros Hwf. next_of w i p E; intros Hs; try by simplify_eq.
  all: pose proof (wf_next w i _ Hwf E) as Hn; pose proof (wf_mode w Hwf i _ E) as Hd; cbn in Hn.
  - destruct (writer w) eqn:Ew; simplify_eq; [done|].
    rewrite mode_out in Hd by (rewrite ?Ew; naive_solver).
    eapply wf_move; [done..| | | | | |]; cbn; try done; try (intros; set_solver).
    + rewrite mode_reading by set_solver. done.
    + by rewrite mode_reading by set_solver.
  - simplify_eq. destruct Hn as [Hi Hw]. rewrite mode_reading in Hd by done.
    eapply wf_move; [done..| | | | | |]; cbn; try done; try (intros; set_solver).
    + by rewrite mode_out; [|set_solver|].
    + by rewrite mode_out; [|set_solver|].
  - destruct (writer w) eqn:Ew; simplify_eq; [done|]. destruct Hn as [Hi _].
    rewrite mode_out in Hd by (rewrite ?Ew; naive_solver).
    eapply wf_move; [done..| | | | | |]; cbn; try done; try (intros; naive_solver); try (by left).
    + by rewrite mode_writer.
    + by rewrite mode_writer.
  - destruct (decide (readers w = ∅)) as [He|]; simplify_eq; [|done]. destruct Hn as [Hi Hw].
    rewrite mode_writer in Hd by done.
    eapply wf_move; [done..| | | | | |]; cbn; try done; try (by left).
    rewrite mode_writer by done. cbn in Hd. by destruct k.
  - simplify_eq. destruct Hn as (Hi & Hw & He). rewrite mode_writer in Hd by done.
    eapply wf_move; [done..| | | | | |]; cbn; try done; try (intros; naive_solver); try (by right).
    by rewrite mode_out.
  - destruct (f (memory w)) as [[m x]|] eqn:Ef; [|done]. cbn in Hs. simplify_eq.
    destruct Hn as [[Hi Hw]|(Hi & Hw & He)].
    + rewrite mode_reading in Hd by done. destruct (Hd _ _ _ Ef) as [-> Hk].
      eapply wf_move; [done..| | | | | |]; cbn; try done; try (by left).
      * by rewrite mode_reading.
      * by rewrite mode_reading.
    + rewrite mode_writer in Hd by done. specialize (Hd _ _ _ Ef).
      eapply wf_move; [done..| | | | | |]; cbn; try done; try (by left).
      rewrite mode_writer by done. by destruct (k x).
Qed.

Lemma settled_move w w' u u' i p p' q q' :
  settled w u -> goroutines w !! i = Some p -> goroutines w' = <[i := p']> (goroutines w) ->
  u.2 !! i = Some q -> u'.2 = <[i := q']> u.2 ->
  finish p' (memory w') = Ret (if decide (writer w' = Some i) then u'.1 else memory w', q') ->
  (forall j p q, i <> j -> goroutines w !! j = Some p ->
     finish p (memory w) = Ret (if decide (writer w = Some j) then u.1 else memory w, q) ->
     finish p (memory w') = Ret (if decide (writer w' = Some j) then u'.1 else memory w', q)) ->
  (writer w' = None -> u'.1 = memory w') ->
  settled w' u'.
Proof using Type.
  intros [Ht _] Hi Hg Hq Hu Hf Hothers Hm. split; [|done]. intros j. rewrite Hg, Hu.
  destruct (decide (i = j)) as [<-|Hne].
  - rewrite !list_lookup_insert_eq by (by eapply lookup_lt_Some). by exists q'.
  - rewrite !list_lookup_insert_ne by done. specialize (Ht j).
    destruct (goroutines w !! j) as [pj|] eqn:Ej; [|done]. destruct Ht as (qj & Hqj & Hfj).
    exists qj. split; [done|]. by eapply Hothers.
Qed.

(** The step of a process between sections that a step of the process makes,
    if it takes the lock. *)
Lemma step_settled i w w' u :
  wf w -> settled w u -> step i w = Ret w' ->
  settled w' u \/
  (exists u' k, section_step i u = Ret u' /\ (u.2 !! i = Some (RLock k) \/ u.2 !! i = Some (Lock k)) /\ settled w' u') \/
  doomed w'.
Proof using Type.
  intros Hwf Hst. pose proof (st_threads _ _ Hst i) as Hi. pose proof (st_memory _ _ Hst) as Hmem.
  next_of w i p E; intros Hs; try (by simplify_eq; left).
  all: pose proof (wf_next w i _ Hwf E) as Hn; pose proof (wf_mode w Hwf i _ E) as Hd; cbn in Hn, Hi.
  all: destruct Hi as (q & Hq & Hf).
  - (* RLock *) destruct (writer w) eqn:Ew; simplify_eq; [by left|]. specialize (Hmem eq_refl).
    rewrite mode_out in Hd by (rewrite ?Ew; naive_solver). cbn in Hd. right.
    destruct (finish k (memory w)) as [[m' q']|msg] eqn:Ek.
    + pose proof (finish_reading _ _ _ _ Hd Ek) as ->. left. exists (memory w, <[i := q']> u.2), k.
      split_and!; [|by left|].
      * unfold section_step. rewrite Hq, Hmem, Ek. done.
      * eapply settled_move; [exact Hst|exact E|done|exact Hq|done|done| |done].
        intros j pj qj Hne Hj Hfj. cbn. by rewrite Ew in Hfj.
    + right. exists i, k, msg. cbn. rewrite list_lookup_insert_eq by (by eapply lookup_lt_Some).
      split; [done|]. split; [|done]. left. apply mode_reading. set_solver.
  - (* RUnlock *) simplify_eq. destruct Hn as [Hir Hw]. left. rewrite decide_False in Hf by done. simplify_eq.
    rewrite mode_reading in Hd by done.
    eapply settled_move; [exact Hst|exact E|done|exact Hq|by rewrite list_insert_id| |done|done].
    cbn. rewrite decide_False by done. by apply finish_out.
  - (* Lock *) assert (q = Lock k) as -> by congruence. clear Hf.
    destruct (writer w) eqn:Ew; simplify_eq; [by left|]. specialize (Hmem eq_refl). left.
    eapply settled_move; [exact Hst|exact E|done|exact Hq|by rewrite list_insert_id| | |done]; cbn.
    + rewrite decide_True by done. by rewrite Hmem.
    + intros j pj qj Hne Hj Hfj. rewrite Ew in Hfj. rewrite decide_False in Hfj by done.
      by rewrite decide_False by congruence.
  - (* Locking *) destruct Hn as [Hir Hw]. rewrite decide_True in Hf by done. injection Hf as Hu <-.
    destruct (decide (readers w = ∅)) as [He|]; simplify_eq; [|by left]. rewrite mode_writer in Hd by done. right.
    destruct (finish k (memory w)) as [[m' q']|msg] eqn:Ek.
    + left. exists (m', <[i := q']> u.2), k. split_and!; [|by right|].
      * unfold section_step. rewrite Hq, <- Hu, Ek. done.
      * eapply settled_move; [exact Hst|exact E|done|exact Hq|done| | |]; cbn.
        -- by rewrite decide_True.
        -- intros j pj qj Hne Hj Hfj. rewrite decide_False in Hfj by congruence. by rewrite decide_False by congruence.
        -- congruence.
    + right. exists i, k, msg. cbn. rewrite list_lookup_insert_eq by (by eapply lookup_lt_Some).
      split; [done|]. split; [|done]. right. rewrite mode_writer by done. cbn in Hd. by destruct k.
  - (* Unlock *) simplify_eq. destruct Hn as (Hir & Hw & He). left. rewrite decide_True in Hf by done. simplify_eq.
    rewrite mode_writer in Hd by done.
    eapply settled_move; [exact Hst|exact E|done|exact Hq|by rewrite list_insert_id| | |]; cbn.
    + by apply finish_out.
    + intros j pj qj Hne Hj Hfj. rewrite decide_False in Hfj by congruence. done.
    + done.
  - (* Access *) destruct (f (memory w)) as [[m x]|] eqn:Ef; [|done]. cbn in Hs. simplify_eq. left.
    destruct Hn as [[Hir Hw]|(Hir & Hw & He)].
    + rewrite mode_reading in Hd by done. destruct (Hd _ _ _ Ef) as [-> Hk].
      eapply settled_move; [exact Hst|exact E|done|exact Hq|by rewrite list_insert_id| |done|done].
      exact Hf.
    + eapply settled_move; [exact Hst|exact E|done|exact Hq|by rewrite list_insert_id| | |]; cbn.
      * rewrite decide_True in Hf by done. by rewrite decide_True by done.
      * intros j pj qj Hne Hj Hfj. rewrite decide_False in Hfj by congruence. rewrite decide_False by congruence.
        pose proof (wf_mode w Hwf j _ Hj) as Hdj. rewrite mode_out in Hdj by (set_solver || congruence).
        rewrite finish_out in Hfj by done. rewrite finish_out by done. congruence.
      * congruence.
Qed.

(** What a step leaves to the other goroutines. *)
Lemma step_other i j w w' p :
  wf w -> step j w = Ret w' -> i <> j -> goroutines w !! i = Some p ->
  goroutines w' !! i = Some p /\ mode w' i p = mode w i p /\
  (mode w i p = Reading \/ mode w i p = Writing -> memory w' = memory w).
Proof using Type.
  intros Hwf. next_of w j pj E; intros Hs Hne Hi; try (by simplify_eq).
  all: pose proof (wf_next w j _ Hwf E) as Hn; cbn in Hn.
  1,3: destruct (writer w) eqn:Ew; simplify_eq; [done|].
  3: simplify_eq.
  4: case_decide; simplify_eq; [|done].
  5: simplify_eq.
  6: destruct (f (memory w)) as [[m x]|] eqn:Ef; [|done]; cbn in Hs; simplify_eq.
  all: cbn; rewrite list_lookup_insert_ne by done; split; [done|split].
  all: try (by intros _).
  all: try (apply (mode_other w) with (i := j); cbn; [done|set_solver|naive_solver]).
  destruct Hn as [[Hr Hw]|(Hr & Hw & He)]; intros Hmd.
  - pose proof (wf_mode w Hwf j _ E) as Hd. rewrite mode_reading in Hd by done. by apply Hd in Ef as [-> _].
  - exfalso. unfold mode in Hmd. rewrite decide_False, decide_False in Hmd by (set_solver || congruence). naive_solver.
Qed.

Lemma doomed_step j w w' : wf w -> doomed w -> step j w = Ret w' -> doomed w'.
Proof using Type.
  intros Hwf (i & p & msg & Hi & Hmd & Hf) Hs. destruct (decide (i = j)) as [<-|Hne].
  - unfold step in Hs. rewrite Hi in Hs. destruct p as [| | | | | |X f k]; try done.
    pose proof (wf_mode w Hwf i _ Hi) as Hd. cbn in Hf.
    destruct (f (memory w)) as [[m x]|] eqn:Ef; [|done]. cbn in *. simplify_eq.
    exists i, (k x), msg. cbn. rewrite list_lookup_insert_eq by (by eapply lookup_lt_Some). split; [done|]. split; [|done].
    destruct Hmd as [Hmd|Hmd]; [left|right]; rewrite Hmd in Hd; specialize (Hd _ _ _ Ef); unfold mode in *; cbn;
      repeat case_decide; try done; by destruct (k x).
  - destruct (step_other i j w w' p Hwf Hs Hne Hi) as (Hi' & Hm & Hmem).
    exists i, p, msg. rewrite Hm, Hmem by done. done.
Qed.

Lemma doomed_run schedule : forall w w', wf w -> doomed w -> run schedule w = Ret w' -> doomed w'.
Proof using Type.
  induction schedule as [|i l IH]; intros w w' Hwf Hd Hr; [by simplify_eq/=|]. cbn in Hr.
  destruct (step i w) as [w1|] eqn:E; [|done]. cbn in Hr.
  eapply IH; [by eapply step_wf|by eapply doomed_step|done].
Qed.

Lemma over_not_doomed w : over (goroutines w) -> ~ doomed w.
Proof using Type.
  intros Ho (i & p & msg & Hi & _ & Hf). unfold over in Ho. rewrite Forall_lookup in Ho.
  by destruct (Ho i p Hi) as [r ->].
Qed.

(** When all goroutines have returned, the memory is that between sections. *)
Lemma over_settled w u : wf w -> settled w u -> over (goroutines w) -> u = (memory w, goroutines w).
Proof using Type.
  intros Hwf [Ht Hm] Ho. unfold over in Ho. rewrite Forall_lookup in Ho.
  assert (Hw : writer w = None).
  { destruct (writer w) as [i|] eqn:Ew; [|done]. destruct (wf_readers w Hwf i Ew) as [_ [p Hi]].
    destruct (Ho i p Hi) as [r ->]. by apply (wf_next w i _ Hwf Hi) in Ew. }
  specialize (Hm Hw). destruct u as [m ps]. cbn in *. subst m. f_equal. apply list_eq. intros i.
  specialize (Ht i). destruct (goroutines w !! i) as [p|] eqn:Hi; [|done].
  destruct Ht as (q & -> & Hf). destruct (Ho i p Hi) as [r ->]. cbn in Hf. by simplify_eq.
Qed.

(** ** A goroutine that runs alone *)

(** The process after the section of the [i]-th goroutine. *)
Definition after_section (i : nat) (w : Process) (md : Mode) (m : M) (q : Prog) : Process := {|
  memory := m; readers := match md with Reading => readers w ∖ {[i]} | _ => readers w end;
  writer := match md with Writing => None | _ => writer w end;
  goroutines := <[i := q]> (goroutines w)
|}.

Lemma run_app s1 s2 w : run (s1 ++ s2) w = obind (run s1 w) (run s2).
Proof using Type.
  revert w. induction s1 as [|i s1 IH]; intros w; [done|]. cbn. destruct (step i w); [apply IH|done].
Qed.

Lemma section_alone p : forall i w md,
  goroutines w !! i = Some p -> md = Reading \/ md = Writing -> disciplined md p ->
  match finish p (memory w) with
  | Ret (m, q) => exists n, run (replicate n i) w = Ret (after_section i w md m q)
  | Panic msg => exists n, run (replicate n i) w = Panic msg
  end.
Proof using Type.
  induction p as [| |k _| | |k _|X f k IH]; intros i w md Hi Hor Hd; destruct Hor as [-> | ->]; try done; cbn [finish].
  1,2: exists 1%nat; cbn; unfold step; by rewrite Hi.
  all: destruct (f (memory w)) as [[m x]|msg] eqn:Ef; cbn;
    [|exists 1%nat; cbn; unfold step; by rewrite Hi, Ef].
  all: set (w1 := {| memory := m; readers := readers w; writer := writer w; goroutines := <[i := k x]> (goroutines w) |}).
  all: assert (H1 : step i w = Ret w1) by (unfold step; by rewrite Hi, Ef).
  all: assert (Hi1 : goroutines w1 !! i = Some (k x)) by (cbn; rewrite list_lookup_insert_eq; [done|by eapply lookup_lt_Some]).
  1: pose proof (IH x i w1 Reading Hi1 (or_introl eq_refl) (proj2 (Hd _ _ _ Ef))) as Hx.
  2: pose proof (IH x i w1 Writing Hi1 (or_intror eq_refl) (Hd _ _ _ Ef)) as Hx.
  all: change (memory w1) with m in Hx; destruct (finish (k x) m) as [[m' q]|msg]; destruct Hx as [n Hx]; exists (S n); cbn;
    rewrite H1; cbn; rewrite Hx; [|done].
  all: unfold after_section; cbn; by rewrite list_insert_insert_eq.
Qed.

Lemma lock_alone i w k :
  goroutines w !! i = Some (Lock k) -> writer w = None -> readers w = ∅ ->
  run [i; i] w = Ret {| memory := memory w; readers := readers w; writer := Some i; goroutines := <[i := k]> (goroutines w) |}.
Proof using Type.
  intros Hi Hw Hr. cbn. unfold step at 1. rewrite Hi, Hw. cbn. unfold step. cbn.
  rewrite list_lookup_insert_eq by (by eapply lookup_lt_Some). rewrite decide_True by done. cbn.
  by rewrite list_insert_insert_eq.
Qed.

(** A goroutine that is about to write, when nobody holds the lock. *)
Lemma write_alone i m ps k :
  ps !! i = Some (Lock k) -> disciplined Writing k ->
  match finish k m with
  | Ret (m', q) => exists n, run (replicate n i) (start m ps) = Ret (start m' (<[i := q]> ps))
  | Panic e => exists n, run (replicate n i) (start m ps) = Panic e
  end.
Proof using Type.
  intros Hi Hd. pose proof (lock_alone i (start m ps) k Hi eq_refl eq_refl) as Hl. cbn [start memory readers goroutines] in Hl.
  set (w := {| memory := m; readers := ∅; writer := Some i; goroutines := <[i := k]> ps |}) in Hl.
  assert (Hik : goroutines w !! i = Some k) by (cbn; rewrite list_lookup_insert_eq; [done|by eapply lookup_lt_Some]).
  pose proof (section_alone k i w Writing Hik (or_intror eq_refl) Hd) as Hs. change (memory w) with m in Hs.
  destruct (finish k m) as [[m' q]|e]; destruct Hs as [n Hn]; exists (2 + n)%nat;
    change (replicate (2 + n) i) with ([i; i] ++ replicate n i); rewrite run_app, Hl; cbn [obind]; rewrite Hn; [|done].
  unfold after_section, start. cbn. by rewrite list_insert_insert_eq.
Qed.

(** The accesses up to the next call of the lock, or to the end. *)
Fixpoint accesses (p : Prog) (m : M) : outcome (M * Prog) :=
  match p with
  | Access f k => obind (f m) (fun '(m', x) => accesses (k x) m')
  | _ => Ret (m, p)
  end.

Lemma accesses_alone p : forall i w m q,
  goroutines w !! i = Some p -> accesses p (memory w) = Ret (m, q) ->
  exists n, run (replicate n i) w =
    Ret {| memory := m; readers := readers w; writer := writer w; goroutines := <[i := q]> (goroutines w) |}.
Proof using Type.
  induction p as [| | | | | |X f k IH]; intros i w m q Hi Ha; cbn in Ha.
  1-6: injection Ha as <- <-; exists 0%nat; cbn; rewrite list_insert_id by done; by destruct w.
  destruct (f (memory w)) as [[m1 x]|] eqn:Ef; [|done]. cbn in Ha.
  set (w1 := {| memory := m1; readers := readers w; writer := writer w; goroutines := <[i := k x]> (goroutines w) |}).
  destruct (IH x i w1 m q) as [n Hn]; [|done|].
  { cbn. rewrite list_lookup_insert_eq; [done|by eapply lookup_lt_Some]. }
  exists (S n). cbn. unfold step. rewrite Hi, Ef. cbn. change {| memory := m1 |} with w1. 
  rewrite Hn. cbn. by rewrite list_insert_insert_eq.
Qed.

(** ** A reader that never leaves *)

(** The goroutine [i0] has returned without releasing the lock, and the others
    keep the discipline. *)
Record leaked (i0 : nat) (w : Process) : Prop := {
  lkd_reader : i0 ∈ readers w;
  lkd_over : exists r, goroutines w !! i0 = Some (Return r);
  lkd_others : forall j p, j <> i0 -> goroutines w !! j = Some p ->
    (j ∈ readers w) /\ writer w <> Some j /\ disciplined Reading p \/
    (j ∉ readers w) /\ writer w = Some j /\ disciplined Waiting p \/
    (j ∉ readers w) /\ writer w <> Some j /\ disciplined Out p
}.

Lemma leaked_move i0 i w w' p p' :
  leaked i0 w -> i <> i0 -> goroutines w !! i = Some p -> goroutines w' = <[i := p']> (goroutines w) ->
  (forall j, i <> j -> j ∈ readers w' <-> j ∈ readers w) ->
  (forall j, i <> j -> writer w' = Some j <-> writer w = Some j) ->
  (i ∈ readers w') /\ writer w' <> Some i /\ disciplined Reading p' \/
  (i ∉ readers w') /\ writer w' = Some i /\ disciplined Waiting p' \/
  (i ∉ readers w') /\ writer w' <> Some i /\ disciplined Out p' ->
  leaked i0 w'.
Proof using Type.
  intros [Hr [r Ho] Hx] Hne Hi Hg Hrd Hwr Hp'. split.
  - by apply Hrd.
  - exists r. by rewrite Hg, list_lookup_insert_ne.
  - intros j q Hj Hq. rewrite Hg in Hq. apply goroutines_update in Hq as [[<- ->]|[Hij Hq]]; [done|].
    rewrite Hrd, Hwr by done. by apply Hx.
Qed.

(** Writers wait for ever, and nothing is written. *)
Lemma leaked_step i0 i w w' : leaked i0 w -> step i w = Ret w' ->
  leaked i0 w' /\ memory w' = memory w /\
  forall j k, goroutines w !! j = Some (Lock k) \/ goroutines w !! j = Some (Locking k) ->
    goroutines w' !! j = Some (Lock k) \/ goroutines w' !! j = Some (Locking k).
Proof using Type.
  intros Hl. pose proof Hl as [Hr [r0 Ho] Hx]. destruct (decide (i = i0)) as [->|Hne].
  { unfold step. rewrite Ho. by intros [= <-]. }
  assert (Hsame : forall p p' w', goroutines w !! i = Some p -> goroutines w' = <[i := p']> (goroutines w) ->
      (forall k, p <> Lock k /\ p <> Locking k) ->
      forall j k, goroutines w !! j = Some (Lock k) \/ goroutines w !! j = Some (Locking k) ->
        goroutines w' !! j = Some (Lock k) \/ goroutines w' !! j = Some (Locking k)).
  { intros p p' w1 Hp Hg Hno j k Hj. rewrite Hg, list_lookup_insert_ne; [done|]. intros <-.
    destruct (Hno k), Hj; congruence. }
  next_of w i p E; intros Hs; try (by simplify_eq).
  all: pose proof (Hx i _ Hne E) as Hd; cbn in Hd.
  - destruct (writer w) eqn:Ew; simplify_eq; [done|]. split; [|split; [done|by eapply Hsame]].
    eapply leaked_move; [exact Hl|exact Hne|exact E|done|cbn; set_solver|cbn; naive_solver|]. left. cbn.
    split; [set_solver|]. split; [done|]. naive_solver.
  - simplify_eq. split; [|split; [done|by eapply Hsame]].
    eapply leaked_move; [exact Hl|exact Hne|exact E|done|cbn; set_solver|cbn; naive_solver|]. right. cbn.
    right. split; [set_solver|]. naive_solver.
  - destruct (writer w) eqn:Ew; simplify_eq; [done|]. split; [|split; [done|]].
    + eapply leaked_move; [exact Hl|exact Hne|exact E|done|done|cbn; naive_solver|]. right. left. cbn. naive_solver.
    + cbn. intros j q Hj. destruct (decide (i = j)) as [<-|Hij]; [|by rewrite list_lookup_insert_ne].
      rewrite list_lookup_insert_eq by (by eapply lookup_lt_Some). rewrite E in Hj. right. naive_solver.
  - rewrite decide_False in Hs by set_solver. by simplify_eq.
  - naive_solver.
  - destruct (f (memory w)) as [[m x]|] eqn:Ef; [|done]. cbn in Hs. simplify_eq.
    destruct Hd as [(Hir & Hiw & Hd)|[(? & ? & [])|(? & ? & [])]]. destruct (Hd _ _ _ Ef) as [-> Hk].
    split; [|split; [done|by eapply Hsame]].
    eapply leaked_move; [exact Hl|exact Hne|exact E|done|done|done|]. by left.
Qed.

Lemma leaked_run i0 schedule : forall w w', leaked i0 w -> run schedule w = Ret w' ->
  memory w' = memory w /\
  forall j k, goroutines w !! j = Some (Lock k) \/ goroutines w !! j = Some (Locking k) ->
    goroutines w' !! j = Some (Lock k) \/ goroutines w' !! j = Some (Locking k).
Proof using Type.
  induction schedule as [|i l IH]; intros w w' Hl Hrun; cbn in Hrun; [by simplify_eq|].
  destruct (step i w) as [w1|] eqn:E; [|done]. cbn in Hrun.
  destruct (leaked_step i0 i w w1 Hl E) as (Hl1 & Hm & Hw). destruct (IH w1 w' Hl1 Hrun) as [Hm' Hw'].
  split; [congruence|auto].
Qed.
End Goroutines.
