(* ===== verification/StorageGoroutines.v ===== *)
(** * The memory storage, access by access

    [internal/queue/storage/memory_storage.go] as the goroutines that call it
    run it: the map of pointers, the messages they point to, and the calls of
    the [RWMutex] between the accesses.  [MemoryStorage.v] has the methods as
    functions of the contents; here an [Insert] can be overtaken between its
    look-up and its write, and [Ack] and [Nack] write through a pointer they
    read before.

    The time of a call is its environment's.  The assignments to the fields of
    one message that follow each other are one access.  The configurations
    are left out: their methods take no lock. *)

From S2P Require Import Prelude Float64 Dtime Utils Message Storage MemoryStorage Goroutines.
#[local] Open Scope string_scope.
#[local] Open Scope list_scope.
#[local] Open Scope Z_scope.

(** ** The memory *)

(** [docs] maps keys to pointers; a pointer is the index of its message among
    the messages allocated. *)
Record Heap := {
  objects : list Message;
  pointers : gmap string nat;
  heap_configurations : gmap string QueueConfiguration;
  heap_counter : Z
}.

Definition with_objects (o : list Message) (h : Heap) : Heap := {|
  objects := o; pointers := pointers h; heap_configurations := heap_configurations h;
  heap_counter := heap_counter h |}.

Definition with_pointers (p : gmap string nat) (h : Heap) : Heap := {|
  objects := objects h; pointers := p; heap_configurations := heap_configurations h;
  heap_counter := heap_counter h |}.

(** The storage of [MemoryStorage.v] a memory holds. *)
Definition contents (h : Heap) : MemoryStorage := {|
  docs := omap (fun l => objects h !! l) (pointers h);
  configurations := heap_configurations h;
  internalCounter := heap_counter h |}.

Definition nil_dereference : string := "invalid memory address or nil pointer dereference".

(** [value, contains := storage.docs[key]]. *)
Definition look (key : string) (h : Heap) : outcome (Heap * option nat) := Ret (h, pointers h !! key).

(** [*storage.docs[key]]. *)
Definition load (key : string) (h : Heap) : outcome (Heap * Message) :=
  match pointers h !! key with
  | Some l => match objects h !! l with Some v => Ret (h, v) | None => Panic nil_dereference end
  | None => Panic nil_dereference
  end.

(** The assignments [f] to the fields of the message at a pointer. *)
Definition assign (l : nat) (f : Message -> outcome Message) (h : Heap) : outcome (Heap * unit) :=
  match objects h !! l with
  | Some v => obind (f v) (fun v' => Ret (with_objects (<[l := v']> (objects h)) h, tt))
  | None => Panic nil_dereference
  end.

(** The same through [storage.docs[key]]. *)
Definition assign_doc (key : string) (f : Message -> outcome Message) (h : Heap) : outcome (Heap * unit) :=
  match pointers h !! key with
  | Some l => assign l f h
  | None => Panic nil_dereference
  end.

(** [storage.internalCounter += 1], and its value. *)
Definition next_id (h : Heap) : outcome (Heap * Z) :=
  let n := (heap_counter h +64 1)%go in
  Ret ({| objects := objects h; pointers := pointers h; heap_configurations := heap_configurations h;
          heap_counter := n |}, n).

(** [storage.docs[key] = message], a message the storage did not have. *)
Definition store (key : string) (m : Message) (h : Heap) : outcome (Heap * unit) :=
  Ret (with_pointers (<[key := length (objects h)]> (pointers h)) (with_objects (objects h ++ [m]) h), tt).

(** [delete(storage.docs, key)]. *)
Definition remove_key (key : string) (h : Heap) : outcome (Heap * unit) :=
  Ret (with_pointers (delete key (pointers h)) h, tt).

(** The order of [for key := range storage.docs]. *)
Definition range_keys (env : Env) (h : Heap) : outcome (Heap * list string) :=
  Ret (h, (map_range (env_order env) (docs (contents h))).*1).

(** A computation on local values, which may panic. *)
Definition local_o {A} (o : outcome A) (h : Heap) : outcome (Heap * A) := obind o (fun x => Ret (h, x)).

(** ** The methods *)

Inductive Answer :=
  | Counts (r : result (Z * Z))
  | Messages (r : result (list Message))
  | Number (r : result Z)
  | Names (r : result (list string)).

Abbreviation Program := (@Prog Heap Answer).

(** One iteration of the loop of [Insert] from the second lock on. *)
Definition insert_write (env : Env) (m : Message) (present : bool) (k : Program) : Program :=
  if present then
    Access (assign_doc (getKey m) (fun value => Ret (update_content m value))) (fun _ => Unlock k)
  else
    Access next_id (fun n =>
    Access (store (getKey m) (set_identity n (Now env) m)) (fun _ => Unlock k)).

(** The iteration: the look-up under the lock of the readers, the write under
    that of the writers, and the rest, which depends on what was found. *)
Definition insert_look (env : Env) (m : Message) (k : bool -> Program) : Program :=
  RLock (Access (look (getKey m)) (fun found =>
  RUnlock (
  let present := bool_decide (is_Some found) in
  Lock (insert_write env m present (k present))))).

Fixpoint insert_from (env : Env) (messages : list Message) (inserted modified : Z) : Program :=
  match messages with
  | [] => Return (Counts ((inserted, modified), None))
  | m :: messages' =>
      if String.eqb (Queue m) "" then
        Return (Counts ((0, 0), Some (ErrorString "message has a invalid queue")))
      else if String.eqb (ID m) "" then
        Return (Counts ((0, 0), Some (ErrorString "message has a invalid ID")))
      else
        insert_look env m (fun present =>
          if present then insert_from env messages' inserted (modified + 1)
          else insert_from env messages' (inserted + 1) modified)
  end.

(** [*value.Diagnostics.Acks = *value.Diagnostics.Acks + 1] and the two
    assignments after it. *)
Definition count_ack (value : Message) : outcome Message :=
  match Diagnostics value with
  | None => Panic nil_dereference
  | Some d => Ret (set_Diagnostics {| Acks := increment (Acks d); Nacks := Nacks d;
                ConsecutiveAcks := increment (ConsecutiveAcks d); ConsecutiveNacks := Some 0 |} value)
  end.

Definition count_nack (value : Message) : outcome Message :=
  match Diagnostics value with
  | None => Panic nil_dereference
  | Some d => Ret (set_Diagnostics {| Acks := Acks d; Nacks := increment (Nacks d);
                ConsecutiveAcks := Some 0; ConsecutiveNacks := increment (ConsecutiveNacks d) |} value)
  end.

(** The writes of [Ack] and [Nack]. *)
Definition answer_write (nack : bool) (msg : Message) (l : nat) : Program :=
  Access (assign l (fun value => Ret (if nack then set_nack msg value else set_ack msg value))) (fun _ =>
  Access (assign l (fun value => Ret (set_Diagnostics (setDiagnosticsStruct value) value))) (fun _ =>
  Access (assign l (if nack then count_nack else count_ack)) (fun _ =>
  Unlock (Return (Number (1, None)))))).

Definition answer_prog (nack : bool) (msg : Message) : Program :=
  RLock (Access (look (getKey msg)) (fun found =>
  RUnlock (
  match found with
  | None => Return (Number (0, None))
  | Some l => Lock (answer_write nack msg l)
  end))).

Fixpoint count_keys (findOpts : option FindOptions) (keys : list string) (count : Z) : Program :=
  match keys with
  | [] => RUnlock (Return (Number (count, None)))
  | key :: keys' =>
      Access (load key) (fun value =>
      Access (local_o (messageMatchesFilter value findOpts)) (fun r =>
        match r with
        | (_, Some err) => Return (Number (0, Some err))
        | (matches, None) => count_keys findOpts keys' (if matches : bool then count + 1 else count)
        end))
  end.

Fixpoint find_keys (env : Env) (opt : option FindOptions) (keys : list string)
    (messages : list Message) : Program :=
  match keys with
  | [] =>
      Access (local_o (sort_found opt messages)) (fun messages =>
      RUnlock (Return (Messages (limit_found opt messages, None))))
  | key :: keys' =>
      Access (load key) (fun doc =>
        if hides_expired opt && isExpired env doc then find_keys env opt keys' messages
        else
          Access (local_o (messageMatchesFilter doc opt)) (fun r =>
            match r with
            | (_, Some err) => RUnlock (Return (Messages ([], Some err)))
            | (matches, None) =>
                find_keys env opt keys' (if matches : bool then messages ++ [doc] else messages)
            end))
  end.

(** The inner loop of [Remove], and what comes after it. *)
Fixpoint remove_each (key : string) (message : Message) (ids : list string) (count : Z)
    (k : Z -> Program) : Program :=
  match ids with
  | [] => k count
  | i :: ids' =>
      if String.eqb (ID message) i then
        Access (remove_key key) (fun _ => remove_each key message ids' (count + 1) k)
      else remove_each key message ids' count k
  end.

Fixpoint remove_keys (queue : string) (ids : list string) (keys : list string) (count : Z) : Program :=
  match keys with
  | [] => Unlock (Return (Number (count, None)))
  | key :: keys' =>
      Access (load key) (fun message =>
        if negb (String.eqb (Queue message) queue) then remove_keys queue ids keys' count
        else remove_each key message ids count (remove_keys queue ids keys'))
  end.

(** The listings: the values of a field, gathered in a map. *)
Fixpoint list_keys (env : Env) (field : Message -> string) (keys : list string)
    (temporaryMap : gmap string bool) : Program :=
  match keys with
  | [] => RUnlock (Return (Names ((map_range (env_order env) temporaryMap).*1, None)))
  | key :: keys' =>
      Access (load key) (fun message => list_keys env field keys' (<[field message := true]> temporaryMap))
  end.

Definition flush_prog : Program :=
  Lock (
  Access (fun h => Ret (h, Z.of_nat (size (pointers h)))) (fun count =>
  Access (fun h => Ret (h, count + Z.of_nat (size (heap_configurations h)))) (fun count =>
  Access (fun h => Ret (with_pointers ∅ h, tt)) (fun _ =>
  Access (fun h => Ret ({| objects := objects h; pointers := pointers h; heap_configurations := ∅;
                           heap_counter := heap_counter h |}, tt)) (fun _ =>
  Unlock (Return (Number (count, None)))))))).

Inductive StorageOp :=
  | OpInsert (env : Env) (messages : list Message)
  | OpFind (env : Env) (opt : option FindOptions)
  | OpCount (env : Env) (findOpts : option FindOptions) (countOpts : option CountOptions)
  | OpRemove (env : Env) (queue : string) (ids : list string)
  | OpAck (msg : Message)
  | OpNack (msg : Message)
  | OpListQueueNames (env : Env)
  | OpListQueuePrefixes (env : Env)
  | OpFlush.

(** The goroutine of a call. *)
Definition program (op : StorageOp) : Program :=
  match op with
  | OpInsert env messages => insert_from env messages 0 0
  | OpFind env opt => RLock (Access (range_keys env) (fun keys => find_keys env opt keys []))
  | OpCount env findOpts _ => RLock (Access (range_keys env) (fun keys => count_keys findOpts keys 0))
  | OpRemove env queue ids => Lock (Access (range_keys env) (fun keys => remove_keys queue ids keys 0))
  | OpAck msg => answer_prog false msg
  | OpNack msg => answer_prog true msg
  | OpListQueueNames env => RLock (Access (range_keys env) (fun keys => list_keys env Queue keys ∅))
  | OpListQueuePrefixes env => RLock (Access (range_keys env) (fun keys => list_keys env QueuePrefix keys ∅))
  | OpFlush => flush_prog
  end.

(** The calls [ops], each in a goroutine of its own, on a storage. *)
Definition calls (h : Heap) (ops : list StorageOp) : Process := start h (map program ops).
