(* ===== verification/StorageSections.v ===== *)
(** * The critical sections of the memory storage

    What each section of the goroutines of [StorageGoroutines.v] does to the
    contents of the storage, in the terms of the methods of [MemoryStorage.v];
    the stages of a call and its steps on the contents; and what answers
    overtaken by a removal change. *)

From S2P Require Import Prelude Float64 Dtime Utils Message Storage MemoryStorage MemoryStorageFacts.
From S2P Require Import Goroutines StorageGoroutines.
#[local] Open Scope string_scope.
#[local] Open Scope list_scope.
#[local] Open Scope Z_scope.

(** ** The specification *)

(** A call as one step of the storage. *)
Definition spec_call (op : StorageOp) (s : MemoryStorage) : outcome (MemoryStorage * Answer) :=
  match op with
  | OpInsert env messages => let '(s', r) := Insert env messages s in Ret (s', Counts r)
  | OpFind env opt => obind (Find env opt s) (fun r => Ret (s, Messages r))
  | OpCount env findOpts countOpts => obind (Count env findOpts countOpts s) (fun r => Ret (s, Number r))
  | OpRemove env queue ids => let '(s', r) := Remove env queue ids s in Ret (s', Number r)
  | OpAck msg => let '(s', r) := Ack msg s in Ret (s', Number r)
  | OpNack msg => let '(s', r) := Nack msg s in Ret (s', Number r)
  | OpListQueueNames env => Ret (s, Names (ListQueueNames env s))
  | OpListQueuePrefixes env => Ret (s, Names (ListQueuePrefixes env s))
  | OpFlush => let '(s', r) := Flush s in Ret (s', Number r)
  end.

(** How far a call has come: an insertion is about to look a message up, or to
    write it; another call has yet to take effect, has found the pointer it
    will write through, or is over. *)
Inductive Stage :=
  | LookUp (env : Env) (m : Message) (rest : list Message) (inserted modified : Z)
  | Write (env : Env) (m : Message) (rest : list Message) (inserted modified : Z) (present : bool)
  | Calling (op : StorageOp)
  | Assigning (nack : bool) (msg : Message) (l : nat)
  | Over (a : Answer).

(** The stage of an insertion before its next message. *)
Definition next_insert (env : Env) (messages : list Message) (inserted modified : Z) : Stage :=
  match messages with
  | [] => Over (Counts ((inserted, modified), None))
  | m :: messages' =>
      if String.eqb (Queue m) "" then
        Over (Counts ((0, 0), Some (ErrorString "message has a invalid queue")))
      else if String.eqb (ID m) "" then
        Over (Counts ((0, 0), Some (ErrorString "message has a invalid ID")))
      else LookUp env m messages' inserted modified
  end.

Definition begin (op : StorageOp) : Stage :=
  match op with OpInsert env messages => next_insert env messages 0 0 | _ => Calling op end.

(** The write of an insertion that found the message [present] or not. *)
Definition spec_write (env : Env) (m : Message) (present : bool) (s : MemoryStorage) : outcome MemoryStorage :=
  if present then
    match docs s !! getKey m with
    | Some value => Ret (with_docs (<[getKey m := update_content m value]> (docs s)) s)
    | None => Panic nil_dereference
    end
  else
    let counter := (internalCounter s +64 1)%go in
    Ret {| docs := <[getKey m := set_identity counter (Now env) m]> (docs s);
           configurations := configurations s; internalCounter := counter |}.

(** One step of a call on the contents of the storage. *)
Definition spec_step (st : Stage) (s : MemoryStorage) : outcome (MemoryStorage * Stage) :=
  match st with
  | LookUp env m rest i n =>
      Ret (s, Write env m rest i n (bool_decide (is_Some (docs s !! getKey m))))
  | Write env m rest i n present =>
      obind (spec_write env m present s) (fun s' =>
        Ret (s', if present then next_insert env rest i (n + 1) else next_insert env rest (i + 1) n))
  | Calling op => obind (spec_call op s) (fun '(s', a) => Ret (s', Over a))
  | Assigning _ _ _ | Over _ => Ret (s, st)
  end.

(** A step of the [i]-th call. *)
Definition spec_at (i : nat) (a : MemoryStorage * list Stage) : outcome (MemoryStorage * list Stage) :=
  match a.2 !! i with
  | Some st => obind (spec_step st a.1) (fun '(s, st') => Ret (s, <[i := st']> a.2))
  | None => Ret a
  end.

Fixpoint run_spec (order : list nat) (a : MemoryStorage * list Stage) : outcome (MemoryStorage * list Stage) :=
  match order with
  | [] => Ret a
  | i :: order' => obind (spec_at i a) (run_spec order')
  end.

#[global] Arguments contents : simpl never.

(** ** Critical sections *)

(** The goroutine at a stage. *)
Definition program_at (st : Stage) : Program :=
  match st with
  | LookUp env m rest i n =>
      insert_look env m (fun present =>
        if present then insert_from env rest i (n + 1) else insert_from env rest (i + 1) n)
  | Write env m rest i n present =>
      Lock (insert_write env m present
        (if present then insert_from env rest i (n + 1) else insert_from env rest (i + 1) n))
  | Calling op => program op
  | Assigning nack msg l => Lock (answer_write nack msg l)
  | Over a => Return a
  end.

Lemma program_next_insert env ms i n : program_at (next_insert env ms i n) = insert_from env ms i n.
Proof. destruct ms as [|m ms]; [done|]. cbn. by repeat case_match. Qed.

Lemma program_begin op : program_at (begin op) = program op.
Proof. destruct op; try done. apply program_next_insert. Qed.

(** Every key has a pointer to a message of that key. *)
Definition heap_ok (h : Heap) : Prop :=
  forall key l, pointers h !! key = Some l -> exists v, objects h !! l = Some v /\ getKey v = key.

Lemma docs_contents h key :
  docs (contents h) !! key = pointers h !! key ≫= (fun l => objects h !! l).
Proof. unfold contents. cbn. by rewrite lookup_omap. Qed.

Lemma size_contents h : heap_ok h -> size (docs (contents h)) = size (pointers h).
Proof.
  intros Hh. rewrite <- !size_dom. f_equal. apply set_eq. intros k. rewrite !elem_of_dom, docs_contents.
  destruct (pointers h !! k) as [l|] eqn:E; [|by split; intros []]. apply Hh in E as (v & Hv & _). cbn. rewrite Hv.
  split; intros _; by eexists.
Qed.

Lemma load_contents h key v : docs (contents h) !! key = Some v -> load key h = Ret (h, v).
Proof.
  rewrite docs_contents. unfold load. destruct (pointers h !! key) as [l|]; [|done]. cbn. by intros ->.
Qed.

Lemma finish_find env opt h l : forall acc,
  (forall k v, (k, v) ∈ l -> docs (contents h) !! k = Some v) ->
  finish (find_keys env opt l.*1 acc) h =
  obind (find_loop env opt l acc) (fun r =>
    match r with
    | (_, Some err) => Ret (h, Return (Messages ([], Some err)))
    | (ms, None) => obind (sort_found opt ms) (fun ms => Ret (h, Return (Messages (limit_found opt ms, None))))
    end).
Proof.
  induction l as [|[k v] l IH]; intros acc Hl; cbn.
  - unfold local_o. by destruct (sort_found opt acc).
  - rewrite (load_contents h k v) by (apply Hl; set_solver). cbn.
    assert (Hl' : forall k v, (k, v) ∈ l -> docs (contents h) !! k = Some v) by (intros; apply Hl; set_solver).
    destruct (hides_expired opt && isExpired env v); [by apply IH|]. cbn. unfold local_o.
    destruct (messageMatchesFilter v opt) as [[b [err|]]|]; cbn; [done|by apply IH|done].
Qed.

Lemma finish_count opt h l : forall n,
  (forall k v, (k, v) ∈ l -> docs (contents h) !! k = Some v) ->
  finish (count_keys opt l.*1 n) h =
  obind (count_loop opt l n) (fun r => Ret (h, Return (Number r))).
Proof.
  induction l as [|[k v] l IH]; intros n Hl; cbn; [done|].
  rewrite (load_contents h k v) by (apply Hl; set_solver). cbn. unfold local_o.
  destruct (messageMatchesFilter v opt) as [[b [err|]]|]; cbn; [done| |done].
  apply IH. intros; apply Hl; set_solver.
Qed.

Lemma finish_list env field h l : forall tm,
  (forall k v, (k, v) ∈ l -> docs (contents h) !! k = Some v) ->
  finish (list_keys env field l.*1 tm) h =
  Ret (h, Return (Names ((map_range (env_order env)
    (foldl (fun m kv => <[field (snd kv) := true]> m) tm l)).*1, None))).
Proof.
  induction l as [|[k v] l IH]; intros tm Hl; cbn; [done|].
  rewrite (load_contents h k v) by (apply Hl; set_solver). cbn.
  apply IH. intros; apply Hl; set_solver.
Qed.

(** *** Deletions *)

Lemma contents_pointers h p q :
  p = q -> docs (contents (with_pointers p h)) = omap (fun l => objects h !! l) q.
Proof. by intros ->. Qed.

Lemma omap_delete_key h key :
  docs (contents (with_pointers (delete key (pointers h)) h)) = delete key (docs (contents h)).
Proof. unfold contents, with_pointers. cbn. apply omap_delete. Qed.

Lemma finish_remove_each key m ids k : forall n h,
  exists p, finish (remove_each key m ids n k) h =
      finish (k (remove_ids key m ids (docs (contents h)) n).2) (with_pointers p h) /\
    p ⊆ pointers h /\
    docs (contents (with_pointers p h)) = (remove_ids key m ids (docs (contents h)) n).1.
Proof.
  induction ids as [|i ids IH]; intros n h; cbn.
  - exists (pointers h). split; [by destruct h|]. split; [done|]. by destruct h.
  - destruct (String.eqb (ID m) i); [|apply IH]. cbn.
    destruct (IH (n + 1) (with_pointers (delete key (pointers h)) h)) as (p & Hf & Hp & Hd).
    rewrite omap_delete_key in Hf, Hd. exists p. split; [exact Hf|]. split; [|exact Hd].
    etrans; [exact Hp|]. apply delete_subseteq.
Qed.

Lemma remove_ids_other key m ids d n k : k <> key -> (remove_ids key m ids d n).1 !! k = d !! k.
Proof. intros Hne. rewrite remove_ids_spec. cbn. case_bool_decide; [by rewrite lookup_delete_ne|done]. Qed.

Lemma finish_remove queue ids l : forall n h,
  NoDup l.*1 -> (forall k v, (k, v) ∈ l -> docs (contents h) !! k = Some v) ->
  exists p, finish (remove_keys queue ids l.*1 n) h =
      Ret (with_pointers p h, Return (Number ((remove_loop queue ids l (docs (contents h)) n).2, None))) /\
    p ⊆ pointers h /\
    docs (contents (with_pointers p h)) = (remove_loop queue ids l (docs (contents h)) n).1.
Proof.
  induction l as [|[k v] l IH]; intros n h Hnd Hl; cbn.
  { exists (pointers h). split; [by destruct h|]. split; [done|]. by destruct h. }
  apply NoDup_cons in Hnd as [Hk Hnd]. rewrite (load_contents h k v) by (apply Hl; set_solver). cbn.
  assert (Hl' : forall k v, (k, v) ∈ l -> docs (contents h) !! k = Some v) by (intros; apply Hl; set_solver).
  destruct (negb (String.eqb (Queue v) queue)); [by apply IH|].
  destruct (finish_remove_each k v ids (remove_keys queue ids l.*1) n h) as (p & -> & Hp & Hd).
  destruct (IH (remove_ids k v ids (docs (contents h)) n).2 (with_pointers p h)) as (p' & Hf & Hp' & Hd'); [done| |].
  { intros k' v' Hin. rewrite Hd, remove_ids_other; [by apply Hl'|]. intros ->. apply Hk.
    apply list_elem_of_fmap. by exists (k, v'). }
  rewrite Hd in Hf, Hd'. destruct (remove_ids k v ids (docs (contents h)) n) as [d' n']. cbn in *.
  exists p'. split; [exact Hf|]. split; [|exact Hd']. by etrans.
Qed.

(** The keys a loop visits, with what is stored under them. *)
Lemma range_visits env h :
  NoDup (map_range (env_order env) (docs (contents h))).*1 /\
  forall k v, (k, v) ∈ map_range (env_order env) (docs (contents h)) -> docs (contents h) !! k = Some v.
Proof.
  split.
  - rewrite (map_range_perm (env_order env)). apply NoDup_fst_map_to_list.
  - intros k v. by rewrite elem_of_map_range.
Qed.

(** *** The calls with one section *)

(** A call other than [Insert], [Ack] and [Nack], as a section. *)
Definition one_section (op : StorageOp) : Prop :=
  match op with OpInsert _ _ | OpAck _ | OpNack _ => False | _ => True end.

(** The section of such a call is the call on the contents: it changes the
    pointers only to delete some. *)
Definition call_effect (h : Heap) (op : StorageOp) (o : outcome (Heap * Program)) : Prop :=
  match spec_call op (contents h), o with
  | Ret (s, a), Ret (h', q) => q = Return a /\ s = contents h' /\ objects h' = objects h /\ pointers h' ⊆ pointers h
  | Panic _, Panic _ => True
  | _, _ => False
  end.

(** The rest of a goroutine that is about to take the lock. *)
Definition body (p : Program) : Program := match p with RLock k | Lock k => k | _ => p end.

Lemma call_section h op : heap_ok h -> one_section op -> call_effect h op (finish (body (program op)) h).
Proof.
  intros Hh Hop. unfold call_effect. destruct op as [|env opt|env opt copt|env queue ids| | |env|env|]; try done; cbn [program body finish spec_call].
  - destruct (range_visits env h) as [_ Hv]. cbn. rewrite finish_find by done. unfold Find.
    destruct (find_loop env opt _ []) as [[ms [err|]]|]; cbn; [done| |done].
    by destruct (sort_found opt ms).
  - destruct (range_visits env h) as [_ Hv]. cbn. rewrite finish_count by done. unfold Count.
    by destruct (count_loop opt _ 0) as [[n err]|].
  - destruct (range_visits env h) as [Hnd Hv]. cbn [finish range_keys obind].
    destruct (finish_remove queue ids _ 0 h Hnd Hv) as (p & -> & Hp & Hd). unfold Remove.
    destruct (remove_loop _ _ _ _ _) as [d n]. cbn in Hd |- *. subst d. split; [done|]. split; [|done].
    unfold contents, with_docs, with_pointers. done.
  - destruct (range_visits env h) as [_ Hv]. cbn. by rewrite finish_list by done.
  - destruct (range_visits env h) as [_ Hv]. cbn. by rewrite finish_list by done.
  - cbn. rewrite size_contents by done. split; [done|]. split; [|split; [done|apply map_empty_subseteq]].
    unfold contents. cbn. by rewrite omap_empty.
Qed.

(** *** Writes *)

(** The message at a pointer is replaced by another one of the same key: the
    contents change if the key still has this pointer. *)
Lemma contents_assign h l v v' :
  heap_ok h -> objects h !! l = Some v -> getKey v' = getKey v ->
  let h' := with_objects (<[l := v']> (objects h)) h in
  heap_ok h' /\
  contents h' = if decide (pointers h !! getKey v = Some l)
                then with_docs (<[getKey v := v']> (docs (contents h))) (contents h) else contents h.
Proof.
  intros Hh Hl Hk h'. assert (Hlen : (l < length (objects h))%nat) by (by eapply lookup_lt_Some).
  assert (Hobj : forall l0, objects h' !! l0 = if decide (l0 = l) then Some v' else objects h !! l0).
  { intros l0. cbn. case_decide as Hd; [subst; by rewrite list_lookup_insert_eq|by rewrite list_lookup_insert_ne]. }
  split.
  - intros key l0 Hp. destruct (Hh key l0 Hp) as (v0 & Hv0 & Hk0). rewrite Hobj.
    case_decide as Hd; [|by exists v0]. subst l0. exists v'. split; [done|]. congruence.
  - assert (Hd : docs (contents h') = if decide (pointers h !! getKey v = Some l)
        then <[getKey v := v']> (docs (contents h)) else docs (contents h)).
    { apply map_eq. intros key. rewrite docs_contents. change (pointers h') with (pointers h).
      destruct (pointers h !! key) as [l0|] eqn:Ep; cbn.
      - rewrite Hobj. destruct (Hh key l0 Ep) as (v0 & Hv0 & Hk0). destruct (decide (l0 = l)) as [->|Hne].
        + simplify_eq. rewrite decide_True by done. by rewrite lookup_insert_eq.
        + case_decide as Hc; [|by rewrite docs_contents, Ep].
          rewrite lookup_insert_ne by congruence. by rewrite docs_contents, Ep.
      - case_decide as Hc; [rewrite lookup_insert_ne by congruence|]; by rewrite docs_contents, Ep. }
    case_decide; unfold contents, with_docs in *; cbn in *; by rewrite Hd.
Qed.

(** The message an ack or a nack leaves. *)
Definition answer_value (nack : bool) (msg value : Message) : Message :=
  if nack then nacked msg value else acked msg value.

Definition answer_op (nack : bool) (msg : Message) : StorageOp := if nack then OpNack msg else OpAck msg.

Lemma getKey_answer nack msg v : getKey (answer_value nack msg v) = getKey v.
Proof. by destruct nack. Qed.

Lemma assign_eq l f h v v' : objects h !! l = Some v -> f v = Ret v' ->
  assign l f h = Ret (with_objects (<[l := v']> (objects h)) h, tt).
Proof. intros Hl Hf. unfold assign. by rewrite Hl, Hf. Qed.

Lemma finish_answer nack msg l h v :
  objects h !! l = Some v ->
  finish (answer_write nack msg l) h =
  Ret (with_objects (<[l := answer_value nack msg v]> (objects h)) h, Return (Number (1, None))).
Proof.
  intros Hl. assert (Hlen : (l < length (objects h))%nat) by (by eapply lookup_lt_Some). unfold answer_write. cbn [finish].
  assert (Hset : forall v, objects (with_objects (<[l := v]> (objects h)) h) !! l = Some v)
    by (intros; cbn; by rewrite list_lookup_insert_eq).
  assert (Hagain : forall v w, with_objects (<[l := w]> (objects (with_objects (<[l := v]> (objects h)) h)))
      (with_objects (<[l := v]> (objects h)) h) = with_objects (<[l := w]> (objects h)) h)
    by (intros; unfold with_objects; cbn; by rewrite list_insert_insert_eq).
  destruct nack.
  all: erewrite assign_eq; [|exact Hl|reflexivity]; cbn [obind].
  all: erewrite assign_eq; [|apply Hset|reflexivity]; cbn [obind]; rewrite Hagain.
  all: erewrite assign_eq; [|apply Hset|reflexivity]; cbn [obind]; by rewrite Hagain.
Qed.

Lemma spec_answer nack msg s v : docs s !! getKey msg = Some v ->
  spec_call (answer_op nack msg) s =
  Ret (with_docs (<[getKey msg := answer_value nack msg v]> (docs s)) s, Number (1, None)).
Proof. intros Hv. destruct nack; cbn; unfold Ack, Nack; by rewrite Hv. Qed.

Lemma spec_answer_absent nack msg s : docs s !! getKey msg = None ->
  spec_call (answer_op nack msg) s = Ret (s, Number (0, None)).
Proof. intros Hv. destruct nack; cbn; unfold Ack, Nack; by rewrite Hv. Qed.

(** A new message under a key. *)
Lemma contents_store h key m :
  heap_ok h -> getKey m = key ->
  let h' := with_pointers (<[key := length (objects h)]> (pointers h)) (with_objects (objects h ++ [m]) h) in
  heap_ok h' /\ contents h' = with_docs (<[key := m]> (docs (contents h))) (contents h).
Proof.
  intros Hh Hk h'. split.
  - intros k l Hp. cbn in Hp |- *. apply lookup_insert_Some in Hp as [[<- <-]|[Hne Hp]].
    + exists m. by rewrite list_lookup_middle.
    + destruct (Hh k l Hp) as (v & Hv & Hkv). exists v. by rewrite lookup_app_l by (by eapply lookup_lt_Some).
  - assert (Hd : docs (contents h') = <[key := m]> (docs (contents h))).
    { apply map_eq. intros k. rewrite docs_contents. cbn. destruct (decide (key = k)) as [<-|Hne].
      - rewrite !lookup_insert_eq. cbn. by rewrite list_lookup_middle.
      - rewrite !lookup_insert_ne by done. rewrite docs_contents. destruct (pointers h !! k) as [l|] eqn:Ep; [|done].
        cbn. destruct (Hh k l Ep) as (v & Hv & _). by rewrite lookup_app_l by (by eapply lookup_lt_Some). }
    unfold contents, with_docs in *. cbn in *. by rewrite Hd.
Qed.

(** ** Calls that take effect before a removal *)

(** The queues and the ids of the messages stored. *)
Definition idents (s : MemoryStorage) : gmap string (string * string) := msg_key <$> docs s.

(** The same storage, except for the contents of the messages of the keys [K]. *)
Record same_but (K : string -> Prop) (s s' : MemoryStorage) : Prop := {
  sb_configurations : configurations s' = configurations s;
  sb_counter : internalCounter s' = internalCounter s;
  sb_idents : idents s' = idents s;
  sb_docs : forall k, ~ K k -> docs s' !! k = docs s !! k
}.

Lemma same_but_refl K s : same_but K s s.
Proof. done. Qed.

Lemma same_but_answer (K : string -> Prop) s s' nack msg v :
  same_but K s s' -> docs s' !! getKey msg = Some v -> K (getKey msg) ->
  same_but K s (with_docs (<[getKey msg := answer_value nack msg v]> (docs s')) s').
Proof.
  intros [H1 H2 H3 H4] Hv HK. split; cbn; [done|done| |].
  - rewrite <- H3. unfold idents. cbn. rewrite fmap_insert. apply map_eq. intros k.
    destruct (decide (k = getKey msg)) as [->|Hne].
    + rewrite lookup_insert_eq, lookup_fmap, Hv. by destruct nack.
    + by rewrite lookup_insert_ne.
  - intros k Hk. rewrite lookup_insert_ne by congruence. by apply H4.
Qed.

Lemma same_but_stored K s s' k : same_but K s s' -> is_Some (docs s !! k) -> is_Some (docs s' !! k).
Proof.
  intros Hs [v Hv]. assert (H : idents s' !! k = idents s !! k) by (by rewrite (sb_idents _ _ _ Hs)).
  unfold idents in H. rewrite !lookup_fmap, Hv in H. destruct (docs s' !! k); [by eexists|done].
Qed.

(** The answers [J], whose messages are stored, take effect one after the other. *)
Lemma answers_take_effect (K : string -> Prop) J : forall s (a : MemoryStorage * list Stage),
  NoDup J -> same_but K s a.1 ->
  (forall j, j ∈ J -> exists nack msg, a.2 !! j = Some (Calling (answer_op nack msg)) /\
     is_Some (docs s !! getKey msg) /\ K (getKey msg)) ->
  exists a', run_spec J a = Ret a' /\ same_but K s a'.1 /\
    forall j, a'.2 !! j = if decide (j ∈ J) then Some (Over (Number (1, None))) else a.2 !! j.
Proof.
  induction J as [|i J IH]; intros s a Hnd Hs HJ; cbn.
  { exists a. split; [done|]. split; [done|]. intros j. by rewrite decide_False by set_solver. }
  apply NoDup_cons in Hnd as [Hi Hnd].
  destruct (HJ i) as (nack & msg & Hai & Hst & HK); [set_solver|].
  destruct (same_but_stored _ _ _ _ Hs Hst) as [v Hv].
  unfold spec_at. rewrite Hai. cbn. rewrite (spec_answer nack msg a.1 v Hv). cbn.
  set (a1 := (with_docs (<[getKey msg := answer_value nack msg v]> (docs a.1)) a.1, <[i := Over (Number (1, None))]> a.2)).
  destruct (IH s a1 Hnd) as (a' & Hrun & Hs' & Ha').
  - by apply same_but_answer.
  - intros j Hj. destruct (HJ j) as (nack' & msg' & Haj & ?); [set_solver|]. exists nack', msg'.
    split; [|done]. cbn. by rewrite list_lookup_insert_ne by set_solver.
  - exists a'. split; [exact Hrun|]. split; [done|]. intros j. rewrite Ha'. cbn.
    destruct (decide (j = i)) as [->|Hne].
    + rewrite decide_False by done. rewrite decide_True by set_solver.
      by rewrite list_lookup_insert_eq by (by eapply lookup_lt_Some).
    + rewrite list_lookup_insert_ne by done. apply decide_ext. set_solver.
Qed.

(** What a removal counts depends on the queues and the ids only. *)
Lemma counted_perm (g : string * string -> nat) (l l' : list (string * (string * string))) :
  l ≡ₚ l' -> sum_list (map (fun kv => g kv.2) l) = sum_list (map (fun kv => g kv.2) l').
Proof. induction 1; cbn; lia. Qed.

Lemma counted_idents env (g : string * string -> nat) s :
  sum_list (map (fun kv => g (msg_key kv.2)) (map_range (env_order env) (docs s))) =
  sum_list (map (fun kv => g kv.2) (map_to_list (idents s))).
Proof.
  unfold idents. rewrite map_to_list_fmap.
  rewrite <- (counted_perm g (prod_map id msg_key <$> map_range (env_order env) (docs s))).
  - induction (map_range (env_order env) (docs s)) as [|[k v] l IH]; cbn; [done|]. by rewrite IH.
  - by rewrite (map_range_perm (env_order env)).
Qed.

Lemma Remove_same (K : string -> Prop) env q ids s s' :
  same_but K s s' -> (forall k v, K k -> docs s !! k = Some v -> removed_b q ids v = true) ->
  Remove env q ids s' = Remove env q ids s.
Proof.
  intros Hs HK. destruct (Remove env q ids s) as [t [n err]] eqn:E, (Remove env q ids s') as [t' [n' err']] eqn:E'.
  assert (Hdocs : docs t' = docs t).
  { apply map_eq. intros k. assert (Hk : idents s' !! k = idents s !! k) by (by rewrite (sb_idents _ _ _ Hs)).
    unfold idents in Hk. rewrite !lookup_fmap in Hk.
    destruct (docs s !! k) as [v|] eqn:Ev, (docs s' !! k) as [v'|] eqn:Ev'; try done.
    - rewrite (Remove_docs _ _ _ _ _ _ _ _ _ E Ev), (Remove_docs _ _ _ _ _ _ _ _ _ E' Ev').
      cbn in Hk. injection Hk as Hq Hi. assert (Hr : removed_b q ids v' = removed_b q ids v) by (unfold removed_b; by rewrite Hq, Hi).
      rewrite Hr. destruct (removed_b q ids v) eqn:Er; [done|]. rewrite <- Ev, <- Ev'. apply (sb_docs _ _ _ Hs).
      intros HKk. specialize (HK k v HKk Ev). congruence.
    - by rewrite (Remove_docs_sub _ _ _ _ _ _ _ _ E Ev), (Remove_docs_sub _ _ _ _ _ _ _ _ E' Ev'). }
  unfold Remove in E, E'. rewrite remove_loop_spec in E, E'.
  injection E as <- <- <-. injection E' as <- <- <-. cbn in Hdocs. destruct Hs as [H1 H2 H3 _].
  pose proof (counted_idents env (fun x => if String.eqb x.1 q then occurrences x.2 ids else 0%nat)) as Hsum. cbn in Hsum.
  unfold with_docs. cbn. by rewrite Hdocs, H1, H2, !Hsum, H3.
Qed.

Lemma Flush_same K s s' : same_but K s s' -> Flush s' = Flush s.
Proof.
  intros [H1 H2 H3 _]. unfold Flush. rewrite H1, H2. do 4 f_equal.
  assert (Hsz : size (idents s') = size (idents s)) by (by rewrite H3). unfold idents in Hsz.
  rewrite !map_size_fmap in Hsz. by rewrite Hsz.
Qed.

Lemma spec_write_same env m s s' :
  same_but (eq (getKey m)) s s' -> spec_write env m false s' = spec_write env m false s.
Proof.
  intros [H1 H2 _ H4]. unfold spec_write. rewrite H1, H2. do 2 f_equal. apply map_eq. intros k.
  destruct (decide (getKey m = k)) as [<-|Hne]; [by rewrite !lookup_insert_eq|].
  rewrite !lookup_insert_ne by done. by apply H4.
Qed.
