(* ===== verification/Linearizability.v ===== *)
(** * The memory storage under concurrent calls

    What the goroutines of [StorageGoroutines.v] do, whatever their
    interleaving, is what the methods of [MemoryStorage.v] do one after the
    other: each call takes effect at one moment between its first and its last
    access, except for [Insert], which takes effect in two steps for each
    message, its look-up and its write.  A call of [Ack] or [Nack] whose
    message is removed before it writes takes effect just before the removal. *)

From S2P Require Import Prelude Float64 Dtime Utils Message Storage MemoryStorage MemoryStorageFacts.
From S2P Require Import Fixtures Goroutines StorageGoroutines StorageSections.
#[local] Open Scope string_scope.
#[local] Open Scope list_scope.
#[local] Open Scope Z_scope.

(** ** The two runs side by side *)

Definition assigning (ts : list Stage) (j : nat) : Prop :=
  exists nack msg l, ts !! j = Some (Assigning nack msg l).

(** An insertion is never called as one step. *)
Definition stage_ok (st : Stage) : Prop :=
  match st with Calling (OpInsert _ _) => False | _ => True end.

(** A memory and the stages of its calls, and a storage with the stages of the
    same calls on it.  A call that will write through a pointer has yet to take
    effect while its key has that pointer; afterwards, it is over. *)
Record linked (h : Heap) (ts : list Stage) (a : MemoryStorage * list Stage) : Prop := {
  lk_heap : heap_ok h;
  lk_contents : a.1 = contents h;
  lk_ok : Forall stage_ok ts;
  lk_stages : forall j, match ts !! j with
    | Some (Assigning nack msg l) =>
        (exists v, objects h !! l = Some v /\ getKey v = getKey msg) /\
        a.2 !! j = Some (if decide (pointers h !! getKey msg = Some l)
                         then Calling (answer_op nack msg) else Over (Number (1, None)))
    | st => a.2 !! j = st
    end
}.

(** The answers whose pointers a change of the memory replaces. *)
Definition overtaken (h h' : Heap) (ts : list Stage) : list nat :=
  List.filter (fun j => match ts !! j with
    | Some (Assigning nack msg l) =>
        bool_decide (pointers h !! getKey msg = Some l /\ pointers h' !! getKey msg <> Some l)
    | _ => false
    end) (seq 0 (length ts)).

Lemma elem_of_overtaken h h' ts j :
  j ∈ overtaken h h' ts <-> exists nack msg l, ts !! j = Some (Assigning nack msg l) /\
    pointers h !! getKey msg = Some l /\ pointers h' !! getKey msg <> Some l.
Proof.
  unfold overtaken. rewrite list_elem_of_In, filter_In, <- list_elem_of_In, elem_of_seq. split.
  - intros [_ Hb]. destruct (ts !! j) as [[| | |nack msg l|]|]; try done. apply bool_decide_eq_true in Hb.
    by exists nack, msg, l.
  - intros (nack & msg & l & Hj & Hp). split; [apply lookup_lt_Some in Hj; lia|].
    rewrite Hj. by apply bool_decide_eq_true.
Qed.

Lemma NoDup_overtaken h h' ts : NoDup (overtaken h h' ts).
Proof. eapply sublist_NoDup; [apply NoDup_seq|apply filter_sublist]. Qed.

(** The keys that lose their pointers. *)
Definition lost_key (h h' : Heap) (k : string) : Prop :=
  exists l, pointers h !! k = Some l /\ pointers h' !! k <> Some l.

Lemma run_spec_app o1 o2 a : run_spec (o1 ++ o2) a = obind (run_spec o1 a) (run_spec o2).
Proof. revert a. induction o1 as [|i o1 IH]; intros a; [done|]. cbn. destruct (spec_at i a); [apply IH|done]. Qed.

(** A call takes effect, after the answers it overtakes. *)
Lemma linked_effect i st st' h h' ts a :
  linked h ts a -> ts !! i = Some st -> ~ assigning ts i -> stage_ok st' ->
  match st' with Assigning _ _ _ => False | _ => True end ->
  heap_ok h' ->
  (forall l v, objects h !! l = Some v -> exists v', objects h' !! l = Some v' /\ getKey v' = getKey v) ->
  (forall k l, pointers h' !! k = Some l -> pointers h !! k = Some l \/ objects h !! l = None) ->
  (forall s, same_but (lost_key h h') (contents h) s -> spec_step st s = Ret (contents h', st')) ->
  exists a', run_spec (overtaken h h' ts ++ [i]) a = Ret a' /\ linked h' (<[i := st']> ts) a'.
Proof.
  intros [Hh Hc Hok Hst] Hi Hna Hok' Hnot Hh' Hobj Hptr Hspec.
  assert (HJi : i ∉ overtaken h h' ts).
  { intros (nack & msg & l & Hj & _)%elem_of_overtaken. apply Hna. by exists nack, msg, l. }
  destruct (answers_take_effect (lost_key h h') (overtaken h h' ts) (contents h) a) as (a1 & Hrun & Hs1 & Ha1).
  - apply NoDup_overtaken.
  - rewrite Hc. apply same_but_refl.
  - intros j (nack & msg & l & Hj & Hp & Hp')%elem_of_overtaken. exists nack, msg.
    specialize (Hst j). rewrite Hj in Hst. destruct Hst as ((v & Hv & _) & Ha). rewrite decide_True in Ha by done.
    split; [done|]. split; [|by exists l]. exists v. by rewrite docs_contents, Hp.
  - assert (Hai : a1.2 !! i = Some st).
    { rewrite Ha1, decide_False by done. specialize (Hst i). rewrite Hi in Hst. destruct st; try done.
      exfalso. apply Hna. by do 3 eexists. }
    exists (contents h', <[i := st']> a1.2). rewrite run_spec_app, Hrun. cbn. unfold spec_at. rewrite Hai.
    rewrite (Hspec _ Hs1). split; [done|]. split; [done|done|by apply Forall_insert|].
    assert (Hlen : (i < length ts)%nat) by (by eapply lookup_lt_Some).
    assert (Hlen1 : (i < length a1.2)%nat) by (by eapply lookup_lt_Some). intros j. cbn [snd].
    destruct (decide (i = j)) as [<-|Hne].
    { rewrite !list_lookup_insert_eq by done. by destruct st'. }
    rewrite !list_lookup_insert_ne, Ha1 by done. specialize (Hst j).
    destruct (ts !! j) as [[| | |nack msg l|]|] eqn:Hj.
    4: { destruct Hst as ((v & Hv & Hkv) & Ha). destruct (Hobj l v Hv) as (v' & Hv' & Hkv').
         split; [exists v'; split; [done|congruence]|]. destruct (decide (pointers h !! getKey msg = Some l)) as [Hp|Hp].
         - destruct (decide (pointers h' !! getKey msg = Some l)) as [Hp'|Hp'].
           + rewrite decide_False; [done|]. intros (? & ? & ? & Hj' & _ & Hx)%elem_of_overtaken. congruence.
           + rewrite decide_True; [done|]. apply elem_of_overtaken. by exists nack, msg, l.
         - rewrite decide_False; [|intros (? & ? & ? & Hj' & Hx & _)%elem_of_overtaken; congruence].
           rewrite (decide_False (P := pointers h' !! getKey msg = Some l)); [done|].
           intros Hp'. destruct (Hptr _ _ Hp') as [?|?]; congruence. }
    all: rewrite decide_False; [done|]; intros (? & ? & ? & Hj' & _)%elem_of_overtaken; congruence.
Qed.

Lemma same_but_none (K : string -> Prop) s s' : (forall k, ~ K k) -> same_but K s s' -> s' = s.
Proof.
  intros HK [H1 H2 _ H4]. destruct s, s'. cbn in *. subst. f_equal. apply map_eq. auto.
Qed.

Lemma lost_none h h' : pointers h' = pointers h -> forall k, ~ lost_key h h' k.
Proof. intros E k (l & H1 & H2). congruence. Qed.

(** The calls a step of the [i]-th one may bring to their effect. *)
Definition affected (i : nat) (ts : list Stage) (j : nat) : Prop :=
  (j = i \/ assigning ts j) /\ exists st, ts !! j = Some st /\ forall r, st <> Over r.

(** The step of the specification for a section of the [i]-th goroutine. *)
Definition section_refines (i : nat) (h : Heap) (ts : list Stage) (a : MemoryStorage * list Stage)
    (u' : Heap * list Program) : Prop :=
  exists h' ts' J a', u' = (h', program_at <$> ts') /\ run_spec J a = Ret a' /\ linked h' ts' a' /\
    (forall j, j ∈ J -> affected i ts j) /\ (forall j, assigning ts' j -> j = i \/ assigning ts j).

Lemma assigning_insert i ts st j : assigning (<[i := st]> ts) j -> j = i \/ assigning ts j.
Proof.
  intros (nack & msg & l & Hj). destruct (decide (i = j)) as [->|Hne]; [by left|right].
  rewrite list_lookup_insert_ne in Hj by done. by exists nack, msg, l.
Qed.

Lemma effect_refines i st st' h h' ts a :
  linked h ts a -> ts !! i = Some st ->
  match st with Assigning _ _ _ | Over _ => False | _ => True end -> stage_ok st' ->
  match st' with Assigning _ _ _ => False | _ => True end ->
  heap_ok h' ->
  (forall l v, objects h !! l = Some v -> exists v', objects h' !! l = Some v' /\ getKey v' = getKey v) ->
  (forall k l, pointers h' !! k = Some l -> pointers h !! k = Some l \/ objects h !! l = None) ->
  (forall s, same_but (lost_key h h') (contents h) s -> spec_step st s = Ret (contents h', st')) ->
  section_refines i h ts a (h', <[i := program_at st']> (program_at <$> ts)).
Proof.
  intros Hl Hi Hnot Hok' Hnot' Hh' Hobj Hptr Hspec.
  assert (Hna : ~ assigning ts i) by (intros (? & ? & ? & Ha); rewrite Hi in Ha; by simplify_eq).
  destruct (linked_effect i st st' h h' ts a Hl Hi Hna Hok' Hnot' Hh' Hobj Hptr Hspec) as (a' & Hrun & Hl').
  exists h', (<[i := st']> ts), (overtaken h h' ts ++ [i]), a'. split_and!; [|done|done| |].
  - by rewrite list_fmap_insert.
  - intros j [Hj|Hj]%elem_of_app.
    + apply elem_of_overtaken in Hj as (nack & msg & l & Hj & _). split; [right; by do 3 eexists|]. by eexists.
    + apply list_elem_of_singleton in Hj as ->. split; [by left|]. exists st. split; [done|]. intros r ->. done.
  - apply assigning_insert.
Qed.

(** When the memory stays, the call sees the contents. *)
Lemma read_refines i st st' h ts a :
  linked h ts a -> ts !! i = Some st ->
  match st with Assigning _ _ _ | Over _ => False | _ => True end -> stage_ok st' ->
  match st' with Assigning _ _ _ => False | _ => True end ->
  spec_step st (contents h) = Ret (contents h, st') ->
  section_refines i h ts a (h, <[i := program_at st']> (program_at <$> ts)).
Proof.
  intros Hl Hi Hnot Hok' Hnot' Hspec. eapply effect_refines; try done.
  - apply Hl.
  - intros l v Hv. by exists v.
  - by left.
  - intros s Hs. by rewrite (same_but_none _ _ _ (lost_none h h eq_refl) Hs).
Qed.

Lemma section_at i st h ts u' :
  ts !! i = Some st -> section_step i (h, program_at <$> ts) = Ret u' ->
  match program_at st with
  | RLock k | Lock k => exists m q, finish k h = Ret (m, q) /\ u' = (m, <[i := q]> (program_at <$> ts))
  | _ => u' = (h, program_at <$> ts)
  end.
Proof.
  intros Hi. unfold section_step. cbn. rewrite list_lookup_fmap, Hi. cbn.
  destruct (program_at st) as [r|k|k|k|k|k|X f k]; try (by intros [= <-]).
  all: destruct (finish k h) as [[m q]|]; cbn; [intros [= <-]; by do 2 eexists|done].
Qed.

Lemma stage_ok_next env ms i n : stage_ok (next_insert env ms i n).
Proof. destruct ms; cbn; [done|]. by repeat case_match. Qed.

Lemma next_insert_not env ms i n :
  match next_insert env ms i n with Assigning _ _ _ => False | _ => True end.
Proof. destruct ms; cbn; [done|]. by repeat case_match. Qed.

Lemma stored_pointer h key : heap_ok h ->
  bool_decide (is_Some (docs (contents h) !! key)) = bool_decide (is_Some (pointers h !! key)).
Proof.
  intros Hh. apply bool_decide_ext. rewrite docs_contents. destruct (pointers h !! key) as [l|] eqn:E; cbn.
  - destruct (Hh key l E) as (v & -> & _). split; by eexists.
  - done.
Qed.

Lemma write_present_refines env m rest ins n i h ts a u' :
  linked h ts a -> ts !! i = Some (Write env m rest ins n true) ->
  section_step i (h, program_at <$> ts) = Ret u' -> section_refines i h ts a u'.
Proof.
  intros Hl Hi Hs. apply (section_at i _ h ts u' Hi) in Hs as (h' & q & Hf & ->). cbn in Hf.
  unfold assign_doc in Hf. destruct (pointers h !! getKey m) as [l|] eqn:Ep; [|done].
  destruct (lk_heap _ _ _ Hl _ _ Ep) as (v & Hv & Hk). erewrite assign_eq in Hf by done. cbn in Hf. injection Hf as <- <-.
  rewrite <- program_next_insert.
  destruct (contents_assign h l v (update_content m v) (lk_heap _ _ _ Hl) Hv eq_refl) as [Hh' Hc'].
  eapply effect_refines; [done|exact Hi|done|apply stage_ok_next|apply next_insert_not|exact Hh'| | |].
  - intros l0 v0 Hv0. cbn. destruct (decide (l0 = l)) as [->|Hne].
    + rewrite list_lookup_insert_eq by (by eapply lookup_lt_Some). simplify_eq. by eexists.
    + rewrite list_lookup_insert_ne by done. by exists v0.
  - by left.
  - intros s Hs. rewrite (same_but_none _ _ _ (lost_none h _ eq_refl) Hs). cbn.
    rewrite docs_contents, Ep. cbn. rewrite Hv. cbn. rewrite Hc', Hk, decide_True by done. done.
Qed.

Lemma write_absent_refines env m rest ins n i h ts a u' :
  linked h ts a -> ts !! i = Some (Write env m rest ins n false) ->
  section_step i (h, program_at <$> ts) = Ret u' -> section_refines i h ts a u'.
Proof.
  intros Hl Hi Hs. apply (section_at i _ h ts u' Hi) in Hs as (h' & q & Hf & ->). cbn in Hf. injection Hf as <- <-.
  rewrite <- program_next_insert. set (c := (heap_counter h +64 1)%go).
  set (h1 := {| objects := objects h; pointers := pointers h; heap_configurations := heap_configurations h; heap_counter := c |}).
  assert (Hh1 : heap_ok h1) by apply (lk_heap _ _ _ Hl).
  destruct (contents_store h1 (getKey m) (set_identity c (Now env) m) Hh1 eq_refl) as [Hh' Hc'].
  eapply effect_refines; [done|exact Hi|done|apply stage_ok_next|apply next_insert_not|exact Hh'| | |].
  - intros l v Hv. exists v. split; [|done]. cbn. by rewrite lookup_app_l by (by eapply lookup_lt_Some).
  - intros k l Hp. cbn in Hp. apply lookup_insert_Some in Hp as [[<- <-]|[Hne Hp]]; [right|by left].
    by apply lookup_ge_None.
  - intros s [H1 H2 H3 H4]. cbn [spec_step spec_write obind]. do 2 f_equal. etrans; [|symmetry; exact Hc'].
    rewrite H1, H2. unfold with_docs. cbn. f_equal. apply map_eq. intros k. destruct (decide (getKey m = k)) as [<-|Hne].
    { by rewrite !lookup_insert_eq. }
    rewrite !lookup_insert_ne by done. rewrite H4; [done|]. intros (l & Hp & Hp'). apply Hp'. cbn.
    by rewrite lookup_insert_ne.
Qed.

Lemma look_refines env m rest ins n i h ts a u' :
  linked h ts a -> ts !! i = Some (LookUp env m rest ins n) ->
  section_step i (h, program_at <$> ts) = Ret u' -> section_refines i h ts a u'.
Proof.
  intros Hl Hi Hs. apply (section_at i _ h ts u' Hi) in Hs as (h' & q & Hf & ->). cbn in Hf. injection Hf as <- <-.
  set (present := bool_decide (is_Some (pointers h !! getKey m))).
  apply (read_refines i _ (Write env m rest ins n present)) with (2 := Hi); try done.
  cbn. by rewrite stored_pointer by apply Hl.
Qed.

Lemma lost_docs h h' k :
  heap_ok h -> pointers h' ⊆ pointers h -> lost_key h h' k ->
  is_Some (docs (contents h) !! k) /\ docs (contents h') !! k = None.
Proof.
  intros Hh Hsub (l & Hp & Hp'). rewrite !docs_contents, Hp. cbn.
  destruct (Hh k l Hp) as (v & Hv & _). split; [by eexists|].
  destruct (pointers h' !! k) as [l'|] eqn:E; [|done]. pose proof (lookup_weaken _ _ _ _ E Hsub). congruence.
Qed.

(** A call with one section is the same after the answers it overtakes. *)
Lemma call_same op h h' s r :
  heap_ok h -> pointers h' ⊆ pointers h -> one_section op -> spec_call op (contents h) = Ret (contents h', r) ->
  same_but (lost_key h h') (contents h) s -> spec_call op s = Ret (contents h', r).
Proof.
  intros Hh Hsub Hop Hc Hs.
  assert (Hsame : contents h' = contents h -> s = contents h).
  { intros E. apply (same_but_none _ _ _) with (2 := Hs). intros k Hk.
    destruct (lost_docs h h' k Hh Hsub Hk) as [[v Hv] Hn]. rewrite E in Hn. congruence. }
  destruct op as [|env opt|env opt copt|env queue ids| | |env|env|]; try done; cbn in *.
  - rewrite Hsame; [done|]. destruct (Find env opt (contents h)); cbn in Hc; congruence.
  - rewrite Hsame; [done|]. destruct (Count env opt copt (contents h)); cbn in Hc; congruence.
  - destruct (Remove env queue ids (contents h)) as [s1 [n err]] eqn:E. simplify_eq.
    rewrite (Remove_same _ _ _ _ _ _ Hs), E; [done|]. intros k v Hk Hv.
    destruct (lost_docs h h' k Hh Hsub Hk) as [_ Hn]. rewrite (Remove_docs _ _ _ _ _ _ _ _ _ E Hv) in Hn.
    by destruct (removed_b queue ids v).
  - rewrite Hsame; congruence.
  - rewrite Hsame; congruence.
  - change (Ret ((Flush s).1, Number (Flush s).2) = Ret (contents h', r)).
    rewrite (Flush_same _ _ _ Hs). exact Hc.
Qed.

Lemma call_refines op i h ts a u' :
  linked h ts a -> one_section op -> ts !! i = Some (Calling op) ->
  section_step i (h, program_at <$> ts) = Ret u' -> section_refines i h ts a u'.
Proof.
  intros Hl Hop Hi Hstep. apply (section_at i _ h ts u' Hi) in Hstep. cbn in Hstep.
  pose proof (call_section h op (lk_heap _ _ _ Hl) Hop) as He. unfold call_effect in He.
  assert (Hx : exists h' q, finish (body (program op)) h = Ret (h', q) /\ u' = (h', <[i := q]> (program_at <$> ts)))
    by (by destruct op).
  destruct Hx as (h' & q & Hf & ->). rewrite Hf in He.
  destruct (spec_call op (contents h)) as [[s r]|] eqn:Ec; [|done]. destruct He as (-> & -> & Ho & Hp).
  apply (effect_refines i (Calling op) (Over r) h h'); try done.
  - intros k l Hk. rewrite Ho. apply (lk_heap _ _ _ Hl). by eapply lookup_weaken.
  - intros l v Hv. rewrite Ho. by exists v.
  - intros k l Hk. left. by eapply lookup_weaken.
  - intros s Hs. cbn. by rewrite (call_same op h h' s r (lk_heap _ _ _ Hl) Hp Hop Ec Hs).
Qed.

(** The look-up of an answer: it is over, or has the pointer. *)
Lemma answer_look_refines nack msg i h ts a u' :
  linked h ts a -> ts !! i = Some (Calling (answer_op nack msg)) ->
  section_step i (h, program_at <$> ts) = Ret u' -> section_refines i h ts a u'.
Proof.
  intros Hl Hi Hstep. apply (section_at i _ h ts u' Hi) in Hstep.
  assert (Hp : program_at (Calling (answer_op nack msg)) = answer_prog nack msg) by (by destruct nack).
  rewrite Hp in Hstep. cbn in Hstep. destruct Hstep as (h' & q & Hf & ->). injection Hf as <- <-.
  destruct (pointers h !! getKey msg) as [l|] eqn:Ep.
  - exists h, (<[i := Assigning nack msg l]> ts), [], a. split_and!; [|done| |set_solver|apply assigning_insert].
    { by rewrite list_fmap_insert. }
    destruct Hl as [Hh Hc Hok Hst]. split; [done|done|by apply Forall_insert|]. intros j. specialize (Hst j).
    destruct (decide (i = j)) as [<-|Hne].
    + rewrite list_lookup_insert_eq by (by eapply lookup_lt_Some). rewrite Hi in Hst. rewrite decide_True by done.
      split; [|done]. destruct (Hh _ _ Ep) as (v & Hv & Hk). by exists v.
    + by rewrite list_lookup_insert_ne.
  - apply (read_refines i (Calling (answer_op nack msg)) (Over (Number (0, None)))); try done.
    cbn. rewrite spec_answer_absent; [done|]. by rewrite docs_contents, Ep.
Qed.

(** The write of an answer: it takes effect, or already has. *)
Lemma answer_write_refines nack msg l i h ts a u' :
  linked h ts a -> ts !! i = Some (Assigning nack msg l) ->
  section_step i (h, program_at <$> ts) = Ret u' -> section_refines i h ts a u'.
Proof.
  intros Hl Hi Hstep. apply (section_at i _ h ts u' Hi) in Hstep. cbn [program_at] in Hstep.
  destruct Hstep as (h' & q & Hf & ->). destruct Hl as [Hh Hc Hok Hst]. pose proof (Hst i) as Hsti. rewrite Hi in Hsti.
  destruct Hsti as ((v & Hv & Hk) & Ha). rewrite (finish_answer nack msg l h v Hv) in Hf. injection Hf as <- <-.
  destruct (contents_assign h l v (answer_value nack msg v) Hh Hv (getKey_answer nack msg v)) as [Hh' Hc'].
  set (h' := with_objects (<[l := answer_value nack msg v]> (objects h)) h) in *.
  assert (Hobj : forall l0 v0, objects h !! l0 = Some v0 -> exists v1, objects h' !! l0 = Some v1 /\ getKey v1 = getKey v0).
  { intros l0 v0 Hv0. cbn. destruct (decide (l0 = l)) as [->|Hne].
    - rewrite list_lookup_insert_eq by (by eapply lookup_lt_Some). simplify_eq. eexists. split; [done|apply getKey_answer].
    - rewrite list_lookup_insert_ne by done. by exists v0. }
  assert (Hnext : forall s2 a2, s2 = contents h' -> a2 !! i = Some (Over (Number (1, None))) ->
      (forall j, i <> j -> a2 !! j = a.2 !! j) ->
      linked h' (<[i := Over (Number (1, None))]> ts) (s2, a2)).
  { intros s2 a2 Hs2 Hi2 Hother. split; [done|done|by apply Forall_insert|]. intros j. cbn [snd].
    destruct (decide (i = j)) as [<-|Hne]; [by rewrite list_lookup_insert_eq by (by eapply lookup_lt_Some)|].
    rewrite list_lookup_insert_ne, Hother by done. specialize (Hst j).
    destruct (ts !! j) as [[| | |nack' msg' l'|]|]; try done. destruct Hst as ((v' & Hv' & Hk') & Ha').
    destruct (Hobj _ _ Hv') as (v1 & Hv1 & Hk1). split; [|done]. exists v1. split; [done|congruence]. }
  destruct (decide (pointers h !! getKey msg = Some l)) as [Hp|Hp].
  - exists h', (<[i := Over (Number (1, None))]> ts), [i],
      (with_docs (<[getKey msg := answer_value nack msg v]> (docs a.1)) a.1, <[i := Over (Number (1, None))]> a.2).
    assert (Hdoc : docs a.1 !! getKey msg = Some v) by (by rewrite Hc, docs_contents, Hp).
    split_and!; [by rewrite list_fmap_insert| | | |apply assigning_insert].
    + cbn. unfold spec_at. rewrite Ha. cbn. by rewrite (spec_answer nack msg a.1 v Hdoc).
    + apply Hnext; cbn; [|by rewrite list_lookup_insert_eq by (by eapply lookup_lt_Some)|intros; by rewrite list_lookup_insert_ne].
      rewrite Hc', Hk, decide_True by done. by rewrite Hc.
    + intros j ->%list_elem_of_singleton. split; [by left|]. by eexists.
  - exists h', (<[i := Over (Number (1, None))]> ts), [], a.
    split_and!; [by rewrite list_fmap_insert|done| |set_solver|apply assigning_insert].
    destruct a as [s2 a2]. apply Hnext; [|done|done]. cbn in Hc. rewrite Hc', Hk, decide_False by done. exact Hc.
Qed.

Lemma section_linked i st h ts a u' :
  linked h ts a -> ts !! i = Some st -> section_step i (h, program_at <$> ts) = Ret u' ->
  section_refines i h ts a u'.
Proof.
  intros Hl Hi Hstep. destruct st as [env m rest ins n|env m rest ins n []|op|nack msg l|r].
  - by eapply look_refines.
  - by eapply write_present_refines.
  - by eapply write_absent_refines.
  - destruct op as [env ms| | | |msg|msg| | |]; try (refine (call_refines _ i h ts a u' Hl _ Hi Hstep); exact I).
    + pose proof (lk_ok _ _ _ Hl) as Hok. rewrite Forall_lookup in Hok. by apply Hok in Hi.
    + by apply (answer_look_refines false msg i h ts a u').
    + by apply (answer_look_refines true msg i h ts a u').
  - by eapply answer_write_refines.
  - apply (section_at i _ h ts u' Hi) in Hstep. cbn in Hstep. subst u'.
    exists h, ts, [], a. split_and!; try done; [set_solver|by right].
Qed.

(** ** Runs *)

(** A goroutine that has not returned makes a step before all have. *)
Lemma unfinished_moves schedule : forall (w w' : @Process Heap Answer) j p,
  wf w -> goroutines w !! j = Some p -> (forall r, p <> Return r) ->
  run schedule w = Ret w' -> over (goroutines w') -> j ∈ schedule.
Proof.
  induction schedule as [|i l IH]; intros w w' j p Hwf Hj Hp Hrun Ho; cbn in Hrun.
  - simplify_eq. unfold over in Ho. rewrite Forall_lookup in Ho. destruct (Ho j p Hj) as [r ->]. by destruct (Hp r).
  - destruct (step i w) as [w1|] eqn:E; [|done]. cbn in Hrun. destruct (decide (j = i)) as [->|Hne]; [set_solver|].
    apply list_elem_of_further. destruct (step_other j i w w1 p Hwf E Hne Hj) as (Hj1 & _).
    eapply IH; [by eapply step_wf|exact Hj1|done|done|done].
Qed.

Lemma program_at_return st r : stage_ok st -> program_at st = Return r -> st = Over r.
Proof. destruct st as [| |op| |]; try done; [|by intros _ [= ->]]. by destruct op. Qed.

Lemma in_window_later t i j (l : list nat) : i ∈ take t l -> i ∈ take (S t) (j :: l).
Proof. cbn. set_solver. Qed.

Lemma linearize schedule : forall (w w' : @Process Heap Answer) h ts a,
  wf w -> settled w (h, program_at <$> ts) -> linked h ts a ->
  run schedule w = Ret w' -> over (goroutines w') ->
  exists order ts' a', length order = length schedule /\ run_spec (concat order) a = Ret a' /\
    linked (memory w') ts' a' /\ goroutines w' = program_at <$> ts' /\
    forall t J j, order !! t = Some J -> j ∈ J ->
      (j ∈ take (S t) schedule \/ assigning ts j) /\ j ∈ drop t schedule.
Proof.
  induction schedule as [|i l IH]; intros w w' h ts a Hwf Hst Hl Hrun Ho.
  { cbn in Hrun. simplify_eq. pose proof (over_settled _ _ Hwf Hst Ho) as E. injection E as -> E.
    by exists [], ts, a. }
  pose proof Hrun as Hrun0. cbn in Hrun. destruct (step i w) as [w1|] eqn:E; [|done]. cbn in Hrun.
  pose proof (step_wf i w w1 Hwf E) as Hwf1.
  destruct (step_settled i w w1 _ Hwf Hst E) as [Hst1|[(u' & k & Hu & Hik & Hst1)|Hd]].
  - destruct (IH w1 w' h ts a Hwf1 Hst1 Hl Hrun Ho) as (order & ts' & a' & Hlen & Hrs & Hl' & Hg & Hwin).
    exists ([] :: order), ts', a'. split_and!; [by cbn; rewrite Hlen|done|done|done|].
    intros [|t] J j Ht Hj; [by simplify_eq/=; set_solver|]. destruct (Hwin t J j Ht Hj) as [[?|?] ?].
    + split; [left; by apply in_window_later|done].
    + split; [by right|done].
  - assert (Hi : exists st, ts !! i = Some st).
    { cbn in Hik. rewrite list_lookup_fmap in Hik. destruct (ts !! i) as [st|]; [by exists st|by destruct Hik]. }
    destruct Hi as [st Hi].
    destruct (section_linked i st h ts a u' Hl Hi Hu) as (h1 & ts1 & J0 & a1 & -> & Hrun1 & Hl1 & Haff & Hass).
    destruct (IH w1 w' h1 ts1 a1 Hwf1 Hst1 Hl1 Hrun Ho) as (order & ts' & a' & Hlen & Hrs & Hl' & Hg & Hwin).
    exists (J0 :: order), ts', a'. split_and!; [by cbn; rewrite Hlen| |done|done|].
    { cbn. by rewrite run_spec_app, Hrun1. }
    intros [|t] J j Ht Hj.
    + injection Ht as <-. destruct (Haff j Hj) as [Hor (stj & Hsj & Hnot)]. split.
      * destruct Hor as [->|?]; [left; cbn; set_solver|by right].
      * cbn [drop]. pose proof (st_threads _ _ Hst j) as Hs. destruct (goroutines w !! j) as [p|] eqn:Hjp; cycle 1.
        { cbn in Hs. by rewrite list_lookup_fmap, Hsj in Hs. }
        destruct Hs as (q & Hq & Hf). cbn in Hq. rewrite list_lookup_fmap, Hsj in Hq. cbn in Hq. injection Hq as <-.
        apply (unfinished_moves (i :: l) w w' j p Hwf Hjp); [|done|done]. intros r ->. cbn in Hf.
        assert (Hr : program_at stj = Return r) by congruence.
        apply program_at_return in Hr; [by apply (Hnot r)|]. pose proof (lk_ok _ _ _ Hl) as Hok.
        rewrite Forall_lookup in Hok. by eapply Hok.
    + destruct (Hwin t J j Ht Hj) as [[?|Ha] ?]; [split; [left; by apply in_window_later|done]|].
      split; [|done]. apply Hass in Ha as [->|?]; [left; cbn; set_solver|by right].
  - exfalso. eapply over_not_doomed; [exact Ho|]. by eapply doomed_run.
Qed.

(** ** The discipline of the methods *)

(** The arguments for which the lock is always released: a count without an
    invalid breakpoint. *)
Definition op_ok (op : StorageOp) : Prop :=
  match op with OpCount _ findOpts _ => breakpoints_ok (opt_filter findOpts) | _ => True end.

Lemma matches_breakpoint_no_error m text keep r :
  bp_ok text -> matches_breakpoint m text keep = Ret r -> r.2 = None.
Proof.
  intros Hb. unfold matches_breakpoint. case_if; [by intros [= <-]|]. bool_hyps.
  destruct (internal_int64 m); [|done]. cbn. destruct Hb as [?|[z ->]]; [done|]. by intros [= <-].
Qed.

Lemma messageMatchesFilter_no_error m opt r :
  breakpoints_ok (opt_filter opt) -> messageMatchesFilter m opt = Ret r -> r.2 = None.
Proof.
  destruct opt as [o|]; cbn; [|by intros _ [= <-]]. destruct (opt_InternalFilter o) as [f|]; cbn; [|by intros _ [= <-]].
  intros [Hg Hl]. repeat (case_if; [by intros [= <-]|]).
  destruct (matches_breakpoint m (InternalIdBreakpointGt f) _) as [r1|] eqn:Em1; [|done]. cbn.
  apply matches_breakpoint_no_error in Em1; [|done]. case_if; [by intros [= <-]|].
  destruct (matches_breakpoint m (InternalIdBreakpointLte f) _) as [r2|] eqn:Em2; [|done]. cbn.
  apply matches_breakpoint_no_error in Em2; [|done]. case_if; [by intros [= <-]|].
  destruct (f_ExpiryDate f); [case_if|]; by intros [= <-].
Qed.

Lemma load_same key h h' v : load key h = Ret (h', v) -> h' = h.
Proof. unfold load. repeat case_match; congruence. Qed.

Lemma local_same {A} (o : outcome A) h h' x : local_o o h = Ret (h', x) -> h' = h /\ o = Ret x.
Proof. unfold local_o. destruct o; cbn; [|done]. by intros [= -> ->]. Qed.

Lemma find_disciplined env opt keys : forall acc, disciplined Reading (find_keys env opt keys acc).
Proof.
  induction keys as [|key keys IH]; intros acc; cbn.
  - intros h h' x Hx. by apply local_same in Hx as [-> _].
  - intros h h' x Hx. split; [by eapply load_same|]. case_if; [apply IH|].
    intros h1 h1' [b [err|]] Hb; (split; [by apply local_same in Hb as [-> _]|]); [done|apply IH].
Qed.

Lemma count_disciplined opt keys : breakpoints_ok (opt_filter opt) ->
  forall n, disciplined Reading (count_keys opt keys n).
Proof.
  intros Hb. induction keys as [|key keys IH]; intros n; cbn; [done|].
  intros h h' x Hx. split; [by eapply load_same|].
  intros h1 h1' [b err] Hm. apply local_same in Hm as [-> Hm]. split; [done|].
  apply messageMatchesFilter_no_error in Hm as Hn; [|done]. cbn in Hn. subst err. apply IH.
Qed.

Lemma list_disciplined env field keys : forall tm, disciplined Reading (list_keys env field keys tm).
Proof.
  induction keys as [|key keys IH]; intros tm; cbn; [done|].
  intros h h' x Hx. split; [by eapply load_same|apply IH].
Qed.

Lemma remove_each_disciplined key m ids k : (forall n, disciplined Writing (k n)) ->
  forall n, disciplined Writing (remove_each key m ids n k).
Proof. intros Hk. induction ids as [|i ids IH]; intros n; cbn; [done|]. case_if; [intros h h' x _|]; apply IH. Qed.

Lemma remove_disciplined queue ids keys : forall n, disciplined Writing (remove_keys queue ids keys n).
Proof.
  induction keys as [|key keys IH]; intros n; cbn; [done|]. intros h h' x _. case_if; [apply IH|].
  by apply remove_each_disciplined.
Qed.

Lemma insert_disciplined env ms : forall i n, disciplined Out (insert_from env ms i n).
Proof.
  induction ms as [|m ms IH]; intros i n; cbn; [done|]. do 2 (case_if; [done|]). cbn.
  intros h h' x [= <- <-]. split; [done|]. case_bool_decide; cbn.
  - intros h1 h1' u _. apply IH.
  - intros h1 h1' c _ h2 h2' u _. apply IH.
Qed.

Lemma program_disciplined op : op_ok op -> disciplined Out (program op).
Proof.
  assert (Hread : forall env (f : list string -> Program), (forall keys, disciplined Reading (f keys)) ->
    disciplined Out (RLock (Access (range_keys env) f))).
  { intros env f Hf. cbn. intros h h' x [= <- <-]. split; [done|apply Hf]. }
  destruct op as [env ms|env opt|env opt copt|env queue ids|msg|msg|env|env|]; cbn [op_ok program]; intros Hop.
  - apply insert_disciplined.
  - apply Hread. intros. apply find_disciplined.
  - apply Hread. intros. by apply count_disciplined.
  - cbn. intros h h' x _. apply remove_disciplined.
  - cbn. intros h h' x [= <- <-]. split; [done|]. by destruct (pointers h !! getKey msg).
  - cbn. intros h h' x [= <- <-]. split; [done|]. by destruct (pointers h !! getKey msg).
  - apply Hread. intros. apply list_disciplined.
  - apply Hread. intros. apply list_disciplined.
  - done.
Qed.

Lemma calls_disciplined ops : Forall op_ok ops -> Forall (disciplined Out) (map program ops).
Proof. intros H. apply Forall_fmap. eapply Forall_impl; [exact H|]. apply program_disciplined. Qed.

Lemma begin_linked h ops : heap_ok h -> linked h (map begin ops) (contents h, map begin ops).
Proof.
  intros Hh. assert (Hb : forall op, stage_ok (begin op) /\ match begin op with Assigning _ _ _ => False | _ => True end).
  { intros op. destruct op; cbn; try done. split; [apply stage_ok_next|apply next_insert_not]. }
  split; [done|done|apply Forall_fmap, Forall_true; intros op; apply Hb|]. intros j. cbn [snd].
  destruct (map begin ops !! j) as [st|] eqn:E; [|done]. rewrite list_lookup_fmap in E.
  destruct (ops !! j) as [op|]; [|done]. cbn in E. injection E as <-. destruct (Hb op) as [_ Hn].
  by destruct (begin op).
Qed.

(** C15. The memory storage is linearizable.  Whatever the interleaving of the
    accesses of any calls, when all of them have returned, there is an order
    of their effects for which the contents of the storage and every result
    are those of the methods applied one after the other; and each effect has
    its place at a moment of the run at which its call had begun and was not
    over.  A call has one effect, an insertion two for each message: its
    look-up and its write, which may find that the look-up no longer holds. *)
Theorem memory_storage_linearizable ops h schedule w'
    (Hh : heap_ok h) (Hops : Forall op_ok ops)
    (Hrun : run schedule (calls h ops) = Ret w') (Hover : over (goroutines w')) :
  exists (order : list (list nat)) ts,
    length order = length schedule /\
    run_spec (concat order) (contents h, map begin ops) = Ret (contents (memory w'), ts) /\
    (forall i r, goroutines w' !! i = Some (Return r) <-> ts !! i = Some (Over r)) /\
    (forall t effects i, order !! t = Some effects -> i ∈ effects ->
       i ∈ take (S t) schedule /\ i ∈ drop t schedule).
Proof.
  destruct (linearize schedule (calls h ops) w' h (map begin ops) (contents h, map begin ops))
    as (order & ts' & a' & Hlen & Hspec & Hl & Hg & Hwin); [..|exact Hrun|exact Hover|].
  - by apply start_wf, calls_disciplined.
  - replace (program_at <$> map begin ops) with (map program ops).
    + by apply start_settled, calls_disciplined.
    + clear. induction ops as [|op ops IH]; cbn; [done|]. by rewrite program_begin, IH.
  - by apply begin_linked.
  - destruct Hl as [Hh' Hc Hok Hst]. destruct a' as [s ats]. cbn [fst snd] in *. subst s.
    assert (Hats : forall j, ats !! j = ts' !! j).
    { intros j. specialize (Hst j). destruct (ts' !! j) as [[| | |nack msg l|]|] eqn:Hj; try done.
      exfalso. unfold over in Hover. rewrite Forall_lookup in Hover. destruct (Hover j (program_at (Assigning nack msg l))).
      { by rewrite Hg, list_lookup_fmap, Hj. } done. }
    exists order, ats. split_and!; [done|done| |].
    + intros i r. rewrite Hats, Hg, list_lookup_fmap. split; [|by intros ->].
      destruct (ts' !! i) as [st|] eqn:Hi; [|done]. cbn. intros [= Hr]. f_equal.
      apply program_at_return; [|done]. rewrite Forall_lookup in Hok. by eapply Hok.
    + intros t effects i Ht Hi. destruct (Hwin t effects i Ht Hi) as [[?|(nack & msg & l & Hi')] ?]; [done|].
      exfalso. rewrite list_lookup_fmap in Hi'. destruct (ops !! i) as [op|]; [|done]. cbn in Hi'. injection Hi' as Hi'.
      destruct op; cbn in Hi'; try done. by pose proof (next_insert_not env messages 0 0) as Hn; rewrite Hi' in Hn.
Qed.

(** A stored message, [a]. *)
Definition one_stored : Heap := {|
  objects := [msg "q" "a" 10 0]; pointers := {["q:a" := 0%nat]}; heap_configurations := ∅; heap_counter := 1
|}.

Lemma one_stored_ok : heap_ok one_stored.
Proof.
  intros key l H. cbn in H. apply lookup_singleton_Some in H as [<- <-]. by exists (msg "q" "a" 10 0).
Qed.

Definition process_of (o : outcome (@Process Heap Answer)) : @Process Heap Answer :=
  match o with Ret w => w | Panic _ => start one_stored [] end.

(** An ack of [a] looks its message up; a removal deletes it; a listing finds
    nothing; the ack then writes to a message no longer stored, and reports
    that it changed one, as if it came before the removal. *)
Definition overtaken_ack : list StorageOp :=
  [OpAck (msg "q" "a" 7 0); OpRemove (at_ms 1000) "q" ["a"]; OpListQueueNames (at_ms 1000)].

Definition overtaken_schedule : list nat := replicate 3 0%nat ++ replicate 6 1%nat ++ replicate 4 2%nat ++ replicate 7 0%nat.

Lemma memory_storage_linearizable_witness :
  let w := process_of (run overtaken_schedule (calls one_stored overtaken_ack)) in
  goroutines w = [Return (Number (1, None)); Return (Number (1, None)); Return (Names ([], None))] /\
  exists order ts,
    run_spec (concat order) (contents one_stored, map begin overtaken_ack) = Ret (contents (memory w), ts) /\
    ts !! 0%nat = Some (Over (Number (1, None))).
Proof.
  intros w. assert (Hg : goroutines w = [Return (Number (1, None)); Return (Number (1, None)); Return (Names ([], None))])
    by (vm_compute; reflexivity).
  split; [exact Hg|].
  destruct (memory_storage_linearizable overtaken_ack one_stored overtaken_schedule w one_stored_ok)
    as (order & ts & _ & Hrun & Hts & _).
  - by repeat constructor.
  - vm_compute. reflexivity.
  - rewrite Hg. repeat constructor; by eexists.
  - exists order, ts. split; [exact Hrun|]. apply Hts. by rewrite Hg.
Defined.

(** ** Two defects *)

(** C16. An insertion of a message that is stored panics when the message is
    removed between the look-up and the write, which dereferences the pointer
    that is gone; the panic ends the process. *)
Theorem insert_overtaken_panics h env env' m l v
    (Hh : heap_ok h) (Hp : pointers h !! getKey m = Some l) (Hv : objects h !! l = Some v)
    (Hq : Queue v = Queue m) (Hi : ID v = ID m) (Hvalid : Queue m <> "" /\ ID m <> "") :
  exists schedule,
    run schedule (calls h [OpInsert env [m]; OpRemove env' (Queue m) [ID m]]) = Panic nil_dereference.
Proof.
  set (rest := insert_from env [] 0 (0 + 1)).
  set (write := Lock (insert_write env m true rest)).
  set (remove := program (OpRemove env' (Queue m) [ID m])).
  assert (H3 : run (replicate 3 0%nat) (calls h [OpInsert env [m]; OpRemove env' (Queue m) [ID m]]) = Ret (start h [write; remove])).
  { cbn. rewrite !(proj2 (String.eqb_neq _ _)) by tauto. cbn. rewrite Hp. cbn. unfold start. do 2 f_equal. }
  assert (Hd : disciplined Writing (body remove)) by (cbn; intros h0 h' x _; apply remove_disciplined).
  pose proof (write_alone 1 h [write; remove] (body remove) eq_refl Hd) as H1.
  pose proof (call_section h (OpRemove env' (Queue m) [ID m]) Hh I) as He. unfold call_effect in He. cbn [spec_call] in He.
  fold remove in He. destruct (Remove env' (Queue m) [ID m] (contents h)) as [s [n err]] eqn:Er.
  destruct (finish (body remove) h) as [[h' q]|]; [|done]. destruct He as (_ & -> & Ho & Hsub). destruct H1 as [n1 H1].
  assert (Hgone : pointers h' !! getKey m = None).
  { destruct (pointers h' !! getKey m) as [l'|] eqn:E; [|done]. pose proof (lookup_weaken _ _ _ _ E Hsub) as E'.
    assert (Hc : docs (contents h) !! getKey m = Some v) by (by rewrite docs_contents, Hp).
    pose proof (Remove_docs _ _ _ _ _ _ _ _ _ Er Hc) as Hd'. unfold removed_b in Hd'.
    rewrite Hq, Hi, String.eqb_refl, bool_decide_eq_true_2 in Hd' by set_solver. cbn in Hd'.
    rewrite docs_contents, E, Ho in Hd'. cbn in Hd'. congruence. }
  pose proof (write_alone 0 h' [write; q] (insert_write env m true rest) eq_refl) as H0.
  cbn [finish insert_write] in H0. unfold assign_doc in H0. rewrite Hgone in H0. cbn [obind] in H0.
  destruct H0 as [n0 H0]; [by cbn|].
  exists (replicate 3 0%nat ++ replicate n1 1%nat ++ replicate n0 0%nat).
  rewrite run_app, H3. cbn [obind]. rewrite run_app, H1. cbn [obind]. exact H0.
Qed.

Lemma insert_overtaken_panics_witness : exists schedule,
  run schedule (calls one_stored [OpInsert (at_ms 1000) [msg "q" "a" 7 0]; OpRemove (at_ms 1000) "q" ["a"]]) =
  Panic nil_dereference.
Proof.
  apply (insert_overtaken_panics one_stored (at_ms 1000) (at_ms 1000) (msg "q" "a" 7 0) 0 (msg "q" "a" 10 0)); try reflexivity.
  - exact one_stored_ok.
  - split; discriminate.
Defined.

Lemma accesses_count opt h l : forall n,
  (forall k v, (k, v) ∈ l -> docs (contents h) !! k = Some v) ->
  accesses (count_keys opt l.*1 n) h =
  obind (count_loop opt l n) (fun r =>
    Ret (h, match r.2 with Some _ => Return (Number r) | None => RUnlock (Return (Number r)) end)).
Proof.
  induction l as [|[k v] l IH]; intros n Hl; cbn; [done|].
  rewrite (load_contents h k v) by (apply Hl; set_solver). cbn. unfold local_o.
  destruct (messageMatchesFilter v opt) as [[b [err|]]|]; cbn; [done| |done].
  apply IH. intros; apply Hl; set_solver.
Qed.

(** A count that reports an error (its breakpoint is not a number) returns
    without releasing the lock: from then on the storage never changes, and no
    removal and no flush returns. *)
Theorem count_error_blocks_writers h env opt copt n err ops
    (Hcount : Count env opt copt (contents h) = Ret (n, Some err)) (Hops : Forall op_ok ops) :
  exists turns w,
    run (replicate turns 0%nat) (calls h (OpCount env opt copt :: ops)) = Ret w /\
    goroutines w !! 0%nat = Some (Return (Number (n, Some err))) /\
    forall schedule w', run schedule w = Ret w' ->
      memory w' = h /\
      forall j op k, ops !! j = Some op -> program op = Lock k ->
        forall r, goroutines w' !! S j <> Some (Return r).
Proof.
  destruct (range_visits env h) as [_ Hv]. unfold Count in Hcount.
  set (keys := (map_range (env_order env) (docs (contents h))).*1).
  assert (Ha : accesses (count_keys opt keys 0) h = Ret (h, Return (Number (n, Some err))))
    by (unfold keys; rewrite accesses_count, Hcount by done; done).
  set (w2 := {| memory := h; readers := {[0%nat]} ∪ ∅; writer := None;
                goroutines := count_keys opt keys 0 :: map program ops |} : @Process Heap Answer).
  destruct (accesses_alone (count_keys opt keys 0) 0 w2 h _ eq_refl Ha) as [t Ht].
  set (w := {| memory := h; readers := {[0%nat]} ∪ ∅; writer := None;
               goroutines := Return (Number (n, Some err)) :: map program ops |} : @Process Heap Answer).
  exists (2 + t)%nat, w. split_and!; [|done|].
  - exact Ht.
  - intros schedule w' Hrun. assert (Hl : leaked 0 w).
    { split; [cbn; set_solver|by eexists|]. intros j p Hj Hp. right. right. cbn in Hp.
      destruct j as [|j]; [done|]. change (map program ops !! j = Some p) in Hp. rewrite list_lookup_fmap in Hp.
      destruct (ops !! j) as [op|] eqn:Eo; [|done]. cbn in Hp. injection Hp as <-.
      split; [cbn; set_solver|]. split; [done|]. apply program_disciplined. rewrite Forall_lookup in Hops. by eapply Hops. }
    destruct (leaked_run 0 schedule w w' Hl Hrun) as [Hm Hw]. split; [done|].
    intros j op k Hj Hk r. destruct (Hw (S j) k) as [->| ->]; [|done..]. left.
    change (map program ops !! j = Some (Lock k)). by rewrite list_lookup_fmap, Hj, <- Hk.
Qed.

(** A count with the breakpoint [x], and a removal. *)
Definition bad_breakpoint : FindOptions :=
  filter_only (Some {| InternalIdBreakpointGt := "x"; InternalIdBreakpointLte := ""; Ids := None;
    f_Queue := ""; f_QueuePrefix := ""; f_ExpiryDate := None |}).

Lemma count_error_blocks_writers_witness :
  let stored := {| objects := [set_identity 1 0 (msg "q" "a" 10 0)]; pointers := {["q:a" := 0%nat]};
                   heap_configurations := ∅; heap_counter := 1 |} in
  exists turns w,
    run (replicate turns 0%nat) (calls stored [OpCount (at_ms 1000) (Some bad_breakpoint) None; OpRemove (at_ms 1000) "q" ["a"]]) = Ret w /\
    forall schedule w', run schedule w = Ret w' -> forall r, goroutines w' !! 1%nat <> Some (Return r).
Proof.
  intros stored.
  destruct (count_error_blocks_writers stored (at_ms 1000) (Some bad_breakpoint) None 0 breakpoint_error
    [OpRemove (at_ms 1000) "q" ["a"]]) as (turns & w & Hrun & _ & Hblocked).
  - vm_compute. reflexivity.
  - by repeat constructor.
  - exists turns, w. split; [exact Hrun|]. intros schedule w' Hs r.
    destruct (Hblocked schedule w' Hs) as [_ H]. by apply (H 0%nat (OpRemove (at_ms 1000) "q" ["a"]) _ eq_refl eq_refl).
Defined.

(** ** An insertion by itself *)

Lemma over_stays k s r : run_spec (replicate k 0%nat) (s, [Over r]) = Ret (s, [Over r]).
Proof. induction k as [|k IH]; [done|]. cbn. exact IH. Qed.

Lemma insert_alone env ms : forall s i n,
  run_spec (replicate (2 * length ms) 0%nat) (s, [next_insert env ms i n]) =
  let '(s', r) := insert_loop env ms s i n in Ret (s', [Over (Counts r)]).
Proof.
  induction ms as [|m ms IH]; intros s i n; [done|]. cbn [insert_loop next_insert].
  replace (2 * length (m :: ms))%nat with (2 + 2 * length ms)%nat by (cbn; lia).
  case_if; [apply over_stays|]. case_if; [apply over_stays|].
  change (replicate (2 + 2 * length ms) 0%nat) with ([0; 0]%nat ++ replicate (2 * length ms) 0%nat).
  rewrite run_spec_app. cbn [run_spec]. unfold spec_at at 1. cbn.
  destruct (docs s !! getKey m) as [v|] eqn:Em; cbn; unfold spec_at; cbn; rewrite ?Em; cbn; apply IH.
Qed.

(** The two steps of the messages of an insertion, without other calls between
    them, are the insertion of [MemoryStorage.v]. *)
Theorem insertion_alone env ms s :
  run_spec (replicate (2 * length ms) 0%nat) (s, [begin (OpInsert env ms)]) =
  obind (spec_call (OpInsert env ms) s) (fun '(s', r) => Ret (s', [Over r])).
Proof.
  cbn [begin spec_call]. rewrite insert_alone. unfold Insert. by destruct (insert_loop env ms s 0 0).
Qed.
