(* ===== verification/AuditTrail.v ===== *)
(** * The auditor

    [internal/audit]: the entries, the [Auditor] interface as a class, what
    [Store] makes of an entry, and the log of the entries stored.  The requests
    of the sender are in [AuditBulk.v], its loop in [AuditSender.v]. *)

From S2P Require Import Prelude Float64 Dtime Message.
#[local] Open Scope string_scope.
#[local] Open Scope list_scope.
#[local] Open Scope Z_scope.

(** ** Entries *)

Inductive Signal := ACK | NACK | TIMEOUT | REMOVE | UNLOCK | INSERT_CACHE | MISSING_STORAGE.

#[export] Instance Signal_eq_dec : EqDecision Signal.
Proof. solve_decision. Defined.

Record Entry := {
  e_ID : string;
  e_Queue : string;
  e_QueuePrefix : string;
  e_QueueSuffix : string;
  e_LastScoreSubtract : float64;
  e_Timestamp : Time;
  e_Breakpoint : string;
  e_Signal : Signal;
  e_Reason : string;
  e_LockMs : Z
}.

(** [Entry{ID: i, Queue: queue, Signal: signal, Reason: reason}]. *)
Definition entry (i queue : string) (signal : Signal) (reason : string) : Entry := {|
  e_ID := i; e_Queue := queue; e_QueuePrefix := ""; e_QueueSuffix := "";
  e_LastScoreSubtract := f64_zero; e_Timestamp := time_zero; e_Breakpoint := "";
  e_Signal := signal; e_Reason := reason; e_LockMs := 0
|}.

(** The entry of an ack or a nack of a message, with the lock time given. *)
Definition message_entry (m : Message) (signal : Signal) (reason : string) (lockMs : Z) : Entry := {|
  e_ID := ID m; e_Queue := Queue m; e_QueuePrefix := ""; e_QueueSuffix := "";
  e_LastScoreSubtract := LastScoreSubtract m; e_Timestamp := time_zero;
  e_Breakpoint := Breakpoint m; e_Signal := signal; e_Reason := reason; e_LockMs := lockMs
|}.

(** The [Auditor] interface: what [Store] does to the state of the auditor. *)
Class Auditor (A : Type) := { auditor_Store : Env -> Entry -> A -> A }.

(** ** [Store] *)

(** The fields [Store] sets before it sends the entry to the channel. *)
Definition fill_entry (env : Env) (entry : Entry) : Entry :=
  let '(queuePrefix, queueSuffix) := GetQueueParts (e_Queue entry) in
  {| e_ID := e_ID entry; e_Queue := e_Queue entry; e_QueuePrefix := queuePrefix;
     e_QueueSuffix := if negb (String.eqb queueSuffix "") then queueSuffix else e_QueueSuffix entry;
     e_LastScoreSubtract := e_LastScoreSubtract entry; e_Timestamp := Now env;
     e_Breakpoint := e_Breakpoint entry; e_Signal := e_Signal entry; e_Reason := e_Reason entry;
     e_LockMs := e_LockMs entry |}.

(** The entries stored, in order: what the clients of the auditor observe. *)
Definition AuditLog : Type := list Entry.

#[export] Instance AuditLog_Auditor : Auditor AuditLog :=
  { auditor_Store := fun env entry log => log ++ [fill_entry env entry] }.

(** ** Examples *)

(** An entry of the audit, for evaluation. *)
Definition sample_entry (i : string) : Entry := entry i "q" ACK "".

Definition sample_env : Env :=
  {| env_now := 0; env_order := canonical_order; env_sort := canonical_sort |}.
