(* ===== verification/QueueConfiguration.v ===== *)
(** * The queue configuration service

    [internal/queue/queue_configuration_service.go]: a local cache, a
    third-party expiring map, in front of the configurations of the storage.

    The storage is shared: other instances of the process, and the flush of
    this one, change it without telling the local cache.  A limit that is read
    can therefore be old, but not older than the local cache keeps it. *)

From S2P Require Import Prelude Float64 Dtime Message Storage Fixtures MemoryStorage MemoryStorageFacts.
#[local] Open Scope string_scope.
#[local] Open Scope Z_scope.

(** ** The local cache *)

(** The time [cache.New] is given: how long a value is kept. *)
Definition DefaultExpiration : Z := 9 * Minute.

(** [github.com/patrickmn/go-cache].  The laws are its documented behaviour: a
    new cache is empty; a key reads as the value last set, until it expires,
    [DefaultExpiration] after it was set, or is deleted; it does not come back
    later; the other keys are not affected. *)
Class LocalCache (L : Type) := {
  lc_Get : Env -> string -> L -> option QueueConfiguration;
  lc_Set : Env -> string -> QueueConfiguration -> L -> L;
  lc_Delete : string -> L -> L;
  lc_New : L;
  lc_Get_New : forall env k, lc_Get env k lc_New = None;
  lc_Get_kept : forall env env' k v l, lc_Get env k (lc_Set env' k v l) <> None ->
    Now env <= Now env' + DefaultExpiration;
  lc_Get_Set : forall env env' k v l x, lc_Get env k (lc_Set env' k v l) = Some x -> x = v;
  lc_Get_Set_other : forall env env' k k' v l, k <> k' ->
    lc_Get env k' (lc_Set env' k v l) = lc_Get env k' l;
  lc_Get_expired : forall env env' k l, lc_Get env k l = None -> Now env <= Now env' ->
    lc_Get env' k l = None;
  lc_Get_Delete : forall env k l, lc_Get env k (lc_Delete k l) = None;
  lc_Get_Delete_other : forall env k k' l, k <> k' ->
    lc_Get env k' (lc_Delete k l) = lc_Get env k' l
}.

(** A concrete expiring map: values with the time they expire at. *)
Abbreviation ExpiringMap := (gmap string (QueueConfiguration * Time)) (only parsing).

#[export] Instance ExpiringMap_LocalCache : LocalCache ExpiringMap.
Proof.
  refine {|
    lc_Get := fun env k l =>
      match l !! k with
      | Some (v, expiration) => if Now env <=? expiration then Some v else None
      | None => None
      end;
    lc_Set := fun env k v l => <[k := (v, Now env + DefaultExpiration)]> l;
    lc_Delete := fun k l => delete k l;
    lc_New := ∅
  |}.
  - intros env k. by rewrite lookup_empty.
  - intros env env' k v l. rewrite lookup_insert_eq. case_if; [by bool_hyps|done].
  - intros env env' k v l x. rewrite lookup_insert_eq. case_if; congruence.
  - intros env env' k k' v l Hne. by rewrite lookup_insert_ne.
  - intros env env' k l. destruct (l !! k) as [[v e]|]; [|done].
    destruct (Z.leb_spec (Now env) e); [done|]. intros _ Hle. case_if; bool_hyps; [lia|done].
  - intros env k l. by rewrite lookup_delete_eq.
  - intros env k k' l Hne. by rewrite lookup_delete_ne.
Defined.

(** ** The service *)

Section Service.
Context {S L : Type} `{Storage S} `{LocalCache L}.

(** The storage is shared with the queue, so the state of the service is the
    local cache, and its operations take the storage. *)
Definition svc_EditQueueConfiguration (env : Env) (cfg : option QueueConfiguration)
    (s : S) (localCache : L) : S * L * option error :=
  match cfg with
  | None => (s, localCache, None)
  | Some cfg =>
      if MaxElements cfg =? 0 then (s, localCache, None)
      else match lc_Get env (cfg_Queue cfg) localCache with
      | None =>
          let '(s, err) := storage_EditQueueConfiguration env cfg s in
          (s, localCache, err)
      | Some cacheConfiguration =>
          if negb (MaxElements cacheConfiguration =? MaxElements cfg) then
            let '(s, err) := storage_EditQueueConfiguration env cfg s in
            (s, lc_Delete (cfg_Queue cfg) localCache, err)
          else (s, localCache, None)
      end
  end.

Definition svc_GetQueueConfiguration (env : Env) (queue : string) (s : S) (localCache : L) :
    L * result (option QueueConfiguration) :=
  match lc_Get env queue localCache with
  | Some cacheConfig => (localCache, (Some cacheConfig, None))
  | None =>
      match storage_GetQueueConfiguration env queue s with
      | (_, Some err) => (localCache, (None, Some err))
      | (config, None) =>
          let config := default {| cfg_Queue := queue; MaxElements := 0 |} config in
          (lc_Set env queue config localCache, (Some config, None))
      end
  end.
End Service.

(** ** Histories *)

Section Histories.
Context {S L : Type} `{HS : StorageSpec S} `{HL : LocalCache L}.

(** The configuration of a queue: no limit unless the storage has one. *)
Definition effective (s : S) (queue : string) : QueueConfiguration :=
  default {| cfg_Queue := queue; MaxElements := 0 |} (config s queue).

(** The histories of a service, up to the time [now]: its calls, failed ones
    included, and, unless it is [alone], any changes of the storage by others.
    [h] holds the states the storage was in, with their times, the last first. *)
Inductive history (alone : bool) : Time -> S -> L -> list (Time * S) -> Prop :=
  | history_new now s : storage_inv s -> history alone now s lc_New [(now, s)]
  | history_edit now s l h env cfg s' l' err :
      history alone now s l h -> now <= Now env ->
      svc_EditQueueConfiguration env cfg s l = (s', l', err) ->
      history alone (Now env) s' l' ((Now env, s') :: h)
  | history_get now s l h env queue l' r :
      history alone now s l h -> now <= Now env ->
      svc_GetQueueConfiguration env queue s l = (l', r) ->
      history alone (Now env) s l' ((Now env, s) :: h)
  | history_other now s l h t s' :
      alone = false -> history alone now s l h -> now <= t -> storage_inv s' ->
      history alone t s' l ((t, s') :: h).

(** What the local cache holds at [now] is what the storage had at some moment
    of [h], not more than [DefaultExpiration] before it is read. *)
Definition recent (now : Time) (l : L) (h : list (Time * S)) : Prop :=
  forall env q c, now <= Now env -> lc_Get env q l = Some c ->
    exists t0 s0, (t0, s0) ∈ h /\ t0 <= now /\ Now env <= t0 + DefaultExpiration /\ c = effective s0 q.

(** From [now] on the local cache holds no other configuration than the
    storage. *)
Definition coherent (now : Time) (s : S) (l : L) : Prop :=
  forall env q c, now <= Now env -> lc_Get env q l = Some c -> c = effective s q.

Lemma recent_later now now' l h x : recent now l h -> now <= now' -> recent now' l (x :: h).
Proof using Type.
  intros Hr Hle env q c Hn Hg. destruct (Hr env q c ltac:(lia) Hg) as (t0 & s0 & Hin & ? & ? & ?).
  exists t0, s0. split; [by apply list_elem_of_further|]. split; [lia|]. by split.
Qed.

Lemma recent_delete now k l h : recent now l h -> recent now (lc_Delete k l) h.
Proof using Type.
  intros Hr env q c Hn Hg. destruct (decide (k = q)) as [<-|Hne]; [by rewrite lc_Get_Delete in Hg|].
  rewrite lc_Get_Delete_other in Hg by done. by apply Hr.
Qed.

(** The two ways an edit that does anything ends. *)
Lemma svc_Edit_cases env cfg (s s' : S) (l l' : L) err :
  svc_EditQueueConfiguration env (Some cfg) s l = (s', l', err) -> MaxElements cfg <> 0 ->
  (storage_EditQueueConfiguration env cfg s = (s', err) /\ lc_Get env (cfg_Queue cfg) l' = None /\
     (l' = l \/ l' = lc_Delete (cfg_Queue cfg) l)) \/
  (s' = s /\ l' = l /\ err = None /\
     exists c, lc_Get env (cfg_Queue cfg) l = Some c /\ MaxElements c = MaxElements cfg).
Proof using Type.
  intros Hedit Hne. unfold svc_EditQueueConfiguration in Hedit. rewrite (proj2 (Z.eqb_neq _ 0) Hne) in Hedit.
  destruct (lc_Get env (cfg_Queue cfg) l) as [c|] eqn:El.
  - destruct (Z.eqb_spec (MaxElements c) (MaxElements cfg)) as [E|E]; cbn [negb] in Hedit.
    + right. simplify_eq. split_and!; try done. by exists c.
    + left. destruct (storage_EditQueueConfiguration env cfg s) as [s1 e]. simplify_eq.
      split; [done|]. split; [apply lc_Get_Delete|by right].
  - left. destruct (storage_EditQueueConfiguration env cfg s) as [s1 e]. simplify_eq. by split_and!; [| |left].
Qed.

Lemma svc_Edit_inv env cfg (s s' : S) (l l' : L) err :
  storage_inv s -> svc_EditQueueConfiguration env cfg s l = (s', l', err) -> storage_inv s'.
Proof using HS.
  intros Hs Hedit. destruct cfg as [cfg|]; [|unfold svc_EditQueueConfiguration in Hedit; by simplify_eq].
  destruct (decide (MaxElements cfg = 0)) as [Hz|Hne].
  { unfold svc_EditQueueConfiguration in Hedit. rewrite (proj2 (Z.eqb_eq _ 0) Hz) in Hedit. by simplify_eq. }
  apply svc_Edit_cases in Hedit as [(He & _)|(-> & _)]; [|done|done].
  destruct err; [by apply spec_EditQueueConfiguration_error in He as [? _]|].
  by apply spec_EditQueueConfiguration in He as [? _].
Qed.

Lemma svc_Edit_recent env cfg now (s s' : S) (l l' : L) err h x :
  recent now l h -> now <= Now env -> svc_EditQueueConfiguration env cfg s l = (s', l', err) ->
  recent (Now env) l' (x :: h).
Proof using Type.
  intros Hr Hle Hedit. destruct cfg as [cfg|].
  2: { unfold svc_EditQueueConfiguration in Hedit. simplify_eq. by apply (recent_later now). }
  destruct (decide (MaxElements cfg = 0)) as [Hz|Hne].
  { unfold svc_EditQueueConfiguration in Hedit. rewrite (proj2 (Z.eqb_eq _ 0) Hz) in Hedit. simplify_eq.
    by apply (recent_later now). }
  apply svc_Edit_cases in Hedit as [(_ & _ & [->| ->])|(_ & -> & _)]; [| | |done].
  - by apply (recent_later now).
  - apply recent_delete. by apply (recent_later now).
  - by apply (recent_later now).
Qed.

Lemma svc_Get_cases env q (s : S) (l l' : L) r :
  storage_inv s -> svc_GetQueueConfiguration env q s l = (l', r) ->
  (exists c, lc_Get env q l = Some c /\ l' = l /\ r = (Some c, None)) \/
  (lc_Get env q l = None /\ l' = lc_Set env q (effective s q) l /\ r = (Some (effective s q), None)) \/
  (l' = l /\ exists err, r = (None, Some err)).
Proof using HS.
  intros Hs. unfold svc_GetQueueConfiguration. destruct (lc_Get env q l) as [c|] eqn:E.
  { intros [= <- <-]. left. by exists c. }
  destruct (storage_GetQueueConfiguration env q s) as [c [e|]] eqn:Eg.
  - intros [= <- <-]. right. right. split; [done|]. by exists e.
  - apply spec_GetQueueConfiguration in Eg as ->; [|done]. intros [= <- <-]. by right; left.
Qed.

Lemma svc_Get_recent env q now (s : S) (l l' : L) r h :
  storage_inv s -> recent now l h -> now <= Now env -> svc_GetQueueConfiguration env q s l = (l', r) ->
  recent (Now env) l' ((Now env, s) :: h).
Proof using HS.
  intros Hs Hr Hle Hget. pose proof (recent_later now (Now env) l h (Now env, s) Hr Hle) as Hr'.
  apply svc_Get_cases in Hget as [(c & _ & -> & _)|[(_ & -> & _)|[-> _]]]; [done| |done|done].
  intros env' q' c' Hle' Hg. destruct (decide (q = q')) as [<-|Hne].
  - exists (Now env), s. split; [apply list_elem_of_here|]. split; [lia|]. split.
    + apply (lc_Get_kept env' env q (effective s q) l). by rewrite Hg.
    + by apply lc_Get_Set in Hg.
  - rewrite lc_Get_Set_other in Hg by done. by apply Hr'.
Qed.

Lemma history_recent alone now s l h :
  history alone now s l h -> storage_inv s /\ recent now l h.
Proof using HS.
  induction 1 as [now s Hs|now s l h env cfg s' l' err _ [Hs Hr] Hle He|now s l h env q l' r _ [Hs Hr] Hle Hg
                 |now s l h t s' _ _ [_ Hr] Hle Hs'].
  - split; [done|]. intros env q c _ Hg. by rewrite lc_Get_New in Hg.
  - split; [by apply (svc_Edit_inv env cfg s s' l l' err)|by apply (svc_Edit_recent env cfg now s s' l l' err)].
  - split; [done|by apply (svc_Get_recent env q now s l l' r)].
  - split; [done|]. by apply (recent_later now).
Qed.

(** ** Coherence *)

Lemma effective_bounds s q :
  storage_inv s -> cfg_Queue (effective s q) = q /\ 0 <= MaxElements (effective s q).
Proof using HS.
  intros Hs. unfold effective. destruct (config s q) as [c|] eqn:E; simpl; [|done].
  by apply spec_config_key in E.
Qed.

Lemma coherent_later now now' s l : coherent now s l -> now <= now' -> coherent now' s l.
Proof using Type. intros Hc Hle env q c ?. apply Hc. lia. Qed.

Lemma svc_Get_coherent now env q s l l' r :
  storage_inv s -> coherent now s l -> now <= Now env ->
  svc_GetQueueConfiguration env q s l = (l', r) ->
  coherent (Now env) s l' /\ (r.2 = None -> r.1 = Some (effective s q)).
Proof using HS.
  intros Hs Hc Hle Hget. pose proof (coherent_later now (Now env) s l Hc Hle) as Hc'.
  apply svc_Get_cases in Hget as [(c & E & -> & ->)|[(_ & -> & ->)|(-> & err & ->)]]; [| | |done].
  - split; [done|]. intros _. cbn. by rewrite (Hc _ _ _ Hle E).
  - split; [|done]. intros env' q' c' Hle' Hg. destruct (decide (q = q')) as [<-|Hne].
    + by apply lc_Get_Set in Hg as ->.
    + rewrite lc_Get_Set_other in Hg by done. by eapply Hc'.
  - by split.
Qed.

(** An edit changes the configuration of its queue only, and not at all when
    it has no limit to set. *)
Lemma svc_Edit_coherent now env cfg s l s' l' err :
  storage_inv s -> coherent now s l -> now <= Now env ->
  svc_EditQueueConfiguration env (Some cfg) s l = (s', l', err) ->
  coherent (Now env) s' l' /\ (forall q, q <> cfg_Queue cfg -> effective s' q = effective s q) /\
  (err = None -> MaxElements cfg <> 0 -> effective s' (cfg_Queue cfg) = normalized cfg).
Proof using HS HL.
  intros Hs Hc Hle Hedit. pose proof (coherent_later now (Now env) s l Hc Hle) as Hc'.
  destruct (decide (MaxElements cfg = 0)) as [Hz|Hne].
  { unfold svc_EditQueueConfiguration in Hedit. rewrite (proj2 (Z.eqb_eq _ 0) Hz) in Hedit. by simplify_eq. }
  apply svc_Edit_cases in Hedit as [(He & Hnone & Hl')|(-> & -> & -> & c & El & E)]; [| |done].
  - assert (Hother : forall q, q <> cfg_Queue cfg -> config s' q = config s q).
    { intros q Hq. destruct err as [e|]; [by apply (spec_EditQueueConfiguration_error env cfg s s' e)|].
      apply spec_EditQueueConfiguration in He as (_ & _ & He); [|done]. by rewrite He, decide_False by tauto. }
    split; [|split].
    + intros env' q c Hle' Hg. destruct (decide (q = cfg_Queue cfg)) as [->|Hq].
      { by rewrite (lc_Get_expired _ _ _ _ Hnone Hle') in Hg. }
      unfold effective. rewrite Hother by done. apply (Hc' env' q c Hle').
      destruct Hl' as [->| ->]; [done|]. by rewrite lc_Get_Delete_other in Hg by done.
    + intros q Hq. unfold effective. by rewrite Hother.
    + intros -> _. apply spec_EditQueueConfiguration in He as (_ & _ & He); [|done].
      unfold effective. by rewrite He, decide_True.
  - split; [done|]. split; [done|]. intros _ _. pose proof (Hc _ _ _ Hle El) as ->.
    destruct (effective_bounds s (cfg_Queue cfg) Hs) as [H1 H2].
    unfold normalized. rewrite <- E, Z.max_r by done. rewrite <- H1 at 2.
    by destruct (effective s (cfg_Queue cfg)).
Qed.

Lemma history_coherent now s l h : history true now s l h -> coherent now s l.
Proof using HS.
  intros Hhist. remember true as alone eqn:Ea.
  induction Hhist as [now s Hs|now s l h env cfg s' l' err Hh IH Hle He|now s l h env q l' r Hh IH Hle Hg|? ? ? ? ? ? ->];
    [| | |done]; subst.
  - intros env q c _ Hg. by rewrite lc_Get_New in Hg.
  - apply history_recent in Hh as [Hs _]. destruct cfg as [cfg|].
    + by apply (svc_Edit_coherent now) in He as [? _]; auto.
    + unfold svc_EditQueueConfiguration in He. simplify_eq. apply (coherent_later now); auto.
  - apply history_recent in Hh as [Hs _]. by apply (svc_Get_coherent now) in Hg as [? _]; auto.
Qed.

(** C36. How old a limit can be.  After any calls of the configuration
    service, failed ones included, and any changes of the storage by others
    (another instance, a flush), a configuration that is read is the one the
    storage had at some moment of the last nine minutes: within the ten
    minutes the documentation of the protocol allows.  When nobody else
    changes the storage it is the one the storage has now, and an edit that
    reports no error is what the next read returns (the number given, or 0, no
    limit, when it is negative) and leaves the other queues as they are. *)
Theorem configuration_staleness alone now s l h (Hh : history alone now s l h) :
  (forall env q l' r, now <= Now env -> svc_GetQueueConfiguration env q s l = (l', (r, None)) ->
     exists t0 s0, (t0, s0) ∈ (Now env, s) :: h /\ Now env - 9 * Minute <= t0 <= Now env /\
       r = Some (effective s0 q)) /\
  (alone = true -> forall env q l' r, now <= Now env ->
     svc_GetQueueConfiguration env q s l = (l', (r, None)) -> r = Some (effective s q)) /\
  (alone = true -> forall env env' cfg s' l' l'' r, now <= Now env <= Now env' -> MaxElements cfg <> 0 ->
     svc_EditQueueConfiguration env (Some cfg) s l = (s', l', None) ->
     svc_GetQueueConfiguration env' (cfg_Queue cfg) s' l' = (l'', (r, None)) ->
     r = Some (normalized cfg) /\ forall q, q <> cfg_Queue cfg -> effective s' q = effective s q).
Proof using HS HL.
  pose proof (history_recent _ _ _ _ _ Hh) as [Hs Hr]. split; [|split].
  - intros env q l' r Hle Hget. apply svc_Get_cases in Hget as [(c & E & _ & [= ->])|[(_ & _ & [= ->])|(_ & err & [=])]];
      [| |done].
    + destruct (Hr env q c Hle E) as (t0 & s0 & Hin & Ht & Hk & ->). exists t0, s0.
      split; [by apply list_elem_of_further|]. unfold DefaultExpiration in Hk. split; [lia|done].
    + exists (Now env), s. split; [apply list_elem_of_here|]. unfold Minute, Second. split; [lia|done].
  - intros -> env q l' r Hle Hget. apply history_coherent in Hh as Hc.
    apply (svc_Get_coherent now) in Hget as [_ Hget]; [|done..]. by apply Hget.
  - intros -> env env' cfg s' l' l'' r Hle Hne Hedit Hget. apply history_coherent in Hh as Hc.
    pose proof (svc_Edit_inv _ _ _ _ _ _ _ Hs Hedit) as Hs'.
    apply (svc_Edit_coherent now) in Hedit as (Hc' & Ho & He); [|done|done|lia].
    apply (svc_Get_coherent (Now env)) in Hget as [_ Hget]; [|done|done|lia]. cbn in Hget.
    rewrite Hget, He by done. by split.
Qed.
End Histories.

(** ** Witness *)

#[local] Existing Instance plain_glob.

Abbreviation LocalMap := (gmap string (QueueConfiguration * Time)) (only parsing).

Definition limit (n : Z) : QueueConfiguration := {| cfg_Queue := "q"; MaxElements := n |}.

(** The memory storage with a limit of [n] for the queue. *)
Definition limited (n : Z) : MemoryStorage := (MemoryStorage.EditQueueConfiguration (limit n) NewMemoryStorage).1.

Lemma limited_inv n : 0 <= n -> storage_inv (limited n).
Proof.
  intros Hn. unfold limited, MemoryStorage.EditQueueConfiguration. cbn [MaxElements limit].
  destruct (Z.eqb_spec n 0); [split; apply map_Forall_empty|].
  rewrite (proj2 (Z.ltb_ge _ _)) by done. split; [apply map_Forall_empty|]. by apply map_Forall_singleton.
Qed.

(** The local cache after a first read. *)
Definition cached_5 : LocalMap := (svc_GetQueueConfiguration (at_ms 1) "q" (limited 5) lc_New).1.

(** The limit of 5 is read, and another instance sets 10. *)
Lemma overtaken_history :
  history false (Now (at_ms 2)) (limited 10) cached_5
    [(Now (at_ms 2), limited 10); (Now (at_ms 1), limited 5); (Now (at_ms 0), limited 5)].
Proof.
  apply (history_other false (Now (at_ms 1)) (limited 5)); [done| |vm_compute; discriminate|by apply limited_inv].
  apply (history_get false (Now (at_ms 0)) (limited 5) lc_New _ (at_ms 1) "q" _ (Some (limit 5), None));
    [|vm_compute; discriminate|vm_compute; reflexivity].
  apply history_new. by apply limited_inv.
Qed.

(** A second later the old limit is still read: it is the one the storage had
    within the last nine minutes. *)
Lemma configuration_staleness_witness :
  svc_GetQueueConfiguration (at_ms 1000) "q" (limited 10) cached_5 = (cached_5, (Some (limit 5), None)) /\
  exists t0 s0, Now (at_ms 1000) - 9 * Minute <= t0 <= Now (at_ms 1000) /\
    Some (limit 5) = Some (effective s0 "q") /\
    (t0, s0) ∈ [(Now (at_ms 1000), limited 10); (Now (at_ms 2), limited 10); (Now (at_ms 1), limited 5);
                (Now (at_ms 0), limited 5)].
Proof.
  assert (E : svc_GetQueueConfiguration (at_ms 1000) "q" (limited 10) cached_5 = (cached_5, (Some (limit 5), None)))
    by (vm_compute; reflexivity).
  split; [exact E|].
  destruct (configuration_staleness false (Now (at_ms 2)) (limited 10) cached_5 _ overtaken_history) as [Hstale _].
  destruct (Hstale (at_ms 1000) "q" cached_5 (Some (limit 5))) as (t0 & s0 & Hin & Ht & Hr);
    [vm_compute; discriminate|exact E|].
  exists t0, s0. split; [exact Ht|]. split; [exact Hr|exact Hin].
Defined.

(** An edit that sets the limit the local cache still has is dropped, and
    reports success: the storage keeps the other limit. *)
Example edit_dropped :
  svc_EditQueueConfiguration (at_ms 1000) (Some (limit 5)) (limited 10) cached_5 = (limited 10, cached_5, None) /\
  effective (limited 10) "q" = limit 10.
Proof. vm_compute. by split. Qed.
