(* ===== verification/Metrics.v ===== *)
(** * The queue metrics map

    [internal/metrics/metrics_map.go]: the age of the oldest message and the
    number of messages of each queue, as the metrics task last computed them. *)

From S2P Require Import Prelude.
#[local] Open Scope string_scope.
#[local] Open Scope Z_scope.

Record QueueMetricsMap := {
  OldestElement : gmap string Z;
  TotalElements : gmap string Z
}.

Definition NewQueueMetricsMap : QueueMetricsMap := {| OldestElement := ∅; TotalElements := ∅ |}.

(** [None] is a nil map. *)
Definition mergeData (currentData : gmap string Z) (newData : option (gmap string Z)) :
    gmap string Z :=
  match newData with
  | None => ∅
  | Some newData =>
      foldr (fun key data => match data !! key with None => <[key := 0]> data | Some _ => data end)
        newData (map_to_list currentData).*1
  end.

Definition UpdateOldestElementMap (data : option (gmap string Z)) (m : QueueMetricsMap) :
    QueueMetricsMap :=
  {| OldestElement := mergeData (OldestElement m) data; TotalElements := TotalElements m |}.

Definition UpdateTotalElementsMap (data : option (gmap string Z)) (m : QueueMetricsMap) :
    QueueMetricsMap :=
  {| OldestElement := OldestElement m; TotalElements := mergeData (TotalElements m) data |}.

(** The order of the iteration does not matter: the new values, and 0 for the
    keys that are only in the current map. *)
Lemma lookup_mergeData cur new k :
  mergeData cur (Some new) !! k =
  match new !! k with
  | Some v => Some v
  | None => match cur !! k with Some _ => Some 0 | None => None end
  end.
Proof.
  unfold mergeData.
  assert (H : forall l, foldr (fun key data =>
      match data !! key with None => <[key := 0]> data | Some _ => data end) new l !! k =
    match new !! k with
    | Some v => Some v
    | None => if decide (k ∈ l) then Some 0 else None
    end).
  { induction l as [|k' l IH]; simpl; [by destruct (new !! k)|].
    destruct (decide (k = k')) as [->|Hne].
    - destruct (foldr _ new l !! k') eqn:E.
      + rewrite E, IH in *. destruct (new !! k'); [done|].
        destruct (decide (k' ∈ l)); [|done]. by rewrite decide_True by set_solver.
      + rewrite lookup_insert_eq. rewrite IH in E. destruct (new !! k'); [done|].
        by rewrite decide_True by set_solver.
    - assert (Hd : (if decide (k ∈ l) then Some 0 else None) =
        (if decide (k ∈ k' :: l) then Some 0 else None)).
      { apply decide_ext. set_solver. }
      rewrite <- Hd, <- IH. destruct (foldr _ new l !! k'); [done|]. by rewrite lookup_insert_ne. }
  rewrite H. destruct (new !! k); [done|].
  destruct (cur !! k) as [v|] eqn:E; [rewrite decide_True|rewrite decide_False]; try done.
  - apply list_elem_of_fmap. exists (k, v). split; [done|]. by apply elem_of_map_to_list.
  - intros ([k' v] & -> & Hin)%list_elem_of_fmap. apply elem_of_map_to_list in Hin. simpl in *. congruence.
Qed.
