(* ===== verification/Queue.v ===== *)
(** * The queue

    [internal/queue/queue.go]: the operations that combine the storage, the
    cache and the auditor, written for any implementation of the three
    interfaces.  An operation is a computation on the state of the queue; the
    counters of [internal/metrics] it adds to are a log of its state. *)

From S2P Require Import Prelude Float64 Dtime Utils Score Message Cache Storage AuditTrail.
#[local] Open Scope string_scope.
#[local] Open Scope list_scope.
#[local] Open Scope Z_scope.

(** ** State *)

(** One call of [Add] on a counter: its name, the amount and the attributes. *)
Record MetricAdd := { counter : string; amount : Z; attributes : list (string * string) }.

Record Queue {S C A : Type} := {
  storage : S;
  cache : C;
  auditor : A;
  metrics : list MetricAdd
}.
Arguments Queue : clear implicits.

(** ** Computations on the state *)

(** A computation may change the state, and may panic. *)
Definition Comp (St R : Type) : Type := St -> outcome (St * R).

#[export] Instance Comp_ret {St} : MRet (Comp St) := fun R a s => Ret (s, a).

#[export] Instance Comp_bind {St} : MBind (Comp St) :=
  fun R R' k m s => obind (m s) (fun '(s', a) => k a s').

(** The values of a loop over a list, in order. *)
Fixpoint for_each {St X} (f : X -> Comp St unit) (l : list X) : Comp St unit :=
  match l with
  | [] => mret tt
  | x :: l' => _ ← f x; for_each f l'
  end.

Section Primitives.
Context {S C A : Type}.
Abbreviation Q := (Queue S C A).

(** A call of a method of the storage, the cache or the auditor. *)
Definition on_storage {R} (f : S -> S * R) : Comp Q R := fun q =>
  let '(s, r) := f (storage q) in
  Ret ({| storage := s; cache := cache q; auditor := auditor q; metrics := metrics q |}, r).

Definition on_cache {R} (f : C -> C * R) : Comp Q R := fun q =>
  let '(c, r) := f (cache q) in
  Ret ({| storage := storage q; cache := c; auditor := auditor q; metrics := metrics q |}, r).

Definition on_cache_o {R} (f : C -> outcome (C * R)) : Comp Q R := fun q =>
  obind (f (cache q)) (fun '(c, r) =>
    Ret ({| storage := storage q; cache := c; auditor := auditor q; metrics := metrics q |}, r)).

Definition ask_storage {R} (f : S -> outcome R) : Comp Q R := fun q =>
  obind (f (storage q)) (fun r => Ret (q, r)).

Definition ask_cache {R} (f : C -> outcome R) : Comp Q R := fun q =>
  obind (f (cache q)) (fun r => Ret (q, r)).

Definition audit `{Auditor A} (env : Env) (e : Entry) : Comp Q unit := fun q =>
  Ret ({| storage := storage q; cache := cache q;
          auditor := auditor_Store env e (auditor q); metrics := metrics q |}, tt).

Definition metric_Add (name : string) (n : Z) (attrs : list (string * string)) : Comp Q unit :=
  fun q =>
    Ret ({| storage := storage q; cache := cache q; auditor := auditor q;
            metrics := metrics q ++ [{| counter := name; amount := n; attributes := attrs |}] |}, tt).
End Primitives.

(** ** Helpers *)

(** The ids that no message found has. *)
Definition notFoundIds (ids : list string) (messages : list Message) : list string :=
  let found := foldl (fun found q => {[ID q]} ∪ found) (∅ : gset string) messages in
  List.filter (fun i => negb (bool_decide (i ∈ found))) ids.

(** The messages of each queue, in their order. *)
Definition membersByQueue (messages : list Message) : gmap string (list Message) :=
  foldl (fun members m =>
    <[Message.Queue m := default [] (members !! Message.Queue m) ++ [m]]> members) ∅ messages.

Definition score_less (x y : Message) : bool := f64_ltb (Score x) (Score y).

(** ** Operations *)

Section Operations.
Context {S C A : Type} `{Storage S} `{Cache C} `{Auditor A}.
Abbreviation Q := (Queue S C A).

Definition Count (env : Env) (opts : option FindOptions) : Comp Q (result Z) :=
  let comment := "queue.Count" in
  let filter := match opts with None => None | Some o => opt_InternalFilter o end in
  r ← ask_storage (storage_Count env
        (Some {| Projection := None; Sort := None; Limit := 0; opt_InternalFilter := filter;
                 Retry := false; Comment := comment |})
        (Some {| count_Comment := comment |}));
  match r with
  | (_, Some _) => mret (0, Some (ErrorString "internal error counting elements"))
  | (n, None) => mret (n, None)
  end.

Definition GetStorageMessages (env : Env) (opt : option FindOptions) :
    Comp Q (result (list Message)) :=
  r ← ask_storage (storage_Find env opt);
  match r with
  | (_, Some err) => mret ([], Some err)
  | (messages, None) => mret (messages, None)
  end.

(** The map of queue names the method builds is not read. *)
Definition AddMessagesToStorage (env : Env) (messages : list Message) :
    Comp Q (result (Z * Z)) :=
  on_storage (storage_Insert env messages).

(** The loop over the queues of the messages. *)
Fixpoint add_members (env : Env) (reason : string) (l : list (string * list Message)) (count : Z) :
    Comp Q (result Z) :=
  match l with
  | [] => mret (count, None)
  | (queueName, elements) :: l' =>
      r ← on_cache (cache_Insert env queueName elements);
      match r with
      | (_, Some err) => mret (0, Some (WrapError "error inserting cache data" err))
      | (insertions, None) =>
          _ ← for_each (fun i => audit env (entry i queueName INSERT_CACHE reason)) insertions;
          add_members env reason l' (count + Z.of_nat (length insertions))
      end
  end.

Definition AddMessagesToCacheWithAuditReason (env : Env) (reason : string)
    (messages : list Message) : Comp Q (result Z) :=
  add_members env reason (map_range (env_order env) (membersByQueue messages)) 0.

Definition AddMessagesToCache (env : Env) (messages : list Message) : Comp Q (result Z) :=
  AddMessagesToCacheWithAuditReason env "" messages.

Definition Nack (env : Env) (msg : option Message) (reason : string) : Comp Q (result bool) :=
  match msg with
  | None => mret (false, None)
  | Some msg =>
      if String.eqb (Message.Queue msg) "" then
        mret (false, Some (ErrorString "message has a invalid queue"))
      else if String.eqb (ID msg) "" then
        mret (false, Some (ErrorString "message has a invalid ID"))
      else
        r ← on_storage (storage_Nack env msg);
        match r with
        | (_, Some err) => mret (false, Some err)
        | (_, None) =>
            let metric := metric_Add "deckard_nack" 1
              [("queue", GetQueuePrefix (Message.Queue msg)); ("reason", reason)] in
            if 0 <? LockMs msg then
              r ← on_cache (cache_LockMessage env msg LOCK_NACK);
              match r with
              | (_, Some err) => _ ← metric; mret (false, Some err)
              | (result, None) =>
                  _ ← audit env (message_entry msg NACK reason (LockMs msg));
                  _ ← metric;
                  mret (result, None)
              end
            else
              r ← on_cache (cache_MakeAvailable env msg);
              match r with
              | (_, Some err) => _ ← metric; mret (false, Some err)
              | (result, None) =>
                  _ ← audit env (message_entry msg NACK reason 0);
                  _ ← metric;
                  mret (result, None)
              end
        end
  end.

Definition Ack (env : Env) (msg : option Message) (reason : string) : Comp Q (result bool) :=
  match msg with
  | None => mret (false, None)
  | Some msg =>
      if String.eqb (Message.Queue msg) "" then
        mret (false, Some (ErrorString "message has a invalid queue"))
      else if String.eqb (ID msg) "" then
        mret (false, Some (ErrorString "message has a invalid ID"))
      else
        r ← on_storage (storage_Ack env msg);
        match r with
        | (_, Some err) => mret (false, Some err)
        | (_, None) =>
            _ ← metric_Add "deckard_ack" 1
              [("queue", GetQueuePrefix (Message.Queue msg)); ("reason", reason)];
            if 0 <? LockMs msg then
              r ← on_cache (cache_LockMessage env msg LOCK_ACK);
              match r with
              | (_, Some err) => mret (false, Some err)
              | (result, None) =>
                  _ ← audit env (message_entry msg ACK reason (LockMs msg));
                  mret (result, None)
              end
            else
              r ← on_cache (cache_MakeAvailable env msg);
              match r with
              | (_, Some availableErr) => mret (false, Some availableErr)
              | (result, None) =>
                  _ ← audit env (message_entry msg ACK reason 0);
                  mret (result, None)
              end
        end
  end.

Definition TimeoutMessages (env : Env) (queue : string) : Comp Q (result (list string)) :=
  r ← on_cache (cache_TimeoutMessages env queue);
  match r with
  | (_, Some err) => mret ([], Some err)
  | (ids, None) =>
      _ ← (if Nat.ltb 0 (length ids) then
             _ ← metric_Add "deckard_message_timeout" (Z.of_nat (length ids))
                   [("queue", GetQueuePrefix queue)];
             for_each (fun i => audit env (entry i queue TIMEOUT "")) ids
           else mret tt);
      mret (ids, None)
  end.

Definition getFromStorage (env : Env) (ids : list string) (queue : string)
    (sort : list (string * Z)) (retry : bool) : Comp Q (list Message * list string * option error) :=
  r ← ask_storage (storage_Find env (Some {|
        Projection := None; Sort := Some sort; Limit := Z.of_nat (length ids);
        opt_InternalFilter := Some {| InternalIdBreakpointGt := ""; InternalIdBreakpointLte := "";
          Ids := Some ids; f_Queue := queue; f_QueuePrefix := ""; f_ExpiryDate := None |};
        Retry := retry; Comment := "" |}));
  match r with
  | (_, Some err) => mret ([], [], Some (WrapError "error getting storage data" err))
  | (messages, None) => mret (messages, notFoundIds ids messages, None)
  end.

(** The end of [Pull]: the messages of both queries, sorted again. *)
Definition pull_finish (env : Env) (queue : string) (messages retryMessages : list Message) :
    Comp Q (result (option (list Message))) :=
  let messages :=
    if Nat.ltb 0 (length retryMessages)
    then sort_Slice (env_sort env) score_less (messages ++ retryMessages)
    else messages in
  if Nat.eqb (length messages) 0 then
    _ ← metric_Add "deckard_messages_empty_queue_not_found_storage" 1
          [("queue", GetQueuePrefix queue)];
    mret (None, None)
  else mret (Some messages, None).

(** The second query of [Pull]: the elements it does not find are removed
    from the cache. *)
Definition pull_retry (env : Env) (queue : string) (sort : list (string * Z))
    (messages : list Message) (notFound : list string) : Comp Q (result (option (list Message))) :=
  r ← getFromStorage env notFound queue sort true;
  match r with
  | (_, _, Some err) => mret (None, Some err)
  | (retryMessages, retryNotFound, None) =>
      _ ← (if Nat.ltb 0 (length retryNotFound) then
             _ ← metric_Add "deckard_messages_not_found_in_storage" (Z.of_nat (length notFound))
                   [("queue", GetQueuePrefix queue)];
             _ ← for_each (fun i => audit env (entry i queue MISSING_STORAGE "")) retryNotFound;
             _ ← on_cache (cache_Remove env queue retryNotFound);
             mret tt
           else mret tt);
      pull_finish env queue messages retryMessages
  end.

Definition Pull (env : Env) (queue : string) (n : Z) (minScore maxScore : option float64)
    (ackDeadlineMs : Z) : Comp Q (result (option (list Message))) :=
  r ← on_cache_o (cache_PullMessages env queue n minScore maxScore ackDeadlineMs);
  match r with
  | (_, Some err) => mret (None, Some err)
  | (ids, None) =>
      if Nat.eqb (length ids) 0 then
        _ ← metric_Add "deckard_messages_empty_queue" 1 [("queue", GetQueuePrefix queue)];
        mret (None, None)
      else
        let orderedSort := [("score", 1)] in
        r ← getFromStorage env ids queue orderedSort false;
        match r with
        | (_, _, Some err) => mret (None, Some err)
        | (messages, notFound, None) =>
            if Nat.eqb (length notFound) 0 then mret (Some messages, None)
            else pull_retry env queue orderedSort messages notFound
        end
  end.

(** The numbers removed from the cache and from the storage. *)
Definition Remove (env : Env) (queue reason : string) (ids : list string) :
    Comp Q (result (Z * Z)) :=
  r ← on_storage (storage_Remove env queue ids);
  match r with
  | (_, Some err) => mret ((0, 0), Some err)
  | (storageCount, None) =>
      r ← on_cache (cache_Remove env queue ids);
      match r with
      | (_, Some err) => mret ((0, storageCount), Some err)
      | (cacheCount, None) =>
          _ ← for_each (fun i => audit env (entry i queue REMOVE reason)) ids;
          mret ((cacheCount, storageCount), None)
      end
  end.

Definition Flush (env : Env) : Comp Q (result bool) :=
  _ ← on_cache (fun c => (cache_Flush env c, tt));
  r ← on_storage (storage_Flush env);
  match r with
  | (_, Some err) => mret (false, Some err)
  | (_, None) => mret (true, None)
  end.
End Operations.
