(* ===== verification/QueueFacts.v ===== *)
(** * Facts on the queue

    Inversion of computations, and the lemmas on the queries and the writes
    the operations of the queue make, from the contracts of the storage and of
    the cache alone. *)

From S2P Require Import Prelude Float64 Dtime Utils Score Message Cache Storage AuditTrail Queue.
#[local] Open Scope string_scope.
#[local] Open Scope list_scope.
#[local] Open Scope Z_scope.

(** ** Computations *)

Lemma bind_Ret {St R R'} (m : Comp St R) (k : R -> Comp St R') s r :
  (x ← m; k x) s = Ret r <-> exists s' a, m s = Ret (s', a) /\ k a s' = Ret r.
Proof.
  unfold mbind, Comp_bind. destruct (m s) as [[s' a]|msg]; simpl.
  - split; [by eauto|]. by intros (? & ? & [= <- <-] & ?).
  - split; [done|]. by intros (? & ? & ? & ?).
Qed.

Lemma bind_eq {St R R'} (m : Comp St R) (k : R -> Comp St R') s s' a :
  m s = Ret (s', a) -> (x ← m; k x) s = k a s'.
Proof. unfold mbind, Comp_bind. by intros ->. Qed.

Lemma ret_Ret {St R} (a : R) (s : St) r : (mret a : Comp St R) s = Ret r <-> r = (s, a).
Proof. unfold mret, Comp_ret. split; [by intros [= <-]|by intros ->]. Qed.

Section Primitives.
Context {S C A : Type}.
Abbreviation Q := (Queue S C A).
Implicit Types q : Q.

(** Two states of the queue with the same storage and cache. *)
Definition same_data q q' : Prop := storage q' = storage q /\ cache q' = cache q.

Lemma on_storage_Ret {R} (f : S -> S * R) q q' r :
  on_storage f q = Ret (q', r) -> f (storage q) = (storage q', r) /\ cache q' = cache q.
Proof. unfold on_storage. destruct (f (storage q)). by intros [= <- <-]. Qed.

Lemma on_cache_Ret {R} (f : C -> C * R) q q' r :
  on_cache f q = Ret (q', r) -> f (cache q) = (cache q', r) /\ storage q' = storage q.
Proof. unfold on_cache. destruct (f (cache q)). by intros [= <- <-]. Qed.

Lemma on_cache_o_Ret {R} (f : C -> outcome (C * R)) q q' r :
  on_cache_o f q = Ret (q', r) -> f (cache q) = Ret (cache q', r) /\ storage q' = storage q.
Proof. unfold on_cache_o. destruct (f (cache q)) as [[c a]|]; [|done]. by intros [= <- <-]. Qed.

Lemma ask_storage_Ret {R} (f : S -> outcome R) q q' r :
  ask_storage f q = Ret (q', r) -> f (storage q) = Ret r /\ q' = q.
Proof. unfold ask_storage. destruct (f (storage q)); [|done]. by intros [= <- <-]. Qed.

Lemma ask_cache_Ret {R} (f : C -> outcome R) q q' r :
  ask_cache f q = Ret (q', r) -> f (cache q) = Ret r /\ q' = q.
Proof. unfold ask_cache. destruct (f (cache q)); [|done]. by intros [= <- <-]. Qed.

Lemma metric_Add_Ret name n attrs q q' u :
  metric_Add name n attrs q = Ret (q', u) -> same_data q q'.
Proof. by intros [= <- _]. Qed.

Lemma audit_Ret `{Auditor A} env e q q' u : audit env e q = Ret (q', u) -> same_data q q'.
Proof. by intros [= <- _]. Qed.

Lemma same_data_trans q1 q2 q3 : same_data q1 q2 -> same_data q2 q3 -> same_data q1 q3.
Proof. intros [? ?] [? ?]. split; congruence. Qed.

Lemma for_each_same {X} (f : X -> Comp Q unit) l :
  (forall x q q' u, f x q = Ret (q', u) -> same_data q q') ->
  forall q q' u, for_each f l q = Ret (q', u) -> same_data q q'.
Proof.
  intros Hf. induction l as [|x l IH]; intros q q' u; simpl.
  - intros [= <- _]%ret_Ret. done.
  - intros (q1 & [] & Hx & Hl)%bind_Ret. eapply same_data_trans; eauto.
Qed.

Lemma for_each_audit `{Auditor A} {X} env (g : X -> Entry) l q q' u :
  for_each (fun x => audit env (g x)) l q = Ret (q', u) -> same_data q q'.
Proof. apply for_each_same. intros x q0 q1 v. apply audit_Ret. Qed.
End Primitives.

(** Takes a computation that returned apart into its primitive steps. *)
Ltac comp_step H :=
  match type of H with
  | mbind _ _ _ = Ret _ =>
      let q := fresh "q" in let r := fresh "r" in let H' := fresh "Hs" in
      apply bind_Ret in H as (q & r & H' & H); comp_step H'; comp_step H
  | mret _ _ = Ret _ => apply ret_Ret in H; simplify_eq
  | on_storage _ _ = Ret _ => apply on_storage_Ret in H as [H ?]
  | on_cache _ _ = Ret _ => apply on_cache_Ret in H as [H ?]
  | on_cache_o _ _ = Ret _ => apply on_cache_o_Ret in H as [H ?]
  | ask_storage _ _ = Ret _ => apply ask_storage_Ret in H as [H ->]
  | ask_cache _ _ = Ret _ => apply ask_cache_Ret in H as [H ->]
  | metric_Add _ _ _ _ = Ret _ => apply metric_Add_Ret in H as [? ?]
  | audit _ _ _ = Ret _ => apply audit_Ret in H as [? ?]
  | for_each (fun x => audit _ _) _ _ = Ret _ => apply for_each_audit in H as [? ?]
  | _ => idtac
  end.

(** ** Ids that were not found *)

Lemma elem_of_found ms i : forall X : gset string,
  i ∈ foldl (fun found q => {[ID q]} ∪ found) X ms <-> i ∈ X \/ i ∈ ID <$> ms.
Proof.
  induction ms as [|m ms IH]; intros X; simpl; [set_solver|]. rewrite IH. set_solver.
Qed.

Lemma elem_of_notFoundIds ids ms i : i ∈ notFoundIds ids ms <-> i ∈ ids /\ i ∉ ID <$> ms.
Proof.
  unfold notFoundIds. rewrite list_elem_of_In, filter_In, <- list_elem_of_In.
  rewrite negb_true_iff, bool_decide_eq_false, elem_of_found. set_solver.
Qed.

Lemma NoDup_notFoundIds ids ms : NoDup ids -> NoDup (notFoundIds ids ms).
Proof.
  intros Hd. unfold notFoundIds. eapply sublist_NoDup; [exact Hd|].
  generalize (fun i => negb (bool_decide
    (i ∈ foldl (fun found q => {[ID q]} ∪ found) (∅ : gset string) ms))) as P.
  intros P. clear Hd. induction ids as [|i ids IH]; simpl; [done|]. destruct (P i); by constructor.
Qed.

(** ** Messages by queue *)

Lemma membersByQueue_lookup ms qn :
  membersByQueue ms !! qn =
  match List.filter (fun m => String.eqb (Message.Queue m) qn) ms with
  | [] => None
  | l => Some l
  end.
Proof.
  unfold membersByQueue.
  assert (H : forall (M : gmap string (list Message)),
    foldl (fun members m =>
      <[Message.Queue m := default [] (members !! Message.Queue m) ++ [m]]> members) M ms !! qn =
    match List.filter (fun m => String.eqb (Message.Queue m) qn) ms with
    | [] => M !! qn
    | l => Some (default [] (M !! qn) ++ l)
    end).
  { induction ms as [|m ms IH]; intros M; simpl; [done|]. rewrite IH.
    destruct (String.eqb_spec (Message.Queue m) qn) as [<-|Hne].
    - rewrite lookup_insert_eq. simpl.
      destruct (List.filter _ ms); [done|]. by rewrite <- app_assoc.
    - rewrite lookup_insert_ne by done. done. }
  rewrite H, lookup_empty. done.
Qed.

(** ** The query of a pull *)

Section Queries.
Context {S C A : Type} `{HSS : StorageSpec S} `{HCS : CacheSpec C} `{HA : Auditor A}.
Abbreviation Q := (Queue S C A).

(** The messages that can be handed out: stored and, with a storage that hides
    the expired ones, not expired. *)
Definition live (env : Env) (s : S) (qn i : string) (m : Message) : Prop :=
  stored s qn i = Some m /\ shown S env m.

(** Messages of one queue with distinct keys have distinct ids. *)
Lemma NoDup_ids_of_keys qn ms :
  NoDup (msg_key <$> ms) -> Forall (fun m => Message.Queue m = qn) ms -> NoDup (ID <$> ms).
Proof using Type.
  intros Hk Hq. apply (NoDup_fmap_1 (fun i => (qn, i))). rewrite <- list_fmap_compose.
  erewrite list_fmap_ext with (g := msg_key); [exact Hk|].
  intros j m Hm%list_elem_of_lookup_2. rewrite Forall_forall in Hq.
  unfold msg_key. simpl. by rewrite Hq.
Qed.

(** As many distinct ids of [ids] as [ids] has are all of them. *)
Lemma NoDup_all_ids (ids found : list string) :
  NoDup found -> found ⊆ ids -> (length ids <= length found)%nat -> ids ⊆ found.
Proof using Type.
  intros Hnd Hsub Hlen i Hi.
  assert (HP : found ≡ₚ ids) by (apply submseteq_length_Permutation; [by apply NoDup_submseteq|done]).
  by rewrite HP.
Qed.

Lemma getFromStorage_spec env ids qn retry (q q' : Q) ms nf :
  storage_inv (storage q) -> NoDup ids -> ids <> [] -> qn <> "" ->
  getFromStorage env ids qn [("score", 1)] retry q = Ret (q', (ms, nf, None)) ->
  q' = q /\ NoDup (ID <$> ms) /\ (length ms <= length ids)%nat /\
  (forall m, m ∈ ms <-> ID m ∈ ids /\ live env (storage q) qn (ID m) m) /\
  NoDup nf /\ (forall i, i ∈ nf <-> i ∈ ids /\ forall m, ~ live env (storage q) qn i m) /\
  ((forall q0 i m, stored (storage q) q0 i = Some m -> f64_is_nan (Score m) = false) ->
   StronglySorted (sort_le "score") ms).
Proof using HSS.
  intros Hs Hnd Hne Hqn Hrun. unfold getFromStorage in Hrun. comp_step Hrun.
  destruct r as [ms0 [e|]]; comp_step Hrun. rename ms0 into ms.
  set (opt := Some _) in Hs0.
  destruct (spec_Find_all env opt (storage q) ms Hs) as [Hk Hall Hlim Hcomp Hord];
    [done|done|simpl; lia|exact Hs0|].
  assert (Hsel : forall m, selected storage_hides env (opt_filter opt) m <->
    Message.Queue m = qn /\ ID m ∈ ids /\ shown S env m).
  { intros m. unfold selected, shown. simpl. destruct ids as [|i0 ids0]; [done|]. tauto. }
  assert (Hin : forall m, m ∈ ms -> ID m ∈ ids /\ live env (storage q) qn (ID m) m).
  { intros m Hm. rewrite Forall_forall in Hall. destruct (Hall _ Hm) as [Hst Hse].
    apply Hsel in Hse as (<- & ? & ?). done. }
  assert (Hnd' : NoDup (ID <$> ms)).
  { apply (NoDup_ids_of_keys qn _ Hk), Forall_forall. intros m Hm.
    apply Hin in Hm as (_ & Hst & _). by apply spec_stored_key in Hst as (? & _). }
  assert (Hlen : (length ms <= length ids)%nat).
  { assert (Hpos : 0 < opt_limit opt) by (simpl; destruct ids; [done|simpl; lia]).
    specialize (Hlim Hpos). simpl in Hlim. lia. }
  assert (Hall' : forall m, m ∈ ms <-> ID m ∈ ids /\ live env (storage q) qn (ID m) m).
  { intros m. split; [apply Hin|]. intros [Hi [Hst Hex]].
    apply dec_stable. intros Hn.
    destruct (Hcomp _ _ m Hst) as [_ Hfull]; [|done|].
    { apply Hsel. apply spec_stored_key in Hst as (? & _); done. }
    simpl in Hfull.
    (* the limit is reached: the ids found are all the ids *)
    assert (Hsub : ids ⊆ ID <$> ms).
    { apply NoDup_all_ids; [done| |rewrite length_fmap; lia].
      intros i (m' & -> & Hm')%list_elem_of_fmap. by apply Hin. }
    apply Hsub in Hi as (m' & Hid & Hm')%list_elem_of_fmap.
    apply Hin in Hm' as Hm''. destruct Hm'' as (_ & Hst' & _).
    rewrite <- Hid in Hst'. rewrite Hst in Hst'. by simplify_eq. }
  split_and!; try done.
  - by apply NoDup_notFoundIds.
  - intros i. rewrite elem_of_notFoundIds. split; intros [Hi Hno]; (split; [done|]).
    + intros m [Hst Hex]. apply Hno. apply list_elem_of_fmap. exists m.
      pose proof Hst as Hkey. apply spec_stored_key in Hkey as (_ & Hid & _); [|done].
      split; [done|]. apply Hall'. by rewrite Hid.
    + intros (m & -> & Hm)%list_elem_of_fmap. apply Hall' in Hm as [_ Hm]. by apply (Hno m).
  - intros Hnan. by apply (Hord "score").
Qed.

(** The retry finds nothing more: it forgets the ids not found. *)
Lemma pull_retry_spec env (ids : list string) qn (q q1 q' : Q) ms nf res :
  storage_inv (storage q) -> qn <> "" -> nf <> [] -> NoDup nf ->
  (forall i, i ∈ nf -> i ∈ ids /\ forall m, ~ live env (storage q) qn i m) ->
  storage q1 = storage q ->
  pull_retry env qn [("score", 1)] ms nf q1 = Ret (q', (res, None)) ->
  storage q' = storage q /\ default [] res = ms /\ res <> Some [] /\
  exists nf', NoDup nf' /\ (forall i, i ∈ nf' <-> i ∈ nf) /\
    cache q' = (cache_Remove env qn nf' (cache q1)).1.
Proof using HSS.
  intros HSi Hqn Hne Hnd Hnf Hst Hrun. unfold pull_retry in Hrun. comp_step Hrun.
  destruct r as [[ms2 nf2] [e|]]; comp_step Hrun.
  apply getFromStorage_spec in Hs as (-> & _ & _ & Hms2 & Hnd2 & Hnf2 & _); [|by rewrite Hst|done..].
  rewrite Hst in Hms2, Hnf2.
  assert (Heq : forall i, i ∈ nf2 <-> i ∈ nf).
  { intros i. rewrite Hnf2. split; [by intros [? _]|]. intros Hi. split; [done|]. by apply Hnf. }
  assert (ms2 = []) as ->.
  { apply elem_of_nil_inv. intros m Hm. apply Hms2 in Hm as [Hi Hl]. apply Hnf in Hi as [_ Hi].
    by apply (Hi m). }
  destruct nf2 as [|i2 nf2].
  { destruct nf as [|i nf]; [done|]. specialize (Heq i). set_solver. }
  cbn [length Nat.ltb Nat.leb] in Hs0, Hrun. comp_step Hs0.
  assert (Hcache : cache q4 = (cache_Remove env qn (i2 :: nf2) (cache q1)).1).
  { replace (cache q1) with (cache q3) by congruence. by rewrite Hs. }
  unfold pull_finish in Hrun. cbn [length Nat.ltb Nat.leb] in Hrun.
  destruct (Nat.eqb_spec (length ms) 0) as [E|E]; comp_step Hrun.
  - destruct ms; [|done]. split_and!; [congruence|done|done|]. exists (i2 :: nf2).
    split_and!; [done|done|congruence].
  - split_and!; [congruence|done|by intros [= ->]|]. by exists (i2 :: nf2).
Qed.

(** What a pull does: the ids the cache gives, the messages they lead to, and
    the ids forgotten. *)
Lemma Pull_run env qn n mn mx dl (q q' : Q) res :
  storage_inv (storage q) -> cache_inv (cache q) -> cache_pull_ok n -> qn <> "" ->
  Pull env qn n mn mx dl q = Ret (q', (res, None)) ->
  exists c1 ids nf,
    cache_PullMessages env qn n mn mx dl (cache q) = Ret (c1, (ids, None)) /\
    storage q' = storage q /\
    cache q' = (if decide (nf = []) then c1 else (cache_Remove env qn nf c1).1) /\
    (forall i, i ∈ nf <-> i ∈ ids /\ forall m, ~ live env (storage q) qn i m) /\
    let found := default [] res in
    res <> Some [] /\ NoDup (ID <$> found) /\ (length found <= length ids)%nat /\
    (forall m, m ∈ found <-> ID m ∈ ids /\ live env (storage q) qn (ID m) m) /\
    ((forall q0 i m, stored (storage q) q0 i = Some m -> f64_is_nan (Score m) = false) ->
     StronglySorted (sort_le "score") found).
Proof using HSS HCS.
  intros HSi HCi Hn Hqn Hrun. unfold Pull in Hrun. comp_step Hrun.
  destruct r as [ids [e|]]; [comp_step Hrun|]. exists (cache q0), ids.
  pose proof (spec_PullMessages _ _ _ _ _ _ _ _ _ _ HCi Hn Hs) as (_ & _ & Hnd & _).
  destruct (Nat.eqb_spec (length ids) 0) as [E|E].
  { comp_step Hrun. destruct ids; [|done]. exists []. rewrite decide_True by done.
    simpl. split_and!; try done; try congruence; try set_solver; intros; constructor. }
  comp_step Hrun. destruct r as [[ms nf] [e|]]; [comp_step Hrun|].
  assert (Hids : ids <> []) by (by intros ->).
  apply getFromStorage_spec in Hs0 as (-> & Hmnd & Hmlen & Hms & Hnfd & Hnf & Hsort);
    [|congruence|done..]. rewrite H1 in Hms, Hnf, Hsort.
  destruct (Nat.eqb_spec (length nf) 0) as [En|En].
  - comp_step Hrun. destruct nf; [|done]. exists []. rewrite decide_True by done.
    simpl. split_and!; try done. intros [= ->]. destruct ids as [|i ids]; [done|].
    (* every id would be found *)
    assert (Hno : i ∉ ([] : list string)) by set_solver. apply Hno. apply Hnf.
    split; [set_solver|]. intros m Hm. assert (Hin : m ∈ ([] : list Message)); [|set_solver].
    apply Hms. pose proof Hm as [Hst _]. apply spec_stored_key in Hst as (_ & -> & _); [|done].
    split; [set_solver|done].
  - assert (nf <> []) as Hnfne by (by intros ->).
    destruct (pull_retry_spec env ids qn q q0 q' ms nf res HSi Hqn Hnfne Hnfd) as
      (Hst & Hdef & Hres & nf' & Hnd' & Heq & Hc); [by apply Hnf|done|done|].
    exists nf'. rewrite decide_False; cycle 1.
    { intros ->. destruct nf as [|i nf]; [done|]. specialize (Heq i). set_solver. }
    cbv zeta. rewrite Hdef. split_and!; try done. intros i. by rewrite Heq.
Qed.

(** ** Additions to the cache *)

Definition added (l : list (string * list Message)) (qn i : string) : Prop :=
  exists els, (qn, els) ∈ l /\ i ∈ ID <$> els.

Lemma add_members_spec env reason l : forall n (q q' : Q) n',
  cache_inv (cache q) -> add_members env reason l n q = Ret (q', (n', None)) ->
  storage q' = storage q /\ cache_inv (cache q') /\
  (forall q0 i, where_is (cache q) q0 i <> None ->
     where_is (cache q') q0 i = where_is (cache q) q0 i) /\
  (forall q0 i, where_is (cache q) q0 i = None ->
     where_is (cache q') q0 i = None /\ ~ added l q0 i \/
     where_is (cache q') q0 i = Some PRIMARY_POOL /\ added l q0 i).
Proof using HCS.
  induction l as [|[qn els] l IH]; intros n q q' n' Hc Hrun; simpl in Hrun.
  { comp_step Hrun. split_and!; try done. intros q0 i Hn. left. split; [done|].
    intros (els & Hin & _). set_solver. }
  comp_step Hrun. destruct r as [ids [e|]]; comp_step Hrun.
  apply spec_Insert in Hs as (Hc1 & _ & Hin & Hall & Hm); [|done]. specialize (Hm (or_introl eq_refl)).
  apply IH in Hrun as (Hst & Hc' & Hkeep & Hnew); [|congruence].
  rewrite H3 in Hkeep, Hnew. split_and!; [congruence|done| |].
  - intros q2 i Hne. assert (Heq : where_is (cache q0) q2 i = where_is (cache q) q2 i).
    { rewrite Hm, decide_False; [done|]. intros [-> Hi]. apply Hin in Hi as [? _]. done. }
    rewrite Hkeep; congruence.
  - intros q2 i Hn. specialize (Hall eq_refl).
    destruct (decide (q2 = qn /\ i ∈ ids)) as [[-> Hi]|Hi].
    + right. assert (Hp : where_is (cache q0) qn i = Some PRIMARY_POOL) by (by rewrite Hm, decide_True).
      rewrite Hkeep by congruence. split; [done|]. exists els. split; [set_solver|]. by apply Hin.
    + assert (Hn1 : where_is (cache q0) q2 i = None) by (rewrite Hm, decide_False; done).
      apply Hnew in Hn1 as [[H5 H6]|[H5 (els' & ? & ?)]]; [left|right; split; [done|exists els'; set_solver]].
      split; [done|]. intros (els' & [[= <- <-]|?]%elem_of_cons & Hels).
      * apply Hi. auto.
      * apply H6. by exists els'.
Qed.

Lemma add_members_keys env reason l : forall n (q q' : Q) r k,
  cache_inv (cache q) -> add_members env reason l n q = Ret (q', r) ->
  cache_key (cache q') k = cache_key (cache q) k.
Proof using HCS.
  induction l as [|[qn els] l IH]; intros n q q' r k Hc Hrun; simpl in Hrun; [by comp_step Hrun|].
  comp_step Hrun. destruct r0 as [ids [e|]]; apply spec_Insert in Hs as (Hc1 & Hk & _); try done.
  - comp_step Hrun. apply Hk.
  - comp_step Hrun. rewrite <- Hk. etransitivity; [eapply IH; [|exact Hrun]|]; congruence.
Qed.

Lemma added_members env ms qn i :
  added (map_range (env_order env) (membersByQueue ms)) qn i <-> (qn, i) ∈ msg_key <$> ms.
Proof.
  unfold added. setoid_rewrite elem_of_map_range. setoid_rewrite membersByQueue_lookup.
  set (l := List.filter _ ms).
  assert (Hl : forall m, m ∈ l <-> m ∈ ms /\ Message.Queue m = qn).
  { intros m. unfold l. rewrite !list_elem_of_In, filter_In, String.eqb_eq. done. }
  rewrite list_elem_of_fmap. split.
  - intros (els & Hels & Hi). assert (els = l) as -> by (by destruct l; simplify_eq).
    apply list_elem_of_fmap in Hi as (m & -> & Hm). exists m. apply Hl in Hm as [? <-]. done.
  - intros (m & [= -> ->] & Hm). exists l. split.
    + destruct l as [|m' l'] eqn:E; [|done]. assert (m ∈ ([] : list Message)) by (by apply Hl). set_solver.
    + apply list_elem_of_fmap. exists m. split; [done|]. by apply Hl.
Qed.

(** The messages added are in the cache; the others are where they were. *)
Lemma AddMessagesToCache_spec env reason ms (q q' : Q) n :
  cache_inv (cache q) ->
  AddMessagesToCacheWithAuditReason env reason ms q = Ret (q', (n, None)) ->
  storage q' = storage q /\ cache_inv (cache q') /\
  (forall q0 i, where_is (cache q) q0 i <> None ->
     where_is (cache q') q0 i = where_is (cache q) q0 i) /\
  (forall q0 i, where_is (cache q) q0 i = None ->
     where_is (cache q') q0 i = if decide ((q0, i) ∈ msg_key <$> ms) then Some PRIMARY_POOL else None).
Proof using HCS.
  intros Hc Hrun. apply add_members_spec in Hrun as (? & ? & ? & Hnew); [|done].
  split_and!; try done. intros q0 i Hn. apply Hnew in Hn as [[-> Ha]|[-> Ha]];
    rewrite added_members in Ha; by case_decide.
Qed.
End Queries.
