(* ===== verification/QueueProps.v ===== *)
(** * Properties of the queue

    What a pull, an ack, a nack, a removal and an addition do to the storage
    and to the cache together, for every implementation of the two contracts;
    the coherence of the configuration service; the audit trail. *)

From S2P Require Import Prelude Float64 Dtime Utils Score Message Cache MemoryCache.
From S2P Require Import MemoryCacheFacts Fixtures Storage MemoryStorage MemoryStorageFacts.
From S2P Require Import AuditTrail QueueConfiguration Queue QueueFacts.
#[local] Open Scope string_scope.
#[local] Open Scope list_scope.
#[local] Open Scope Z_scope.

Section Queue.
Context {S C A : Type} `{HSS : StorageSpec S} `{HCS : CacheSpec C} `{HA : Auditor A}.
Abbreviation Q := (Queue S C A).

(** The storage and the cache satisfy their invariants. *)
Definition queue_inv (q : Q) : Prop := storage_inv (storage q) /\ cache_inv (cache q).

(** No message stored has a NaN score. *)
Definition scores_ordered (s : S) : Prop :=
  forall qn i m, stored s qn i = Some m -> f64_is_nan (Score m) = false.

(** The removals of a queue from the cache report no error. *)
Definition cache_Remove_ok (qn : string) : Prop :=
  forall env ids (c : C), cache_inv c -> (cache_Remove env qn ids c).2.2 = None.

(** How a pull may move a message of the cache. *)
Definition pulled (env : Env) (q q' : Q) (qn i : string) (found : list Message) : Prop :=
  where_is (cache q) qn i = Some PRIMARY_POOL /\
  (where_is (cache q') qn i = Some PROCESSING_POOL /\ i ∈ ID <$> found \/
   where_is (cache q') qn i = None /\ (forall m, ~ live env (storage q) qn i m)).

(** The cache after the ids not found are forgotten. *)
Lemma forget_ids env qn nf c1 :
  cache_inv c1 -> cache_Remove_ok qn ->
  let c' := if decide (nf = []) then c1 else (cache_Remove env qn nf c1).1 in
  cache_inv c' /\ moved (where_is c1) qn nf None (where_is c').
Proof using HCS.
  intros Hc Hok. simpl. destruct (decide (nf = [])) as [->|_].
  - split; [done|]. intros q0 i. rewrite decide_False; [done|]. set_solver.
  - destruct (cache_Remove env qn nf c1) as [c' [n err]] eqn:E.
    pose proof (Hok env nf c1 Hc) as Herr. rewrite E in Herr. simpl in Herr. subst err.
    apply spec_Remove in E as (Hi & _ & gone & Hsub & Hall & Hm); [|done]. split; [done|].
    intros q0 i. rewrite Hm. apply decide_ext. specialize (Hall eq_refl). set_solver.
Qed.

(** C6. A pull hands out stored messages only.  Of the ids the cache gives,
    the messages returned are exactly the ones stored (and not expired, when
    the storage hides expired messages), each once, in order of score, at most
    [n]; they were available and are now processing.  The other ids are
    forgotten by the cache (their messages were removed or have expired),
    every other message stays in its pool and the storage is not changed. *)
Theorem Pull_correct env qn n mn mx dl (q q' : Q) res
    (Hq : queue_inv q) (Hqn : qn <> "") (Hn : 0 < n) (Hsize : cache_pull_ok n)
    (Hremove : cache_Remove_ok qn)
    (Hpull : Pull env qn n mn mx dl q = Ret (q', (res, None))) :
  let found := default [] res in
  storage q' = storage q /\ queue_inv q' /\ NoDup (ID <$> found) /\
  Z.of_nat (length found) <= n /\ res <> Some [] /\
  (scores_ordered (storage q) -> StronglySorted (sort_le "score") found) /\
  (forall m, m ∈ found -> live env (storage q) qn (ID m) m /\ pulled env q q' qn (ID m) found) /\
  (forall q0 i, where_is (cache q') q0 i = where_is (cache q) q0 i \/
     q0 = qn /\ pulled env q q' qn i found).
Proof using Type*.
  destruct Hq as [HSi HCi].
  destruct (Pull_run _ _ _ _ _ _ _ _ _ HSi HCi Hsize Hqn Hpull)
    as (c1 & ids & nf & Hc & Hst & Hcache & Hnf & Hres & Hnd & Hlen & Hfound & Hsort).
  apply spec_PullMessages in Hc as (Hc1 & _ & Hidnd & Hidlen & Hprim & Hmoved); [|done..].
  destruct (forget_ids env qn nf c1 Hc1 Hremove) as [Hc' Hforget]. rewrite <- Hcache in Hc', Hforget.
  rewrite Forall_forall in Hprim. cbv zeta in *.
  assert (Hids : forall i, i ∈ ids -> pulled env q q' qn i (default [] res)).
  { intros i Hi. split; [by apply Hprim|]. rewrite Hforget, Hmoved.
    destruct (decide (i ∈ nf)) as [Hi'|Hi'].
    - right. rewrite decide_True by done. split; [done|]. by apply Hnf.
    - left. rewrite decide_False, decide_True by tauto. split; [done|].
      assert (Hex : ~ forall m, ~ live env (storage q) qn i m) by (intros Hx; apply Hi', Hnf; done).
      destruct (stored (storage q) qn i) as [m|] eqn:E; cycle 1.
      { destruct Hex. intros m [Hm _]. congruence. }
      apply list_elem_of_fmap. exists m. pose proof E as (_ & <- & _)%spec_stored_key; [|done].
      split; [done|]. apply Hfound. split; [done|]. split; [done|]. intros Hh Hexp.
      apply Hex. intros m' [Hm' Hx]. specialize (Hx Hh). congruence. }
  split; [done|]. split; [split; [by rewrite Hst|done]|]. split; [done|]. split; [lia|].
  split; [done|]. split; [done|]. split.
  - intros m Hm. apply Hfound in Hm as [Hi Hl]. auto.
  - intros q0 i. destruct (decide (q0 = qn /\ i ∈ ids)) as [[-> Hi]|Hi]; [auto|]. left.
    rewrite Hforget, Hmoved, !decide_False; [done|done|]. intros [-> Hi']. apply Hnf in Hi' as [? _]. tauto.
Qed.

(** ** Acks and nacks *)

(** [Ack] or [Nack], by the lock type they use. *)
Definition answer (t : LockType) (env : Env) (m : Message) (reason : string) :
    Comp Q (result bool) :=
  match t with
  | LOCK_ACK => Ack env (Some m) reason
  | LOCK_NACK => Nack env (Some m) reason
  end.

(** The message stored after an ack or a nack [m] of [v]. *)
Definition answered (t : LockType) (m v v' : Message) : Prop :=
  Score v' = Score m /\ LockMs v' = LockMs m /\
  Breakpoint v' = (match t with LOCK_ACK => Breakpoint m | LOCK_NACK => Breakpoint v end) /\
  LastUsage v' = (match t with LOCK_ACK => kept_time <$> LastUsage m | LOCK_NACK => LastUsage v end) /\
  ExpiryDate v' = ExpiryDate v /\ Timeless v' = Timeless v.

Definition replaced (t : LockType) (m : Message) (s s' : S) : Prop :=
  (forall qn i, (qn, i) <> msg_key m -> stored s' qn i = stored s qn i) /\
  match stored s (Message.Queue m) (ID m) with
  | None => stored s' (Message.Queue m) (ID m) = None
  | Some v => exists v', stored s' (Message.Queue m) (ID m) = Some v' /\ answered t m v v'
  end.

(** The call of the cache an ack or a nack ends with. *)
Definition release (t : LockType) (env : Env) (m : Message) (c : C) : C * result bool :=
  if 0 <? LockMs m then cache_LockMessage env m t c else cache_MakeAvailable env m c.

(** Both run the storage, then the cache. *)
Lemma answer_run t env m reason (q q' : Q) b :
  answer t env m reason q = Ret (q', (b, None)) ->
  exists n, (match t with
             | LOCK_ACK => storage_Ack env m (storage q)
             | LOCK_NACK => storage_Nack env m (storage q)
             end) = (storage q', (n, None)) /\
    release t env m (cache q) = (cache q', (b, None)).
Proof.
  unfold answer, Ack, Nack, release. intros Hrun.
  destruct t; destruct (String.eqb (Message.Queue m) ""); try (by comp_step Hrun);
    destruct (String.eqb (ID m) ""); try (by comp_step Hrun); comp_step Hrun;
    destruct r as [n [e|]]; try (by comp_step Hrun); exists n;
    comp_step Hrun; destruct (0 <? LockMs m); comp_step Hrun;
    match goal with r : bool * option error |- _ => destruct r as [b0 [e|]]; comp_step Hrun end;
    split; congruence.
Qed.

Definition answer_pool (t : LockType) (m : Message) : PoolType :=
  if 0 <? LockMs m then lock_pool t else PRIMARY_POOL.

Lemma release_spec t env m (c c' : C) b :
  cache_inv c -> release t env m c = (c', (b, None)) ->
  cache_inv c' /\ (b = true <-> where_is c (Message.Queue m) (ID m) = Some PROCESSING_POOL) /\
  moved (where_is c) (Message.Queue m) (if b then [ID m] else []) (Some (answer_pool t m)) (where_is c').
Proof using HCS.
  intros Hc. unfold release, answer_pool. case_if; intros Hr.
  - apply spec_LockMessage in Hr as (? & _ & H1 & H2 & H3); [|done]. split_and!; [done| |apply H3; auto].
    split; [intros Hb; by apply H1|by apply H2].
  - apply spec_MakeAvailable in Hr as (? & _ & H1 & H2 & H3); [|done]. split_and!; [done| |apply H3; auto].
    split; [intros Hb; by apply H1|by apply H2].
Qed.

Lemma answer_spec t env m reason (q q' : Q) b :
  queue_inv q -> queue_name_ok (Message.Queue m) ->
  answer t env m reason q = Ret (q', (b, None)) ->
  queue_inv q' /\
  (b = true <-> where_is (cache q) (Message.Queue m) (ID m) = Some PROCESSING_POOL) /\
  moved (where_is (cache q)) (Message.Queue m) (if b then [ID m] else [])
    (Some (answer_pool t m)) (where_is (cache q')) /\
  replaced t m (storage q) (storage q').
Proof using HSS HCS.
  intros [HSi HCi] Hname Hrun. apply answer_run in Hrun as (n & Hst & Hc).
  apply release_spec in Hc as (Hc' & Hb & Hm); [|done].
  assert (Hs : storage_inv (storage q') /\ replaced t m (storage q) (storage q')).
  { destruct t.
    - apply spec_storage_Ack in Hst as (Hi & _ & Hne & Hm'); [|done..]. split; [done|].
      split; [done|]. destruct (stored (storage q) _ _); [|done].
      destruct Hm' as (v' & ? & ? & ? & ? & ? & ? & ?). by exists v'.
    - apply spec_storage_Nack in Hst as (Hi & _ & Hne & Hm'); [|done..]. split; [done|].
      split; [done|]. destruct (stored (storage q) _ _); [|done].
      destruct Hm' as (v' & ? & ? & ? & ? & ? & ? & ?). by exists v'. }
  destruct Hs as [Hs Hrep]. split; [by split|]. done.
Qed.

(** C7. An ack (or a nack) succeeds exactly for a message being processed.  It
    then becomes available again, or locked when a lock time is given, and no
    other message moves; otherwise the cache does not change.  In both cases
    the message stored, if there is one, takes the score and the lock time of
    the answer, and no other message stored changes. *)
Theorem Ack_Nack_correct t env m reason (q q' : Q) b
    (Hq : queue_inv q) (Hname : queue_name_ok (Message.Queue m))
    (Hrun : answer t env m reason q = Ret (q', (b, None))) :
  (b = true <-> where_is (cache q) (Message.Queue m) (ID m) = Some PROCESSING_POOL) /\
  (b = true -> where_is (cache q') (Message.Queue m) (ID m) = Some (answer_pool t m)) /\
  (forall qn i, (b = false \/ (qn, i) <> msg_key m) ->
     where_is (cache q') qn i = where_is (cache q) qn i) /\
  replaced t m (storage q) (storage q').
Proof using HSS HCS.
  apply answer_spec in Hrun as (_ & Hb & Hm & Hr); [|done..]. split_and!; [done| | |done].
  - intros ->. rewrite Hm, decide_True; [done|]. set_solver.
  - intros qn i Hor. rewrite Hm, decide_False; [done|]. intros [-> Hi]. destruct b; [|set_solver].
    destruct Hor as [?|Hne]; [done|]. apply list_elem_of_singleton in Hi as ->. by apply Hne.
Qed.

(** ** Removals *)

Lemma Remove_run env qn reason ids (q q' : Q) cn sn :
  Remove env qn reason ids q = Ret (q', ((cn, sn), None)) ->
  storage_Remove env qn ids (storage q) = (storage q', (sn, None)) /\
  cache_Remove env qn ids (cache q) = (cache q', (cn, None)).
Proof.
  unfold Remove. intros Hrun. comp_step Hrun. destruct r as [n1 [e|]]; comp_step Hrun.
  destruct r as [n2 [e|]]; comp_step Hrun. split; congruence.
Qed.

(** C8. A removal that reports no error leaves none of the ids given in the
    storage nor in the cache, touches no other message, and reports as
    removed from the storage the number of these messages that were stored. *)
Theorem Remove_correct env qn reason ids (q q' : Q) cn sn
    (Hq : queue_inv q) (Hnd : NoDup ids)
    (Hrun : Remove env qn reason ids q = Ret (q', ((cn, sn), None))) :
  queue_inv q' /\
  (forall q0 i, stored (storage q') q0 i =
     if decide (q0 = qn /\ i ∈ ids) then None else stored (storage q) q0 i) /\
  (forall q0 i, where_is (cache q') q0 i =
     if decide (q0 = qn /\ i ∈ ids) then None else where_is (cache q) q0 i) /\
  sn = Z.of_nat (length (List.filter (fun i => bool_decide (is_Some (stored (storage q) qn i))) ids)).
Proof using HSS HCS.
  destruct Hq as [HSi HCi]. apply Remove_run in Hrun as [Hs Hc].
  apply spec_storage_Remove in Hs as (Hs' & _ & Hst & Hn); [|done].
  apply spec_Remove in Hc as (Hc' & _ & gone & Hsub & Hall & Hm); [|done].
  split; [by split|]. split; [done|]. split; [|auto].
  intros q0 i. rewrite Hm. apply decide_ext. specialize (Hall eq_refl). set_solver.
Qed.
End Queue.

(** ** Witnesses, on the memory implementation *)

#[local] Existing Instance plain_glob.

Abbreviation MemoryQueue := (Queue MemoryStorage MemoryCache AuditLog) (only parsing).

(** Messages [a] and [b] are stored and available; the cache also holds [c],
    which is not stored. *)
Definition ab_stored : MemoryQueue := {|
  storage := (MemoryStorage.Insert (at_ms 1000) [msg "q" "a" 10 0; msg "q" "b" 5 0] NewMemoryStorage).1;
  cache := (MemoryCache.Insert "q" [msg "q" "a" 10 0; msg "q" "b" 5 0; msg "q" "c" 1 0] NewMemoryCache).1;
  auditor := []; metrics := []
|}.

Lemma plain_q : plain_queue "q".
Proof. unfold plain_queue. apply (bool_decide_unpack _). by vm_compute. Qed.

Lemma ab_stored_inv : queue_inv ab_stored.
Proof.
  split.
  - change (mem_storage_inv (MemoryStorage.Insert (at_ms 1000)
      [msg "q" "a" 10 0; msg "q" "b" 5 0] NewMemoryStorage).1).
    destruct (MemoryStorage.Insert _ _ _) as [s' [r err]] eqn:E.
    apply insert_loop_spec in E as [? _]; [done|split; apply map_Forall_empty|].
    repeat constructor; apply plain_q.
  - change (cache_unique (MemoryCache.Insert "q"
      [msg "q" "a" 10 0; msg "q" "b" 5 0; msg "q" "c" 1 0] NewMemoryCache).1).
    destruct (MemoryCache.Insert _ _ _) as [c' [ids err]] eqn:E.
    apply Insert_moves in E as [? _]; [done|]. intros q. constructor.
Qed.

Lemma memory_Remove_no_error qn ids (c : MemoryCache) : (MemoryCache.Remove qn ids c).2.2 = None.
Proof.
  unfold MemoryCache.Remove.
  destruct (remove_step (queues c) qn ids), (remove_step (processingQueues c) qn ids),
    (remove_step (lockAckQueues c) qn ids), (remove_step (lockNackQueues c) qn ids). done.
Qed.

Lemma memory_Remove_ok qn : cache_Remove_ok (C := MemoryCache) qn.
Proof. intros env ids c _. apply memory_Remove_no_error. Qed.

(** The state an operation leaves. *)
Definition after {R} (o : outcome (MemoryQueue * R)) : MemoryQueue :=
  match o with Ret (q, _) => q | Panic _ => ab_stored end.

(** [c] comes first in the cache, but is not stored: it is forgotten. *)
Lemma Pull_correct_witness :
  let q' := after (Pull (at_ms 2000) "q" 3 None None 0 ab_stored) in
  exists ms, Pull (at_ms 2000) "q" 3 None None 0 ab_stored = Ret (q', (Some ms, None)) /\
    (ID <$> ms) = ["b"; "a"] /\ where_is (cache q') "q" "c" = None /\
    forall m, m ∈ ms -> where_is (cache q') "q" (ID m) = Some PROCESSING_POOL.
Proof.
  intros q'. eexists.
  assert (E : Pull (at_ms 2000) "q" 3 None None 0 ab_stored = Ret (q', (Some _, None)))
    by (vm_compute; reflexivity).
  split; [exact E|]. split; [vm_compute; reflexivity|]. split; [vm_compute; reflexivity|].
  destruct (Pull_correct (at_ms 2000) "q" 3 None None 0 ab_stored q' _ ab_stored_inv
    ltac:(done) ltac:(lia) I (memory_Remove_ok "q") E) as (_ & _ & _ & _ & _ & _ & Hfound & _).
  intros m Hm. destruct (Hfound m Hm) as [Hl [_ [[Hw _]|[_ Hno]]]]; [exact Hw|].
  by destruct (Hno m).
Defined.

(** [b], being processed, is acked with a lock of 500 ms. *)
Definition b_processing : MemoryQueue := after (Pull (at_ms 2000) "q" 2 None None 0 ab_stored).

Lemma b_processing_inv : queue_inv b_processing.
Proof.
  assert (E : exists res, Pull (at_ms 2000) "q" 2 None None 0 ab_stored = Ret (b_processing, (res, None)))
    by (eexists; vm_compute; reflexivity).
  revert E. generalize b_processing. intros q' [res E].
  destruct ab_stored_inv as [HSi HCi].
  assert (Hqn : "q" <> "") by done.
  destruct (Pull_run _ _ _ _ _ _ _ _ _ HSi HCi I Hqn E) as (c1 & ids & nf & Hp & Hst & Hcache & _).
  apply spec_PullMessages in Hp as (Hc1 & _); [|done..].
  destruct (forget_ids (at_ms 2000) "q" nf c1 Hc1 (memory_Remove_ok "q")) as [Hc' _].
  rewrite <- Hcache in Hc'. split; [by rewrite Hst|done].
Qed.

Lemma Ack_Nack_correct_witness :
  let q' := after (answer LOCK_ACK (at_ms 3000) (msg "q" "b" 7 500) "done" b_processing) in
  answer LOCK_ACK (at_ms 3000) (msg "q" "b" 7 500) "done" b_processing = Ret (q', (true, None)) /\
    where_is (cache q') "q" "b" = Some LOCK_ACK_POOL /\
    replaced LOCK_ACK (msg "q" "b" 7 500) (storage b_processing) (storage q').
Proof.
  intros q'. assert (E : answer LOCK_ACK (at_ms 3000) (msg "q" "b" 7 500) "done" b_processing
    = Ret (q', (true, None))) by (vm_compute; reflexivity).
  split; [exact E|].
  destruct (Ack_Nack_correct LOCK_ACK (at_ms 3000) (msg "q" "b" 7 500) "done" b_processing q' true
    b_processing_inv plain_q E) as (_ & Hw & _ & Hr).
  split; [exact (Hw eq_refl)|exact Hr].
Defined.

Lemma Remove_correct_witness :
  let q' := after (Remove (at_ms 3000) "q" "REQUEST" ["b"; "c"] ab_stored) in
  Remove (at_ms 3000) "q" "REQUEST" ["b"; "c"] ab_stored = Ret (q', ((2, 1), None)) /\
    stored (storage q') "q" "b" = None /\ where_is (cache q') "q" "c" = None /\
    where_is (cache q') "q" "a" = Some PRIMARY_POOL.
Proof.
  intros q'. split; [vm_compute; reflexivity|].
  destruct (Remove_correct (at_ms 3000) "q" "REQUEST" ["b"; "c"] ab_stored q' 2 1 ab_stored_inv)
    as (_ & Hs & Hw & _).
  - repeat constructor; set_solver.
  - vm_compute. reflexivity.
  - rewrite Hs, !Hw. split; [reflexivity|]. split; [reflexivity|]. vm_compute. reflexivity.
Defined.
