(* ===== verification/QueueHistory.v ===== *)
(** * Histories of the queue

    The storage and the cache agree over any sequence of operations: every
    message that can be handed out is in the cache, and every message of the
    cache is stored.  Proved from the two contracts. *)

From S2P Require Import Prelude Float64 Dtime Utils Message Cache MemoryCache MemoryCacheFacts.
From S2P Require Import Fixtures Storage MemoryStorage MemoryStorageFacts AuditTrail Queue.
From S2P Require Import QueueFacts QueueProps.
#[local] Open Scope string_scope.
#[local] Open Scope list_scope.
#[local] Open Scope Z_scope.

(** The operations of the queue: an addition to the storage and then to the
    cache, as the service makes it, a pull, an ack or a nack, a timeout, an
    unlock, a removal and a flush. *)
Inductive queue_op :=
  | QAdd (messages : list Message)
  | QPull (queue : string) (n : Z) (minScore maxScore : option float64) (ackDeadlineMs : Z)
  | QAnswer (t : LockType) (m : Message) (reason : string)
  | QTimeout (queue : string)
  | QUnlock (queue : string) (t : LockType)
  | QRemove (queue reason : string) (ids : list string)
  | QFlush.

Section History.
Context {S C A : Type} `{HSS : StorageSpec S} `{HCS : CacheSpec C} `{HA : Auditor A}.
Abbreviation Q := (Queue S C A).

(** Runs an operation and gives its error. *)
Definition run_queue_op (env : Env) (op : queue_op) : Comp Q (option error) :=
  match op with
  | QAdd messages =>
      r ← AddMessagesToStorage env messages;
      match r.2 with
      | Some err => mret (Some err)
      | None => r ← AddMessagesToCache env messages; mret r.2
      end
  | QPull queue n mn mx dl => r ← Pull env queue n mn mx dl; mret r.2
  | QAnswer t m reason => r ← answer t env m reason; mret r.2
  | QTimeout queue => r ← TimeoutMessages env queue; mret r.2
  | QUnlock queue t => r ← on_cache (cache_UnlockMessages env queue t); mret r.2
  | QRemove queue reason ids => r ← Remove env queue reason ids; mret r.2
  | QFlush => r ← Flush env; mret r.2
  end.

(** Every operation of the history returns without an error. *)
Fixpoint runs (h : list (Env * queue_op)) (q q' : Q) : Prop :=
  match h with
  | [] => q' = q
  | (env, op) :: h' => exists q1, run_queue_op env op q = Ret (q1, None) /\ runs h' q1 q'
  end.

(** The names an operation uses are names the storage tells apart, and a pull
    asks for a number of messages the cache supports. *)
Definition op_names_ok (op : queue_op) : Prop :=
  match op with
  | QAdd messages => Forall (fun m => queue_name_ok (Message.Queue m)) messages
  | QPull queue n _ _ _ => queue <> "" /\ cache_pull_ok (C := C) n /\ cache_Remove_ok (C := C) queue
  | QAnswer _ m _ => queue_name_ok (Message.Queue m)
  | _ => True
  end.

(** Every message that can be handed out is in the cache. *)
Definition complete (env : Env) (q : Q) : Prop :=
  forall qn i m, live env (storage q) qn i m -> where_is (cache q) qn i <> None.

(** Every message of the cache is stored. *)
Definition backed (q : Q) : Prop :=
  forall qn i, where_is (cache q) qn i <> None -> stored (storage q) qn i <> None.

(** The clock does not go back. *)
Fixpoint clock_from (now : Time) (h : list (Env * queue_op)) : Prop :=
  match h with
  | [] => True
  | (env, _) :: h' => now <= Now env /\ clock_from (Now env) h'
  end.

(** A moment of the clock. *)
Definition at_time (now : Time) : Env :=
  {| env_now := now; env_order := canonical_order; env_sort := canonical_sort |}.

Definition agree (env : Env) (q : Q) : Prop := queue_inv q /\ complete env q /\ backed q.

Lemma live_later env env' s qn i m :
  Now env <= Now env' -> live env' s qn i m -> live env s qn i m.
Proof. intros Hle [Hst Hex]. split; [done|]. intros Hh [? ?]. apply (Hex Hh). split; [done|lia]. Qed.

Lemma complete_later env env' (q : Q) :
  Now env <= Now env' -> complete env q -> complete env' q.
Proof. intros Hle Hc qn i m Hl. eapply Hc. by eapply live_later. Qed.

(** A change of the cache that forgets no message, under the same storage. *)
Lemma agree_cache env (q q' : Q) :
  agree env q -> cache_inv (cache q') -> storage q' = storage q ->
  (forall qn i, where_is (cache q') qn i = None <-> where_is (cache q) qn i = None) ->
  agree env q'.
Proof using Type*.
  intros ((HSi & _) & Hc & Hb) Hci Hst Hw. split; [split; [by rewrite Hst|done]|]. split.
  - intros qn i m Hl. rewrite Hst in Hl. rewrite Hw. by eapply Hc.
  - intros qn i Hn. rewrite Hw in Hn. rewrite Hst. by apply Hb.
Qed.

Lemma moved_Some_None w qn ids (p : PoolType) w' :
  moved w qn ids (Some p) w' -> (forall i, i ∈ ids -> w qn i <> None) ->
  forall q0 i, w' q0 i = None <-> w q0 i = None.
Proof.
  intros Hm Hids q0 i. rewrite Hm. case_decide as Hd; [|done]. destruct Hd as [-> Hi].
  split; [done|]. intros Hn. by apply Hids in Hi.
Qed.

Lemma agree_add env ms (q q' : Q) :
  agree env q -> Forall (fun m => queue_name_ok (Message.Queue m)) ms ->
  run_queue_op env (QAdd ms) q = Ret (q', None) -> agree env q'.
Proof using Type*.
  intros ((HSi & HCi) & Hc & Hb) Hms Hrun. simpl in Hrun. apply bind_Ret in Hrun as (q1 & r & Hop1 & Hrun).
  unfold AddMessagesToStorage in Hop1. comp_step Hop1. destruct r as [[n k] [e|]]; simpl in Hrun; [by comp_step Hrun|].
  apply bind_Ret in Hrun as (q2 & [n2 e2] & Hop2 & Hrun). comp_step Hrun. simpl in *. subst e2.
  apply spec_storage_Insert in Hop1 as (HSi' & _ & _ & _ & _ & Hother & Hin); [|done..].
  unfold AddMessagesToCache in Hop2.
  apply AddMessagesToCache_spec in Hop2 as (Hst & HCi' & Hkeep & Hnew); [|congruence].
  assert (Hcase : forall qn i, where_is (cache q2) qn i =
    match where_is (cache q) qn i with
    | Some p => Some p
    | None => if decide ((qn, i) ∈ msg_key <$> ms) then Some PRIMARY_POOL else None
    end).
  { intros qn i. assert (Hce : cache q1 = cache q) by done. rewrite <- Hce. destruct (where_is (cache q1) qn i) eqn:E; [by rewrite Hkeep by congruence|].
    by apply Hnew. }
  split; [split; [by rewrite Hst|done]|]. split.
  - intros qn i m [Hm Hex]. rewrite Hst in Hm. rewrite Hcase.
    destruct (where_is (cache q) qn i) eqn:E; [done|]. case_decide as Hd; [done|].
    rewrite Hother in Hm by done. by destruct (Hc qn i m).
  - intros qn i. rewrite Hcase, Hst. destruct (decide ((qn, i) ∈ msg_key <$> ms)) as [Hd|Hd].
    + intros _. apply list_elem_of_fmap in Hd as (m & [= -> ->] & Hm).
      destruct (Hin m Hm) as [m' ->]. done.
    + rewrite Hother by done. intros Hw. apply Hb. by destruct (where_is (cache q) qn i).
Qed.

Lemma agree_pull env qn n mn mx dl (q q' : Q) :
  agree env q -> cache_Remove_ok (C := C) qn -> cache_pull_ok n -> qn <> "" ->
  run_queue_op env (QPull qn n mn mx dl) q = Ret (q', None) -> agree env q'.
Proof using Type*.
  intros ((HSi & HCi) & Hc & Hb) Hok Hn Hqn Hrun. simpl in Hrun.
  apply bind_Ret in Hrun as (q1 & [res e] & Hop1 & Hrun). comp_step Hrun. simpl in *. subst e.
  destruct (Pull_run _ _ _ _ _ _ _ _ _ HSi HCi Hn Hqn Hop1)
    as (c1 & ids & nf & Hp & Hst & Hcache & Hnf & _).
  apply spec_PullMessages in Hp as (Hc1 & _ & _ & _ & Hprim & Hmoved); [|done..].
  destruct (forget_ids env qn nf c1 Hc1 Hok) as [Hc' Hforget]. rewrite <- Hcache in Hc', Hforget.
  clear Hcache.
  rewrite Forall_forall in Hprim.
  assert (Hw1 : forall q0 i, where_is c1 q0 i = None <-> where_is (cache q) q0 i = None).
  { eapply moved_Some_None; [exact Hmoved|]. intros i Hi. by rewrite Hprim. }
  split; [split; [by rewrite Hst|done]|]. split.
  - intros q0 i m Hl. rewrite Hst in Hl. rewrite Hforget. case_decide as Hd.
    + destruct Hd as [-> Hi]. apply Hnf in Hi as [_ Hi]. by destruct (Hi m).
    + rewrite Hw1. by eapply Hc.
  - intros q0 i. rewrite Hforget, Hst. case_decide; [done|]. rewrite Hw1. apply Hb.
Qed.

Lemma agree_answer env t m reason (q q' : Q) :
  agree env q -> queue_name_ok (Message.Queue m) ->
  run_queue_op env (QAnswer t m reason) q = Ret (q', None) -> agree env q'.
Proof using Type*.
  intros (Hq & Hc & Hb) Hname Hrun. simpl in Hrun.
  apply bind_Ret in Hrun as (q1 & [b e] & Hop1 & Hrun). comp_step Hrun. simpl in *. subst e.
  apply answer_spec in Hop1 as (Hq' & Hbt & Hm & Hne & Hrep); [|done..].
  assert (Hw : forall q0 i, where_is (cache q1) q0 i = None <-> where_is (cache q) q0 i = None).
  { eapply moved_Some_None; [exact Hm|]. intros i Hi. destruct b; [|set_solver].
    apply list_elem_of_singleton in Hi as ->. rewrite (proj1 Hbt eq_refl). done. }
  split; [done|]. split.
  - intros qn i v [Hv Hex]. rewrite Hw. destruct (decide ((qn, i) = msg_key m)) as [[= -> ->]|Hk].
    + destruct (stored (storage q) _ _) as [v0|] eqn:E; [|congruence].
      destruct Hrep as (v' & Hv' & _ & _ & _ & _ & He & Ht). simplify_eq.
      apply (Hc _ _ v0). split; [done|]. intros Hh [? ?]. apply (Hex Hh). split; congruence.
    + rewrite Hne in Hv by done. by apply (Hc _ _ v).
  - intros qn i. rewrite Hw. intros Hn. specialize (Hb qn i Hn).
    destruct (decide ((qn, i) = msg_key m)) as [[= -> ->]|Hk]; [|by rewrite Hne].
    destruct (stored (storage q) _ _) as [v0|]; [|done]. destruct Hrep as (v' & -> & _). done.
Qed.

Lemma agree_step env op (q q' : Q) :
  agree env q -> op_names_ok op ->
  run_queue_op env op q = Ret (q', None) -> agree env q'.
Proof using Type*.
  intros Hag Hnames Hrun. destruct op as [ms|qn n mn mx dl|t m reason|qn|qn t|qn reason ids|].
  - by eapply agree_add.
  - destruct Hnames as (? & ? & ?). by eapply agree_pull.
  - by eapply agree_answer.
  - simpl in Hrun. apply bind_Ret in Hrun as (q1 & [l e] & Hop1 & Hrun). comp_step Hrun. simpl in *. subst e.
    unfold TimeoutMessages in Hop1. comp_step Hop1. destruct r as [ids [e|]]; [by comp_step Hop1|].
    pose proof Hag as ((_ & HCi) & _).
    apply spec_TimeoutMessages in Hs as (HCi' & _ & _ & Hproc & Hm); [|done].
    rewrite Forall_forall in Hproc.
    assert (Hag0 : agree env q0).
    { eapply agree_cache; [exact Hag|done|done|]. eapply moved_Some_None; [exact Hm|].
      intros i Hi. by rewrite Hproc. }
    apply bind_Ret in Hop1 as (q2 & [] & Hop1 & Hop2). comp_step Hop2.
    assert (Hsame : same_data q0 q2).
    { destruct (Nat.ltb 0 (length ids)); comp_step Hop1; split; congruence. }
    destruct Hsame as [Hs1 Hs2]. eapply agree_cache; [exact Hag0| |done|]; rewrite Hs2; [apply Hag0|done].
  - simpl in Hrun. apply bind_Ret in Hrun as (q1 & [l e] & Hop1 & Hrun). comp_step Hrun. simpl in *. subst e.
    comp_step Hop1. pose proof Hag as ((_ & HCi) & _).
    apply spec_UnlockMessages in Hop1 as (HCi' & _ & un & _ & _ & Hlock & Hm); [|done].
    rewrite Forall_forall in Hlock. eapply agree_cache; [exact Hag|done|done|].
    intros q0 i. rewrite Hm. case_decide as Hd; [|done]. apply Hlock in Hd. simpl in Hd. by rewrite Hd.
  - simpl in Hrun. apply bind_Ret in Hrun as (q1 & [[cn sn] e] & Hop1 & Hrun). comp_step Hrun.
    simpl in *. subst e. apply Remove_run in Hop1 as [Hs Hcr]. destruct Hag as ((HSi & HCi) & Hc & Hb).
    apply spec_storage_Remove in Hs as (Hs' & _ & Hst & _); [|done].
    apply spec_Remove in Hcr as (Hc' & _ & gone & Hsub & Hall & Hm); [|done]. specialize (Hall eq_refl).
    split; [by split|]. split.
    + intros q0 i m [Hl Hex]. rewrite Hst in Hl. rewrite Hm. case_decide as Hd; [done|].
      rewrite decide_False by set_solver. by apply (Hc _ _ m).
    + intros q0 i. rewrite Hm, Hst. case_decide as Hd; [done|].
      rewrite decide_False by set_solver. apply Hb.
  - simpl in Hrun. apply bind_Ret in Hrun as (q1 & [b e] & Hop1 & Hrun). comp_step Hrun. simpl in *. subst e.
    unfold Flush in Hop1. comp_step Hop1. destruct r0 as [k [e|]]; comp_step Hop1.
    destruct Hag as ((HSi & HCi) & _).
    apply spec_storage_Flush in Hs0 as (Hs' & Hst & _); [|congruence].
    simplify_eq. destruct (spec_Flush env (cache q) HCi) as (Hci & _ & Hw).
    split; [split; [done|congruence]|]. split.
    + intros q0' i m [Hl _]. by rewrite Hst in Hl.
    + intros q0' i. replace (cache q2) with (cache_Flush env (cache q)) by congruence. by rewrite Hw.
Qed.

Lemma agree_run h : forall now (q q' : Q),
  agree (at_time now) q ->
  Forall (fun x => op_names_ok x.2) h -> clock_from now h ->
  runs h q q' ->
  agree (at_time (List.last (map (fun x => Now x.1) h) now)) q'.
Proof using Type*.
  induction h as [|[env op] h IH]; intros now q q' Hag Hnames Hclock Hruns.
  { simpl in Hruns. by subst. }
  apply Forall_cons in Hnames as [Hop Hnames]. destruct Hclock as [Hle Hclock].
  destruct Hruns as (q1 & Hrun & Hruns).
  assert (Hag1 : agree env q1).
  { eapply agree_step; [|exact Hop|exact Hrun]. destruct Hag as (Hq & Hc & Hb).
    split; [done|]. split; [|done]. eapply complete_later; [|exact Hc]. done. }
  assert (Hag2 : agree (at_time (Now env)) q1) by exact Hag1.
  specialize (IH _ _ _ Hag2 Hnames Hclock Hruns).
  cbn [map]. by rewrite last_cons.
Qed.

(** C1. No message is lost between the storage and the cache: start from a
    queue on which the two agree, and run any operations that report no
    error, while the clock does not go back.  At the time of the last
    operation every stored message that has not expired is in one of the
    pools of the cache, so that it will be handed out, and every message of
    the cache is stored. *)
Theorem storage_and_cache_agree h now (q q' : Q)
    (Hstart : agree (at_time now) q)
    (Hnames : Forall (fun x => op_names_ok x.2) h)
    (Hclock : clock_from now h) (Hruns : runs h q q') :
  let last := List.last (map (fun x => Now x.1) h) now in
  (forall qn i m, stored (storage q') qn i = Some m ->
     Timeless m = true \/ last < ExpiryDate m -> where_is (cache q') qn i <> None) /\
  (forall qn i, where_is (cache q') qn i <> None -> stored (storage q') qn i <> None).
Proof using Type*.
  intros last. destruct (agree_run h now q q' Hstart Hnames Hclock Hruns) as (_ & Hc & Hb).
  split; [|exact Hb]. intros qn i m Hst Hlive. apply (Hc qn i m). split; [done|].
  intros _ [Ht He]. change (ExpiryDate m <= last) in He. destruct Hlive; [congruence|lia].
Qed.
End History.

(** ** The memory implementation *)

Definition new_memory_queue : MemoryQueue :=
  {| storage := NewMemoryStorage; cache := NewMemoryCache; auditor := []; metrics := [] |}.

#[local] Existing Instance plain_glob.

Lemma new_memory_queue_agrees now : agree (at_time now) new_memory_queue.
Proof.
  split; [split|split].
  - split; apply map_Forall_empty.
  - intros qn. constructor.
  - intros qn i m [Hm _]. done.
  - intros qn i Hn. done.
Qed.

(** The inputs the memory implementation accepts. *)
Definition op_valid (op : queue_op) : Prop :=
  match op with
  | QAdd messages =>
      Forall (fun m => plain_queue (Message.Queue m) /\ Message.Queue m <> "" /\ ID m <> "") messages
  | QPull queue n _ _ _ => queue <> "" /\ 0 <= n
  | QAnswer _ m _ => plain_queue (Message.Queue m) /\ Message.Queue m <> "" /\ ID m <> ""
  | _ => True
  end.

Lemma op_valid_names op : op_valid op -> op_names_ok (C := MemoryCache) (S := MemoryStorage) op.
Proof.
  destruct op; simpl; try tauto.
  - intros Hm. eapply Forall_impl; [exact Hm|]. by intros m [? _].
  - intros [? _]. split; [done|]. split; [done|]. apply memory_Remove_ok.
Qed.

Lemma for_each_returns {S C A X} `{Auditor A} env (g : X -> Entry) l : forall q : Queue S C A,
  exists q', for_each (fun x => audit env (g x)) l q = Ret (q', tt) /\
    storage q' = storage q /\ cache q' = cache q.
Proof.
  induction l as [|x l IH]; intros q; simpl; [by exists q|].
  destruct (IH {| storage := storage q; cache := cache q;
    auditor := auditor_Store env (g x) (auditor q); metrics := metrics q |}) as (q' & Hq' & H1 & H2).
  by exists q'.
Qed.

Lemma memory_insert_returns env ms (s : MemoryStorage) : forall n k,
  Forall (fun m => plain_queue (Message.Queue m) /\ Message.Queue m <> "" /\ ID m <> "") ms ->
  exists s' r, insert_loop env ms s n k = (s', (r, None)).
Proof.
  revert s. induction ms as [|m ms IH]; intros s n k Hms; simpl; [by eauto|].
  apply Forall_cons in Hms as [(_ & Hq & Hi) Hms].
  rewrite !(proj2 (String.eqb_neq _ _)) by done. destruct (docs s !! getKey m); by apply IH.
Qed.

Lemma memory_add_returns env reason l : forall n (q : MemoryQueue),
  Forall (fun x => Forall (fun m => Message.Queue m = x.1) x.2) l ->
  exists q' n', add_members env reason l n q = Ret (q', (n', None)).
Proof.
  induction l as [|[qn els] l IH]; intros n q Hl; simpl; [by eauto|].
  apply Forall_cons in Hl as [Hels Hl]. simpl in Hels.
  unfold mbind, Comp_bind, on_cache at 1. simpl.
  destruct (MemoryCache.Insert qn els (cache q)) as [c' [ids err]] eqn:E. simpl.
  assert (err = None) as ->.
  { unfold MemoryCache.Insert in E. destruct (existsb _ els) eqn:Ex; [|by simplify_eq].
    apply existsb_exists in Ex as (m & Hm & Hne). rewrite <- list_elem_of_In in Hm.
    rewrite Forall_forall in Hels. rewrite (Hels m Hm), String.eqb_refl in Hne. done. }
  destruct (for_each_returns env (fun i => entry i qn INSERT_CACHE reason) ids
    {| storage := storage q; cache := c'; auditor := auditor q; metrics := metrics q |})
    as (q1 & Hq1 & _). rewrite Hq1. simpl. by apply IH.
Qed.

(** An addition to the cache returns, and reports no error. *)
Lemma memory_add_all_returns env reason ms (q : MemoryQueue) :
  exists q' n, AddMessagesToCacheWithAuditReason env reason ms q = Ret (q', (n, None)).
Proof.
  apply memory_add_returns. apply Forall_forall. intros [qn els] Hels. apply elem_of_map_range in Hels.
  rewrite membersByQueue_lookup in Hels. apply Forall_forall. intros m Hm. simpl.
  assert (Hin : m ∈ List.filter (fun m => String.eqb (Message.Queue m) qn) ms)
    by (by destruct (List.filter _ ms); simplify_eq).
  rewrite list_elem_of_In in Hin. apply filter_In in Hin as [_ Hin]. by bool_hyps.
Qed.

Lemma memory_get_returns env ids qn retry (q : MemoryQueue) :
  mem_storage_inv (storage q) ->
  exists ms, getFromStorage env ids qn [("score", 1)] retry q
    = Ret (q, (ms, notFoundIds ids ms, None)).
Proof.
  intros Hs. unfold getFromStorage, mbind, Comp_bind, ask_storage. simpl.
  rewrite Find_ok by (done || (split; by left)). simpl. by eexists.
Qed.

Lemma memory_pull_returns env qn n mn mx dl (q : MemoryQueue) :
  mem_storage_inv (storage q) -> 0 <= n ->
  exists q' r, Pull env qn n mn mx dl q = Ret (q', (r, None)).
Proof.
  intros Hs Hn. unfold Pull. unfold mbind at 1, Comp_bind at 1, on_cache_o at 1.
  destruct (PullMessages_returns env qn n mn mx dl (cache q) Hn) as (c1 & ids & E).
  simpl. rewrite E. simpl.
  destruct (Nat.eqb (length ids) 0); [by do 2 eexists|].
  set (q1 := {| storage := storage q; cache := c1; auditor := auditor q; metrics := metrics q |}).
  unfold mbind at 1, Comp_bind at 1.
  destruct (memory_get_returns env ids qn false q1 Hs) as [ms ->]. simpl.
  destruct (Nat.eqb (length (notFoundIds ids ms)) 0); [by do 2 eexists|].
  unfold pull_retry. unfold mbind at 1, Comp_bind at 1.
  destruct (memory_get_returns env (notFoundIds ids ms) qn true q1 Hs) as [ms2 ->]. simpl.
  generalize (notFoundIds (notFoundIds ids ms) ms2). intros nf2.
  assert (Hrest : forall q2 : MemoryQueue, exists q' r,
    pull_finish env qn ms ms2 q2 = Ret (q', (r, None))).
  { intros q2. unfold pull_finish. destruct (Nat.eqb _ 0); by do 2 eexists. }
  destruct (Nat.ltb 0 (length nf2)); unfold mbind at 1, Comp_bind at 1; cycle 1.
  { simpl. apply Hrest. }
  unfold mbind at 1, Comp_bind at 1, metric_Add at 1. simpl.
  unfold mbind at 1, Comp_bind at 1.
  match goal with |- context [for_each (fun i => audit env (@?g i)) nf2 ?q0] =>
    destruct (for_each_returns env g nf2 q0) as (q3 & Hq3 & _) end.
  rewrite Hq3. simpl.
  unfold mbind at 1, Comp_bind at 1, on_cache at 1.
  destruct (MemoryCache.Remove qn nf2 (cache q3)) as [c' r']. simpl. apply Hrest.
Qed.

Lemma memory_answer_returns t env m reason (q : MemoryQueue) :
  Message.Queue m <> "" -> ID m <> "" ->
  exists q' b, answer t env m reason q = Ret (q', (b, None)).
Proof.
  intros Hq Hi.
  assert (Hst : exists s n, (match t with
    | LOCK_ACK => storage_Ack env m (storage q)
    | LOCK_NACK => storage_Nack env m (storage q) end) = (s, (n, None))).
  { destruct t; simpl; unfold MemoryStorage.Ack, MemoryStorage.Nack;
      destruct (docs (storage q) !! getKey m); by do 2 eexists. }
  assert (Hrel : exists c b, release t env m (cache q) = (c, (b, None))).
  { unfold release. simpl. case_if.
    - unfold LockMessage. rewrite (proj2 (String.eqb_neq _ _)) by done.
      case_if; bool_hyps; [lia|]. destruct (processingQueues (cache q) !! _); [|by do 2 eexists].
      destruct (removeEntry _ _) as [l []]; by do 2 eexists.
    - unfold MakeAvailable. rewrite (proj2 (String.eqb_neq _ _)) by done.
      destruct (removeEntry _ _) as [l []]; by do 2 eexists. }
  destruct Hst as (s & n & Hst), Hrel as (c & b & Hrel). unfold release in Hrel.
  destruct t; unfold answer, Ack, Nack; rewrite !(proj2 (String.eqb_neq _ _)) by done;
    unfold mbind at 1, Comp_bind at 1, on_storage at 1; rewrite Hst; simpl;
    destruct (0 <? LockMs m); unfold mbind at 1, Comp_bind at 1; simpl;
    unfold mbind at 1, Comp_bind at 1, on_cache at 1; simpl in *; rewrite Hrel; by do 2 eexists.
Qed.

(** A valid operation returns, and reports no error. *)
Lemma memory_op_returns env op (q : MemoryQueue) :
  queue_inv q -> op_valid op -> exists q', run_queue_op env op q = Ret (q', None).
Proof.
  intros [HSi HCi] Hop. destruct op as [ms|qn n mn mx dl|t m reason|qn|qn t|qn reason ids|].
  - simpl in Hop. destruct (memory_insert_returns env ms (storage q) 0 0 Hop) as (s' & r & Hs).
    simpl. unfold mbind at 1, Comp_bind at 1, AddMessagesToStorage, on_storage.
    simpl. unfold MemoryStorage.Insert. rewrite Hs. simpl.
    unfold mbind at 1, Comp_bind at 1, AddMessagesToCache.
    edestruct (memory_add_all_returns env "" ms) as (q' & n' & Hq'). rewrite Hq'. by eexists.
  - destruct Hop as [_ Hn]. simpl. unfold mbind, Comp_bind.
    destruct (memory_pull_returns env qn n mn mx dl q HSi Hn) as (q' & r & ->). by eexists.
  - destruct Hop as (_ & Hq & Hi). simpl. unfold mbind, Comp_bind.
    destruct (memory_answer_returns t env m reason q Hq Hi) as (q' & b & ->). by eexists.
  - simpl. unfold mbind, Comp_bind, TimeoutMessages, mbind, Comp_bind, on_cache. simpl.
    assert (He : exists c ids, MemoryCache.TimeoutMessages env qn (cache q) = (c, (ids, None))).
    { unfold MemoryCache.TimeoutMessages. destruct (pool_get _ _) as [l|]; [|by do 2 eexists].
      destruct (find_timeout _ l); [destruct (removeEntry _ _)|]; by do 2 eexists. }
    destruct He as (c & ids & ->). simpl. destruct (Nat.ltb 0 (length ids)); [|by eexists].
    match goal with |- context [for_each (fun i => audit env (@?g i)) ids ?q0] =>
      destruct (for_each_returns env g ids q0) as (q3 & Hq3 & _) end.
    simpl in Hq3 |- *. rewrite Hq3. by eexists.
  - simpl. unfold mbind, Comp_bind, on_cache. simpl. unfold UnlockMessages.
    destruct (foldl _ _ _) as [[data qs] acc]. by eexists.
  - simpl. unfold mbind, Comp_bind, Remove, mbind, Comp_bind, on_storage. simpl.
    destruct (MemoryStorage.Remove env qn ids (storage q)) as [s' [n err]] eqn:E.
    assert (err = None) as -> by (unfold MemoryStorage.Remove in E; destruct (remove_loop _ _ _ _ _); by simplify_eq).
    simpl. unfold on_cache. simpl.
    pose proof (memory_Remove_no_error qn ids (cache q)) as Hok. simpl in Hok.
    destruct (MemoryCache.Remove qn ids (cache q)) as [c' [n' err']]. simpl in *. subst err'.
    match goal with |- context [for_each (fun i => audit env (@?g i)) ids ?q0] =>
      destruct (for_each_returns env g ids q0) as (q3 & Hq3 & _) end.
    rewrite Hq3. by eexists.
  - simpl. by eexists.
Qed.

(** With the memory storage and cache, a sequence of valid operations never
    panics and never reports an error: it runs to the end, from any queue on
    which the two agree. *)
Theorem memory_queue_runs h now (q : MemoryQueue)
    (Hstart : agree (at_time now) q) (Hclock : clock_from now h)
    (Hvalid : Forall (fun x => op_valid x.2) h) :
  exists q', runs h q q' /\ queue_inv q'.
Proof.
  revert now q Hstart Hclock. induction Hvalid as [|[env op] h Hop Hvalid IH]; intros now q Hag Hclock.
  { exists q. split; [done|]. apply Hag. }
  destruct Hclock as [Hle Hclock]. simpl in Hop.
  destruct (memory_op_returns env op q (proj1 Hag) Hop) as (q1 & Hrun).
  assert (Hag1 : agree env q1).
  { eapply agree_step; [|by apply op_valid_names|exact Hrun].
    destruct Hag as (Hq & Hc & Hb). split; [done|]. split; [|done]. eapply complete_later; [|exact Hc]. done. }
  destruct (IH (Now env) q1 Hag1 Hclock) as (q' & Hruns & Hq'). exists q'. split; [|done].
  exists q1. done.
Qed.

(** ** Witnesses *)

(** Two messages are added; one is pulled, acked with a lock, unlocked; the
    other one is removed. *)
Definition busy_queue_history : list (Env * queue_op) :=
  [ (at_ms 1000, QAdd [msg "q" "a" 10 0; msg "q" "b" 5 0]);
    (at_ms 2000, QPull "q" 1 None None 0);
    (at_ms 2500, QAnswer LOCK_ACK (msg "q" "b" 7 500) "");
    (at_ms 3100, QUnlock "q" LOCK_ACK);
    (at_ms 3200, QRemove "q" "REQUEST" ["a"]) ].

Lemma busy_queue_valid : Forall (fun x => op_valid x.2) busy_queue_history.
Proof.
  pose proof plain_q. repeat constructor; simpl; try done; try lia.
Qed.

Lemma busy_queue_clock : clock_from 0 busy_queue_history.
Proof. vm_compute. repeat split; discriminate. Qed.

Lemma memory_queue_runs_witness :
  exists q', runs busy_queue_history new_memory_queue q' /\ queue_inv q'.
Proof.
  apply (memory_queue_runs busy_queue_history 0).
  - apply new_memory_queue_agrees.
  - apply busy_queue_clock.
  - apply busy_queue_valid.
Defined.

(** The state a history leaves. *)
Fixpoint state_after (h : list (Env * queue_op)) (q : MemoryQueue) : MemoryQueue :=
  match h with
  | [] => q
  | (env, op) :: h' => state_after h' (after (run_queue_op env op q))
  end.

Lemma state_after_runs : runs busy_queue_history new_memory_queue (state_after busy_queue_history new_memory_queue).
Proof.
  assert (Hstep : forall env op h (q q' : MemoryQueue),
    run_queue_op env op q = Ret (after (run_queue_op env op q), None) ->
    runs h (after (run_queue_op env op q)) q' -> runs ((env, op) :: h) q q').
  { intros env op h q q' E Hr. by exists (after (run_queue_op env op q)). }
  unfold busy_queue_history at 1. repeat (apply Hstep; [vm_compute; reflexivity|]). done.
Qed.

Lemma storage_and_cache_agree_witness :
  let q' := state_after busy_queue_history new_memory_queue in
  runs busy_queue_history new_memory_queue q' /\
    where_is (cache q') "q" "b" = Some PRIMARY_POOL /\
    forall qn i, where_is (cache q') qn i <> None -> stored (storage q') qn i <> None.
Proof.
  intros q'. split; [apply state_after_runs|]. split; [vm_compute; reflexivity|].
  apply (storage_and_cache_agree busy_queue_history 0 new_memory_queue).
  - apply new_memory_queue_agrees.
  - eapply Forall_impl; [apply busy_queue_valid|]. intros x. apply op_valid_names.
  - apply busy_queue_clock.
  - apply state_after_runs.
Defined.
