(* ===== verification/Housekeeper.v ===== *)
(** * The housekeeper

    [internal/queue/queue_housekeeper.go]: the background tasks, for any
    implementation of the storage, the cache and the auditor.  The answers of
    [shutdown.Ongoing] are an oracle: [ongoing n] is the one to the [n]-th
    question of a task. *)

From S2P Require Import Prelude Float64 Dtime Utils Score Message Cache Storage AuditTrail Metrics.
From S2P Require Import Queue.
#[local] Open Scope string_scope.
#[local] Open Scope list_scope.
#[local] Open Scope Z_scope.

Section Housekeeper.
Context {S C A : Type} `{Storage S} `{Cache C} `{Auditor A}.
Abbreviation Q := (Queue S C A).

Definition queue_attr (queue : string) : list (string * string) :=
  [("queue", GetQueuePrefix queue)].

(** ** Timeouts *)

(** The loop over the queues.  [canceled n]: the context is cancelled at the
    [n]-th iteration. *)
Fixpoint timeout_loop (env : Env) (ongoing canceled : nat -> bool) (n : nat)
    (queues : list string) : Comp Q unit :=
  match queues with
  | [] => mret tt
  | queueName :: queues' =>
      if ongoing n then mret tt
      else if canceled n then mret tt
      else
        _ ← TimeoutMessages env queueName;
        timeout_loop env ongoing canceled (Datatypes.S n) queues'
  end.

Definition ProcessTimeoutMessages (env : Env) (ongoing canceled : nat -> bool) :
    Comp Q (option error) :=
  r ← ask_cache (cache_ListQueues env "*" PROCESSING_POOL);
  match r with
  | (_, Some err) => mret (Some err)
  | (queues, None) =>
      _ ← timeout_loop env ongoing canceled 0 queues;
      mret None
  end.

(** ** Locks *)

Fixpoint unlockMessages (env : Env) (ongoing : nat -> bool) (n : nat)
    (queues : list string) (lockType : LockType) : Comp Q unit :=
  match queues with
  | [] => mret tt
  | queue :: queues' =>
      if ongoing n then mret tt
      else
        r ← on_cache (cache_UnlockMessages env queue lockType);
        match r with
        | (_, Some _) => unlockMessages env ongoing (Datatypes.S n) queues' lockType
        | (ids, None) =>
            _ ← for_each (fun i => audit env (entry i queue UNLOCK (LockType_string lockType))) ids;
            _ ← metric_Add "deckard_message_unlock" (Z.of_nat (length ids))
                  (queue_attr queue ++ [("lock_type", LockType_string lockType)]);
            unlockMessages env ongoing (Datatypes.S n) queues' lockType
        end
  end.

(** [between]: the answer to the question asked between the two pools. *)
Definition ProcessLockPool (env : Env) (ongoing1 : nat -> bool) (between : bool)
    (ongoing2 : nat -> bool) : Comp Q unit :=
  r ← ask_cache (cache_ListQueues env "*" LOCK_ACK_POOL);
  match r with
  | (_, Some _) => mret tt
  | (lockAckQueues, None) =>
      _ ← unlockMessages env ongoing1 0 lockAckQueues LOCK_ACK;
      if between then mret tt
      else
        r ← ask_cache (cache_ListQueues env "*" LOCK_NACK_POOL);
        match r with
        | (_, Some _) => mret tt
        | (lockNackQueues, None) => unlockMessages env ongoing2 0 lockNackQueues LOCK_NACK
        end
  end.

(** ** Recovery *)

Definition get_key (env : Env) (key : string) : Comp Q (result string) :=
  ask_cache (fun c => Ret (cache_Get env key c)).

(** [_ = cache.Set(...)]: the error is not read. *)
Definition set_key (env : Env) (key value : string) : Comp Q (option error) :=
  on_cache (cache_Set env key value).

Definition isRecovering (env : Env) : Comp Q (result bool) :=
  r ← get_key env RECOVERY_RUNNING;
  match r with
  | (_, Some err) => mret (false, Some err)
  | (recovery, None) => mret (String.eqb recovery "true", None)
  end.

Definition tryToStartRecovery (env : Env) : Comp Q bool :=
  r ← set_key env RECOVERY_RUNNING "true";
  match r with
  | Some _ => mret false
  | None =>
      r ← ask_storage (storage_Find env (Some {|
            Projection := Some [("_id", 1)]; Sort := Some [("_id", -1)]; Limit := 1;
            opt_InternalFilter := None; Retry := false; Comment := "" |}));
      match r with
      | (_, Some _) => mret false
      | ([], None) =>
          _ ← set_key env RECOVERY_STORAGE_BREAKPOINT_KEY RECOVERY_FINISHED;
          _ ← set_key env RECOVERY_RUNNING "false";
          mret false
      | (m :: _, None) =>
          recoveryBreakpointKey ← ask_storage (fun s => storage_GetStringInternalId s m);
          _ ← set_key env RECOVERY_BREAKPOINT_KEY recoveryBreakpointKey;
          mret true
      end
  end.

Definition recovery_batch : Z := 4000.

(** The bounds of a score before it goes to the cache. *)
Definition clamp_score (m : Message) : Message :=
  if f64_ltb (Score m) Min then set_Score Min m
  else if f64_gtb (Score m) Max then set_Score Max m
  else m.

Definition recovery_options (breakpoint recoveryBreakpoint : string) : FindOptions := {|
  Projection := Some [("id", 1); ("score", 1); ("queue", 1); ("last_score", 1);
                      ("last_usage", 1); ("lock_ms", 1)];
  Sort := Some [("_id", 1)]; Limit := recovery_batch;
  opt_InternalFilter := Some {|
    InternalIdBreakpointGt := breakpoint; InternalIdBreakpointLte := recoveryBreakpoint;
    Ids := None; f_Queue := ""; f_QueuePrefix := ""; f_ExpiryDate := None |};
  Retry := false; Comment := ""
|}.

(** The end of a round: the last round marks the recovery as finished. *)
Definition recovery_finish (env : Env) (found : nat) : Comp Q bool :=
  if Z.of_nat found <? recovery_batch then
    _ ← set_key env RECOVERY_RUNNING "false";
    _ ← set_key env RECOVERY_STORAGE_BREAKPOINT_KEY RECOVERY_FINISHED;
    mret true
  else mret true.

(** One round, from the breakpoint: the next messages of the storage go to
    the cache, and the breakpoint moves to the last one. *)
Definition recovery_round (env : Env) (breakpoint : string) : Comp Q bool :=
  r ← get_key env RECOVERY_BREAKPOINT_KEY;
  match r with
  | (_, Some _) => mret true
  | (recoveryBreakpoint, None) =>
      r ← ask_storage (storage_Find env (Some (recovery_options breakpoint recoveryBreakpoint)));
      match r with
      | (_, Some _) => mret true
      | (messages, None) =>
          match List.last (map Some messages) None with
          | None => recovery_finish env (length messages)
          | Some lastMessage =>
              let addMessages := map clamp_score messages in
              r ← AddMessagesToCacheWithAuditReason env "recovery" addMessages;
              match r with
              | (_, Some _) => mret true
              | (_, None) =>
                  key ← ask_storage (fun s => storage_GetStringInternalId s lastMessage);
                  _ ← set_key env RECOVERY_STORAGE_BREAKPOINT_KEY key;
                  recovery_finish env (length messages)
              end
          end
      end
  end.

(** The result tells whether the task is recorded in the metrics. *)
Definition RecoveryMessagesPool (env : Env) : Comp Q bool :=
  r ← get_key env RECOVERY_STORAGE_BREAKPOINT_KEY;
  match r with
  | (_, Some _) => mret true
  | (breakpoint, None) =>
      if String.eqb breakpoint RECOVERY_FINISHED then mret false
      else
        r ← isRecovering env;
        match r with
        | (_, Some _) => mret true
        | (recovering, None) =>
            if String.eqb breakpoint "" && negb recovering then
              started ← tryToStartRecovery env;
              if negb started then mret true else recovery_round env breakpoint
            else recovery_round env breakpoint
        end
  end.

(** ** Expired messages *)

(** The ids of each queue, in the order of the messages. *)
Definition messageMap (messages : list Message) : gmap string (list string) :=
  foldl (fun members m =>
    <[Message.Queue m := default [] (members !! Message.Queue m) ++ [ID m]]> members) ∅ messages.

Fixpoint ttl_loop (env : Env) (ongoing : nat -> bool) (n : nat)
    (l : list (string * list string)) : Comp Q (option error) :=
  match l with
  | [] => mret None
  | (queue, ids) :: l' =>
      if ongoing n then mret None
      else
        r ← Remove env queue "TTL" ids;
        match r with
        | (_, Some err) => mret (Some err)
        | ((cacheRemoved, storageRemoved), None) =>
            _ ← metric_Add "deckard_ttl_messages_cache_removed" cacheRemoved (queue_attr queue);
            _ ← metric_Add "deckard_ttl_messages_removed" storageRemoved (queue_attr queue);
            ttl_loop env ongoing (Datatypes.S n) l'
        end
  end.

Definition ttl_options (filterDate : Time) : FindOptions := {|
  Projection := Some [("id", 1); ("queue", 1); ("_id", 0)];
  Sort := Some [("expiry_date", 1)]; Limit := 10000;
  opt_InternalFilter := Some {|
    InternalIdBreakpointGt := ""; InternalIdBreakpointLte := ""; Ids := None; f_Queue := "";
    f_QueuePrefix := ""; f_ExpiryDate := Some filterDate |};
  Retry := false; Comment := ""
|}.

Definition RemoveTTLMessages (env : Env) (ongoing : nat -> bool) (filterDate : Time) :
    Comp Q (result bool) :=
  r ← isRecovering env;
  match r with
  | (_, Some err) => mret (false, Some err)
  | (true, None) => mret (false, None)
  | (false, None) =>
      r ← ask_storage (storage_Find env (Some (ttl_options filterDate)));
      match r with
      | (_, Some err) => mret (true, Some err)
      | (messages, None) =>
          err ← ttl_loop env ongoing 0 (map_range (env_order env) (messageMap messages));
          mret (true, err)
      end
  end.

(** ** Exceeding messages *)

Definition queue_filter (queue : string) : InternalFilter := {|
  InternalIdBreakpointGt := ""; InternalIdBreakpointLte := ""; Ids := None; f_Queue := queue;
  f_QueuePrefix := ""; f_ExpiryDate := None
|}.

Definition removeExceedingMessagesFromQueue (env : Env) (queueConfiguration : option QueueConfiguration) :
    Comp Q (option error) :=
  match queueConfiguration with
  | None => mret None
  | Some queueConfiguration =>
  if (MaxElements queueConfiguration <=? 0) || String.eqb (cfg_Queue queueConfiguration) "" then
    mret None
  else
    let queue := cfg_Queue queueConfiguration in
    let comment := "housekeeper.removeExceedingMessagesFromQueue_1" in
    r ← ask_storage (storage_Count env
          (Some {| Projection := None; Sort := None; Limit := 0;
                   opt_InternalFilter := Some (queue_filter queue); Retry := false;
                   Comment := comment |})
          (Some {| count_Comment := comment |}));
    match r with
    | (_, Some err) => mret (Some err)
    | (total, None) =>
        if total <=? MaxElements queueConfiguration then mret None
        else
          let diff := (total -64 MaxElements queueConfiguration)%go in
          r ← ask_storage (storage_Find env (Some {|
                Projection := Some [("id", 1); ("_id", 0)]; Sort := Some [("expiry_date", 1)];
                Limit := diff; opt_InternalFilter := Some (queue_filter queue); Retry := false;
                Comment := "housekeeper.removeExceedingMessagesFromQueue_2" |}));
          match r with
          | (_, Some err) => mret (Some err)
          | (messages, None) =>
              r ← Remove env queue "MAX_ELEMENTS" (map ID messages);
              match r with
              | (_, Some err) => mret (Some err)
              | ((cacheRemoved, storageRemoved), None) =>
                  _ ← metric_Add "deckard_exceeding_messages_cache_removed" cacheRemoved (queue_attr queue);
                  _ ← metric_Add "deckard_exceeding_messages_removed" storageRemoved (queue_attr queue);
                  mret None
              end
          end
    end
  end.

Fixpoint exceeding_loop (env : Env) (ongoing : nat -> bool) (n : nat)
    (l : list QueueConfiguration) : Comp Q unit :=
  match l with
  | [] => mret tt
  | configuration :: l' =>
      if ongoing n then mret tt
      else
        _ ← removeExceedingMessagesFromQueue env (Some configuration);
        exceeding_loop env ongoing (Datatypes.S n) l'
  end.

Definition RemoveExceedingMessages (env : Env) (ongoing : nat -> bool) : Comp Q (result bool) :=
  r ← isRecovering env;
  match r with
  | (_, Some err) => mret (false, Some err)
  | (true, None) => mret (false, None)
  | (false, None) =>
      r ← ask_storage (fun s => Ret (storage_ListQueueConfigurations env s));
      match r with
      | (_, Some _) => mret (true, None)
      | (configurations, None) =>
          _ ← exceeding_loop env ongoing 0 configurations;
          mret (true, None)
      end
  end.

(** ** Metrics *)

Definition prefix_filter (queue : string) : InternalFilter := {|
  InternalIdBreakpointGt := ""; InternalIdBreakpointLte := ""; Ids := None; f_Queue := "";
  f_QueuePrefix := queue; f_ExpiryDate := None
|}.

Fixpoint metrics_loop (env : Env) (ongoing : nat -> bool) (n : nat) (queues : list string)
    (oldestElement totalElements : gmap string Z) : Comp Q (gmap string Z * gmap string Z) :=
  match queues with
  | [] => mret (oldestElement, totalElements)
  | queue :: queues' =>
      if ongoing n then mret (oldestElement, totalElements)
      else
        r ← ask_storage (storage_Find env (Some {|
              Projection := Some [("last_usage", 1); ("_id", 0)]; Sort := Some [("last_usage", 1)];
              Limit := 1; opt_InternalFilter := Some (prefix_filter queue); Retry := false;
              Comment := "" |}));
        match r with
        | (_, Some _) => metrics_loop env ongoing (Datatypes.S n) queues' oldestElement totalElements
        | (message, None) =>
            let oldestElement :=
              match message with
              | [m] => match LastUsage m with
                       | Some t => <[queue := ElapsedTime env t]> oldestElement
                       | None => oldestElement
                       end
              | _ => oldestElement
              end in
            r ← Count env (Some (filter_only (Some (prefix_filter queue))));
            match r with
            | (_, Some _) =>
                metrics_loop env ongoing (Datatypes.S n) queues' oldestElement totalElements
            | (total, None) =>
                metrics_loop env ongoing (Datatypes.S n) queues' oldestElement
                  (<[queue := total]> totalElements)
            end
        end
  end.

(** The map of the metrics is global to the process: the task takes it and
    gives it back updated. *)
Definition ComputeMetrics (env : Env) (ongoing : nat -> bool) (metricsMap : QueueMetricsMap) :
    Comp Q QueueMetricsMap :=
  r ← ask_storage (fun s => Ret (storage_ListQueuePrefixes env s));
  match r with
  | (_, Some _) => mret metricsMap
  | (queues, None) =>
      r ← metrics_loop env ongoing 0 queues ∅ ∅;
      let '(oldestElement, totalElements) := r in
      mret (UpdateTotalElementsMap (Some totalElements)
              (UpdateOldestElementMap (Some oldestElement) metricsMap))
  end.
End Housekeeper.
