(* ===== verification/Recovery.v ===== *)
(** * The recovery of the cache, over any storage and cache

    The recovery task refills an empty cache from the storage, 4000 messages
    at a time, in the order of the internal ids.  [RecoverySource] is what it
    needs of a storage beside the contract, the order of the internal ids and
    the answers to its two queries; [ReliableCache] is what it needs of a
    cache.  Over any two that keep both, the recovery terminates and leaves
    storage and cache in agreement ([recovery_reaches]); with a message that
    the cache refuses it never ends ([recovery_stuck]). *)

From S2P Require Import Prelude Float64 Dtime Utils Score Message Cache Storage AuditTrail Metrics.
From S2P Require Import Queue QueueFacts QueueProps QueueHistory Housekeeper.
#[local] Open Scope string_scope.
#[local] Open Scope list_scope.
#[local] Open Scope Z_scope.

(** ** Internal ids *)

(** The internal ids of the messages of a storage, in their order, and the
    text that is kept of them in the cache. *)
Class InternalIds (S : Type) := {
  Iid : Type;
  iid_ltb : Iid -> Iid -> bool;
  iid_of : Message -> Iid;
  iid_text : Iid -> string;
  iid_ok : Iid -> Prop;
  iid_order : weak_order iid_ltb (fun _ => True);
  iid_text_ok : forall r, iid_ok r -> iid_text r <> "" /\ iid_text r <> RECOVERY_FINISHED
}.
Arguments Iid S {_}.

Section Breakpoints.
Context {S : Type} `{InternalIds S}.
Implicit Types (b : option (Iid S)) (r : Iid S) (m : Message).

(** The text of a breakpoint: the empty text is before every id. *)
Definition bp_text b : string := match b with None => "" | Some r => iid_text r end.

Definition bp_valid b : Prop := match b with None => True | Some r => iid_ok r end.

Definition after_b b m : bool := match b with None => true | Some r => iid_ltb r (iid_of m) end.

Definition upto r m : Prop := iid_ltb r (iid_of m) = false.

(** [m] does not come after [m']. *)
Definition iid_le m m' : Prop := iid_ltb (iid_of m') (iid_of m) = false.

Lemma iid_le_trans m1 m2 m3 : iid_le m1 m2 -> iid_le m2 m3 -> iid_le m1 m3.
Proof using Type. unfold iid_le. intros H1 H2. by apply (proj2 iid_order _ (iid_of m2)). Qed.

Lemma iid_le_refl m : iid_le m m.
Proof using Type.
  unfold iid_le. destruct (iid_ltb (iid_of m) (iid_of m)) eqn:E; [|done].
  by rewrite (proj1 iid_order _ _ I I E) in E.
Qed.

Lemma iid_lt_le m m' : iid_ltb (iid_of m) (iid_of m') = true -> iid_le m m'.
Proof using Type. intros E. by apply (proj1 iid_order). Qed.

(** A message after one that is after the breakpoint is after it. *)
Lemma after_le b m m' : after_b b m = true -> iid_le m m' -> after_b b m' = true.
Proof using Type.
  destruct b as [r|]; [|done]. unfold after_b, iid_le. intros E Hle.
  destruct (iid_ltb r (iid_of m')) eqn:E'; [done|].
  by rewrite (proj2 iid_order _ _ _ I I I E' Hle) in E.
Qed.

(** A batch: the messages between two ids that the storage shows, in the order
    of the ids, and the rest only when the batch is full. *)
Record batch (stored : string -> string -> option Message) (shown : Message -> Prop)
    b r (vs : list Message) : Prop := {
  batch_NoDup : NoDup vs;
  batch_stored : forall m, m ∈ vs ->
    stored (Message.Queue m) (ID m) = Some m /\ after_b b m = true /\ upto r m;
  batch_rest : forall qn i m, stored qn i = Some m -> shown m -> after_b b m = true -> upto r m ->
    m ∉ vs -> Z.of_nat (length vs) = recovery_batch /\ forall m', m' ∈ vs -> iid_le m' m;
  batch_sorted : StronglySorted iid_le vs
}.

(** The last message of a sorted batch. *)
Lemma last_sorted (ms : list Message) :
  StronglySorted iid_le ms -> ms <> [] ->
  exists m, List.last (map Some ms) None = Some m /\ m ∈ ms /\ forall m', m' ∈ ms -> iid_le m' m.
Proof using Type.
  induction 1 as [|x ms Hs IH Hx]; [done|]. intros _. destruct ms as [|y ms].
  { exists x. split; [done|]. split; [set_solver|]. intros m' ->%list_elem_of_singleton. apply iid_le_refl. }
  destruct IH as (m & Hm & Hin & Hall); [done|]. exists m. split; [done|]. split; [set_solver|].
  intros m' [->|Hm']%elem_of_cons; [|by apply Hall]. rewrite Forall_forall in Hx. by apply Hx.
Qed.
End Breakpoints.

Definition recovery_projection : option (list (string * Z)) := Projection (recovery_options "" "").

(** The query that starts the recovery. *)
Definition last_options : FindOptions := {|
  Projection := Some [("_id", 1)]; Sort := Some [("_id", -1)]; Limit := 1;
  opt_InternalFilter := None; Retry := false; Comment := ""
|}.

(** ** The storage and the cache of a recovery *)

(** [source_ok]: the internal ids tell the messages apart, and the storage
    answers its queries. *)
Class RecoverySource (S : Type) `{HSS : StorageSpec S} `{!InternalIds S} := {
  source_ok : S -> Prop;
  stored_list : S -> list Message;

  source_list : forall s, storage_inv s ->
    NoDup (stored_list s) /\ forall m, m ∈ stored_list s <-> stored s (Message.Queue m) (ID m) = Some m;

  source_iid : forall s qn i m, storage_inv s -> source_ok s -> stored s qn i = Some m -> iid_ok (iid_of m);

  source_inj : forall s qn i m qn' i' m', storage_inv s -> source_ok s ->
    stored s qn i = Some m -> stored s qn' i' = Some m' -> iid_le m m' -> iid_le m' m -> m = m';

  source_text : forall s qn i m p, storage_inv s -> source_ok s -> stored s qn i = Some m ->
    p = recovery_projection \/ p = Projection last_options ->
    storage_GetStringInternalId s (view p m) = Ret (iid_text (iid_of m));

  source_round : forall env b r s, storage_inv s -> source_ok s -> bp_valid b -> iid_ok r ->
    exists vs, storage_Find env (Some (recovery_options (bp_text b) (iid_text r))) s
        = Ret (view recovery_projection <$> vs, None) /\
      batch (stored s) (shown S env) b r vs;

  source_last : forall env s, storage_inv s -> source_ok s ->
    exists vs, storage_Find env (Some last_options) s = Ret (view (Projection last_options) <$> vs, None) /\
      match vs with
      | [] => forall qn i m, stored s qn i = Some m -> ~ shown S env m
      | m :: _ => stored s (Message.Queue m) (ID m) = Some m /\
          forall qn i m', stored s qn i = Some m' -> shown S env m' -> iid_le m' m
      end
}.

(** A cache whose keys can always be read and set, and that takes the messages
    of the queues it can name. *)
Class ReliableCache (C : Type) `{HCS : CacheSpec C} := {
  cache_name_ok : string -> Prop;
  reliable_Get : forall env k c, cache_inv c -> cache_Get env k c = (cache_key c k, None);
  reliable_Set : forall env k v c, cache_inv c -> exists c', cache_Set env k v c = (c', None);
  reliable_Insert : forall env qn ms c, cache_inv c -> cache_name_ok qn ->
    Forall (fun m => Message.Queue m = qn /\ cache_msg_ok m) ms ->
    exists c' ids, cache_Insert env qn ms c = (c', (ids, None))
}.

Lemma clamp_score_key m : msg_key (clamp_score m) = msg_key m.
Proof. unfold clamp_score. by repeat case_if. Qed.

Lemma length_filter_after {A} (f g : A -> bool) (l : list A) :
  (forall x, x ∈ l -> f x = true -> g x = true) ->
  (length (List.filter f l) <= length (List.filter g l))%nat.
Proof.
  intros Hfg. induction l as [|x l IH]; [done|]. cbn [List.filter].
  assert (Hl : (length (List.filter f l) <= length (List.filter g l))%nat).
  { apply IH. intros y Hy. apply Hfg. by apply list_elem_of_further. }
  destruct (f x) eqn:E; [rewrite (Hfg x) by (done || apply list_elem_of_here); cbn; lia|].
  destruct (g x); cbn; lia.
Qed.

Section Recovery.
Context {S C A : Type} `{HRS : RecoverySource S} `{HRC : ReliableCache C} `{HA : Auditor A}.
Abbreviation Q := (Queue S C A).
Implicit Types (q : Q) (b : option (Iid S)) (r : Iid S).

(** ** Keys of the cache *)

Definition key q (k : string) : string := cache_key (cache q) k.

(** [q'] is [q] with another value for one key. *)
Definition key_changed (k v : string) q q' : Prop :=
  storage q' = storage q /\ cache_inv (cache q') /\
  (forall qn i, where_is (cache q') qn i = where_is (cache q) qn i) /\
  forall k', key q' k' = if decide (k' = k) then v else key q k'.

Lemma set_key_run env k v q :
  cache_inv (cache q) -> exists q', set_key env k v q = Ret (q', None) /\ key_changed k v q q'.
Proof using HRC.
  intros Hc. destruct (reliable_Set env k v (cache q) Hc) as (c' & E).
  pose proof E as (Hc' & Hw & Hk)%spec_Set; [|done]. unfold set_key, on_cache. rewrite E.
  eexists. split; [done|]. by split_and!.
Qed.

Lemma get_key_run env k q : cache_inv (cache q) -> get_key env k q = Ret (q, (key q k, None)).
Proof using HRC. intros Hc. unfold get_key, ask_cache. cbn. by rewrite reliable_Get. Qed.

Lemma isRecovering_run env q :
  cache_inv (cache q) -> isRecovering env q = Ret (q, (String.eqb (key q RECOVERY_RUNNING) "true", None)).
Proof using HRC. intros Hc. unfold isRecovering. by erewrite bind_eq by by apply get_key_run. Qed.

(** [q'] has more messages in its cache than [q] and the same storage. *)
Definition grown q q' : Prop :=
  storage q' = storage q /\ cache_inv (cache q') /\
  (forall qn i, where_is (cache q) qn i <> None -> where_is (cache q') qn i <> None) /\
  (backed q -> backed q').

Lemma grown_trans q1 q2 q3 : grown q1 q2 -> grown q2 q3 -> grown q1 q3.
Proof using Type. intros (? & ? & ? & ?) (? & ? & ? & ?). split_and!; [congruence|auto..]. Qed.

Lemma grown_refl q : cache_inv (cache q) -> grown q q.
Proof using Type. intros Hc. by repeat split. Qed.

Lemma key_changed_grown k v q q' : key_changed k v q q' -> grown q q'.
Proof using Type.
  intros (Hs & Hc & Hw & _). split_and!; [done..| |].
  - intros qn i Hn. by rewrite Hw.
  - intros Hb qn i. rewrite Hw, Hs. apply Hb.
Qed.

(** The end of the recovery. *)
Definition finished q : Prop :=
  key q RECOVERY_STORAGE_BREAKPOINT_KEY = RECOVERY_FINISHED /\ key q RECOVERY_RUNNING = "false".

(** The last statement of a round. *)
Lemma recovery_finish_run env n q : cache_inv (cache q) ->
  exists q', recovery_finish env n q = Ret (q', true) /\ grown q q' /\
    (forall qn i, where_is (cache q') qn i = where_is (cache q) qn i) /\
    if Z.of_nat n <? recovery_batch then finished q' else q' = q.
Proof using HRC.
  intros Hc. unfold recovery_finish. case_if; cycle 1.
  { exists q. split; [done|]. split; [by apply grown_refl|done]. }
  destruct (set_key_run env RECOVERY_RUNNING "false" q Hc) as (q1 & E1 & H1).
  pose proof H1 as (_ & Hc1 & Hw1 & Hk1).
  destruct (set_key_run env RECOVERY_STORAGE_BREAKPOINT_KEY RECOVERY_FINISHED q1 Hc1) as (q2 & E2 & H2).
  pose proof H2 as (_ & _ & Hw2 & Hk2).
  erewrite bind_eq by exact E1. erewrite bind_eq by exact E2. exists q2. split; [done|]. split.
  - eapply grown_trans; by eapply key_changed_grown.
  - split; [intros; by rewrite Hw2|]. split; rewrite Hk2; [by rewrite decide_True|].
    rewrite decide_False by done. by rewrite Hk1, decide_True.
Qed.

(** ** The batch of a round goes to the cache *)

(** The messages as the round adds them, with their scores in the bounds. *)
Definition added_messages (vs : list Message) : list Message :=
  map clamp_score (view (S := S) recovery_projection <$> vs).

(** The cache takes the stored messages. *)
Definition insertable (s : S) : Prop := forall qn i m, stored s qn i = Some m ->
  cache_name_ok (C := C) qn /\ cache_msg_ok (C := C) (clamp_score (view recovery_projection m)).

Lemma view_round_key m : msg_key (view (S := S) recovery_projection m) = msg_key m.
Proof using Type.
  unfold msg_key. assert (Ha : asks "id" recovery_projection /\ asks "queue" recovery_projection)
    by (split; cbn; set_solver).
  by rewrite spec_view_ID, spec_view_Queue by (tauto || by vm_compute).
Qed.

Lemma added_messages_keys vs : msg_key <$> added_messages vs = msg_key <$> vs.
Proof using Type.
  unfold added_messages. change (map clamp_score ?l) with (clamp_score <$> l).
  rewrite <- !list_fmap_compose. apply list_fmap_ext. intros j m _. cbn.
  by rewrite clamp_score_key, view_round_key.
Qed.

Lemma add_members_returns env reason l : forall n q,
  cache_inv (cache q) ->
  Forall (fun x => cache_name_ok x.1 /\
    Forall (fun m => Message.Queue m = x.1 /\ cache_msg_ok (C := C) m) x.2) l ->
  exists q' n', add_members env reason l n q = Ret (q', (n', None)).
Proof using HRC.
  induction l as [|[qn els] l IH]; intros n q Hc Hl; cbn [add_members]; [by do 2 eexists|].
  apply Forall_cons in Hl as [[Hn Hels] Hl]. cbn [fst snd] in *.
  destruct (reliable_Insert env qn els (cache q) Hc Hn Hels) as (c' & ids & E).
  pose proof E as (Hc' & _)%spec_Insert; [|done].
  erewrite bind_eq by (unfold on_cache; rewrite E; reflexivity). cbv iota beta.
  destruct (for_each_returns env (fun i => entry i qn INSERT_CACHE reason) ids
    {| storage := storage q; cache := c'; auditor := auditor q; metrics := metrics q |})
    as (q1 & Hq1 & _ & Hc1).
  erewrite bind_eq by exact Hq1. apply IH; [by rewrite Hc1|done].
Qed.

Lemma elem_of_members env ms qn els m :
  (qn, els) ∈ map_range (env_order env) (membersByQueue ms) -> m ∈ els -> m ∈ ms /\ Message.Queue m = qn.
Proof using Type.
  rewrite elem_of_map_range, membersByQueue_lookup. intros Hels Hm.
  assert (Hin : m ∈ List.filter (fun m => String.eqb (Message.Queue m) qn) ms)
    by (by destruct (List.filter _ ms); simplify_eq).
  rewrite list_elem_of_In in Hin. apply filter_In in Hin as [Hin E]. apply String.eqb_eq in E.
  by apply list_elem_of_In in Hin.
Qed.

(** The effect of an addition on the keys and the pools. *)
Lemma AddMessagesToCache_grown env reason ms q q' n :
  queue_inv q -> (forall k, k ∈ msg_key <$> ms -> stored (storage q) k.1 k.2 <> None) ->
  AddMessagesToCacheWithAuditReason env reason ms q = Ret (q', (n, None)) ->
  grown q q' /\ (forall k, key q' k = key q k) /\
  forall k, k ∈ msg_key <$> ms -> where_is (cache q') k.1 k.2 <> None.
Proof using HRC.
  intros [_ HCi] Hst Hrun. pose proof Hrun as (Hs & Hci & Hkeep & Hnew)%AddMessagesToCache_spec; [|done].
  split_and!.
  - split_and!; try done; [by intros qn i Hw; rewrite Hkeep|].
    intros Hb qn i Hw. rewrite Hs. destruct (where_is (cache q) qn i) eqn:E; [apply Hb; congruence|].
    rewrite Hnew in Hw by done. case_decide as Hd; [|done]. by apply (Hst (qn, i)).
  - intros k. by eapply add_members_keys.
  - intros [qn i] Hk. cbn. destruct (where_is (cache q) qn i) eqn:E; [rewrite Hkeep; congruence|].
    by rewrite Hnew, decide_True.
Qed.

Lemma batch_added env vs q :
  queue_inv q -> insertable (storage q) ->
  (forall m, m ∈ vs -> stored (storage q) (Message.Queue m) (ID m) = Some m) ->
  exists q' n, AddMessagesToCacheWithAuditReason env "recovery" (added_messages vs) q
      = Ret (q', (n, None)) /\
    grown q q' /\ (forall k, key q' k = key q k) /\
    forall m, m ∈ vs -> where_is (cache q') (Message.Queue m) (ID m) <> None.
Proof using HRC.
  intros Hq Hins Hvs. pose proof Hq as [_ HCi].
  destruct (add_members_returns env "recovery" (map_range (env_order env) (membersByQueue (added_messages vs)))
    0 q HCi) as (q' & n & Hrun).
  { apply Forall_forall. intros [qn els] Hels. cbn [fst snd].
    assert (Hok : forall m, m ∈ els -> Message.Queue m = qn /\ cache_name_ok qn /\ cache_msg_ok (C := C) m).
    { intros m Hm. destruct (elem_of_members _ _ _ _ _ Hels Hm) as [Hin Hqn]. split; [done|].
      unfold added_messages in Hin. apply list_elem_of_fmap in Hin as (m1 & -> & (m0 & -> & Hm0)%list_elem_of_fmap).
      pose proof (clamp_score_key (view (S := S) recovery_projection m0)) as Ek. rewrite view_round_key in Ek.
      injection Ek as Eq _. destruct (Hins _ _ _ (Hvs _ Hm0)) as [Hn Hok]. split; [|done].
      by rewrite <- Hqn, Eq. }
    split; [|apply Forall_forall; naive_solver].
    destruct els as [|m els]; [|by apply (Hok m), list_elem_of_here].
    exfalso. rewrite elem_of_map_range, membersByQueue_lookup in Hels. by destruct (List.filter _ _). }
  exists q', n. split; [exact Hrun|].
  eapply AddMessagesToCache_grown in Hrun as (Hg & Hk & Hin); [|done|].
  - split; [done|]. split; [done|]. intros m Hm. apply (Hin (msg_key m)).
    rewrite added_messages_keys. by apply list_elem_of_fmap_2.
  - rewrite added_messages_keys. intros k (m & -> & Hm)%list_elem_of_fmap. cbn. by rewrite Hvs.
Qed.

(** ** One round *)

(** The messages shown at [env'] were shown at [env]: the clock does not go
    back, or the storage hides no message. *)
Definition no_earlier (env env' : Env) : Prop := forall m, shown S env' m -> shown S env m.

Lemma no_earlier_clock env env' : Now env <= Now env' -> no_earlier env env'.
Proof using Type. intros Hle m Hm Hh [Ht Hx]. apply (Hm Hh). split; [done|lia]. Qed.

Lemma complete_no_earlier env env' q : no_earlier env env' -> complete env q -> complete env' q.
Proof using Type. intros Hne Hc qn i m [Hst Hex]. eapply Hc. split; [exact Hst|by apply Hne]. Qed.

(** The progress of a recovery: the messages up to the breakpoint [b] are in
    the cache, and no message that can be handed out is after [r]. *)
Definition progress env b r q : Prop :=
  key q RECOVERY_BREAKPOINT_KEY = iid_text r /\ iid_ok r /\
  key q RECOVERY_STORAGE_BREAKPOINT_KEY = bp_text b /\ bp_valid b /\
  (forall qn i m, live env (storage q) qn i m -> upto r m) /\
  (forall qn i m, live env (storage q) qn i m -> after_b b m = false -> where_is (cache q) qn i <> None).

(** The messages after a breakpoint. *)
Definition remaining (s : S) b : nat := length (List.filter (after_b b) (stored_list s)).

Lemma remaining_all s b : (remaining s b <= length (stored_list s))%nat.
Proof using Type. apply sublist_length, filter_sublist. Qed.

(** A batch of messages between two breakpoints. *)
Lemma remaining_batch s b lm vs :
  storage_inv s -> NoDup vs ->
  (forall m, m ∈ vs -> stored s (Message.Queue m) (ID m) = Some m /\ after_b b m = true /\ iid_le m lm) ->
  lm ∈ vs ->
  (remaining s (Some (iid_of lm)) + length vs <= remaining s b)%nat.
Proof using HRS.
  intros Hs Hnd Hvs Hlm. destruct (source_list s Hs) as [Hl Hin].
  unfold remaining. rewrite <- length_app. apply submseteq_length, NoDup_submseteq.
  - apply NoDup_app. split_and!; [|intros m|done].
    + eapply sublist_NoDup; [exact Hl|apply filter_sublist].
    + rewrite elem_of_filter_iff. intros [_ Ha] (_ & _ & Hle)%Hvs. unfold iid_le in Hle. cbn in Ha. congruence.
  - intros m. rewrite elem_of_app, !elem_of_filter_iff. intros [[Hm Ha]|Hm].
    + split; [done|]. apply (after_le b lm); [by apply Hvs|by apply iid_lt_le].
    + split; [by apply Hin, Hvs|by apply Hvs].
Qed.

Section Round.
Context (env env' : Env) (b : option (Iid S)) (r : Iid S) (q : Q) (vs : list Message).
Hypothesis Hq : queue_inv q.
Hypothesis Hok : source_ok (storage q).
Hypothesis Hnow : no_earlier env env'.
Hypothesis Hprog : progress env b r q.
Hypothesis Hbatch : batch (stored (storage q)) (shown S env') b r vs.

(** A message that can be handed out is in the cache, or in the batch, or
    after a full batch. *)
Lemma round_cases qn i m :
  live env' (storage q) qn i m ->
  where_is (cache q) qn i <> None \/ m ∈ vs \/
  Z.of_nat (length vs) = recovery_batch /\ forall m', m' ∈ vs -> iid_le m' m.
Proof using Hnow Hprog Hbatch.
  destruct Hprog as (_ & _ & _ & _ & Hmax & Hdone). intros Hl.
  assert (Hl' : live env (storage q) qn i m) by (split; [apply Hl|apply Hnow, Hl]).
  destruct (after_b b m) eqn:Ea; [|left; by eapply Hdone]. right.
  destruct (decide (m ∈ vs)); [by left|right].
  eapply (batch_rest _ _ _ _ _ Hbatch); [apply Hl|apply Hl|done|by eapply Hmax|done].
Qed.

Lemma batch_in_cache (q' : Q) qn i m :
  (forall m, m ∈ vs -> where_is (cache q') (Message.Queue m) (ID m) <> None) ->
  stored (storage q) qn i = Some m -> m ∈ vs -> where_is (cache q') qn i <> None.
Proof using Hq.
  intros Hin Hst Hm. destruct (spec_stored_key _ _ _ _ (proj1 Hq) Hst) as (<- & <- & _). by apply Hin.
Qed.

(** A batch that is not full is the last one. *)
Lemma round_complete (q' : Q) :
  grown q q' -> (forall m, m ∈ vs -> where_is (cache q') (Message.Queue m) (ID m) <> None) ->
  Z.of_nat (length vs) <> recovery_batch -> complete env' q'.
Proof using Hq Hnow Hprog Hbatch.
  intros (Est & _ & Hkeep & _) Hin Hlen qn i m Hl. rewrite Est in Hl.
  destruct (round_cases _ _ _ Hl) as [?|[Hm|[? _]]]; [by apply Hkeep| |done].
  eapply batch_in_cache; [exact Hin|apply Hl|done].
Qed.

(** A full batch moves the breakpoint to its last message. *)
Lemma round_progress lm (q' : Q) :
  lm ∈ vs -> (forall m, m ∈ vs -> iid_le m lm) ->
  grown q q' -> (forall m, m ∈ vs -> where_is (cache q') (Message.Queue m) (ID m) <> None) ->
  key q' RECOVERY_BREAKPOINT_KEY = iid_text r ->
  key q' RECOVERY_STORAGE_BREAKPOINT_KEY = iid_text (iid_of lm) ->
  progress env' (Some (iid_of lm)) r q' /\
  (remaining (storage q) (Some (iid_of lm)) + length vs <= remaining (storage q) b)%nat.
Proof using Type*.
  intros Hlm Hlast (Est & _ & Hkeep & _) Hin Hkr Hkb. pose proof Hbatch as [Hnd Hvs _ _].
  destruct (Hvs lm Hlm) as (Hst & Ha & _). split; cycle 1.
  { apply remaining_batch; [apply Hq|done| |done]. intros m Hm. destruct (Hvs m Hm) as (? & ? & _).
    by split_and!; [..|apply Hlast]. }
  pose proof Hprog as (_ & Hr & _ & _ & Hmax & _).
  split; [done|]. split; [done|]. split; [done|]. split.
  { exact (source_iid _ _ _ _ (proj1 Hq) Hok Hst). }
  rewrite Est. split; intros qn i m Hl.
  { eapply Hmax. split; [apply Hl|apply Hnow, Hl]. }
  intros Hle. destruct (round_cases _ _ _ Hl) as [?|Hm]; [by apply Hkeep|].
  eapply batch_in_cache; [exact Hin|apply Hl|]. destruct Hm as [?|[_ Hm]]; [done|].
  replace m with lm; [done|].
  eapply source_inj; [apply Hq|exact Hok|exact Hst|apply Hl|by apply Hm|exact Hle].
Qed.
End Round.

Lemma last_map {X Y} (f : X -> Y) (l : list X) :
  List.last (map Some (map f l)) None = option_map f (List.last (map Some l) None).
Proof using Type. induction l as [|x [|y l] IH]; [done|done|]. exact IH. Qed.

Lemma bp_text_ok b : bp_valid b -> bp_text b <> RECOVERY_FINISHED.
Proof using Type. destruct b as [r|]; [|done]. apply iid_text_ok. Qed.

(** A call of the task while the recovery runs is a round from the
    breakpoint. *)
Lemma RecoveryMessagesPool_running env b q :
  cache_inv (cache q) -> key q RECOVERY_STORAGE_BREAKPOINT_KEY = bp_text b -> bp_valid b ->
  (bp_text b = "" -> key q RECOVERY_RUNNING = "true") ->
  RecoveryMessagesPool env q = recovery_round env (bp_text b) q.
Proof using HRC.
  intros Hc Hk Hb Hrun. unfold RecoveryMessagesPool. erewrite bind_eq by by apply get_key_run.
  rewrite Hk. cbv iota beta. rewrite (proj2 (String.eqb_neq _ _) (bp_text_ok b Hb)).
  erewrite bind_eq by by apply isRecovering_run. cbv iota beta.
  destruct (String.eqb_spec (bp_text b) ""); [|done]. by rewrite Hrun.
Qed.

(** The query of a round. *)
Lemma recovery_round_query env b r q :
  queue_inv q -> source_ok (storage q) ->
  key q RECOVERY_BREAKPOINT_KEY = iid_text r -> iid_ok r -> bp_valid b ->
  exists vs, batch (stored (storage q)) (shown S env) b r vs /\
    recovery_round env (bp_text b) q =
      match List.last (map Some (view (S := S) recovery_projection <$> vs)) None with
      | None => recovery_finish env (length vs) q
      | Some lastMessage =>
          (a ← AddMessagesToCacheWithAuditReason env "recovery" (added_messages vs);
           match a with
           | (_, Some _) => mret true
           | (_, None) =>
               key ← ask_storage (fun s => storage_GetStringInternalId s lastMessage);
               _ ← set_key env RECOVERY_STORAGE_BREAKPOINT_KEY key;
               recovery_finish env (length vs)
           end) q
      end.
Proof using HRC HRS.
  intros Hq Hok Hkr Hr Hb. destruct (source_round env b r (storage q)) as (vs & Hfind & Hbatch);
    [apply Hq|done..|].
  exists vs. split; [done|]. unfold recovery_round. erewrite bind_eq by (apply get_key_run, Hq).
  rewrite Hkr. cbv iota beta.
  erewrite bind_eq by (unfold ask_storage; rewrite Hfind; reflexivity). cbv iota beta.
  rewrite length_fmap. by destruct (List.last _ _).
Qed.

(** The text of the last message of a batch. *)
Lemma last_text env b r q q1 vs lm :
  queue_inv q -> source_ok (storage q) -> batch (stored (storage q)) (shown S env) b r vs -> lm ∈ vs ->
  storage q1 = storage q ->
  ask_storage (fun s => storage_GetStringInternalId s (view (S := S) recovery_projection lm)) q1
    = Ret (q1, iid_text (iid_of lm)).
Proof using HRS.
  intros Hq Hok Hbatch Hlm Est. unfold ask_storage. rewrite Est.
  destruct (batch_stored _ _ _ _ _ Hbatch lm Hlm) as (Hst & _).
  by rewrite (source_text _ _ _ _ _ (proj1 Hq) Hok Hst (or_introl eq_refl)).
Qed.

(** One round either reaches the end or moves the breakpoint past a batch. *)
Lemma recovery_round_run env env' b r q :
  queue_inv q -> source_ok (storage q) -> insertable (storage q) ->
  no_earlier env env' -> progress env b r q ->
  exists q', recovery_round env' (bp_text b) q = Ret (q', true) /\ grown q q' /\
    (finished q' /\ complete env' q' \/
     exists r', progress env' (Some r') r q' /\
       Z.of_nat (remaining (storage q) (Some r')) + recovery_batch <= Z.of_nat (remaining (storage q) b)).
Proof using HRC HRS.
  intros Hq Hok Hins Hnow Hprog. pose proof Hprog as (Hkr & Hr & _ & Hb & _).
  destruct (recovery_round_query env' b r q) as (vs & Hbatch & ->); [done..|].
  destruct (decide (vs = [])) as [->|Hne].
  { cbn [fmap list_fmap map List.last]. destruct (recovery_finish_run env' 0 q (proj2 Hq)) as (q' & Hq' & Hg & Hw & Hf).
    exists q'. split; [done|]. split; [done|]. left. split; [done|].
    eapply (round_complete env env' b r q []); try done. set_solver. }
  destruct (last_sorted vs (batch_sorted _ _ _ _ _ Hbatch) Hne) as (lm & Elm & Hlm & Hlast).
  change (?f <$> vs) with (map f vs). rewrite last_map, Elm. cbn [option_map].
  destruct (batch_added env' vs q Hq Hins) as (q1 & n1 & Hadd & Hg1 & Hk1 & Hin);
    [intros m Hm; by apply (batch_stored _ _ _ _ _ Hbatch)|].
  erewrite bind_eq by exact Hadd. cbv iota beta. pose proof Hg1 as (Est1 & Hc1 & _).
  erewrite bind_eq by (eapply last_text; [exact Hq|exact Hok|exact Hbatch|exact Hlm|exact Est1]).
  destruct (set_key_run env' RECOVERY_STORAGE_BREAKPOINT_KEY (iid_text (iid_of lm)) q1 Hc1) as (q2 & E2 & H2).
  erewrite bind_eq by exact E2. pose proof H2 as (Est2 & Hc2 & Hw2 & Hk2).
  destruct (recovery_finish_run env' (length vs) q2 Hc2) as (q' & Hq' & Hg & Hw & Hf).
  exists q'. split; [done|].
  assert (Hg2 : grown q q2) by (eapply grown_trans; [exact Hg1|by eapply key_changed_grown]).
  assert (Hg' : grown q q') by by eapply grown_trans.
  assert (Hin' : forall m, m ∈ vs -> where_is (cache q') (Message.Queue m) (ID m) <> None)
    by (intros m Hm; rewrite Hw, Hw2; by apply Hin).
  split; [done|]. destruct (Z.of_nat (length vs) <? recovery_batch) eqn:Elen; [left|right].
  - split; [done|]. eapply (round_complete env env' b r q vs); try done. lia.
  - subst q'. exists (iid_of lm).
    destruct (round_progress env env' b r q vs Hq Hok Hnow Hprog Hbatch lm q2) as (? & Hrem); try done.
    + by rewrite Hk2, decide_False, Hk1 by done.
    + split; [done|]. lia.
Qed.

(** ** The whole recovery *)

(** The task runs once for each environment. *)
Fixpoint run_recovery (envs : list Env) (q : Q) : outcome Q :=
  match envs with
  | [] => Ret q
  | env :: envs' => obind (RecoveryMessagesPool env q) (fun x => run_recovery envs' x.1)
  end.

Definition recovered (envs : list Env) (env : Env) (q q' : Q) : Prop :=
  run_recovery envs q = Ret q' /\ grown q q' /\ finished q' /\ complete (List.last envs env) q'.

Definition clock_ok : list Env -> Prop := StronglySorted no_earlier.

(** Once finished, the task does nothing. *)
Lemma recovery_stays envs : forall env q,
  cache_inv (cache q) -> clock_ok (env :: envs) -> finished q -> complete env q -> recovered envs env q q.
Proof using HRC.
  induction envs as [|e envs IH]; intros env q Hci Hs Hf Hc.
  { split; [done|]. by split; [apply grown_refl|]. }
  apply StronglySorted_inv in Hs as [Hs He]. apply Forall_cons in He as [He _].
  unfold recovered. cbn [run_recovery]. unfold RecoveryMessagesPool.
  erewrite bind_eq by by apply get_key_run. rewrite (proj1 Hf). cbn [obind].
  destruct (IH e q Hci Hs Hf) as (Hr & ? & ? & Hl); [by eapply complete_no_earlier|].
  split; [exact Hr|]. split; [done|]. split; [done|]. by rewrite last_cons.
Qed.

Lemma recovered_later e envs env q q' : recovered envs e q q' -> forall q0 x,
  RecoveryMessagesPool e q0 = Ret (q, x) -> grown q0 q -> recovered (e :: envs) env q0 q'.
Proof using Type.
  intros (Hr & Hg & Hf & Hc) q0 x Hq0 Hg0. split; [cbn; by rewrite Hq0|].
  split; [by eapply grown_trans|]. split; [done|]. by rewrite last_cons.
Qed.

Lemma grown_queue_inv q q' : queue_inv q -> grown q q' -> queue_inv q'.
Proof using Type. intros [Hs _] (Est & Hc & _). split; [by rewrite Est|done]. Qed.

(** A recovery in progress ends within the rounds its messages need. *)
Lemma recovery_resumes envs : forall env r r0 q,
  queue_inv q -> source_ok (storage q) -> insertable (storage q) -> clock_ok (env :: envs) ->
  progress env (Some r0) r q ->
  Z.of_nat (remaining (storage q) (Some r0)) < recovery_batch * Z.of_nat (length envs) ->
  exists q', recovered envs env q q'.
Proof using HRC HRS.
  induction envs as [|e envs IH]; intros env r r0 q Hq Hok Hins Hs Hp Hn; [cbn in Hn; lia|].
  apply StronglySorted_inv in Hs as [Hs He]. apply Forall_cons in He as [He _].
  destruct (recovery_round_run env e (Some r0) r q) as (q1 & Hrun & Hg & Hcase); [done..|].
  pose proof Hp as (_ & _ & Hk & Hb & _).
  rewrite <- (RecoveryMessagesPool_running e (Some r0)) in Hrun;
    [|apply Hq|done|done|intros E; by apply iid_text_ok in Hb as []].
  pose proof Hg as (Est & Hci & _). destruct Hcase as [[Hf Hc]|(r' & Hp' & Hrem)].
  { exists q1. eapply recovered_later; [by apply recovery_stays|exact Hrun|exact Hg]. }
  destruct (IH e r r' q1) as [q' Hq']; rewrite ?Est; try done.
  - by eapply grown_queue_inv.
  - rewrite length_cons in Hn. lia.
  - exists q'. by eapply recovered_later.
Qed.

(** The start of a recovery looks for the last message. *)
Lemma tryToStartRecovery_run env q :
  queue_inv q -> source_ok (storage q) ->
  exists q1 started, tryToStartRecovery env q = Ret (q1, started) /\ grown q q1 /\
    if started : bool then
      key q1 RECOVERY_STORAGE_BREAKPOINT_KEY = key q RECOVERY_STORAGE_BREAKPOINT_KEY /\
      key q1 RECOVERY_RUNNING = "true" /\
      exists r, key q1 RECOVERY_BREAKPOINT_KEY = iid_text r /\ iid_ok r /\
        forall qn i m, live env (storage q1) qn i m -> upto r m
    else finished q1 /\ complete env q1 /\ forall qn i m, ~ live env (storage q1) qn i m.
Proof using HRC HRS.
  intros [Hs Hc] Hok. unfold tryToStartRecovery.
  destruct (set_key_run env RECOVERY_RUNNING "true" q Hc) as (q1 & E1 & H1).
  pose proof H1 as (Est1 & Hc1 & _ & Hk1). pose proof (key_changed_grown _ _ _ _ H1) as Hg1.
  erewrite bind_eq by exact E1. cbv iota beta. fold last_options.
  destruct (source_last env (storage q) Hs Hok) as (vs & Hfind & Hvs).
  erewrite bind_eq by (unfold ask_storage; rewrite Est1, Hfind; reflexivity).
  destruct vs as [|lm vs]; cbn [fmap list_fmap].
  - destruct (set_key_run env RECOVERY_STORAGE_BREAKPOINT_KEY RECOVERY_FINISHED q1 Hc1) as (q2 & E2 & H2).
    pose proof H2 as (Est2 & Hc2 & _ & Hk2).
    destruct (set_key_run env RECOVERY_RUNNING "false" q2 Hc2) as (q3 & E3 & H3).
    pose proof H3 as (Est3 & _ & _ & Hk3).
    erewrite bind_eq by exact E2. erewrite bind_eq by exact E3. exists q3, false. split; [done|].
    assert (Hnone : forall qn i m, ~ live env (storage q3) qn i m).
    { intros qn i m [Hst Hex]. rewrite Est3, Est2, Est1 in Hst. by apply Hvs in Hst. }
    split; [eapply grown_trans; [exact Hg1|]; eapply grown_trans; by eapply key_changed_grown|].
    split; [|split; [intros qn i m Hl; by apply Hnone in Hl|done]].
    split; rewrite Hk3; [|by rewrite decide_True]. rewrite decide_False by done. by rewrite Hk2, decide_True.
  - destruct Hvs as [Hst Hmax].
    erewrite bind_eq by (unfold ask_storage; rewrite Est1,
      (source_text _ _ _ _ _ Hs Hok Hst (or_intror eq_refl)); reflexivity).
    destruct (set_key_run env RECOVERY_BREAKPOINT_KEY (iid_text (iid_of lm)) q1 Hc1) as (q2 & E2 & H2).
    pose proof H2 as (Est2 & _ & _ & Hk2). erewrite bind_eq by exact E2. exists q2, true. split; [done|].
    split; [eapply grown_trans; [exact Hg1|by eapply key_changed_grown]|].
    split; [by rewrite Hk2, decide_False, Hk1, decide_False by done|].
    split; [by rewrite Hk2, decide_False, Hk1, decide_True by done|].
    exists (iid_of lm). split; [by rewrite Hk2, decide_True|].
    split; [by eapply source_iid|]. intros qn i m [Hm Hex]. rewrite Est2, Est1 in Hm. by eapply Hmax.
Qed.

(** The first call starts the recovery, and runs a round if a message can be
    handed out. *)
Lemma RecoveryMessagesPool_first env q :
  queue_inv q -> source_ok (storage q) ->
  key q RECOVERY_STORAGE_BREAKPOINT_KEY = "" -> key q RECOVERY_RUNNING <> "true" ->
  exists q1, grown q q1 /\
    (RecoveryMessagesPool env q = Ret (q1, true) /\ finished q1 /\ complete env q1 /\
       (forall qn i m, ~ live env (storage q1) qn i m) \/
     RecoveryMessagesPool env q = recovery_round env "" q1 /\ key q1 RECOVERY_RUNNING = "true" /\
       exists r, progress env None r q1).
Proof using HRC HRS.
  intros Hq Hok Hkb Hrun. unfold RecoveryMessagesPool. erewrite bind_eq by (apply get_key_run, Hq).
  rewrite Hkb. cbv iota beta. cbn [String.eqb RECOVERY_FINISHED].
  erewrite bind_eq by (apply isRecovering_run, Hq). cbv iota beta.
  rewrite (proj2 (String.eqb_neq _ _) Hrun). cbn [String.eqb negb andb].
  destruct (tryToStartRecovery_run env q Hq Hok) as (q1 & started & Hstart & Hg1 & Hcase).
  exists q1. split; [done|]. erewrite bind_eq by exact Hstart. destruct started; cbn [negb]; [right|by left].
  destruct Hcase as (Hkb1 & Hr1 & r & Hkr & Hr & Hmax). split; [done|]. split; [done|]. exists r.
  split_and!; try done. by rewrite Hkb1.
Qed.

(** The recovery refills the cache and ends, over any storage and cache that
    keep the laws. *)
Lemma recovery_reaches envs q :
  queue_inv q -> source_ok (storage q) -> insertable (storage q) -> backed q ->
  key q RECOVERY_STORAGE_BREAKPOINT_KEY = "" /\ key q RECOVERY_RUNNING <> "true" -> clock_ok envs ->
  Z.of_nat (length (stored_list (storage q))) < recovery_batch * Z.of_nat (length envs) ->
  exists q', run_recovery envs q = Ret q' /\ storage q' = storage q /\ finished q' /\
    agree (List.last envs (at_time 0)) q'.
Proof using HRC HRS.
  intros Hq Hok Hins Hbacked [Hkb Hrun] Hclock Hn.
  destruct envs as [|env envs]; [unfold recovery_batch in Hn; cbn in Hn; lia|].
  assert (Hrec : exists q', recovered (env :: envs) (at_time 0) q q').
  { destruct (RecoveryMessagesPool_first env q) as (q1 & Hg1 & Hcase); [done..|].
    pose proof Hg1 as (Est & Hci & _). destruct Hcase as [(Hq1 & Hf & Hc & _)|(Hq1 & _ & r & Hp)].
    { exists q1. eapply recovered_later; [by apply recovery_stays|exact Hq1|done]. }
    destruct (recovery_round_run env env None r q1) as (q2 & Hq2 & Hg2 & Hcase); rewrite ?Est; try done.
    { by eapply grown_queue_inv. }
    { by intros m. }
    cbn [bp_text] in Hq2. rewrite Hq2 in Hq1. assert (Hg : grown q q2) by by eapply grown_trans.
    destruct Hcase as [[Hf Hc]|(r' & Hp' & Hrem)].
    { exists q2. eapply recovered_later; [by apply recovery_stays; [apply Hg|..]|exact Hq1|done]. }
    pose proof Hg as (Est2 & _).
    destruct (recovery_resumes envs env r r' q2) as (q3 & Hq3); rewrite ?Est2; try done.
    - by eapply grown_queue_inv.
    - pose proof (remaining_all (storage q) None). rewrite Est in Hrem. rewrite length_cons in Hn. lia.
    - exists q3. by eapply recovered_later. }
  destruct Hrec as (q' & Hr & Hg & Hf & Hc). pose proof Hg as (Est & Hci & _ & Hb).
  exists q'. split; [done|]. split; [done|]. split; [done|]. split; [by eapply grown_queue_inv|].
  by split; [|apply Hb].
Qed.

(** ** A message the cache refuses *)

(** The cache takes no message of the queue. *)
Definition refuses (qn : string) : Prop := forall env ms (c : C), cache_inv c ->
  exists c' ids err, cache_Insert env qn ms c = (c', (ids, Some err)).

(** An addition returns, whatever its messages; with one that is refused it
    reports an error. *)
Lemma add_members_total env reason l : forall n q, cache_inv (cache q) ->
  exists q' n' err, add_members env reason l n q = Ret (q', (n', err)) /\
    storage q' = storage q /\ cache_inv (cache q') /\
    (forall qn els, (qn, els) ∈ l -> refuses qn -> err <> None).
Proof using HRC.
  induction l as [|[qn els] l IH]; intros n q Hc; cbn [add_members].
  { do 3 eexists. split_and!; try done. intros qn els Hin. by apply elem_of_nil in Hin. }
  destruct (cache_Insert env qn els (cache q)) as [c1 [ids [err|]]] eqn:E;
    pose proof E as (Hc1 & _)%spec_Insert; try done;
    (erewrite bind_eq by (unfold on_cache; rewrite E; reflexivity)); cbv iota beta.
  { do 3 eexists. by split_and!. }
  destruct (for_each_returns env (fun i => entry i qn INSERT_CACHE reason) ids
    {| storage := storage q; cache := c1; auditor := auditor q; metrics := metrics q |})
    as (q1 & Hq1 & Hst1 & Hcq1).
  erewrite bind_eq by exact Hq1.
  destruct (IH (n + Z.of_nat (length ids)) q1) as (q' & n' & err & Hq' & Hst & Hc' & Href); [by rewrite Hcq1|].
  exists q', n', err. split; [done|]. split; [by rewrite Hst|]. split; [done|].
  intros qn' els' [[= -> ->]|Hin]%elem_of_cons Hr; [|by eapply Href].
  destruct (Hr env els (cache q) Hc) as (c2 & ids2 & e & E2). congruence.
Qed.

Section Stuck.
Context (s : S) (qn i : string) (m : Message).
Hypothesis Hs : storage_inv s.
Hypothesis Hok : source_ok s.
Hypothesis Hm : stored s qn i = Some m.
Hypothesis Hrefused : refuses qn.

(** A recovery that runs, and has not reached the message. *)
Record stuck b r q : Prop := {
  stuck_storage : storage q = s;
  stuck_cache : cache_inv (cache q);
  stuck_running : key q RECOVERY_RUNNING = "true";
  stuck_last : key q RECOVERY_BREAKPOINT_KEY = iid_text r;
  stuck_last_ok : iid_ok r /\ upto r m;
  stuck_breakpoint : key q RECOVERY_STORAGE_BREAKPOINT_KEY = bp_text b;
  stuck_before : bp_valid b /\ after_b b m = true
}.

(** An addition leaves the recovery as it is, and fails when the message is
    among those added. *)
Lemma stuck_addition env b r vs q : stuck b r q ->
  exists q' n err, AddMessagesToCacheWithAuditReason env "recovery" (added_messages vs) q
      = Ret (q', (n, err)) /\
    stuck b r q' /\ (m ∈ vs -> err <> None).
Proof using HRC Hs Hm Hrefused.
  intros Hq. destruct (spec_stored_key _ _ _ _ Hs Hm) as (Eqn & Ei & _). unfold AddMessagesToCacheWithAuditReason.
  destruct (add_members_total env "recovery" (map_range (env_order env) (membersByQueue (added_messages vs))) 0 q)
    as (q' & n & err & Hrun & Hst & Hc & Href); [apply Hq|].
  exists q', n, err. split; [done|]. split.
  - assert (Hk : forall k, key q' k = key q k) by (intros k; eapply add_members_keys; [apply Hq|exact Hrun]).
    destruct Hq. split; rewrite ?Hk; [congruence|done..].
  - intros Hin. assert (Ha : added (map_range (env_order env) (membersByQueue (added_messages vs))) qn i).
    { apply added_members. rewrite added_messages_keys, <- Eqn, <- Ei. by apply (list_elem_of_fmap_2 msg_key). }
    destruct Ha as (els & Hels & _). by eapply Href.
Qed.

(** A round keeps it so. *)
Lemma stuck_round env b r q : shown S env m -> stuck b r q ->
  exists q' b', recovery_round env (bp_text b) q = Ret (q', true) /\ stuck b' r q'.
Proof using HRC HRS Hs Hok Hm Hrefused.
  intros Hshown Hq. pose proof Hq as [Est Hc _ Hkr [Hr Hur] _ [Hb Ha]].
  destruct (recovery_round_query env b r q) as (vs & Hbatch & ->); try done.
  { split; [by rewrite Est|done]. }
  { by rewrite Est. }
  assert (Hin : m ∈ vs \/ (m ∉ vs) /\ Z.of_nat (length vs) = recovery_batch /\ forall m', m' ∈ vs -> iid_le m' m).
  { destruct (decide (m ∈ vs)); [by left|right]. split; [done|].
    eapply (batch_rest _ _ _ _ _ Hbatch); [rewrite Est; exact Hm|done..]. }
  assert (Hne : vs <> []) by (intros ->; destruct Hin as [Hin|(_ & Hlen & _)]; [by apply elem_of_nil in Hin|done]).
  destruct (last_sorted vs (batch_sorted _ _ _ _ _ Hbatch) Hne) as (lm & Elm & Hlm & _).
  change (?f <$> vs) with (map f vs). rewrite last_map, Elm. cbn [option_map].
  destruct (stuck_addition env b r vs q Hq) as (q1 & n & err & Hadd & Hq1 & Herr).
  erewrite bind_eq by exact Hadd. destruct err as [err|]; cbv iota beta; [by exists q1, b|].
  destruct Hin as [Hin|(Hnin & Hlen & Hle)]; [by destruct (Herr Hin)|].
  pose proof Hq1 as [Est1 Hc1 Hrun1 Hkr1 _ _ _].
  assert (Hqi : queue_inv q /\ source_ok (storage q)) by (rewrite Est; by split; [split; [rewrite Est|]|]).
  erewrite bind_eq by (eapply last_text; [apply Hqi|apply Hqi|exact Hbatch|exact Hlm|congruence]).
  destruct (set_key_run env RECOVERY_STORAGE_BREAKPOINT_KEY (iid_text (iid_of lm)) q1 Hc1) as (q2 & E2 & H2).
  erewrite bind_eq by exact E2. pose proof H2 as (Est2 & Hc2 & _ & Hk2).
  exists q2, (Some (iid_of lm)). split.
  - unfold recovery_finish. by rewrite Hlen.
  - destruct (batch_stored _ _ _ _ _ Hbatch lm Hlm) as (Hst & _). rewrite Est in Hst.
    split; [congruence|done|by rewrite Hk2, decide_False by done|by rewrite Hk2, decide_False by done|done|
      by rewrite Hk2, decide_True|]. split; [by eapply source_iid|].
    destruct (after_b (Some (iid_of lm)) m) eqn:E; [done|]. destruct Hnin.
    replace m with lm; [done|]. by eapply source_inj; [..|exact Hst|exact Hm|apply Hle|exact E].
Qed.

Lemma stuck_first env q : storage q = s -> cache_inv (cache q) -> shown S env m ->
  key q RECOVERY_STORAGE_BREAKPOINT_KEY = "" -> key q RECOVERY_RUNNING <> "true" ->
  exists q' b r, RecoveryMessagesPool env q = Ret (q', true) /\ stuck b r q'.
Proof using HRC HRS Hs Hok Hm Hrefused.
  intros Est Hc Hshown Hkb Hrun.
  destruct (RecoveryMessagesPool_first env q) as (q1 & (Est1 & Hc1 & _) & Hcase);
    [split; [by rewrite Est|done]|by rewrite Est|done..|].
  assert (Hl : live env (storage q1) qn i m) by (rewrite Est1, Est; by split).
  destruct Hcase as [(_ & _ & _ & Hnone)|(Hq1 & Hrun1 & r & Hp)]; [by apply Hnone in Hl|].
  destruct Hp as (Hkr & Hr & Hk & Hb & Hmax & _).
  destruct (stuck_round env None r q1 Hshown) as (q' & b & Hq' & Hst).
  { split; try done; [congruence|]. split; [done|by eapply Hmax]. }
  exists q', b, r. split; [by rewrite Hq1|done].
Qed.

Lemma stuck_runs envs : Forall (fun env => shown S env m) envs -> forall b r q, stuck b r q ->
  exists q' b', run_recovery envs q = Ret q' /\ stuck b' r q'.
Proof using HRC HRS Hs Hok Hm Hrefused.
  induction 1 as [|env envs Hshown _ IH]; intros b r q Hq; [by exists q, b|].
  destruct (stuck_round env b r q Hshown Hq) as (q1 & b1 & Hq1 & Hst1).
  destruct (IH b1 r q1 Hst1) as (q' & b' & Hq' & Hst'). exists q', b'. split; [|done].
  cbn [run_recovery]. destruct Hq. rewrite (RecoveryMessagesPool_running env b); try tauto. by rewrite Hq1.
Qed.

(** With a stored message that the cache refuses, the recovery never ends. *)
Lemma recovery_stuck envs q : storage q = s -> cache_inv (cache q) ->
  Forall (fun env => shown S env m) envs -> envs <> [] ->
  key q RECOVERY_STORAGE_BREAKPOINT_KEY = "" -> key q RECOVERY_RUNNING <> "true" ->
  exists q' b r, run_recovery envs q = Ret q' /\ stuck b r q'.
Proof using HRC HRS Hs Hok Hm Hrefused.
  intros Est Hc Hsh Hne Hkb Hrun. destruct Hsh as [|env envs Hshown Hsh]; [done|].
  destruct (stuck_first env q) as (q1 & b & r & Hq1 & Hst1); [done..|].
  destruct (stuck_runs envs Hsh b r q1 Hst1) as (q' & b' & Hq' & Hst'). exists q', b', r.
  split; [|done]. cbn [run_recovery]. by rewrite Hq1.
Qed.

(** While it runs the housekeeper removes no message. *)
Lemma stuck_no_removal b r q : stuck b r q ->
  (forall env ongoing date, RemoveTTLMessages env ongoing date q = Ret (q, (false, None))) /\
  (forall env ongoing, RemoveExceedingMessages env ongoing q = Ret (q, (false, None))).
Proof using HRC.
  intros Hq. split; intros env ongoing; [intros date; unfold RemoveTTLMessages|unfold RemoveExceedingMessages];
    (erewrite bind_eq by (apply isRecovering_run, Hq)); by rewrite (stuck_running _ _ _ Hq).
Qed.
End Stuck.
End Recovery.
