(* ===== verification/RecoveryOverlap.v ===== *)
(** * A round of the recovery and the requests

    A round of the recovery ([queue_housekeeper.go]) reads a batch from the
    storage and then adds it to the cache; nothing keeps the requests out
    between the two.  [recovery_round_split] cuts the round there, and
    [recovery_overtaken] says what the requests that come between can do. *)

From S2P Require Import Prelude Float64 Dtime Utils Message Cache MemoryCache MemoryCacheFacts Fixtures.
From S2P Require Import Storage MemoryStorage MemoryStorageFacts AuditTrail Queue QueueFacts QueueProps QueueHistory.
From S2P Require Import Housekeeper Recovery.
#[local] Open Scope string_scope.
#[local] Open Scope list_scope.
#[local] Open Scope Z_scope.

Section Overlap.
Context {S C A : Type} `{HSS : StorageSpec S} `{HCS : CacheSpec C} `{HA : Auditor A}.
Abbreviation Q := (Queue S C A).
Implicit Types q : Q.

(** The first part of a round: the batch, unless the query fails. *)
Definition recovery_read (env : Env) (breakpoint : string) : Comp Q (option (list Message)) :=
  r ← get_key env RECOVERY_BREAKPOINT_KEY;
  match r with
  | (_, Some _) => mret None
  | (recoveryBreakpoint, None) =>
      r ← ask_storage (storage_Find env (Some (recovery_options breakpoint recoveryBreakpoint)));
      match r with
      | (_, Some _) => mret None
      | (messages, None) => mret (Some messages)
      end
  end.

(** The addition of a batch to the cache. *)
Definition recovery_add (env : Env) (messages : list Message) : Comp Q (result Z) :=
  AddMessagesToCacheWithAuditReason env "recovery" (map clamp_score messages).

(** What follows the addition: the breakpoint moves to the last message. *)
Definition recovery_advance (env : Env) (messages : list Message) (lastMessage : Message) : Comp Q bool :=
  key ← ask_storage (fun s => storage_GetStringInternalId s lastMessage);
  _ ← set_key env RECOVERY_STORAGE_BREAKPOINT_KEY key;
  recovery_finish env (length messages).

Lemma recovery_round_split env breakpoint q :
  recovery_round env breakpoint q =
  (found ← recovery_read env breakpoint;
   match found with
   | None => mret true
   | Some messages =>
       match List.last (map Some messages) None with
       | None => recovery_finish env (length messages)
       | Some lastMessage =>
           r ← recovery_add env messages;
           match r with
           | (_, Some _) => mret true
           | (_, None) => recovery_advance env messages lastMessage
           end
       end
   end) q.
Proof using Type.
  unfold recovery_round, recovery_read, mbind, Comp_bind.
  destruct (get_key env RECOVERY_BREAKPOINT_KEY q) as [[q1 [rb [e|]]]|]; cbn; [done| |done].
  destruct (ask_storage _ q1) as [[q2 [ms [e|]]]|]; cbn; done.
Qed.

End Overlap.

(** ** A message that comes back *)

#[local] Existing Instance plain_glob.




