(* ===== verification/HousekeeperProps.v ===== *)
(** * Properties of the housekeeper

    The removal of the expired messages and of the messages above the limit of
    a queue, from the contracts of the storage and of the cache. *)

From S2P Require Import Prelude Float64 Dtime Utils Score Message Cache MemoryCache.
From S2P Require Import MemoryCacheFacts Fixtures Storage MemoryStorage MemoryStorageFacts.
From S2P Require Import AuditTrail Metrics Queue QueueFacts QueueProps QueueHistory Housekeeper.
#[local] Open Scope string_scope.
#[local] Open Scope list_scope.
#[local] Open Scope Z_scope.

(** ** Ids by queue *)

Lemma messageMap_members ms qn : messageMap ms !! qn = map ID <$> membersByQueue ms !! qn.
Proof.
  unfold messageMap, membersByQueue.
  assert (H : forall (M : gmap string (list string)) (M' : gmap string (list Message)),
    (forall q, M !! q = map ID <$> M' !! q) ->
    foldl (fun members m =>
      <[Message.Queue m := default [] (members !! Message.Queue m) ++ [ID m]]> members) M ms !! qn =
    map ID <$> foldl (fun members m =>
      <[Message.Queue m := default [] (members !! Message.Queue m) ++ [m]]> members) M' ms !! qn).
  { induction ms as [|m ms IH]; intros M M' HM; simpl; [apply HM|]. apply IH. intros q.
    destruct (decide (q = Message.Queue m)) as [->|Hne].
    - rewrite !lookup_insert_eq, HM. simpl. f_equal.
      destruct (M' !! Message.Queue m); simpl; [by rewrite map_app|done].
    - by rewrite !lookup_insert_ne. }
  apply H. intros q. by rewrite !lookup_empty.
Qed.

Lemma messageMap_ids env ms qn i :
  (exists ids, (qn, ids) ∈ map_range (env_order env) (messageMap ms) /\ i ∈ ids) <->
  (qn, i) ∈ msg_key <$> ms.
Proof.
  rewrite <- (added_members env). unfold added. split.
  - intros (ids & Hids & Hi). apply elem_of_map_range in Hids. rewrite messageMap_members in Hids.
    destruct (membersByQueue ms !! qn) as [els|] eqn:E; simpl in Hids; [|done].
    injection Hids as <-. exists els. split; [by apply elem_of_map_range|done].
  - intros (els & Hels & Hi). apply elem_of_map_range in Hels. exists (map ID els).
    split; [|done]. apply elem_of_map_range. by rewrite messageMap_members, Hels.
Qed.

Section Housekeeper.
Context {S C A : Type} `{HSS : StorageSpec S} `{HCS : CacheSpec C} `{HA : Auditor A}.
Abbreviation Q := (Queue S C A).

(** Exactly the messages of [gone] leave the storage and the cache. *)
Definition forgotten (q q' : Q) (gone : string -> string -> Prop) : Prop :=
  forall qn i,
    (gone qn i -> stored (storage q') qn i = None /\ where_is (cache q') qn i = None) /\
    (~ gone qn i -> stored (storage q') qn i = stored (storage q) qn i /\
       where_is (cache q') qn i = where_is (cache q) qn i).

Lemma Remove_forgets env qn reason ids (q q' : Q) r :
  queue_inv q -> Remove env qn reason ids q = Ret (q', (r, None)) ->
  queue_inv q' /\ forgotten q q' (fun q0 i => q0 = qn /\ i ∈ ids).
Proof using HSS HCS.
  intros [HSi HCi] Hrun. destruct r as [cn sn]. apply Remove_run in Hrun as [Hs Hc].
  apply spec_storage_Remove in Hs as (Hs' & _ & Hst & _); [|done].
  apply spec_Remove in Hc as (Hc' & _ & gone & Hsub & Hall & Hm); [|done]. specialize (Hall eq_refl).
  split; [by split|]. intros q0 i. rewrite Hst, Hm. split; intros Hg.
  - rewrite !decide_True by (set_solver). done.
  - rewrite !decide_False by (set_solver). done.
Qed.

Lemma forgotten_trans (q q1 q2 : Q) (g1 g2 : string -> string -> Prop) :
  (forall qn i, Decision (g1 qn i)) -> (forall qn i, Decision (g2 qn i)) ->
  forgotten q q1 g1 -> forgotten q1 q2 g2 -> forgotten q q2 (fun qn i => g1 qn i \/ g2 qn i).
Proof.
  intros D1 D2 Hf1 Hf2 qn i. destruct (Hf1 qn i) as [A1 B1], (Hf2 qn i) as [A2 B2].
  destruct (D1 qn i) as [G1|G1], (D2 qn i) as [G2|G2]; split; intros Hg; try tauto.
  - destruct (A1 G1), (B2 G2). split; congruence.
  - destruct (B1 G1), (B2 G2). split; congruence.
Qed.

Lemma same_data_forgotten (q q1 q2 : Q) g :
  same_data q1 q2 -> forgotten q q1 g -> forgotten q q2 g.
Proof. intros [E1 E2] Hf qn i. rewrite E1, E2. apply Hf. Qed.

Lemma forgotten_ext (q q' : Q) (g g' : string -> string -> Prop) :
  (forall qn i, g qn i <-> g' qn i) -> forgotten q q' g -> forgotten q q' g'.
Proof. intros E Hf qn i. destruct (Hf qn i) as [A1 B1]. rewrite <- E. tauto. Qed.

Lemma ttl_loop_forgets env l : forall n (q q' : Q),
  queue_inv q -> ttl_loop env (fun _ => false) n l q = Ret (q', None) ->
  queue_inv q' /\ forgotten q q' (fun qn i => exists ids, (qn, ids) ∈ l /\ i ∈ ids).
Proof using HSS HCS.
  induction l as [|[qn ids] l IH]; intros n q q' Hq Hrun; simpl in Hrun.
  { comp_step Hrun. split; [done|]. intros qn i. split; [intros (ids & Hx & _); set_solver|done]. }
  comp_step Hrun. destruct r as [[cn sn] [e|]]; comp_step Hrun.
  apply Remove_forgets in Hs as [Hq0 Hf]; [|done].
  assert (Hsame : same_data q0 q2) by (split; congruence).
  assert (Hq2 : queue_inv q2).
  { destruct Hq0, Hsame as [E1 E2]. split; [by rewrite E1|by rewrite E2]. }
  apply IH in Hrun as [Hq' Hf']; [|done]. split; [done|].
  pose proof (same_data_forgotten _ _ _ _ Hsame Hf) as Hf2.
  assert (D2 : forall q3 i, Decision (exists ids, (q3, ids) ∈ l /\ i ∈ ids)).
  { intros q3 i. destruct (decide (Exists (fun x : string * list string => x.1 = q3 /\ i ∈ x.2) l)) as [Hex|Hex].
    - left. apply Exists_exists in Hex as ([q4 ids4] & Hin & <- & Hi). by exists ids4.
    - right. intros (ids4 & Hin & Hi). apply Hex, Exists_exists. by exists (q3, ids4). }
  eapply forgotten_ext; [|eapply forgotten_trans; [| |exact Hf2|exact Hf']; [|exact D2]].
  - intros q3 i. simpl. split.
    + intros [[-> Hi]|(ids' & Hin & Hi)]; [exists ids; set_solver|exists ids'; set_solver].
    + intros (ids' & [[= -> ->]|Hin]%elem_of_cons & Hi); [by left|right; by exists ids'].
  - intros q3 i. apply _.
Qed.

Lemma isRecovering_Ret env (q q' : Q) r : isRecovering env q = Ret (q', r) -> q' = q.
Proof.
  unfold isRecovering, get_key. intros Hrun. comp_step Hrun.
  destruct r0 as [recovery [e|]]; by comp_step Hrun.
Qed.

(** C32. The expiry task goes by the expiry date alone: from the storage and
    from the cache alike it removes messages whose date is up to the date
    given, timeless or not, the oldest first, at most 10000 of them over all
    the queues.  No message with a later date is touched, no message left has
    an earlier date than one that was removed, and when fewer than 10000
    messages are removed none with a date up to the date given is left, not
    even a timeless one. *)
Theorem RemoveTTLMessages_correct env d (q q' : Q)
    (Hq : queue_inv q) (Hord : scores_ordered (storage q))
    (Hrun : RemoveTTLMessages env (fun _ => false) d q = Ret (q', (true, None))) :
  exists removed : list Message,
    NoDup (msg_key <$> removed) /\ Z.of_nat (length removed) <= 10000 /\
    Forall (fun m => stored (storage q) (Message.Queue m) (ID m) = Some m /\ ExpiryDate m <= d) removed /\
    forgotten q q' (fun qn i => (qn, i) ∈ msg_key <$> removed) /\
    (forall qn i m, stored (storage q') qn i = Some m -> ExpiryDate m <= d ->
       Z.of_nat (length removed) = 10000 /\
       Forall (fun m' => ExpiryDate m' <= ExpiryDate m) removed).
Proof using HSS HCS.
  unfold RemoveTTLMessages in Hrun. comp_step Hrun. apply isRecovering_Ret in Hs as ->.
  destruct r as [[|] [e|]]; comp_step Hrun. destruct r as [ms [e|]]; comp_step Hrun.
  pose proof Hq as [HSi HCi].
  destruct (spec_Find env (Some (ttl_options d)) (storage q) ms HSi) as (vs & -> & Hans);
    [done|done|done|exact Hs|].
  destruct Hans as [Hnd Hall Hlim Hcomp Hsort].
  destruct (Hsort "expiry_date") as [_ Hold]; [done|exact Hord|].
  assert (Hsel : forall m, selected storage_hides env (opt_filter (Some (ttl_options d))) m <-> ExpiryDate m <= d).
  { intros m. unfold selected. simpl. split; [tauto|]. intros Hm. split; [auto|]. by left. }
  apply ttl_loop_forgets in Hs0 as [Hq' Hf]; [|done].
  rename q0 into q'.
  assert (Hf' : forgotten q q' (fun qn i => (qn, i) ∈ msg_key <$> vs)).
  { eapply forgotten_ext; [|exact Hf]. intros qn i. rewrite messageMap_ids, view_keys; [done|done|..];
      simpl; set_solver. }
  exists vs. split; [done|]. split; [apply Hlim; simpl; lia|]. split; [|split; [done|]].
  - eapply Forall_impl; [exact Hall|]. intros m [Hst Hse]. split; [done|]. by apply (proj1 (Hsel m)).
  - intros qn i m Hst He. destruct (Hf' qn i) as [Hgone Hkeep].
    destruct (decide ((qn, i) ∈ msg_key <$> vs)) as [Hin|Hin].
    { destruct (Hgone Hin) as [Hx _]. congruence. }
    destruct (Hkeep Hin) as [Hx _]. rewrite Hx in Hst.
    assert (Hnin : m ∉ vs).
    { intros Hm. apply Hin, list_elem_of_fmap. exists m. split; [|done].
      apply spec_stored_key in Hst as (<- & <- & _); done. }
    apply Hsel in He as Hse. destruct (Hcomp qn i m Hst Hse Hnin) as [_ Hlen]. split; [exact Hlen|].
    apply Forall_forall. intros m' Hm'.
    destruct (Hold qn i m m' Hst Hse Hnin Hm') as [_ Hx']. by apply Hx'.
Qed.





End Housekeeper.

(** ** Witnesses, on the memory implementation *)

#[local] Existing Instance plain_glob.

(** A message that expires at the [seconds]-th second. *)
Definition expiring (i : string) (seconds : Z) : Message :=
  update_content {|
    ID := i; Description := ""; Message.Queue := "q"; ExpiryDate := seconds * Second;
    Timeless := false; Metadata := None; Payload := None; StringPayload := ""; LockMs := 0;
    InternalId := IdNil; Score := f64_zero; LastUsage := None; Breakpoint := "";
    LastScoreSubtract := f64_zero; TotalScoreSubtract := f64_zero; UsageCount := 0;
    QueuePrefix := ""; QueueSuffix := ""; Diagnostics := None
  |} (msg "q" i 10 0).

Definition two_expiring : list Message := [expiring "a" 5; expiring "b" 100].

Definition expiring_queue : Queue MemoryStorage MemoryCache AuditLog := {|
  storage := (MemoryStorage.Insert (at_ms 1000) two_expiring NewMemoryStorage).1;
  cache := (MemoryCache.Insert "q" two_expiring NewMemoryCache).1;
  auditor := []; metrics := []
|}.

Lemma expiring_queue_inv : queue_inv expiring_queue.
Proof.
  split.
  - change (mem_storage_inv (MemoryStorage.Insert (at_ms 1000) two_expiring NewMemoryStorage).1).
    destruct (MemoryStorage.Insert _ _ _) as [s' [r err]] eqn:E.
    apply insert_loop_spec in E as [? _]; [done|split; apply map_Forall_empty|].
    repeat constructor; apply plain_q.
  - change (cache_unique (MemoryCache.Insert "q" two_expiring NewMemoryCache).1).
    destruct (MemoryCache.Insert _ _ _) as [c' [ids err]] eqn:E.
    apply Insert_moves in E as [? _]; [done|]. intros q. constructor.
Qed.

Lemma expiring_queue_docs (P : Message -> Prop) `{forall m, Decision (P m)} :
  bool_decide (map_Forall (fun _ m => P m) (docs (storage expiring_queue))) = true ->
  forall qn i m, stored (storage expiring_queue) qn i = Some m -> P m.
Proof.
  intros Hb%bool_decide_eq_true qn i m Hm. apply mem_stored_Some in Hm as [Hm _]. by apply Hb in Hm.
Qed.

Lemma expiring_queue_scores : scores_ordered (storage expiring_queue).
Proof. unfold scores_ordered. apply (expiring_queue_docs _). by vm_compute. Qed.

(** Ten seconds in, [a] has expired and [b] has not. *)
Lemma RemoveTTLMessages_correct_witness :
  let q' := after (RemoveTTLMessages (at_ms 10000) (fun _ => false) (10 * Second) expiring_queue) in
  RemoveTTLMessages (at_ms 10000) (fun _ => false) (10 * Second) expiring_queue
    = Ret (q', (true, None)) /\
  exists removed : list Message, forgotten expiring_queue q' (fun qn i => (qn, i) ∈ msg_key <$> removed) /\
    Forall (fun m => ExpiryDate m <= 10 * Second) removed /\
    where_is (cache q') "q" "a" = None /\ where_is (cache q') "q" "b" = Some PRIMARY_POOL.
Proof.
  intros q'. assert (E : RemoveTTLMessages (at_ms 10000) (fun _ => false) (10 * Second) expiring_queue
    = Ret (q', (true, None))) by (vm_compute; reflexivity).
  split; [exact E|].
  destruct (RemoveTTLMessages_correct (at_ms 10000) (10 * Second) expiring_queue q'
    expiring_queue_inv expiring_queue_scores E) as (removed & _ & _ & Hall & Hf & _).
  exists removed. split; [exact Hf|]. split; [eapply Forall_impl; [exact Hall|]; by intros m [_ ?]|].
  split; vm_compute; reflexivity.
Defined.



(** Ten seconds in, [a] has expired: it still counts, but the query does not
    show it, so that the message removed is the live one. *)
Example exceeding_removes_live :
  let cfg := {| cfg_Queue := "q"; MaxElements := 1 |} in
  let q' := after (removeExceedingMessagesFromQueue (at_ms 10000) (Some cfg) expiring_queue) in
  removeExceedingMessagesFromQueue (at_ms 10000) (Some cfg) expiring_queue = Ret (q', None) /\
  is_Some (stored (storage q') "q" "a") /\ stored (storage q') "q" "b" = None /\
  where_is (cache q') "q" "b" = None.
Proof. vm_compute. repeat split. by eexists. Qed.

(** A timeless message that is added again, without the flag, stays timeless
    but takes the new expiry date: the queries of the storage show it as one
    that never expires, and the expiry task removes it. *)
Example timeless_removed :
  let timeless := {|
    ID := "a"; Description := ""; Message.Queue := "q"; ExpiryDate := 1000000 * Second;
    Timeless := true; Metadata := None; Payload := None; StringPayload := ""; LockMs := 0;
    InternalId := IdNil; Score := f64_zero; LastUsage := None; Breakpoint := "";
    LastScoreSubtract := f64_zero; TotalScoreSubtract := f64_zero; UsageCount := 0;
    QueuePrefix := ""; QueueSuffix := ""; Diagnostics := None |} in
  let s := (MemoryStorage.Insert (at_ms 2000) [expiring "a" 5]
             (MemoryStorage.Insert (at_ms 1000) [timeless] NewMemoryStorage).1).1 in
  let q := {| storage := s; cache := NewMemoryCache; auditor := []; metrics := [] |} in
  Timeless <$> stored s "q" "a" = Some true /\
  stored (storage (after (RemoveTTLMessages (at_ms 10000) (fun _ => false) (10 * Second) q))) "q" "a" = None.
Proof. vm_compute. by split. Qed.
