(* ===== verification/RecoveryProps.v ===== *)
(** * The recovery of the cache, in memory

    The recovery of [Recovery] on the memory implementation: the internal ids
    are numbers, the cache always takes the messages, and the recovery
    terminates and leaves the storage and the cache in agreement, whatever the
    number of messages. *)

From S2P Require Import Prelude Float64 Dtime Utils Score Message Cache MemoryCache MemoryCacheFacts.
From S2P Require Import Fixtures Storage MemoryStorage MemoryStorageFacts StorageProps AuditTrail.
From S2P Require Import Metrics Queue QueueFacts QueueProps QueueHistory Housekeeper Recovery.
#[local] Open Scope string_scope.
#[local] Open Scope list_scope.
#[local] Open Scope Z_scope.

(** ** Internal ids *)

Lemma FormatInt_not_finished z : is_int64 z -> FormatInt z <> RECOVERY_FINISHED.
Proof. intros Hz E. pose proof (StrToInt64_FormatInt_id z Hz) as Hp. by rewrite E in Hp. Qed.

Lemma Z_weak_order : weak_order Z.ltb (fun _ => True).
Proof. split; intros *; rewrite ?Z.ltb_lt, ?Z.ltb_ge; lia. Qed.

#[export] Instance MemoryStorage_ids : InternalIds MemoryStorage := {|
  Iid := Z; iid_ltb := Z.ltb; iid_of := id_of; iid_text := FormatInt; iid_ok := is_int64;
  iid_order := Z_weak_order;
  iid_text_ok := fun z Hz => conj (FormatInt_not_empty z) (FormatInt_not_finished z Hz)
|}.

Abbreviation memory_breakpoint := (option (Iid MemoryStorage)).

Lemma iid_le_ids m m' : iid_le (S := MemoryStorage) m m' <-> id_of m <= id_of m'.
Proof. unfold iid_le. cbn. apply Z.ltb_ge. Qed.

Lemma bp_text_ok_memory (b : memory_breakpoint) : bp_valid b -> bp_ok (bp_text b).
Proof.
  destruct b as [z|]; cbn; [|by left]. intros Hz. right. rewrite StrToInt64_FormatInt_id by done. by eexists.
Qed.

Lemma bp_value_holds z keep : is_int64 z -> bp_holds (FormatInt z) keep = keep z.
Proof.
  intros Hz. unfold bp_holds. rewrite StrToInt64_FormatInt_id by done.
  by rewrite (proj2 (String.eqb_neq _ _) (FormatInt_not_empty z)).
Qed.

Lemma id_weak_order d : weak_order (id_less_b d) (fun _ => True).
Proof.
  split; intros *; unfold id_less_b; destruct d; rewrite ?Z.ltb_lt, ?Z.ltb_ge; lia.
Qed.

(** ** Queries by internal id *)

(** The internal ids are different, and none has overflowed. *)
Definition ids_in_range (s : MemoryStorage) : Prop := ids_unique s /\ internalCounter s <= max_int64.

Section Queries.
Context (s : MemoryStorage).
Hypothesis Hinv : mem_storage_inv s.
Hypothesis Hrange : ids_in_range s.

Lemma stored_id_int64 qn i m : mem_stored s qn i = Some m -> is_int64 (id_of m).
Proof using Hrange.
  destruct Hrange as [Hids Hcounter]. intros (Hm & _)%mem_stored_Some. destruct Hids as (_ & Hr & _).
  destruct (Hr _ _ Hm) as (n & E & ?). unfold id_of. rewrite E.
  unfold is_int64, min_int64, max_int64 in *. lia.
Qed.

(** The internal id tells the messages apart. *)
Lemma stored_id_inj qn i m qn' i' m' :
  mem_stored s qn i = Some m -> mem_stored s qn' i' = Some m' -> id_of m = id_of m' -> m = m'.
Proof using Hrange.
  intros (Hm & _)%mem_stored_Some (Hm' & _)%mem_stored_Some E. destruct Hrange as ((_ & Hr & Hu) & _).
  destruct (Hr _ _ Hm) as (n & En & _), (Hr _ _ Hm') as (n' & En' & _).
  unfold id_of in E. rewrite En, En' in E. assert (Ek : getKey m = getKey m').
  { eapply Hu; [done..|]. congruence. }
  rewrite Ek in Hm. congruence.
Qed.

Lemma GetStringInternalId_stored qn i m :
  mem_stored s qn i = Some m -> GetStringInternalId m = Ret (FormatInt (id_of m)).
Proof using Hrange.
  intros (Hm & _)%mem_stored_Some. destruct Hrange as ((_ & Hr & _) & _).
  destruct (Hr _ _ Hm) as (n & E & _). unfold GetStringInternalId, internal_int64, id_of. by rewrite E.
Qed.

(** The query of a round, with the messages it selects. *)
Lemma recovery_select env (b : memory_breakpoint) zr m :
  bp_valid b -> is_int64 zr ->
  select_b env (Some (recovery_options (bp_text b) (FormatInt zr))) m = true <->
  after_b b m = true /\ upto (S := MemoryStorage) zr m /\ ~ expired env m.
Proof using Type.
  intros Hb Hr. unfold select_b, upto. cbn. rewrite (bp_value_holds zr) by done.
  assert (Hg : bp_holds (bp_text b) (fun x => x <? id_of m) = after_b b m).
  { destruct b as [z|]; [|done]. by apply (bp_value_holds z (fun x => x <? id_of m)). }
  rewrite Hg, !andb_true_r, <- isExpired_expired, not_true_iff_false, !andb_true_iff, negb_true_iff,
    Z.leb_le, Z.ltb_ge. tauto.
Qed.

Lemma Find_round env (b : memory_breakpoint) zr :
  bp_valid b -> is_int64 zr ->
  exists ms, Find env (Some (recovery_options (bp_text b) (FormatInt zr))) s = Ret (ms, None) /\
    batch (S := MemoryStorage) (mem_stored s) (shown MemoryStorage env) b zr ms.
Proof using Hinv.
  intros Hb Hr. set (opt := Some _). rewrite Find_ok; [|done|split; [by apply (bp_text_ok_memory b)|
    by apply (bp_text_ok_memory (Some zr))]].
  fold (doc_list env s). set (sel := List.filter _ (doc_list env s)).
  assert (Hsel : forall m, m ∈ sel <-> mem_stored s (Message.Queue m) (ID m) = Some m /\
    after_b b m = true /\ upto (S := MemoryStorage) zr m /\ ~ expired env m).
  { intros m. unfold sel. rewrite elem_of_filter_iff, elem_of_doc_list by done.
    apply and_iff_compat_l. by apply recovery_select. }
  destruct (limit_found_take opt (sort_b opt sel)) as (n & -> & _ & Hall).
  pose proof (sort_b_perm opt sel) as HP. set (l := sort_b opt sel) in *.
  assert (Hsort : StronglySorted (iid_le (S := MemoryStorage)) l).
  { eapply StronglySorted_impl; cycle 1.
    - apply (stable_sort_sorted (find_less_b [("_id", 1)]) (fun _ => True)); [|by apply Forall_true].
      apply (id_weak_order false).
    - done. }
  eexists. split; [done|]. split.
  - eapply sublist_NoDup; [|apply sublist_take]. rewrite HP.
    eapply sublist_NoDup; [|apply filter_sublist].
    eapply NoDup_fmap_1. apply (NoDup_doc_list env s Hinv).
  - intros m Hm. eapply elem_of_sublist in Hm; [|apply sublist_take]. rewrite HP, Hsel in Hm. tauto.
  - intros qn i m Hst Hex%(proj1 (memory_shown _ _)) Ha Hu Hnin.
    assert (Hin : m ∈ l).
    { rewrite HP, Hsel. apply mem_stored_Some in Hst as (? & <- & <-). split; [by apply mem_stored_Some|done]. }
    destruct Hall as [Heq|[_ Hlen]]; [by rewrite Heq in Hnin|].
    split; [exact Hlen|]. intros m' Hm'.
    eapply (StronglySorted_take_drop (iid_le (S := MemoryStorage))); [exact Hsort|exact Hm'|].
    rewrite <- (take_drop n l), elem_of_app in Hin. by destruct Hin.
  - by apply StronglySorted_take.
Qed.

(** The query that starts the recovery finds the last message. *)
Lemma Find_last env :
  exists ms, Find env (Some last_options) s = Ret (ms, None) /\
    match ms with
    | [] => forall qn i m, mem_stored s qn i = Some m -> expired env m
    | m :: _ => mem_stored s (Message.Queue m) (ID m) = Some m /\
        forall qn i m', mem_stored s qn i = Some m' -> ~ expired env m' -> id_of m' <= id_of m
    end.
Proof using Hinv.
  clear Hrange. set (opt := Some _). rewrite Find_ok by done. fold (doc_list env s).
  set (sel := List.filter _ (doc_list env s)).
  assert (Hsel : forall m, m ∈ sel <->
    mem_stored s (Message.Queue m) (ID m) = Some m /\ ~ expired env m).
  { intros m. unfold sel. rewrite elem_of_filter_iff, elem_of_doc_list by done. unfold select_b. cbn.
    by rewrite andb_true_r, negb_true_iff, <- isExpired_expired, not_true_iff_false. }
  assert (Hin : forall qn i m, mem_stored s qn i = Some m -> ~ expired env m -> m ∈ sel).
  { intros qn i m Hm Hex. apply Hsel. split; [|done].
    apply mem_stored_Some in Hm as (? & <- & <-). by apply mem_stored_Some. }
  assert (HP : sort_b opt sel ≡ₚ sel) by apply sort_b_perm.
  assert (Hs : sorted_by (id_less_b true) (sort_b opt sel)).
  { apply (stable_sort_sorted _ (fun _ => True)); [apply (id_weak_order true)|by apply Forall_true]. }
  eexists. split; [done|]. destruct (sort_b opt sel) as [|m l] eqn:E.
  - intros qn i m Hm. apply isExpired_expired, not_false_is_true. intros Hex.
    rewrite <- not_true_iff_false, isExpired_expired in Hex. eapply Hin in Hex; [|exact Hm].
    rewrite <- HP in Hex. set_solver.
  - assert (Hl : exists l', limit_found opt (m :: l) = m :: l').
    { cbn. case_if; [|by eexists]. by exists []. }
    destruct Hl as [l' ->]. split; [apply Hsel; rewrite <- HP; set_solver|].
    intros qn i m' Hm' Hex. eapply Hin in Hex; [|exact Hm']. rewrite <- HP in Hex.
    apply elem_of_cons in Hex as [->|Hex]; [lia|].
    apply StronglySorted_inv in Hs as [_ Hs]. rewrite Forall_forall in Hs.
    specialize (Hs _ Hex). cbn in Hs. by apply Z.ltb_ge in Hs.
Qed.
End Queries.

(** ** The memory implementation keeps the laws *)

#[export] Instance MemoryStorage_source : RecoverySource MemoryStorage.
Proof.
  refine {| source_ok := ids_in_range; stored_list := doc_list (at_time 0) |}.
  - intros s Hs. split; [|intros m; exact (elem_of_doc_list (at_time 0) s m Hs)].
    eapply NoDup_fmap_1. by apply NoDup_doc_list.
  - intros s qn i m _ Hr. by apply stored_id_int64.
  - intros s qn i m qn' i' m' _ Hr Hm Hm' Hle%iid_le_ids Hge%iid_le_ids.
    eapply stored_id_inj; [exact Hr|exact Hm|exact Hm'|lia].
  - intros s qn i m p _ Hr Hm _. by eapply GetStringInternalId_stored.
  - intros env b r s Hs _ Hb Hr. destruct (Find_round s Hs env b r Hb Hr) as (ms & Hf & Hbatch).
    exists ms. by rewrite list_fmap_id.
  - intros env s Hs _. destruct (Find_last s Hs env) as (ms & Hf & Hms). exists ms.
    rewrite list_fmap_id. split; [done|]. destruct ms as [|m ms].
    + intros qn i m Hm Hsh%(proj1 (memory_shown _ _)). by apply Hms in Hm.
    + destruct Hms as [Hst Hmax]. split; [done|]. intros qn i m' Hm' Hsh%(proj1 (memory_shown _ _)).
      apply iid_le_ids. by eapply Hmax.
Defined.

#[local] Existing Instance plain_glob.

#[export] Instance MemoryCache_reliable : ReliableCache MemoryCache.
Proof.
  refine {| cache_name_ok := fun _ => True |}; [done| |].
  - intros env k v c _. by eexists.
  - intros env qn ms c _ _ Hms. cbn. unfold MemoryCache.Insert.
    destruct (existsb _ ms) eqn:E; [|by do 2 eexists].
    apply existsb_exists in E as (m & Hm & Hne). rewrite <- list_elem_of_In in Hm.
    rewrite Forall_forall in Hms. apply negb_true_iff, String.eqb_neq in Hne. by destruct (Hms m Hm).
Defined.

(** C10. The recovery refills the cache and ends. Start from a queue whose
    cache has no recovery state (a new or flushed cache) and holds stored
    messages only, and run the task as many times as there are batches of
    4000 messages in the storage, and once more when the last batch is full,
    while the clock does not go back. No call panics or fails, the storage is
    unchanged, the recovery is marked as finished, and every stored message
    that has not expired is in the cache. *)
Theorem recovery_completes (envs : list Env) (q : MemoryQueue)
    (Hinv : queue_inv q) (Hids : ids_unique (storage q))
    (Hcnt : internalCounter (storage q) <= max_int64) (Hbacked : backed q)
    (Hfresh : key q RECOVERY_STORAGE_BREAKPOINT_KEY = "" /\ key q RECOVERY_RUNNING <> "true")
    (Hclock : StronglySorted (fun e e' => Now e <= Now e') envs)
    (Hrounds : Z.of_nat (size (docs (storage q))) < recovery_batch * Z.of_nat (length envs)) :
  exists q', run_recovery envs q = Ret q' /\ storage q' = storage q /\ finished q' /\
    agree (List.last envs (at_time 0)) q'.
Proof.
  apply recovery_reaches; [done|done| |done|done| |].
  - intros qn i m _. split; exact I.
  - eapply StronglySorted_impl; [|exact Hclock]. intros e e'. apply no_earlier_clock.
  - change (stored_list (storage q)) with (doc_list (at_time 0) (storage q)).
    unfold doc_list. rewrite length_fmap, length_map_range. done.
Qed.

(** A storage with messages and an empty cache, as after a restart. *)
Definition restarted : MemoryQueue := {|
  storage := storage ab_stored; cache := NewMemoryCache; auditor := []; metrics := [] |}.

Lemma restarted_ids : ids_unique (storage restarted) /\ internalCounter (storage restarted) <= max_int64.
Proof.
  split; [|by vm_compute].
  apply (run_storage_ops_unique [(at_ms 1000, StInsert [msg "q" "a" 10 0; msg "q" "b" 5 0])]
    NewMemoryStorage); [apply NewMemoryStorage_unique|by vm_compute].
Qed.

(** The two messages are back after one call. *)
Lemma recovery_completes_witness :
  exists q', run_recovery [at_ms 2000] restarted = Ret q' /\ finished q' /\ agree (at_ms 2000) q' /\
    where_is (cache q') "q" "a" = Some PRIMARY_POOL /\ where_is (cache q') "q" "b" = Some PRIMARY_POOL.
Proof.
  destruct (recovery_completes [at_ms 2000] restarted) as (q' & Hrun & _ & Hf & Hag).
  - split; [apply ab_stored_inv|]. intros qn. constructor.
  - apply restarted_ids.
  - apply restarted_ids.
  - intros qn i Hn. exfalso. by apply Hn.
  - split; [reflexivity|]. vm_compute. discriminate.
  - repeat constructor.
  - vm_compute. reflexivity.
  - exists q'. split; [done|]. split; [done|]. split; [done|]. revert Hrun. vm_compute.
    intros [= <-]. split; reflexivity.
Defined.
