(* ===== verification/Service.v ===== *)
(** * The service

    [internal/service/deckard_service.go]: the handlers of the gRPC methods.
    The attributes they give to the tracing spans are in [Tracing.v]. *)

From S2P Require Import Prelude Float64 Dtime Utils Score Message Cache Storage AuditTrail.
From S2P Require Import QueueConfiguration Queue.
#[local] Open Scope string_scope.
#[local] Open Scope list_scope.
#[local] Open Scope Z_scope.

(** ** Requests and responses *)

Record AddMessage := {
  am_Id : string;
  am_Payload : option (gmap string Any);
  am_StringPayload : string;
  am_Description : string;
  am_Queue : string;
  am_Metadata : option (gmap string string);
  am_Timeless : bool;
  am_TtlMinutes : Z;
  am_Score : float64
}.

Record AddResponse := { CreatedCount : Z; UpdatedCount : Z }.

Record PullRequest := {
  pr_Queue : string;
  pr_Amount : Z;
  pr_ScoreFilter : Z;
  pr_MinScore : float64;
  pr_MaxScore : float64;
  pr_AckDeadlineMs : Z
}.

(** The message of a response; the diagnostics are set by [Pull] only. *)
Record ResponseMessage := {
  rm_Id : string;
  rm_Description : string;
  rm_Queue : string;
  rm_Score : float64;
  rm_Breakpoint : string;
  rm_Payload : option (gmap string Any);
  rm_StringPayload : string;
  rm_Metadata : option (gmap string string);
  rm_Diagnostics : option (Z * Z * Z * Z)
}.

Record GetByIdResponse := {
  gr_Message : option ResponseMessage;
  gr_HumanReadablePayload : gmap string string;
  gr_Found : bool
}.

Record RemoveResponse := { CacheRemoved : Z; StorageRemoved : Z }.

Record AckRequest := {
  ar_Id : string;
  ar_Queue : string;
  ar_Reason : string;
  ar_ScoreSubtract : float64;
  ar_Breakpoint : string;
  ar_LockMs : Z;
  ar_RemoveMessage : bool;
  ar_Score : float64
}.

Record AckResponse := { Success : bool; RemovalResponse : option RemoveResponse }.

Record EditQueueResponse := { eq_Queue : string; eq_Success : bool }.

(** ** State *)

Record Deckard {S C A L : Type} := {
  queue : Queue S C A;
  localCache : L;
  memoryInstance : bool
}.
Arguments Deckard : clear implicits.

(** ** Helpers *)

(** A nil counter is sent as 0: acks, nacks, consecutive acks and nacks. *)
Definition getMessageDiagnostic (messageDiagnostics : option MessageDiagnostics) : Z * Z * Z * Z :=
  match messageDiagnostics with
  | None => (0, 0, 0, 0)
  | Some d => (default 0 (Acks d), default 0 (Nacks d), default 0 (ConsecutiveAcks d),
               default 0 (ConsecutiveNacks d))
  end.

(** [value.String()] of a protobuf message is third-party code. *)
Definition convertAnyDataToString (any_String : Any -> string) (anyData : option (gmap string Any)) :
    gmap string string :=
  any_String <$> default ∅ anyData.

(** The expiry date of a message added now. *)
Definition add_expiry (env : Env) (m : AddMessage) : Time :=
  let t := Now env in
  let t := if negb (am_TtlMinutes m =? 0) then time_Add t (Minute *64 am_TtlMinutes m)%go else t in
  if am_Timeless m then AddDate_years t 100 else t.

(** The message [Add] stores for a message of the request. *)
Definition add_message (env : Env) (m : AddMessage) : Message :=
  let '(queuePrefix, queueSuffix) := GetQueueParts (am_Queue m) in
  {| ID := am_Id m; Description := am_Description m; Message.Queue := am_Queue m;
     ExpiryDate := add_expiry env m; Timeless := am_Timeless m; Metadata := am_Metadata m;
     Payload := am_Payload m; StringPayload := am_StringPayload m; LockMs := 0;
     InternalId := IdNil; Score := GetAddScore env (am_Score m); LastUsage := None;
     Breakpoint := ""; LastScoreSubtract := f64_zero; TotalScoreSubtract := f64_zero;
     UsageCount := 0; QueuePrefix := queuePrefix; QueueSuffix := queueSuffix; Diagnostics := None |}.

(** The amount of a pull is between 1 and 1000. *)
Definition pull_amount (amount : Z) : Z :=
  let amount := if amount <=? 0 then 1 else amount in
  if 1000 <? amount then 1000 else amount.

(** The deprecated score filter is used when there is no maximum score. *)
Definition pull_max_score (env : Env) (request : PullRequest) : float64 :=
  if f64_eqb (pr_MaxScore request) f64_zero && (0 <? pr_ScoreFilter request)
  then f64_of_Z (NowMs env -64 pr_ScoreFilter request)%go
  else pr_MaxScore request.

Definition pull_response (q : Message) : ResponseMessage := {|
  rm_Id := ID q; rm_Description := ""; rm_Queue := Message.Queue q; rm_Score := Score q;
  rm_Breakpoint := Breakpoint q; rm_Payload := Payload q; rm_StringPayload := StringPayload q;
  rm_Metadata := Metadata q; rm_Diagnostics := Some (getMessageDiagnostic (Diagnostics q))
|}.

Definition get_response (message : Message) : ResponseMessage := {|
  rm_Id := ID message; rm_Description := Description message; rm_Queue := Message.Queue message;
  rm_Score := Score message; rm_Breakpoint := Breakpoint message; rm_Payload := Payload message;
  rm_StringPayload := StringPayload message; rm_Metadata := Metadata message; rm_Diagnostics := None
|}.

(** The new score of an acked message: the one given; else, when the message is
    not locked, the default one less the amount to subtract, within bounds;
    else undefined, and chosen when the message is unlocked. *)
Definition ack_score (env : Env) (request : AckRequest) : float64 :=
  if negb (f64_eqb (ar_Score request) f64_zero) then ar_Score request
  else if ar_LockMs request =? 0 then
    let newScore := f64_sub (GetScoreByDefaultAlgorithm env) (ar_ScoreSubtract request) in
    if f64_ltb newScore Min then Min
    else if f64_gtb newScore Max then Max
    else newScore
  else Undefined.

Definition nack_score (request : AckRequest) : float64 :=
  if negb (f64_eqb (ar_Score request) f64_zero) then ar_Score request
  else if ar_LockMs request =? 0 then Min
  else Undefined.

Definition ack_message (env : Env) (request : AckRequest) : Message := {|
  ID := ar_Id request; Description := ""; Message.Queue := ar_Queue request;
  ExpiryDate := time_zero; Timeless := false; Metadata := None; Payload := None;
  StringPayload := ""; LockMs := ar_LockMs request; InternalId := IdNil;
  Score := ack_score env request; LastUsage := Some (Now env); Breakpoint := ar_Breakpoint request;
  LastScoreSubtract := ar_ScoreSubtract request; TotalScoreSubtract := f64_zero; UsageCount := 0;
  QueuePrefix := ""; QueueSuffix := ""; Diagnostics := None
|}.

Definition nack_message (request : AckRequest) : Message := {|
  ID := ar_Id request; Description := ""; Message.Queue := ar_Queue request;
  ExpiryDate := time_zero; Timeless := false; Metadata := None; Payload := None;
  StringPayload := ""; LockMs := ar_LockMs request; InternalId := IdNil;
  Score := nack_score request; LastUsage := None; Breakpoint := ar_Breakpoint request;
  LastScoreSubtract := ar_ScoreSubtract request; TotalScoreSubtract := f64_zero; UsageCount := 0;
  QueuePrefix := ""; QueueSuffix := ""; Diagnostics := None
|}.

(** ** Handlers *)

Section Handlers.
Context {S C A L : Type} `{Storage S} `{Cache C} `{Auditor A} `{LocalCache L}.
Abbreviation D := (Deckard S C A L).

(** A computation of the queue. *)
Definition on_queue {R} (m : Comp (Queue S C A) R) : Comp D R := fun d =>
  obind (m (queue d)) (fun '(q, r) =>
    Ret ({| queue := q; localCache := localCache d; memoryInstance := memoryInstance d |}, r)).

(** A call of the configuration service, on the storage and the local cache. *)
Definition on_configuration {R} (f : S -> L -> S * L * R) : Comp D R := fun d =>
  let '(s, l, r) := f (storage (queue d)) (localCache d) in
  Ret ({| queue := {| storage := s; cache := cache (queue d); auditor := auditor (queue d);
                      metrics := metrics (queue d) |};
          localCache := l; memoryInstance := memoryInstance d |}, r).

(** [configuration]: the maximum number of elements, when given. *)
Definition EditQueue (env : Env) (queueName : string) (configuration : option Z) :
    Comp D (result (option EditQueueResponse)) :=
  match configuration with
  | None => mret (Some {| eq_Queue := queueName; eq_Success := false |}, None)
  | Some maxElements =>
      err ← on_configuration (fun s l =>
        svc_EditQueueConfiguration env
          (Some {| cfg_Queue := queueName; MaxElements := maxElements |}) s l);
      match err with
      | Some _ => mret (None, Some (StatusError Internal "error editing queue"))
      | None => mret (Some {| eq_Queue := queueName; eq_Success := true |}, None)
      end
  end.

(** The configuration is never nil when there is no error. *)
Definition GetQueue (env : Env) (queueName : string) : Comp D (result (option (string * Z))) :=
  r ← on_configuration (fun s l =>
    let '(l, r) := svc_GetQueueConfiguration env queueName s l in (s, l, r));
  match r with
  | (_, Some _) => mret (None, Some (StatusError Internal "error getting queue configuration"))
  | (None, None) => fun _ => Panic "nil pointer dereference"
  | (Some res, None) => mret (Some (cfg_Queue res, MaxElements res), None)
  end.

Definition service_Remove (env : Env) (queueName : string) (ids : list string) :
    Comp D (result (option RemoveResponse)) :=
  if Nat.eqb (length ids) 0 then mret (Some {| CacheRemoved := 0; StorageRemoved := 0 |}, None)
  else
    r ← on_queue (Remove env queueName "REQUEST" ids);
    match r with
    | (_, Some _) => mret (None, Some (StatusError Internal "error removing messages from pool"))
    | ((cacheRemoved, storageRemoved), None) =>
        mret (Some {| CacheRemoved := cacheRemoved; StorageRemoved := storageRemoved |}, None)
    end.

Definition service_Count (env : Env) (queueName : string) : Comp D (result (option Z)) :=
  r ← on_queue (Count env (Some (filter_only (Some {|
        InternalIdBreakpointGt := ""; InternalIdBreakpointLte := ""; Ids := None;
        f_Queue := queueName; f_QueuePrefix := ""; f_ExpiryDate := None |}))));
  match r with
  | (_, Some _) => mret (None, Some (StatusError Internal "error count messages"))
  | (n, None) => mret (Some n, None)
  end.

Definition Add (env : Env) (request : list AddMessage) : Comp D (result (option AddResponse)) :=
  let messages := map (add_message env) request in
  r ← on_queue (AddMessagesToStorage env messages);
  match r with
  | (_, Some _) => mret (None, Some (StatusError Internal "error adding messages"))
  | ((inserted, updated), None) =>
      r ← on_queue (AddMessagesToCache env messages);
      match r with
      | (_, Some _) => mret (None, Some (StatusError Internal "error adding messages"))
      | (_, None) => mret (Some {| CreatedCount := inserted; UpdatedCount := updated |}, None)
      end
  end.

Definition service_Pull (env : Env) (request : PullRequest) :
    Comp D (result (option (list ResponseMessage))) :=
  let amount := pull_amount (pr_Amount request) in
  let minScore := GetPullMinScore (pr_MinScore request) in
  let maxScore := GetPullMaxScore (pull_max_score env request) in
  r ← on_queue (Pull env (pr_Queue request) amount minScore maxScore (pr_AckDeadlineMs request));
  match r with
  | (_, Some _) => mret (None, Some (StatusError Internal "error pulling messages"))
  | (None, None) => mret (Some [], None)
  | (Some messages, None) => mret (Some (map pull_response messages), None)
  end.

Definition GetById (any_String : Any -> string) (env : Env) (i queueName : string) :
    Comp D (result (option GetByIdResponse)) :=
  if String.eqb i "" then mret (None, Some (StatusError InvalidArgument "invalid id"))
  else if String.eqb queueName "" then
    mret (None, Some (StatusError InvalidArgument "invalid queue"))
  else
    r ← on_queue (GetStorageMessages env (Some {|
          Projection := None; Sort := None; Limit := 1;
          opt_InternalFilter := Some {| InternalIdBreakpointGt := ""; InternalIdBreakpointLte := "";
            Ids := Some [i]; f_Queue := queueName; f_QueuePrefix := ""; f_ExpiryDate := None |};
          Retry := false; Comment := "" |}));
    match r with
    | (_, Some _) => mret (None, Some (StatusError Internal "error getting message"))
    | ([message], None) =>
        mret (Some {| gr_Message := Some (get_response message);
                      gr_HumanReadablePayload := convertAnyDataToString any_String (Payload message);
                      gr_Found := true |}, None)
    | (_, None) =>
        mret (Some {| gr_Message := None; gr_HumanReadablePayload := ∅; gr_Found := false |}, None)
    end.

Definition removeMessageFromAckNack (env : Env) (request : AckRequest) :
    Comp D (result (option AckResponse)) :=
  r ← service_Remove env (ar_Queue request) [ar_Id request];
  match r with
  | (removeResp, Some _) =>
      mret (Some {| Success := false; RemovalResponse := removeResp |},
            Some (StatusError Internal "error on message REMOVAL ACK"))
  | (removeResp, None) => mret (Some {| Success := true; RemovalResponse := removeResp |}, None)
  end.

Definition service_Ack (env : Env) (request : AckRequest) : Comp D (result (option AckResponse)) :=
  r ← on_queue (Ack env (Some (ack_message env request)) (ar_Reason request));
  match r with
  | (_, Some _) => mret (None, Some (StatusError Internal "error on message ACK"))
  | (success, None) =>
      if ar_RemoveMessage request then removeMessageFromAckNack env request
      else mret (Some {| Success := success; RemovalResponse := None |}, None)
  end.

Definition service_Nack (env : Env) (request : AckRequest) : Comp D (result (option AckResponse)) :=
  r ← on_queue (Nack env (Some (nack_message request)) (ar_Reason request));
  match r with
  | (_, Some _) => mret (None, Some (StatusError Internal "error on message NACK"))
  | (success, None) =>
      if ar_RemoveMessage request then removeMessageFromAckNack env request
      else mret (Some {| Success := success; RemovalResponse := None |}, None)
  end.

(** Only a memory instance can be flushed. *)
Definition service_Flush (env : Env) : Comp D (result (option bool)) := fun d =>
  if negb (memoryInstance d) then Ret (d, (Some false, None))
  else
    (r ← on_queue (Flush env);
     match r with
     | (success, Some _) => mret (Some success, Some (StatusError Internal "error to flush deckard"))
     | (success, None) => mret (Some success, None)
     end) d.
End Handlers.
