(* ===== verification/ServiceProps.v ===== *)
(** * Properties of the service

    The handlers end to end: an added message can be read and is available,
    an answer releases or removes its message, the scores and expiry dates
    they compute, and what a failed addition leaves behind. *)

From S2P Require Import Prelude Float64 Dtime Utils Score Message Cache MemoryCache MemoryCacheFacts.
From S2P Require Import Fixtures Storage MemoryStorage MemoryStorageFacts StorageProps AuditTrail.
From S2P Require Import QueueConfiguration Metrics Queue QueueFacts QueueProps Housekeeper.
From S2P Require Import HousekeeperProps QueueHistory Service.
#[local] Open Scope string_scope.
#[local] Open Scope list_scope.
#[local] Open Scope Z_scope.

(** ** Answers *)

Section Answers.
Context {S C A L : Type} `{HSS : StorageSpec S} `{HCS : CacheSpec C} `{HA : Auditor A} `{HL : LocalCache L}.
Abbreviation D := (Deckard S C A L).

Lemma on_queue_Ret {R} (m : Comp (Queue S C A) R) (d d' : D) r :
  on_queue m d = Ret (d', r) -> m (queue d) = Ret (queue d', r).
Proof. unfold on_queue. destruct (m (queue d)) as [[q r']|]; [|done]. by intros [= <- <-]. Qed.

(** The handler of an ack or a nack, by the lock type it uses. *)
Definition service_answer (t : LockType) (env : Env) (request : AckRequest) :
    Comp D (result (option AckResponse)) :=
  match t with LOCK_ACK => service_Ack env request | LOCK_NACK => service_Nack env request end.

Definition answer_message (t : LockType) (env : Env) (request : AckRequest) : Message :=
  match t with LOCK_ACK => ack_message env request | LOCK_NACK => nack_message request end.

Definition answer_score (t : LockType) (env : Env) (request : AckRequest) : float64 :=
  match t with LOCK_ACK => ack_score env request | LOCK_NACK => nack_score request end.

(** Both run the queue, and then the removal when it is asked for. *)
Lemma service_answer_run t env request (d d' : D) resp :
  service_answer t env request d = Ret (d', (Some resp, None)) ->
  exists d1 b, answer t env (answer_message t env request) (ar_Reason request) (queue d)
      = Ret (queue d1, (b, None)) /\
    if ar_RemoveMessage request then
      removeMessageFromAckNack env request d1 = Ret (d', (Some resp, None))
    else d' = d1 /\ resp = {| Success := b; RemovalResponse := None |}.
Proof using Type.
  intros Hrun. destruct t; apply bind_Ret in Hrun as (d1 & [b [e|]] & Hq & Hrun);
    try (by apply ret_Ret in Hrun); apply on_queue_Ret in Hq; exists d1, b; (split; [exact Hq|]);
    (case_if; [done|]); apply ret_Ret in Hrun; by simplify_eq.
Qed.

Lemma removeMessage_run env request (d d' : D) resp :
  queue_inv (queue d) -> removeMessageFromAckNack env request d = Ret (d', (Some resp, None)) ->
  Success resp = true /\ queue_inv (queue d') /\
  forgotten (queue d) (queue d') (fun qn i => qn = ar_Queue request /\ i ∈ [ar_Id request]).
Proof using HSS HCS.
  intros Hq Hrun. apply bind_Ret in Hrun as (d1 & [rr [e|]] & Hrem & Hrun); apply ret_Ret in Hrun;
    simplify_eq. unfold service_Remove in Hrem. cbn [length Nat.eqb] in Hrem.
  apply bind_Ret in Hrem as (d2 & [[cn sn] [e|]] & Hr & Hrem); apply ret_Ret in Hrem; simplify_eq.
  apply on_queue_Ret in Hr. split; [done|]. by eapply Remove_forgets.
Qed.

(** C35. The answer of a message. Without removal the response tells whether
    the message was being processed; then it is available again, or locked
    when a lock time is given, every other message stays where it is, and the
    stored message takes the score of the answer. With removal the message is
    in neither the storage nor the cache, and every other message stays where
    it is. *)
Theorem service_answer_correct t env request (d d' : D) resp
    (Hq : queue_inv (queue d)) (Hname : queue_name_ok (ar_Queue request))
    (Hrun : service_answer t env request d = Ret (d', (Some resp, None))) :
  let qn := ar_Queue request in let i := ar_Id request in
  (forall qn' i', (qn', i') <> (qn, i) ->
     stored (storage (queue d')) qn' i' = stored (storage (queue d)) qn' i' /\
     where_is (cache (queue d')) qn' i' = where_is (cache (queue d)) qn' i') /\
  if ar_RemoveMessage request then
    Success resp = true /\ stored (storage (queue d')) qn i = None /\
    where_is (cache (queue d')) qn i = None
  else
    (Success resp = true <-> where_is (cache (queue d)) qn i = Some PROCESSING_POOL) /\
    (Success resp = true -> where_is (cache (queue d')) qn i =
       Some (if 0 <? ar_LockMs request then lock_pool t else PRIMARY_POOL)) /\
    Score <$> stored (storage (queue d')) qn i =
      (fun _ => answer_score t env request) <$> stored (storage (queue d)) qn i.
Proof using HSS HCS.
  intros qn i. apply service_answer_run in Hrun as (d1 & b & Hans & Hrem).
  set (m := answer_message t env request) in *.
  assert (Hqn : Message.Queue m = qn) by (by destruct t). assert (Hi : ID m = i) by (by destruct t).
  apply answer_spec in Hans as (Hq1 & Hb & Hm & Hne & Hst); [|done|by rewrite Hqn].
  rewrite Hqn, Hi in *. unfold msg_key in Hne. rewrite Hqn, Hi in Hne.
  assert (Hother : forall qn' i', (qn', i') <> (qn, i) ->
    where_is (cache (queue d1)) qn' i' = where_is (cache (queue d)) qn' i').
  { intros qn' i' Hx. rewrite Hm, decide_False; [done|]. intros [-> Hin]. destruct b; [|set_solver].
    apply list_elem_of_singleton in Hin as ->. by apply Hx. }
  destruct (ar_RemoveMessage request).
  - apply removeMessage_run in Hrem as (Hs & _ & Hf); [|done]. split.
    + intros qn' i' Hx. destruct (Hf qn' i') as [_ Hkeep].
      destruct Hkeep as [-> ->]; [|by split; [apply Hne|apply Hother]].
      intros [-> ->%list_elem_of_singleton]. by apply Hx.
    + split; [done|]. apply Hf. split; [done|]. set_solver.
  - destruct Hrem as [-> ->]. cbn [Success]. split; [by intros; split; [apply Hne|apply Hother]|].
    split; [done|]. split.
    + intros ->. rewrite Hm, decide_True by set_solver. unfold answer_pool.
      by replace (LockMs m) with (ar_LockMs request) by (by destruct t).
    + destruct (stored (storage (queue d)) qn i) as [v|]; [|by rewrite Hst].
      destruct Hst as (v' & -> & Hsc & _). cbn. rewrite Hsc. by destruct t.
Qed.
End Answers.

(** ** Scores of answers *)

Lemma answer_score_ok t env request :
  f64_eqb (ar_Score request) f64_zero = true -> ar_LockMs request = 0 ->
  f64_is_nan (ar_ScoreSubtract request) = false -> score_ok (answer_score t env request) = true.
Proof.
  intros Hs Hl Hn. destruct t; cbn; unfold ack_score, nack_score; rewrite Hs, Hl; cbn; [|done].
  case_if; [done|]. case_if; [done|]. apply capped_score_ok; try done.
  apply f64_sub_not_nan; [apply f64_of_Z_not_nan|done|]. intros s.
  apply f64_of_Z_not_infinity, NowMs_bound.
Qed.

Section AnswerScores.
Context {S C A L : Type} `{HSS : StorageSpec S} `{HCS : CacheSpec C} `{HA : Auditor A} `{HL : LocalCache L}.
Abbreviation D := (Deckard S C A L).

(** The score an answer leaves on the stored message. A score given in
    the request is stored as it is, also when it is negative or above the
    maximum; without one, the score is within the bounds when no lock time is
    given, and otherwise undefined (-1) until the message is unlocked. *)
Theorem answer_score_stored t env request (d d' : D) resp v
    (Hq : queue_inv (queue d)) (Hname : queue_name_ok (ar_Queue request))
    (Hkeep : ar_RemoveMessage request = false) (Hsub : f64_is_nan (ar_ScoreSubtract request) = false)
    (Hst : stored (storage (queue d)) (ar_Queue request) (ar_Id request) = Some v)
    (Hrun : service_answer t env request d = Ret (d', (Some resp, None))) :
  exists v', stored (storage (queue d')) (ar_Queue request) (ar_Id request) = Some v' /\
    if f64_eqb (ar_Score request) f64_zero then
      if ar_LockMs request =? 0 then score_ok (Score v') = true else Score v' = Undefined
    else Score v' = ar_Score request.
Proof using HSS HCS.
  apply service_answer_run in Hrun as (d1 & b & Hans & Hrem). rewrite Hkeep in Hrem.
  destruct Hrem as [-> _]. set (m := answer_message t env request) in *.
  assert (Hqn : Message.Queue m = ar_Queue request) by (by destruct t).
  assert (Hi : ID m = ar_Id request) by (by destruct t).
  apply answer_spec in Hans as (_ & _ & _ & _ & Hs); [|done|by rewrite Hqn].
  rewrite Hqn, Hi, Hst in Hs. destruct Hs as (v' & Hv' & Hsc & _). exists v'. split; [done|].
  rewrite Hsc. replace (Score m) with (answer_score t env request) by (by destruct t).
  destruct (f64_eqb (ar_Score request) f64_zero) eqn:Es.
  - destruct (Z.eqb_spec (ar_LockMs request) 0) as [El|El]; [by apply answer_score_ok|].
    destruct t; cbn; unfold ack_score, nack_score; rewrite Es, (proj2 (Z.eqb_neq _ _) El); done.
  - destruct t; cbn; unfold ack_score, nack_score; by rewrite Es.
Qed.
End AnswerScores.

(** ** Expiry dates *)

Lemma add_expiry_ttl env m :
  am_Timeless m = false -> add_expiry env m = Now env + wrap64 (Minute * am_TtlMinutes m).
Proof.
  intros Ht. unfold add_expiry. rewrite Ht. destruct (Z.eqb_spec (am_TtlMinutes m) 0) as [->|]; [|done].
  change (wrap64 (Minute * 0)) with 0. cbn [negb Z.eqb]. lia.
Qed.

Lemma add_message_fields env m :
  let msg := add_message env m in
  ID msg = am_Id m /\ Message.Queue msg = am_Queue m /\ Description msg = am_Description m /\
  Payload msg = am_Payload m /\ StringPayload msg = am_StringPayload m /\
  Metadata msg = am_Metadata m /\ Score msg = GetAddScore env (am_Score m) /\
  ExpiryDate msg = add_expiry env m /\ Timeless msg = am_Timeless m.
Proof. unfold add_message. destruct (GetQueueParts _). by split_and!. Qed.

(** C40. The expiry date of an added message.  A query never takes a timeless
    message for expired (the expiry task does not look at the flag, only at the
    date, which is a hundred years later).  Any other expires when its time to
    live has passed, exactly when that is up to 153722867 minutes (292 years);
    beyond, the duration in nanoseconds overflows, and the date is another one:
    for 153722868 to 307445734 minutes the message has expired when it is added
    (from then on the wrapped duration can be positive again,
    [add_expiry_wraps]).  So has one without a time to live, which is what a
    request that sets neither field asks for. *)
Theorem add_expiry_date env m :
  (am_Timeless m = true -> forall env', ~ expired env' (add_message env m)) /\
  (am_Timeless m = false ->
    ExpiryDate (add_message env m) = Now env + wrap64 (Minute * am_TtlMinutes m) /\
    (0 < am_TtlMinutes m ->
      ExpiryDate (add_message env m) = Now env + am_TtlMinutes m * Minute <-> am_TtlMinutes m <= 153722867) /\
    (0 < am_TtlMinutes m <= 153722867 -> ~ expired env (add_message env m)) /\
    (153722867 < am_TtlMinutes m <= 307445734 -> expired env (add_message env m)) /\
    (am_TtlMinutes m = 0 -> expired env (add_message env m))).
Proof.
  destruct (add_message_fields env m) as (_ & _ & _ & _ & _ & _ & _ & Hexp & Htl).
  unfold expired. rewrite Hexp, Htl. split; [by intros -> env' [? _]|]. intros Ht. rewrite Ht, add_expiry_ttl by done.
  unfold Minute, Second. split_and!; [done|..].
  - intros Hpos. split.
    + intros E. assert (Hw : wrap64 (60 * 1000000000 * am_TtlMinutes m) = 60 * 1000000000 * am_TtlMinutes m) by lia.
      pose proof (wrap64_range (60 * 1000000000 * am_TtlMinutes m)) as Hr. rewrite Hw in Hr. unfold is_int64, min_int64, max_int64 in Hr. lia.
    + intros Hle. unfold wrap64. rewrite Z.mod_small by lia. lia.
  - intros Hr. unfold wrap64. rewrite Z.mod_small by lia. intros [_ ?]. lia.
  - intros Hr. split; [done|]. unfold wrap64. rewrite <- (Z_mod_plus_full _ (-1)), Z.mod_small by lia. lia.
  - intros ->. split; [done|]. change (wrap64 (60 * 1000000000 * 0)) with 0. lia.
Qed.

(** One minute more, and the wrapped duration is positive: 26 seconds. *)
Lemma add_expiry_wraps env m :
  am_Timeless m = false -> am_TtlMinutes m = 307445735 ->
  ExpiryDate (add_message env m) = Now env + 26290448384 /\ ~ expired env (add_message env m).
Proof.
  intros Ht Hm. destruct (add_message_fields env m) as (_ & _ & _ & _ & _ & _ & _ & Hexp & Htl).
  unfold expired. rewrite Hexp, add_expiry_ttl, Hm by done.
  change (wrap64 (Minute * 307445735)) with 26290448384. split; [done|]. intros [_ ?]. lia.
Qed.

(** ** Additions *)



Section Additions.
Context {S C A L : Type} `{HIC : InsertContent S} `{HCS : CacheSpec C} `{HA : Auditor A} `{HL : LocalCache L}.
Abbreviation D := (Deckard S C A L).




(** What [GetById] answers for a message of the storage. *)
Definition by_id_response (any_String : Any -> string) (found : option Message) : GetByIdResponse :=
  match found with
  | Some v => {| gr_Message := Some (get_response v);
                 gr_HumanReadablePayload := convertAnyDataToString any_String (Payload v); gr_Found := true |}
  | None => {| gr_Message := None; gr_HumanReadablePayload := ∅; gr_Found := false |}
  end.


End Additions.

(** ** Additions, on the memory implementation *)

#[local] Existing Instance plain_glob.

Abbreviation MemoryDeckard :=
  (Deckard MemoryStorage MemoryCache AuditLog (gmap string (QueueConfiguration * Time)))
  (only parsing).

(** A failed addition is not undone: when a message of a request has no id,
    the request reports an error, but the messages before it are stored; they
    are not added to the cache, so that a new one is not handed out. *)
Theorem Add_partial env m bad rest (d : MemoryDeckard)
    (Hq : queue_inv (queue d)) (Hname : plain_queue (am_Queue m))
    (Hvalid : am_Queue m <> "" /\ am_Id m <> "") (Hbad : am_Queue bad <> "" /\ am_Id bad = "")
    (Hnew : where_is (cache (queue d)) (am_Queue m) (am_Id m) = None) :
  exists d', Add env (m :: bad :: rest) d
      = Ret (d', (None, Some (StatusError Internal "error adding messages"))) /\
    is_Some (stored (storage (queue d')) (am_Queue m) (am_Id m)) /\
    where_is (cache (queue d')) (am_Queue m) (am_Id m) = None.
Proof.
  destruct Hq as [Hs _]. destruct (add_message_fields env m) as (Hid & Hqn & _).
  destruct (add_message_fields env bad) as (Hbi & Hbq & _).
  destruct (memory_insert_returns env [add_message env m] (storage (queue d)) 0 0) as (s1 & r & Hone).
  { constructor; [|constructor]. by rewrite Hid, Hqn. }
  assert (Hins : MemoryStorage.Insert env (map (add_message env) (m :: bad :: rest)) (storage (queue d))
    = (s1, ((0, 0), Some (ErrorString "message has a invalid ID")))).
  { unfold MemoryStorage.Insert. cbn [map insert_loop] in *.
    rewrite Hid, Hqn, !(proj2 (String.eqb_neq _ _)) in * by tauto.
    rewrite Hbi, Hbq, (proj2 (String.eqb_neq (am_Queue bad) "")) by tauto. destruct Hbad as [_ ->].
    destruct (docs (storage (queue d)) !! _); by injection Hone as <- _. }
  eexists. split.
  - unfold Add. etransitivity; [apply bind_eq; unfold on_queue, AddMessagesToStorage, on_storage;
      cbn [storage_Insert MemoryStorage_Storage]; rewrite Hins; reflexivity|reflexivity].
  - cbn [queue storage cache]. split; [|done].
    apply insert_loop_spec in Hone as (_ & _ & _ & _ & _ & Hall); [|done|by repeat constructor; rewrite Hqn].
    rewrite <- Hid, <- Hqn. apply Hall; [done|set_solver].
Qed.

(** ** Witnesses *)

Definition add_request (i : string) (ttl : Z) : AddMessage := {|
  am_Id := i; am_Payload := None; am_StringPayload := "data"; am_Description := "d"; am_Queue := "q";
  am_Metadata := None; am_Timeless := false; am_TtlMinutes := ttl; am_Score := f64_zero |}.

Definition new_deckard : MemoryDeckard :=
  {| queue := new_memory_queue; localCache := ∅; memoryInstance := true |}.

Definition deckard_after {R} (o : outcome (MemoryDeckard * R)) : MemoryDeckard :=
  match o with Ret (d, _) => d | Panic _ => new_deckard end.

Lemma new_deckard_inv : queue_inv (queue new_deckard).
Proof. apply (new_memory_queue_agrees 0). Qed.


(** A request that sets neither field: the memory storage hides the message at
    once, although it was created and is in the cache. *)
Example default_request_hidden :
  let d' := deckard_after (Add (at_ms 1000) [add_request "a" 0] new_deckard) in
  Add (at_ms 1000) [add_request "a" 0] new_deckard = Ret (d', (Some {| CreatedCount := 1; UpdatedCount := 0 |}, None)) /\
  where_is (cache (queue d')) "q" "a" = Some PRIMARY_POOL /\
  GetById (fun _ => "") (at_ms 1000) "a" "q" d' = Ret (d', (Some (by_id_response (fun _ => "") None), None)).
Proof. vm_compute. by repeat split. Qed.

Lemma Add_partial_witness :
  exists d', Add (at_ms 1000) [add_request "a" 5; add_request "" 5] new_deckard
      = Ret (d', (None, Some (StatusError Internal "error adding messages"))) /\
    is_Some (stored (storage (queue d')) "q" "a") /\ where_is (cache (queue d')) "q" "a" = None.
Proof.
  apply (Add_partial (at_ms 1000) (add_request "a" 5) (add_request "" 5) [] new_deckard).
  - apply new_deckard_inv.
  - apply plain_q.
  - done.
  - done.
  - reflexivity.
Defined.

Lemma add_expiry_date_witness :
  ~ expired (at_ms 1000) (add_message (at_ms 1000) (add_request "a" 5)) /\
  expired (at_ms 1000) (add_message (at_ms 1000) (add_request "a" 200000000)).
Proof.
  split.
  - destruct (add_expiry_date (at_ms 1000) (add_request "a" 5)) as [_ H].
    destruct (H eq_refl) as (_ & _ & Hok & _). apply Hok. vm_compute. split; [reflexivity|discriminate].
  - destruct (add_expiry_date (at_ms 1000) (add_request "a" 200000000)) as [_ H].
    destruct (H eq_refl) as (_ & _ & _ & Hov & _). apply Hov. vm_compute. split; [reflexivity|discriminate].
Defined.

(** An ack of [b] with a score of -5. *)
Definition negative_ack (remove : bool) : AckRequest := {|
  ar_Id := "b"; ar_Queue := "q"; ar_Reason := ""; ar_ScoreSubtract := f64_zero; ar_Breakpoint := "";
  ar_LockMs := 0; ar_RemoveMessage := remove; ar_Score := f64_of_Z (-5) |}.

Definition processing_deckard : MemoryDeckard :=
  {| queue := b_processing; localCache := ∅; memoryInstance := true |}.

Lemma answer_score_stored_witness :
  let d' := deckard_after (service_answer LOCK_ACK (at_ms 3000) (negative_ack false) processing_deckard) in
  exists v', stored (storage (queue d')) "q" "b" = Some v' /\ Score v' = f64_of_Z (-5).
Proof.
  intros d'. assert (E : service_answer LOCK_ACK (at_ms 3000) (negative_ack false) processing_deckard
    = Ret (d', (Some {| Success := true; RemovalResponse := None |}, None))) by (vm_compute; reflexivity).
  assert (Hst : exists v, stored (storage (queue processing_deckard)) "q" "b" = Some v)
    by (eexists; vm_compute; reflexivity).
  destruct Hst as [v Hst].
  apply (answer_score_stored LOCK_ACK (at_ms 3000) (negative_ack false) processing_deckard d' _ v
    b_processing_inv plain_q eq_refl eq_refl Hst E).
Defined.

(** The same ack with the removal of the message. *)
Lemma service_answer_correct_witness :
  let d' := deckard_after (service_answer LOCK_ACK (at_ms 3000) (negative_ack true) processing_deckard) in
  stored (storage (queue d')) "q" "b" = None /\ where_is (cache (queue d')) "q" "b" = None /\
  where_is (cache (queue d')) "q" "a" = where_is (cache b_processing) "q" "a".
Proof.
  intros d'. assert (E : exists rr, service_answer LOCK_ACK (at_ms 3000) (negative_ack true) processing_deckard
    = Ret (d', (Some {| Success := true; RemovalResponse := rr |}, None)))
    by (eexists; vm_compute; reflexivity).
  destruct E as [rr E].
  destruct (service_answer_correct LOCK_ACK (at_ms 3000) (negative_ack true) processing_deckard d' _
    b_processing_inv plain_q E) as [Hother (_ & Hs & Hw)].
  split; [exact Hs|]. split; [exact Hw|]. apply (Hother "q" "a"). intros [=].
Defined.
