(* ===== verification/Lifecycle.v ===== *)
(** * The life cycle of the process

    [cmd/deckard/main.go] and [internal/shutdown]: the schedulers of the
    housekeeping tasks, the gRPC server, the sender of the audit and the
    shutdown, as one machine.  An event is one step of one goroutine; every
    order of the events the guards allow is a possible run of the process.
    A step that panics is the last one: nothing recovers, and the process
    ends.

    The wait groups are those of [sync]: an [Add] that comes while the last
    [Done] is waking [main] panics, and so does [main] when it wakes and finds
    the group in use again.  Of the channel of the audit the machine keeps
    whether it is closed; its capacity is that of [AuditSender.v]. *)

From S2P Require Import Prelude.
#[local] Open Scope string_scope.
#[local] Open Scope list_scope.
#[local] Open Scope Z_scope.
#[local] Open Scope go_scope.

(** ** The tasks *)

Inductive Task := UNLOCK | TIMEOUT | METRICS | RECOVERY | MAX_ELEMENTS | TTL.

#[export] Instance Task_eq_dec : EqDecision Task.
Proof. solve_decision. Defined.

(** The tasks in the order they are started. *)
Definition tasks : list Task := [UNLOCK; TIMEOUT; METRICS; RECOVERY; MAX_ELEMENTS; TTL].

(** The lock each scheduler is given: [backgroundTaskLocker] or nil. *)
Definition task_lock (t : Task) : bool :=
  match t with UNLOCK | TIMEOUT | METRICS => false | RECOVERY | MAX_ELEMENTS | TTL => true end.

(** The wait group it is given: the critical one or the other. *)
Definition task_critical (t : Task) : bool :=
  match t with RECOVERY => true | _ => false end.

(** ** State *)

(** Where a scheduler is in the loop of [scheduleTask]. *)
Inductive SchedulerPc :=
  (** it is about to evaluate the [select] *)
  | Select
  (** it is blocked in the [select] *)
  | Parked
  (** the delay has passed: [taskWaitGroup.Add(1)] is next *)
  | Chosen
  (** [lock.Lock()] is next *)
  | Added
  (** in [executeTask] *)
  | Running
  (** [lock.Unlock()] is next *)
  | Ran
  (** [taskWaitGroup.Done()] is next *)
  | Unlocked
  (** in [Done], whose counter came to zero while [main] waits: it wakes it *)
  | Waking
  (** [Started] was closed: the scheduler has returned *)
  | Stopped.

#[export] Instance SchedulerPc_eq_dec : EqDecision SchedulerPc.
Proof. solve_decision. Defined.

(** Where [StartSender] of the auditor is. *)
Inductive SenderPc :=
  (** [a.waitGroup.Add(1)] is next *)
  | SenderEntered
  (** in the loop, until the context is done *)
  | SenderLoop
  (** the channel is closed; the last [send], then [a.waitGroup.Done()] *)
  | SenderLast
  (** in [Done], as [Waking] *)
  | SenderWaking
  (** it has returned, or the audit is not enabled *)
  | SenderReturned.

(** Where [main] is: the statements from the end of the start-up on. *)
Inductive MainPc :=
  (** [<-shutdown.CancelChan] *)
  | MCancelChan
  (** [Start()] *)
  | MStart
  (** the call of [server.GracefulStop()] *)
  | MGracefulStop
  (** [server.GracefulStop()] waits for the calls *)
  | MStopping
  (** [CriticalWaitGroup.Wait()] *)
  | MCriticalWait
  (** asleep in it *)
  | MCriticalAsleep
  (** [cancel()] *)
  | MCancel
  (** [WaitGroup.Wait()] *)
  | MWait
  (** asleep in it *)
  | MAsleep
  (** [Finish()] *)
  | MFinish
  (** the deferred closing of the cache and of the storage *)
  | MDefer
  (** [main] has returned *)
  | MReturned.

#[export] Instance MainPc_eq_dec : EqDecision MainPc.
Proof. solve_decision. Defined.

(** The gRPC server: whether it takes calls, and how many it is serving. *)
Record Server := { accepting : bool; calls : nat }.

(** A [sync.WaitGroup]: its counter, whether [main], the only goroutine that
    calls [Wait], is counted among those waiting, and whether it has been
    released and did not go on yet. *)
Record Group := { counter : Z; waiting : bool; released : bool }.

(** The channel [a.entries] of the auditor. *)
Inductive EntriesChannel :=
  (** the audit is not enabled *)
  | NotEnabled
  | EntriesOpen
  | EntriesClosed.

Record System := {
  main_pc : MainPc;
  (** a signal is in the buffer of [CancelChan], of capacity 1 *)
  CancelChan : bool;
  (** the channels [Started] and [Finished] are closed *)
  Started : bool;
  Finished : bool;
  (** the context is cancelled *)
  cancelled : bool;
  CriticalWaitGroup : Group;
  WaitGroup : Group;
  (** [backgroundTaskLocker] is locked *)
  backgroundTaskLocker : bool;
  (** [None]: [grpc.enabled] is false *)
  server : option Server;
  sender : SenderPc;
  entries : EntriesChannel;
  scheduler : Task -> SchedulerPc;
  (** the storage and the cache are closed *)
  connections_closed : bool
}.

Definition no_one : Group := {| counter := 0; waiting := false; released := false |}.

(** The state in which [main] waits for a signal: the goroutines of the
    auditor and of the schedulers are just created. *)
Definition initial (grpcEnabled housekeeperEnabled auditEnabled : bool) : System := {|
  main_pc := MCancelChan; CancelChan := false; Started := false; Finished := false;
  cancelled := false; CriticalWaitGroup := no_one; WaitGroup := no_one; backgroundTaskLocker := false;
  server := if grpcEnabled then Some {| accepting := true; calls := 0 |} else None;
  sender := if auditEnabled then SenderEntered else SenderReturned;
  entries := if auditEnabled then EntriesOpen else NotEnabled;
  scheduler := fun _ => if housekeeperEnabled then Select else Stopped;
  connections_closed := false
|}.

(** ** Changes of one part of the state *)

Definition set_main (pc : MainPc) (s : System) : System := {|
  main_pc := pc; CancelChan := CancelChan s; Started := Started s; Finished := Finished s;
  cancelled := cancelled s; CriticalWaitGroup := CriticalWaitGroup s; WaitGroup := WaitGroup s;
  backgroundTaskLocker := backgroundTaskLocker s; server := server s; sender := sender s; entries := entries s;
  scheduler := scheduler s; connections_closed := connections_closed s |}.

Definition set_signal (b : bool) (s : System) : System := {|
  main_pc := main_pc s; CancelChan := b; Started := Started s; Finished := Finished s;
  cancelled := cancelled s; CriticalWaitGroup := CriticalWaitGroup s; WaitGroup := WaitGroup s;
  backgroundTaskLocker := backgroundTaskLocker s; server := server s; sender := sender s; entries := entries s;
  scheduler := scheduler s; connections_closed := connections_closed s |}.

Definition set_scheduler (t : Task) (pc : SchedulerPc) (s : System) : System := {|
  main_pc := main_pc s; CancelChan := CancelChan s; Started := Started s; Finished := Finished s;
  cancelled := cancelled s; CriticalWaitGroup := CriticalWaitGroup s; WaitGroup := WaitGroup s;
  backgroundTaskLocker := backgroundTaskLocker s; server := server s; sender := sender s; entries := entries s;
  scheduler := fun t' => if decide (t' = t) then pc else scheduler s t';
  connections_closed := connections_closed s |}.

Definition set_groups (critical others : Group) (s : System) : System := {|
  main_pc := main_pc s; CancelChan := CancelChan s; Started := Started s; Finished := Finished s;
  cancelled := cancelled s; CriticalWaitGroup := critical; WaitGroup := others;
  backgroundTaskLocker := backgroundTaskLocker s; server := server s; sender := sender s; entries := entries s;
  scheduler := scheduler s; connections_closed := connections_closed s |}.

Definition set_locker (b : bool) (s : System) : System := {|
  main_pc := main_pc s; CancelChan := CancelChan s; Started := Started s; Finished := Finished s;
  cancelled := cancelled s; CriticalWaitGroup := CriticalWaitGroup s; WaitGroup := WaitGroup s;
  backgroundTaskLocker := b; server := server s; sender := sender s; entries := entries s;
  scheduler := scheduler s; connections_closed := connections_closed s |}.

Definition set_server (srv : option Server) (s : System) : System := {|
  main_pc := main_pc s; CancelChan := CancelChan s; Started := Started s; Finished := Finished s;
  cancelled := cancelled s; CriticalWaitGroup := CriticalWaitGroup s; WaitGroup := WaitGroup s;
  backgroundTaskLocker := backgroundTaskLocker s; server := srv; sender := sender s; entries := entries s;
  scheduler := scheduler s; connections_closed := connections_closed s |}.

Definition set_sender (pc : SenderPc) (s : System) : System := {|
  main_pc := main_pc s; CancelChan := CancelChan s; Started := Started s; Finished := Finished s;
  cancelled := cancelled s; CriticalWaitGroup := CriticalWaitGroup s; WaitGroup := WaitGroup s;
  backgroundTaskLocker := backgroundTaskLocker s; server := server s; sender := pc; entries := entries s;
  scheduler := scheduler s; connections_closed := connections_closed s |}.

Definition set_entries (c : EntriesChannel) (s : System) : System := {|
  main_pc := main_pc s; CancelChan := CancelChan s; Started := Started s; Finished := Finished s;
  cancelled := cancelled s; CriticalWaitGroup := CriticalWaitGroup s; WaitGroup := WaitGroup s;
  backgroundTaskLocker := backgroundTaskLocker s; server := server s; sender := sender s; entries := c;
  scheduler := scheduler s; connections_closed := connections_closed s |}.

Definition group (critical : bool) (s : System) : Group :=
  if critical then CriticalWaitGroup s else WaitGroup s.

Definition set_group (critical : bool) (g : Group) (s : System) : System :=
  if critical then set_groups g (WaitGroup s) s else set_groups (CriticalWaitGroup s) g s.

(** ** Wait groups

    The steps are the atomic accesses of [sync.WaitGroup] to its state. *)

Definition negative_counter : string := "sync: negative WaitGroup counter".
Definition group_misuse : string := "sync: WaitGroup misuse: Add called concurrently with Wait".
Definition group_reused : string := "sync: WaitGroup is reused before previous Wait has returned".

(** [Add(n)]; [Done] is [Add(-1)].  [true]: the counter has come to zero while
    [main] waits, and the goroutine goes on to wake it. *)
Definition group_add (n : Z) (g : Group) : outcome (Group * bool) :=
  let v := counter g + n in
  if v <? 0 then Panic negative_counter
  else if waiting g && (0 <? n) && (v =? n) then Panic group_misuse
  else Ret ({| counter := v; waiting := waiting g; released := released g |}, waiting g && (v =? 0)).

(** The end of such an [Add]: when the state is still the one it left, those
    waiting are reset and released. *)
Definition group_wake (g : Group) : outcome Group :=
  if waiting g && (counter g =? 0) then Ret {| counter := 0; waiting := false; released := true |}
  else Panic group_misuse.

(** [Wait]: it returns at once when the counter is zero ([None]); otherwise
    the caller is counted as waiting, and sleeps. *)
Definition group_wait (g : Group) : option Group :=
  if counter g =? 0 then None
  else Some {| counter := counter g; waiting := true; released := released g |}.

(** The sleeper goes on once it was released, and checks that the group was
    not used again meanwhile. *)
Definition group_awake (g : Group) : option (outcome Group) :=
  if released g then
    Some (if (counter g =? 0) && negb (waiting g)
          then Ret {| counter := 0; waiting := false; released := false |}
          else Panic group_reused)
  else None.

(** ** Channels and the lock *)

Definition Ongoing (s : System) : bool := Started s.
Definition HasFinished (s : System) : bool := Finished s.

Definition close_panic {A} : outcome A := Panic "close of closed channel".

(** Closing [Started] wakes the schedulers that are blocked in their
    [select], with the case of the channel. *)
Definition Start (s : System) : outcome System :=
  if Started s then close_panic
  else Ret {|
    main_pc := main_pc s; CancelChan := CancelChan s; Started := true; Finished := Finished s;
    cancelled := cancelled s; CriticalWaitGroup := CriticalWaitGroup s; WaitGroup := WaitGroup s;
    backgroundTaskLocker := backgroundTaskLocker s; server := server s; sender := sender s; entries := entries s;
    scheduler := fun t => match scheduler s t with Parked => Stopped | pc => pc end;
    connections_closed := connections_closed s |}.

Definition Finish (s : System) : outcome System :=
  if Finished s then close_panic
  else Ret {|
    main_pc := main_pc s; CancelChan := CancelChan s; Started := Started s; Finished := true;
    cancelled := cancelled s; CriticalWaitGroup := CriticalWaitGroup s; WaitGroup := WaitGroup s;
    backgroundTaskLocker := backgroundTaskLocker s; server := server s; sender := sender s; entries := entries s;
    scheduler := scheduler s; connections_closed := connections_closed s |}.

(** [close(a.entries)]. *)
Definition close_entries (s : System) : outcome System :=
  match entries s with
  | NotEnabled => Panic "close of nil channel"
  | EntriesOpen => Ret (set_entries EntriesClosed s)
  | EntriesClosed => close_panic
  end.

Definition send_on_closed : string := "send on closed channel".

(** [Store] of the auditor: the send on its channel. *)
Definition Store (s : System) : outcome System :=
  match entries s with
  | NotEnabled | EntriesOpen => Ret s
  | EntriesClosed => Panic send_on_closed
  end.

Definition unlock (s : System) : outcome System :=
  if backgroundTaskLocker s then Ret (set_locker false s)
  else Panic "sync: unlock of unlocked mutex".

(** ** The scheduler of a task *)

(** The cases of the [select]. *)
Inductive SelectCase := CaseAfter | CaseStarted.

(** Evaluating the [select]: a case that is ready is taken ([time.After] may
    be ready at once), and without one the scheduler blocks. *)
Definition select_enter (t : Task) (case : option SelectCase) (s : System) : option System :=
  match scheduler s t, case with
  | Select, Some CaseAfter => Some (set_scheduler t Chosen s)
  | Select, Some CaseStarted => if Started s then Some (set_scheduler t Stopped s) else None
  | Select, None => if Started s then None else Some (set_scheduler t Parked s)
  | _, _ => None
  end.

(** The delay of a scheduler that is blocked in the [select] has passed. *)
Definition select_after (t : Task) (s : System) : option System :=
  match scheduler s t with Parked => Some (set_scheduler t Chosen s) | _ => None end.

(** The statements of the case [<-time.After(duration)], one at a time.
    [None]: the scheduler is blocked, or in its [select]. *)
Definition scheduler_step (t : Task) (s : System) : option (outcome System) :=
  match scheduler s t with
  | Chosen =>
      Some (let! '(g, _) := group_add 1 (group (task_critical t) s) in
            Ret (set_scheduler t Added (set_group (task_critical t) g s)))
  | Added =>
      if task_lock t then
        if backgroundTaskLocker s then None
        else Some (Ret (set_scheduler t Running (set_locker true s)))
      else Some (Ret (set_scheduler t Running s))
  | Running => Some (Ret (set_scheduler t Ran s))
  | Ran =>
      Some (let! s' := (if task_lock t then unlock s else Ret s) in
            Ret (set_scheduler t Unlocked s'))
  | Unlocked =>
      Some (let! '(g, wakes) := group_add (-1) (group (task_critical t) s) in
            Ret (set_scheduler t (if wakes : bool then Waking else Select)
                   (set_group (task_critical t) g s)))
  | Waking =>
      Some (let! g := group_wake (group (task_critical t) s) in
            Ret (set_scheduler t Select (set_group (task_critical t) g s)))
  | _ => None
  end.

(** The function of a task that is running stores an entry in the audit: all
    but the one of the metrics do. *)
Definition task_stores (t : Task) (s : System) : option (outcome System) :=
  match t, scheduler s t with
  | METRICS, _ => None
  | _, Running => Some (Store s)
  | _, _ => None
  end.

(** ** The sender of the audit *)

Definition sender_step (s : System) : option (outcome System) :=
  match sender s with
  | SenderEntered =>
      Some (let! '(g, _) := group_add 1 (group false s) in
            Ret (set_sender SenderLoop (set_group false g s)))
  | SenderLoop =>
      if cancelled s then Some (let! s' := close_entries s in Ret (set_sender SenderLast s')) else None
  | SenderLast =>
      Some (let! '(g, wakes) := group_add (-1) (group false s) in
            Ret (set_sender (if wakes : bool then SenderWaking else SenderReturned) (set_group false g s)))
  | SenderWaking =>
      Some (let! g := group_wake (group false s) in
            Ret (set_sender SenderReturned (set_group false g s)))
  | SenderReturned => None
  end.

(** ** The calls of the server *)

Definition call_arrives (s : System) : option System :=
  match server s with
  | Some srv =>
      if accepting srv then Some (set_server (Some {| accepting := true; calls := S (calls srv) |}) s)
      else None
  | None => None
  end.

Definition call_returns (s : System) : option System :=
  match server s with
  | Some {| accepting := a; calls := S n |} => Some (set_server (Some {| accepting := a; calls := n |}) s)
  | _ => None
  end.

(** A call that is being served stores an entry in the audit. *)
Definition call_stores (s : System) : option (outcome System) :=
  match server s with
  | Some {| calls := S _ |} => Some (Store s)
  | _ => None
  end.

(** ** [main] and [PerformShutdown] *)

Definition GracefulStop (srv : Server) : Server := {| accepting := false; calls := calls srv |}.

Definition set_cancelled (s : System) : System := {|
  main_pc := main_pc s; CancelChan := CancelChan s; Started := Started s; Finished := Finished s;
  cancelled := true; CriticalWaitGroup := CriticalWaitGroup s; WaitGroup := WaitGroup s;
  backgroundTaskLocker := backgroundTaskLocker s; server := server s; sender := sender s; entries := entries s;
  scheduler := scheduler s; connections_closed := connections_closed s |}.

Definition set_connections_closed (s : System) : System := {|
  main_pc := main_pc s; CancelChan := CancelChan s; Started := Started s; Finished := Finished s;
  cancelled := cancelled s; CriticalWaitGroup := CriticalWaitGroup s; WaitGroup := WaitGroup s;
  backgroundTaskLocker := backgroundTaskLocker s; server := server s; sender := sender s; entries := entries s;
  scheduler := scheduler s; connections_closed := true |}.

(** [Wait] on a group: straight on, or to sleep. *)
Definition main_wait (critical : bool) (asleep next : MainPc) (s : System) : option (outcome System) :=
  Some (Ret (match group_wait (group critical s) with
             | None => set_main next s
             | Some g => set_main asleep (set_group critical g s)
             end)).

Definition main_awake (critical : bool) (next : MainPc) (s : System) : option (outcome System) :=
  match group_awake (group critical s) with
  | None => None
  | Some r => Some (let! g := r in Ret (set_main next (set_group critical g s)))
  end.

Definition main_step (s : System) : option (outcome System) :=
  match main_pc s with
  | MCancelChan => if CancelChan s then Some (Ret (set_main MStart (set_signal false s))) else None
  | MStart => Some (let! s' := Start s in Ret (set_main MGracefulStop s'))
  | MGracefulStop =>
      match server s with
      | Some srv => Some (Ret (set_main MStopping (set_server (Some (GracefulStop srv)) s)))
      | None => Some (Ret (set_main MCriticalWait s))
      end
  | MStopping =>
      match server s with
      | Some {| calls := S _ |} => None
      | _ => Some (Ret (set_main MCriticalWait s))
      end
  | MCriticalWait => main_wait true MCriticalAsleep MCancel s
  | MCriticalAsleep => main_awake true MCancel s
  | MCancel => Some (Ret (set_main MWait (set_cancelled s)))
  | MWait => main_wait false MAsleep MFinish s
  | MAsleep => main_awake false MFinish s
  | MFinish => Some (let! s' := Finish s in Ret (set_main MDefer s'))
  | MDefer => Some (Ret (set_main MReturned (set_connections_closed s)))
  | MReturned => None
  end.

(** ** Runs *)

Inductive Event :=
  (** the operating system sends a signal; it is dropped when one is pending *)
  | EvSignal
  | EvMain
  | EvSelect (t : Task) (case : option SelectCase)
  | EvAfter (t : Task)
  | EvScheduler (t : Task)
  (** the function of the task stores an entry in the audit *)
  | EvStore (t : Task)
  | EvSender
  | EvCallArrives
  | EvCallStore
  | EvCallReturns.

(** [None]: the event is not possible; nothing happens once [main] has
    returned, since the process has ended. *)
Definition exec (ev : Event) (s : System) : option (outcome System) :=
  if decide (main_pc s = MReturned) then None
  else match ev with
       | EvSignal => Some (Ret (set_signal true s))
       | EvMain => main_step s
       | EvSelect t case => Ret <$> select_enter t case s
       | EvAfter t => Ret <$> select_after t s
       | EvScheduler t => scheduler_step t s
       | EvStore t => task_stores t s
       | EvSender => sender_step s
       | EvCallArrives => Ret <$> call_arrives s
       | EvCallStore => call_stores s
       | EvCallReturns => Ret <$> call_returns s
       end.

(** A run of events; [None] when one of them is not possible. *)
Fixpoint run (evs : list Event) (s : System) : option (outcome System) :=
  match evs with
  | [] => Some (Ret s)
  | ev :: evs' =>
      match exec ev s with
      | Some (Ret s') => run evs' s'
      | r => r
      end
  end.

(** The states of the process, for some configuration. *)
Inductive reachable : System -> Prop :=
  | reachable_initial grpc housekeeper audit : reachable (initial grpc housekeeper audit)
  | reachable_step s ev s' : reachable s -> exec ev s = Some (Ret s') -> reachable s'.
