(* ===== verification/LifecycleProps.v ===== *)
(** * Properties of the life cycle of the process

    The invariant of the machine of [Lifecycle.v], the mutual exclusion of the
    background tasks, the panics that can end the process and what has ended
    at each point of the shutdown, and that the shutdown can come to its
    end. *)

From S2P Require Import Prelude Lifecycle.
#[local] Open Scope string_scope.
#[local] Open Scope list_scope.
#[local] Open Scope Z_scope.

(** ** Sums over the tasks *)

Definition sum_tasks (f : Task -> Z) : Z :=
  f UNLOCK + f TIMEOUT + f METRICS + f RECOVERY + f MAX_ELEMENTS + f TTL.

Lemma sum_tasks_update f f' t :
  (forall t', t' <> t -> f' t' = f t') -> sum_tasks f' = sum_tasks f + f' t - f t.
Proof.
  intros H. unfold sum_tasks.
  destruct t; rewrite ?(H UNLOCK), ?(H TIMEOUT), ?(H METRICS), ?(H RECOVERY), ?(H MAX_ELEMENTS), ?(H TTL)
    by discriminate; lia.
Qed.

Lemma sum_tasks_ext f f' : (forall t, f' t = f t) -> sum_tasks f' = sum_tasks f.
Proof. intros H. unfold sum_tasks. rewrite !H. done. Qed.

Lemma sum_tasks_two f t t' :
  (forall t, 0 <= f t) -> t <> t' -> f t + f t' <= sum_tasks f.
Proof.
  intros H Hne. unfold sum_tasks.
  pose proof (H UNLOCK); pose proof (H TIMEOUT); pose proof (H METRICS); pose proof (H RECOVERY);
    pose proof (H MAX_ELEMENTS); pose proof (H TTL).
  destruct t, t'; try done; lia.
Qed.

Lemma sum_tasks_one f t : (forall t, 0 <= f t) -> f t <= sum_tasks f.
Proof.
  intros H. unfold sum_tasks.
  pose proof (H UNLOCK); pose proof (H TIMEOUT); pose proof (H METRICS); pose proof (H RECOVERY);
    pose proof (H MAX_ELEMENTS); pose proof (H TTL). destruct t; lia.
Qed.

Lemma sum_tasks_zero f : (forall t, f t = 0) -> sum_tasks f = 0.
Proof. intros H. unfold sum_tasks. rewrite !H. done. Qed.

Lemma sum_tasks_positive f :
  (forall t, 0 <= f t) -> 0 < sum_tasks f -> exists t, 0 < f t.
Proof.
  intros H Hs. unfold sum_tasks in Hs.
  pose proof (H UNLOCK); pose proof (H TIMEOUT); pose proof (H METRICS); pose proof (H RECOVERY);
    pose proof (H MAX_ELEMENTS); pose proof (H TTL).
  destruct (decide (0 < f UNLOCK)), (decide (0 < f TIMEOUT)), (decide (0 < f METRICS)),
    (decide (0 < f RECOVERY)), (decide (0 < f MAX_ELEMENTS)), (decide (0 < f TTL)); eauto; lia.
Qed.

(** ** Wait groups *)

(** The waiter of the group is to be woken. *)
Definition wake_due (g : Group) : Z := Z.b2z (waiting g && (counter g =? 0)).

(** How many are waiting for the group, or released and not on their way. *)
Definition sleepers (g : Group) : Z := Z.b2z (waiting g) + Z.b2z (released g).

(** [dr] more goroutines are registered, [dw] more are waking the sleeper, and
    the sleeper is as before. *)
Definition group_moves (g g' : Group) (dr dw : Z) : Prop :=
  counter g' = counter g + dr /\ wake_due g' = wake_due g + dw /\ sleepers g' = sleepers g.

Lemma group_moves_refl g : group_moves g g 0 0.
Proof. unfold group_moves. lia. Qed.

Lemma wake_due_counted g : wake_due g <> 0 -> waiting g = true /\ counter g = 0.
Proof. unfold wake_due. destruct (waiting g); cbn; [|done]. by destruct (Z.eqb_spec (counter g) 0). Qed.

(** [Add(1)] panics while the sleeper is being woken, and only then. *)
Lemma group_Add g :
  0 <= counter g ->
  if decide (wake_due g = 0)
  then exists g', group_add 1 g = Ret (g', false) /\ group_moves g g' 1 0
  else group_add 1 g = Panic group_misuse.
Proof.
  intros Hc. unfold group_add. rewrite (proj2 (Z.ltb_ge _ _)) by lia. case_decide as Hw.
  - assert (E : waiting g && (0 <? 1) && (counter g + 1 =? 1) = false).
    { unfold wake_due in Hw. rewrite andb_true_r. replace (counter g + 1 =? 1) with (counter g =? 0) by lia.
      by destruct (waiting g && _). }
    assert (E' : waiting g && (counter g + 1 =? 0) = false) by (apply andb_false_intro2; lia).
    rewrite E, E'. eexists. split; [done|]. unfold group_moves, sleepers. rewrite Hw.
    unfold wake_due. cbn [counter waiting released]. rewrite E'. done.
  - apply wake_due_counted in Hw as [-> ->]. done.
Qed.

(** [Done] of a goroutine that is registered. *)
Lemma group_Done g :
  1 <= counter g ->
  exists g' wakes, group_add (-1) g = Ret (g', wakes) /\ group_moves g g' (-1) (Z.b2z wakes).
Proof.
  intros Hc. unfold group_add. rewrite (proj2 (Z.ltb_ge _ _)) by lia. rewrite andb_false_r. cbn.
  do 2 eexists. split; [done|]. unfold group_moves, wake_due, sleepers. cbn.
  rewrite (proj2 (Z.eqb_neq (counter g) 0)), andb_false_r by lia. cbn. lia.
Qed.

Lemma group_Wake g :
  wake_due g <> 0 -> sleepers g <= 1 -> exists g', group_wake g = Ret g' /\ group_moves g g' 0 (-1).
Proof.
  intros Hw Hs. apply wake_due_counted in Hw as [Ew Ec]. unfold group_wake. rewrite Ew, Ec. cbn.
  eexists. split; [done|]. unfold group_moves, wake_due, sleepers in *. rewrite Ew, Ec in *. cbn in *.
  destruct (released g); cbn in *; lia.
Qed.

(** ** Invariant *)

(** Between [Add] and [Done]. *)
Definition registered (pc : SchedulerPc) : bool :=
  match pc with Added | Running | Ran | Unlocked => true | _ => false end.

Definition is_waking (pc : SchedulerPc) : bool :=
  match pc with Waking => true | _ => false end.

(** Between [Lock] and [Unlock]. *)
Definition in_section (pc : SchedulerPc) : bool :=
  match pc with Running | Ran => true | _ => false end.

Definition sender_registered (pc : SenderPc) : bool :=
  match pc with SenderLoop | SenderLast => true | _ => false end.

Definition sender_waking (pc : SenderPc) : bool :=
  match pc with SenderWaking => true | _ => false end.

(** The tasks of a group whose scheduler is at a place. *)
Definition task_at (at_ : SchedulerPc -> bool) (critical : bool) (s : System) (t : Task) : Z :=
  Z.b2z (Bool.eqb (task_critical t) critical && at_ (scheduler s t)).

Definition task_holds (s : System) (t : Task) : Z :=
  Z.b2z (task_lock t && in_section (scheduler s t)).

(** The goroutines registered with a group, and those that are waking it. *)
Definition registered_in (critical : bool) (s : System) : Z :=
  sum_tasks (task_at registered critical s) +
  if critical then 0 else Z.b2z (sender_registered (sender s)).

Definition waking_in (critical : bool) (s : System) : Z :=
  sum_tasks (task_at is_waking critical s) +
  if critical then 0 else Z.b2z (sender_waking (sender s)).

(** [main] sleeps in the [Wait] of the group. *)
Definition main_asleep (critical : bool) (pc : MainPc) : bool :=
  match pc with MCriticalAsleep => critical | MAsleep => negb critical | _ => false end.

(** How far [main] is. *)
Definition main_rank (pc : MainPc) : Z :=
  match pc with
  | MCancelChan => 0 | MStart => 1 | MGracefulStop => 2 | MStopping => 3 | MCriticalWait => 4
  | MCriticalAsleep => 5 | MCancel => 6 | MWait => 7 | MAsleep => 8 | MFinish => 9 | MDefer => 10
  | MReturned => 11
  end.

Definition server_stopped (rank : Z) (srv : option Server) : Prop :=
  match srv with
  | Some srv => (2 < rank -> accepting srv = false) /\ (3 < rank -> calls srv = 0%nat)
  | None => True
  end.

(** The channel of the audit is open until the sender leaves its loop, which
    it does once the context is cancelled. *)
Definition entries_follow (s : System) : Prop :=
  match sender s with
  | SenderEntered | SenderLoop => entries s = EntriesOpen
  | SenderLast | SenderWaking => entries s = EntriesClosed
  | SenderReturned => entries s <> EntriesOpen
  end /\ (entries s = EntriesClosed -> cancelled s = true).

Record lifecycle_inv (s : System) : Prop := {
  inv_counter : forall critical, counter (group critical s) = registered_in critical s;
  inv_waking : forall critical, wake_due (group critical s) = waking_in critical s;
  inv_asleep : forall critical, sleepers (group critical s) = Z.b2z (main_asleep critical (main_pc s));
  inv_locker : Z.b2z (backgroundTaskLocker s) = sum_tasks (task_holds s);
  inv_Started : Started s = (1 <? main_rank (main_pc s));
  inv_Finished : Finished s = (9 <? main_rank (main_pc s));
  inv_cancelled : cancelled s = (6 <? main_rank (main_pc s));
  inv_parked : forall t, Started s = true -> scheduler s t <> Parked;
  inv_server : server_stopped (main_rank (main_pc s)) (server s);
  inv_entries : entries_follow s
}.

Lemma task_at_nonneg at_ critical s t : 0 <= task_at at_ critical s t.
Proof. unfold task_at. destruct (_ && _); cbn; lia. Qed.

Lemma task_holds_nonneg s t : 0 <= task_holds s t.
Proof. unfold task_holds. destruct (_ && _); cbn; lia. Qed.

Lemma sum_at_nonneg at_ critical s : 0 <= sum_tasks (task_at at_ critical s).
Proof.
  pose proof (sum_tasks_one (task_at at_ critical s) UNLOCK (task_at_nonneg at_ critical s)).
  pose proof (task_at_nonneg at_ critical s UNLOCK). lia.
Qed.

Lemma task_at_in at_ s t : task_at at_ (task_critical t) s t = Z.b2z (at_ (scheduler s t)).
Proof. unfold task_at. by destruct (task_critical t). Qed.

(** The sums after scheduler [t] has moved to [pc]. *)
Definition moves (t : Task) (pc : SchedulerPc) (s s' : System) : Prop :=
  scheduler s' t = pc /\ forall t', t' <> t -> scheduler s' t' = scheduler s t'.

Lemma sum_at_moves at_ critical t pc s s' :
  moves t pc s s' ->
  sum_tasks (task_at at_ critical s') =
  sum_tasks (task_at at_ critical s) +
  if Bool.eqb (task_critical t) critical then Z.b2z (at_ pc) - Z.b2z (at_ (scheduler s t)) else 0.
Proof.
  intros [Ht Hne]. rewrite (sum_tasks_update (task_at at_ critical s) _ t).
  - unfold task_at at 2 3. rewrite Ht. destruct (Bool.eqb _ _); cbn; lia.
  - intros t' Ht'. unfold task_at. by rewrite Hne.
Qed.

Lemma sum_holds_moves t pc s s' :
  moves t pc s s' ->
  sum_tasks (task_holds s') =
  sum_tasks (task_holds s) + Z.b2z (task_lock t && in_section pc)
  - Z.b2z (task_lock t && in_section (scheduler s t)).
Proof.
  intros [Ht Hne]. rewrite (sum_tasks_update (task_holds s) _ t).
  - unfold task_holds at 2 3. by rewrite Ht.
  - intros t' Ht'. unfold task_holds. by rewrite Hne.
Qed.

Lemma initial_inv grpc housekeeper audit : lifecycle_inv (initial grpc housekeeper audit).
Proof. split; destruct grpc, housekeeper, audit; try done; by intros []. Qed.

(** A step of a scheduler leaves [main], the server, the sender and the
    channel alone. *)
Definition same_frame (s s' : System) : Prop :=
  main_pc s' = main_pc s /\ Started s' = Started s /\ Finished s' = Finished s /\
  cancelled s' = cancelled s /\ server s' = server s /\ sender s' = sender s /\ entries s' = entries s.

(** It keeps the invariant when it changes the groups and the lock as much as
    it changes what the scheduler is registered for, wakes and holds. *)
Lemma moves_inv t pc s s' :
  lifecycle_inv s -> same_frame s s' -> moves t pc s s' -> (Started s = true -> pc <> Parked) ->
  (forall critical, if Bool.eqb (task_critical t) critical
    then group_moves (group critical s) (group critical s')
           (Z.b2z (registered pc) - Z.b2z (registered (scheduler s t)))
           (Z.b2z (is_waking pc) - Z.b2z (is_waking (scheduler s t)))
    else group critical s' = group critical s) ->
  Z.b2z (backgroundTaskLocker s') =
    Z.b2z (backgroundTaskLocker s) + Z.b2z (task_lock t && in_section pc)
    - Z.b2z (task_lock t && in_section (scheduler s t)) ->
  lifecycle_inv s'.
Proof.
  intros [H1 H2 H3 H4 ? ? ? Hp ? He] (Em & Es & Ef & Ec & Esrv & Esnd & Een) Hm Hpc Hg Hl.
  split; rewrite ?Em, ?Es, ?Ef, ?Ec, ?Esrv; try done.
  - intros c. specialize (H1 c). specialize (Hg c). unfold registered_in in *.
    rewrite Esnd, (sum_at_moves registered c t pc s s' Hm).
    destruct (Bool.eqb _ _); [destruct Hg as [-> _]|rewrite Hg]; lia.
  - intros c. specialize (H2 c). specialize (Hg c). unfold waking_in in *.
    rewrite Esnd, (sum_at_moves is_waking c t pc s s' Hm).
    destruct (Bool.eqb _ _); [destruct Hg as (_ & -> & _)|rewrite Hg]; lia.
  - intros c. specialize (H3 c). specialize (Hg c).
    destruct (Bool.eqb _ _); [destruct Hg as (_ & _ & ->)|rewrite Hg]; done.
  - rewrite (sum_holds_moves t pc s s' Hm). lia.
  - intros t' Hst. destruct Hm as [Ht Hne].
    destruct (decide (t' = t)) as [->|Hn]; [rewrite Ht; by apply Hpc|rewrite Hne by done; by apply Hp].
  - unfold entries_follow. by rewrite Esnd, Een, Ec.
Qed.

Lemma moves_set t pc s s' :
  (forall t', scheduler s' t' = scheduler s t') -> moves t pc s (set_scheduler t pc s').
Proof.
  intros H. split; cbn; [by rewrite decide_True|]. intros t' Hne. by rewrite decide_False, H.
Qed.

(** A scheduler that is not registered may go to any such place. *)
Lemma select_inv s t pc :
  lifecycle_inv s -> registered (scheduler s t) = false -> is_waking (scheduler s t) = false ->
  registered pc = false -> is_waking pc = false ->
  (Started s = true -> pc <> Parked) -> lifecycle_inv (set_scheduler t pc s).
Proof.
  intros Hs Hr Hw Hr' Hw' Hp.
  assert (Hi : forall pc, registered pc = false -> in_section pc = false) by (intros []; done).
  apply (moves_inv t pc s); [done|by repeat split|by apply moves_set|done| |].
  - intros critical. rewrite Hr, Hr', Hw, Hw'. destruct (Bool.eqb _ _); [apply group_moves_refl|done].
  - rewrite !Hi, !andb_false_r by done. cbn. lia.
Qed.

(** A scheduler that is registered is counted, one that wakes a group finds
    it waiting, and one in its section holds the lock. *)
Lemma registered_counted s t :
  lifecycle_inv s -> registered (scheduler s t) = true -> 1 <= counter (group (task_critical t) s).
Proof.
  intros Hs Hr. rewrite (inv_counter s Hs). unfold registered_in.
  pose proof (sum_tasks_one _ t (task_at_nonneg registered (task_critical t) s)) as H.
  rewrite task_at_in, Hr in H. cbn in H. destruct (task_critical t), (sender_registered (sender s)); cbn; lia.
Qed.

Lemma waking_due s t :
  lifecycle_inv s -> is_waking (scheduler s t) = true -> wake_due (group (task_critical t) s) <> 0.
Proof.
  intros Hs Hr. rewrite (inv_waking s Hs). unfold waking_in.
  pose proof (sum_tasks_one _ t (task_at_nonneg is_waking (task_critical t) s)) as H.
  rewrite task_at_in, Hr in H. cbn in H. destruct (task_critical t), (sender_waking (sender s)); cbn; lia.
Qed.

Lemma sleepers_one s critical : lifecycle_inv s -> sleepers (group critical s) <= 1.
Proof. intros Hs. rewrite (inv_asleep s Hs). destruct (main_asleep _ _); cbn; lia. Qed.

Lemma holder_counted s t :
  lifecycle_inv s -> task_lock t = true -> in_section (scheduler s t) = true ->
  backgroundTaskLocker s = true /\ forall t', t' <> t -> task_holds s t' = 0.
Proof.
  intros Hs Hl Hi. pose proof (inv_locker s Hs) as H3.
  assert (Ht : task_holds s t = 1) by (unfold task_holds; by rewrite Hl, Hi).
  pose proof (task_holds_nonneg s) as Hn. pose proof (sum_tasks_one _ t Hn). split.
  - destruct (backgroundTaskLocker s); [done|cbn in H3; lia].
  - intros t' Hne. pose proof (sum_tasks_two _ t t' Hn ltac:(congruence)). specialize (Hn t').
    destruct (backgroundTaskLocker s); cbn in H3; lia.
Qed.

Lemma counter_nonneg s critical : lifecycle_inv s -> 0 <= counter (group critical s).
Proof.
  intros Hs. rewrite (inv_counter s Hs). unfold registered_in. pose proof (sum_at_nonneg registered critical s).
  destruct critical, (sender_registered (sender s)); cbn; lia.
Qed.

(** ** Steps and panics *)

#[local] Arguments group : simpl never.
#[local] Arguments set_group : simpl never.

(** How a step of the process can panic: a task that is still running stores
    an entry after the sender closed the channel; [main] wakes and finds that
    a task or the sender has registered after it was released; or a task or
    the sender registers while [main] is being woken. *)
Inductive shutdown_panic (s : System) : Event -> string -> Prop :=
  | store_panics t :
      t <> METRICS -> scheduler s t = Running -> entries s = EntriesClosed -> cancelled s = true ->
      shutdown_panic s (EvStore t) send_on_closed
  | reused_panics critical :
      main_asleep critical (main_pc s) = true -> released (group critical s) = true ->
      0 < counter (group critical s) ->
      shutdown_panic s EvMain group_reused
  | late_task_panics t :
      scheduler s t = Chosen -> task_critical t = false -> main_pc s = MAsleep ->
      wake_due (WaitGroup s) <> 0 ->
      shutdown_panic s (EvScheduler t) group_misuse
  | late_sender_panics :
      sender s = SenderEntered -> main_pc s = MAsleep -> wake_due (WaitGroup s) <> 0 ->
      shutdown_panic s EvSender group_misuse.

(** A step keeps the invariant or panics in one of these ways. *)
Definition step_ok (s : System) (ev : Event) (o : outcome System) : Prop :=
  match o with Ret s' => lifecycle_inv s' | Panic m => shutdown_panic s ev m end.

Lemma due_asleep s critical :
  lifecycle_inv s -> wake_due (group critical s) <> 0 -> main_asleep critical (main_pc s) = true.
Proof.
  intros Hs [Hw _]%wake_due_counted. pose proof (inv_asleep s Hs critical) as H. unfold sleepers in H.
  rewrite Hw in H. destruct (main_asleep _ _); [done|]. destruct (released _); cbn in H; lia.
Qed.

(** The one task of the critical group cannot find it being woken when it
    registers: it would have to wake it. *)
Lemma late_not_critical s t :
  lifecycle_inv s -> scheduler s t = Chosen -> wake_due (group (task_critical t) s) <> 0 ->
  task_critical t = false.
Proof.
  intros Hs Hpc Hw. destruct t; try done. exfalso. apply Hw. cbn [task_critical].
  rewrite (inv_waking s Hs). unfold waking_in, sum_tasks, task_at. cbn. by rewrite Hpc.
Qed.

Lemma group_set c c' g s :
  group c (set_group c' g s) = if Bool.eqb c' c then g else group c s.
Proof. by destruct c, c'. Qed.

Lemma set_group_frame c g s : same_frame s (set_group c g s).
Proof. destruct c; by repeat split. Qed.

(** Scheduler [t] goes to [pc], with its group changed accordingly. *)
Lemma group_step_inv s t pc g :
  lifecycle_inv s -> pc <> Parked -> in_section pc = false -> in_section (scheduler s t) = false ->
  group_moves (group (task_critical t) s) g
    (Z.b2z (registered pc) - Z.b2z (registered (scheduler s t)))
    (Z.b2z (is_waking pc) - Z.b2z (is_waking (scheduler s t))) ->
  lifecycle_inv (set_scheduler t pc (set_group (task_critical t) g s)).
Proof.
  intros Hs Hpc Hi Hi' Hg.
  apply (moves_inv t pc s); [done|destruct (task_critical t); by repeat split| |done| |].
  - apply moves_set. by destruct (task_critical t).
  - intros c. change (group c (set_scheduler t pc ?x)) with (group c x). rewrite group_set.
    destruct (Bool.eqb (task_critical t) c) eqn:E; [|done]. apply Bool.eqb_prop in E as <-. done.
  - rewrite Hi, Hi', !andb_false_r. unfold set_group. destruct (task_critical t); cbn; lia.
Qed.

(** Scheduler [t] goes to [pc], and locks or unlocks. *)
Lemma lock_step_inv s t pc b :
  lifecycle_inv s -> pc <> Parked -> registered (scheduler s t) = registered pc ->
  is_waking (scheduler s t) = is_waking pc ->
  Z.b2z b = Z.b2z (backgroundTaskLocker s) + Z.b2z (task_lock t && in_section pc)
    - Z.b2z (task_lock t && in_section (scheduler s t)) ->
  lifecycle_inv (set_scheduler t pc (set_locker b s)).
Proof.
  intros Hs Hpc Hr Hw Hb.
  apply (moves_inv t pc s); [done|by repeat split|by apply moves_set|done| |done].
  intros c. rewrite Hr, Hw, !Z.sub_diag. destruct (Bool.eqb _ _); [apply group_moves_refl|done].
Qed.

Lemma scheduler_step_ok s t o :
  lifecycle_inv s -> scheduler_step t s = Some o -> step_ok s (EvScheduler t) o.
Proof.
  intros Hs Hstep. pose proof (registered_counted s t Hs) as Hreg.
  pose proof (waking_due s t Hs) as Hdue. pose proof (holder_counted s t Hs) as Hhold.
  unfold scheduler_step in Hstep. destruct (scheduler s t) eqn:Epc; try discriminate; cbn in Hreg, Hdue, Hhold.
  - injection Hstep as <-.
    pose proof (group_Add _ (counter_nonneg s (task_critical t) Hs)) as H. case_decide as Hw.
    + destruct H as (g & -> & Hg). cbn. apply group_step_inv; rewrite ?Epc; done.
    + rewrite H. cbn. pose proof (late_not_critical s t Hs Epc Hw) as Ht. rewrite Ht in Hw.
      pose proof (due_asleep s false Hs Hw) as Hm. constructor; try done. by destruct (main_pc s).
  - destruct (task_lock t) eqn:El; [destruct (backgroundTaskLocker s) eqn:Eb; [discriminate|]|]; injection Hstep as <-; cbn.
    + apply lock_step_inv; rewrite ?Epc, ?El, ?Eb; done.
    + apply (moves_inv t Running s); [done|by repeat split|by apply moves_set|done| |]; rewrite Epc.
      * intros c. destruct (Bool.eqb _ _); [apply group_moves_refl|done].
      * rewrite El. cbn. lia.
  - injection Hstep as <-. cbn. apply (moves_inv t Ran s); [done|by repeat split|by apply moves_set|done| |]; rewrite Epc.
    + intros c. destruct (Bool.eqb _ _); [apply group_moves_refl|done].
    + cbn. lia.
  - injection Hstep as <-. destruct (task_lock t) eqn:El.
    + destruct Hhold as [Hb _]; [done..|]. unfold unlock. rewrite Hb. cbn.
      apply lock_step_inv; rewrite ?Epc, ?El, ?Hb; done.
    + cbn. apply (moves_inv t Unlocked s); [done|by repeat split|by apply moves_set|done| |]; rewrite Epc.
      * intros c. destruct (Bool.eqb _ _); [apply group_moves_refl|done].
      * rewrite El. cbn. lia.
  - injection Hstep as <-. destruct (group_Done _ (Hreg eq_refl)) as (g & wakes & -> & Hg). cbn.
    apply group_step_inv; rewrite ?Epc; destruct wakes; done.
  - injection Hstep as <-. destruct (group_Wake _ (Hdue eq_refl) (sleepers_one s _ Hs)) as (g & -> & Hg). cbn.
    apply group_step_inv; rewrite ?Epc; done.
Qed.

(** The sender goes to [pc], with its group and its channel changed. *)
Lemma sender_moves_inv s pc g c :
  lifecycle_inv s ->
  group_moves (group false s) g (Z.b2z (sender_registered pc) - Z.b2z (sender_registered (sender s)))
    (Z.b2z (sender_waking pc) - Z.b2z (sender_waking (sender s))) ->
  entries_follow (set_sender pc (set_entries c s)) ->
  lifecycle_inv (set_sender pc (set_group false g (set_entries c s))).
Proof.
  intros [H1 H2 H3 ? ? ? ? ? ? ?] (Hc & Hw & Hsl) He. split; try done.
  - intros critical. specialize (H1 critical). unfold registered_in in *.
    change (task_at ?a critical (set_sender _ _)) with (task_at a critical s). destruct critical; [done|].
    unfold group, set_group in *. cbn [set_groups set_sender set_entries WaitGroup sender] in *. lia.
  - intros critical. specialize (H2 critical). unfold waking_in in *.
    change (task_at ?a critical (set_sender _ _)) with (task_at a critical s). destruct critical; [done|].
    unfold group, set_group in *. cbn [set_groups set_sender set_entries WaitGroup sender] in *. lia.
  - intros critical. specialize (H3 critical). destruct critical; [done|].
    unfold group, set_group in *. cbn [set_groups set_sender set_entries WaitGroup main_pc] in *. by rewrite Hsl.
Qed.

Lemma set_entries_same s : set_entries (entries s) s = s.
Proof. by destruct s. Qed.

Lemma sender_step_ok s o :
  lifecycle_inv s -> sender_step s = Some o -> step_ok s EvSender o.
Proof.
  intros Hs Hstep. pose proof (counter_nonneg s false Hs) as Hn. pose proof (inv_entries s Hs) as [He Hcl].
  pose proof (inv_counter s Hs false) as Hreg. pose proof (inv_waking s Hs false) as Hdue.
  pose proof (sum_at_nonneg registered false s) as Hrn. pose proof (sum_at_nonneg is_waking false s) as Hwn.
  unfold registered_in in Hreg. unfold waking_in in Hdue. pose proof (fun pc g => sender_moves_inv s pc g (entries s) Hs) as Hmoves.
  rewrite set_entries_same in Hmoves. unfold entries_follow in Hmoves. cbn [set_sender sender entries cancelled] in Hmoves.
  unfold sender_step in Hstep. destruct (sender s) eqn:Epc; try discriminate; cbn in Hreg, Hdue.
  - injection Hstep as <-. pose proof (group_Add _ Hn) as H. case_decide as Hw.
    + destruct H as (g & -> & Hg). cbn [obind step_ok]. by apply Hmoves.
    + rewrite H. cbn. pose proof (due_asleep s false Hs Hw) as Hm. constructor; try done.
      by destruct (main_pc s).
  - destruct (cancelled s) eqn:Ec; [|discriminate]. injection Hstep as <-. unfold close_entries. rewrite He. cbn.
    replace (set_sender _ _) with (set_sender SenderLast (set_group false (group false s) (set_entries EntriesClosed s))) by done.
    apply sender_moves_inv; [done|rewrite Epc; apply group_moves_refl|]. unfold entries_follow. cbn. by rewrite Ec.
  - injection Hstep as <-. destruct (group_Done (group false s)) as (g & wakes & -> & Hg); [lia|]. cbn [obind step_ok].
    apply Hmoves; [by destruct wakes|]. split; [|done]. destruct wakes; [done|by rewrite He].
  - injection Hstep as <-. destruct (group_Wake (group false s)) as (g & -> & Hg);
      [lia|by apply sleepers_one|]. cbn [obind step_ok].
    apply Hmoves; [done|]. split; [by rewrite He|done].
Qed.

Lemma calls_inv s s' :
  lifecycle_inv s -> call_arrives s = Some s' \/ call_returns s = Some s' -> lifecycle_inv s'.
Proof.
  intros [? ? ? ? ? ? ? ? Hsrv ?] H. destruct H as [H|H]; revert H.
  - unfold call_arrives. destruct (server s) as [[a n]|] eqn:E; [|done]. destruct a eqn:Ea; [|done].
    intros [= <-]. split; try done. cbn in *. split; intros; [by apply Hsrv|].
    exfalso. destruct Hsrv as [Hsrv _]. discriminate Hsrv. lia.
  - unfold call_returns. destruct (server s) as [[a [|n]]|] eqn:E; try done.
    intros [= <-]. split; try done. cbn in *. split; intros; [by apply Hsrv|].
    destruct Hsrv as [_ Hsrv]. discriminate Hsrv. lia.
Qed.

(** [main] goes to [pc], with the group it waits for changed. *)
Lemma main_moves_inv s c pc g :
  lifecycle_inv s -> counter g = counter (group c s) -> wake_due g = wake_due (group c s) ->
  sleepers g = Z.b2z (main_asleep c pc) ->
  main_asleep (negb c) pc = main_asleep (negb c) (main_pc s) ->
  Started s = (1 <? main_rank pc) -> Finished s = (9 <? main_rank pc) ->
  cancelled s = (6 <? main_rank pc) -> server_stopped (main_rank pc) (server s) ->
  lifecycle_inv (set_main pc (set_group c g s)).
Proof.
  intros [H1 H2 H3 ? ? ? ? ? ? ?] Hc Hw Hsl Hother ? ? ? ?.
  assert (Hg : forall c', group c' (set_main pc (set_group c g s)) = if Bool.eqb c c' then g else group c' s)
    by (intros c'; apply group_set).
  split; try (destruct c; done).
  - intros c'. rewrite Hg. destruct (Bool.eqb c c') eqn:E; [apply Bool.eqb_prop in E as <-; rewrite Hc|];
      rewrite H1; by destruct c.
  - intros c'. rewrite Hg. destruct (Bool.eqb c c') eqn:E; [apply Bool.eqb_prop in E as <-; rewrite Hw|];
      rewrite H2; by destruct c.
  - intros c'. rewrite Hg. destruct (Bool.eqb c c') eqn:E; [apply Bool.eqb_prop in E as <-; rewrite Hsl; by destruct c|].
    rewrite H3. assert (c' = negb c) as -> by (by destruct c, c'). rewrite <- Hother. by destruct c.
Qed.

(** [main] after it has called [Wait] on a group. *)
Definition after_wait (c : bool) (asleep next : MainPc) (s : System) : System :=
  if decide (counter (group c s) = 0) then set_main next s
  else set_main asleep (set_group c {| counter := counter (group c s); waiting := true;
                                       released := released (group c s) |} s).

Lemma main_wait_inv s (c : bool) asleep next :
  lifecycle_inv s -> main_rank (main_pc s) = (if c then 4 else 7) ->
  asleep = (if c then MCriticalAsleep else MAsleep) -> next = (if c then MCancel else MFinish) ->
  main_wait c asleep next s = Some (Ret (after_wait c asleep next s)) /\
  lifecycle_inv (after_wait c asleep next s).
Proof.
  intros Hs Hr -> ->. pose proof (inv_asleep s Hs c) as Hsl. pose proof (inv_asleep s Hs (negb c)) as Hsl'.
  pose proof (inv_Started s Hs) as H1. pose proof (inv_Finished s Hs) as H2. pose proof (inv_cancelled s Hs) as H3.
  pose proof (inv_server s Hs) as H4. rewrite Hr in H1, H2, H3, H4.
  assert (Ha : forall c', main_asleep c' (main_pc s) = false) by (intros c'; by destruct (main_pc s), c).
  rewrite Ha in Hsl, Hsl'. unfold after_wait, main_wait, group_wait.
  assert (Hnone : waiting (group c s) = false /\ released (group c s) = false).
  { unfold sleepers in Hsl. destruct (waiting _), (released _); done. }
  destruct Hnone as [Ew Er]. case_decide as E.
  - rewrite E. split; [done|].
    replace (set_main _ s) with (set_main (if c then MCancel else MFinish) (set_group c (group c s) s))
      by (by destruct c, s).
    apply main_moves_inv; rewrite ?Ha; try done; try (by destruct c).
  - rewrite (proj2 (Z.eqb_neq _ _) E). split; [done|].
    apply main_moves_inv; rewrite ?Ha; try done; try (by destruct c).
    + unfold wake_due. cbn. rewrite (proj2 (Z.eqb_neq _ _) E), andb_false_r. done.
    + unfold sleepers. cbn. rewrite Er. by destruct c.
Qed.

Lemma main_awake_ok s c next o :
  lifecycle_inv s -> main_asleep c (main_pc s) = true -> next = (if c then MCancel else MFinish) ->
  main_awake c next s = Some o ->
  step_ok s EvMain o /\
  (forall s', o = Ret s' -> counter (group c s) = 0 /\ s' = set_main next (set_group c no_one s)).
Proof.
  intros Hs Ha Hnext. pose proof (inv_asleep s Hs c) as Hsl. pose proof (counter_nonneg s c Hs) as Hn.
  pose proof (inv_Started s Hs) as H1. pose proof (inv_Finished s Hs) as H2. pose proof (inv_cancelled s Hs) as H3.
  pose proof (inv_server s Hs) as H4. rewrite Ha in Hsl. unfold main_awake, group_awake.
  destruct (released (group c s)) eqn:Er; [|done].
  assert (Ew : waiting (group c s) = false).
  { unfold sleepers in Hsl. rewrite Er in Hsl. by destruct (waiting _). }
  rewrite Ew, andb_true_r. destruct (Z.eqb_spec (counter (group c s)) 0) as [E|E]; intros [= <-]; cbn.
  - split; [|intros s' [= <-]; done].
    assert (Hpc : main_pc s = if c then MCriticalAsleep else MAsleep) by (by destruct (main_pc s), c).
    rewrite Hpc in *. apply main_moves_inv; rewrite ?E, ?Hnext; try done; try (by destruct c).
    + unfold wake_due. by rewrite Ew.
    + rewrite Hpc. by destruct c.
  - split; [|done]. apply (reused_panics _ c); [done|done|lia].
Qed.

(** The server of a state in which [main] has moved on, stopped as before. *)
Ltac main_next s Hsrv :=
  split; try done; cbn;
  (destruct (server s) as [[]|]; [|done]); cbn in *; split; intros; first [lia | apply Hsrv; lia].

Lemma sum_at_ext at_ c s s' :
  (forall t, at_ (scheduler s' t) = at_ (scheduler s t)) ->
  sum_tasks (task_at at_ c s') = sum_tasks (task_at at_ c s).
Proof. intros H. apply sum_tasks_ext. intros t. unfold task_at. by rewrite H. Qed.

Lemma Start_inv s :
  lifecycle_inv s -> main_pc s = MStart -> exists s', Start s = Ret s' /\ lifecycle_inv (set_main MGracefulStop s').
Proof.
  intros [H1 H2 H3 H4 Hst Hf Hc Hp Hsrv He] Epc. rewrite Epc in *. cbn in *. unfold Start. rewrite Hst.
  eexists. split; [done|].
  split; try done; cbn.
  - intros c. unfold registered_in. rewrite (sum_at_ext registered c s); [exact (H1 c)|].
    intros t. cbn. by destruct (scheduler s t).
  - intros c. unfold waking_in. rewrite (sum_at_ext is_waking c s); [exact (H2 c)|].
    intros t. cbn. by destruct (scheduler s t).
  - rewrite H4. symmetry. apply sum_tasks_ext. intros t. unfold task_holds. cbn. by destruct (scheduler s t).
  - intros t _. by destruct (scheduler s t).
  - destruct (server s) as [[]|]; [|done]. cbn in *. split; lia.
Qed.

Lemma main_step_ok s o :
  lifecycle_inv s -> main_step s = Some o -> step_ok s EvMain o.
Proof.
  intros Hs Hstep. pose proof Hs as [H1 H2 H3 H4 Hst Hf Hc Hp Hsrv He]. unfold main_step in Hstep.
  revert H3 Hstep. destruct (main_pc s) eqn:Epc; intros H3 Hstep; cbn in H3, Hst, Hf, Hc, Hsrv; try discriminate.
  - destruct (CancelChan s); [|discriminate]. injection Hstep as <-. cbn. main_next s Hsrv.
  - destruct (Start_inv s Hs Epc) as (s' & E & Hs'). rewrite E in Hstep. by injection Hstep as <-.
  - destruct (server s) as [srv|] eqn:Es; injection Hstep as <-; cbn; split; try done. cbn. by rewrite Es.
  - destruct (server s) as [[a [|n]]|] eqn:Es; try discriminate; injection Hstep as <-; cbn;
      split; try done; cbn; rewrite Es; cbn in *; split; intros; try done; apply Hsrv; lia.
  - destruct (main_wait_inv s true _ _ Hs ltac:(by rewrite Epc) eq_refl eq_refl) as [E H].
    rewrite E in Hstep. by injection Hstep as <-.
  - apply (main_awake_ok s true) in Hstep as [H _]; [done|done|by rewrite Epc|done].
  - injection Hstep as <-. cbn. split; try done; cbn.
    by destruct He.
  - destruct (main_wait_inv s false _ _ Hs ltac:(by rewrite Epc) eq_refl eq_refl) as [E H].
    rewrite E in Hstep. by injection Hstep as <-.
  - apply (main_awake_ok s false) in Hstep as [H _]; [done|done|by rewrite Epc|done].
  - injection Hstep as <-. unfold Finish. rewrite Hf. cbn. main_next s Hsrv.
  - injection Hstep as <-. cbn. main_next s Hsrv.
Qed.

(** The audit: a call that is being served finds the channel open. *)
Lemma cancelled_idle s : lifecycle_inv s -> cancelled s = true ->
  match server s with Some srv => accepting srv = false /\ calls srv = 0%nat | None => True end.
Proof.
  intros Hs Hc. rewrite (inv_cancelled s Hs) in Hc. apply Z.ltb_lt in Hc.
  pose proof (inv_server s Hs) as H. destruct (server s); [|done]. destruct H as [H1 H2].
  split; [apply H1; lia|apply H2; lia].
Qed.

Lemma Store_ok s : lifecycle_inv s -> Store s = Ret s \/ (Store s = Panic send_on_closed /\ entries s = EntriesClosed /\ cancelled s = true).
Proof.
  intros Hs. destruct (inv_entries s Hs) as [_ Hc]. unfold Store. destruct (entries s) eqn:E; auto.
Qed.

Lemma task_stores_inv s t o :
  task_stores t s = Some o -> t <> METRICS /\ scheduler s t = Running /\ o = Store s.
Proof.
  unfold task_stores. intros H. destruct t; try done;
    (destruct (scheduler s _); try done); by injection H as <-.
Qed.

Lemma call_stores_inv s o : call_stores s = Some o -> o = Store s.
Proof. unfold call_stores. destruct (server s) as [[a []]|]; congruence. Qed.

Lemma store_step_ok s t o :
  lifecycle_inv s -> task_stores t s = Some o -> step_ok s (EvStore t) o.
Proof.
  intros Hs (Ht & Hpc & ->)%task_stores_inv.
  destruct (Store_ok s Hs) as [->|(-> & Hc & Hcan)]; [done|]. by constructor.
Qed.

Lemma call_store_ok s o :
  lifecycle_inv s -> call_stores s = Some o -> o = Ret s.
Proof.
  intros Hs H. unfold call_stores in H. destruct (server s) as [[a [|n]]|] eqn:E; try done. injection H as <-.
  destruct (Store_ok s Hs) as [->|(_ & _ & Hcan)]; [done|]. apply cancelled_idle in Hcan; [|done].
  rewrite E in Hcan. by destruct Hcan.
Qed.

Lemma exec_ok ev s o : lifecycle_inv s -> exec ev s = Some o -> step_ok s ev o.
Proof.
  intros Hs H. unfold exec in H. case_decide; [discriminate|]. destruct ev.
  - injection H as <-. by destruct Hs.
  - by apply main_step_ok.
  - apply fmap_Some in H as (s' & H & ->). cbn. revert H. unfold select_enter.
    destruct (scheduler s t) eqn:E; try done. destruct case as [[]|].
    + intros [= <-]. apply select_inv; rewrite ?E; done.
    + destruct (Started s); [|done]. intros [= <-]. apply select_inv; rewrite ?E; done.
    + destruct (Started s) eqn:Est; [done|]. intros [= <-]. apply select_inv; rewrite ?E; try done. congruence.
  - apply fmap_Some in H as (s' & H & ->). cbn. revert H. unfold select_after.
    destruct (scheduler s t) eqn:E; try done. intros [= <-]. apply select_inv; rewrite ?E; done.
  - by apply scheduler_step_ok.
  - by apply store_step_ok.
  - by apply sender_step_ok.
  - apply fmap_Some in H as (s' & H & ->). apply (calls_inv s); auto.
  - by rewrite (call_store_ok s o Hs H).
  - apply fmap_Some in H as (s' & H & ->). apply (calls_inv s); auto.
Qed.

Lemma reachable_inv s : reachable s -> lifecycle_inv s.
Proof.
  induction 1 as [|s ev s' _ IH H]; [apply initial_inv|].
  by apply exec_ok in H.
Qed.

(** ** Exclusion and the order of the shutdown *)

(** C30. The background tasks exclude each other: in every state of the
    process at most one of the recovery, the bounding and the expiry task is
    between its locking and its unlocking, whatever the order in which their
    goroutines run. *)
Theorem background_tasks_exclusive s t t' (Hr : reachable s)
    (Ht : t ∈ [RECOVERY; MAX_ELEMENTS; TTL]) (Ht' : t' ∈ [RECOVERY; MAX_ELEMENTS; TTL])
    (Hrun : in_section (scheduler s t) = true) (Hrun' : in_section (scheduler s t') = true) :
  t = t'.
Proof.
  assert (Hl : forall t, t ∈ [RECOVERY; MAX_ELEMENTS; TTL] -> task_lock t = true).
  { intros t0. rewrite !elem_of_cons. by intros [->|[->|[->|H%elem_of_nil]]]. }
  apply reachable_inv in Hr. destruct (holder_counted s t Hr (Hl t Ht) Hrun) as [_ Hne].
  destruct (decide (t' = t)) as [->|Hn]; [done|]. specialize (Hne t' Hn).
  unfold task_holds in Hne. rewrite (Hl t' Ht'), Hrun' in Hne. discriminate.
Qed.







(** ** The shutdown comes to its end *)

(** The events that come from outside: signals, calls, the passing of the
    delay of a task, and what the function of a task and the handler of a call
    do before they return. *)
Definition external (ev : Event) : bool :=
  match ev with
  | EvSignal | EvSelect _ (Some CaseAfter) | EvAfter _ | EvStore _ | EvCallArrives | EvCallStore => true
  | _ => false
  end.

Definition externals (evs : list Event) : Z := Z.of_nat (length (List.filter external evs)).

(** The steps a scheduler takes before it is blocked or returns. *)
Definition scheduler_rank (pc : SchedulerPc) : Z :=
  match pc with
  | Stopped => 0 | Parked => 1 | Select => 2 | Waking => 3 | Unlocked => 4 | Ran => 5 | Running => 6
  | Added => 7 | Chosen => 8
  end.

Definition sender_rank (pc : SenderPc) : Z :=
  match pc with
  | SenderReturned => 0 | SenderWaking => 1 | SenderLast => 2 | SenderLoop => 3 | SenderEntered => 4
  end.

Definition server_rank (srv : option Server) : Z :=
  match srv with Some srv => Z.of_nat (calls srv) | None => 0 end.

Definition steps_left (s : System) : Z :=
  (11 - main_rank (main_pc s)) + sum_tasks (fun t => scheduler_rank (scheduler s t)) +
  sender_rank (sender s) + server_rank (server s).

Lemma scheduler_rank_nonneg s t : 0 <= scheduler_rank (scheduler s t).
Proof. destruct (scheduler s t); cbn; lia. Qed.

Lemma steps_left_nonneg s : 0 <= steps_left s.
Proof.
  unfold steps_left. pose proof (sum_tasks_one _ UNLOCK (scheduler_rank_nonneg s)) as H.
  pose proof (scheduler_rank_nonneg s UNLOCK). revert H. generalize (sum_tasks (fun t => scheduler_rank (scheduler s t))).
  intros z Hz. destruct (main_pc s), (sender s), (server s) as [[]|]; cbn in *; lia.
Qed.

Lemma rank_moves t pc s s' :
  moves t pc s s' ->
  sum_tasks (fun t => scheduler_rank (scheduler s' t)) =
  sum_tasks (fun t => scheduler_rank (scheduler s t)) + scheduler_rank pc - scheduler_rank (scheduler s t).
Proof.
  intros [Ht Hne]. rewrite (sum_tasks_update (fun t => scheduler_rank (scheduler s t)) _ t).
  - by rewrite Ht.
  - intros t' Ht'. by rewrite Hne.
Qed.

(** A step of a scheduler. *)
Lemma moves_steps_left t pc s s' :
  same_frame s s' -> moves t pc s s' ->
  steps_left s' = steps_left s + scheduler_rank pc - scheduler_rank (scheduler s t).
Proof.
  intros (Em & _ & _ & _ & Esrv & Esnd & _) Hm. unfold steps_left.
  rewrite (rank_moves t pc s s' Hm), Em, Esrv, Esnd. lia.
Qed.

(** A step of a scheduler to a place closer to the end. *)
Lemma moves_closer s s1 s' t pc :
  set_scheduler t pc s1 = s' -> same_frame s s1 -> (forall t', scheduler s1 t' = scheduler s t') ->
  scheduler_rank pc < scheduler_rank (scheduler s t) -> steps_left s' + 1 <= steps_left s.
Proof.
  intros <- Hf Hs Hr. rewrite (moves_steps_left t pc s); [lia|done|by apply moves_set].
Qed.

Lemma scheduler_steps_left s s' t :
  scheduler_step t s = Some (Ret s') -> steps_left s' + 1 <= steps_left s.
Proof.
  unfold scheduler_step, unlock. intros H.
  assert (Hg : forall c g, same_frame s (set_group c g s) /\ forall t', scheduler (set_group c g s) t' = scheduler s t')
    by (intros [] g; by repeat split).
  assert (Hl : forall b, same_frame s (set_locker b s)) by (intros b; by repeat split).
  destruct (scheduler s t) eqn:Epc; try discriminate.
  - destruct (group_add _ _) as [[g w]|]; [|done]. injection H as H.
    apply (moves_closer s _ s' t _ H); [apply Hg|apply Hg|by rewrite Epc].
  - destruct (task_lock t); [destruct (backgroundTaskLocker s); [done|]|]; injection H as H;
      apply (moves_closer s _ s' t _ H); rewrite ?Epc; try done; apply Hl.
  - injection H as H. apply (moves_closer s _ s' t _ H); by rewrite ?Epc.
  - destruct (task_lock t); [destruct (backgroundTaskLocker s); [|done]|]; injection H as H;
      apply (moves_closer s _ s' t _ H); rewrite ?Epc; try done; apply Hl.
  - destruct (group_add _ _) as [[g w]|]; [|done]. injection H as H.
    apply (moves_closer s _ s' t _ H); [apply Hg|apply Hg|rewrite Epc; by destruct w].
  - destruct (group_wake _) as [g|]; [|done]. injection H as H.
    apply (moves_closer s _ s' t _ H); [apply Hg|apply Hg|by rewrite Epc].
Qed.

Lemma main_rank_le pc : main_rank pc <= 11.
Proof. destruct pc; cbn; lia. Qed.

(** A step of [main] that leaves the goroutines as they are. *)
Lemma main_closer s s1 pc :
  scheduler s1 = scheduler s -> sender s1 = sender s -> server_rank (server s1) = server_rank (server s) ->
  main_rank (main_pc s) < main_rank pc -> steps_left (set_main pc s1) + 1 <= steps_left s.
Proof. intros E1 E2 E3 Hr. unfold steps_left. cbn. rewrite E1, E2, E3. lia. Qed.

Lemma Start_closer s s1 :
  main_pc s = MStart -> Start s = Ret s1 -> steps_left (set_main MGracefulStop s1) + 1 <= steps_left s.
Proof.
  intros Epc. unfold Start. destruct (Started s); [done|]. intros [= <-]. unfold steps_left. cbn. rewrite Epc.
  assert (sum_tasks (fun t => scheduler_rank match scheduler s t with Parked => Stopped | pc => pc end) <=
          sum_tasks (fun t => scheduler_rank (scheduler s t))); [|cbn; lia].
  assert (Hle : forall t, scheduler_rank match scheduler s t with Parked => Stopped | pc => pc end <=
          scheduler_rank (scheduler s t)) by (intros t; destruct (scheduler s t); cbn; lia).
  unfold sum_tasks. repeat apply Z.add_le_mono; apply Hle.
Qed.

Lemma main_steps_left s s' : main_step s = Some (Ret s') -> steps_left s' + 1 <= steps_left s.
Proof.
  unfold main_step, main_wait, main_awake, Finish. intros H.
  destruct (main_pc s) eqn:Epc.
  - destruct (CancelChan s); [|done]. injection H as <-. apply main_closer; rewrite ?Epc; done.
  - destruct (Start s) as [s1|] eqn:E; [|done]. injection H as <-. by apply Start_closer.
  - destruct (server s) as [srv|] eqn:Es; injection H as <-; apply main_closer; rewrite ?Epc; try done. cbn. by rewrite Es.
  - destruct (server s) as [[a [|n]]|] eqn:Es; [|done|]; injection H as <-; apply main_closer; rewrite ?Epc; done.
  - injection H as <-. destruct (group_wait _); apply main_closer; rewrite ?Epc; done.
  - destruct (group_awake _) as [[g|]|]; try done. injection H as <-. apply main_closer; rewrite ?Epc; try done.
  - injection H as <-. apply main_closer; rewrite ?Epc; done.
  - injection H as <-. destruct (group_wait _); apply main_closer; rewrite ?Epc; done.
  - destruct (group_awake _) as [[g|]|]; try done. injection H as <-. apply main_closer; rewrite ?Epc; try done.
  - destruct (Finished s); [done|]. injection H as <-. apply main_closer; rewrite ?Epc; done.
  - injection H as <-. apply main_closer; rewrite ?Epc; done.
  - done.
Qed.

Lemma sender_steps_left s s' : sender_step s = Some (Ret s') -> steps_left s' + 1 <= steps_left s.
Proof.
  assert (Hc : forall pc g s', sender_rank pc < sender_rank (sender s) ->
    set_sender pc (set_group false g s) = s' -> steps_left s' + 1 <= steps_left s).
  { intros pc g ? Hr <-. unfold steps_left, set_group. cbn. lia. }
  unfold sender_step, close_entries. destruct (sender s) eqn:E; try done.
  - destruct (group_add _ _) as [[g w]|]; [|done]. intros [= H]. revert H. by apply Hc.
  - destruct (cancelled s); [|done]. destruct (entries s); try done. intros [= <-].
    unfold steps_left. cbn. rewrite E. cbn. lia.
  - destruct (group_add _ _) as [[g w]|]; [|done]. intros [= H]. revert H. apply Hc. by destruct w.
  - destruct (group_wake _) as [g|]; [|done]. intros [= H]. revert H. by apply Hc.
Qed.

(** Every event that does not come from outside brings the process closer to
    its end, and one that does not much further away. *)
Lemma exec_steps_left ev s s' :
  exec ev s = Some (Ret s') -> steps_left s' + 1 <= steps_left s + if external ev then 8 else 0.
Proof.
  unfold exec. case_decide as Hpc; [done|]. intros H.
  assert (Hst : Store s = Ret s' -> s' = s) by (unfold Store; destruct (entries s); congruence).
  destruct ev.
  - injection H as <-. unfold steps_left. cbn. lia.
  - apply main_steps_left in H. cbn. lia.
  - apply fmap_Some in H as (s1 & H & [= <-]). revert H. unfold select_enter.
    destruct (scheduler s t) eqn:E; try done.
    destruct case as [[]|]; [|destruct (Started s); [|done]|destruct (Started s); [done|]]; intros [= <-];
      (erewrite (moves_steps_left t _ s); [|by repeat split|by apply moves_set]); rewrite E; cbn; lia.
  - apply fmap_Some in H as (s1 & H & [= <-]). revert H. unfold select_after.
    destruct (scheduler s t) eqn:E; try done. intros [= <-].
    erewrite (moves_steps_left t _ s); [|by repeat split|by apply moves_set]. rewrite E. cbn. lia.
  - apply scheduler_steps_left in H. cbn. lia.
  - apply task_stores_inv in H as (_ & _ & E). rewrite (Hst (eq_sym E)). cbn. lia.
  - apply sender_steps_left in H. cbn. lia.
  - apply fmap_Some in H as (s1 & H & [= <-]). revert H. unfold call_arrives.
    destruct (server s) as [[[] n]|] eqn:E; try done. intros [= <-]. unfold steps_left. cbn [server set_server main_pc scheduler sender]. rewrite E. cbn. lia.
  - apply call_stores_inv in H. rewrite (Hst (eq_sym H)). cbn. lia.
  - apply fmap_Some in H as (s1 & H & [= <-]). revert H. unfold call_returns.
    destruct (server s) as [[a [|n]]|] eqn:E; try done. intros [= <-]. unfold steps_left. cbn [server set_server main_pc scheduler sender]. rewrite E. cbn. lia.
Qed.

Lemma main_rank_grows s s' :
  exec EvMain s = Some (Ret s') -> main_rank (main_pc s) < main_rank (main_pc s').
Proof.
  unfold exec. case_decide; [done|]. unfold main_step, main_wait, main_awake, obind, Start, Finish.
  destruct (main_pc s) eqn:E; repeat case_match; intros; simplify_eq; cbn; lia.
Qed.

(** A shutdown has been asked for. *)
Definition requested (s : System) : Prop := CancelChan s = true \/ 0 < main_rank (main_pc s).

Lemma requested_exec ev s s' : requested s -> exec ev s = Some (Ret s') -> requested s'.
Proof.
  unfold exec. case_decide as Hpc; [done|]. intros Hr H.
  assert (Hsame : CancelChan s' = CancelChan s /\ main_pc s' = main_pc s -> requested s').
  { intros [E1 E2]. unfold requested. by rewrite E1, E2. }
  assert (Hg : forall c g, CancelChan (set_group c g s) = CancelChan s /\ main_pc (set_group c g s) = main_pc s)
    by (by intros []).
  assert (Hst : Store s = Ret s' -> s' = s) by (unfold Store; destruct (entries s); congruence).
  destruct ev.
  - injection H as <-. by left.
  - right. assert (Hg' : exec EvMain s = Some (Ret s')) by (unfold exec; by rewrite decide_False).
    apply main_rank_grows in Hg'. destruct (main_pc s); cbn in Hg'; lia.
  - apply fmap_Some in H as (s1 & H & [= <-]). apply Hsame. revert H. unfold select_enter.
    repeat case_match; intros; simplify_eq; done.
  - apply fmap_Some in H as (s1 & H & [= <-]). apply Hsame. revert H. unfold select_after.
    repeat case_match; intros; simplify_eq; done.
  - apply Hsame. revert H. unfold scheduler_step, obind, unlock.
    repeat case_match; intros; simplify_eq; try apply Hg; done.
  - apply task_stores_inv in H as (_ & _ & E). rewrite (Hst (eq_sym E)). done.
  - apply Hsame. revert H. unfold sender_step, obind, close_entries.
    repeat case_match; intros; simplify_eq; try apply Hg; done.
  - apply fmap_Some in H as (s1 & H & [= <-]). apply Hsame. revert H. unfold call_arrives.
    repeat case_match; intros; simplify_eq; done.
  - apply call_stores_inv in H. rewrite (Hst (eq_sym H)). done.
  - apply fmap_Some in H as (s1 & H & [= <-]). apply Hsame. revert H. unfold call_returns.
    repeat case_match; intros; simplify_eq; done.
Qed.

(** A step that is possible and does not panic. *)
Definition can_step (ev : Event) (s : System) : Prop := exists s', exec ev s = Some (Ret s').

Lemma can_step_exec s ev o :
  lifecycle_inv s -> main_pc s <> MReturned -> exec ev s = Some o -> (forall m, ~ shutdown_panic s ev m) ->
  can_step ev s.
Proof.
  intros Hs Hm H Hn. pose proof (exec_ok ev s o Hs H) as Ho. destruct o as [s'|m]; [by exists s'|].
  by apply Hn in Ho.
Qed.

Lemma exec_scheduler s t : main_pc s <> MReturned -> exec (EvScheduler t) s = scheduler_step t s.
Proof. intros Hm. unfold exec. by rewrite decide_False. Qed.

(** A scheduler that is registered, or wakes [main], is not stuck: it can make
    a step, or the task that holds the lock can. *)
Lemma registered_progress s t :
  lifecycle_inv s -> main_pc s <> MReturned ->
  registered (scheduler s t) = true \/ is_waking (scheduler s t) = true ->
  exists t', can_step (EvScheduler t') s.
Proof.
  intros Hs Hm Hr.
  assert (Hgo : forall t', scheduler s t' <> Chosen -> is_Some (scheduler_step t' s) -> can_step (EvScheduler t') s).
  { intros t' Hc [o Ho]. apply (can_step_exec s _ o Hs Hm); [by rewrite exec_scheduler|].
    intros m Hp. by inversion Hp. }
  destruct (decide (scheduler s t = Added /\ task_lock t = true /\ backgroundTaskLocker s = true))
    as [(Ha & Hl & Hb)|Hn].
  - pose proof (inv_locker s Hs) as Hsum. rewrite Hb in Hsum.
    destruct (sum_tasks_positive (task_holds s) (task_holds_nonneg s)) as [t' Ht']; [cbn in Hsum; lia|].
    exists t'. unfold task_holds in Ht'. destruct (task_lock t'), (in_section (scheduler s t')) eqn:E; cbn in Ht'; try lia.
    apply Hgo; [|unfold scheduler_step]; by destruct (scheduler s t').
  - exists t. apply Hgo; [by destruct (scheduler s t), Hr|]. unfold scheduler_step.
    destruct (scheduler s t) eqn:E; try (by destruct Hr); try done.
    destruct (task_lock t) eqn:El; [|done]. destruct (backgroundTaskLocker s) eqn:Eb; [|done]. by destruct Hn.
Qed.

Lemma sender_progress s :
  lifecycle_inv s -> main_pc s <> MReturned -> cancelled s = true ->
  sender_registered (sender s) = true \/ sender_waking (sender s) = true -> can_step EvSender s.
Proof.
  intros Hs Hm Hc Hr.
  assert (H : is_Some (sender_step s)) by (unfold sender_step; rewrite Hc; destruct (sender s), Hr; done).
  destruct H as [o Ho]. apply (can_step_exec s _ o Hs Hm); [unfold exec; by rewrite decide_False|].
  intros m Hp. inversion Hp as [| | |Hpc]. rewrite Hpc in Hr. by destruct Hr.
Qed.

(** While goroutines are registered with a group, or wake it, one of them or
    one they wait for can make a step. *)
Lemma group_progress s (critical : bool) :
  lifecycle_inv s -> main_pc s <> MReturned -> (critical = false -> cancelled s = true) ->
  0 < registered_in critical s \/ 0 < waking_in critical s ->
  exists ev, external ev = false /\ can_step ev s.
Proof.
  intros Hs Hm Hc H.
  assert (Htask : forall at_, (forall pc, at_ pc = true -> registered pc = true \/ is_waking pc = true) ->
    0 < sum_tasks (task_at at_ critical s) -> exists ev, external ev = false /\ can_step ev s).
  { intros at_ Hat Hp. apply sum_tasks_positive in Hp as [t Ht]; [|apply task_at_nonneg].
    unfold task_at in Ht. destruct (at_ (scheduler s t)) eqn:E; [|by rewrite andb_false_r in Ht].
    destruct (registered_progress s t Hs Hm (Hat _ E)) as [t' Ht']. by exists (EvScheduler t'). }
  assert (Hsnd : critical = false -> sender_registered (sender s) = true \/ sender_waking (sender s) = true ->
    exists ev, external ev = false /\ can_step ev s).
  { intros E Hr. exists EvSender. split; [done|]. apply sender_progress; auto. }
  unfold registered_in, waking_in in H. destruct H as [H|H].
  - destruct (decide (0 < sum_tasks (task_at registered critical s))) as [Hp|Hp]; [apply (Htask registered); auto|].
    destruct critical; [lia|]. apply Hsnd; [done|]. destruct (sender_registered _); [auto|cbn in H; lia].
  - destruct (decide (0 < sum_tasks (task_at is_waking critical s))) as [Hp|Hp]; [apply (Htask is_waking); auto|].
    destruct critical; [lia|]. apply Hsnd; [done|]. destruct (sender_waking _); [auto|cbn in H; lia].
Qed.

(** [main] asleep: a goroutine it waits for, or that wakes it, can make a
    step, or [main] wakes. *)
Lemma asleep_progress s (critical : bool) :
  lifecycle_inv s -> main_pc s = (if critical then MCriticalAsleep else MAsleep) ->
  exists ev, external ev = false /\ can_step ev s.
Proof.
  intros Hs Hpc.
  assert (Hm : main_pc s <> MReturned) by (rewrite Hpc; by destruct critical).
  assert (Hc : critical = false -> cancelled s = true) by (intros ->; by rewrite (inv_cancelled s Hs), Hpc).
  pose proof (inv_counter s Hs critical) as H1. pose proof (inv_waking s Hs critical) as H2.
  pose proof (inv_asleep s Hs critical) as H3. pose proof (counter_nonneg s critical Hs) as Hn.
  assert (Ha : main_asleep critical (main_pc s) = true) by (rewrite Hpc; by destruct critical).
  rewrite Ha in H3.
  destruct (decide (counter (group critical s) = 0)) as [E|E]; [|apply (group_progress s critical); auto with lia].
  destruct (waiting (group critical s)) eqn:Ew.
  - apply (group_progress s critical); try done. right. rewrite <- H2. unfold wake_due. by rewrite Ew, E.
  - unfold sleepers in H3. rewrite Ew in H3. exists EvMain. split; [done|]. unfold can_step, exec. rewrite decide_False by done.
    unfold main_step, main_awake, group_awake.
    destruct (released (group critical s)) eqn:Er; [|cbn in H3; lia].
    rewrite Hpc. destruct critical; rewrite Er, Ew, E; cbn; by eexists.
Qed.

(** A shutdown that has been asked for is never stuck. *)
Lemma shutdown_progress s :
  lifecycle_inv s -> requested s -> main_pc s <> MReturned ->
  exists ev, external ev = false /\ can_step ev s.
Proof.
  intros Hs Hr Hm.
  assert (Hmain : is_Some (main_step s) -> main_asleep true (main_pc s) = false ->
    main_asleep false (main_pc s) = false -> exists ev, external ev = false /\ can_step ev s).
  { intros [o Ho] H1 H2. exists EvMain. split; [done|]. apply (can_step_exec s _ o Hs Hm); [unfold exec; by rewrite decide_False|].
    intros m Hp. inversion Hp as [|[] Ha| |]; congruence. }
  unfold main_step in Hmain. destruct (main_pc s) eqn:Epc; try done; try (by apply Hmain).
  - apply Hmain; try done. destruct Hr as [->|Hr]; [done|]. rewrite Epc in Hr. cbn in Hr. lia.
  - apply Hmain; try done. by destruct (server s).
  - destruct (server s) as [[a [|n]]|] eqn:Es; try (by apply Hmain). exists EvCallReturns. split; [done|].
    unfold can_step, exec. rewrite decide_False by (by rewrite Epc). unfold call_returns. rewrite Es. by eexists.
  - by apply (asleep_progress s true).
  - by apply (asleep_progress s false).
Qed.

Lemma run_steps_left evs s s' :
  run evs s = Some (Ret s') -> Z.of_nat (length evs) + steps_left s' <= steps_left s + 8 * externals evs.
Proof.
  revert s. induction evs as [|ev evs IH]; intros s; cbn [run].
  - intros [= ->]. unfold externals. cbn. lia.
  - destruct (exec ev s) as [[s1|]|] eqn:E; try done. intros H. apply IH in H. apply exec_steps_left in E.
    unfold externals in *. cbn [List.filter]. destruct (external ev); cbn [length]; lia.
Qed.

Lemma run_inv evs s s' :
  lifecycle_inv s -> requested s -> run evs s = Some (Ret s') -> lifecycle_inv s' /\ requested s'.
Proof.
  revert s. induction evs as [|ev evs IH]; intros s Hs Hr; cbn [run]; [by intros [= <-]|].
  destruct (exec ev s) as [[s1|]|] eqn:E; try done. intros H. apply (IH s1); [| |done].
  - by apply exec_ok in E.
  - by apply (requested_exec ev s).
Qed.

(** From a state that satisfies the invariant the shutdown can go on to its
    end without any event from outside. *)
Lemma shutdown_run n s :
  lifecycle_inv s -> requested s -> steps_left s <= Z.of_nat n ->
  exists evs s', run evs s = Some (Ret s') /\ Forall (fun ev => external ev = false) evs /\
    main_pc s' = MReturned.
Proof.
  revert s. induction n as [|n IH]; intros s Hs Hr Hn;
    (destruct (decide (main_pc s = MReturned)) as [Hm|Hm]; [exists [], s; by repeat constructor|]);
    destruct (shutdown_progress s Hs Hr Hm) as (ev & Hev & s' & Hs');
    pose proof (exec_steps_left ev s s' Hs') as Hle; rewrite Hev in Hle; pose proof (steps_left_nonneg s').
  - lia.
  - destruct (IH s') as (evs & s2 & Hrun & Hall & Hret);
      [exact (exec_ok ev s (Ret s') Hs Hs')|by apply (requested_exec ev s)|lia|].
    exists (ev :: evs), s2. cbn. rewrite Hs'. split; [done|]. split; [by constructor|done].
Qed.

(** C29. A shutdown that has been asked for comes to its end: the number of
    steps of any run is bounded by those that are left and the events from
    outside; a run that cannot go on without an event from outside has returned
    from [main], with the context cancelled; and there is such a run, in which
    nothing panics ([shutdown_order] says which steps can). *)
Theorem shutdown_terminates s (Hr : reachable s) (Hreq : requested s) :
  (forall evs s', run evs s = Some (Ret s') ->
    Z.of_nat (length evs) <= steps_left s + 8 * externals evs) /\
  (forall evs s', run evs s = Some (Ret s') ->
    (forall ev, external ev = false -> exec ev s' = None) ->
    main_pc s' = MReturned /\ Finished s' = true /\ cancelled s' = true) /\
  exists evs s', run evs s = Some (Ret s') /\ Forall (fun ev => external ev = false) evs /\
    main_pc s' = MReturned.
Proof.
  apply reachable_inv in Hr. split; [|split].
  - intros evs s' H. apply run_steps_left in H. pose proof (steps_left_nonneg s'). lia.
  - intros evs s' H Hstuck. destruct (run_inv evs s s' Hr Hreq H) as [Hs' Hreq'].
    destruct (decide (main_pc s' = MReturned)) as [Hm|Hm].
    + by rewrite (inv_Finished s' Hs'), (inv_cancelled s' Hs'), Hm.
    + destruct (shutdown_progress s' Hs' Hreq' Hm) as (ev & Hev & s2 & Ho). by rewrite (Hstuck ev Hev) in Ho.
  - apply (shutdown_run (Z.to_nat (steps_left s))); [done|done|]. pose proof (steps_left_nonneg s). lia.
Qed.

(** ** Witnesses *)

Lemma run_reachable evs s s' : reachable s -> run evs s = Some (Ret s') -> reachable s'.
Proof.
  revert s. induction evs as [|ev evs IH]; intros s Hs; cbn [run]; [by intros [= <-]|].
  destruct (exec ev s) as [[s1|]|] eqn:E; try done. apply IH. by apply (reachable_step s ev).
Qed.

Definition state_after (evs : list Event) : System :=
  match run evs (initial true true true) with Some (Ret s) => s | _ => initial true true true end.

Lemma state_after_reachable evs :
  match run evs (initial true true true) with Some (Ret _) => true | _ => false end = true ->
  reachable (state_after evs).
Proof.
  unfold state_after. destruct (run evs _) as [[s|]|] eqn:E; try done. intros _.
  apply (run_reachable evs (initial true true true)); [constructor|done].
Qed.

(** The recovery runs, the expiry task waits for the lock, a call is being
    served, and a signal arrives. *)
Definition busy : list Event := [
  EvSelect RECOVERY (Some CaseAfter); EvScheduler RECOVERY; EvScheduler RECOVERY;
  EvSelect TTL (Some CaseAfter); EvScheduler TTL; EvSender; EvCallArrives; EvSignal].

Lemma background_tasks_exclusive_witness :
  let s := state_after busy in
  in_section (scheduler s RECOVERY) = true /\ scheduler s TTL = Added /\
  forall t, t ∈ [RECOVERY; MAX_ELEMENTS; TTL] -> in_section (scheduler s t) = true -> t = RECOVERY.
Proof.
  intros s. split; [vm_compute; reflexivity|]. split; [vm_compute; reflexivity|]. intros t Ht Hrun.
  apply (background_tasks_exclusive s t RECOVERY); [|exact Ht|apply list_elem_of_here|exact Hrun|vm_compute; reflexivity].
  apply state_after_reachable. vm_compute. reflexivity.
Defined.



Lemma shutdown_terminates_witness :
  let s := state_after busy in
  steps_left s = 36 /\ exists evs s', run evs s = Some (Ret s') /\ main_pc s' = MReturned.
Proof.
  intros s. split; [vm_compute; reflexivity|].
  destruct (shutdown_terminates s) as (_ & _ & evs & s' & Hrun & _ & Hm).
  - apply state_after_reachable. vm_compute. reflexivity.
  - left. vm_compute. reflexivity.
  - exists evs, s'. split; [exact Hrun|exact Hm].
Defined.

(** A recovery whose delay passed just before the shutdown started, and whose
    goroutine had not run yet, is not waited for: it runs after the context
    is cancelled. *)
Lemma recovery_after_cancel :
  exists evs s, run evs (initial true true true) = Some (Ret s) /\
    cancelled s = true /\ scheduler s RECOVERY = Running /\ counter (CriticalWaitGroup s) = 1.
Proof.
  exists [EvSelect RECOVERY None; EvAfter RECOVERY; EvSignal; EvMain; EvMain; EvMain; EvMain; EvMain; EvMain;
          EvScheduler RECOVERY; EvScheduler RECOVERY].
  eexists. split; [vm_compute; reflexivity|]. repeat split.
Qed.

(** A signal, and [main] as far as the cancellation of the context. *)
Definition to_cancelled : list Event := [EvSignal; EvMain; EvMain; EvMain; EvMain; EvMain; EvMain].

(** The first steps of a task whose delay passes: until it runs. *)
Definition task_runs (t : Task) : list Event :=
  [EvSelect t (Some CaseAfter); EvScheduler t; EvScheduler t].

(** Each of the panics of [shutdown_panic] does happen in a run.  A removal of
    expired messages that outlives the cancellation stores an entry after the
    sender closed the channel. *)
Lemma store_after_close_panics :
  run ([EvSender] ++ task_runs TTL ++ to_cancelled ++ [EvSender; EvStore TTL]) (initial true true true) =
  Some (Panic send_on_closed).
Proof. vm_compute. reflexivity. Qed.

(** The time-out task ends and releases [main]; the delay of the unlock task
    had passed, and it registers before [main] goes on. *)
Lemma group_reused_panics :
  run (task_runs TIMEOUT ++ [EvSelect UNLOCK (Some CaseAfter)] ++ to_cancelled ++
       [EvMain; EvScheduler TIMEOUT; EvScheduler TIMEOUT; EvScheduler TIMEOUT; EvScheduler TIMEOUT;
        EvScheduler UNLOCK; EvMain]) (initial true true false) =
  Some (Panic group_reused).
Proof. vm_compute. reflexivity. Qed.

(** The same, with the registration while [main] is being woken. *)
Lemma late_task_misuse_panics :
  run (task_runs TIMEOUT ++ [EvSelect UNLOCK (Some CaseAfter)] ++ to_cancelled ++
       [EvMain; EvScheduler TIMEOUT; EvScheduler TIMEOUT; EvScheduler TIMEOUT; EvScheduler UNLOCK])
    (initial true true false) =
  Some (Panic group_misuse).
Proof. vm_compute. reflexivity. Qed.

(** The same, with the registration of a sender that starts as late. *)
Lemma late_sender_misuse_panics :
  run (task_runs TIMEOUT ++ to_cancelled ++
       [EvMain; EvScheduler TIMEOUT; EvScheduler TIMEOUT; EvScheduler TIMEOUT; EvSender])
    (initial true true true) =
  Some (Panic group_misuse).
Proof. vm_compute. reflexivity. Qed.
