(* ===== verification/Tasks.v ===== *)
(** * The tasks of the process

    The functions that [startHouseKeeperJobs] of [cmd/deckard/main.go]
    schedules, and [executeTask]: a run of a task on the queue, with the
    latency it records.  When and after what a task runs is the scheduler's
    ([Lifecycle.v]); here the tasks run between the requests, in any order. *)

From S2P Require Import Prelude Float64 Dtime Utils Message Cache MemoryCache MemoryCacheFacts.
From S2P Require Import Fixtures Storage MemoryStorage MemoryStorageFacts AuditTrail Metrics.
From S2P Require Import Queue QueueFacts QueueProps QueueHistory Housekeeper Recovery RecoveryProps Lifecycle.
#[local] Open Scope string_scope.
#[local] Open Scope list_scope.
#[local] Open Scope Z_scope.

Definition task_name (t : Task) : string :=
  match t with
  | TIMEOUT => "timeout" | UNLOCK => "unlock" | RECOVERY => "recovery"
  | TTL => "ttl" | MAX_ELEMENTS => "max_elements" | METRICS => "metrics"
  end.

(** What a run of a task reads of the process: whether a shutdown is ongoing,
    at each question, and whether the context is cancelled. *)
Record TaskAnswers := {
  ongoing : nat -> bool;
  ongoing_between : bool;
  ongoing_nack : nat -> bool;
  canceled : nat -> bool
}.

Section Tasks.
Context {S C A : Type} `{Storage S} `{Cache C} `{Auditor A}.
Abbreviation Q := (Queue S C A).

(** The function scheduled for a task: the result tells whether its latency is
    recorded.  The map of the metrics is global to the process. *)
Definition task_fn (env : Env) (answers : TaskAnswers) (t : Task) (metricsMap : QueueMetricsMap) :
    Comp Q (bool * QueueMetricsMap) :=
  match t with
  | UNLOCK =>
      _ ← ProcessLockPool env (ongoing answers) (ongoing_between answers) (ongoing_nack answers);
      mret (true, metricsMap)
  | TIMEOUT =>
      _ ← ProcessTimeoutMessages env (ongoing answers) (canceled answers);
      mret (true, metricsMap)
  | METRICS =>
      metricsMap ← ComputeMetrics env (ongoing answers) metricsMap;
      mret (true, metricsMap)
  | RECOVERY =>
      metrify ← RecoveryMessagesPool env;
      mret (metrify, metricsMap)
  | MAX_ELEMENTS =>
      r ← RemoveExceedingMessages env (ongoing answers);
      mret (r.1, metricsMap)
  | TTL =>
      r ← RemoveTTLMessages env (ongoing answers) (Now env);
      mret (r.1, metricsMap)
  end.

(** What the tasks share. *)
Record Background := {
  pool : Q;
  metricsMap : QueueMetricsMap;
  HousekeeperTaskLatency : list (string * Z)
}.

(** [finish]: the clock when the function has returned.  The deferred call
    records the latency when the function returned true. *)
Definition executeTask (env finish : Env) (answers : TaskAnswers) (t : Task) (b : Background) :
    outcome Background :=
  obind (task_fn env answers t (metricsMap b) (pool b)) (fun '(pool, (metrify, metricsMap)) =>
    Ret {| pool := pool; metricsMap := metricsMap;
           HousekeeperTaskLatency :=
             if metrify then HousekeeperTaskLatency b ++ [(task_name t, ElapsedTime finish (Now env))]
             else HousekeeperTaskLatency b |}).

(** ** The process *)

(** A request to the queue, or a run of a task. *)
Inductive process_event :=
  | Request (env : Env) (op : queue_op)
  | TaskRun (env finish : Env) (answers : TaskAnswers) (t : Task).

Definition event_time (e : process_event) : Time :=
  match e with Request env _ | TaskRun env _ _ _ => Now env end.

Definition process_step (e : process_event) (b : Background) : outcome (Background * option error) :=
  match e with
  | Request env op =>
      obind (run_queue_op env op (pool b)) (fun '(q, err) =>
        Ret ({| pool := q; metricsMap := metricsMap b; HousekeeperTaskLatency := HousekeeperTaskLatency b |}, err))
  | TaskRun env finish answers t => obind (executeTask env finish answers t b) (fun b => Ret (b, None))
  end.

(** Every event happens, in order, and no request fails. *)
Fixpoint process_runs (h : list process_event) (b b' : Background) : Prop :=
  match h with
  | [] => b' = b
  | e :: h' => exists b1, process_step e b = Ret (b1, None) /\ process_runs h' b1 b'
  end.
End Tasks.
Arguments Background : clear implicits.

(** ** While the cache is recovered *)

(** The expiry and the bounding of the queues do nothing while the recovery is
    marked as running, and no latency is recorded for them. *)
Lemma executeTask_recovering {S C A : Type} `{StorageSpec S} `{ReliableCache C} `{Auditor A}
    env finish answers t (b : Background S C A) :
  cache_inv (cache (pool b)) -> cache_key (cache (pool b)) RECOVERY_RUNNING = "true" ->
  t = TTL \/ t = MAX_ELEMENTS -> executeTask env finish answers t b = Ret b.
Proof.
  intros Hc Hk Ht. assert (Hr : isRecovering env (pool b) = Ret (pool b, (true, None))).
  { rewrite isRecovering_run by done. unfold key. by rewrite Hk. }
  assert (Hfn : task_fn env answers t (metricsMap b) (pool b) = Ret (pool b, (false, metricsMap b))).
  { destruct Ht as [->| ->]; cbn [task_fn]; unfold RemoveTTLMessages, RemoveExceedingMessages;
      (erewrite bind_eq; [|erewrite bind_eq by exact Hr; reflexivity]); done. }
  unfold executeTask. rewrite Hfn. by destruct b.
Qed.

(** ** With the memory storage and cache *)

#[local] Existing Instance plain_glob.

Abbreviation MQ := (Queue MemoryStorage MemoryCache AuditLog).

(** Where storage and cache agree the computation returns, and they agree
    afterwards. *)
Definition keeps {R} (env : Env) (f : Comp MQ R) : Prop :=
  forall q, agree env q -> exists q' r, f q = Ret (q', r) /\ agree env q'.

Lemma agree_same_data env (q q' : MQ) : storage q' = storage q -> cache q' = cache q -> agree env q -> agree env q'.
Proof.
  intros Hs Hc Hag. apply (agree_cache env q); [done|rewrite Hc; apply Hag|done|by rewrite Hc].
Qed.

Lemma keeps_ret {R} env (a : R) : keeps env (mret a).
Proof. intros q Hq. by exists q, a. Qed.

Lemma keeps_bind {R R'} env (f : Comp MQ R) (k : R -> Comp MQ R') :
  keeps env f -> (forall r, keeps env (k r)) -> keeps env (x ← f; k x).
Proof.
  intros Hf Hk q Hq. destruct (Hf q Hq) as (q1 & r & E & Hq1). erewrite bind_eq by exact E. by apply Hk.
Qed.

Lemma keeps_ask_storage {R} env (f : MemoryStorage -> outcome R) :
  (forall s, mem_storage_inv s -> exists r, f s = Ret r) -> keeps env (ask_storage f).
Proof.
  intros Hf q Hq. destruct (Hf (storage q)) as [r E]; [apply Hq|]. exists q, r. unfold ask_storage. by rewrite E.
Qed.

Lemma keeps_ask_cache {R} env (f : MemoryCache -> outcome R) :
  (forall c, exists r, f c = Ret r) -> keeps env (ask_cache f).
Proof.
  intros Hf q Hq. destruct (Hf (cache q)) as [r E]. exists q, r. unfold ask_cache. by rewrite E.
Qed.

Lemma keeps_metric env name n attrs : keeps env (metric_Add name n attrs).
Proof. intros q Hq. do 2 eexists. split; [done|]. by apply (agree_same_data env q). Qed.

Lemma keeps_audits {X} env (g : X -> Entry) l : keeps env (for_each (fun x => audit env (g x)) l).
Proof.
  intros q Hq. destruct (for_each_returns env g l q) as (q' & E & Hs & Hc). exists q', tt.
  split; [exact E|]. by apply (agree_same_data env q).
Qed.

(** ** The operations the tasks call *)

Lemma keeps_op env op : op_valid op -> keeps env (run_queue_op env op).
Proof.
  intros Hop q Hq. destruct (memory_op_returns env op q (proj1 Hq) Hop) as (q' & E). exists q', None.
  split; [exact E|]. eapply agree_step; [exact Hq|by apply op_valid_names|exact E].
Qed.

Lemma keeps_result {R R'} env (f : Comp MQ R) (g : R -> R') : keeps env (r ← f; mret (g r)) -> keeps env f.
Proof.
  intros Hf q Hq. destruct (Hf q Hq) as (q' & r & (q1 & r1 & E & [= <- _])%bind_Ret & Hq'). by exists q1, r1.
Qed.

Lemma keeps_TimeoutMessages env qn : keeps env (TimeoutMessages env qn).
Proof. apply (keeps_result env _ snd), (keeps_op env (QTimeout qn)), I. Qed.

Lemma keeps_UnlockMessages env qn t : keeps env (on_cache (cache_UnlockMessages env qn t)).
Proof. apply (keeps_result env _ snd), (keeps_op env (QUnlock qn t)), I. Qed.

Lemma keeps_Remove env qn reason ids : keeps env (Remove env qn reason ids).
Proof. apply (keeps_result env _ snd), (keeps_op env (QRemove qn reason ids)), I. Qed.

Lemma keeps_set_key env k v : keeps env (set_key env k v).
Proof.
  intros q Hq. destruct (set_key_run env k v q) as (q' & E & Hst & Hc & Hw & _); [apply Hq|].
  exists q', None. split; [exact E|]. apply (agree_cache env q); [done..|]. intros qn i. by rewrite Hw.
Qed.

Lemma keeps_get_key env k : keeps env (get_key env k).
Proof. apply keeps_ask_cache. intros c. by eexists. Qed.

Lemma memory_ListQueues_returns env p (c : MemoryCache) : exists r, cache_ListQueues env "*" p c = Ret r.
Proof.
  destruct glob_star as (f & Hf & _). cbn. unfold ListQueues. generalize (@nil string).
  induction (map_range _ _) as [|[qn [els|]] l IH]; intros acc; cbn [list_queues_loop];
    [cbn; by eexists| |apply IH].
  unfold MatchGlob at 1. rewrite Hf. apply IH.
Qed.

Lemma memory_Count_returns env opt copt s : mem_storage_inv s -> exists r, storage_Count env opt copt s = Ret r.
Proof.
  intros Hs. cbn. unfold MemoryStorage.Count.
  assert (Hl : forall l n, Forall (fun kv : string * Message => has_int64 kv.2) l ->
    exists r, count_loop opt l n = Ret r); [|by apply Hl, docs_int64].
  induction l as [|[k m] l IH]; intros n Hl; cbn [count_loop]; [by eexists|].
  apply Forall_cons in Hl as [Hm Hl].
  destruct (messageMatchesFilter_returns m opt Hm) as [[b [e|]] ->]; cbn; [by eexists|by apply IH].
Qed.

Lemma memory_Find_returns env opt s : mem_storage_inv s -> exists r, storage_Find env opt s = Ret r.
Proof. intros Hs. by apply Find_returns, inv_typed. Qed.

(** Follows a task through its branches. *)
Ltac keep :=
  repeat match goal with
  | H : _ |- keeps _ _ => apply H
  | |- keeps _ (for_each _ _) => apply keeps_audits
  | |- keeps _ (mbind _ _) => apply keeps_bind; [|intros ?]
  | |- keeps _ (mret _) => apply keeps_ret
  | |- keeps _ (metric_Add _ _ _) => apply keeps_metric
  | |- keeps _ (get_key _ _) => apply keeps_get_key
  | |- keeps _ (set_key _ _ _) => apply keeps_set_key
  | |- keeps _ (Remove _ _ _ _) => apply keeps_Remove
  | |- keeps _ (TimeoutMessages _ _) => apply keeps_TimeoutMessages
  | |- keeps _ (on_cache (cache_UnlockMessages _ _ _)) => apply keeps_UnlockMessages
  | |- keeps _ (ask_cache (cache_ListQueues _ _ _)) =>
      apply keeps_ask_cache; intros ?; apply memory_ListQueues_returns
  | |- keeps _ (ask_storage (storage_Find _ _)) =>
      apply keeps_ask_storage; intros ? ?; by apply memory_Find_returns
  | |- keeps _ (ask_storage (storage_Count _ _ _)) =>
      apply keeps_ask_storage; intros ? ?; by apply memory_Count_returns
  | |- keeps _ (ask_storage (fun s => Ret _)) => apply keeps_ask_storage; intros ? ?; by eexists
  | |- keeps _ (if ?b then _ else _) => destruct b
  | |- keeps _ (match ?x with _ => _ end) => destruct x
  | |- keeps _ (let '_ := ?x in _) => destruct x
  end.

(** ** The tasks *)

Lemma keeps_ProcessLockPool env o1 b o2 : keeps env (ProcessLockPool env o1 b o2).
Proof.
  assert (Hl : forall o t l n, keeps env (unlockMessages env o n l t)).
  { induction l as [|x l IH]; intros n; cbn [unlockMessages]; keep. }
  unfold ProcessLockPool. keep.
Qed.

Lemma keeps_ProcessTimeoutMessages env o c : keeps env (ProcessTimeoutMessages env o c).
Proof.
  assert (Hl : forall l n, keeps env (timeout_loop env o c n l)).
  { induction l as [|x l IH]; intros n; cbn [timeout_loop]; keep. }
  unfold ProcessTimeoutMessages. keep.
Qed.

Lemma keeps_ComputeMetrics env o m : keeps env (ComputeMetrics env o m).
Proof.
  assert (Hl : forall l n x y, keeps env (metrics_loop env o n l x y)).
  { induction l as [|p l IH]; intros n x y; cbn [metrics_loop]; unfold Count; cbv zeta; keep. }
  unfold ComputeMetrics. keep.
Qed.

Lemma keeps_RemoveTTLMessages env o date : keeps env (RemoveTTLMessages env o date).
Proof.
  assert (Hl : forall l n, keeps env (ttl_loop env o n l)).
  { induction l as [|[x ids] l IH]; intros n; cbn [ttl_loop]; keep. }
  unfold RemoveTTLMessages, isRecovering. keep.
Qed.

Lemma keeps_RemoveExceedingMessages env o : keeps env (RemoveExceedingMessages env o).
Proof.
  assert (Hq : forall c, keeps env (removeExceedingMessagesFromQueue env c)).
  { intros c. unfold removeExceedingMessagesFromQueue. cbv zeta. keep. }
  assert (Hl : forall l n, keeps env (exceeding_loop env o n l)).
  { induction l as [|x l IH]; intros n; cbn [exceeding_loop]; keep. }
  unfold RemoveExceedingMessages, isRecovering. keep.
Qed.

(** ** The recovery *)

(** The messages that a query finds are stored. *)
Lemma memory_Find_stored env opt s ms : mem_storage_inv s -> storage_Find env opt s = Ret (ms, None) ->
  Forall (fun m => mem_stored s (Message.Queue m) (ID m) = Some m) ms.
Proof.
  intros Hs E. cbn in E. unfold Find in E. pose proof (docs_int64 env s Hs) as Hd.
  destruct (find_loop_returns env opt _ [] Hd) as ([found err] & E1 & Hfound). rewrite E1 in E. cbn in E, Hfound.
  destruct err as [e|]; [by simplify_eq|].
  assert (Hdoc : forall m, m ∈ found -> m ∈ doc_list env s).
  { intros m Hm. rewrite Forall_forall in Hfound. destruct (Hfound m Hm) as [Hx|Hx]; [by apply elem_of_nil in Hx|exact Hx]. }
  rewrite sort_found_ok in E.
  - cbn in E. simplify_eq. destruct (limit_found_take opt (sort_b opt found)) as (n & -> & _).
    apply Forall_forall. intros m Hm. apply (elem_of_doc_list env s m Hs), Hdoc. rewrite <- (sort_b_perm opt).
    eapply elem_of_sublist; [exact Hm|apply sublist_take].
  - apply Forall_forall. intros m Hm. apply Hdoc, list_elem_of_fmap in Hm as (kv & -> & Hkv).
    rewrite Forall_forall in Hd. by apply Hd.
Qed.

Lemma stored_internal_id s qn i m : mem_storage_inv s -> mem_stored s qn i = Some m ->
  exists text, GetStringInternalId m = Ret text.
Proof.
  intros Hs (Hm & _)%mem_stored_Some. destruct (inv_typed s Hs _ _ Hm) as [z Hz].
  unfold GetStringInternalId, internal_int64. rewrite Hz. by eexists.
Qed.

Lemma last_Some_elem {X} (l : list X) x : List.last (map Some l) None = Some x -> x ∈ l.
Proof.
  induction l as [|y l IH]; [done|]. destruct l as [|z l]; [intros [= ->]; apply list_elem_of_here|].
  intros Hx. apply list_elem_of_further, IH, Hx.
Qed.

(** Stored messages can be added to the cache. *)
Lemma keeps_addition env reason ms (q : MQ) : agree env q ->
  Forall (fun m => mem_stored (storage q) (Message.Queue m) (ID m) <> None) ms ->
  exists q' r, AddMessagesToCacheWithAuditReason env reason ms q = Ret (q', r) /\ agree env q'.
Proof.
  intros Hq Hms. destruct (memory_add_all_returns env reason ms q) as (q' & n & E). exists q', (n, None).
  split; [exact E|]. pose proof Hq as ((HSi & HCi) & Hc & Hb).
  apply AddMessagesToCache_spec in E as (Hst & HCi' & Hkeep & Hnew); [|exact HCi].
  split; [split; [by rewrite Hst|done]|]. split.
  - intros qn i m Hl. rewrite Hst in Hl. apply Hc in Hl. by rewrite Hkeep.
  - intros qn i Hw. rewrite Hst. destruct (decide (where_is (cache q) qn i = None)) as [E|E]; [|by apply Hb].
    rewrite Hnew in Hw by done. case_decide as Hd; [|done].
    apply list_elem_of_fmap in Hd as (m & [= -> ->] & Hm). rewrite Forall_forall in Hms. by apply Hms.
Qed.

Lemma keeps_recovery_finish env n : keeps env (recovery_finish env n).
Proof. unfold recovery_finish. keep. Qed.

Lemma keeps_recovery_round env breakpoint : keeps env (recovery_round env breakpoint).
Proof.
  apply keeps_bind; [apply keeps_get_key|]. intros [recoveryBreakpoint [e|]]; [apply keeps_ret|].
  intros q Hq. destruct (memory_Find_returns env (Some (recovery_options breakpoint recoveryBreakpoint)) (storage q))
    as [[ms err] E]; [apply Hq|].
  erewrite bind_eq by (unfold ask_storage; rewrite E; reflexivity). destruct err as [e|]; [by apply keeps_ret|].
  pose proof (memory_Find_stored _ _ _ _ (proj1 (proj1 Hq)) E) as Hst.
  destruct (List.last (map Some ms) None) as [lm|] eqn:El; [|by apply keeps_recovery_finish].
  destruct (keeps_addition env "recovery" (map clamp_score ms) q Hq) as (q1 & [n err] & E1 & Hq1).
  { rewrite Forall_map. eapply Forall_impl; [exact Hst|]. intros m Hm. cbn.
    pose proof (clamp_score_key m) as [= -> ->]. by rewrite Hm. }
  erewrite bind_eq by exact E1. destruct err as [e|]; [by apply keeps_ret|].
  assert (Hid : exists text, GetStringInternalId lm = Ret text).
  { apply last_Some_elem in El. rewrite Forall_forall in Hst. eapply stored_internal_id; [apply Hq|by apply Hst]. }
  refine (keeps_bind env _ _ _ _ q1 Hq1); [|intros key; apply keeps_bind; [apply keeps_set_key|]].
  - by apply keeps_ask_storage.
  - intros _. apply keeps_recovery_finish.
Qed.

Lemma keeps_RecoveryMessagesPool env : keeps env (RecoveryMessagesPool env).
Proof.
  pose proof (keeps_recovery_round env).
  assert (Hstart : keeps env (tryToStartRecovery env)).
  { unfold tryToStartRecovery. apply keeps_bind; [apply keeps_set_key|]. intros [e|]; [apply keeps_ret|].
    intros q Hq. fold last_options. destruct (memory_Find_returns env (Some last_options) (storage q)) as [[ms err] E]; [apply Hq|].
    erewrite bind_eq by (unfold ask_storage; rewrite E; reflexivity).
    destruct err as [e|]; [destruct ms; by apply keeps_ret|]. destruct ms as [|lm ms].
    { clear E. revert q Hq. apply keeps_bind; [|intros ?]; keep. }
    pose proof (memory_Find_stored _ _ _ _ (proj1 (proj1 Hq)) E) as Hst. apply Forall_inv in Hst.
    assert (Hid : exists text, GetStringInternalId lm = Ret text) by (by eapply stored_internal_id; [apply Hq|]).
    clear E Hst. revert q Hq. apply keeps_bind; [by apply keeps_ask_storage|intros ?; keep]. }
  unfold RecoveryMessagesPool, isRecovering. keep.
Qed.

Lemma keeps_task_fn env answers t metricsMap : keeps env (task_fn env answers t metricsMap).
Proof.
  pose proof keeps_ProcessLockPool. pose proof keeps_ProcessTimeoutMessages. pose proof keeps_ComputeMetrics.
  pose proof keeps_RecoveryMessagesPool. pose proof keeps_RemoveTTLMessages. pose proof keeps_RemoveExceedingMessages.
  destruct t; cbn [task_fn]; keep.
Qed.

(** ** The process *)

Definition event_valid (e : process_event) : Prop :=
  match e with Request _ op => op_valid op | TaskRun _ _ _ _ => True end.

Definition events_clock (now : Time) (h : list process_event) : Prop :=
  StronglySorted Z.le (now :: map event_time h).

(** One event: a request, or a run of a task. *)
Lemma process_step_keeps e now (b : Background MemoryStorage MemoryCache AuditLog) :
  event_valid e -> now <= event_time e -> agree (at_time now) (pool b) ->
  exists b', process_step e b = Ret (b', None) /\ agree (at_time (event_time e)) (pool b') /\
    exists recorded, HousekeeperTaskLatency b' = HousekeeperTaskLatency b ++ recorded /\
      forall name latency, (name, latency) ∈ recorded -> exists env finish answers t,
        e = TaskRun env finish answers t /\ name = task_name t /\ latency = ElapsedTime finish (Now env).
Proof.
  intros He Hle (Hq & Hc & Hb). assert (Hag : agree (at_time (event_time e)) (pool b)).
  { split; [done|]. split; [by eapply complete_later; [|exact Hc]|done]. }
  clear Hq Hc Hb. destruct e as [env op|env finish answers t]; cbn [process_step event_time] in *.
  - destruct (memory_op_returns env op (pool b) (proj1 Hag) He) as (q' & E). rewrite E. cbn.
    eexists. split; [done|]. split; [by eapply (agree_step env); [exact Hag|by apply op_valid_names|exact E]|].
    exists []. rewrite app_nil_r. split; [done|]. intros name latency Hin. by apply elem_of_nil in Hin.
  - unfold executeTask. destruct (keeps_task_fn env answers t (metricsMap b) (pool b) Hag) as (q' & [metrify mm] & E & Hag').
    rewrite E. cbn. eexists. split; [done|]. split; [exact Hag'|]. cbn. destruct metrify.
    + eexists. split; [done|]. intros name latency [= -> ->]%list_elem_of_singleton. by exists env, finish, answers, t.
    + exists []. rewrite app_nil_r. split; [done|]. intros name latency Hin. by apply elem_of_nil in Hin.
Qed.

(** C9. With the memory storage and cache, requests and tasks in any order,
    each task stopped by a shutdown wherever it asks for one, never panic and
    no request fails: from a queue on which the two agree they run to the end,
    the two agree then at the time of the last event, and a latency is
    recorded for runs of the tasks only. *)
Theorem memory_process_runs h now (b : Background MemoryStorage MemoryCache AuditLog)
    (Hstart : agree (at_time now) (pool b)) (Hclock : events_clock now h)
    (Hvalid : Forall event_valid h) :
  exists b', process_runs h b b' /\
    agree (at_time (List.last (map event_time h) now)) (pool b') /\
    exists recorded, HousekeeperTaskLatency b' = HousekeeperTaskLatency b ++ recorded /\
      forall name latency, (name, latency) ∈ recorded -> exists env finish answers t,
        TaskRun env finish answers t ∈ h /\ name = task_name t /\ latency = ElapsedTime finish (Now env).
Proof.
  revert now b Hstart Hclock. induction Hvalid as [|e h He Hvalid IH]; intros now b Hag Hclock.
  { exists b. split; [done|]. split; [done|]. exists []. rewrite app_nil_r. split; [done|].
    intros name latency Hin. by apply elem_of_nil in Hin. }
  destruct (process_step_keeps e now b) as (b1 & E & Hag1 & recorded1 & El1 & Hr1); [done| |exact Hag|].
  { unfold events_clock in Hclock. cbn in Hclock. apply StronglySorted_inv in Hclock as [_ Hle].
    by apply Forall_inv in Hle. }
  destruct (IH (event_time e) b1 Hag1) as (b' & Hruns & Hag' & recorded & El & Hr).
  { unfold events_clock in Hclock. by apply StronglySorted_inv in Hclock as [Hclock _]. }
  exists b'. split; [by exists b1|]. split; [cbn [map]; by rewrite last_cons|].
  exists (recorded1 ++ recorded). split; [by rewrite El, El1, app_assoc|].
  intros name latency [Hin|Hin]%elem_of_app; [apply Hr1 in Hin|apply Hr in Hin];
    destruct Hin as (env & finish & answers & t & Hin & ?); exists env, finish, answers, t; set_solver.
Qed.

(** ** A witness *)

(** What a process without a shutdown is told. *)
Definition undisturbed : TaskAnswers := {|
  ongoing := fun _ => false; ongoing_between := false; ongoing_nack := fun _ => false; canceled := fun _ => false |}.

(** Two messages are added; one is pulled, acked with a lock and unlocked by
    the task; the metrics are computed and the recovery finds nothing to do. *)
Definition busy_process : list process_event :=
  [ Request (at_ms 1000) (QAdd [msg "q" "a" 10 0; msg "q" "b" 5 0]);
    TaskRun (at_ms 1500) (at_ms 1510) undisturbed RECOVERY;
    Request (at_ms 2000) (QPull "q" 1 None None 0);
    Request (at_ms 2500) (QAnswer LOCK_ACK (msg "q" "b" 7 500) "");
    TaskRun (at_ms 3100) (at_ms 3102) undisturbed UNLOCK;
    TaskRun (at_ms 3200) (at_ms 3203) undisturbed METRICS;
    TaskRun (at_ms 3300) (at_ms 3300) undisturbed TTL ].

Definition new_process : Background MemoryStorage MemoryCache AuditLog := {|
  pool := new_memory_queue; metricsMap := NewQueueMetricsMap; HousekeeperTaskLatency := [] |}.

Lemma memory_process_runs_witness :
  exists b', process_runs busy_process new_process b' /\ agree (at_ms 3300) (pool b').
Proof.
  destruct (memory_process_runs busy_process 0 new_process) as (b' & Hruns & Hag & _).
  - apply new_memory_queue_agrees.
  - unfold events_clock. vm_compute. repeat constructor; discriminate.
  - pose proof plain_q. repeat constructor; simpl; try done; try lia.
  - exists b'. split; [exact Hruns|exact Hag].
Defined.

Fixpoint process_after (h : list process_event) (b : Background MemoryStorage MemoryCache AuditLog) :
    Background MemoryStorage MemoryCache AuditLog :=
  match h with
  | [] => b
  | e :: h' => match process_step e b with Ret (b1, _) => process_after h' b1 | Panic _ => b end
  end.

(** The latencies of that process: the metrics and the expiry task ran after
    the recovery, and are recorded too. *)
Example busy_process_latencies :
  let b' := process_after busy_process new_process in
  HousekeeperTaskLatency b' = [("recovery", 10); ("unlock", 2); ("metrics", 3); ("ttl", 0)] /\
  where_is (cache (pool b')) "q" "b" = Some PRIMARY_POOL.
Proof. vm_compute. split; reflexivity. Qed.
