(* ===== verification/GoFloat.v ===== *)
(** * Floating-point numbers as text

    [strconv.ParseFloat] of the standard library with 64 bits: decimal and
    hexadecimal numbers, infinities and not-a-number, with the underscores the
    syntax of Go allows.  The number is rounded once, to the nearest, from its
    exact value.  The text of the errors is left out, except for their kind. *)

From Stdlib Require Import SpecFloat.
From S2P Require Import Prelude GoStrings Float64 Utils.
#[local] Open Scope string_scope.
#[local] Open Scope list_scope.
#[local] Open Scope Z_scope.

Definition ErrSyntax : error := ErrorString "invalid syntax".
Definition ErrRange : error := ErrorString "value out of range".

(** [c | ('x' - 'X')]. *)
Definition lower (c : ascii) : Z := Z.lor (Z.of_nat (nat_of_ascii c)) 32.

(** The value of a digit, with the letters in base 16. *)
Definition mantissa_digit (hex : bool) (c : ascii) : option Z :=
  match digit_value c with
  | Some d => Some d
  | None => if hex && (97 <=? lower c) && (lower c <=? 102) then Some (lower c - 97 + 10) else None
  end.

(** ** Special values *)

Fixpoint commonPrefixLenIgnoreCase (s prefix : string) : nat :=
  match s, prefix with
  | String c s', String p prefix' =>
      let n := Z.of_nat (nat_of_ascii c) in
      let c := if (65 <=? n) && (n <=? 90) then n + 32 else n in
      if c =? Z.of_nat (nat_of_ascii p) then S (commonPrefixLenIgnoreCase s' prefix') else O
  | _, _ => O
  end.

(** The value and the number of bytes read. *)
Definition special_inf (sign : bool) (nsign : nat) (s : string) : option (float64 * nat) :=
  let n := commonPrefixLenIgnoreCase s "infinity" in
  let n := if (3 <? n)%nat && (n <? 8)%nat then 3%nat else n in
  if (n =? 3)%nat || (n =? 8)%nat then Some (S754_infinity sign, (nsign + n)%nat) else None.

Definition special (s : string) : option (float64 * nat) :=
  match s with
  | EmptyString => None
  | String c s' =>
      if Ascii.eqb c "+" then special_inf false 1 s'
      else if Ascii.eqb c "-" then special_inf true 1 s'
      else if Ascii.eqb c "i" || Ascii.eqb c "I" then special_inf false 0 s
      else if Ascii.eqb c "n" || Ascii.eqb c "N" then
        if (commonPrefixLenIgnoreCase s "nan" =? 3)%nat then Some (S754_nan, 3%nat) else None
      else None
  end.

(** ** Numbers *)

(** The optional sign; whether it is a minus, and the rest. *)
Definition split_sign (s : string) : bool * string :=
  match s with
  | String c s' =>
      if Ascii.eqb c "+" then (false, s') else if Ascii.eqb c "-" then (true, s') else (false, s)
  | EmptyString => (false, s)
  end.

(** The optional prefix of a hexadecimal number. *)
Definition split_hex (s : string) : bool * string :=
  match s with
  | String c (String x (String d s')) =>
      if Ascii.eqb c "0" && (lower x =? 120) then (true, String d s') else (false, s)
  | _ => (false, s)
  end.

(** The digits of the mantissa from [mant] on: its value, the number of digits
    after the point, whether there was a digit, and the rest. *)
Fixpoint read_mantissa (hex : bool) (mant frac : Z) (sawdot sawdigits : bool) (s : string) :
    Z * Z * bool * string :=
  match s with
  | EmptyString => (mant, frac, sawdigits, s)
  | String c s' =>
      if Ascii.eqb c "_" then read_mantissa hex mant frac sawdot sawdigits s'
      else if Ascii.eqb c "." then
        if sawdot then (mant, frac, sawdigits, s) else read_mantissa hex mant frac true sawdigits s'
      else match mantissa_digit hex c with
           | Some d =>
               read_mantissa hex (mant * (if hex then 16 else 10) + d) (if sawdot then frac + 1 else frac)
                 sawdot true s'
           | None => (mant, frac, sawdigits, s)
           end
  end.

(** The digits of the exponent; those after [10000] are not read. *)
Fixpoint exponent_digits (e : Z) (s : string) : Z * string :=
  match s with
  | EmptyString => (e, s)
  | String c s' =>
      match digit_value c with
      | Some d => exponent_digits (if e <? 10000 then e * 10 + d else e) s'
      | None => if Ascii.eqb c "_" then exponent_digits e s' else (e, s)
      end
  end.

(** What follows the letter of the exponent. *)
Definition read_exponent (s : string) : option (Z * string) :=
  let '(eneg, s) := split_sign s in
  match s with
  | String c _ =>
      match digit_value c with
      | Some _ => let '(e, rest) := exponent_digits 0 s in Some (if eneg : bool then - e else e, rest)
      | None => None
      end
  | EmptyString => None
  end.

(** What was seen before: a digit, an underscore or something else. *)
Inductive Saw := SawStart | SawDigit | SawUnderscore | SawOther.

Fixpoint underscore_loop (hex : bool) (saw : Saw) (s : string) : bool :=
  match s with
  | EmptyString => match saw with SawUnderscore => false | _ => true end
  | String c s' =>
      match mantissa_digit hex c with
      | Some _ => underscore_loop hex SawDigit s'
      | None =>
          if Ascii.eqb c "_"
          then match saw with SawDigit => underscore_loop hex SawUnderscore s' | _ => false end
          else match saw with SawUnderscore => false | _ => underscore_loop hex SawOther s' end
      end
  end.

Definition underscoreOK (s : string) : bool :=
  let '(_, s) := split_sign s in
  match s with
  | String c (String x s') =>
      if Ascii.eqb c "0" && ((lower x =? 98) || (lower x =? 111) || (lower x =? 120))
      then underscore_loop (lower x =? 120) SawDigit s'
      else underscore_loop false SawStart s
  | _ => underscore_loop false SawStart s
  end.

(** A number read as [mant * base ^ exp]. *)
Record ReadFloat := { mantissa : Z; exp : Z; neg : bool; hex : bool }.

(** [None] when the text is not a number to its end. *)
Definition readFloat (text : string) : option ReadFloat :=
  let '(neg, s) := split_sign text in
  let '(hex, s) := split_hex s in
  let '(mant, frac, sawdigits, rest) := read_mantissa hex 0 0 false false s in
  if negb sawdigits then None
  else
    let frac := if hex then 4 * frac else frac in
    let number := match rest with
      | String c rest' =>
          if lower c =? (if hex then 112 else 101) then read_exponent rest'
          else if hex then None else Some (0, rest)
      | EmptyString => if hex then None else Some (0, rest)
      end in
    match number with
    | Some (e, EmptyString) =>
        if Contains text "_" && negb (underscoreOK text) then None
        else Some {| mantissa := mant; exp := e - frac; neg := neg; hex := hex |}
    | _ => None
    end.

(** The quotient of two positive numbers, rounded. *)
Definition f64_of_ratio (sign : bool) (num den : Z) : float64 :=
  let '(q, e, loc) := SFdiv_core_binary f64_prec f64_emax num 0 den 0 in
  binary_round_aux f64_prec f64_emax sign q e loc.

Definition round_read (r : ReadFloat) : float64 :=
  let signed := if neg r then - mantissa r else mantissa r in
  if hex r then binary_normalize f64_prec f64_emax signed (exp r) (neg r)
  else if 0 <=? exp r then binary_normalize f64_prec f64_emax (signed * 10 ^ exp r) 0 (neg r)
  else if mantissa r =? 0 then S754_zero (neg r)
  else f64_of_ratio (neg r) (mantissa r) (10 ^ (- exp r)).

Definition ParseFloat (s : string) : float64 + error :=
  match special s with
  | Some (x, n) => if (n =? String.length s)%nat then inl x else inr ErrSyntax
  | None =>
      match readFloat s with
      | None => inr ErrSyntax
      | Some r =>
          match round_read r with
          | S754_infinity _ => inr ErrRange
          | x => inl x
          end
      end
  end.

(** ** Examples *)

Example parse_tenth : ParseFloat "0.1" = inl (S754_finite false 7205759403792794 (-56)).
Proof. vm_compute. reflexivity. Qed.

Example parse_largest : ParseFloat "1.7976931348623157e308" = inl (S754_finite false (2 ^ 53 - 1) 971).
Proof. vm_compute. reflexivity. Qed.

Example parse_overflow : ParseFloat "1.8e308" = inr ErrRange.
Proof. vm_compute. reflexivity. Qed.

(** Half of the smallest number is even, and rounds to zero; more than half
    does not. *)
Example parse_underflow :
  ParseFloat "2.4703282292062327e-324" = inl (S754_zero false) /\
  ParseFloat "2.4703282292062329e-324" = inl (S754_finite false 1 (-1074)).
Proof. split; vm_compute; reflexivity. Qed.

Example parse_syntax :
  ParseFloat "-0x1.8p-1" = inl (S754_finite true (3 * 2 ^ 51) (-53)) /\
  ParseFloat "+Inf" = inl (S754_infinity false) /\ ParseFloat "nan" = inl S754_nan /\
  ParseFloat "1_000.5" = inl (S754_finite false (2001 * 2 ^ 42) (-43)) /\
  ParseFloat "1__0" = inr ErrSyntax /\ ParseFloat "0x1.8" = inr ErrSyntax /\
  ParseFloat "1e" = inr ErrSyntax /\ ParseFloat "." = inr ErrSyntax /\ ParseFloat "" = inr ErrSyntax /\
  ParseFloat "1 " = inr ErrSyntax.
Proof. split_and!; vm_compute; reflexivity. Qed.

(** ** Integers *)

(** Every character is a digit. *)
Definition all_digits (s : string) : Prop :=
  Forall (fun c => is_Some (digit_value c)) (list_ascii_of_string s).

Lemma digit_value_bounds c d : digit_value c = Some d -> 48 <= Z.of_nat (nat_of_ascii c) <= 57.
Proof. unfold digit_value. case_if; [|done]. bool_hyps. lia. Qed.

Lemma digit_not c x : is_Some (digit_value c) -> digit_value x = None -> Ascii.eqb c x = false.
Proof. intros [d Hd] Hx. apply Ascii.eqb_neq. intros ->. congruence. Qed.

Lemma read_mantissa_digits s : all_digits s -> forall a v b,
  parse_digits s a = Some v ->
  read_mantissa false a 0 false b s = (v, 0, b || negb (String.eqb s ""), "").
Proof.
  intros Hs. induction s as [|c s IH]; intros a v b; cbn [parse_digits read_mantissa].
  - intros [= ->]. cbn. by rewrite orb_false_r.
  - apply Forall_cons in Hs as [Hc Hs]. rewrite !digit_not by done.
    unfold mantissa_digit. destruct (digit_value c) as [d|]; [|by destruct Hc].
    intros Hv. rewrite (IH Hs _ v true) by done. cbn. by rewrite orb_true_r.
Qed.

Lemma parse_digits_all s : forall a v, parse_digits s a = Some v -> all_digits s.
Proof.
  induction s as [|c s IH]; intros a v; cbn [parse_digits]; [constructor|].
  destruct (digit_value c) as [d|] eqn:E; [|done]. intros Hv. constructor; [by rewrite E|by eapply IH].
Qed.

(** A text of digits is not in base 16, and has no sign and no underscore. *)
Lemma split_hex_digits s : all_digits s -> split_hex s = (false, s).
Proof.
  intros Hs. destruct s as [|c [|x [|d s]]]; try done. cbn [split_hex].
  apply Forall_cons in Hs as [_ Hs]. apply Forall_cons in Hs as [[v Hx] _].
  assert (lower x =? 120 = false) as ->; [|by rewrite andb_false_r].
  apply Z.eqb_neq. unfold lower. apply digit_value_bounds in Hx.
  revert Hx. generalize (Z.of_nat (nat_of_ascii x)) as n. intros n Hn.
  assert (Hin : n ∈ [48; 49; 50; 51; 52; 53; 54; 55; 56; 57]) by (rewrite !elem_of_cons; lia).
  clear -Hin. repeat (apply elem_of_cons in Hin as [->|Hin]; [by vm_compute|]). by apply not_elem_of_nil in Hin.
Qed.

Lemma digits_no_underscore s : all_digits s -> Contains s "_" = false.
Proof.
  intros Hs. apply not_true_is_false. intros (u & v & ->)%Contains_true.
  unfold all_digits in Hs. rewrite !list_ascii_append, !Forall_app in Hs. destruct Hs as (_ & Hs & _).
  apply Forall_cons in Hs as [[d Hd] _]. discriminate.
Qed.

(** The text of a natural number, with a sign before it or not. *)
Lemma read_signed sign s n : s <> "" -> all_digits s -> parse_digits s 0 = Some n ->
  readFloat (if sign : bool then String "-" s else s)
    = Some {| mantissa := n; exp := 0; neg := sign; hex := false |}.
Proof.
  intros Hne Hs Hn.
  assert (Hsplit : split_sign (if sign then String "-" s else s) = (sign, s)).
  { destruct sign; [done|]. destruct s as [|c s]; [done|]. cbn [split_sign].
    apply Forall_cons in Hs as [Hc _]. by rewrite !digit_not by done. }
  unfold readFloat. rewrite Hsplit, split_hex_digits by done.
  rewrite (read_mantissa_digits s Hs 0 n false Hn).
  apply String.eqb_neq in Hne. rewrite Hne. cbn [orb negb].
  assert (Hu : Contains (if sign then String "-" s else s) "_" = false).
  { destruct sign; [|by apply digits_no_underscore]. apply not_true_is_false. intros (u & v & E)%Contains_true.
    destruct u as [|c u]; [discriminate|]. injection E as _ E.
    pose proof (digits_no_underscore s Hs) as Hu. apply not_true_iff_false in Hu. apply Hu.
    apply Contains_true. by exists u, v. }
  by rewrite Hu.
Qed.

Lemma special_digit c s : is_Some (digit_value c) -> special (String c s) = None.
Proof. intros Hc. cbn [special]. by rewrite !digit_not by done. Qed.

Lemma special_minus_digit c s : is_Some (digit_value c) -> special (String "-" (String c s)) = None.
Proof.
  intros [d Hc]. cbn [special]. change (Ascii.eqb "-" "+") with false. change (Ascii.eqb "-" "-") with true.
  apply digit_value_bounds in Hc. unfold special_inf. cbn [commonPrefixLenIgnoreCase].
  rewrite (proj2 (Z.leb_gt 65 _)) by lia. cbn [andb].
  change (Z.of_nat (nat_of_ascii "i")) with 105. by rewrite (proj2 (Z.eqb_neq _ _)) by lia.
Qed.

(** An integer printed in decimal is read as the number nearest to it, unless
    it is too large. *)
Lemma ParseFloat_FormatInt z :
  (forall sign, f64_of_Z z <> S754_infinity sign) -> ParseFloat (FormatInt z) = inl (f64_of_Z z).
Proof.
  intros Hfin. destruct (FormatInt_abs z) as (d & s & E & Hd & Hp).
  assert (Hall : all_digits (String (digit d) s)) by by eapply parse_digits_all.
  assert (Hc : is_Some (digit_value (digit d))) by (rewrite digit_value_digit by done; done).
  assert (Htext : FormatInt z = if z <? 0 then String "-" (String (digit d) s) else String (digit d) s).
  { unfold FormatInt. by rewrite E. }
  unfold ParseFloat. rewrite Htext.
  assert (special (if z <? 0 then String "-" (String (digit d) s) else String (digit d) s) = None) as ->.
  { case_if; [by apply special_minus_digit|by apply special_digit]. }
  rewrite (read_signed (z <? 0) _ (Z.abs z)) by done.
  assert (Hr : round_read {| mantissa := Z.abs z; exp := 0; neg := z <? 0; hex := false |} = f64_of_Z z).
  { unfold round_read, f64_of_Z. cbn [mantissa exp neg hex]. change (0 <=? 0) with true. cbv iota.
    rewrite Z.mul_1_r. destruct (Z.ltb_spec z 0).
    - replace (- Z.abs z) with z by lia. by destruct z.
    - by rewrite Z.abs_eq by lia. }
  rewrite Hr. destruct (f64_of_Z z); try done. by destruct (Hfin s0).
Qed.

(** ** [utils.StrToFloat64] *)

Definition StrToFloat64 (data : string) : float64 + error := ParseFloat data.
