(* ===== verification/Config.v ===== *)
(** * The configuration

    [internal/config]: the keys, their defaults and aliases, [Configure], and
    the getters with their fallback.  [viper] is an interface: what it stores
    and what the environment gives, with the order of precedence it
    documents; the conversions of values are those of the [cast] package. *)

From S2P Require Import Prelude GoStrings Float64 Dtime GoTime.
#[local] Open Scope string_scope.
#[local] Open Scope list_scope.
#[local] Open Scope Z_scope.

(** ** Keys *)

(** A value of a configuration. *)
Inductive Value := VNil | VString (s : string) | VInt (z : Z) | VBool (b : bool).

Record ViperConfigKey := { Key : string; Default : Value; Aliases : list string }.

Definition GetKey (config : ViperConfigKey) : string := Key config.
Definition GetAliases (config : ViperConfigKey) : list string := Aliases config.
Definition GetDefault (config : ViperConfigKey) : Value := Default config.

Definition config_key (key : string) (default : Value) : ViperConfigKey :=
  {| Key := key; Default := default; Aliases := [] |}.

Definition AuditEnabled := config_key "audit.enabled" (VBool false).
Definition ElasticAddress := config_key "elastic.address" (VString "http://localhost:9200/").
Definition ElasticPassword := config_key "elastic.password" VNil.
Definition ElasticUser := config_key "elastic.user" VNil.

Definition CacheType := config_key "cache.type" (VString "MEMORY").
Definition CacheUri := {| Key := "cache.uri"; Aliases := ["redis.uri"]; Default := VNil |}.
Definition CacheConnectionRetryEnabled := config_key "cache.connection.retry.enabled" (VBool true).
Definition CacheConnectionRetryAttempts := config_key "cache.connection.retry.attempts" (VInt 10).
Definition CacheConnectionRetryDelay := config_key "cache.connection.retry.delay" (VString "5s").
Definition CachePrefix := config_key "cache.prefix" (VString "deckard_v1").
Definition RedisClusterMode := config_key "redis.cluster.mode" (VBool false).

Definition HousekeeperEnabled := config_key "housekeeper.enabled" (VBool true).
Definition HousekeeperTaskTimeoutDelay := config_key "housekeeper.task.timeout.delay" (VString "1s").
Definition HousekeeperTaskUnlockDelay := config_key "housekeeper.task.unlock.delay" (VString "1s").
Definition HousekeeperTaskUpdateDelay := config_key "housekeeper.task.update.delay" (VString "1s").
Definition HousekeeperTaskTTLDelay := config_key "housekeeper.task.ttl.delay" (VString "1s").
Definition HousekeeperTaskMaxElementsDelay := config_key "housekeeper.task.max_elements.delay" (VString "1s").
Definition HousekeeperTaskMetricsDelay := config_key "housekeeper.task.metrics.delay" (VString "60s").

Definition DebugEnabled := config_key "debug" (VBool false).
Definition LogType := config_key "log_type" (VString "json").

Definition MetricsEnabled := config_key "metrics.enabled" (VBool true).
Definition MetricsPort := config_key "metrics.port" (VInt 22022).
Definition MetricsPath := config_key "metrics.path" (VString "/metrics").
Definition MetricsHistogramBuckets := config_key "metrics.histogram.buckets"
  (VString "0,1,2,5,10,15,20,30,35,50,100,200,400,600,800,1000,1500,2000,5000,10000").
Definition MetricsOpenMetricsEnabled := config_key "metrics.openmetrics.enabled" (VBool true).

Definition GrpcEnabled := config_key "grpc.enabled" (VBool true).
Definition GrpcPort := config_key "grpc.port" (VInt 8081).
Definition GrpcServerKeepaliveTime := config_key "grpc.server.keepalive_time" VNil.
Definition GrpcServerKeepaliveTimeout := config_key "grpc.server.keepalive_timeout" VNil.
Definition GrpcServerMaxConnectionIdle := config_key "grpc.server.max_connection_idle" VNil.
Definition GrpcServerMaxConnectionAge := config_key "grpc.server.max_connection_age" VNil.
Definition GrpcServerMaxConnectionAgeGrace := config_key "grpc.server.max_connection_age_grace" VNil.
Definition GrpcServerMaxRecvMsgSize := config_key "grpc.server.max_recv_msg_size" (VInt 4194304).
Definition GrpcServerMaxSendMsgSize := config_key "grpc.server.max_send_msg_size" (VInt 4194304).
Definition TlsServerCertFilePaths := config_key "tls.server.cert_file_paths" VNil.
Definition TlsServerKeyFilePaths := config_key "tls.server.key_file_paths" VNil.
Definition TlsClientCertFilePaths := config_key "tls.client.cert_file_paths" VNil.
Definition TlsClientAuthType := config_key "tls.client.auth_type" (VString "NoClientCert").

Definition project_Name : string := "deckard".

Definition StorageType := config_key "storage.type" (VString "MEMORY").
Definition StorageUri := {| Key := "storage.uri"; Aliases := ["mongo.uri"; "mongodb.uri"]; Default := VNil |}.
Definition StorageConnectionRetryEnabled := config_key "storage.connection.retry.enabled" (VBool true).
Definition StorageConnectionRetryAttempts := config_key "storage.connection.retry.attempts" (VInt 10).
Definition StorageConnectionRetryDelay := config_key "storage.connection.retry.delay" (VString "5s").
Definition MongoDatabase :=
  {| Key := "mongo.database"; Aliases := ["mongodb.database"]; Default := VString project_Name |}.
Definition MongoCollection :=
  {| Key := "mongo.collection"; Aliases := ["mongodb.collection"]; Default := VString "queue" |}.
Definition MongoQueueConfigurationCollection :=
  {| Key := "mongo.queue_configuration_collection"; Aliases := ["mongodb.queue_configuration_collection"];
     Default := VString "queue_configuration" |}.

(** What the calls of [Create] append, in the order the files of the package
    are initialised. *)
Definition defaultConfigs : list ViperConfigKey := [
  AuditEnabled; ElasticAddress; ElasticPassword; ElasticUser;
  CacheType; CacheUri; CacheConnectionRetryEnabled; CacheConnectionRetryAttempts;
  CacheConnectionRetryDelay; CachePrefix; RedisClusterMode;
  HousekeeperEnabled; HousekeeperTaskTimeoutDelay; HousekeeperTaskUnlockDelay;
  HousekeeperTaskUpdateDelay; HousekeeperTaskTTLDelay; HousekeeperTaskMaxElementsDelay;
  HousekeeperTaskMetricsDelay; DebugEnabled; LogType;
  MetricsEnabled; MetricsPort; MetricsPath; MetricsHistogramBuckets; MetricsOpenMetricsEnabled;
  GrpcEnabled; GrpcPort; GrpcServerKeepaliveTime; GrpcServerKeepaliveTimeout;
  GrpcServerMaxConnectionIdle; GrpcServerMaxConnectionAge; GrpcServerMaxConnectionAgeGrace;
  GrpcServerMaxRecvMsgSize; GrpcServerMaxSendMsgSize; TlsServerCertFilePaths;
  TlsServerKeyFilePaths; TlsClientCertFilePaths; TlsClientAuthType;
  StorageType; StorageUri; StorageConnectionRetryEnabled; StorageConnectionRetryAttempts;
  StorageConnectionRetryDelay; MongoDatabase; MongoCollection; MongoQueueConfigurationCollection].

(** ** viper *)

(** The environment of the process: [None] for a variable that is not set. *)
Definition Environ : Type := string -> option string.

Class Viper (V : Type) := {
  viper_Reset : V -> V;
  SetEnvKeyReplacer : string -> string -> V -> V;
  SetEnvPrefix : string -> V -> V;
  AutomaticEnv : V -> V;
  BindEnv : string -> list string -> V -> V;
  SetDefault : string -> Value -> V -> V;
  viper_Set : string -> Value -> V -> V;
  (** [v.Get(key)]: nil when nothing is found *)
  viper_Get : Environ -> string -> V -> Value;
  (** the conversions of the [cast] package *)
  ToString : Value -> string;
  ToBool : Value -> bool;
  ToInt : Value -> Z;
  ToDuration : Value -> Z
}.

Section Config.
Context {V : Type} {HV : Viper V}.

Definition IsSet (env : Environ) (key : string) (v : V) : bool :=
  match viper_Get env key v with VNil => false | _ => true end.
Definition GetString (env : Environ) (key : string) (v : V) : string := ToString (viper_Get env key v).
Definition viper_GetBool (env : Environ) (key : string) (v : V) : bool := ToBool (viper_Get env key v).
Definition viper_GetInt (env : Environ) (key : string) (v : V) : Z := ToInt (viper_Get env key v).
Definition viper_GetDuration (env : Environ) (key : string) (v : V) : Z := ToDuration (viper_Get env key v).

Definition Set_ (config : ViperConfigKey) (value : Value) (v : V) : V :=
  foldl (fun v alias => viper_Set alias value v) (viper_Set (GetKey config) value v) (GetAliases config).

(** ** The getters *)

Section Fallback.
Context {T : Type} (eqb : T -> T -> bool).

Fixpoint alias_loop (env : Environ) (aliases : list string) (defaultVal : T) (keyGetter : string -> T) (v : V) : T :=
  match aliases with
  | [] => defaultVal
  | alias :: aliases' =>
      if IsSet env alias v && negb (eqb (keyGetter alias) defaultVal) then keyGetter alias
      else alias_loop env aliases' defaultVal keyGetter v
  end.

Definition getWithFallback (env : Environ) (config : ViperConfigKey) (defaultVal : T)
    (keyGetter : string -> T) (v : V) : T :=
  if IsSet env (Key config) v && negb (eqb (keyGetter (Key config)) defaultVal)
  then keyGetter (Key config)
  else alias_loop env (GetAliases config) defaultVal keyGetter v.
End Fallback.

Definition Get (env : Environ) (config : ViperConfigKey) (v : V) : string :=
  let defaultVal := match GetDefault config with VString val => val | _ => "" end in
  getWithFallback String.eqb env config defaultVal (fun key => GetString env key v) v.

Definition duration_default (config : ViperConfigKey) : Z :=
  match GetDefault config with
  | VString val => match ParseDuration val with inl parsed => parsed | inr _ => 0 end
  | _ => 0
  end.

(** The closure [getDuration]. *)
Definition getDuration (env : Environ) (defaultVal : Z) (v : V) (key : string) : Z :=
  let duration := viper_GetDuration env key v in
  if negb (duration =? 0) then duration
  else
    let str := GetString env key v in
    if negb (String.eqb str "") then
      match ParseDuration str with inl parsed => parsed | inr _ => defaultVal end
    else 0.

Definition GetDuration (env : Environ) (config : ViperConfigKey) (v : V) : Z :=
  let defaultVal := duration_default config in
  getWithFallback Z.eqb env config defaultVal (getDuration env defaultVal v) v.

Definition GetBool (env : Environ) (config : ViperConfigKey) (v : V) : bool :=
  let defaultVal := match GetDefault config with VBool val => val | _ => false end in
  getWithFallback Bool.eqb env config defaultVal (fun key => viper_GetBool env key v) v.

Definition GetInt (env : Environ) (config : ViperConfigKey) (v : V) : Z :=
  let defaultVal := match GetDefault config with VInt val => val | _ => 0 end in
  getWithFallback Z.eqb env config defaultVal (fun key => viper_GetInt env key v) v.

(** ** [Configure] *)

Definition set_defaults (configs : list ViperConfigKey) (v : V) : V :=
  foldl (fun v config =>
           foldl (fun v alias => SetDefault alias (GetDefault config) v)
             (SetDefault (GetKey config) (GetDefault config) v) (GetAliases config))
    v configs.

(** The global state: whether [Configure] has run, and viper. *)
Record ConfigState := { configured : bool; viper : V }.

(** The bindings made when the package is initialised. *)
Definition init (v : V) : V :=
  BindEnv (GetKey LogType) ["LOG_TYPE"; "log_type"] (BindEnv (GetKey DebugEnabled) ["DEBUG"; "debug"] v).

Definition Configure (reset : list bool) (s : ConfigState) : ConfigState :=
  if configured s && Nat.eqb (length reset) 0 then s
  else
    let v := viper_Reset (viper s) in
    let v := AutomaticEnv (SetEnvPrefix project_Name (SetEnvKeyReplacer "." "_" v)) in
    {| configured := true; viper := set_defaults defaultConfigs v |}.
End Config.
Arguments ConfigState V : clear implicits.
