(* ===== verification/ConfigProps.v ===== *)
(** * Properties of the configuration

    What viper is relied on for, and the value each key has after
    [Configure]: the first one the environment gives, under the key or an
    alias, that is not the default. *)

From S2P Require Import Prelude GoStrings Float64 Dtime GoTime Config.
#[local] Open Scope string_scope.
#[local] Open Scope list_scope.
#[local] Open Scope Z_scope.

(** ** What viper does *)

Definition map_string (f : ascii -> ascii) (s : string) : string :=
  string_of_list_ascii (map f (list_ascii_of_string s)).

Definition to_upper (c : ascii) : ascii :=
  let n := nat_of_ascii c in if Nat.leb 97 n && Nat.leb n 122 then ascii_of_nat (n - 32) else c.

Definition is_upper (c : ascii) : bool :=
  let n := nat_of_ascii c in Nat.leb 65 n && Nat.leb n 90.

(** The variable of a key: prefix and key in upper case, with an underscore
    for each point. *)
Definition env_name (prefix key : string) : string :=
  map_string (fun c => if Ascii.eqb c "."%char then "_"%char else to_upper c) ((prefix +:+ "_") +:+ key).

(** The first variable that is set; an empty one counts as not set. *)
Fixpoint first_env (env : Environ) (names : list string) : option string :=
  match names with
  | [] => None
  | n :: names' => match env n with Some (String c s) => Some (String c s) | _ => first_env env names' end
  end.

(** A key under another one. *)
Definition nested (parent key : string) : bool := HasPrefix key (parent +:+ ".").

(** Keys are not case-sensitive: these are written in lower case. *)
Definition lower_case (key : string) : bool := forallb (fun c => negb (is_upper c)) (list_ascii_of_string key).

Definition apart (k k' : string) : Prop :=
  lower_case k = true /\ lower_case k' = true /\ nested k k' = false /\ nested k' k = false.

Class ViperSpec (V : Type) {HV : Viper V} := {
  overrides : V -> string -> Value;
  env_names : V -> string -> list string;
  defaults : V -> string -> Value;
  spec_Get : forall env k v,
    (forall p, nested p k = true -> first_env env (env_names v p) = None) ->
    viper_Get env k v =
      match overrides v k with
      | VNil => match first_env env (env_names v k) with Some s => VString s | None => defaults v k end
      | x => x
      end;
  spec_start : forall v prefix,
    let v' := AutomaticEnv (SetEnvPrefix prefix (SetEnvKeyReplacer "." "_" (viper_Reset v))) in
    forall k, overrides v' k = VNil /\ defaults v' k = VNil /\ env_names v' k = [env_name prefix k];
  spec_Reset : forall v k,
    overrides (viper_Reset v) k = VNil /\ defaults (viper_Reset v) k = VNil /\ env_names (viper_Reset v) k = [];
  spec_BindEnv : forall k names v k',
    overrides (BindEnv k names v) k' = overrides v k' /\ defaults (BindEnv k names v) k' = defaults v k' /\
    (lower_case k' = true -> k' <> k -> env_names (BindEnv k names v) k' = env_names v k');
  spec_SetDefault : forall k x v k', apart k k' ->
    defaults (SetDefault k x v) k' = if decide (k' = k) then x else defaults v k';
  spec_SetDefault_others : forall k x v k',
    overrides (SetDefault k x v) k' = overrides v k' /\ env_names (SetDefault k x v) k' = env_names v k';
  spec_ToString : forall s, ToString (VString s) = s;
  spec_ToString_nil : ToString VNil = "";
  spec_ToDuration : forall s d, ParseDuration s = inl d -> ToDuration (VString s) = d;
  spec_ToDuration_invalid : forall s err err',
    ParseDuration s = inr err -> ParseDuration (s +:+ "ns") = inr err' -> ToDuration (VString s) = 0
}.

(** ** The fallback *)

(** The first value that is not the default. *)
Fixpoint first_other {T} (eqb : T -> T -> bool) (defaultVal : T) (values : list (option T)) : T :=
  match values with
  | [] => defaultVal
  | Some x :: values' => if eqb x defaultVal then first_other eqb defaultVal values' else x
  | None :: values' => first_other eqb defaultVal values'
  end.

Section Facts.
Context {V : Type} {HV : Viper V} {HS : ViperSpec V}.

(** The getter sees a value, or the default, under each of the keys. *)
Lemma getWithFallback_first {T} (eqb : T -> T -> bool) env config d (g : string -> T) (v : V)
    (value : string -> option T) :
  (forall x, eqb x x = true) ->
  (forall k, k ∈ Key config :: Aliases config ->
    match value k with
    | Some x => IsSet env k v = true /\ g k = x
    | None => IsSet env k v = false \/ g k = d
    end) ->
  getWithFallback eqb env config d g v = first_other eqb d (map value (Key config :: Aliases config)).
Proof using Type.
  intros Heq H. unfold getWithFallback.
  assert (Hloop : forall aliases, (forall k, k ∈ aliases -> match value k with
      | Some x => IsSet env k v = true /\ g k = x | None => IsSet env k v = false \/ g k = d end) ->
    alias_loop eqb env aliases d g v = first_other eqb d (map value aliases)).
  { induction aliases as [|k ks IH]; intros Hk; [done|]. cbn [alias_loop map first_other].
    specialize (IH ltac:(intros; apply Hk; by right)). pose proof (Hk k ltac:(by left)) as Hv.
    destruct (value k) as [x|].
    - destruct Hv as [-> ->]. cbn [andb]. destruct (eqb x d); cbn; by rewrite ?IH.
    - destruct Hv as [-> | ->]; rewrite ?Heq; cbn; rewrite ?andb_false_r; exact IH. }
  cbn [map first_other]. pose proof (H (Key config) ltac:(by left)) as Hv.
  change (GetAliases config) with (Aliases config). rewrite Hloop by (intros; apply H; by right).
  destruct (value (Key config)) as [x|].
  - destruct Hv as [-> ->]. cbn [andb]. by destruct (eqb x d).
  - destruct Hv as [-> | ->]; rewrite ?Heq; cbn; rewrite ?andb_false_r; done.
Qed.

(** ** [Configure] *)

Definition key_values (configs : list ViperConfigKey) : list (string * Value) :=
  flat_map (fun c => map (fun k => (k, Default c)) (Key c :: Aliases c)) configs.

Definition set_all (l : list (string * Value)) (v : V) : V :=
  foldl (fun v kv => SetDefault kv.1 kv.2 v) v l.

Lemma set_defaults_all configs v : set_defaults configs v = set_all (key_values configs) v.
Proof using Type.
  revert v. induction configs as [|c configs IH]; intros v; [done|]. unfold set_defaults, set_all in *.
  cbn [foldl key_values flat_map]. rewrite foldl_app. cbn [map foldl]. rewrite IH. f_equal.
  unfold GetAliases, GetDefault, GetKey. cbn [fst snd]. generalize (SetDefault (Key c) (Default c) v).
  induction (Aliases c) as [|a l IHl]; intros w; [done|]. cbn [foldl map]. apply IHl.
Qed.

Lemma set_all_others l v k :
  overrides (set_all l v) k = overrides v k /\ env_names (set_all l v) k = env_names v k.
Proof using HS.
  revert v. induction l as [|[k' x] l IH]; intros v; [done|].
  change (set_all ((k', x) :: l) v) with (set_all l (SetDefault k' x v)).
  destruct (IH (SetDefault k' x v)) as [-> ->]. apply spec_SetDefault_others.
Qed.

Lemma set_all_defaults l v k :
  Forall (fun kv => apart kv.1 k) l -> NoDup l.*1 ->
  defaults (set_all l v) k =
    match List.find (fun kv => String.eqb kv.1 k) l with Some kv => kv.2 | None => defaults v k end.
Proof using HS.
  intros Hap Hnd. revert v. induction l as [|[k' x] l IH]; intros v; [done|].
  apply Forall_cons in Hap as [Ha Hap]. apply NoDup_cons in Hnd as [Hni Hnd]. cbn in Ha, Hni.
  change (set_all ((k', x) :: l) v) with (set_all l (SetDefault k' x v)). cbn [List.find fst snd].
  rewrite IH by done.
  destruct (String.eqb_spec k' k) as [->|Hne].
  - destruct (List.find _ l) as [[k2 y]|] eqn:E.
    + apply List.find_some in E as [Hin Hk]. apply String.eqb_eq in Hk. cbn in Hk. subst k2.
      destruct Hni. apply list_elem_of_fmap. exists (k, y). split; [done|by apply list_elem_of_In].
    + rewrite spec_SetDefault by done. by rewrite decide_True.
  - destruct (List.find _ l) as [kv|]; [done|]. rewrite spec_SetDefault by done. by rewrite decide_False.
Qed.
End Facts.

(** The keys and aliases are distinct, in lower case, and none is under
    another. *)
Definition apart_b (k k' : string) : bool :=
  lower_case k && lower_case k' && negb (nested k k') && negb (nested k' k).

Lemma apart_b_true k k' : apart_b k k' = true -> apart k k'.
Proof. unfold apart_b, apart. destruct (lower_case k), (lower_case k'), (nested k k'), (nested k' k); done. Qed.

Lemma default_keys_apart kv kv' :
  kv ∈ key_values defaultConfigs -> kv' ∈ key_values defaultConfigs -> apart kv.1 kv'.1.
Proof.
  intros H H'. apply apart_b_true.
  assert (Hall : forallb (fun a => forallb (fun b => apart_b a.1 b.1) (key_values defaultConfigs))
    (key_values defaultConfigs) = true) by (vm_compute; reflexivity).
  rewrite forallb_forall in Hall. specialize (Hall kv ltac:(by apply list_elem_of_In)).
  rewrite forallb_forall in Hall. apply Hall. by apply list_elem_of_In.
Qed.

Lemma default_keys_NoDup : NoDup (key_values defaultConfigs).*1.
Proof. apply (bool_decide_unpack _). vm_compute. exact I. Qed.

(** What the environment gives for a key. *)
Definition env_text (env : Environ) (key : string) : option string :=
  first_env env [env_name project_Name key].

Definition keys (K : ViperConfigKey) : list string := Key K :: Aliases K.

(** No variable is set for a key above one of [K]. *)
Definition unshadowed (env : Environ) (K : ViperConfigKey) : Prop :=
  forall k p, k ∈ keys K -> nested p k = true -> env_text env p = None.

(** [Configure] is called for the first time, or to reset. *)
Definition configures {V} (reset : list bool) (s : ConfigState V) : Prop := configured s = false \/ reset <> [].

Section Configured.
Context {V : Type} {HV : Viper V} {HS : ViperSpec V}.

Lemma elem_of_key_values (K : ViperConfigKey) k configs :
  K ∈ configs -> k ∈ keys K -> (k, Default K) ∈ key_values configs.
Proof using Type.
  intros HK Hk. apply list_elem_of_In, in_flat_map. exists K. split; [by apply list_elem_of_In|].
  apply in_map_iff. exists k. split; [done|by apply list_elem_of_In].
Qed.

Lemma find_unique {A} (l : list (string * A)) k x :
  NoDup l.*1 -> (k, x) ∈ l -> List.find (fun kv => String.eqb kv.1 k) l = Some (k, x).
Proof using Type.
  intros Hnd Hin. induction l as [|[k' y] l IH]; [by apply elem_of_nil in Hin|]. cbn.
  apply NoDup_cons in Hnd as [Hni Hnd]. apply elem_of_cons in Hin as [[= <- <-]|Hin].
  - by rewrite String.eqb_refl.
  - destruct (String.eqb_spec k' k) as [->|_]; [|by apply IH]. destruct Hni.
    apply list_elem_of_fmap. by exists (k, x).
Qed.

(** What viper finds for a key once configured. *)
Lemma configured_Get env reset (s : ConfigState V) K k :
  K ∈ defaultConfigs -> k ∈ keys K -> configures reset s -> unshadowed env K ->
  viper_Get env k (viper (Configure reset s)) =
    match env_text env k with Some t => VString t | None => Default K end.
Proof using HS.
  intros HK Hk Hc Hun. unfold Configure.
  assert (E : configured s && Nat.eqb (length reset) 0 = false).
  { destruct Hc as [->|Hr]; [done|]. destruct reset; [done|]. apply andb_false_r. }
  rewrite E. cbn [viper]. rewrite set_defaults_all.
  pose proof (spec_start (viper s) project_Name) as Hstart. cbv zeta in Hstart.
  set (v := AutomaticEnv _) in *. clearbody v.
  pose proof (elem_of_key_values K k _ HK Hk) as Hkv.
  assert (Hnames : forall k', env_names (set_all (key_values defaultConfigs) v) k' = [env_name project_Name k']).
  { intros k'. destruct (set_all_others (key_values defaultConfigs) v k') as [_ ->]. apply Hstart. }
  rewrite spec_Get by (intros p Hp; rewrite Hnames; by apply (Hun k p)).
  destruct (set_all_others (key_values defaultConfigs) v k) as [-> _].
  destruct (Hstart k) as (-> & Hd & _). rewrite Hnames. unfold env_text.
  destruct (first_env env _); [done|]. rewrite set_all_defaults.
  - rewrite (find_unique _ k (Default K)); [done|apply default_keys_NoDup|done].
  - apply Forall_forall. intros kv Hkv'. by apply (default_keys_apart kv (k, Default K)).
  - apply default_keys_NoDup.
Qed.

(** The text of a key without a value is empty. *)
Definition default_text (K : ViperConfigKey) : string :=
  match Default K with VString d => d | _ => "" end.

(** Once configured, a key with a text has the first value that the
    environment gives, under the key and then under its aliases in order, and
    that is not the default, and otherwise the default; a variable set for an
    alias only is not ignored. *)
Theorem configured_text env reset (s : ConfigState V) K
    (HK : K ∈ defaultConfigs) (Hd : Default K = VString (default_text K) \/ Default K = VNil)
    (Hc : configures reset s) (Hun : unshadowed env K) :
  Get env K (viper (Configure reset s)) =
    first_other String.eqb (default_text K) (map (env_text env) (keys K)).
Proof using HS.
  unfold Get. apply getWithFallback_first; [apply String.eqb_refl|]. intros k Hk.
  pose proof (configured_Get env reset s K k HK Hk Hc Hun) as Hget.
  unfold IsSet, GetString. rewrite Hget. destruct (env_text env k) as [t|].
  - split; [done|apply spec_ToString].
  - unfold default_text, GetDefault in *. destruct Hd as [->| ->]; [right; apply spec_ToString|by left].
Qed.

(** The duration the environment gives for a key: a text that is not one
    counts as not set. *)
Definition env_duration (env : Environ) (key : string) : option Z :=
  match env_text env key with
  | Some t => match ParseDuration t with inl d => Some d | inr _ => None end
  | None => None
  end.

(** No text of the environment is a number without a unit, which [cast] takes
    for nanoseconds. *)
Definition no_bare_numbers (env : Environ) (K : ViperConfigKey) : Prop :=
  forall k t d, k ∈ keys K -> env_text env k = Some t ->
    ParseDuration (t +:+ "ns") = inl d -> exists d', ParseDuration t = inl d'.

(** Once configured, a duration is the first one that the environment
    gives and that is not the default, and otherwise the default: a text that
    is not a duration never replaces the default, and does not hide a value
    given for an alias. *)
Theorem configured_duration env reset (s : ConfigState V) K text d
    (HK : K ∈ defaultConfigs) (Hd : Default K = VString text) (Hp : ParseDuration text = inl d)
    (Hc : configures reset s) (Hun : unshadowed env K) (Hbare : no_bare_numbers env K) :
  GetDuration env K (viper (Configure reset s)) = first_other Z.eqb d (map (env_duration env) (keys K)).
Proof using HS.
  unfold GetDuration. assert (Hdef : duration_default K = d).
  { unfold duration_default, GetDefault. by rewrite Hd, Hp. }
  rewrite Hdef. apply getWithFallback_first; [apply Z.eqb_refl|]. intros k Hk.
  pose proof (configured_Get env reset s K k HK Hk Hc Hun) as Hget.
  assert (Hvalid : forall t x, viper_Get env k (viper (Configure reset s)) = VString t -> ParseDuration t = inl x ->
    getDuration env d (viper (Configure reset s)) k = x).
  { intros t x Ht Hx. unfold getDuration, viper_GetDuration, GetString. rewrite Ht, (spec_ToDuration t x Hx).
    destruct (Z.eqb_spec x 0) as [->|Hne]; [|done]. cbn. rewrite spec_ToString.
    destruct (String.eqb_spec t "") as [->|_]; [by vm_compute in Hx|]. cbn. by rewrite Hx. }
  unfold env_duration. destruct (env_text env k) as [t|] eqn:Et.
  - destruct (ParseDuration t) as [x|err] eqn:Ep.
    + split; [unfold IsSet; by rewrite Hget|by apply (Hvalid t)].
    + right. destruct (ParseDuration (t +:+ "ns")) as [x|err'] eqn:En.
      { destruct (Hbare k t x Hk Et En) as [? Hx]. congruence. }
      unfold getDuration, viper_GetDuration, GetString.
      rewrite Hget, (spec_ToDuration_invalid t err err' Ep En). cbn. rewrite spec_ToString.
      assert (Hne : t <> "").
      { intros ->. revert Et. unfold env_text. cbn. by destruct (env _) as [[]|]. }
      apply String.eqb_neq in Hne. rewrite Hne. cbn. by rewrite Ep.
  - right. rewrite Hd in Hget. by apply (Hvalid text).
Qed.

(** What was bound before is gone once configured: the names [init] binds for
    the debug flag and the type of the log are never read. *)
Lemma init_bindings_lost env reset (v : V) :
  unshadowed env DebugEnabled ->
  viper_Get env "debug" (viper (Configure reset {| configured := false; viper := init v |})) =
    match env_text env "debug" with Some t => VString t | None => VBool false end.
Proof using HS.
  intros Hun. apply (configured_Get env reset _ DebugEnabled); [|by left|by left|done].
  apply list_elem_of_In. vm_compute. tauto.
Qed.

Lemma nested_lower_case p k : nested p k = true -> lower_case k = true -> lower_case p = true.
Proof using Type.
  intros (t & ->)%HasPrefix_true. unfold lower_case. rewrite !list_ascii_append, !forallb_app, !andb_true_iff. tauto.
Qed.

(** Before [Configure] a key has its default, whatever the environment: the
    boundaries of the histograms, which are read when the package of the
    metrics is initialised, cannot be configured. *)
Lemma histogram_buckets_unconfigured env (v : V) :
  Get env MetricsHistogramBuckets (init (viper_Reset v)) = default_text MetricsHistogramBuckets.
Proof using HS.
  assert (Hnone : forall k, lower_case k = true -> k <> "debug" -> k <> "log_type" ->
    overrides (init (viper_Reset v)) k = VNil /\ defaults (init (viper_Reset v)) k = VNil /\
    env_names (init (viper_Reset v)) k = []).
  { intros k Hl Hd Ht. unfold init.
    change (GetKey LogType) with "log_type". change (GetKey DebugEnabled) with "debug".
    destruct (spec_BindEnv "log_type" ["LOG_TYPE"; "log_type"] (BindEnv "debug" ["DEBUG"; "debug"] (viper_Reset v)) k)
      as (-> & -> & E1).
    destruct (spec_BindEnv "debug" ["DEBUG"; "debug"] (viper_Reset v) k) as (-> & -> & E2).
    destruct (spec_Reset v k) as (-> & -> & E3). split_and!; [done|done|].
    by rewrite E1, E2. }
  assert (Hg : viper_Get env "metrics.histogram.buckets" (init (viper_Reset v)) = VNil).
  { rewrite spec_Get.
    - destruct (Hnone "metrics.histogram.buckets") as (-> & -> & ->); done.
    - intros p Hp. destruct (Hnone p) as (_ & _ & ->); [by eapply nested_lower_case|..]; try done;
        intros ->; vm_compute in Hp; discriminate. }
  unfold Get, getWithFallback, IsSet. cbn [Key MetricsHistogramBuckets config_key]. by rewrite Hg.
Qed.
End Configured.

(** ** A concrete viper *)

Record ModelViper := {
  m_overrides : gmap string Value;
  m_prefix : option string;
  m_bound : gmap string (list string);
  m_defaults : gmap string Value
}.

Definition found_value (m : gmap string Value) (k : string) : Value := default VNil (m !! k).

Definition model_names (v : ModelViper) (k : string) : list string :=
  match m_prefix v with Some p => [env_name p k] | None => [] end ++ default [] (m_bound v !! k).

#[local] Instance ModelViper_Viper : Viper ModelViper := {
  viper_Reset := fun _ => {| m_overrides := ∅; m_prefix := None; m_bound := ∅; m_defaults := ∅ |};
  SetEnvKeyReplacer := fun _ _ v => v;
  SetEnvPrefix := fun p v =>
    {| m_overrides := m_overrides v; m_prefix := Some p; m_bound := m_bound v; m_defaults := m_defaults v |};
  AutomaticEnv := fun v => v;
  BindEnv := fun k names v =>
    {| m_overrides := m_overrides v; m_prefix := m_prefix v; m_bound := <[k := names]> (m_bound v);
       m_defaults := m_defaults v |};
  SetDefault := fun k x v =>
    {| m_overrides := m_overrides v; m_prefix := m_prefix v; m_bound := m_bound v;
       m_defaults := <[k := x]> (m_defaults v) |};
  viper_Set := fun k x v =>
    {| m_overrides := <[k := x]> (m_overrides v); m_prefix := m_prefix v; m_bound := m_bound v;
       m_defaults := m_defaults v |};
  viper_Get := fun env k v =>
    match found_value (m_overrides v) k with
    | VNil => match first_env env (model_names v k) with
              | Some s => VString s
              | None => found_value (m_defaults v) k
              end
    | x => x
    end;
  ToString := fun x => match x with VString s => s | _ => "" end;
  ToBool := fun x => match x with VBool b => b | VString s => String.eqb s "true" | _ => false end;
  ToInt := fun x => match x with VInt z => z | _ => 0 end;
  ToDuration := fun x =>
    match x with
    | VString s =>
        match ParseDuration s with
        | inl d => d
        | inr _ => match ParseDuration (s +:+ "ns") with inl d => d | inr _ => 0 end
        end
    | VInt z => z
    | _ => 0
    end
}.

#[local] Instance ModelViper_Spec : ViperSpec ModelViper.
Proof.
  refine {| overrides := fun v => found_value (m_overrides v); env_names := model_names;
            defaults := fun v => found_value (m_defaults v) |}; try done.
  - intros k names v k'. split_and!; try done. intros _ Hne. unfold model_names. cbn. by rewrite lookup_insert_ne.
  - intros k x v k' _. cbn. unfold found_value. case_decide as E; [by rewrite E, lookup_insert_eq|].
    by rewrite lookup_insert_ne.
  - intros s d H. cbn. by rewrite H.
  - intros s err err' H H'. cbn. by rewrite H, H'.
Defined.

(** ** Witnesses *)

Definition no_viper : ConfigState ModelViper :=
  {| configured := false;
     viper := init {| m_overrides := ∅; m_prefix := None; m_bound := ∅; m_defaults := ∅ |} |}.

(** The environment with one variable, that of a key. *)
Definition env_one (key text : string) : Environ :=
  fun name => if String.eqb name (env_name project_Name key) then Some text else None.

Lemma map_string_length f s : String.length (map_string f s) = String.length s.
Proof.
  induction s as [|c s IH]; [done|]. unfold map_string in *. cbn. by rewrite IH.
Qed.

Lemma env_one_unshadowed key text K :
  Forall (fun k => String.length k <= String.length key)%nat (keys K) -> unshadowed (env_one key text) K.
Proof.
  intros Hlen k p Hk Hn. rewrite Forall_forall in Hlen. specialize (Hlen k Hk).
  apply HasPrefix_true in Hn as [t ->]. rewrite !append_length in Hlen. cbn in Hlen.
  unfold env_text, env_one. cbn [first_env]. destruct (String.eqb_spec (env_name project_Name p) (env_name project_Name key)) as [E|]; [|done].
  apply (f_equal String.length) in E. unfold env_name in E. rewrite !map_string_length, !append_length in E. lia.
Qed.

(** The database is named under the alias of its key. *)
Lemma configured_text_witness :
  Get (env_one "mongodb.database" "orders") MongoDatabase (viper (Configure [] no_viper)) = "orders".
Proof.
  rewrite (configured_text (env_one "mongodb.database" "orders") [] no_viper MongoDatabase).
  - vm_compute. reflexivity.
  - apply list_elem_of_In. vm_compute. tauto.
  - left. reflexivity.
  - left. reflexivity.
  - apply env_one_unshadowed. repeat constructor.
Defined.

(** A delay that is not a duration leaves the default of one second. *)
Lemma configured_duration_witness :
  GetDuration (env_one "housekeeper.task.ttl.delay" "soon") HousekeeperTaskTTLDelay
    (viper (Configure [] no_viper)) = Second.
Proof.
  rewrite (configured_duration (env_one "housekeeper.task.ttl.delay" "soon") [] no_viper
    HousekeeperTaskTTLDelay "1s" Second).
  - vm_compute. reflexivity.
  - apply list_elem_of_In. vm_compute. tauto.
  - reflexivity.
  - vm_compute. reflexivity.
  - left. reflexivity.
  - apply env_one_unshadowed. repeat constructor.
  - intros k t d Hk Ht. apply list_elem_of_singleton in Hk. subst k. vm_compute in Ht. injection Ht as <-.
    intros Hp. vm_compute in Hp. discriminate.
Defined.
