(* ===== verification/Server.v ===== *)
(** * The gRPC server

    The start of the server in [internal/service/deckard_service.go]: its
    options, the TLS credentials and the keepalive parameters.  Files, the
    network and the reading of certificates are the parameters. *)

From S2P Require Import Prelude GoStrings Float64 Dtime Utils GoTime Config ConfigProps.
#[local] Open Scope string_scope.
#[local] Open Scope list_scope.
#[local] Open Scope Z_scope.

(** ** Texts *)

(** [strings.Split(s, sep)] for a separator of one byte. *)
Fixpoint Split (sep : ascii) (s : string) : list string :=
  match s with
  | EmptyString => [""]
  | String c s' =>
      if Ascii.eqb c sep then "" :: Split sep s'
      else match Split sep s' with
           | part :: parts => String c part :: parts
           | [] => [String c ""]
           end
  end.

(** ** Files and the network *)

Record Host (Certificate Pool Listener : Type) := {
  (** [tls.LoadX509KeyPair(certFile, keyFile)] *)
  LoadX509KeyPair : string -> string -> Certificate + error;
  ReadFile : string -> string + error;
  NewCertPool : Pool;
  (** [AppendCertsFromPEM]: the pool with the certificates of the text, and
      whether there was one *)
  AppendCertsFromPEM : string -> Pool -> Pool * bool;
  (** [net.Listen("tcp", address)] *)
  Listen : string -> Listener + error
}.
Arguments LoadX509KeyPair {_ _ _} _ _ _.
Arguments ReadFile {_ _ _} _ _.
Arguments NewCertPool {_ _ _} _.
Arguments AppendCertsFromPEM {_ _ _} _ _ _.
Arguments Listen {_ _ _} _ _.

Inductive ClientAuthType :=
  NoClientCert | RequestClientCert | RequireAnyClientCert | VerifyClientCertIfGiven | RequireAndVerifyClientCert.

(** [tls.Config]: the fields that are set. *)
Record TlsConfig {Certificate Pool : Type} := {
  Certificates : list Certificate;
  ClientAuth : ClientAuthType;
  ClientCAs : option Pool
}.
Arguments TlsConfig : clear implicits.

(** [keepalive.ServerParameters]. *)
Record ServerParameters := {
  MaxConnectionIdle : Z;
  MaxConnectionAge : Z;
  MaxConnectionAgeGrace : Z;
  KeepaliveTime : Z;
  KeepaliveTimeout : Z
}.

(** The server that is started. *)
Record GrpcServer {Certificate Pool Listener : Type} := {
  listener : Listener;
  keepalive : ServerParameters;
  maxRecvMsgSize : Z;
  maxSendMsgSize : Z;
  creds : option (TlsConfig Certificate Pool);
  (** the names whose health is set to serving, in order *)
  serving : list string
}.
Arguments GrpcServer : clear implicits.

Section Server.
Context {V : Type} {HV : Viper V} {Certificate Pool Listener : Type}.
Variable env : Environ.
Variable v : V.
Implicit Types host : Host Certificate Pool Listener.

Definition getGrpcKeepaliveParams : ServerParameters :=
  let value config := if negb (String.eqb (Get env config v) "") then GetDuration env config v else 0 in
  {| KeepaliveTime := value GrpcServerKeepaliveTime;
     KeepaliveTimeout := value GrpcServerKeepaliveTimeout;
     MaxConnectionIdle := value GrpcServerMaxConnectionIdle;
     MaxConnectionAge := value GrpcServerMaxConnectionAge;
     MaxConnectionAgeGrace := value GrpcServerMaxConnectionAgeGrace |}.

Definition getClientAuthType : ClientAuthType + error :=
  let clientAuth := Get env TlsClientAuthType v in
  if String.eqb clientAuth "NoClientCert" then inl NoClientCert
  else if String.eqb clientAuth "RequestClientCert" then inl RequestClientCert
  else if String.eqb clientAuth "RequireAnyClientCert" then inl RequireAnyClientCert
  else if String.eqb clientAuth "VerifyClientCertIfGiven" then inl VerifyClientCertIfGiven
  else if String.eqb clientAuth "RequireAndVerifyClientCert" then inl RequireAndVerifyClientCert
  else inr (ErrorString ("invalid client auth type: " +:+ clientAuth)).

Fixpoint append_certs (clientCerts : list string) (certPool : Pool) host : Pool + error :=
  match clientCerts with
  | [] => inl certPool
  | clientCert :: clientCerts' =>
      match ReadFile host clientCert with
      | inr err =>
          inr (WrapError (("error reading client CA's certificate (" +:+ clientCert) +:+ ")") err)
      | inl pemServerCA =>
          match AppendCertsFromPEM host pemServerCA certPool with
          | (certPool, true) => append_certs clientCerts' certPool host
          | (_, false) =>
              inr (ErrorString (("failed to add client CA's certificate (" +:+ clientCert) +:+ ") to the pool"))
          end
      end
  end.

(** [None] is the nil pool. *)
Definition loadClientCertPool host : option Pool + error :=
  let clientCert := Get env TlsClientCertFilePaths v in
  if String.eqb clientCert "" then inl None
  else match append_certs (Split ","%char clientCert) (NewCertPool host) host with
       | inl certPool => inl (Some certPool)
       | inr err => inr err
       end.

(** The loop over the pairs of paths, of which there are as many keys as
    certificates. *)
Fixpoint load_pairs (certPathList keyPathList : list string) host : list Certificate + error :=
  match certPathList, keyPathList with
  | certPath :: certs, keyPath :: keys =>
      match LoadX509KeyPair host certPath keyPath with
      | inr err =>
          inr (WrapError ((("could not load credentials (" +:+ certPath) +:+ " and ") +:+ (keyPath +:+ ") for server")) err)
      | inl cert =>
          match load_pairs certs keys host with
          | inl certificates => inl (cert :: certificates)
          | inr err => inr err
          end
      end
  | _, _ => inl []
  end.

(** [None] are the nil credentials: a server without TLS. *)
Definition loadTLSCredentials host : option (TlsConfig Certificate Pool) + error :=
  let certPath := Get env TlsServerCertFilePaths v in
  let keyPath := Get env TlsServerKeyFilePaths v in
  if String.eqb certPath "" || String.eqb keyPath "" then inl None
  else
    let certPathList := Split ","%char certPath in
    let keyPathList := Split ","%char keyPath in
    if negb (Nat.eqb (length certPathList) (length keyPathList)) then
      inr (ErrorString "certificate and key file paths must have the same length")
    else match load_pairs certPathList keyPathList host with
         | inr err => inr err
         | inl certificates =>
             match getClientAuthType with
             | inr err => inr err
             | inl authType =>
                 match loadClientCertPool host with
                 | inr err => inr err
                 | inl certPool =>
                     inl (Some {| Certificates := certificates; ClientAuth := authType; ClientCAs := certPool |})
                 end
             end
         end.

(** The listener that was opened, and the server.  [services]: the names
    [GetServiceInfo] gives, in the order of the range. *)
Definition ServeGRPCServer (services : list string) host :
    option Listener * (GrpcServer Certificate Pool Listener + error) :=
  let port := GetInt env GrpcPort v in
  let maxMsgRecvSize := GetInt env GrpcServerMaxRecvMsgSize v in
  let maxMsgSendSize := GetInt env GrpcServerMaxSendMsgSize v in
  match Listen host (":" +:+ FormatInt port) with
  | inr err => (None, inr err)
  | inl listen =>
      (Some listen,
       match loadTLSCredentials host with
       | inr err => inr err
       | inl credentials =>
          inl {| listener := listen; keepalive := getGrpcKeepaliveParams; maxRecvMsgSize := maxMsgRecvSize;
                 maxSendMsgSize := maxMsgSendSize; creds := credentials; serving := services ++ [""] |}
       end)
  end.

(** ** What the credentials are *)

Definition auth_name (t : ClientAuthType) : string :=
  match t with
  | NoClientCert => "NoClientCert"
  | RequestClientCert => "RequestClientCert"
  | RequireAnyClientCert => "RequireAnyClientCert"
  | VerifyClientCertIfGiven => "VerifyClientCertIfGiven"
  | RequireAndVerifyClientCert => "RequireAndVerifyClientCert"
  end.

Lemma getClientAuthType_name t : getClientAuthType = inl t <-> Get env TlsClientAuthType v = auth_name t.
Proof using Type.
  unfold getClientAuthType. set (s := Get env TlsClientAuthType v). clearbody s.
  destruct (String.eqb_spec s "NoClientCert") as [->|H1]; [by destruct t|].
  destruct (String.eqb_spec s "RequestClientCert") as [->|H2]; [by destruct t|].
  destruct (String.eqb_spec s "RequireAnyClientCert") as [->|H3]; [by destruct t|].
  destruct (String.eqb_spec s "VerifyClientCertIfGiven") as [->|H4]; [by destruct t|].
  destruct (String.eqb_spec s "RequireAndVerifyClientCert") as [->|H5]; [by destruct t|].
  split; [done|]. by destruct t.
Qed.

Lemma load_pairs_loads certs keys l host :
  length certs = length keys -> load_pairs certs keys host = inl l ->
  length l = length certs /\
  forall i c k, certs !! i = Some c -> keys !! i = Some k ->
    exists x, l !! i = Some x /\ LoadX509KeyPair host c k = inl x.
Proof using Type.
  revert keys l. induction certs as [|c certs IH]; intros [|k keys] l Hlen; cbn in Hlen; try done.
  { intros [= <-]. split; [done|]. intros i c k. by rewrite lookup_nil. }
  cbn [load_pairs]. destruct (LoadX509KeyPair host c k) as [x|] eqn:E; [|done].
  destruct (load_pairs certs keys host) as [l'|] eqn:El; [|done]. intros [= <-].
  apply IH in El as [Hl' Hall]; [|lia]. split; [cbn; by rewrite Hl'|].
  intros [|i] c' k'; cbn; [|by apply Hall]. intros [= <-] [= <-]. by exists x.
Qed.

(** The certificates of every file named are in the pool. *)
Inductive appended host : list string -> Pool -> Pool -> Prop :=
  | appended_nil p : appended host [] p p
  | appended_cons file files p pem p1 p2 :
      ReadFile host file = inl pem -> AppendCertsFromPEM host pem p = (p1, true) ->
      appended host files p1 p2 -> appended host (file :: files) p p2.

Lemma append_certs_appended files host : forall p p',
  append_certs files p host = inl p' -> appended host files p p'.
Proof using Type.
  induction files as [|f files IH]; intros p p'; cbn [append_certs]; [intros [= <-]; constructor|].
  destruct (ReadFile host f) as [pem|] eqn:Er; [|done].
  destruct (AppendCertsFromPEM host pem p) as [p1 []] eqn:Ea; [|done]. intros H. econstructor; eauto.
Qed.

(** The server is never started with less protection than configured:
    when a certificate path and a key path are set, a server that starts has
    TLS, with the certificate of every pair of paths in order, the client
    authentication that is named, and a pool with the authorities of every
    client file, if there is any; everything else is an error.  Without one
    of the two paths it has no TLS at all. *)
Theorem tls_as_configured services host server
    (Hserve : (ServeGRPCServer services host).2 = inl server) :
  let certs := Split ","%char (Get env TlsServerCertFilePaths v) in
  let keys := Split ","%char (Get env TlsServerKeyFilePaths v) in
  let authorities := Get env TlsClientCertFilePaths v in
  match creds server with
  | None => Get env TlsServerCertFilePaths v = "" \/ Get env TlsServerKeyFilePaths v = ""
  | Some tls =>
      length (Certificates tls) = length certs /\ length keys = length certs /\
      (forall i c k, certs !! i = Some c -> keys !! i = Some k ->
         exists x, Certificates tls !! i = Some x /\ LoadX509KeyPair host c k = inl x) /\
      Get env TlsClientAuthType v = auth_name (ClientAuth tls) /\
      match ClientCAs tls with
      | None => authorities = ""
      | Some pool => authorities <> "" /\ appended host (Split ","%char authorities) (NewCertPool host) pool
      end
  end.
Proof using Type.
  intros certs keys authorities. unfold ServeGRPCServer in Hserve.
  destruct (Listen host _); [|done]. cbn [snd] in Hserve. destruct (loadTLSCredentials host) as [c|] eqn:E; [|done].
  injection Hserve as <-. cbn [creds]. revert E. unfold loadTLSCredentials.
  destruct (String.eqb_spec (Get env TlsServerCertFilePaths v) "") as [Hc|Hc]; cbn [orb].
  { intros [= <-]. by left. }
  destruct (String.eqb_spec (Get env TlsServerKeyFilePaths v) "") as [Hk|Hk].
  { intros [= <-]. by right. }
  fold certs keys. destruct (Nat.eqb_spec (length certs) (length keys)) as [Hlen|]; [|done]. cbn [negb].
  destruct (load_pairs certs keys host) as [loaded|] eqn:El; [|done]. apply load_pairs_loads in El as [Hl Hall]; [|done].
  destruct getClientAuthType as [t|] eqn:Et; [|done]. apply getClientAuthType_name in Et.
  destruct (loadClientCertPool host) as [p|] eqn:Ep; [|done]. intros [= <-].
  cbn [Certificates ClientAuth ClientCAs]. split_and!; try done.
  revert Ep. unfold loadClientCertPool. fold authorities.
  destruct (String.eqb_spec authorities "") as [Ha|Ha]; [by intros [= <-]|].
  destruct (append_certs _ _ host) as [p'|] eqn:Ea; [|done]. intros [= <-]. split; [done|].
  by apply append_certs_appended.
Qed.
End Server.

(** ** Witness *)

#[local] Existing Instance ModelViper_Viper.

(** Two pairs of files, and a client authority. *)
Definition tls_env : Environ := fun name =>
  if String.eqb name "DECKARD_TLS_SERVER_CERT_FILE_PATHS" then Some "a.pem,b.pem"
  else if String.eqb name "DECKARD_TLS_SERVER_KEY_FILE_PATHS" then Some "a.key,b.key"
  else if String.eqb name "DECKARD_TLS_CLIENT_CERT_FILE_PATHS" then Some "ca.pem"
  else if String.eqb name "DECKARD_TLS_CLIENT_AUTH_TYPE" then Some "RequireAndVerifyClientCert"
  else None.

(** A host on which every file can be read. *)
Definition model_host : Host (string * string) (list string) string := {|
  LoadX509KeyPair := fun c k => inl (c, k); ReadFile := fun f => inl f; NewCertPool := [];
  AppendCertsFromPEM := fun pem p => (p ++ [pem], true); Listen := fun address => inl address |}.

Lemma tls_as_configured_witness :
  exists server, ServeGRPCServer tls_env (viper (Configure [] no_viper)) ["blipai.deckard.Deckard"] model_host = (Some ":8081", inl server) /\
    exists tls, creds server = Some tls /\ length (Certificates tls) = 2%nat /\
      ClientAuth tls = RequireAndVerifyClientCert.
Proof.
  destruct (ServeGRPCServer tls_env (viper (Configure [] no_viper)) ["blipai.deckard.Deckard"] model_host)
    as [listen [server|e]] eqn:E; [|vm_compute in E; discriminate].
  exists server. split; [vm_compute in E |- *; congruence|].
  pose proof (tls_as_configured tls_env (viper (Configure [] no_viper)) ["blipai.deckard.Deckard"] model_host server (f_equal snd E)) as H.
  cbv zeta in H. destruct (creds server) as [tls|].
  - exists tls. split; [reflexivity|]. destruct H as (Hlen & _ & _ & Hauth & _). split.
    + rewrite Hlen. vm_compute. reflexivity.
    + destruct (ClientAuth tls); vm_compute in Hauth; congruence.
  - destruct H as [H|H]; vm_compute in H; discriminate.
Defined.
