(* ===== verification/Instruments.v ===== *)
(** * What the metrics endpoint gives

    [internal/metrics/metrics.go] and [registry.go]: the instruments that are
    created, the labels of the process, the boundaries of the histograms, the
    observation of the gauges, where the metrics are served, and the registry
    that adds the labels.  What an instrument records belongs to OpenTelemetry
    and Prometheus. *)

From Stdlib Require Import SpecFloat.
From S2P Require Import Prelude GoStrings Float64 Dtime Utils GoTime GoFloat Config ConfigProps Server Metrics.
#[local] Open Scope string_scope.
#[local] Open Scope list_scope.
#[local] Open Scope Z_scope.

Definition project_Version : string := "1.0.0-rc3-SNAPSHOT".

Record LabelPair := { Name : string; Value : string }.

(** [strings.Replace(s, ".", "_", -1)]. *)
Definition dots_to_underscores (s : string) : string :=
  string_of_list_ascii (map (fun c => if Ascii.eqb c "."%char then "_"%char else c) (list_ascii_of_string s)).

(** The loop over the attributes; one that is not a name and a value is
    skipped. *)
Definition attribute_labels (attributes : list string) : list LabelPair :=
  omap (fun attribute =>
          match Split "="%char attribute with
          | [name; value] => Some {| Name := dots_to_underscores name; Value := value |}
          | _ => None
          end) attributes.

(** [os.Getenv]. *)
Definition Getenv (env : Environ) (name : string) : string := default "" (env name).

Definition createDefaultMetrics (env : Environ) : list LabelPair :=
  let otelAttributes := Getenv env "OTEL_RESOURCE_ATTRIBUTES" in
  let otelAttributes :=
    if negb (Contains otelAttributes "service.version") then
      ((if negb (String.eqb otelAttributes "") then otelAttributes +:+ "," else otelAttributes)
         +:+ "service.version=") +:+ project_Version
    else otelAttributes in
  let result := attribute_labels (Split ","%char otelAttributes) in
  let otelServiceName := Getenv env "OTEL_SERVICE_NAME" in
  let otelServiceName := if String.eqb otelServiceName "" then project_Name else otelServiceName in
  result ++ [{| Name := "service_name"; Value := otelServiceName |}].

(** The loop over the texts; the first one that is not a number is an error. *)
Fixpoint parse_buckets (values : list string) : list float64 + error :=
  match values with
  | [] => inl []
  | value :: values' =>
      match StrToFloat64 (TrimSpace value) with
      | inr err => inr err
      | inl x => match parse_buckets values' with inl xs => inl (x :: xs) | inr err => inr err end
      end
  end.

Definition parseHistogramBuckets (data : string) : list float64 + error :=
  if String.eqb data "" then inl [] else parse_buckets (Split ","%char data).

(** The boundaries configured or, when there is none or one is not a number,
    the default ones. *)
Definition getHistogramBuckets {V} `{Viper V} (env : Environ) (v : V) : list float64 :=
  match parseHistogramBuckets (Get env MetricsHistogramBuckets v) with
  | inl (x :: buckets) => x :: buckets
  | _ =>
      match GetDefault MetricsHistogramBuckets with
      | VString data => match parseHistogramBuckets data with inl buckets => buckets | inr _ => [] end
      | _ => []
      end
  end.

(** The gauges: each queue with its value, in the order of the range. *)
Definition metrify (env : Env) (data : gmap string Z) : list (Z * string) :=
  map (fun kv => (kv.2, kv.1)) (map_range (env_order env) data).

Definition metrifyOldestMessages (env : Env) (m : QueueMetricsMap) : list (Z * string) :=
  metrify env (OldestElement m).

Definition metrifyTotalElements (env : Env) (m : QueueMetricsMap) : list (Z * string) :=
  metrify env (TotalElements m).

(** ** The instruments *)

Inductive InstrumentKind := Int64Counter | Int64Histogram | Int64ObservableGauge.

#[export] Instance InstrumentKind_eq_dec : EqDecision InstrumentKind.
Proof. solve_decision. Defined.

Record Instrument := {
  instrument_Name : string;
  instrument_Kind : InstrumentKind;
  instrument_Description : string;
  instrument_Unit : string
}.

(** The instruments, in the order they are created. *)
Definition instruments : list Instrument :=
  [ {| instrument_Name := "deckard_code_usage"; instrument_Kind := Int64Counter;
      instrument_Description := "Number of times a specific feature was used by a client"; instrument_Unit := "" |};
    {| instrument_Name := "deckard_exceeding_messages_removed"; instrument_Kind := Int64Counter;
      instrument_Description := "Number of messages removed from storage for exceeding maximum queue size"; instrument_Unit := "" |};
    {| instrument_Name := "deckard_exceeding_messages_cache_removed"; instrument_Kind := Int64Counter;
      instrument_Description := "Number of messages removed from cache for exceeding maximum queue size"; instrument_Unit := "" |};
    {| instrument_Name := "deckard_housekeeper_task_latency"; instrument_Kind := Int64Histogram;
      instrument_Description := "Time in milliseconds to complete a housekeeper task."; instrument_Unit := "ms" |};
    {| instrument_Name := "deckard_oldest_message"; instrument_Kind := Int64ObservableGauge;
      instrument_Description := "Time the oldest queue message was used."; instrument_Unit := "" |};
    {| instrument_Name := "deckard_total_messages"; instrument_Kind := Int64ObservableGauge;
      instrument_Description := "Number of messages a queue has."; instrument_Unit := "" |};
    {| instrument_Name := "deckard_ttl_messages_removed"; instrument_Kind := Int64Counter;
      instrument_Description := "Number of messages removed from storage for ttl"; instrument_Unit := "" |};
    {| instrument_Name := "deckard_ttl_messages_cache_removed"; instrument_Kind := Int64Counter;
      instrument_Description := "Number of messages removed from cache for ttl"; instrument_Unit := "" |};
    {| instrument_Name := "deckard_message_unlock"; instrument_Kind := Int64Counter;
      instrument_Description := "Number of unlocked messages."; instrument_Unit := "" |};
    {| instrument_Name := "deckard_message_timeout"; instrument_Kind := Int64Counter;
      instrument_Description := "Number of message timeouts"; instrument_Unit := "" |};
    {| instrument_Name := "deckard_ack"; instrument_Kind := Int64Counter;
      instrument_Description := "Number of acks received"; instrument_Unit := "" |};
    {| instrument_Name := "deckard_nack"; instrument_Kind := Int64Counter;
      instrument_Description := "Number of nacks received"; instrument_Unit := "" |};
    {| instrument_Name := "deckard_messages_empty_queue"; instrument_Kind := Int64Counter;
      instrument_Description := "Number of times a pull is made against an empty queue."; instrument_Unit := "" |};
    {| instrument_Name := "deckard_messages_empty_queue_not_found_storage"; instrument_Kind := Int64Counter;
      instrument_Description := "Number of times a pull is made against an empty queue because the messages were not found in the storage."; instrument_Unit := "" |};
    {| instrument_Name := "deckard_messages_not_found_in_storage"; instrument_Kind := Int64Counter;
      instrument_Description := "Number of messages in cache but not found in the storage."; instrument_Unit := "" |};
    {| instrument_Name := "deckard_storage_latency"; instrument_Kind := Int64Histogram;
      instrument_Description := "Storage access latency"; instrument_Unit := "ms" |};
    {| instrument_Name := "deckard_cache_latency"; instrument_Kind := Int64Histogram;
      instrument_Description := "Cache access latency"; instrument_Unit := "ms" |};
    {| instrument_Name := "deckard_auditor_store_add_latency"; instrument_Kind := Int64Histogram;
      instrument_Description := "Latency to add an entry to be saved by the audit storer"; instrument_Unit := "ms" |};
    {| instrument_Name := "deckard_auditor_store_latency"; instrument_Kind := Int64Histogram;
      instrument_Description := "Latency sending elements to the audit database"; instrument_Unit := "ms" |} ].

(** [Panicf] of the logger. *)
Definition panicInstrumentationError (err : option error) : outcome unit :=
  match err with
  | Some err => Panic ("Failed to initialize instrument: " +:+ error_Error err)
  | None => Ret tt
  end.

Fixpoint create_instruments (create : Instrument -> option error) (l : list Instrument) :
    outcome (list Instrument) :=
  match l with
  | [] => Ret []
  | i :: l' =>
      obind (panicInstrumentationError (create i)) (fun _ =>
      obind (create_instruments create l') (fun created => Ret (i :: created)))
  end.

(** [create]: what the meter answers for an instrument. *)
Definition createMetrics (create : Instrument -> option error) : outcome (list Instrument) :=
  create_instruments create instruments.

(** What [init] sets up: the labels the registry adds, the boundaries the
    exporter gives the histograms, and the instruments. *)
Record MetricsSetup := {
  registry_labels : list LabelPair;
  histogram_boundaries : list float64;
  created_instruments : list Instrument
}.

Definition metrics_init {V} `{Viper V} (env : Environ) (v : V) (create : Instrument -> option error) :
    outcome MetricsSetup :=
  obind (createMetrics create) (fun created =>
    Ret {| registry_labels := createDefaultMetrics env; histogram_boundaries := getHistogramBuckets env v;
           created_instruments := created |}).

(** Where the metrics are served. *)
Record MetricsEndpoint := {
  endpoint_Path : string;
  EnableOpenMetrics : bool;
  endpoint_Address : string
}.

(** [prometheusStarted]: the variable of the package, before and after.  The
    serving itself belongs to [net/http]. *)
Definition ListenAndServe {V} `{Viper V} (env : Environ) (v : V) (prometheusStarted : bool) :
    bool * option MetricsEndpoint :=
  if negb (GetBool env MetricsEnabled v) || prometheusStarted then (prometheusStarted, None)
  else (true, Some {| endpoint_Path := Get env MetricsPath v;
                      EnableOpenMetrics := GetBool env MetricsOpenMetricsEnabled v;
                      endpoint_Address := ":" +:+ FormatInt (GetInt env MetricsPort v) |}).

(** ** The registry *)

(** A family of metrics: what is measured stays abstract. *)
Record MetricFamily (M : Type) := { family_Name : string; family_Metric : list (list LabelPair * M) }.
Arguments family_Name {M} _.
Arguments family_Metric {M} _.

Definition Gather {M} (labels : list LabelPair) (families : list (MetricFamily M) + error) :
    list (MetricFamily M) + error :=
  match families with
  | inr err => inr err
  | inl families =>
      let families := map (fun f =>
        if String.eqb (family_Name f) "target_info" then f
        else {| family_Name := family_Name f;
                family_Metric := map (fun m => (m.1 ++ labels, m.2)) (family_Metric f) |}) families in
      inl (List.filter (fun f => negb (Contains (family_Name f) "rpc_server_duration")) families)
  end.

(** The instruments are created in order; the first that cannot be created
    makes the start of the process panic. *)
Lemma create_instruments_ok create l :
  (forall i, i ∈ l -> create i = None) -> create_instruments create l = Ret l.
Proof.
  induction l as [|i l IH]; intros Hc; [done|]. cbn [create_instruments].
  rewrite (Hc i), IH by set_solver. done.
Qed.

Lemma create_instruments_panics create before i after err :
  (forall j, j ∈ before -> create j = None) -> create i = Some err ->
  create_instruments create (before ++ i :: after)
    = Panic ("Failed to initialize instrument: " +:+ error_Error err).
Proof.
  induction before as [|j before IH]; intros Hb Hi; cbn [app create_instruments]; [by rewrite Hi|].
  rewrite (Hb j), IH by set_solver. done.
Qed.

(** The metrics are served once. *)
Lemma ListenAndServe_once {V} `{Viper V} env (v : V) started :
  (ListenAndServe env v (ListenAndServe env v started).1).2 = None \/ (ListenAndServe env v started).1 = false.
Proof. unfold ListenAndServe. destruct (GetBool _ _ _), started; cbn; by auto. Qed.

(** Each queue is observed once, with its value. *)
Lemma metrify_observes env data :
  NoDup (metrify env data).*2 /\ forall q z, (z, q) ∈ metrify env data <-> data !! q = Some z.
Proof.
  unfold metrify. split.
  - rewrite <- list_fmap_compose. apply NoDup_map_range_fst.
  - intros q z. rewrite <- (elem_of_map_range (env_order env) data q z). rewrite list_elem_of_In, in_map_iff.
    setoid_rewrite <- list_elem_of_In. split.
    + intros ([k x] & [= <- <-] & H). exact H.
    + intros H. by exists (q, z).
Qed.

(** Every family that is not one of the gRPC durations is given, and each of
    its series has the labels of the process. *)
Lemma Gather_labels {M} labels (families : list (MetricFamily M)) given f :
  Gather labels (inl families) = inl given -> f ∈ families ->
  Contains (family_Name f) "rpc_server_duration" = false -> family_Name f <> "target_info" ->
  exists g, g ∈ given /\ family_Name g = family_Name f /\
    family_Metric g = map (fun m => (m.1 ++ labels, m.2)) (family_Metric f).
Proof.
  intros [= <-] Hf Hc Ht. apply String.eqb_neq in Ht.
  exists {| family_Name := family_Name f; family_Metric := map (fun m => (m.1 ++ labels, m.2)) (family_Metric f) |}.
  split; [|done]. apply elem_of_filter_iff. split; [|cbn [family_Name]; by rewrite Hc].
  apply list_elem_of_In, in_map_iff. exists f. split; [by rewrite Ht|by apply list_elem_of_In].
Qed.

Example labels_without_environment :
  createDefaultMetrics (fun _ => None) =
    [{| Name := "service_version"; Value := project_Version |}; {| Name := "service_name"; Value := "deckard" |}].
Proof. vm_compute. reflexivity. Qed.

(** ** The boundaries of the histograms *)

(** A text none of whose characters are in the cutset is not trimmed. *)
Lemma trimmed_digits z : TrimSpace (FormatInt z) = FormatInt z.
Proof.
  unfold TrimSpace. apply Trim_id. apply Forall_forall. intros c Hc.
  assert (Hall : Forall (fun c => existsb (fun x => negb (is_number_char x)) (list_ascii_of_string c) = true) unicode_space).
  { apply (bool_decide_eq_true_1 _). vm_compute. reflexivity. }
  rewrite Forall_forall in Hall. specialize (Hall c Hc). apply existsb_exists in Hall as (x & Hx & Hn).
  exists x. split; [by apply list_elem_of_In|]. intros Hin.
  pose proof (FormatInt_chars z) as Hf. rewrite Forall_forall in Hf. rewrite Hf in Hn by done. discriminate.
Qed.

Lemma Split_no_sep sep s : sep ∉ list_ascii_of_string s -> Split sep s = [s].
Proof.
  induction s as [|c s IH]; intros Hn; [done|]. cbn in Hn. apply not_elem_of_cons in Hn as [Hc Hn].
  cbn [Split]. rewrite IH by done. by rewrite (proj2 (Ascii.eqb_neq c sep)) by congruence.
Qed.

Lemma Split_cons sep part s : sep ∉ list_ascii_of_string part ->
  Split sep (part +:+ String sep s) = part :: Split sep s.
Proof.
  induction part as [|c part IH]; intros Hn; rewrite ?append_cons, ?append_nil; cbn [Split].
  - by rewrite Ascii.eqb_refl.
  - cbn in Hn. apply not_elem_of_cons in Hn as [Hc Hn]. rewrite IH by done.
    by rewrite (proj2 (Ascii.eqb_neq c sep)) by congruence.
Qed.

Lemma Split_concat sep parts : parts <> [] -> Forall (fun p => sep ∉ list_ascii_of_string p) parts ->
  Split sep (String.concat (String sep "") parts) = parts.
Proof.
  intros Hne Hp. induction Hp as [|p parts Hn Hp IH]; [done|].
  destruct parts as [|p' parts]; [by apply Split_no_sep|].
  change (String.concat (String sep "") (p :: p' :: parts))
    with (p +:+ String sep (String.concat (String sep "") (p' :: parts))).
  by rewrite Split_cons, IH.
Qed.

(** Boundaries written as integers are read as the numbers nearest to them. *)
Theorem histogram_buckets_roundtrip zs
    (Hne : zs <> []) (Hfinite : Forall (fun z => forall sign, f64_of_Z z <> S754_infinity sign) zs) :
  parseHistogramBuckets (String.concat "," (map FormatInt zs)) = inl (map f64_of_Z zs).
Proof.
  assert (Hsep : forall z, ","%char ∉ list_ascii_of_string (FormatInt z)).
  { intros z Hin. pose proof (FormatInt_chars z) as Hf. rewrite Forall_forall in Hf. specialize (Hf _ Hin). done. }
  unfold parseHistogramBuckets. rewrite (proj2 (String.eqb_neq _ _)).
  2:{ destruct zs as [|z [|z' zs]]; [done|apply FormatInt_not_empty|]. cbn.
      pose proof (FormatInt_not_empty z) as Hz. by destruct (FormatInt z). }
  rewrite Split_concat.
  - clear Hne. induction Hfinite as [|z zs Hz Hzs IH]; [done|]. cbn [map parse_buckets].
    rewrite trimmed_digits. unfold StrToFloat64. by rewrite ParseFloat_FormatInt, IH.
  - by destruct zs.
  - apply Forall_forall. intros p (z & -> & _)%list_elem_of_fmap. apply Hsep.
Qed.

Definition default_buckets : list Z :=
  [0; 1; 2; 5; 10; 15; 20; 30; 35; 50; 100; 200; 400; 600; 800; 1000; 1500; 2000; 5000; 10000].

(** The boundaries of the histograms are read when the package is initialised,
    before [Configure]: they are the default ones, whatever the environment. *)
Lemma histogram_buckets_default {V} {HV : Viper V} {HS : ViperSpec V} env (v : V) :
  getHistogramBuckets env (init (viper_Reset v)) = map f64_of_Z default_buckets.
Proof.
  unfold getHistogramBuckets. rewrite histogram_buckets_unconfigured. vm_compute. reflexivity.
Qed.
