(* ===== verification/Counters.v ===== *)
(** * The counters of the queue

    The operations of the queue and the tasks of the housekeeper count what
    they do under names; [createMetrics] of [internal/metrics/metrics.go]
    creates the counters.  Every name that is used is one of a counter that
    was created. *)

From S2P Require Import Prelude Float64 Dtime Message Cache Storage AuditTrail Metrics.
From S2P Require Import Queue QueueFacts Housekeeper Instruments.
#[local] Open Scope string_scope.
#[local] Open Scope list_scope.
#[local] Open Scope Z_scope.

(** The names of the counters. *)
Definition counter_names : list string :=
  map instrument_Name (List.filter (fun i => bool_decide (instrument_Kind i = Int64Counter)) instruments).

Section Counters.
Context {S C A : Type} `{Storage S} `{Cache C} `{Auditor A}.
Abbreviation Q := (Queue S C A).

(** A computation only adds to counters that exist, and forgets no count. *)
Definition counted {R} (f : Comp Q R) : Prop := forall q q' r, f q = Ret (q', r) ->
  exists l, metrics q' = metrics q ++ l /\ Forall (fun e => counter e ∈ counter_names) l.

Lemma counted_same {R} (f : Comp Q R) :
  (forall q q' r, f q = Ret (q', r) -> metrics q' = metrics q) -> counted f.
Proof using Type. intros Hf q q' r E. exists []. rewrite app_nil_r. split; [by eapply Hf|done]. Qed.

Lemma counted_ret {R} (a : R) : counted (mret a).
Proof using Type. apply counted_same. by intros q q' r [= <- _]. Qed.

Lemma counted_bind {R R'} (f : Comp Q R) (k : R -> Comp Q R') :
  counted f -> (forall r, counted (k r)) -> counted (x ← f; k x).
Proof using Type.
  intros Hf Hk q q' r (q1 & a & E1 & E2)%bind_Ret.
  destruct (Hf _ _ _ E1) as (l1 & M1 & F1), (Hk _ _ _ _ E2) as (l2 & M2 & F2).
  exists (l1 ++ l2). rewrite M2, M1, <- app_assoc. split; [done|by apply Forall_app].
Qed.

Lemma counted_on_storage {R} (f : S -> S * R) : counted (on_storage f).
Proof using Type. apply counted_same. intros q q' r. unfold on_storage. destruct (f _). by intros [= <- _]. Qed.

Lemma counted_on_cache {R} (f : C -> C * R) : counted (on_cache f).
Proof using Type. apply counted_same. intros q q' r. unfold on_cache. destruct (f _). by intros [= <- _]. Qed.

Lemma counted_on_cache_o {R} (f : C -> outcome (C * R)) : counted (on_cache_o f).
Proof using Type.
  apply counted_same. intros q q' r. unfold on_cache_o. destruct (f _) as [[c a]|]; [|done]. by intros [= <- _].
Qed.

Lemma counted_ask_storage {R} (f : S -> outcome R) : counted (ask_storage f).
Proof using Type.
  apply counted_same. intros q q' r. unfold ask_storage. destruct (f _); [|done]. by intros [= <- _].
Qed.

Lemma counted_ask_cache {R} (f : C -> outcome R) : counted (ask_cache f).
Proof using Type.
  apply counted_same. intros q q' r. unfold ask_cache. destruct (f _); [|done]. by intros [= <- _].
Qed.

Lemma counted_audit env e : counted (audit env e).
Proof using Type. apply counted_same. by intros q q' r [= <- _]. Qed.

Lemma counted_metric name n attrs : bool_decide (name ∈ counter_names) = true -> counted (metric_Add name n attrs).
Proof using Type.
  intros Hn%bool_decide_eq_true q q' r [= <- _]. eexists. split; [done|]. by apply Forall_singleton.
Qed.

Lemma counted_for_each {X} (f : X -> Comp Q unit) l : (forall x, counted (f x)) -> counted (for_each f l).
Proof using Type.
  intros Hf. induction l as [|x l IH]; [apply counted_ret|]. by apply counted_bind.
Qed.

(** Follows a computation through its branches. *)
Ltac count :=
  repeat match goal with
  | H : _ |- counted _ => apply H
  | |- counted (mbind _ _) => apply counted_bind; [|intros ?]
  | |- counted (mret _) => apply counted_ret
  | |- counted (on_storage _) => apply counted_on_storage
  | |- counted (on_cache _) => apply counted_on_cache
  | |- counted (on_cache_o _) => apply counted_on_cache_o
  | |- counted (ask_storage _) => apply counted_ask_storage
  | |- counted (ask_cache _) => apply counted_ask_cache
  | |- counted (audit _ _) => apply counted_audit
  | |- counted (metric_Add _ _ _) => apply counted_metric; vm_compute; reflexivity
  | |- counted (for_each _ _) => apply counted_for_each; intros ?
  | |- counted (if ?b then _ else _) => destruct b
  | |- counted (match ?x with _ => _ end) => destruct x
  | |- counted (let '_ := ?x in _) => destruct x
  end.

(** ** The queue *)

Lemma add_members_counted env reason l : forall n, counted (add_members env reason l n).
Proof using Type. induction l as [|[qn els] l IH]; intros n; cbn [add_members]; count. Qed.

Lemma getFromStorage_counted env ids qn sort retry : counted (getFromStorage env ids qn sort retry).
Proof using Type. unfold getFromStorage. count. Qed.

Lemma pull_retry_counted env qn sort ms nf : counted (pull_retry env qn sort ms nf).
Proof using Type.
  pose proof (getFromStorage_counted env nf qn sort true). unfold pull_retry, pull_finish. count.
Qed.

Lemma Pull_counted env qn n mn mx dl : counted (Pull env qn n mn mx dl).
Proof using Type.
  pose proof getFromStorage_counted. pose proof pull_retry_counted. unfold Pull. cbv zeta. count.
Qed.

Lemma answer_counted env m reason : counted (Ack env m reason) /\ counted (Nack env m reason).
Proof using Type. unfold Ack, Nack. cbv zeta. split; count. Qed.

Lemma Remove_counted env qn reason ids : counted (Remove env qn reason ids).
Proof using Type. unfold Remove. count. Qed.

Lemma TimeoutMessages_counted env qn : counted (TimeoutMessages env qn).
Proof using Type. unfold TimeoutMessages. count. Qed.

(** ** The housekeeper *)

Lemma ProcessTimeoutMessages_counted env o c : counted (ProcessTimeoutMessages env o c).
Proof using Type.
  pose proof TimeoutMessages_counted.
  assert (Hl : forall l n, counted (timeout_loop env o c n l)).
  { induction l as [|x l IH]; intros n; cbn [timeout_loop]; count. }
  unfold ProcessTimeoutMessages. count.
Qed.

Lemma ProcessLockPool_counted env o1 b o2 : counted (ProcessLockPool env o1 b o2).
Proof using Type.
  assert (Hl : forall o t l n, counted (unlockMessages env o n l t)).
  { induction l as [|x l IH]; intros n; cbn [unlockMessages]; count. }
  unfold ProcessLockPool. count.
Qed.

Lemma RecoveryMessagesPool_counted env : counted (RecoveryMessagesPool env).
Proof using Type.
  pose proof add_members_counted.
  unfold RecoveryMessagesPool, recovery_round, recovery_finish, tryToStartRecovery, isRecovering, get_key, set_key,
    AddMessagesToCacheWithAuditReason. cbv zeta. count.
Qed.

Lemma RemoveTTLMessages_counted env o date : counted (RemoveTTLMessages env o date).
Proof using Type.
  pose proof Remove_counted.
  assert (Hl : forall l n, counted (ttl_loop env o n l)).
  { induction l as [|[x ids] l IH]; intros n; cbn [ttl_loop]; count. }
  unfold RemoveTTLMessages, isRecovering, get_key. count.
Qed.

Lemma RemoveExceedingMessages_counted env o : counted (RemoveExceedingMessages env o).
Proof using Type.
  pose proof Remove_counted.
  assert (Hq : forall c, counted (removeExceedingMessagesFromQueue env c)).
  { intros c. unfold removeExceedingMessagesFromQueue. cbv zeta. count. }
  assert (Hl : forall l n, counted (exceeding_loop env o n l)).
  { induction l as [|x l IH]; intros n; cbn [exceeding_loop]; count. }
  unfold RemoveExceedingMessages, isRecovering, get_key. count.
Qed.

Lemma ComputeMetrics_counted env o m : counted (ComputeMetrics env o m).
Proof using Type.
  assert (Hl : forall l n x y, counted (metrics_loop env o n l x y)).
  { induction l as [|p l IH]; intros n x y; cbn [metrics_loop]; unfold Count; cbv zeta; count. }
  unfold ComputeMetrics. count.
Qed.

(** Every operation of the queue and every task of the housekeeper, whatever
    the storage and the cache and whatever they answer, adds only to counters
    that [createMetrics] creates, and loses no count.  The names of the
    instruments are different. *)
Theorem counters_registered :
  NoDup (map instrument_Name instruments) /\
  (forall env ms, counted (AddMessagesToStorage env ms)) /\
  (forall env reason ms, counted (AddMessagesToCacheWithAuditReason env reason ms)) /\
  (forall env qn n mn mx dl, counted (Pull env qn n mn mx dl)) /\
  (forall env m reason, counted (Ack env m reason) /\ counted (Nack env m reason)) /\
  (forall env qn reason ids, counted (Remove env qn reason ids)) /\
  (forall env qn, counted (TimeoutMessages env qn)) /\
  (forall env, counted (Flush env)) /\
  (forall env o c, counted (ProcessTimeoutMessages env o c)) /\
  (forall env o1 b o2, counted (ProcessLockPool env o1 b o2)) /\
  (forall env, counted (RecoveryMessagesPool env)) /\
  (forall env o date, counted (RemoveTTLMessages env o date)) /\
  (forall env o, counted (RemoveExceedingMessages env o)) /\
  (forall env o m, counted (ComputeMetrics env o m)).
Proof using Type.
  split; [apply (bool_decide_eq_true_1 _); vm_compute; reflexivity|]. split_and!.
  - intros. apply counted_on_storage.
  - intros. apply add_members_counted.
  - apply Pull_counted.
  - apply answer_counted.
  - apply Remove_counted.
  - apply TimeoutMessages_counted.
  - intros. unfold Flush. count.
  - apply ProcessTimeoutMessages_counted.
  - apply ProcessLockPool_counted.
  - apply RecoveryMessagesPool_counted.
  - apply RemoveTTLMessages_counted.
  - apply RemoveExceedingMessages_counted.
  - apply ComputeMetrics_counted.
Qed.
End Counters.
