(* ===== verification/Tracing.v ===== *)
(** * Tracing

    [internal/trace/trace.go], [internal/trace/attributes.go] and the span
    attributes of the service: the tracer provider that [Init] installs in
    OpenTelemetry, what [Shutdown] shuts down, and the attributes that each
    handler of [internal/service/deckard_service.go] sets on the span of its
    call.  The exporter and its spans belong to OpenTelemetry. *)

From S2P Require Import Prelude GoStrings Float64 Message Service Config Server Instruments.
#[local] Open Scope string_scope.
#[local] Open Scope list_scope.
#[local] Open Scope Z_scope.

(** ** The tracer provider *)

(** A provider sends the spans in batches to the exporter [E]. *)
Record TracerProvider (E : Type) := { exporter : E; resource : list (string * string) }.
Arguments exporter {E} _.
Arguments resource {E} _.

(** The variable [tracerProvider] of the package, the provider and the
    propagators installed in OpenTelemetry, and the providers that were shut
    down: the spans of their last batch have been sent. *)
Record Tracing (E : Type) := {
  tracerProvider : option (TracerProvider E);
  installed : option (TracerProvider E);
  propagators : list string;
  shut_down : list (TracerProvider E)
}.
Arguments tracerProvider {E} _.
Arguments installed {E} _.
Arguments propagators {E} _.
Arguments shut_down {E} _.

Definition no_tracing {E} : Tracing E :=
  {| tracerProvider := None; installed := None; propagators := []; shut_down := [] |}.

Definition newResource : list (string * string) :=
  [("service.name", project_Name); ("service.version", project_Version)].

(** [New]: the answer of [otlptrace.New].  The provider is bound to a variable
    of the function, declared with [:=]. *)
Definition Init {E} (env : Environ) (New : E + error) (t : Tracing E) : Tracing E * option error :=
  if String.eqb (Getenv env "OTEL_EXPORTER_OTLP_ENDPOINT") "" &&
     String.eqb (Getenv env "OTEL_EXPORTER_OTLP_TRACES_ENDPOINT") "" then (t, None)
  else match New with
  | inr err => (t, Some err)
  | inl exporter =>
      let tracerProvider_local := {| exporter := exporter; resource := newResource |} in
      ({| tracerProvider := tracerProvider t; installed := Some tracerProvider_local;
          propagators := ["TraceContext"; "Baggage"]; shut_down := shut_down t |}, None)
  end.

(** [answer]: the error of the shutdown of the provider, which is logged. *)
Definition Shutdown {E} (answer : option error) (t : Tracing E) : Tracing E :=
  match tracerProvider t with
  | None => t
  | Some p =>
      {| tracerProvider := match answer with Some _ => Some p | None => None end;
         installed := installed t; propagators := propagators t; shut_down := p :: shut_down t |}
  end.

(** ** Attributes of a span *)

Definition attribute_Id : string := "deckard.id".
Definition attribute_Queue : string := "deckard.queue".
Definition attribute_Amount : string := "deckard.amount".
Definition attribute_MaxScore : string := "deckard.max_score".
Definition attribute_MinScore : string := "deckard.min_score".
Definition attribute_ScoreFilter : string := "deckard.score_filter".
Definition attribute_Score : string := "deckard.score".
Definition attribute_ScoreSubtract : string := "deckard.score_subtract".

(** [hasTraceID]: the call is traced.  [span]: the attributes set on its span. *)
Definition addSpanAttributes {K} (hasTraceID : bool) (attributes : list K) (span : list K) : list K :=
  match attributes with
  | [] => span
  | _ => if negb hasTraceID then span else span ++ attributes
  end.

Inductive AttributeValue := StringSlice (l : list string) | Int64 (z : Z) | Float64 (f : float64).

Definition KeyValue : Type := string * AttributeValue.

(** The attributes of a message, or of some messages, of a queue. *)
Definition message_attributes (ids : list string) (queueName : string) : list KeyValue :=
  [(attribute_Id, StringSlice ids); (attribute_Queue, StringSlice [queueName])].

Definition Remove_attributes (queueName : string) (ids : list string) : list KeyValue :=
  if Nat.eqb (length ids) 0 then [] else message_attributes ids queueName.

Definition Count_attributes (queueName : string) : list KeyValue :=
  [(attribute_Queue, StringSlice [queueName])].

(** The queues of the messages, each once, in the order of the range. *)
Definition Add_queueNames (env : Env) (request : list AddMessage) : list string :=
  let queues := foldl (fun queues m => <[am_Queue m := 1]> queues) (∅ : gmap string Z) request in
  (map_range (env_order env) queues).*1.

Definition Add_attributes (env : Env) (request : list AddMessage) : list KeyValue :=
  [(attribute_Id, StringSlice (map am_Id request));
   (attribute_Queue, StringSlice (Add_queueNames env request))].

(** Before the amount and the scores of the request are put in their bounds. *)
Definition Pull_attributes (request : PullRequest) : list KeyValue :=
  [(attribute_Queue, StringSlice [pr_Queue request]); (attribute_Amount, Int64 (pr_Amount request));
   (attribute_MaxScore, Float64 (pr_MaxScore request)); (attribute_MinScore, Float64 (pr_MinScore request));
   (attribute_ScoreFilter, Int64 (pr_ScoreFilter request))].

(** After the pull of the queue: the ids of the messages of the response. *)
Definition Pull_result_attributes (r : result (option (list Message))) : list KeyValue :=
  match r with
  | (Some messages, None) => [(attribute_Id, StringSlice (map rm_Id (map pull_response messages)))]
  | _ => []
  end.

Definition GetById_attributes (i queueName : string) : list KeyValue :=
  if String.eqb i "" || String.eqb queueName "" then [] else message_attributes [i] queueName.

(** An answer that removes its message sets [Remove_attributes] as well. *)
Definition Ack_attributes (request : AckRequest) : list KeyValue :=
  message_attributes [ar_Id request] (ar_Queue request) ++
  [(attribute_ScoreSubtract, Float64 (ar_ScoreSubtract request)); (attribute_Score, Float64 (ar_Score request))].

Definition Nack_attributes (request : AckRequest) : list KeyValue :=
  message_attributes [ar_Id request] (ar_Queue request).

(** ** Properties *)

(** An addition names each queue of its messages once. *)
Lemma Add_queueNames_each env request :
  NoDup (Add_queueNames env request) /\
  forall qn, qn ∈ Add_queueNames env request <-> exists m, m ∈ request /\ am_Queue m = qn.
Proof.
  unfold Add_queueNames. set (queues := foldl _ _ _). split; [apply NoDup_map_range_fst|]. intros qn.
  assert (Hq : forall (l : list AddMessage) (acc : gmap string Z),
    is_Some (foldl (fun queues m => <[am_Queue m := 1]> queues) acc l !! qn) <->
    is_Some (acc !! qn) \/ exists m, m ∈ l /\ am_Queue m = qn).
  { induction l as [|m l IH]; intros acc; cbn [foldl]; [split; [by left|intros [?|(m & Hm & _)]; [done|by apply elem_of_nil in Hm]]|].
    rewrite IH, lookup_insert_is_Some. setoid_rewrite elem_of_cons.
    destruct (decide (am_Queue m = qn)); naive_solver. }
  specialize (Hq request ∅). rewrite lookup_empty in Hq. rewrite list_elem_of_fmap. split.
  - intros ([k z] & -> & Hin%elem_of_map_range). apply proj1 in Hq. destruct Hq as [[? ?]|?]; [by eexists|done|done].
  - intros Hm. destruct (proj2 Hq) as [z Hz]; [by right|]. exists (qn, z). by rewrite elem_of_map_range.
Qed.

(** Tracing is on exactly when an endpoint is configured and its exporter can
    be created; [Init] fails only when it cannot be created. *)
Lemma Init_installs {E} env (New : E + error) t :
  let enabled := negb (String.eqb (Getenv env "OTEL_EXPORTER_OTLP_ENDPOINT") "") ||
                 negb (String.eqb (Getenv env "OTEL_EXPORTER_OTLP_TRACES_ENDPOINT") "") in
  match Init env New t with
  | (t', None) =>
      if enabled then exists e, New = inl e /\ installed t' = Some {| exporter := e; resource := newResource |}
      else t' = t
  | (t', Some err) => enabled = true /\ New = inr err /\ t' = t
  end.
Proof.
  cbv zeta. unfold Init. destruct (String.eqb _ ""), (String.eqb _ ""); cbn; try done;
    (destruct New as [e|err]; cbn; [by exists e|done]).
Qed.

(** The provider is never shut down: [Init] declares a variable that hides the
    one [Shutdown] reads, so that the spans of the last batch are lost when the
    process ends. *)
Theorem provider_never_shut_down {E} env (New : E + error) (answers : list (option error)) :
  shut_down (foldr Shutdown (Init env New no_tracing).1 answers) = [].
Proof.
  assert (H : tracerProvider (Init env New no_tracing).1 = None /\ shut_down (Init env New no_tracing).1 = []).
  { unfold Init. case_if; [done|]. by destruct New. }
  destruct H as [Ht Hs]. set (t := (Init env New no_tracing).1) in *.
  assert (E0 : foldr Shutdown t answers = t); [|by rewrite E0].
  induction answers as [|a answers IH]; [done|]. cbn. rewrite IH. unfold Shutdown. by rewrite Ht.
Qed.

(** With a collector configured, the provider is installed and in use when the
    process ends. *)
Example provider_left_open :
  let env name := if String.eqb name "OTEL_EXPORTER_OTLP_ENDPOINT" then Some "http://collector:4317" else None in
  let t := (Init env (inl tt) no_tracing).1 in
  installed (Shutdown None t) = Some {| exporter := tt; resource := newResource |} /\
  shut_down (Shutdown None t) = [].
Proof. vm_compute. split; reflexivity. Qed.
