(* ===== verification/AuditBulk.v ===== *)
(** * The bulk requests of the auditor

    [send] of [internal/audit/audit.go]: the body of the request in which a
    batch of entries goes to Elasticsearch.  The encoding of an entry
    ([json.Marshal]) is a parameter with the one law the format needs: an
    encoded entry has no line break. *)

From S2P Require Import Prelude GoStrings Dtime Message AuditTrail Config Server Instruments.
#[local] Open Scope string_scope.
#[local] Open Scope list_scope.
#[local] Open Scope Z_scope.

Definition newline : ascii := Ascii.ascii_of_nat 10.

Definition quoted (s : string) : string :=
  let quote := Ascii.ascii_of_nat 34 in String quote (s +:+ String quote "").

Definition esIndex : string := project_Name.

(** The line of the action, before its line break. *)
Definition action_line : string :=
  "{ " +:+ quoted "index" +:+ " : { " +:+ quoted "_index" +:+ " : " +:+ quoted esIndex +:+ "} }".

Definition indexAction : string := action_line +:+ String newline "".

(** [api.Bulk(body, WithRefresh(refresh), WithIndex(index))]. *)
Record BulkRequest := { bulk_Body : string; bulk_Refresh : string; bulk_Index : string }.

Section Bulk.
Variable Marshal : Entry -> string + error.

(** The loop over the entries, from the [i]-th on. *)
Fixpoint bulk_loop (i : nat) (entries : list Entry) (body : string) : string :=
  match entries with
  | [] => body
  | entry :: entries' =>
      match Marshal entry with
      | inr _ => bulk_loop (S i) entries' body
      | inl marshalled =>
          let body := if Nat.ltb 0 i then body +:+ String newline "" else body in
          bulk_loop (S i) entries' (body +:+ (indexAction +:+ marshalled))
      end
  end.

(** [None]: there is nothing to send.  [send] only logs what it is answered. *)
Definition bulk_request (entries : list Entry) : option BulkRequest :=
  match entries with
  | [] => None
  | _ => Some {| bulk_Body := bulk_loop 0 entries "" +:+ String newline "";
                 bulk_Refresh := "true"; bulk_Index := esIndex |}
  end.

(** ** The lines of a request *)

(** The two lines of an entry; one that cannot be encoded has none. *)
Definition entry_lines (entry : Entry) : list string :=
  match Marshal entry with inl marshalled => [action_line; marshalled] | inr _ => [] end.

Lemma Split_app sep s t : Split sep (s +:+ String sep t) = Split sep s ++ Split sep t.
Proof using Type.
  induction s as [|c s IH]; rewrite ?append_nil, ?append_cons; cbn [Split].
  - by rewrite Ascii.eqb_refl.
  - rewrite IH. destruct (Ascii.eqb c sep); [done|].
    assert (Hne : Split sep s <> []) by (destruct s; cbn; repeat case_match; done).
    by destruct (Split sep s).
Qed.

Hypothesis Marshal_one_line : forall entry marshalled,
  Marshal entry = inl marshalled -> newline ∉ list_ascii_of_string marshalled.

Lemma Split_action s : Split newline (indexAction +:+ s) = action_line :: Split newline s.
Proof using Type. unfold indexAction. rewrite append_assoc. exact (Split_app newline action_line s). Qed.

Lemma bulk_loop_lines entries : forall i body,
  Split newline (bulk_loop (S i) entries body) = Split newline body ++ concat (map entry_lines entries).
Proof using Marshal_one_line.
  induction entries as [|entry entries IH]; intros i body; cbn [bulk_loop map concat]; [by rewrite app_nil_r|].
  unfold entry_lines at 1. destruct (Marshal entry) as [marshalled|err] eqn:E; [|apply IH].
  cbn [Nat.ltb Nat.leb]. rewrite IH, append_assoc, append_cons, append_nil, Split_app, Split_action.
  rewrite (Split_no_sep newline marshalled) by by eapply Marshal_one_line.
  by rewrite <- app_assoc.
Qed.

(** A request has, after an empty line when the first entry cannot be encoded,
    the action and the encoding of each entry that can, in the order of the
    batch, and ends in a line break. *)
Theorem bulk_request_lines entry entries :
  exists request, bulk_request (entry :: entries) = Some request /\
    bulk_Index request = "deckard" /\
    Split newline (bulk_Body request) =
      (match Marshal entry with inl _ => [] | inr _ => [""] end) ++
      concat (map entry_lines (entry :: entries)) ++ [""].
Proof using Marshal_one_line.
  eexists. split; [done|]. split; [done|]. cbn [bulk_Body]. rewrite Split_app, app_assoc. f_equal.
  cbn [bulk_loop map concat Nat.ltb Nat.leb]. unfold entry_lines at 1.
  destruct (Marshal entry) as [marshalled|err] eqn:E; rewrite bulk_loop_lines; [|done].
  rewrite append_nil, Split_action.
  by rewrite (Split_no_sep newline marshalled) by by eapply Marshal_one_line.
Qed.
End Bulk.

(** Entries encoded as their ids. *)
Example bulk_request_example :
  let marshal e := if String.eqb (e_ID e) "" then inr (ErrorString "unsupported value") else inl (e_ID e) in
  let batch := [sample_entry ""; sample_entry "a"; sample_entry ""; sample_entry "b"] in
  match bulk_request marshal batch with
  | Some request => Split newline (bulk_Body request) = [""; action_line; "a"; action_line; "b"; ""]
  | None => False
  end.
Proof. vm_compute. reflexivity. Qed.
