(* ===== verification/AuditSender.v ===== *)
(** * The sender of the auditor

    [AuditorImpl] of [internal/audit/audit.go]: its channel, the loop of
    [StartSender] and [send], as a machine whose events are the calls of
    [Store] and the branches of the [select].  The requests are those of
    [AuditBulk.v]; what the client answers to one is part of the event that
    sends it. *)

From S2P Require Import Prelude GoStrings Float64 Dtime Message AuditTrail Server AuditBulk.
#[local] Open Scope string_scope.
#[local] Open Scope list_scope.
#[local] Open Scope Z_scope.

Definition maxEntriesSize : nat := 200.

(** The capacity of the channel of entries. *)
Definition entries_capacity : Z := 10000.

(** What [api.Bulk] answers: a response, with [IsError], or an error. *)
Definition BulkAnswer : Type := bool + error.

(** A request that was made, for a batch, and its answer. *)
Record Sent := { s_batch : list Entry; s_request : BulkRequest; s_answer : BulkAnswer }.

Record AuditorImpl := {
  enabled : bool;
  entries : list Entry;
  closed : bool;
  senderStarted : bool;
  entriesToSend : list Entry;
  (** the requests of the client [api], oldest first *)
  sent : list Sent
}.

(** [NewAuditor], once the audit is enabled by the configuration or not. *)
Definition NewAuditor (auditEnabled : bool) : AuditorImpl := {|
  enabled := auditEnabled; entries := []; closed := false; senderStarted := false;
  entriesToSend := []; sent := []
|}.

Definition set_entries (l : list Entry) (a : AuditorImpl) : AuditorImpl :=
  {| enabled := enabled a; entries := l; closed := closed a; senderStarted := senderStarted a;
     entriesToSend := entriesToSend a; sent := sent a |}.

Definition set_started (started : bool) (a : AuditorImpl) : AuditorImpl :=
  {| enabled := enabled a; entries := entries a; closed := closed a; senderStarted := started;
     entriesToSend := entriesToSend a; sent := sent a |}.

Definition set_toSend (l : list Entry) (a : AuditorImpl) : AuditorImpl :=
  {| enabled := enabled a; entries := entries a; closed := closed a;
     senderStarted := senderStarted a; entriesToSend := l; sent := sent a |}.

Definition close_entries (a : AuditorImpl) : AuditorImpl :=
  {| enabled := enabled a; entries := entries a; closed := true;
     senderStarted := senderStarted a; entriesToSend := entriesToSend a; sent := sent a |}.

Inductive AuditEvent :=
  (** a call of [Store] *)
  | EvStore (env : Env) (e : Entry)
  (** [StartSender] enters its loop *)
  | EvStart
  (** [entry := <-a.entries] *)
  | EvReceive (answer : BulkAnswer)
  (** [<-time.After(maxSendTime)] *)
  | EvTimer (answer : BulkAnswer)
  (** [<-ctx.Done()] *)
  | EvDone (answer : BulkAnswer).

Section Sender.
(** [json.Marshal] of an entry. *)
Variable Marshal : Entry -> string + error.

(** [send] makes one request, in which the entries that cannot be encoded are
    left out, and returns whatever it is answered: an error is logged, and
    nothing is sent again.  Without entries it returns at once. *)
Definition send (answer : BulkAnswer) (batch : list Entry) (a : AuditorImpl) : AuditorImpl :=
  match bulk_request Marshal batch with
  | None => a
  | Some request =>
      {| enabled := enabled a; entries := entries a; closed := closed a;
         senderStarted := senderStarted a; entriesToSend := entriesToSend a;
         sent := sent a ++ [{| s_batch := batch; s_request := request; s_answer := answer |}] |}
  end.

(** One event.  [None]: the event is not possible in this state (the channel
    is full or empty, the sender is not running).  [senderStarted] is true
    while the loop runs. *)
Definition audit_step (ev : AuditEvent) (a : AuditorImpl) : option (outcome AuditorImpl) :=
  match ev with
  | EvStore env e =>
      if negb (enabled a) then Some (Ret a)
      else if closed a then Some (Panic "send on closed channel")
      else if Z.of_nat (length (entries a)) <? entries_capacity then
        Some (Ret (set_entries (entries a ++ [fill_entry env e]) a))
      else None
  | EvStart =>
      if negb (enabled a) then Some (Ret a)
      else if senderStarted a || closed a then None
      else Some (Ret (set_started true a))
  | EvReceive answer =>
      if negb (senderStarted a) then None
      else match entries a with
           | [] => None
           | e :: rest =>
               let a := set_toSend (entriesToSend a ++ [e]) (set_entries rest a) in
               Some (Ret (if Nat.eqb (length (entriesToSend a)) maxEntriesSize
                          then set_toSend [] (send answer (entriesToSend a) a) else a))
           end
  | EvTimer answer =>
      if negb (senderStarted a) then None
      else Some (Ret (if Nat.ltb 0 (length (entriesToSend a))
                      then set_toSend [] (send answer (entriesToSend a) a) else a))
  | EvDone answer =>
      if negb (senderStarted a) then None
      else
        let a := close_entries a in
        Some (Ret (set_started false (set_toSend [] (send answer (entriesToSend a) a))))
  end.

(** A run of events, from the first to the last. *)
Fixpoint audit_run (evs : list AuditEvent) (a : AuditorImpl) : option (outcome AuditorImpl) :=
  match evs with
  | [] => Some (Ret a)
  | ev :: evs' =>
      match audit_step ev a with
      | Some (Ret a') => audit_run evs' a'
      | r => r
      end
  end.

(** The entries a list of events stores, as they are sent to the channel. *)
Definition stored_by (evs : list AuditEvent) : list Entry :=
  omap (fun ev => match ev with EvStore env e => Some (fill_entry env e) | _ => None end) evs.

Definition no_done (evs : list AuditEvent) : Prop :=
  Forall (fun ev => match ev with EvDone _ => False | _ => True end) evs.

(** The entries of the batches, and those that reached Elasticsearch: the ones
    that can be encoded, of the requests that were answered without an error. *)
Definition batched (l : list Sent) : list Entry := concat (map s_batch l).

Definition encodable (e : Entry) : bool := match Marshal e with inl _ => true | inr _ => false end.

Definition accepted (r : Sent) : bool := match s_answer r with inl isError => negb isError | inr _ => false end.

Definition reached (l : list Sent) : list Entry :=
  concat (map (fun r => if accepted r then List.filter encodable (s_batch r) else []) l).

(** ** Invariant *)

Definition request_ok (r : Sent) : Prop :=
  (0 < length (s_batch r) <= maxEntriesSize)%nat /\ bulk_request Marshal (s_batch r) = Some (s_request r).

(** While the sender runs the batches, the pending one and the channel hold
    the entries stored, in order. *)
Definition audit_inv (stored : list Entry) (a : AuditorImpl) : Prop :=
  enabled a = true /\ closed a = false /\
  batched (sent a) ++ entriesToSend a ++ entries a = stored /\
  (length (entriesToSend a) < maxEntriesSize)%nat /\
  Z.of_nat (length (entries a)) <= entries_capacity /\
  Forall request_ok (sent a).

Lemma send_pending answer a batch :
  (length batch <= maxEntriesSize)%nat -> Forall request_ok (sent a) ->
  batched (sent (send answer batch a)) = batched (sent a) ++ batch /\
  Forall request_ok (sent (send answer batch a)) /\
  enabled (send answer batch a) = enabled a /\ closed (send answer batch a) = closed a /\
  entries (send answer batch a) = entries a.
Proof using Type.
  intros Hb Hs. unfold send, batched. destruct batch as [|e batch]; [by rewrite app_nil_r|].
  destruct (bulk_request Marshal (e :: batch)) as [request|] eqn:E; [|done]. cbn [sent].
  rewrite map_app, concat_app. cbn [map concat s_batch]. rewrite app_nil_r. split_and!; try done.
  apply Forall_app. split; [done|]. constructor; [|done]. split; [cbn [s_batch length] in *; lia|done].
Qed.

Lemma audit_step_inv stored ev a a' :
  audit_inv stored a -> match ev with EvDone _ => False | _ => True end ->
  audit_step ev a = Some (Ret a') -> audit_inv (stored ++ stored_by [ev]) a'.
Proof using Type.
  intros (He & Hc & Hst & Hp & Hcap & Hb) Hev. destruct ev as [env e| |answer|answer|answer]; simpl; [..|done].
  - rewrite He, Hc. simpl. destruct (Z.ltb_spec (Z.of_nat (length (entries a))) entries_capacity) as [Hl|]; [|done].
    intros [= <-]. split_and!; try done; simpl.
    + rewrite <- Hst, !app_assoc. done.
    + rewrite length_app. simpl. lia.
  - rewrite He. simpl. rewrite app_nil_r. case_if; [done|]. intros [= <-]. done.
  - destruct (negb (senderStarted a)); [done|]. destruct (entries a) as [|e rest]; [done|].
    simpl in Hcap. intros [= <-]. rewrite app_nil_r. simpl. rewrite length_app. simpl.
    assert (Hst' : batched (sent a) ++ (entriesToSend a ++ [e]) ++ rest = stored)
      by (rewrite <- Hst, <- !app_assoc; done).
    destruct (Nat.eqb_spec (length (entriesToSend a) + 1) maxEntriesSize) as [E|E].
    + destruct (send_pending answer (set_toSend (entriesToSend a ++ [e]) (set_entries rest a))
        (entriesToSend a ++ [e])) as (H1 & H2 & H3 & H4 & H5); [rewrite length_app; simpl; lia|done|].
      split; [by rewrite <- He|]. split; [by rewrite <- Hc|]. split.
      * cbn [sent set_toSend entriesToSend entries]. rewrite H1, H5. cbn [sent set_toSend set_entries entries].
        rewrite <- app_assoc. exact Hst'.
      * cbn [sent set_toSend entriesToSend entries]. rewrite H5. split; [simpl; unfold maxEntriesSize; lia|].
        split; [simpl; lia|done].
    + split_and!; try done; [simpl; rewrite length_app; simpl; lia|simpl; lia].
  - destruct (negb (senderStarted a)); [done|]. intros [= <-]. rewrite app_nil_r. case_if; [|done].
    destruct (send_pending answer a (entriesToSend a)) as (H1 & H2 & H3 & H4 & H5); [lia|done|].
    unfold audit_inv. cbn [enabled closed sent set_toSend entriesToSend entries]. rewrite H1, H3, H4, H5, <- app_assoc.
    split_and!; try done. simpl. unfold maxEntriesSize. lia.
Qed.

Lemma audit_run_inv evs : forall stored a a',
  audit_inv stored a -> no_done evs -> audit_run evs a = Some (Ret a') ->
  audit_inv (stored ++ stored_by evs) a'.
Proof using Type.
  induction evs as [|ev evs IH]; intros stored a a' Ha Hnd; simpl.
  { intros [= <-]. by rewrite app_nil_r. }
  apply Forall_cons in Hnd as [Hev Hnd].
  destruct (audit_step ev a) as [[a1|]|] eqn:E; [|done..]. intros Hr.
  apply (audit_step_inv stored) in E; [|done..]. apply IH with (stored := stored ++ stored_by [ev]) in Hr; [|done..].
  rewrite <- app_assoc in Hr. unfold stored_by in *. simpl in Hr |- *. by destruct ev.
Qed.

(** ** Properties *)

Lemma reached_sublist l : sublist (reached l) (batched l).
Proof using Type.
  induction l as [|r l IH]; [done|]. unfold reached, batched in *. cbn [map concat]. apply sublist_app; [|done].
  destruct (accepted r); [|apply sublist_nil_l].
  induction (s_batch r) as [|e b IHb]; [done|]. cbn [List.filter]. destruct (encodable e); by constructor.
Qed.

Lemma reached_all l :
  Forall (fun r => accepted r = true /\ Forall (fun e => encodable e = true) (s_batch r)) l -> reached l = batched l.
Proof using Type.
  induction 1 as [|r l [Ha He] _ IH]; [done|]. unfold reached, batched in *. cbn [map concat]. rewrite Ha, IH. f_equal.
  induction He as [|e b He _ IHb]; [done|]. cbn [List.filter]. by rewrite He, IHb.
Qed.

Hypothesis Marshal_one_line : forall entry marshalled,
  Marshal entry = inl marshalled -> newline ∉ list_ascii_of_string marshalled.

(** C39. While the sender runs, every entry stored is, once and in order, in a
    batch, in the pending one or in the channel.  A batch has between 1 and 200
    entries and goes into one request, whose lines are the action and the
    encoding of each entry that can be encoded, in order.  What reaches
    Elasticsearch are these entries of the requests that are answered without
    an error, in the order they were stored: all of them when every entry can
    be encoded and no request fails, while an entry that cannot be encoded, and
    the batch of a request that fails, are lost, for nothing is sent again.
    (An answer without an error can refuse single entries; the code does not
    read it.) *)
Theorem audit_in_order evs a
    (Hrun : audit_run evs (NewAuditor true) = Some (Ret a)) (Hnd : no_done evs) :
  batched (sent a) ++ entriesToSend a ++ entries a = stored_by evs /\
  (length (entriesToSend a) < 200)%nat /\
  Forall (fun r => (0 < length (s_batch r) <= 200)%nat /\ bulk_Index (s_request r) = "deckard" /\
    exists start, start ∈ [[]; [""]] /\
      Split newline (bulk_Body (s_request r)) =
        start ++ concat (map (entry_lines Marshal) (s_batch r)) ++ [""]) (sent a) /\
  sublist (reached (sent a)) (stored_by evs) /\
  (Forall (fun r => accepted r = true /\ Forall (fun e => encodable e = true) (s_batch r)) (sent a) ->
     reached (sent a) ++ entriesToSend a ++ entries a = stored_by evs).
Proof using Marshal_one_line.
  assert (H0 : audit_inv [] (NewAuditor true)).
  { split_and!; try done; simpl; unfold maxEntriesSize; lia. }
  apply (audit_run_inv evs []) in Hrun as (_ & _ & Hst & Hp & _ & Hb); [|done|done]. cbn in Hst.
  split; [done|]. split; [done|]. split; [|split].
  - eapply Forall_impl; [exact Hb|]. intros r [Hlen Hreq]. split; [done|].
    destruct (s_batch r) as [|e batch]; [done|].
    destruct (bulk_request_lines Marshal Marshal_one_line e batch) as (request & E & Hindex & Hlines).
    rewrite E in Hreq. injection Hreq as <-. split; [done|]. eexists. split; [|exact Hlines].
    destruct (Marshal e); set_solver.
  - rewrite <- Hst. etransitivity; [apply reached_sublist|]. by apply sublist_inserts_r.
  - intros Hall. by rewrite reached_all.
Qed.

(** After the sender has stopped, nothing more is sent. *)
Lemma stopped_run evs : forall a a',
  enabled a = true -> closed a = true -> senderStarted a = false ->
  audit_run evs a = Some (Ret a') -> sent a' = sent a.
Proof using Type.
  induction evs as [|ev evs IH]; intros a a' He Hc Hs; simpl; [by intros [= <-]|].
  destruct ev; simpl; rewrite ?He, ?Hc, ?Hs; simpl; done.
Qed.

(** When the context is cancelled the sender flushes its pending batch but
    not the channel: the entries still in the channel are never sent, whatever
    happens later, and a later [Store] panics, for it sends on a closed
    channel. *)
Theorem audit_done_loses_channel stored answer a a' evs a''
    (Hinv : audit_inv stored a) (Hdone : audit_step (EvDone answer) a = Some (Ret a'))
    (Hafter : audit_run evs a' = Some (Ret a'')) :
  batched (sent a'') ++ entries a = stored /\
  (forall env e, audit_step (EvStore env e) a' = Some (Panic "send on closed channel")).
Proof using Type.
  destruct Hinv as (He & Hc & Hst & Hp & _ & Hb). simpl in Hdone.
  destruct (negb (senderStarted a)); [done|]. injection Hdone as <-.
  destruct (send_pending answer (close_entries a) (entriesToSend a)) as (H1 & _ & H3 & H4 & _); [simpl; lia|done|].
  cbn [close_entries enabled closed] in H3, H4. split.
  - apply stopped_run in Hafter as ->; [|cbn; congruence..|done].
    cbn [sent set_started set_toSend] in H1 |- *. rewrite H1, <- app_assoc. exact Hst.
  - intros env e. cbn. by rewrite H3, H4, He.
Qed.
End Sender.

(** ** Witnesses *)

(** Entries encoded as their ids, but for those without one. *)
Definition id_marshal (e : Entry) : string + error :=
  if String.eqb (e_ID e) "" then inr (ErrorString "unsupported value")
  else if decide (newline ∈ list_ascii_of_string (e_ID e)) then inr (ErrorString "line break")
  else inl (e_ID e).

Lemma id_marshal_one_line entry marshalled :
  id_marshal entry = inl marshalled -> newline ∉ list_ascii_of_string marshalled.
Proof. unfold id_marshal. case_if; [done|]. case_decide; [done|]. by intros [= <-]. Qed.

Definition sample_store (i : string) : AuditEvent := EvStore sample_env (sample_entry i).

Lemma audit_in_order_witness :
  let evs := [EvStart; sample_store "a"; sample_store "b"; sample_store "c";
    EvReceive (inl false); EvReceive (inl false); EvTimer (inl false)] in
  exists a, audit_run id_marshal evs (NewAuditor true) = Some (Ret a) /\
    (map e_ID (reached id_marshal (sent a))) = ["a"; "b"] /\ map e_ID (entries a) = ["c"] /\
    reached id_marshal (sent a) ++ entriesToSend a ++ entries a = stored_by evs.
Proof.
  intros evs. eexists. split; [reflexivity|]. split; [reflexivity|]. split; [reflexivity|].
  apply (audit_in_order id_marshal id_marshal_one_line evs); [reflexivity|repeat constructor|repeat constructor].
Defined.

(** An entry that cannot be encoded, and the batch of a request that is
    answered with an error, are not sent again. *)
Example audit_entries_lost :
  let evs := [EvStart; sample_store ""; sample_store "b"; EvReceive (inl false); EvReceive (inl false);
    EvTimer (inl false); sample_store "c"; EvReceive (inl false); EvTimer (inl true);
    sample_store "d"; EvReceive (inl false); EvTimer (inr (ErrorString "connection refused"))] in
  exists a, audit_run id_marshal evs (NewAuditor true) = Some (Ret a) /\
    map e_ID (stored_by evs) = [""; "b"; "c"; "d"] /\
    map e_ID (reached id_marshal (sent a)) = ["b"] /\ entriesToSend a = [] /\ entries a = [].
Proof. eexists. split; [vm_compute; reflexivity|]. repeat split; vm_compute; reflexivity. Qed.

Lemma audit_done_loses_channel_witness :
  let evs := [EvStart; sample_store "a"; sample_store "b"; EvReceive (inl false)] in
  exists a a', audit_run id_marshal evs (NewAuditor true) = Some (Ret a) /\
    audit_step id_marshal (EvDone (inl false)) a = Some (Ret a') /\
    map e_ID (batched (sent a')) = ["a"] /\ map e_ID (entries a) = ["b"] /\
    batched (sent a') ++ entries a = stored_by evs.
Proof.
  intros evs. do 2 eexists. split; [vm_compute; reflexivity|]. split; [vm_compute; reflexivity|].
  split; [reflexivity|]. split; [reflexivity|].
  eapply (audit_done_loses_channel id_marshal (stored_by evs) (inl false) _ _ []); [|vm_compute; reflexivity|reflexivity].
  split_and!; try reflexivity; simpl; unfold maxEntriesSize, entries_capacity; try lia. constructor.
Defined.
