(* ===== verification/Logger.v ===== *)
(** * The logger

    [internal/logger/logger.go]: the level, the encoding and the fields of the
    logger, from the configuration, and the fields a span adds.  The
    configurations of [zap] and the building of a logger are a class. *)

From S2P Require Import Prelude GoStrings Float64 Dtime GoTime Config ConfigProps Server Instruments.
#[local] Open Scope string_scope.
#[local] Open Scope list_scope.
#[local] Open Scope Z_scope.

Inductive Level := DebugLevel | InfoLevel | WarnLevel | ErrorLevel.

#[export] Instance Level_eq_dec : EqDecision Level.
Proof. solve_decision. Defined.

(** The fields of [zap.Config] the program sets. *)
Record ZapConfig := {
  zap_Level : Level;
  MessageKey : string;
  LevelKey : string;
  CapitalLevel : bool
}.

Class Zap := {
  NewDevelopmentConfig : ZapConfig;
  NewProductionConfig : ZapConfig;
  (** whether [Build] gives a logger *)
  Build : ZapConfig -> bool;
  development_level : zap_Level NewDevelopmentConfig = DebugLevel;
  production_level : zap_Level NewProductionConfig = InfoLevel
}.

(** A logger: its configuration and its fields, oldest first. *)
Record Logger := { logger_config : ZapConfig; fields : list (string * string) }.

Definition with_level (l : Level) (c : ZapConfig) : ZapConfig :=
  {| zap_Level := l; MessageKey := MessageKey c; LevelKey := LevelKey c; CapitalLevel := CapitalLevel c |}.

Definition With (l : Logger) (fs : list (string * string)) : Logger :=
  {| logger_config := logger_config l; fields := fields l ++ fs |}.

(** The identifiers of a span, if the context has one. *)
Record SpanContext := { TraceID : string; SpanID : string; TraceFlags : string }.

Section Logger.
Context {V : Type} {HV : Viper V} {HZ : Zap}.
Variable env : Environ.
Variable v : V.

Definition zap_config : ZapConfig :=
  let debug := GetBool env DebugEnabled v in
  let logType := Config.Get env LogType v in
  if negb (String.eqb logType "json") then
    if negb debug then with_level InfoLevel NewDevelopmentConfig else NewDevelopmentConfig
  else
    let zapConfig := if debug then with_level DebugLevel NewProductionConfig else NewProductionConfig in
    {| zap_Level := zap_Level zapConfig; MessageKey := "message"; LevelKey := "severity"; CapitalLevel := true |}.

(** The error of [Build] is ignored, and a logger that was not built is the nil
    pointer.  [hostname] is empty when there is an error. *)
Definition ConfigureLogger (hostname : string) : outcome Logger :=
  if Build zap_config then
    let logger := {| logger_config := zap_config; fields := [] |} in
    let logger := With logger [("application_name", project_Name); ("application_version", project_Version)] in
    Ret (if String.eqb hostname "" then With logger [("hostname", "undefined_host")]
         else With logger [("hostname", hostname)])
  else Panic "nil pointer dereference".

(** [S] and [L]: the global logger, with the span of the context. *)
Definition span_logger (global : Logger) (span : option SpanContext) : Logger :=
  match span with
  | None => global
  | Some spanContext =>
      With global [("trace_id", TraceID spanContext); ("span_id", SpanID spanContext);
                   ("trace_flags", TraceFlags spanContext)]
  end.

(** The messages logged: from the debug level on when the debug flag is set,
    and from the information level on otherwise, whatever the type of the log;
    the messages of the debug level never are by default. *)
Theorem logger_level hostname l :
  ConfigureLogger hostname = Ret l ->
  zap_Level (logger_config l) = (if GetBool env DebugEnabled v then DebugLevel else InfoLevel) /\
  (Config.Get env LogType v = "json" ->
     MessageKey (logger_config l) = "message" /\ LevelKey (logger_config l) = "severity") /\
  exists h, h <> "" /\ fields l = [("application_name", project_Name); ("application_version", project_Version);
                                   ("hostname", h)].
Proof using Type.
  unfold ConfigureLogger. destruct (Build zap_config); [|done].
  intros H. assert (Hl : logger_config l = zap_config) by (destruct (String.eqb hostname ""); by injection H as <-).
  split; [|split].
  - rewrite Hl. unfold zap_config.
    destruct (GetBool env DebugEnabled v), (negb (String.eqb _ "json")); cbn; try done;
      apply development_level || apply production_level.
  - rewrite Hl. unfold zap_config. by intros ->.
  - destruct (String.eqb_spec hostname ""); injection H as <-; eexists; split; try reflexivity; done.
Qed.
End Logger.
