(* ===== verification/Mongo.v ===== *)
(** * The MongoDB driver and server

    BSON documents, and the operations of a collection the MongoDB storage
    calls, as a class: driver and server are not part of the program, and what
    the program relies on is stated as laws, the documented meaning of the
    query, update and projection operators it uses.  An operation that fails
    may have had a part of its effect.  Reads see the writes before them
    whatever the read preference: there is no replication lag.  [MongoModel]
    is a concrete server, which fails every operation while it is down. *)

From S2P Require Import Prelude Float64 GoStrings.
#[local] Open Scope string_scope.
#[local] Open Scope list_scope.
#[local] Open Scope Z_scope.

(** ** Documents *)

(** The values the program stores; an object id is its 24 hex digits, a date
    counts milliseconds. *)
Inductive Bson :=
  | BNull
  | BBool (b : bool)
  | BInt (z : Z)
  | BDouble (f : float64)
  | BString (s : string)
  | BDate (ms : Z)
  | BObjectID (hex : string)
  | BBinary (s : string)
  | BArray (l : list Bson)
  | BDoc (l : list (string * Bson)).

(** [bson.M] and [bson.D]. *)
Abbreviation Doc := (list (string * Bson)).

Fixpoint doc_get (k : string) (d : Doc) : option Bson :=
  match d with
  | [] => None
  | (k', v) :: d' => if String.eqb k k' then Some v else doc_get k d'
  end.

Fixpoint doc_set (k : string) (v : Bson) (d : Doc) : Doc :=
  match d with
  | [] => [(k, v)]
  | (k', v') :: d' => if String.eqb k k' then (k, v) :: d' else (k', v') :: doc_set k v d'
  end.

(** ** Queries *)

Definition scalar_eqb (x y : Bson) : bool :=
  match x, y with
  | BString a, BString b => String.eqb a b
  | BInt a, BInt b => a =? b
  | BDate a, BDate b => a =? b
  | BObjectID a, BObjectID b => String.eqb a b
  | _, _ => false
  end.

(** The order of two values of the same type. *)
Definition scalar_ltb (x y : Bson) : bool :=
  match x, y with
  | BString a, BString b => str_ltb a b
  | BInt a, BInt b => a <? b
  | BDouble a, BDouble b => f64_ltb a b
  | BDate a, BDate b => a <? b
  | BObjectID a, BObjectID b => str_ltb a b
  | _, _ => false
  end.

Definition scalar_leb (x y : Bson) : bool :=
  match x, y with
  | BDate a, BDate b => a <=? b
  | BObjectID a, BObjectID b => negb (str_ltb b a)
  | _, _ => false
  end.

(** A condition on a field holds of its value, or of an element of it. *)
Definition some_value (p : Bson -> bool) (v : option Bson) : bool :=
  match v with
  | None => false
  | Some (BArray l) => existsb p l
  | Some v => p v
  end.

Definition match_operator (op : string) (arg : Bson) (v : option Bson) : bool :=
  if String.eqb op "$in" then
    match arg with BArray l => some_value (fun x => existsb (fun y => scalar_eqb y x) l) v | _ => false end
  else if String.eqb op "$gt" then some_value (fun x => scalar_ltb arg x) v
  else if String.eqb op "$lte" then some_value (fun x => scalar_leb x arg) v
  else false.

Definition match_condition (cond : Bson) (v : option Bson) : bool :=
  match cond with
  | BDoc ops => forallb (fun o => match_operator o.1 o.2 v) ops
  | _ => some_value (scalar_eqb cond) v
  end.

(** A document matches a filter when every condition holds. *)
Definition matches (filter d : Doc) : bool :=
  forallb (fun c => match_condition c.2 (doc_get c.1 d)) filter.

(** The filters the laws are about: conditions on top-level fields, equality
    with a string, [$in] on strings, [$gt] and [$lte] on object ids and dates. *)
Definition is_string (v : Bson) : bool := match v with BString _ => true | _ => false end.
Definition is_date (v : Bson) : bool := match v with BDate _ => true | _ => false end.
Definition is_oid (v : Bson) : bool := match v with BObjectID _ => true | _ => false end.

Definition plain_operator (op : string) (arg : Bson) : bool :=
  if String.eqb op "$in" then match arg with BArray l => forallb is_string l | _ => false end
  else (String.eqb op "$gt" || String.eqb op "$lte") && (is_date arg || is_oid arg).

Definition plain_condition (cond : Bson) : bool :=
  match cond with
  | BDoc ops => forallb (fun o => plain_operator o.1 o.2) ops
  | _ => is_string cond
  end.

Definition top_level (field : string) : bool := negb (ContainsAny field ".$").

Definition plain_filter (filter : Doc) : bool :=
  forallb (fun c => top_level c.1 && plain_condition c.2) filter.

(** ** Updates *)

Fixpoint split_dots (s : string) : list string :=
  match s with
  | EmptyString => [""]
  | String c s' =>
      if Ascii.eqb c "." then "" :: split_dots s'
      else match split_dots s' with
           | k :: ks => String c k :: ks
           | [] => [String c ""]
           end
  end.

(** Updates the field at a path, creating the documents on the way; a value
    on the way that is not a document is an error. *)
Fixpoint update_path (path : list string) (f : option Bson -> option Bson) (d : Doc) : option Doc :=
  match path with
  | [] => None
  | [k] => (fun v => doc_set k v d) <$> f (doc_get k d)
  | k :: path' =>
      match doc_get k d with
      | None => (fun d' => doc_set k (BDoc d') d) <$> update_path path' f []
      | Some (BDoc d0) => (fun d' => doc_set k (BDoc d') d) <$> update_path path' f d0
      | Some _ => None
      end
  end.

(** [$inc]: the field is set when it is missing; numbers are added, and an
    overflow of 64 bits is an error. *)
Definition inc_value (amount : Bson) (old : option Bson) : option Bson :=
  match amount, old with
  | _, None => Some amount
  | BInt a, Some (BInt b) =>
      let s := b + a in
      if (min_int64 <=? s) && (s <=? max_int64) then Some (BInt s) else None
  | BDouble a, Some (BDouble b) => Some (BDouble (f64_add b a))
  | BInt a, Some (BDouble b) => Some (BDouble (f64_add b (f64_of_Z a)))
  | BDouble a, Some (BInt b) => Some (BDouble (f64_add (f64_of_Z b) a))
  | _, _ => None
  end.

Definition apply_fields (f : Bson -> option Bson -> option Bson) (fields d : Doc) : option Doc :=
  foldl (fun o kv => o ≫= update_path (split_dots kv.1) (f kv.2)) (Some d) fields.

Definition apply_operator (inserting : bool) (op : string) (arg : Bson) (d : Doc) : option Doc :=
  match arg with
  | BDoc fields =>
      if String.eqb op "$set" then apply_fields (fun v _ => Some v) fields d
      else if String.eqb op "$inc" then apply_fields inc_value fields d
      else if String.eqb op "$setOnInsert" then
        if inserting then apply_fields (fun v _ => Some v) fields d else Some d
      else None
  | _ => None
  end.

Definition apply_update (inserting : bool) (update d : Doc) : option Doc :=
  foldl (fun o u => o ≫= apply_operator inserting u.1 u.2) (Some d) update.

(** [mongo.UpdateOneModel]. *)
Record UpdateOneModel := { m_filter : Doc; m_update : Doc; m_upsert : bool }.

Record UpdateResult := { MatchedCount : Z; ModifiedCount : Z; UpsertedCount : Z }.

Record BulkWriteResult := { bw_InsertedCount : Z; bw_UpsertedCount : Z; bw_ModifiedCount : Z }.

(** The equalities of a filter, which an upsert stores. *)
Definition filter_equalities (filter : Doc) : Doc :=
  List.filter (fun c => is_string c.2) filter.

(** The document an upsert starts from: [hex] is the id the server gives. *)
Definition upsert_seed (hex : string) (filter : Doc) : Doc :=
  match doc_get "_id" (filter_equalities filter) with
  | Some _ => filter_equalities filter
  | None => ("_id", BObjectID hex) :: filter_equalities filter
  end.

(** One update of the documents of a collection, with the numbers of modified
    and of upserted documents. *)
Inductive update_step (oid_ok : string -> Prop) (m : UpdateOneModel) (docs docs' : list Doc) : Z -> Z -> Prop :=
  | step_match d d' rest modified :
      docs ≡ₚ d :: rest -> matches (m_filter m) d = true ->
      apply_update false (m_update m) d = Some d' -> docs' ≡ₚ d' :: rest -> 0 <= modified <= 1 ->
      update_step oid_ok m docs docs' modified 0
  | step_upsert hex d' :
      m_upsert m = true -> Forall (fun d => matches (m_filter m) d = false) docs -> oid_ok hex ->
      apply_update true (m_update m) (upsert_seed hex (m_filter m)) = Some d' -> docs' ≡ₚ d' :: docs ->
      update_step oid_ok m docs docs' 0 1
  | step_none :
      m_upsert m = false -> Forall (fun d => matches (m_filter m) d = false) docs -> docs' ≡ₚ docs ->
      update_step oid_ok m docs docs' 0 0.

(** A sequence of updates. *)
Inductive update_steps (oid_ok : string -> Prop) : list UpdateOneModel -> list Doc -> list Doc -> Z -> Z -> Prop :=
  | steps_nil docs docs' : docs' ≡ₚ docs -> update_steps oid_ok [] docs docs' 0 0
  | steps_cons m ms docs docs1 docs' n u n' u' :
      update_step oid_ok m docs docs1 n u -> update_steps oid_ok ms docs1 docs' n' u' ->
      update_steps oid_ok (m :: ms) docs docs' (n + n') (u + u').

(** ** Results of a query *)

Record FindArgs := {
  fa_Projection : Doc;
  fa_Sort : Doc;
  fa_Limit : Z;
  fa_BatchSize : Z;
  fa_Comment : string
}.

(** The documents [d] and [d'] may come in this order. *)
Definition sort_allows (sort d d' : Doc) : Prop :=
  match sort with
  | [(k, BInt 1)] => forall x y, doc_get k d = Some x -> doc_get k d' = Some y -> scalar_ltb y x = false
  | [(k, BInt (-1))] => forall x y, doc_get k d = Some x -> doc_get k d' = Some y -> scalar_ltb x y = false
  | _ => True
  end.

(** A projection keeps the fields it lists with 1, or, when it lists none so,
    those it does not list with 0; the id is kept unless it is listed with 0. *)
Definition keeps (p : list (string * Z)) (k : string) : bool :=
  match List.find (fun kv => String.eqb k kv.1) p with
  | Some kv => negb (kv.2 =? 0)
  | None => String.eqb k "_id" || forallb (fun kv => kv.2 =? 0) p
  end.

Definition project (p : list (string * Z)) (d : Doc) : Doc :=
  List.filter (fun kv => keeps p kv.1) d.

Definition ints (l : list (string * Z)) : Doc := map (fun kv => (kv.1, BInt kv.2)) l.

(** The projections the laws are about: fields to keep, the id to leave out. *)
Definition plain_projection (p : list (string * Z)) : bool :=
  forallb (fun kv => top_level kv.1 && ((kv.2 =? 1) || (kv.2 =? 0) && String.eqb kv.1 "_id")) p.

(** [SetLimit(0)] is no limit. *)
Definition find_limit {A} (limit : Z) (l : list A) : list A :=
  if limit =? 0 then l else take (Z.to_nat limit) l.

(** ** Collections *)

(** A collection of a database, read from the primary or from a secondary. *)
Record Collection := { database : string; collection_name : string; primary_read : bool }.

Definition namespace (coll : Collection) : string * string := (database coll, collection_name coll).

(** The state [C] of the server; [mongo_docs] are the documents of a
    namespace.  [FindOne] gives no document for [ErrNoDocuments], and
    [Distinct] has its result decoded into a list of strings. *)
Class MongoOps (C : Type) := {
  mongo_docs : C -> string * string -> list Doc;
  UpdateOne : Collection -> UpdateOneModel -> C -> C * (UpdateResult + error);
  BulkWrite : Collection -> list UpdateOneModel -> C -> C * (BulkWriteResult + error);
  DeleteMany : Collection -> Doc -> C -> C * (Z + error);
  CountDocuments : Collection -> Doc -> string -> C -> Z + error;
  Distinct : Collection -> string -> Doc -> C -> list string + error;
  mongo_Find : Collection -> Doc -> FindArgs -> C -> list Doc + error;
  FindOne : Collection -> Doc -> C -> option Doc + error;
  ObjectIDFromHex : string -> string + error
}.

Section Laws.
Context {C : Type} `{MongoOps C}.

Definition same_other_docs (coll : Collection) (c c' : C) : Prop :=
  forall ns, ns <> namespace coll -> mongo_docs c' ns = mongo_docs c ns.

(** The texts that are object ids in the form the server gives them. *)
Definition oid_ok (hex : string) : Prop := ObjectIDFromHex hex = inl hex.

Definition coll_docs (c : C) (coll : Collection) : list Doc := mongo_docs c (namespace coll).

(** The values of a field are strings. *)
Definition string_field (field : string) (docs : list Doc) : Prop :=
  Forall (fun d => match doc_get field d with Some (BString _) | None => True | _ => False end) docs.
End Laws.

(** The documented behaviour of the operations, for a server whose reads see
    the writes that were acknowledged before them: one server, or a replica
    set whose secondaries keep up.  The code reads with [SecondaryPreferred];
    what it reads from a secondary that lags behind is not covered. *)
Class Mongo (C : Type) `{MongoOps C} := {
  mongo_UpdateOne : forall coll m c c' r,
    plain_filter (m_filter m) = true -> UpdateOne coll m c = (c', inl r) ->
    same_other_docs coll c c' /\
    update_step oid_ok m (coll_docs c coll) (coll_docs c' coll) (ModifiedCount r) (UpsertedCount r);

  mongo_UpdateOne_error : forall coll m c c' e,
    plain_filter (m_filter m) = true -> UpdateOne coll m c = (c', inr e) ->
    same_other_docs coll c c' /\
    (coll_docs c' coll = coll_docs c coll \/
     exists n u, update_step oid_ok m (coll_docs c coll) (coll_docs c' coll) n u);

  (** an unordered batch runs its updates in any order; one that fails has run
      some of them *)
  mongo_BulkWrite : forall coll ms c c' r,
    Forall (fun m => plain_filter (m_filter m) = true) ms -> BulkWrite coll ms c = (c', inl r) ->
    same_other_docs coll c c' /\ bw_InsertedCount r = 0 /\
    exists ms', ms' ≡ₚ ms /\
      update_steps oid_ok ms' (coll_docs c coll) (coll_docs c' coll) (bw_ModifiedCount r) (bw_UpsertedCount r);

  mongo_BulkWrite_error : forall coll ms c c' e,
    Forall (fun m => plain_filter (m_filter m) = true) ms -> BulkWrite coll ms c = (c', inr e) ->
    same_other_docs coll c c' /\
    exists ms' n u, ms' ⊆+ ms /\ update_steps oid_ok ms' (coll_docs c coll) (coll_docs c' coll) n u;

  mongo_DeleteMany : forall coll filter c c' n,
    plain_filter filter = true -> DeleteMany coll filter c = (c', inl n) ->
    same_other_docs coll c c' /\
    coll_docs c' coll ≡ₚ List.filter (fun d => negb (matches filter d)) (coll_docs c coll) /\
    n = Z.of_nat (length (List.filter (matches filter) (coll_docs c coll)));

  mongo_DeleteMany_error : forall coll filter c c' e,
    plain_filter filter = true -> DeleteMany coll filter c = (c', inr e) ->
    same_other_docs coll c c' /\
    exists gone, coll_docs c coll ≡ₚ gone ++ coll_docs c' coll /\
      Forall (fun d => matches filter d = true) gone;

  mongo_CountDocuments : forall coll filter comment c n,
    plain_filter filter = true -> CountDocuments coll filter comment c = inl n ->
    n = Z.of_nat (length (List.filter (matches filter) (coll_docs c coll)));

  mongo_Distinct : forall coll field filter c l,
    plain_filter filter = true -> top_level field = true -> string_field field (coll_docs c coll) ->
    Distinct coll field filter c = inl l ->
    NoDup l /\ forall s, s ∈ l <->
      exists d, d ∈ coll_docs c coll /\ matches filter d = true /\ doc_get field d = Some (BString s);

  (** for a sort on one field at most *)
  mongo_Find_finds : forall coll filter args p c ds,
    plain_filter filter = true -> fa_Projection args = ints p -> plain_projection p = true ->
    0 <= fa_Limit args -> mongo_Find coll filter args c = inl ds ->
    exists found, found ≡ₚ List.filter (matches filter) (coll_docs c coll) /\
      StronglySorted (sort_allows (fa_Sort args)) found /\
      ds = map (project p) (find_limit (fa_Limit args) found);

  mongo_FindOne : forall coll filter c o,
    plain_filter filter = true -> FindOne coll filter c = inl o ->
    match o with
    | Some d => d ∈ coll_docs c coll /\ matches filter d = true
    | None => Forall (fun d => matches filter d = false) (coll_docs c coll)
    end;

  (** an object id is read from 24 characters *)
  mongo_ObjectIDFromHex : forall text hex, ObjectIDFromHex text = inl hex -> String.length text = 24%nat
}.
