(* ===== verification/MongoModel.v ===== *)
(** * A MongoDB server

    A concrete server for the witnesses, with the documents of each
    namespace, a counter of object ids, and a switch that fails every
    operation; and the proof that it keeps the laws of [Mongo]. *)

From S2P Require Import Prelude Float64 GoStrings Mongo.
#[local] Open Scope string_scope.
#[local] Open Scope list_scope.
#[local] Open Scope Z_scope.

(** ** State *)

Record MongoModel := {
  data : gmap (string * string) (list Doc);
  next_oid : N;
  down : bool
}.

Definition model_docs (c : MongoModel) (ns : string * string) : list Doc := default [] (data c !! ns).

Definition set_docs (ns : string * string) (docs : list Doc) (n : N) (c : MongoModel) : MongoModel :=
  {| data := <[ns := docs]> (data c); next_oid := n; down := down c |}.

(** An object id: 24 hex digits. *)
Definition hex_digit (n : N) : ascii :=
  if (n <? 10)%N then ascii_of_N (48 + n) else ascii_of_N (87 + n).

Definition is_hex (c : ascii) : bool :=
  let n := N_of_ascii c in ((48 <=? n)%N && (n <=? 57)%N) || ((97 <=? n)%N && (n <=? 102)%N).

Fixpoint hex_digits (k : nat) (n : N) : string :=
  match k with
  | O => ""
  | S k' => String (hex_digit (n / 16 ^ N.of_nat k' mod 16)) (hex_digits k' n)
  end.

Definition is_oid_text (s : string) : bool :=
  Nat.eqb (String.length s) 24 && forallb is_hex (list_ascii_of_string s).

(** ** Operations *)

Definition unavailable : error := ErrorString "server selection error".

(** Updates the first document that matches; [None] when there is none. *)
Fixpoint update_first (m : UpdateOneModel) (docs : list Doc) : option (option (list Doc)) :=
  match docs with
  | [] => None
  | d :: rest =>
      if matches (m_filter m) d then Some ((fun d' => d' :: rest) <$> apply_update false (m_update m) d)
      else match update_first m rest with
           | None => None
           | Some o => Some (cons d <$> o)
           end
  end.

(** The documents, the next id, and the numbers modified and upserted. *)
Definition model_step (m : UpdateOneModel) (docs : list Doc) (n : N) : option (list Doc * N * Z * Z) :=
  match update_first m docs with
  | Some o => (fun docs' => (docs', n, 1, 0)) <$> o
  | None =>
      if m_upsert m then
        (fun d' => (docs ++ [d'], (n + 1)%N, 0, 1)) <$>
          apply_update true (m_update m) (upsert_seed (hex_digits 24 n) (m_filter m))
      else Some (docs, n, 0, 0)
  end.

(** Runs the updates; the boolean says that all of them ran. *)
Fixpoint model_steps (ms : list UpdateOneModel) (docs : list Doc) (n : N) (modified upserted : Z) :
    list Doc * N * Z * Z * bool :=
  match ms with
  | [] => (docs, n, modified, upserted, true)
  | m :: ms' =>
      match model_step m docs n with
      | Some (docs', n', k, u) => model_steps ms' docs' n' (modified + k) (upserted + u)
      | None => (docs, n, modified, upserted, false)
      end
  end.

Definition bson_rank (v : option Bson) : Z :=
  match v with
  | None | Some BNull => 0
  | Some (BInt _) => 1
  | Some (BDouble f) => if f64_is_nan f then 2 else 3
  | Some (BString _) => 4
  | Some (BObjectID _) => 5
  | Some (BDate _) => 6
  | Some _ => 7
  end.

Definition value_less (x y : option Bson) : bool :=
  (bson_rank x <? bson_rank y) ||
  (bson_rank x =? bson_rank y) &&
    match x, y with Some a, Some b => scalar_ltb a b | _, _ => false end.

Definition model_less (sort : Doc) (d d' : Doc) : bool :=
  match sort with
  | [(k, BInt 1)] => value_less (doc_get k d) (doc_get k d')
  | [(k, BInt (-1))] => value_less (doc_get k d') (doc_get k d)
  | _ => false
  end.

Definition as_string (v : option Bson) : option (list string) :=
  match v with None => Some [] | Some (BString s) => Some [s] | Some _ => None end.

Fixpoint strings_of (field : string) (docs : list Doc) : option (list string) :=
  match docs with
  | [] => Some []
  | d :: docs' => s ← as_string (doc_get field d); l ← strings_of field docs'; Some (s ++ l)
  end.

Definition find_projection (p : Doc) : list (string * Z) :=
  map (fun kv => (kv.1, match kv.2 with BInt z => z | _ => 0 end)) p.

#[export] Instance MongoModel_Ops : MongoOps MongoModel := {
  mongo_docs := model_docs;
  UpdateOne coll m c :=
    if down c then (c, inr unavailable)
    else match model_step m (model_docs c (namespace coll)) (next_oid c) with
         | Some (docs, n, k, u) =>
             (set_docs (namespace coll) docs n c,
              inl {| MatchedCount := k; ModifiedCount := k; UpsertedCount := u |})
         | None => (c, inr (ErrorString "write exception"))
         end;
  BulkWrite coll ms c :=
    if down c then (c, inr unavailable)
    else match ms with
         | [] => (c, inr (ErrorString "must provide at least one element in input slice"))
         | _ =>
             let '(docs, n, k, u, done) :=
               model_steps ms (model_docs c (namespace coll)) (next_oid c) 0 0 in
             (set_docs (namespace coll) docs n c,
              if done then inl {| bw_InsertedCount := 0; bw_UpsertedCount := u; bw_ModifiedCount := k |}
              else inr (ErrorString "bulk write exception"))
         end;
  DeleteMany coll filter c :=
    if down c then (c, inr unavailable)
    else
      let docs := model_docs c (namespace coll) in
      (set_docs (namespace coll) (List.filter (fun d => negb (matches filter d)) docs) (next_oid c) c,
       inl (Z.of_nat (length (List.filter (matches filter) docs))));
  CountDocuments coll filter _ c :=
    if down c then inr unavailable
    else inl (Z.of_nat (length (List.filter (matches filter) (model_docs c (namespace coll)))));
  Distinct coll field filter c :=
    if down c then inr unavailable
    else match strings_of field (List.filter (matches filter) (model_docs c (namespace coll))) with
         | Some l => inl (remove_dups l)
         | None => inr (ErrorString "error decoding key")
         end;
  mongo_Find coll filter args c :=
    if down c then inr unavailable
    else inl (map (project (find_projection (fa_Projection args)))
                (find_limit (fa_Limit args)
                   (stable_sort (model_less (fa_Sort args))
                      (List.filter (matches filter) (model_docs c (namespace coll))))));
  FindOne coll filter c :=
    if down c then inr unavailable
    else inl (List.find (matches filter) (model_docs c (namespace coll)));
  ObjectIDFromHex s :=
    if is_oid_text s then inl s else inr (ErrorString "the provided hex string is not a valid ObjectID")
}.

(** ** The server keeps the laws *)

Lemma hex_digit_is_hex n : (n < 16)%N -> is_hex (hex_digit n) = true.
Proof.
  intros Hn. assert (Hin : n ∈ N.of_nat <$> seq 0 16).
  { apply list_elem_of_fmap. exists (N.to_nat n). split; [lia|]. apply elem_of_seq. lia. }
  revert n Hin Hn. rewrite <- Forall_forall. repeat constructor.
Qed.

Lemma hex_digits_ok n : is_oid_text (hex_digits 24 n) = true.
Proof.
  assert (H : forall k, String.length (hex_digits k n) = k /\
    forallb is_hex (list_ascii_of_string (hex_digits k n)) = true).
  { induction k as [|k [IH1 IH2]]; [done|]. cbn [hex_digits String.length list_ascii_of_string forallb].
    rewrite IH1, IH2, hex_digit_is_hex; [done|]. by apply N.mod_lt. }
  unfold is_oid_text. destruct (H 24%nat) as [-> ->]. done.
Qed.

Lemma model_oid n : oid_ok (C := MongoModel) (hex_digits 24 n).
Proof. unfold oid_ok, ObjectIDFromHex, MongoModel_Ops. by rewrite hex_digits_ok. Qed.

Lemma update_first_None m docs :
  update_first m docs = None <-> Forall (fun d => matches (m_filter m) d = false) docs.
Proof.
  induction docs as [|d docs IH]; simpl; [by split|]. rewrite Forall_cons.
  destruct (matches (m_filter m) d); [split; [done|by intros [? _]]|]. rewrite <- IH. destruct (update_first m docs); naive_solver.
Qed.

Lemma update_first_Some m docs docs' :
  update_first m docs = Some (Some docs') ->
  exists d d' rest, docs ≡ₚ d :: rest /\ matches (m_filter m) d = true /\
    apply_update false (m_update m) d = Some d' /\ docs' ≡ₚ d' :: rest.
Proof.
  revert docs'. induction docs as [|d docs IH]; intros docs'; simpl; [done|].
  destruct (matches (m_filter m) d) eqn:E.
  - intros [= H]. apply fmap_Some in H as (d' & Hd' & ->). by exists d, d', docs.
  - destruct (update_first m docs) as [[rest|]|] eqn:Eu; intros [= <-].
    destruct (IH rest eq_refl) as (x & x' & rest' & H1 & ? & ? & H2). exists x, x', (d :: rest').
    split_and!; [|done|done|]; rewrite ?H1, ?H2; apply perm_swap.
Qed.

Lemma model_step_spec m docs n docs' n' k u :
  model_step m docs n = Some (docs', n', k, u) ->
  update_step (oid_ok (C := MongoModel)) m docs docs' k u.
Proof.
  unfold model_step. destruct (update_first m docs) as [o|] eqn:E.
  - intros (rest & -> & [= -> -> -> ->])%fmap_Some.
    apply update_first_Some in E as (d & d' & rest' & ? & ? & ? & ?). eapply step_match; eauto. lia.
  - apply update_first_None in E. destruct (m_upsert m) eqn:Eu.
    + intros (d' & Hd' & [= -> -> -> ->])%fmap_Some. eapply step_upsert; eauto using model_oid.
      by rewrite (comm (++)).
    + intros [= <- <- <- <-]. by apply step_none.
Qed.

Lemma model_steps_spec ms : forall docs n k u docs' n' k' u' ok,
  model_steps ms docs n k u = (docs', n', k', u', ok) ->
  exists done_ rest a b, ms = done_ ++ rest /\ (ok = true -> rest = []) /\ k' = k + a /\ u' = u + b /\
    update_steps (oid_ok (C := MongoModel)) done_ docs docs' a b.
Proof.
  induction ms as [|m ms IH]; intros docs n k u docs' n' k' u' ok; simpl.
  { intros [= <- <- <- <- <-]. exists [], [], 0, 0. split_and!; try done; try lia. by constructor. }
  destruct (model_step m docs n) as [[[[docs1 n1] a] b]|] eqn:E.
  - intros (l & rest & a' & b' & -> & Hok & -> & -> & Hs)%IH.
    exists (m :: l), rest, (a + a'), (b + b'). split_and!; try done; try lia.
    econstructor; [by eapply model_step_spec|done].
  - intros [= <- <- <- <- <-]. exists [], (m :: ms), 0, 0. split_and!; try done; try lia. by constructor.
Qed.

Lemma value_less_weak_order : weak_order value_less (fun _ => True).
Proof.
  split.
  - intros x y _ _. unfold value_less.
    destruct (Z.ltb_spec (bson_rank x) (bson_rank y)) as [Hlt|Hge]; cbn [orb].
    { intros _. rewrite (proj2 (Z.ltb_ge _ _)), (proj2 (Z.eqb_neq _ _)) by lia. done. }
    intros [Heq Hl]%andb_true_iff. apply Z.eqb_eq in Heq. rewrite Heq, Z.ltb_irrefl, Z.eqb_refl. cbn [orb andb].
    destruct x as [x|], y as [y|]; try done. destruct x, y; try done; cbn in *;
      auto using str_ltb_asym, f64_ltb_asym; lia.
  - intros x y z _ _ _. unfold value_less. rewrite !orb_false_iff, !andb_false_iff, !Z.ltb_ge, !Z.eqb_neq.
    intros [H1 H2] [H3 H4]. split; [lia|]. destruct (decide (bson_rank x = bson_rank z)) as [He|]; [right|by left].
    destruct H2 as [?|H2]; [lia|]. destruct H4 as [?|H4]; [lia|].
    assert (Hy : bson_rank x = bson_rank y) by lia. clear H1 H3.
    destruct x as [[]|], y as [[]|]; try done; cbn in Hy;
      try (destruct (f64_is_nan _) in Hy; discriminate);
      destruct z as [[]|]; try done; cbn in He; try (destruct (f64_is_nan _) in He; discriminate);
      cbn in *; try lia; eauto using str_nltb_trans.
    destruct (f64_is_nan f0) eqn:E0; [|by eapply f64_nltb_trans].
    destruct (f64_is_nan f) eqn:E; [by apply f64_ltb_nan_l|done].
Qed.

Lemma model_less_sorted sort l :
  StronglySorted (sort_allows sort) (stable_sort (model_less sort) l).
Proof.
  assert (Hval : forall x y, value_less (Some x) (Some y) = false -> scalar_ltb x y = false).
  { intros x y. unfold value_less. rewrite orb_false_iff, andb_false_iff. intros [_ [Hr|?]]; [|done].
    apply Z.eqb_neq in Hr. destruct x, y; try done; cbn in *; try lia.
    destruct (f64_is_nan f) eqn:E1; [by apply f64_ltb_nan_l|].
    destruct (f64_is_nan f0) eqn:E2; [|lia]. destruct (f64_ltb f f0) eqn:E; [|done].
    apply f64_ltb_not_nan in E as [_ E]. congruence. }
  assert (Hw : weak_order (model_less sort) (fun _ => True)).
  { destruct value_less_weak_order as [Ha Ht]. split.
    - intros x y _ _. unfold model_less. repeat case_match; eauto.
    - intros x y z _ _ _. unfold model_less. repeat case_match; eauto. }
  eapply StronglySorted_impl; [|apply (stable_sort_sorted _ _ Hw), Forall_true; done].
  intros x y. cbn. unfold model_less, sort_allows. repeat case_match; try done; subst;
    intros Hl u v Hu Hv; rewrite Hu, Hv in Hl; by apply Hval.
Qed.

Lemma set_docs_same ns docs n c : model_docs (set_docs ns docs n c) ns = docs.
Proof. unfold model_docs. cbn. by rewrite lookup_insert_eq. Qed.

Lemma set_docs_other coll docs n c :
  same_other_docs coll c (set_docs (namespace coll) docs n c).
Proof. intros ns Hns. cbn. unfold model_docs. cbn. by rewrite lookup_insert_ne. Qed.

Lemma find_projection_ints p : find_projection (ints p) = p.
Proof.
  unfold find_projection, ints. rewrite map_map. cbn. induction p as [|[k z] p IH]; [done|]. cbn. by rewrite IH.
Qed.

Lemma elem_of_strings_of field docs l s :
  strings_of field docs = Some l -> s ∈ l <-> exists d, d ∈ docs /\ doc_get field d = Some (BString s).
Proof.
  revert l. induction docs as [|d docs IH]; intros l; cbn [strings_of].
  { intros [= <-]. set_solver. }
  intros (t & Ht & (l' & Hl' & [= <-])%bind_Some)%bind_Some. rewrite elem_of_app, (IH _ Hl').
  assert (Hh : s ∈ t <-> doc_get field d = Some (BString s)).
  { destruct (doc_get field d) as [[]|]; simplify_eq/=; set_solver. }
  rewrite Hh. setoid_rewrite elem_of_cons. naive_solver.
Qed.

#[export] Instance MongoModel_Mongo : Mongo MongoModel.
Proof.
  split.
  - intros coll m c c' r _. cbn. destruct (down c); [done|].
    destruct (model_step _ _ _) as [[[[docs n] k] u]|] eqn:E; [|done]. intros [= <- <-].
    split; [apply set_docs_other|]. cbn. rewrite set_docs_same. by eapply model_step_spec.
  - intros coll m c c' e _. cbn. destruct (down c); [by intros [= <- <-]; split; [|left]|].
    destruct (model_step _ _ _) as [[[[docs n] k] u]|] eqn:E; [done|]. intros [= <- <-]. by split; [|left].
  - intros coll ms c c' r _. cbn. destruct (down c); [done|]. destruct ms as [|m0 ms0]; [done|].
    set (ms := m0 :: ms0). destruct (model_steps ms _ _ _ _) as [[[[docs n] k] u] ok] eqn:E.
    destruct ok; [|done]. intros [= <- <-]. split; [apply set_docs_other|]. split; [done|].
    apply model_steps_spec in E as (l & rest & a & b & -> & Hr & -> & -> & Hs). rewrite (Hr eq_refl).
    exists l. split; [by rewrite app_nil_r|]. cbn. by rewrite set_docs_same.
  - intros coll ms c c' e _. cbn. destruct (down c).
    { intros [= <- <-]. split; [done|]. exists [], 0, 0. split; [apply submseteq_nil_l|by constructor]. }
    destruct ms as [|m0 ms0].
    { intros [= <- <-]. split; [done|]. exists [], 0, 0. split; [apply submseteq_nil_l|by constructor]. }
    set (ms := m0 :: ms0). destruct (model_steps ms _ _ _ _) as [[[[docs n] k] u] ok] eqn:E.
    destruct ok; [done|]. intros [= <- <-]. split; [apply set_docs_other|].
    apply model_steps_spec in E as (l & rest & a & b & -> & _ & -> & -> & Hs).
    exists l, a, b. split; [by apply submseteq_inserts_r|]. cbn. by rewrite set_docs_same.
  - intros coll filter c c' n _. cbn. destruct (down c); [done|]. intros [= <- <-].
    split; [apply set_docs_other|]. cbn. by rewrite set_docs_same.
  - intros coll filter c c' e _. cbn. destruct (down c); [|done]. intros [= <- <-]. split; [done|]. by exists [].
  - intros coll filter comment c n _. cbn. destruct (down c); [done|]. by intros [= <-].
  - intros coll field filter c l _ _ Hf. cbn. destruct (down c); [done|].
    destruct (strings_of _ _) as [l0|] eqn:E; [|done]. intros [= <-]. split; [apply NoDup_remove_dups|].
    intros s. rewrite elem_of_remove_dups, (elem_of_strings_of _ _ _ _ E). setoid_rewrite elem_of_filter_iff.
    naive_solver.
  - intros coll filter args p c ds _ Hp _ Hl. cbn. destruct (down c); [done|]. intros [= <-].
    eexists. split; [|split; [|rewrite Hp, find_projection_ints; reflexivity]].
    + apply stable_sort_perm.
    + apply model_less_sorted.
  - intros coll filter c o _. cbn. destruct (down c); [done|]. intros [= <-].
    change (model_docs c (namespace coll)) with (coll_docs c coll).
    destruct (List.find _ _) as [d|] eqn:E.
    + apply List.find_some in E as [Hd ?]. by rewrite <- list_elem_of_In in Hd.
    + apply Forall_forall. intros d Hd%list_elem_of_In. by eapply List.find_none in E.
  - intros text hex. cbn. destruct (is_oid_text text) eqn:E; [|done]. intros _.
    apply andb_true_iff in E as [E _]. by apply Nat.eqb_eq in E.
Qed.
