(* ===== verification/MongoStorage.v ===== *)
(** * The MongoDB storage

    [internal/queue/storage/mongo_storage.go]: the second implementation of
    the storage, which builds the filters, updates and options it sends to
    the server of [Mongo]; and the mapping of the struct tags of
    [message.Message] and [QueueConfiguration] to documents. *)

From S2P Require Import Prelude GoStrings Float64 Dtime Message Storage Mongo.
#[local] Open Scope string_scope.
#[local] Open Scope list_scope.
#[local] Open Scope Z_scope.

(** ** Documents of messages

    The driver encodes and decodes values; the encoding of [anypb.Any], a
    struct of another package, is left open. *)

Class AnyCodec := {
  encode_any : Any -> Bson;
  decode_any : Bson -> option Any;
  decode_encode_any : forall a, decode_any (encode_any a) = Some a
}.

(** A BSON date has milliseconds. *)
Definition bson_time (t : Time) : Bson := BDate (t / Millisecond).
Definition time_of_date (ms : Z) : Time := ms * Millisecond.
Definition date_precision (t : Time) : Time := time_of_date (t / Millisecond).

Definition get_string (k : string) (d : Doc) : string :=
  match doc_get k d with Some (BString s) => s | _ => "" end.
Definition get_int (k : string) (d : Doc) : Z :=
  match doc_get k d with Some (BInt z) => z | _ => 0 end.
Definition get_double (k : string) (d : Doc) : float64 :=
  match doc_get k d with Some (BDouble f) => f | _ => f64_zero end.
Definition get_bool (k : string) (d : Doc) : bool :=
  match doc_get k d with Some (BBool b) => b | _ => false end.
Definition get_int_pointer (k : string) (d : Doc) : option Z :=
  match doc_get k d with Some (BInt z) => Some z | _ => None end.

Section Documents.
Context `{HA : AnyCodec}.

Definition get_metadata (d : Doc) : option (gmap string string) :=
  match doc_get "metadata" d with
  | Some (BDoc l) =>
      Some (list_to_map (omap (fun kv => match kv.2 with BString s => Some (kv.1, s) | _ => None end) l))
  | _ => None
  end.

Definition get_payload (d : Doc) : option (gmap string Any) :=
  match doc_get "payload" d with
  | Some (BDoc l) => Some (list_to_map (omap (fun kv => pair kv.1 <$> decode_any kv.2) l))
  | _ => None
  end.

Definition get_diagnostics (d : Doc) : option MessageDiagnostics :=
  match doc_get "diagnostics" d with
  | Some (BDoc l) =>
      Some {| Acks := get_int_pointer "acks" l; Nacks := get_int_pointer "nacks" l;
              ConsecutiveAcks := get_int_pointer "consecutive_acks" l;
              ConsecutiveNacks := get_int_pointer "consecutive_nacks" l |}
  | _ => None
  end.

(** The message of a document: each field from the name its tag gives
    ([Description] has no tag, its name is in lower case), and its zero value
    when the document does not have the field. *)
Definition read_message (d : Doc) : Message := {|
  ID := get_string "id" d;
  Description := get_string "description" d;
  Queue := get_string "queue" d;
  ExpiryDate := match doc_get "expiry_date" d with Some (BDate ms) => time_of_date ms | _ => time_zero end;
  Timeless := get_bool "timeless" d;
  Metadata := get_metadata d;
  Payload := get_payload d;
  StringPayload := get_string "string_payload" d;
  LockMs := get_int "lock_ms" d;
  InternalId := match doc_get "_id" d with Some (BObjectID hex) => IdObjectID hex | _ => IdNil end;
  Score := get_double "score" d;
  LastUsage := match doc_get "last_usage" d with Some (BDate ms) => Some (time_of_date ms) | _ => None end;
  Breakpoint := get_string "breakpoint" d;
  LastScoreSubtract := get_double "last_score_subtract" d;
  TotalScoreSubtract := get_double "total_score_subtract" d;
  UsageCount := get_int "usage_count" d;
  QueuePrefix := get_string "queue_prefix" d;
  QueueSuffix := get_string "queue_suffix" d;
  Diagnostics := get_diagnostics d
|}.

Definition read_configuration (d : Doc) : QueueConfiguration :=
  {| cfg_Queue := get_string "_id" d; MaxElements := get_int "max_elements" d |}.

(** The type each field of a document must have to be decoded. *)
Definition is_int (v : Bson) : bool := match v with BInt _ => true | _ => false end.
Definition is_double (v : Bson) : bool := match v with BDouble _ => true | _ => false end.
Definition is_bool (v : Bson) : bool := match v with BBool _ => true | _ => false end.
Definition is_date_or_null (v : Bson) : bool := match v with BDate _ | BNull => true | _ => false end.

Definition is_metadata (v : Bson) : bool :=
  match v with BDoc l => forallb (fun kv => is_string kv.2) l | _ => false end.

Definition is_payload (v : Bson) : bool :=
  match v with BDoc l => forallb (fun kv => bool_decide (is_Some (decode_any kv.2))) l | _ => false end.

Definition typed (types : list (string * (Bson -> bool))) (d : Doc) : bool :=
  forallb (fun t => match doc_get t.1 d with Some v => t.2 v | None => true end) types.

Definition diagnostics_types : list (string * (Bson -> bool)) :=
  [("acks", is_int); ("nacks", is_int); ("consecutive_acks", is_int); ("consecutive_nacks", is_int)].

Definition is_diagnostics (v : Bson) : bool :=
  match v with BDoc l => typed diagnostics_types l | _ => false end.

Definition message_types : list (string * (Bson -> bool)) :=
  [("_id", is_oid); ("id", is_string); ("description", is_string); ("queue", is_string);
   ("expiry_date", is_date); ("timeless", is_bool); ("metadata", is_metadata);
   ("payload", is_payload); ("string_payload", is_string); ("lock_ms", is_int);
   ("score", is_double); ("last_usage", is_date_or_null); ("breakpoint", is_string);
   ("last_score_subtract", is_double); ("total_score_subtract", is_double);
   ("usage_count", is_int); ("queue_prefix", is_string); ("queue_suffix", is_string);
   ("diagnostics", is_diagnostics)].

Definition message_doc (d : Doc) : bool := typed message_types d.

Definition configuration_doc (d : Doc) : bool :=
  typed [("_id", is_string); ("max_elements", is_int)] d.
End Documents.

(** Decoding a document: it succeeds at least when its fields have the types
    of the struct. *)
Class BsonDecoder `{HA : AnyCodec} := {
  decode_message : Doc -> Message + error;
  decode_configuration : Doc -> QueueConfiguration + error;
  decode_message_doc : forall d, message_doc d = true -> decode_message d = inl (read_message d);
  decode_configuration_doc : forall d,
    configuration_doc d = true -> decode_configuration d = inl (read_configuration d)
}.

(** [cursor.All]: every document is decoded, or the first error is returned. *)
Fixpoint decode_all {A} (decode : Doc -> A + error) (ds : list Doc) : list A + error :=
  match ds with
  | [] => inl []
  | d :: ds' =>
      match decode d with
      | inr err => inr err
      | inl a => match decode_all decode ds' with inl l => inl (a :: l) | inr err => inr err end
      end
  end.

(** ** Filters, sorts and projections *)

Definition getMongoProjection (projection : option (list (string * Z))) : Doc :=
  ints (default [] projection).

Definition getMongoSort (sort : option (list (string * Z))) : Doc := ints (default [] sort).

Section Storage.
Context {C : Type} `{HO : MongoOps C} `{HB : BsonDecoder}.

(** One breakpoint: the entry of the id filter under an operator. *)
Definition id_condition (operator text : string) : Doc + error :=
  if String.eqb text "" then inl []
  else match ObjectIDFromHex text with
       | inr err => inr (WrapError "invalid breakpoint to filter" err)
       | inl internalId => inl [(operator, BObjectID internalId)]
       end.

Definition ids_condition (Ids : option (list string)) : Doc :=
  match Ids with
  | None | Some [] => []
  | Some [i] => [("id", BString i)]
  | Some ids => [("id", BDoc [("$in", BArray (map BString ids))])]
  end.

Definition getMongoMessage (InternalFilter : option InternalFilter) : Doc + error :=
  match InternalFilter with
  | None => inl []
  | Some f =>
      let mongoFilter := ids_condition (Ids f) in
      let mongoFilter :=
        mongoFilter ++ (if String.eqb (f_Queue f) "" then [] else [("queue", BString (f_Queue f))]) in
      let mongoFilter :=
        mongoFilter ++
        (if String.eqb (f_QueuePrefix f) "" then [] else [("queue_prefix", BString (f_QueuePrefix f))]) in
      match id_condition "$gt" (InternalIdBreakpointGt f) with
      | inr err => inr err
      | inl gt =>
          match id_condition "$lte" (InternalIdBreakpointLte f) with
          | inr err => inr err
          | inl lte =>
              let idFilter := gt ++ lte in
              let mongoFilter :=
                mongoFilter ++ (match idFilter with [] => [] | _ => [("_id", BDoc idFilter)] end) in
              inl (mongoFilter ++
                   match f_ExpiryDate f with
                   | Some date => [("expiry_date", BDoc [("$lte", bson_time date)])]
                   | None => []
                   end)
          end
      end
  end.

(** ** State *)

Record MongoStorage := {
  client : C;
  messagesCollection : Collection;
  messagesCollectionPrimaryRead : Collection;
  queueConfigurationCollection : Collection
}.

Definition with_client (c : C) (storage : MongoStorage) : MongoStorage := {|
  client := c; messagesCollection := messagesCollection storage;
  messagesCollectionPrimaryRead := messagesCollectionPrimaryRead storage;
  queueConfigurationCollection := queueConfigurationCollection storage
|}.

(** The storage [NewMongoStorage] returns once connected, from the configured
    names; the same server is reached with two read preferences. *)
Definition NewMongoStorage (c : C) (database queueCollection queueConfigurationCollection : string) :
    MongoStorage := {|
  client := c;
  messagesCollection :=
    {| database := database; collection_name := queueCollection; primary_read := false |};
  messagesCollectionPrimaryRead :=
    {| database := database; collection_name := queueCollection; primary_read := true |};
  queueConfigurationCollection :=
    {| database := database; collection_name := queueConfigurationCollection; primary_read := false |}
|}.

Implicit Types storage : MongoStorage.

(** ** Configurations *)

Definition EditQueueConfiguration (configuration : QueueConfiguration) storage :
    MongoStorage * option error :=
  let maxElements := MaxElements configuration in
  let set :=
    if negb (maxElements =? 0)
    then [("max_elements", BInt (if maxElements <? 0 then 0 else maxElements))] else [] in
  match set with
  | [] => (storage, None)
  | _ =>
      let '(c, res) :=
        UpdateOne (queueConfigurationCollection storage)
          {| m_filter := [("_id", BString (cfg_Queue configuration))];
             m_update := [("$set", BDoc set)]; m_upsert := true |} (client storage) in
      (with_client c storage, match res with inl _ => None | inr updateErr => Some updateErr end)
  end.

(** The batch size and the comment of the query are not set. *)
Definition no_options : FindArgs :=
  {| fa_Projection := []; fa_Sort := []; fa_Limit := 0; fa_BatchSize := 0; fa_Comment := "" |}.

Definition ListQueueConfigurations storage : result (list QueueConfiguration) :=
  match mongo_Find (queueConfigurationCollection storage) [] no_options (client storage) with
  | inr err => ([], Some (WrapError "error finding queue configurations" err))
  | inl cursor =>
      match decode_all decode_configuration cursor with
      | inr cursorErr => ([], Some (WrapError "error to fetch cursor" cursorErr))
      | inl configurations => (configurations, None)
      end
  end.

Definition GetQueueConfiguration (queue : string) storage : result (option QueueConfiguration) :=
  match FindOne (queueConfigurationCollection storage) [("_id", BString queue)] (client storage) with
  | inr err => (None, Some (WrapError "error getting queue configuration" err))
  | inl None => (None, None)
  | inl (Some d) =>
      match decode_configuration d with
      | inr err => (None, Some (WrapError "error getting queue configuration" err))
      | inl configuration => (Some configuration, None)
      end
  end.

(** ** Queries *)

Definition Flush storage : MongoStorage * result Z :=
  match DeleteMany (messagesCollection storage) [] (client storage) with
  | (c, inr err) => (with_client c storage, (0, Some (WrapError "error deleting storage elements" err)))
  | (c, inl deletedMessages) =>
      match DeleteMany (queueConfigurationCollection storage) [] c with
      | (c, inr err) =>
          (with_client c storage, (0, Some (WrapError "error deleting queue configurations on storage" err)))
      | (c, inl deletedConfigurations) =>
          (with_client c storage, ((deletedConfigurations + deletedMessages), None))
      end
  end.

Definition nil_pointer {A} : outcome A :=
  Panic "invalid memory address or nil pointer dereference".

Definition Count (findOpt : option FindOptions) (countOpt : option CountOptions) storage :
    outcome (result Z) :=
  match findOpt with
  | None => nil_pointer
  | Some findOpt =>
      match getMongoMessage (opt_InternalFilter findOpt) with
      | inr err => Ret (0, Some err)
      | inl mongoFilter =>
          match countOpt with
          | None => nil_pointer
          | Some countOpt =>
              match CountDocuments (messagesCollection storage) mongoFilter (count_Comment countOpt)
                      (client storage) with
              | inr err => Ret (0, Some (WrapError "error counting elements in storage" err))
              | inl n => Ret (n, None)
              end
          end
      end
  end.

Definition distinct (field : string) storage : result (list string) :=
  match Distinct (messagesCollection storage) field [] (client storage) with
  | inr err => ([], Some (WrapError "error to fetch distinct elements from storage" err))
  | inl data => (data, None)
  end.

Definition ListQueueNames storage : result (list string) := distinct "queue" storage.
Definition ListQueuePrefixes storage : result (list string) := distinct "queue_prefix" storage.

(** The conversion [int32(x)]. *)
Definition wrap32 (z : Z) : Z := (z + 2 ^ 31) mod 2 ^ 32 - 2 ^ 31.

Definition find_batch_size (Limit : Z) : Z :=
  let batchSize := wrap32 Limit in
  if batchSize <=? 1 then 1000 else if 10000 <? batchSize then 10000 else batchSize.

(** [&FindOptions{}]. *)
Definition no_find_options : FindOptions := filter_only None.

(** [make] panics on a negative capacity. *)
Definition Find (opt : option FindOptions) storage : outcome (result (list Message)) :=
  let opt := default no_find_options opt in
  match getMongoMessage (opt_InternalFilter opt) with
  | inr err => Ret ([], Some err)
  | inl mongoFilter =>
      let findOptions := {|
        fa_Projection := getMongoProjection (Projection opt); fa_Sort := getMongoSort (Sort opt);
        fa_Limit := Limit opt; fa_BatchSize := find_batch_size (Limit opt);
        fa_Comment := Comment opt |} in
      let collection :=
        if Retry opt then messagesCollectionPrimaryRead storage else messagesCollection storage in
      match mongo_Find collection mongoFilter findOptions (client storage) with
      | inr err => Ret ([], Some (WrapError "error finding storage elements" err))
      | inl cursor =>
          if Limit opt <? 0 then Panic "runtime error: makeslice: cap out of range"
          else match decode_all decode_message cursor with
               | inr cursorErr => Ret ([], Some (WrapError "error to fetch cursor" cursorErr))
               | inl messages => Ret (messages, None)
               end
      end
  end.

(** ** Removals *)

Definition deleteChunkSize : nat := 100.

Definition attemptChunkDeletion (i : nat) (ids : list string) (queue : string) storage :
    MongoStorage * (Z + error) :=
  let end_ := (i + deleteChunkSize)%nat in
  let end_ := if Nat.ltb (length ids) end_ then length ids else end_ in
  let chunk := drop i (take end_ ids) in
  let filter := [("queue", BString queue); ("id", BDoc [("$in", BArray (map BString chunk))])] in
  let '(c, res) := DeleteMany (messagesCollection storage) filter (client storage) in
  (with_client c storage, res).

(** The loop [for i := 0; i < len(ids); i += deleteChunkSize]; each round
    needs one unit of fuel, so that [length ids] of them are enough.  The text
    of the error also lists the ids. *)
Fixpoint remove_loop (fuel i : nat) (queue : string) (ids : list string) (deleted : Z) storage :
    MongoStorage * result Z :=
  if Nat.ltb i (length ids) then
    match fuel with
    | O => (storage, (deleted, None))
    | S fuel' =>
        match attemptChunkDeletion i ids queue storage with
        | (storage', inr err) =>
            (storage', (deleted, Some (WrapError "error deleting storage elements" err)))
        | (storage', inl n) => remove_loop fuel' (i + deleteChunkSize) queue ids (deleted + n) storage'
        end
    end
  else (storage, (deleted, None)).

Definition Remove (queue : string) (ids : list string) storage : MongoStorage * result Z :=
  if Nat.eqb (length ids) 0 then (storage, (0, None))
  else remove_loop (length ids) 0 queue ids 0 storage.
(** ** Insertions *)

Definition key_filter (i queue : string) : Doc := [("id", BString i); ("queue", BString queue)].

(** The fields [Insert] sets only in a new document. *)
Definition insert_on_insert (now : Time) (q : Message) : Doc :=
  [("last_usage", bson_time now); ("score", BDouble (Score q))].

(** The fields it sets in any case; the maps are encoded in the order of
    [range]. *)
Definition insert_fields (env : Env) (q : Message) : Doc :=
  [("expiry_date", bson_time (ExpiryDate q))] ++
  (if String.eqb (Description q) "" then [] else [("description", BString (Description q))]) ++
  (match Metadata q with
   | Some m => [("metadata", BDoc (map (fun kv => (kv.1, BString kv.2)) (map_range (env_order env) m)))]
   | None => []
   end) ++
  (match Payload q with
   | Some m => [("payload", BDoc (map (fun kv => (kv.1, encode_any kv.2)) (map_range (env_order env) m)))]
   | None => []
   end) ++
  (if String.eqb (StringPayload q) "" then [] else [("string_payload", BString (StringPayload q))]) ++
  [("queue_prefix", BString (QueuePrefix q))] ++
  (if String.eqb (QueueSuffix q) "" then [] else [("queue_suffix", BString (QueueSuffix q))]).

Definition insert_model (env : Env) (now : Time) (q : Message) : UpdateOneModel := {|
  m_filter := key_filter (ID q) (Queue q);
  m_update := [("$set", BDoc (insert_fields env q)); ("$setOnInsert", BDoc (insert_on_insert now q))];
  m_upsert := true
|}.

(** The loop over the messages: the updates, or the error of the first
    message without a queue or an id. *)
Fixpoint insert_models (env : Env) (now : Time) (messages : list Message) : list UpdateOneModel + error :=
  match messages with
  | [] => inl []
  | q :: messages' =>
      if String.eqb (Queue q) "" then inr (ErrorString "message has a invalid queue")
      else if String.eqb (ID q) "" then inr (ErrorString "message has a invalid ID")
      else match insert_models env now messages' with
           | inr err => inr err
           | inl updates => inl (insert_model env now q :: updates)
           end
  end.

Definition Insert (env : Env) (messages : list Message) storage : MongoStorage * result (Z * Z) :=
  match insert_models env (Now env) messages with
  | inr err => (storage, ((0, 0), Some err))
  | inl updates =>
      let '(c, res) := BulkWrite (messagesCollection storage) updates (client storage) in
      (with_client c storage,
       match res with
       | inr err => ((0, 0), Some (WrapError "error writing to mongodb storage" err))
       | inl res => ((bw_InsertedCount res + bw_UpsertedCount res, bw_ModifiedCount res), None)
       end)
  end.

(** ** Acks and nacks *)

Definition ack_update (message : Message) : Doc :=
  [("$set", BDoc [
      ("last_usage", match LastUsage message with Some t => bson_time t | None => BNull end);
      ("last_score_subtract", BDouble (LastScoreSubtract message));
      ("breakpoint", BString (Breakpoint message));
      ("score", BDouble (Score message));
      ("lock_ms", BInt (LockMs message));
      ("diagnostics.consecutive_nacks", BInt 0)]);
   ("$inc", BDoc [
      ("usage_count", BInt 1);
      ("total_score_subtract", BDouble (LastScoreSubtract message));
      ("diagnostics.acks", BInt 1);
      ("diagnostics.consecutive_acks", BInt 1)])].

Definition nack_update (message : Message) : Doc :=
  [("$set", BDoc [
      ("score", BDouble (Score message));
      ("lock_ms", BInt (LockMs message));
      ("diagnostics.consecutive_acks", BInt 0)]);
   ("$inc", BDoc [
      ("diagnostics.nacks", BInt 1);
      ("diagnostics.consecutive_nacks", BInt 1)])].

(** What [Ack] and [Nack] do with their update. *)
Definition update_message (message : Message) (update : Doc) storage : MongoStorage * result Z :=
  let '(c, res) :=
    UpdateOne (messagesCollection storage)
      {| m_filter := key_filter (ID message) (Queue message); m_update := update; m_upsert := false |}
      (client storage) in
  (with_client c storage,
   match res with
   | inr err => (0, Some (WrapError "error updating storage element" err))
   | inl res => (ModifiedCount res, None)
   end).

Definition Ack (message : Message) storage : MongoStorage * result Z :=
  update_message message (ack_update message) storage.

Definition Nack (message : Message) storage : MongoStorage * result Z :=
  update_message message (nack_update message) storage.

(** The type assertion [InternalId.(bson.ObjectID)]. *)
Definition GetStringInternalId (message : Message) : outcome string :=
  match InternalId message with
  | IdNil => Ret ""
  | IdObjectID hex => Ret hex
  | IdInt64 _ => Panic "interface conversion: interface {} is int64, not bson.ObjectID"
  end.

(** [err] and [secondErr]: what the two clients answer when they disconnect. *)
Definition Close (err secondErr : option error) : option error :=
  match err with
  | Some err => Some err
  | None => secondErr
  end.

#[export] Instance MongoStorage_Storage : Storage.Storage MongoStorage := {
  storage_Insert := Insert;
  storage_Find := fun _ => Find;
  storage_Remove := fun _ => Remove;
  storage_Ack := fun _ => Ack;
  storage_Nack := fun _ => Nack;
  storage_ListQueueNames := fun _ => ListQueueNames;
  storage_ListQueuePrefixes := fun _ => ListQueuePrefixes;
  storage_Count := fun _ => Count;
  storage_GetStringInternalId := fun _ => GetStringInternalId;
  storage_EditQueueConfiguration := fun _ => EditQueueConfiguration;
  storage_GetQueueConfiguration := fun _ => GetQueueConfiguration;
  storage_ListQueueConfigurations := fun _ => ListQueueConfigurations;
  storage_Flush := fun _ => Flush
}.
End Storage.
Arguments MongoStorage C : clear implicits.

(** ** A concrete driver

    It encodes the two fields of [anypb.Any], and refuses the documents whose
    fields do not have the types of the struct. *)

Definition model_codec : AnyCodec.
Proof.
  refine {|
    encode_any a := BDoc [("typeurl", BString (any_type_url a)); ("value", BBinary (any_value a))];
    decode_any v :=
      match v with
      | BDoc [(_, BString url); (_, BBinary value)] => Some {| any_type_url := url; any_value := value |}
      | _ => None
      end
  |}.
  by intros [].
Defined.

Definition model_decoder : BsonDecoder (HA := model_codec).
Proof.
  refine (Build_BsonDecoder model_codec
    (fun d => if message_doc (HA := model_codec) d then inl (read_message (HA := model_codec) d)
              else inr (ErrorString "error decoding key"))
    (fun d => if configuration_doc d then inl (read_configuration d)
              else inr (ErrorString "error decoding key")) _ _); by intros d ->.
Defined.
