(* ===== verification/MongoDocs.v ===== *)
(** * Documents of the MongoDB storage

    What an update changes in a document, and the message that is read from
    the result: the lemmas on single documents the contract of the storage
    needs. *)

From S2P Require Import Prelude GoStrings Float64 Dtime Message Storage Mongo MongoStorage.
#[local] Open Scope string_scope.
#[local] Open Scope list_scope.
#[local] Open Scope Z_scope.

(** ** Fields *)

Lemma doc_get_set k k' v d : doc_get k' (doc_set k v d) = if String.eqb k' k then Some v else doc_get k' d.
Proof.
  induction d as [|[k0 v0] d IH]; simpl; [done|].
  destruct (String.eqb_spec k k0) as [->|Hk]; simpl; [by destruct (String.eqb k' k0)|].
  rewrite IH. destruct (String.eqb_spec k' k0) as [->|]; [|done].
  by rewrite (proj2 (String.eqb_neq _ _) (not_eq_sym Hk)).
Qed.

Lemma doc_get_app k d d' :
  doc_get k (d ++ d') = match doc_get k d with Some v => Some v | None => doc_get k d' end.
Proof. induction d as [|[k0 v0] d IH]; simpl; [done|]. by destruct (String.eqb k k0). Qed.

Lemma doc_get_elem k v d : doc_get k d = Some v -> (k, v) ∈ d.
Proof.
  induction d as [|[k0 v0] d IH]; simpl; [done|]. rewrite elem_of_cons.
  destruct (String.eqb_spec k k0) as [->|]; [intros [= ->]; by left|auto].
Qed.

Lemma keeps_same p k k' : k = k' -> keeps p k = keeps p k'.
Proof. by intros ->. Qed.

Lemma doc_get_project p k d : doc_get k (project p d) = if keeps p k then doc_get k d else None.
Proof.
  unfold project. induction d as [|[k0 v0] d IH]; simpl; [by destruct (keeps p k)|].
  destruct (keeps p k0) eqn:E; simpl; rewrite IH; destruct (String.eqb_spec k k0) as [->|]; try done;
    by rewrite E.
Qed.

(** [d'] is [d] with other values for the fields of [changes]. *)
Definition changed (d d' changes : Doc) : Prop :=
  forall k, doc_get k d' = match doc_get k changes with Some v => Some v | None => doc_get k d end.

Lemma changed_refl d : changed d d [].
Proof. by intros k. Qed.

Lemma changed_set d d' changes k v : changed d d' changes -> changed d (doc_set k v d') ((k, v) :: changes).
Proof. intros Hc k'. rewrite doc_get_set. simpl. destruct (String.eqb k' k); [done|]. apply Hc. Qed.

Definition plain_key (k : string) : bool := bool_decide (split_dots k = [k]).

Lemma apply_set_changed fields : forall d d0 changes, changed d0 d changes ->
  forallb (fun kv => plain_key kv.1) fields = true ->
  exists d', apply_fields (fun v _ => Some v) fields d = Some d' /\ changed d0 d' (rev fields ++ changes).
Proof.
  induction fields as [|[k v] fields IH]; intros d d0 changes Hc Hf; [by exists d|].
  simpl in Hf. apply andb_true_iff in Hf as [Hk Hf]. apply bool_decide_eq_true in Hk.
  destruct (IH (doc_set k v d) d0 ((k, v) :: changes)) as (d' & Hd' & Hc'); [by apply changed_set|done|].
  exists d'. split; [|simpl; by rewrite <- app_assoc].
  unfold apply_fields in *. cbn [foldl]. simpl. rewrite Hk. exact Hd'.
Qed.

(** ** Types *)

Lemma typed_elem types d k v t :
  typed types d = true -> doc_get k d = Some v -> (k, t) ∈ types -> t v = true.
Proof.
  unfold typed. rewrite forallb_forall. intros Hd Hv Hin%list_elem_of_In. specialize (Hd _ Hin).
  simpl in Hd. by rewrite Hv in Hd.
Qed.

(** A value has the type its field needs. *)
Definition well_typed (types : list (string * (Bson -> bool))) (kv : string * Bson) : bool :=
  forallb (fun t => negb (String.eqb kv.1 t.1) || t.2 kv.2) types.

Lemma typed_changed types d d' changes :
  changed d d' changes -> typed types d = true -> forallb (well_typed types) changes = true ->
  typed types d' = true.
Proof.
  unfold typed. rewrite !forallb_forall. intros Hc Hd Hch [k t] Hin. simpl. rewrite Hc.
  destruct (doc_get k changes) as [v|] eqn:E; [|by apply (Hd (k, t))].
  apply doc_get_elem, list_elem_of_In, Hch in E. unfold well_typed in E. rewrite forallb_forall in E.
  specialize (E _ Hin). simpl in E. by rewrite String.eqb_refl in E.
Qed.

Lemma typed_project types p d : typed types d = true -> typed types (project p d) = true.
Proof.
  unfold typed. rewrite !forallb_forall. intros Hd t Hin. rewrite doc_get_project.
  destruct (keeps p t.1); [by apply Hd|done].
Qed.

(** ** Messages *)

Section Messages.
Context `{HA : AnyCodec}.

Lemma get_string_some d k : get_string k d <> "" -> doc_get k d = Some (BString (get_string k d)).
Proof. unfold get_string. by destruct (doc_get k d) as [[]|]. Qed.

(** The map a document of pairs encodes. *)
Lemma list_to_map_range {A} (o : MapOrder) (m : gmap string A) (encode : A -> Bson) (decode : Bson -> option A) :
  (forall a, decode (encode a) = Some a) ->
  list_to_map (omap (fun kv => pair kv.1 <$> decode kv.2) (map (fun kv => (kv.1, encode kv.2)) (map_range o m))) = m.
Proof.
  intros Hde. replace (omap _ _) with (map_range o m); cycle 1.
  { generalize (map_range o m). intros l. induction l as [|[k a] l IH]; simpl; [done|].
    rewrite Hde. simpl. by f_equal. }
  rewrite <- (list_to_map_to_list m) at 2. apply list_to_map_proper; [|apply map_range_perm].
  apply NoDup_map_range_fst.
Qed.

Lemma get_metadata_encoded o (m : gmap string string) d :
  doc_get "metadata" d = Some (BDoc (map (fun kv => (kv.1, BString kv.2)) (map_range o m))) ->
  get_metadata d = Some m.
Proof.
  unfold get_metadata. intros ->. f_equal.
  rewrite <- (list_to_map_range o m BString (fun v => match v with BString s => Some s | _ => None end)) at 2 by done.
  f_equal. apply list_omap_ext, Forall2_same_length_lookup; split; [done|].
  intros j [k v] y H1 H2. rewrite H1 in H2. injection H2 as <-. simpl. by destruct v.
Qed.

Lemma get_payload_encoded o (m : gmap string Any) d :
  doc_get "payload" d = Some (BDoc (map (fun kv => (kv.1, encode_any kv.2)) (map_range o m))) ->
  get_payload d = Some m.
Proof.
  unfold get_payload. intros ->. f_equal. apply list_to_map_range, decode_encode_any.
Qed.
(** ** Insertions *)

Lemma insert_fields_plain env q : forallb (fun kv => plain_key kv.1) (insert_fields env q) = true.
Proof.
  unfold insert_fields. rewrite !forallb_app.
  repeat (apply andb_true_iff; split); repeat case_match; by vm_compute.
Qed.

Lemma is_metadata_encoded o (m : gmap string string) :
  is_metadata (BDoc (map (fun kv => (kv.1, BString kv.2)) (map_range o m))) = true.
Proof. simpl. generalize (map_range o m). intros l. by induction l. Qed.

Lemma is_payload_encoded o (m : gmap string Any) :
  is_payload (BDoc (map (fun kv => (kv.1, encode_any kv.2)) (map_range o m))) = true.
Proof.
  simpl. generalize (map_range o m). intros l. induction l as [|[k a] l IH]; simpl; [done|].
  rewrite IH, andb_true_r. apply bool_decide_eq_true. rewrite decode_encode_any. by eexists.
Qed.

Lemma insert_fields_typed env q : forallb (well_typed message_types) (insert_fields env q) = true.
Proof.
  unfold insert_fields. rewrite !forallb_app.
  repeat (apply andb_true_iff; split); repeat case_match; try (by vm_compute);
    unfold well_typed; cbn [forallb message_types fst snd]; cbn [String.eqb Ascii.eqb Bool.eqb orb negb andb];
    rewrite ?is_metadata_encoded, ?is_payload_encoded; done.
Qed.

(** The message [Insert] leaves for [q] when there was none. *)
Definition mongo_new (hex : string) (now : Time) (q : Message) : Message := {|
  ID := ID q; Description := Description q; Queue := Queue q;
  ExpiryDate := date_precision (ExpiryDate q); Timeless := false; Metadata := Metadata q;
  Payload := Payload q; StringPayload := StringPayload q; LockMs := 0;
  InternalId := IdObjectID hex; Score := Score q; LastUsage := Some (date_precision now);
  Breakpoint := ""; LastScoreSubtract := f64_zero; TotalScoreSubtract := f64_zero; UsageCount := 0;
  QueuePrefix := QueuePrefix q; QueueSuffix := QueueSuffix q; Diagnostics := None
|}.

(** The one it leaves for [q] when [v] was stored. *)
Definition mongo_updated (q v : Message) : Message := {|
  ID := ID v; Description := if String.eqb (Description q) "" then Description v else Description q;
  Queue := Queue v; ExpiryDate := date_precision (ExpiryDate q); Timeless := Timeless v;
  Metadata := match Metadata q with Some m => Some m | None => Metadata v end;
  Payload := match Payload q with Some m => Some m | None => Payload v end;
  StringPayload := if String.eqb (StringPayload q) "" then StringPayload v else StringPayload q;
  LockMs := LockMs v; InternalId := InternalId v; Score := Score v; LastUsage := LastUsage v;
  Breakpoint := Breakpoint v; LastScoreSubtract := LastScoreSubtract v;
  TotalScoreSubtract := TotalScoreSubtract v; UsageCount := UsageCount v;
  QueuePrefix := QueuePrefix q;
  QueueSuffix := if String.eqb (QueueSuffix q) "" then QueueSuffix v else QueueSuffix q;
  Diagnostics := Diagnostics v
|}.

(** The update of a stored document runs, and changes the content. *)
Lemma insert_update_match env now q d :
  exists d', apply_update false (m_update (insert_model env now q)) d = Some d' /\
    changed d d' (rev (insert_fields env q)).
Proof.
  destruct (apply_set_changed (insert_fields env q) d d []) as (d' & Hd' & Hc);
    [apply changed_refl|apply insert_fields_plain|].
  rewrite app_nil_r in Hc. exists d'. split; [|done].
  cbn [m_update insert_model apply_update foldl fst snd mbind option_bind apply_operator String.eqb Ascii.eqb Bool.eqb].
  by rewrite Hd'.
Qed.

Definition insert_seed (hex i queue : string) : Doc :=
  [("_id", BObjectID hex); ("id", BString i); ("queue", BString queue)].

Lemma upsert_seed_key hex i queue : upsert_seed hex (key_filter i queue) = insert_seed hex i queue.
Proof. done. Qed.

Lemma insert_update_new env now hex q :
  exists d', apply_update true (m_update (insert_model env now q)) (insert_seed hex (ID q) (Queue q)) = Some d' /\
    changed (insert_seed hex (ID q) (Queue q)) d' (rev (insert_on_insert now q) ++ rev (insert_fields env q)).
Proof.
  set (d := insert_seed _ _ _).
  destruct (apply_set_changed (insert_fields env q) d d []) as (d1 & Hd1 & Hc1);
    [apply changed_refl|apply insert_fields_plain|]. rewrite app_nil_r in Hc1.
  destruct (apply_set_changed (insert_on_insert now q) d1 d _ Hc1) as (d2 & Hd2 & Hc2); [by vm_compute|].
  exists d2. split; [|done].
  cbn [m_update insert_model apply_update foldl fst snd mbind option_bind apply_operator String.eqb Ascii.eqb Bool.eqb].
  by rewrite Hd1.
Qed.
(** What a document has for a field after changes with the fields of [Insert]. *)
Lemma insert_fields_get env q k :
  doc_get k (rev (insert_fields env q)) =
  if String.eqb k "expiry_date" then Some (bson_time (ExpiryDate q))
  else if String.eqb k "description" then
    if String.eqb (Description q) "" then None else Some (BString (Description q))
  else if String.eqb k "metadata" then
    (fun m => BDoc (map (fun kv => (kv.1, BString kv.2)) (map_range (env_order env) m))) <$> Metadata q
  else if String.eqb k "payload" then
    (fun m => BDoc (map (fun kv => (kv.1, encode_any kv.2)) (map_range (env_order env) m))) <$> Payload q
  else if String.eqb k "string_payload" then
    if String.eqb (StringPayload q) "" then None else Some (BString (StringPayload q))
  else if String.eqb k "queue_prefix" then Some (BString (QueuePrefix q))
  else if String.eqb k "queue_suffix" then
    if String.eqb (QueueSuffix q) "" then None else Some (BString (QueueSuffix q))
  else None.
Proof.
  unfold insert_fields. rewrite !rev_app_distr, !doc_get_app.
  destruct (Metadata q), (Payload q), (String.eqb (Description q) ""), (String.eqb (StringPayload q) ""),
    (String.eqb (QueueSuffix q) ""); cbn [rev app doc_get fmap option_fmap option_map];
  repeat match goal with
  | |- context [String.eqb ?x ?y] => destruct (String.eqb_spec x y) as [->|]; try done
  end.
Qed.

(** Reduces the projections of a message that is given by its fields. *)
Ltac project_message :=
  cbn [ID Description Queue ExpiryDate Timeless Metadata Payload StringPayload LockMs InternalId Score
       LastUsage Breakpoint LastScoreSubtract TotalScoreSubtract UsageCount QueuePrefix QueueSuffix
       Diagnostics].

(** The two maps, after such changes. *)
Lemma inserted_metadata env q d d' :
  doc_get "metadata" d' = match doc_get "metadata" (rev (insert_fields env q)) with
                          | Some v => Some v | None => doc_get "metadata" d end ->
  get_metadata d' = match Metadata q with Some m => Some m | None => get_metadata d end.
Proof.
  rewrite insert_fields_get. simpl. destruct (Metadata q) as [m|]; [apply get_metadata_encoded|].
  unfold get_metadata. by intros ->.
Qed.

Lemma inserted_payload env q d d' :
  doc_get "payload" d' = match doc_get "payload" (rev (insert_fields env q)) with
                         | Some v => Some v | None => doc_get "payload" d end ->
  get_payload d' = match Payload q with Some m => Some m | None => get_payload d end.
Proof.
  rewrite insert_fields_get. simpl. destruct (Payload q) as [m|]; [apply get_payload_encoded|].
  unfold get_payload. by intros ->.
Qed.

Lemma read_updated env q d d' :
  changed d d' (rev (insert_fields env q)) -> read_message d' = mongo_updated q (read_message d).
Proof.
  intros Hc. pose proof (inserted_metadata env q d d' (Hc _)) as Hm.
  pose proof (inserted_payload env q d d' (Hc _)) as Hp.
  unfold changed in Hc. setoid_rewrite insert_fields_get in Hc.
  unfold read_message, mongo_updated. project_message. rewrite Hm, Hp. unfold get_diagnostics, get_string, get_int,
    get_double, get_bool. rewrite !Hc. cbn [String.eqb Ascii.eqb Bool.eqb].
  f_equal; by case_if.
Qed.

Lemma read_new env now hex q d' :
  changed (insert_seed hex (ID q) (Queue q)) d'
    (rev (insert_on_insert now q) ++ rev (insert_fields env q)) ->
  read_message d' = mongo_new hex now q.
Proof.
  intros Hc. set (d := insert_seed hex (ID q) (Queue q)) in Hc.
  assert (Hc' : forall k, k <> "last_usage" -> k <> "score" -> doc_get k d' =
    match doc_get k (rev (insert_fields env q)) with Some v => Some v | None => doc_get k d end).
  { intros k H1 H2. rewrite Hc, doc_get_app. cbn [insert_on_insert rev app doc_get].
    by rewrite !(proj2 (String.eqb_neq _ _)). }
  pose proof (inserted_metadata env q d d' (Hc' "metadata" ltac:(done) ltac:(done))) as Hm.
  pose proof (inserted_payload env q d d' (Hc' "payload" ltac:(done) ltac:(done))) as Hp.
  subst d. unfold read_message, mongo_new. project_message. rewrite Hm, Hp. unfold get_diagnostics, get_string, get_int,
    get_double, get_bool. rewrite !Hc, !doc_get_app, !insert_fields_get.
  cbn [String.eqb Ascii.eqb Bool.eqb insert_on_insert rev app doc_get insert_seed].
  f_equal; first [by destruct (Metadata q)|by destruct (Payload q)|idtac].
  all: case_if; bool_hyps; cbn; congruence.
Qed.
(** ** Acks and nacks *)

Definition subdoc (k : string) (d : Doc) : Doc :=
  match doc_get k d with Some (BDoc l) => l | _ => [] end.

(** The type checks that make an increment or a nested update run. *)
Definition int_field (k : string) (d : Doc) : Prop :=
  match doc_get k d with None | Some (BInt _) => True | _ => False end.
Definition doc_field (k : string) (d : Doc) : Prop :=
  match doc_get k d with None | Some (BDoc _) => True | _ => False end.

Lemma fold_bind_None {A B} (f : B -> A -> option A) (l : list B) :
  foldl (fun o x => o ≫= f x) None l = None.
Proof. by induction l. Qed.

Lemma apply_fields_app f fs gs d d' :
  apply_fields f (fs ++ gs) d = Some d' ->
  exists d1, apply_fields f fs d = Some d1 /\ apply_fields f gs d1 = Some d'.
Proof.
  unfold apply_fields. rewrite foldl_app. destruct (foldl _ (Some d) fs) as [d1|]; [by exists d1|].
  by rewrite fold_bind_None.
Qed.

Lemma apply_fields_one f k v d : apply_fields f [(k, v)] d = update_path (split_dots k) (f v) d.
Proof. unfold apply_fields. cbn. by destruct (update_path _ _ d). Qed.

Lemma update_nested k k2 f d d' :
  doc_field k d -> update_path [k; k2] f d = Some d' ->
  exists l, update_path [k2] f (subdoc k d) = Some l /\ d' = doc_set k (BDoc l) d.
Proof.
  unfold doc_field, subdoc. cbn [update_path]. destruct (doc_get k d) as [[]|]; try done;
    intros _ (l' & Hl & ->)%fmap_Some; by exists l'.
Qed.

Lemma inc_int k n d d' :
  int_field k d -> update_path [k] (inc_value (BInt n)) d = Some d' ->
  d' = doc_set k (BInt (get_int k d + n)) d.
Proof.
  unfold int_field, get_int. cbn [update_path]. destruct (doc_get k d) as [[]|]; try done; intros _; cbn.
  - destruct (_ && _); [|done]. by intros [= <-].
  - by intros [= <-].
Qed.

Lemma subdoc_set k l d : subdoc k (doc_set k (BDoc l) d) = l.
Proof. unfold subdoc. by rewrite doc_get_set, String.eqb_refl. Qed.

Lemma doc_field_set k l d : doc_field k (doc_set k (BDoc l) d).
Proof. unfold doc_field. by rewrite doc_get_set, String.eqb_refl. Qed.

Lemma int_field_changed k d d' changes :
  changed d d' changes -> doc_get k changes = None -> int_field k d -> int_field k d'.
Proof. unfold int_field. intros Hc Hk. by rewrite Hc, Hk. Qed.

Lemma get_int_changed k d d' changes :
  changed d d' changes -> doc_get k changes = None -> get_int k d' = get_int k d.
Proof. unfold get_int. intros Hc Hk. by rewrite Hc, Hk. Qed.

(** The counters of the diagnostics after the updates of an answer: one
    counter is reset and, after other fields, two are incremented. *)
Lemma diagnostics_update zero up1 up2 d d1 d1' d2 d3 :
  doc_field "diagnostics" d -> int_field up1 (subdoc "diagnostics" d) ->
  int_field up2 (subdoc "diagnostics" d) -> zero <> up1 -> zero <> up2 -> up1 <> up2 ->
  update_path ["diagnostics"; zero] (fun _ => Some (BInt 0)) d = Some d1 ->
  doc_get "diagnostics" d1' = doc_get "diagnostics" d1 ->
  update_path ["diagnostics"; up1] (inc_value (BInt 1)) d1' = Some d2 ->
  update_path ["diagnostics"; up2] (inc_value (BInt 1)) d2 = Some d3 ->
  exists l0 l, d1 = doc_set "diagnostics" (BDoc l0) d /\ changed d1' d3 [("diagnostics", BDoc l)] /\
    changed (subdoc "diagnostics" d) l
      [(up2, BInt (get_int up2 (subdoc "diagnostics" d) + 1));
       (up1, BInt (get_int up1 (subdoc "diagnostics" d) + 1)); (zero, BInt 0)].
Proof.
  set (l0 := subdoc _ d). intros Hd H1 H2 Hne1 Hne2 Hne3 Hu1 Hsame Hu2 Hu3.
  apply update_nested in Hu1 as (l1 & Hl1 & ->); [|done]. injection Hl1 as <-. fold l0 in Hsame |- *.
  pose proof (changed_set l0 l0 [] zero (BInt 0) (changed_refl l0)) as Hc1.
  rewrite doc_get_set, String.eqb_refl in Hsame.
  apply update_nested in Hu2 as (l2 & Hl2 & ->); [|unfold doc_field; by rewrite Hsame].
  replace (subdoc "diagnostics" d1') with (doc_set zero (BInt 0) l0) in Hl2 by (unfold subdoc; by rewrite Hsame).
  pose proof Hne1 as Hz1%not_eq_sym. pose proof Hne2 as Hz2%not_eq_sym.
  apply inc_int in Hl2 as ->; [|eapply int_field_changed; [exact Hc1| |done]; simpl;
    by rewrite (proj2 (String.eqb_neq _ _))].
  rewrite (get_int_changed up1 _ _ _ Hc1) in Hu3 by (simpl; by rewrite (proj2 (String.eqb_neq _ _))).
  pose proof (changed_set l0 _ _ up1 (BInt (get_int up1 l0 + 1)) Hc1) as Hc2.
  apply update_nested in Hu3 as (l3 & Hl3 & ->); [|apply doc_field_set]. rewrite subdoc_set in Hl3.
  assert (Hn : doc_get up2 [(up1, BInt (get_int up1 l0 + 1)); (zero, BInt 0)] = None).
  { simpl. by rewrite !(proj2 (String.eqb_neq _ _)) by (try done; by apply not_eq_sym). }
  apply inc_int in Hl3 as ->; [|by eapply int_field_changed; [exact Hc2| |]].
  rewrite (get_int_changed up2 _ _ _ Hc2 Hn).
  do 2 eexists. split; [reflexivity|]. split; [|apply (changed_set l0 _ _ up2 _ Hc2)].
  intros k. rewrite !doc_get_set. simpl. by destruct (String.eqb k "diagnostics").
Qed.

(** The value [$inc] leaves in a floating point field. *)
Definition added (f amount total : float64) : Prop :=
  total = f64_add f amount \/ f = f64_zero /\ total = amount.

Lemma inc_double k a d d' :
  match doc_get k d with None | Some (BDouble _) => True | _ => False end ->
  update_path [k] (inc_value (BDouble a)) d = Some d' ->
  exists total, d' = doc_set k (BDouble total) d /\ added (get_double k d) a total.
Proof.
  unfold get_double, added. cbn [update_path]. destruct (doc_get k d) as [[]|]; try done; intros _; cbn;
    intros [= <-]; eexists; auto.
Qed.

Lemma typed_int k d : message_doc d = true -> (k, is_int) ∈ message_types -> int_field k d.
Proof.
  unfold int_field. intros Hd Hin. destruct (doc_get k d) as [v|] eqn:E; [|done].
  pose proof (typed_elem _ _ _ _ _ Hd E Hin). by destruct v.
Qed.

Lemma typed_diagnostics d : message_doc d = true ->
  doc_field "diagnostics" d /\ typed diagnostics_types (subdoc "diagnostics" d) = true.
Proof.
  unfold doc_field, subdoc. intros Hd. destruct (doc_get "diagnostics" d) as [v|] eqn:E; [|done].
  assert (Hin : ("diagnostics", is_diagnostics) ∈ message_types) by (unfold message_types; set_solver).
  pose proof (typed_elem _ _ _ _ _ Hd E Hin) as Ht. by destruct v.
Qed.

Lemma diagnostics_int k d :
  message_doc d = true -> k ∈ diagnostics_types.*1 -> int_field k (subdoc "diagnostics" d).
Proof.
  intros [_ Hd]%typed_diagnostics Hk. unfold int_field.
  destruct (doc_get k (subdoc "diagnostics" d)) as [v|] eqn:E; [|done].
  assert (Ht : is_int v = true); [|by destruct v].
  eapply typed_elem; [exact Hd|exact E|]. revert Hk. unfold diagnostics_types. cbn. rewrite !elem_of_cons.
  intros [->|[->|[->|[->|[]%elem_of_nil]]]]; tauto.
Qed.

Definition acked_diagnostics (d : option MessageDiagnostics) : MessageDiagnostics := {|
  Acks := Some (default 0 (d ≫= Acks) + 1); Nacks := d ≫= Nacks;
  ConsecutiveAcks := Some (default 0 (d ≫= ConsecutiveAcks) + 1); ConsecutiveNacks := Some 0
|}.

Definition nacked_diagnostics (d : option MessageDiagnostics) : MessageDiagnostics := {|
  Acks := d ≫= Acks; Nacks := Some (default 0 (d ≫= Nacks) + 1);
  ConsecutiveAcks := Some 0; ConsecutiveNacks := Some (default 0 (d ≫= ConsecutiveNacks) + 1)
|}.

(** The message an ack [m] leaves of [v]; [total] is its new total score. *)
Definition mongo_acked (total : float64) (m v : Message) : Message := {|
  ID := ID v; Description := Description v; Queue := Queue v; ExpiryDate := ExpiryDate v;
  Timeless := Timeless v; Metadata := Metadata v; Payload := Payload v;
  StringPayload := StringPayload v; LockMs := LockMs m; InternalId := InternalId v;
  Score := Score m; LastUsage := date_precision <$> LastUsage m; Breakpoint := Breakpoint m;
  LastScoreSubtract := LastScoreSubtract m; TotalScoreSubtract := total;
  UsageCount := UsageCount v + 1; QueuePrefix := QueuePrefix v; QueueSuffix := QueueSuffix v;
  Diagnostics := Some (acked_diagnostics (Diagnostics v))
|}.

Definition mongo_nacked (m v : Message) : Message := {|
  ID := ID v; Description := Description v; Queue := Queue v; ExpiryDate := ExpiryDate v;
  Timeless := Timeless v; Metadata := Metadata v; Payload := Payload v;
  StringPayload := StringPayload v; LockMs := LockMs m; InternalId := InternalId v;
  Score := Score m; LastUsage := LastUsage v; Breakpoint := Breakpoint v;
  LastScoreSubtract := LastScoreSubtract v; TotalScoreSubtract := TotalScoreSubtract v;
  UsageCount := UsageCount v; QueuePrefix := QueuePrefix v; QueueSuffix := QueueSuffix v;
  Diagnostics := Some (nacked_diagnostics (Diagnostics v))
|}.

(** The diagnostics read are those of the nested document. *)
Lemma get_diagnostics_subdoc d :
  message_doc d = true ->
  get_int_pointer "acks" (subdoc "diagnostics" d) = (get_diagnostics d ≫= Acks) /\
  get_int_pointer "nacks" (subdoc "diagnostics" d) = (get_diagnostics d ≫= Nacks) /\
  get_int_pointer "consecutive_acks" (subdoc "diagnostics" d) = (get_diagnostics d ≫= ConsecutiveAcks) /\
  get_int_pointer "consecutive_nacks" (subdoc "diagnostics" d) = (get_diagnostics d ≫= ConsecutiveNacks).
Proof.
  intros [Hd _]%typed_diagnostics. unfold doc_field, subdoc, get_diagnostics in *.
  by destruct (doc_get "diagnostics" d) as [[]|].
Qed.

Lemma get_int_pointer_default k d : get_int k d = default 0 (get_int_pointer k d).
Proof. unfold get_int, get_int_pointer. by destruct (doc_get k d) as [[]|]. Qed.

(** Separates the operators and the fields of an update that ran. *)
Lemma apply_update_two inserting op1 arg1 op2 arg2 d d' :
  apply_update inserting [(op1, arg1); (op2, arg2)] d = Some d' ->
  exists d1, apply_operator inserting op1 arg1 d = Some d1 /\
    apply_operator inserting op2 arg2 d1 = Some d'.
Proof.
  unfold apply_update. cbn. destruct (apply_operator _ op1 arg1 d) as [d1|]; [by exists d1|done].
Qed.

Definition ack_set_fields (m : Message) : Doc :=
  [("last_usage", match LastUsage m with Some t => bson_time t | None => BNull end);
   ("last_score_subtract", BDouble (LastScoreSubtract m));
   ("breakpoint", BString (Breakpoint m));
   ("score", BDouble (Score m));
   ("lock_ms", BInt (LockMs m))].

Definition ack_changes (m : Message) (l : Doc) (total : float64) (usage : Z) : Doc :=
  [("diagnostics", BDoc l); ("total_score_subtract", BDouble total); ("usage_count", BInt usage)] ++
  rev (ack_set_fields m).

Lemma ack_changed m d d' :
  message_doc d = true -> apply_update false (ack_update m) d = Some d' ->
  exists l total, changed d d' (ack_changes m l total (get_int "usage_count" d + 1)) /\
    added (get_double "total_score_subtract" d) (LastScoreSubtract m) total /\
    let l0 := subdoc "diagnostics" d in
    changed l0 l [("consecutive_acks", BInt (get_int "consecutive_acks" l0 + 1));
                  ("acks", BInt (get_int "acks" l0 + 1)); ("consecutive_nacks", BInt 0)].
Proof.
  intros Hd Hu. apply apply_update_two in Hu as (d6 & Hset & Hinc).
  apply (apply_fields_app _ (ack_set_fields m) [_]) in Hset as (d5 & Hd5 & Hset).
  destruct (apply_set_changed (ack_set_fields m) d d [] (changed_refl d)) as (d5' & E & Hc5); [by vm_compute|].
  rewrite Hd5 in E. injection E as <-. rewrite app_nil_r in Hc5. rewrite apply_fields_one in Hset.
  apply (apply_fields_app _ [_] [_; _; _]) in Hinc as (d7 & Hd7 & Hinc). rewrite apply_fields_one in Hd7.
  apply (apply_fields_app _ [_] [_; _]) in Hinc as (d8 & Hd8 & Hinc). rewrite apply_fields_one in Hd8.
  apply (apply_fields_app _ [_] [_]) in Hinc as (d9 & Hd9 & Hd'). rewrite apply_fields_one in Hd9, Hd'.
  pose proof (Hc5 "diagnostics") as Hdiag. cbn [doc_get rev app ack_set_fields String.eqb Ascii.eqb Bool.eqb] in Hdiag.
  assert (Hf5 : doc_field "diagnostics" d5 /\ subdoc "diagnostics" d5 = subdoc "diagnostics" d).
  { unfold doc_field, subdoc. rewrite Hdiag. split; [by apply typed_diagnostics|done]. }
  destruct Hf5 as [Hf5 Hs5].
  assert (Hl6 : exists l1, d6 = doc_set "diagnostics" (BDoc l1) d5).
  { apply (update_nested "diagnostics") in Hset as (l1 & _ & ->); [by exists l1|done]. }
  destruct Hl6 as [l1 E6].
  assert (Hc6 : changed d d6 (("diagnostics", BDoc l1) :: rev (ack_set_fields m))) by (subst d6; by apply changed_set).
  apply inc_int in Hd7 as E7; [|eapply int_field_changed; [exact Hc6|reflexivity|apply typed_int; [done|set_solver]]].
  rewrite (get_int_changed "usage_count" _ _ _ Hc6 eq_refl) in E7.
  apply inc_double in Hd8 as (total & E8 & Htot); cycle 1.
  { rewrite E7, doc_get_set. cbn [String.eqb Ascii.eqb Bool.eqb]. rewrite Hc6. cbn [doc_get rev app ack_set_fields String.eqb Ascii.eqb Bool.eqb].
    destruct (doc_get "total_score_subtract" d) as [v|] eqn:E; [|done].
    assert (Ht : is_double v = true) by (eapply typed_elem; [exact Hd|exact E|unfold message_types; set_solver]).
    by destruct v. }
  destruct (diagnostics_update "consecutive_nacks" "acks" "consecutive_acks" d5 d6 d8 d9 d') as (l0 & l & _ & Hc' & Hl);
    try done; rewrite ?Hs5; try (apply diagnostics_int; [done|cbn; set_solver]).
  { by rewrite E8, E7, !doc_get_set. }
  exists l, total. rewrite Hs5 in Hl. split; [|split; [|exact Hl]].
  - intros k. rewrite Hc', E8. simpl. rewrite !doc_get_set, E7, doc_get_set, Hc6. simpl.
    by repeat case_match.
  - revert Htot. unfold get_double. rewrite E7, doc_get_set. cbn [String.eqb Ascii.eqb Bool.eqb]. rewrite Hc6. done.
Qed.

Definition nack_set_fields (m : Message) : Doc :=
  [("score", BDouble (Score m)); ("lock_ms", BInt (LockMs m))].

Lemma nack_changed m d d' :
  message_doc d = true -> apply_update false (nack_update m) d = Some d' ->
  exists l, changed d d' (("diagnostics", BDoc l) :: rev (nack_set_fields m)) /\
    let l0 := subdoc "diagnostics" d in
    changed l0 l [("consecutive_nacks", BInt (get_int "consecutive_nacks" l0 + 1));
                  ("nacks", BInt (get_int "nacks" l0 + 1)); ("consecutive_acks", BInt 0)].
Proof.
  intros Hd Hu. apply apply_update_two in Hu as (d6 & Hset & Hinc).
  apply (apply_fields_app _ (nack_set_fields m) [_]) in Hset as (d5 & Hd5 & Hset).
  destruct (apply_set_changed (nack_set_fields m) d d [] (changed_refl d)) as (d5' & E & Hc5); [by vm_compute|].
  rewrite Hd5 in E. injection E as <-. rewrite app_nil_r in Hc5. rewrite apply_fields_one in Hset.
  apply (apply_fields_app _ [_] [_]) in Hinc as (d9 & Hd9 & Hd'). rewrite apply_fields_one in Hd9, Hd'.
  pose proof (Hc5 "diagnostics") as Hdiag. cbn [doc_get rev app nack_set_fields String.eqb Ascii.eqb Bool.eqb] in Hdiag.
  assert (Hs5 : subdoc "diagnostics" d5 = subdoc "diagnostics" d) by (unfold subdoc; by rewrite Hdiag).
  destruct (diagnostics_update "consecutive_acks" "nacks" "consecutive_nacks" d5 d6 d6 d9 d') as (l0 & l & E6 & Hc' & Hl);
    try done; rewrite ?Hs5; try (apply diagnostics_int; [done|cbn; set_solver]).
  { unfold doc_field. rewrite Hdiag. by apply typed_diagnostics. }
  exists l. rewrite Hs5 in Hl. split; [|exact Hl].
  intros k. rewrite Hc', E6. simpl. rewrite doc_get_set, Hc5. simpl. by repeat case_match.
Qed.

(** The diagnostics read after such changes. *)
Lemma read_diagnostics d' l :
  doc_get "diagnostics" d' = Some (BDoc l) ->
  get_diagnostics d' = Some {|
    Acks := get_int_pointer "acks" l; Nacks := get_int_pointer "nacks" l;
    ConsecutiveAcks := get_int_pointer "consecutive_acks" l;
    ConsecutiveNacks := get_int_pointer "consecutive_nacks" l |}.
Proof. unfold get_diagnostics. by intros ->. Qed.

Lemma get_int_pointer_changed k d d' changes :
  changed d d' changes -> get_int_pointer k d' =
    match doc_get k changes with
    | Some (BInt z) => Some z | Some _ => None | None => get_int_pointer k d
    end.
Proof. unfold get_int_pointer. intros ->. by destruct (doc_get k changes) as [[]|]. Qed.

Lemma read_acked m d d' :
  message_doc d = true -> apply_update false (ack_update m) d = Some d' ->
  exists total, read_message d' = mongo_acked total m (read_message d) /\
    added (TotalScoreSubtract (read_message d)) (LastScoreSubtract m) total.
Proof.
  intros Hd Hu. destruct (ack_changed m d d' Hd Hu) as (l & total & Hc & Ht & Hl).
  exists total. split; [|exact Ht].
  destruct (get_diagnostics_subdoc d Hd) as (E1 & E2 & E3 & E4).
  assert (Hdi : get_diagnostics d' = Some (acked_diagnostics (get_diagnostics d))).
  { rewrite (read_diagnostics d' l) by (by rewrite Hc). rewrite !(get_int_pointer_changed _ _ _ _ Hl).
    unfold acked_diagnostics. rewrite <- E1, <- E2, <- E3, <- !get_int_pointer_default. done. }
  unfold read_message, mongo_acked. project_message. rewrite Hdi. unfold get_metadata, get_payload, get_string, get_int,
    get_double, get_bool. remember (ack_changes _ _ _ _) as changes eqn:Ech. rewrite !Hc, Ech.
  unfold ack_changes, ack_set_fields.
  cbn [doc_get rev app String.eqb Ascii.eqb Bool.eqb]. f_equal. cbn. by destruct (LastUsage m).
Qed.

Lemma read_nacked m d d' :
  message_doc d = true -> apply_update false (nack_update m) d = Some d' ->
  read_message d' = mongo_nacked m (read_message d).
Proof.
  intros Hd Hu. destruct (nack_changed m d d' Hd Hu) as (l & Hc & Hl).
  destruct (get_diagnostics_subdoc d Hd) as (E1 & E2 & E3 & E4).
  assert (Hdi : get_diagnostics d' = Some (nacked_diagnostics (get_diagnostics d))).
  { rewrite (read_diagnostics d' l) by (by rewrite Hc). rewrite !(get_int_pointer_changed _ _ _ _ Hl).
    unfold nacked_diagnostics. rewrite <- E1, <- E2, <- E4, <- !get_int_pointer_default. done. }
  unfold read_message, mongo_nacked. project_message. rewrite Hdi. unfold get_metadata, get_payload, get_string, get_int,
    get_double, get_bool. remember (_ :: rev _) as changes eqn:Ech. rewrite !Hc, Ech.
  unfold nack_set_fields.
  cbn [doc_get rev app String.eqb Ascii.eqb Bool.eqb]. done.
Qed.

Lemma ack_typed m d d' :
  message_doc d = true -> apply_update false (ack_update m) d = Some d' -> message_doc d' = true.
Proof.
  intros Hd Hu. destruct (ack_changed m d d' Hd Hu) as (l & total & Hc & _ & Hl).
  eapply typed_changed; [exact Hc|exact Hd|].
  assert (Ht : typed diagnostics_types l = true)
    by (eapply typed_changed; [exact Hl|by apply typed_diagnostics|by vm_compute]).
  unfold ack_changes, ack_set_fields, well_typed, message_types.
  cbn [rev app forallb fst snd String.eqb Ascii.eqb Bool.eqb negb orb andb is_diagnostics].
  rewrite Ht. by destruct (LastUsage m).
Qed.

Lemma nack_typed m d d' :
  message_doc d = true -> apply_update false (nack_update m) d = Some d' -> message_doc d' = true.
Proof.
  intros Hd Hu. destruct (nack_changed m d d' Hd Hu) as (l & Hc & Hl).
  eapply typed_changed; [exact Hc|exact Hd|].
  assert (Ht : typed diagnostics_types l = true)
    by (eapply typed_changed; [exact Hl|by apply typed_diagnostics|by vm_compute]).
  unfold nack_set_fields, well_typed, message_types.
  cbn [rev app forallb fst snd String.eqb Ascii.eqb Bool.eqb negb orb andb is_diagnostics].
  by rewrite Ht.
Qed.

(** ** Projections *)

(** The message with the zero value in the fields a projection leaves out. *)
Definition mongo_view (p : option (list (string * Z))) (m : Message) : Message :=
  let has := keeps (default [] p) in {|
  ID := if has "id" then ID m else "";
  Description := if has "description" then Description m else "";
  Queue := if has "queue" then Queue m else "";
  ExpiryDate := if has "expiry_date" then ExpiryDate m else time_zero;
  Timeless := if has "timeless" then Timeless m else false;
  Metadata := if has "metadata" then Metadata m else None;
  Payload := if has "payload" then Payload m else None;
  StringPayload := if has "string_payload" then StringPayload m else "";
  LockMs := if has "lock_ms" then LockMs m else 0;
  InternalId := if has "_id" then InternalId m else IdNil;
  Score := if has "score" then Score m else f64_zero;
  LastUsage := if has "last_usage" then LastUsage m else None;
  Breakpoint := if has "breakpoint" then Breakpoint m else "";
  LastScoreSubtract := if has "last_score_subtract" then LastScoreSubtract m else f64_zero;
  TotalScoreSubtract := if has "total_score_subtract" then TotalScoreSubtract m else f64_zero;
  UsageCount := if has "usage_count" then UsageCount m else 0;
  QueuePrefix := if has "queue_prefix" then QueuePrefix m else "";
  QueueSuffix := if has "queue_suffix" then QueueSuffix m else "";
  Diagnostics := if has "diagnostics" then Diagnostics m else None
|}.

Lemma read_project p d : read_message (project (default [] p) d) = mongo_view p (read_message d).
Proof.
  unfold read_message, mongo_view. project_message. unfold get_metadata, get_payload, get_diagnostics, get_string, get_int,
    get_double, get_bool. rewrite !doc_get_project. cbv zeta. f_equal; by case_if.
Qed.

Lemma mongo_view_none m : mongo_view None m = m.
Proof. by destruct m. Qed.

(** The fields a projection asks for are kept. *)
Lemma asks_keeps k p : projection_ok p = true -> asks k p -> k <> "_id" -> keeps (default [] p) k = true.
Proof.
  destruct p as [p|]; simpl; [|intros _ _ _; unfold keeps; simpl; by rewrite orb_true_r].
  intros Hp Hk Hid. unfold keeps. destruct (List.find _ p) as [[k' z]|] eqn:E.
  - apply List.find_some in E as [Hin Hkk]. simpl in Hkk. apply String.eqb_eq in Hkk as <-.
    unfold projection_ok in Hp. simpl in Hp. rewrite forallb_forall in Hp. specialize (Hp _ Hin). simpl in Hp.
    rewrite (proj2 (String.eqb_neq _ _) Hid) in Hp. rewrite andb_false_r, orb_false_r in Hp.
    apply andb_true_iff in Hp as [_ Hz%Z.eqb_eq]. by rewrite Hz.
  - apply list_elem_of_In in Hk. eapply List.find_none in E; [|exact Hk]. simpl in E. by rewrite String.eqb_refl in E.
Qed.
End Messages.
