(* ===== verification/MongoFacts.v ===== *)
(** * The MongoDB storage keeps the contract

    The meaning of the filters, the effect of the updates on a collection,
    the loop of the removals, and the instance of [StorageSpec], for every
    server and driver that keep their laws. *)

From S2P Require Import Prelude GoStrings Float64 Dtime Message Storage Mongo MongoStorage MongoDocs.
#[local] Open Scope string_scope.
#[local] Open Scope list_scope.
#[local] Open Scope Z_scope.

(** ** Documents of a collection

    A collection whose documents have distinct keys. *)

Section Keyed.
Context {C : Type} {HO : MongoOps C} {K : Type} `{EqDecision K} (key : Doc -> K) (ok : Doc -> Prop).

Definition coll_ok (docs : list Doc) : Prop := Forall ok docs /\ NoDup (key <$> docs).

Definition find_key (docs : list Doc) (k : K) : option Doc :=
  List.find (fun d => bool_decide (key d = k)) docs.

Lemma find_key_Some docs k d :
  coll_ok docs -> find_key docs k = Some d <-> d ∈ docs /\ key d = k.
Proof.
  intros [_ Hnd]. unfold find_key. split.
  - intros [Hin Hk]%List.find_some. apply bool_decide_eq_true in Hk. by rewrite <- list_elem_of_In in Hin.
  - intros [Hin Hk]. destruct (List.find _ docs) as [d'|] eqn:E; cycle 1.
    { apply list_elem_of_In in Hin. eapply List.find_none in E; [|exact Hin]. simpl in E.
      by rewrite bool_decide_eq_false in E. }
    apply List.find_some in E as [Hin' Hk']. apply bool_decide_eq_true in Hk'. apply list_elem_of_In in Hin'.
    f_equal. apply list_elem_of_lookup in Hin as [j Hj], Hin' as [j' Hj'].
    assert (j' = j) as ->; [|congruence].
    eapply NoDup_lookup; [exact Hnd| |]; rewrite list_lookup_fmap; [by rewrite Hj'|rewrite Hj; simpl; congruence].
Qed.

Lemma coll_ok_perm docs docs' : docs ≡ₚ docs' -> coll_ok docs -> coll_ok docs'.
Proof. intros Hp [? ?]. split; by rewrite <- Hp. Qed.

Lemma find_key_perm docs docs' k : docs ≡ₚ docs' -> coll_ok docs -> find_key docs' k = find_key docs k.
Proof.
  intros Hp Hd. pose proof (coll_ok_perm _ _ Hp Hd) as Hd'. apply option_eq. intros d.
  rewrite !find_key_Some by done. by rewrite Hp.
Qed.

Lemma find_key_cons d docs k :
  find_key (d :: docs) k = if decide (key d = k) then Some d else find_key docs k.
Proof. unfold find_key. simpl. by case_bool_decide; case_decide. Qed.

Lemma find_key_None docs k : find_key docs k = None <-> k ∉ key <$> docs.
Proof.
  induction docs as [|d docs IH]; [split; [intros _; apply not_elem_of_nil|done]|].
  rewrite find_key_cons, fmap_cons, not_elem_of_cons, <- IH. clear IH. case_decide as Hk.
  - split; [done|]. intros [Hne _]. by destruct Hne.
  - split; [split; [congruence|done]|by intros [_ ?]].
Qed.

(** The updates that keep the document of a key one. *)
Record keyed_update (m : UpdateOneModel) (k : K) : Prop := {
  ku_filter : forall d, ok d -> matches (m_filter m) d = true <-> key d = k;
  ku_match : forall d d', ok d -> key d = k ->
    apply_update false (m_update m) d = Some d' -> ok d' /\ key d' = k;
  ku_new : m_upsert m = true -> forall hex d', oid_ok (C := C) hex ->
    apply_update true (m_update m) (upsert_seed hex (m_filter m)) = Some d' -> ok d' /\ key d' = k
}.

(** What one update does to the documents: the one of its key changes. *)
Definition doc_updated (m : UpdateOneModel) (k : K) (docs docs' : list Doc) : Prop :=
  coll_ok docs' /\
  (forall k', k' <> k -> find_key docs' k' = find_key docs k') /\
  match find_key docs k with
  | Some d => exists d', find_key docs' k = Some d' /\ apply_update false (m_update m) d = Some d'
  | None =>
      if m_upsert m then exists hex d', find_key docs' k = Some d' /\ oid_ok (C := C) hex /\
        apply_update true (m_update m) (upsert_seed hex (m_filter m)) = Some d'
      else find_key docs' k = None
  end.

Lemma no_match_key m k docs :
  coll_ok docs -> keyed_update m k -> Forall (fun d => matches (m_filter m) d = false) docs ->
  find_key docs k = None.
Proof.
  intros [Hok _] Hm Hf. apply find_key_None. intros (d & -> & Hd)%list_elem_of_fmap.
  rewrite Forall_forall in Hok, Hf. specialize (Hf _ Hd). apply not_true_iff_false in Hf. apply Hf.
  apply (ku_filter _ _ Hm); [by apply Hok|done].
Qed.

Lemma update_step_key m k docs docs' n u :
  coll_ok docs -> keyed_update m k -> update_step (oid_ok (C := C)) m docs docs' n u ->
  doc_updated m k docs docs' /\ 0 <= n /\ 0 <= u /\ n + u <= 1.
Proof.
  intros Hok Hkey Hstep. pose proof Hkey as [Hf Hm Hnew].
  destruct Hstep as [d d' rest n Hp Hmt Hu Hp' Hn|hex d' Hup Hno Hhex Hu Hp'|Hup Hno Hp'].
  - split; [|lia]. pose proof (coll_ok_perm _ _ Hp Hok) as Hok1. pose proof Hok1 as [[Hd Hrest]%Forall_cons Hnd].
    rewrite Hf in Hmt by done. destruct (Hm d d' Hd Hmt Hu) as [Hd' Hk'].
    assert (Hok' : coll_ok (d' :: rest)).
    { split; [by constructor|]. rewrite fmap_cons in *. by rewrite Hk', <- Hmt. }
    split; [by eapply coll_ok_perm|].
    assert (Hfind : forall k, find_key docs' k = find_key (d' :: rest) k) by (intros; by apply find_key_perm).
    assert (Hfind0 : forall k, find_key docs k = find_key (d :: rest) k).
    { intros k0. symmetry. by apply find_key_perm. }
    split.
    + intros k0 Hk. by rewrite Hfind, Hfind0, !find_key_cons, !decide_False by congruence.
    + rewrite Hfind0, find_key_cons, decide_True by done. exists d'.
      by rewrite Hfind, find_key_cons, decide_True.
  - split; [|lia]. pose proof (no_match_key m k docs Hok Hkey Hno) as Hnone.
    destruct (Hnew Hup hex d' Hhex Hu) as [Hd' Hk']. destruct Hok as [Hall Hnd].
    assert (Hok' : coll_ok (d' :: docs)).
    { split; [by constructor|]. rewrite fmap_cons, Hk'. constructor; [by apply find_key_None|done]. }
    assert (Hfind : forall k, find_key docs' k = find_key (d' :: docs) k) by (intros; by apply find_key_perm).
    split; [by eapply coll_ok_perm|]. split.
    + intros k0 Hk. by rewrite Hfind, find_key_cons, decide_False by congruence.
    + rewrite Hnone, Hup. exists hex, d'. by rewrite Hfind, find_key_cons, decide_True.
  - split; [|lia]. pose proof (no_match_key m k docs Hok Hkey Hno) as Hnone.
    split; [by eapply coll_ok_perm|]. split; [intros k0 _; by apply find_key_perm|].
    rewrite Hnone, Hup. by rewrite (find_key_perm docs).
Qed.

Lemma elem_of_coll docs d : coll_ok docs -> d ∈ docs -> ok d /\ find_key docs (key d) = Some d.
Proof.
  intros Hok Hd. split; [|by apply find_key_Some]. destruct Hok as [Hall _].
  rewrite Forall_forall in Hall. by apply Hall.
Qed.

End Keyed.

Section Facts.
Context {C : Type} {HO : MongoOps C} {HA : AnyCodec}.

(** ** Documents of the messages collection *)

Definition doc_key (d : Doc) : string * string := (get_string "queue" d, get_string "id" d).

(** A document of a message: its fields have their types, and it has a queue
    and an id that are not empty, a score, an expiry date and an object id. *)
Record message_ok (d : Doc) : Prop := {
  ok_typed : message_doc d = true;
  ok_queue : get_string "queue" d <> "";
  ok_id : get_string "id" d <> "";
  ok_score : doc_get "score" d = Some (BDouble (get_double "score" d));
  ok_expiry : exists ms, doc_get "expiry_date" d = Some (BDate ms);
  ok_prefix : doc_get "queue_prefix" d = Some (BString (get_string "queue_prefix" d));
  ok_oid : exists hex, doc_get "_id" d = Some (BObjectID hex) /\ oid_ok hex
}.

Abbreviation docs_ok := (coll_ok doc_key message_ok).
Abbreviation find_doc := (find_key doc_key).

Lemma doc_key_read d : doc_key d = msg_key (read_message d).
Proof. done. Qed.

Lemma ok_id_value d : message_ok d -> doc_get "id" d = Some (BString (get_string "id" d)).
Proof. intros Hd. by apply get_string_some, ok_id. Qed.

Lemma ok_queue_value d : message_ok d -> doc_get "queue" d = Some (BString (get_string "queue" d)).
Proof. intros Hd. by apply get_string_some, ok_queue. Qed.

(** ** Filters *)

Lemma eqb_string_value k s d :
  doc_get k d = Some (BString (get_string k d)) ->
  match_condition (BString s) (doc_get k d) = String.eqb s (get_string k d).
Proof. intros ->. done. Qed.

Lemma matches_key i q d :
  message_ok d -> matches (key_filter i q) d = true <-> doc_key d = (q, i).
Proof.
  intros Hd. unfold matches, key_filter. cbn [forallb fst snd].
  rewrite (eqb_string_value "id"), (eqb_string_value "queue") by auto using ok_id_value, ok_queue_value.
  rewrite andb_true_r, andb_true_iff, !String.eqb_eq. unfold doc_key. naive_solver.
Qed.

Lemma in_strings_value k l d :
  doc_get k d = Some (BString (get_string k d)) ->
  match_condition (BDoc [("$in", BArray (map BString l))]) (doc_get k d) = true <-> get_string k d ∈ l.
Proof.
  intros ->. cbn. rewrite andb_true_r, existsb_exists. split.
  - intros (y & Hy & He). apply list_elem_of_In, list_elem_of_fmap in Hy as (s & -> & Hs).
    cbn in He. by apply String.eqb_eq in He as ->.
  - intros Hs. exists (BString (get_string k d)). split; [|by cbn; rewrite String.eqb_refl].
    apply list_elem_of_In. by apply list_elem_of_fmap_2.
Qed.

(** A message is after a breakpoint, or not after it. *)
Definition after_breakpoint (text : string) (m : Message) : Prop :=
  text = "" \/ exists o h, ObjectIDFromHex (C := C) text = inl o /\ InternalId m = IdObjectID h /\
    str_ltb o h = true.
Definition upto_breakpoint (text : string) (m : Message) : Prop :=
  text = "" \/ exists o h, ObjectIDFromHex (C := C) text = inl o /\ InternalId m = IdObjectID h /\
    str_ltb o h = false.

Definition breakpoints_hold (f : option InternalFilter) (m : Message) : Prop :=
  match f with
  | None => True
  | Some f => after_breakpoint (InternalIdBreakpointGt f) m /\ upto_breakpoint (InternalIdBreakpointLte f) m
  end.

Lemma matches_app f g d : matches (f ++ g) d = matches f d && matches g d.
Proof. unfold matches. apply forallb_app. Qed.

Lemma matches_ids ids d :
  message_ok d -> matches (ids_condition ids) d = true <->
  match ids with None | Some [] => True | Some ids => ID (read_message d) ∈ ids end.
Proof.
  intros Hd. pose proof (ok_id_value d Hd) as Hid. change (ID (read_message d)) with (get_string "id" d).
  destruct ids as [[|i [|j ids]]|]; [done| | |done]; unfold matches; cbn [ids_condition forallb fst snd].
  - rewrite eqb_string_value, andb_true_r, String.eqb_eq, list_elem_of_singleton by done. naive_solver.
  - by rewrite andb_true_r, in_strings_value.
Qed.

Lemma matches_string k s d :
  doc_get k d = Some (BString (get_string k d)) ->
  matches (if String.eqb s "" then [] else [(k, BString s)]) d = true <-> s = "" \/ get_string k d = s.
Proof.
  intros Hk. destruct (String.eqb_spec s "") as [->|Hs]; [by split; [left|]|].
  unfold matches. cbn [forallb fst snd]. rewrite eqb_string_value, andb_true_r, String.eqb_eq by done.
  naive_solver.
Qed.

(** The condition on the internal id. *)
Lemma matches_oid gt lte g l d :
  message_ok d -> id_condition "$gt" gt = inl g -> id_condition "$lte" lte = inl l ->
  matches (match g ++ l with [] => [] | _ => [("_id", BDoc (g ++ l))] end) d = true <->
  after_breakpoint gt (read_message d) /\ upto_breakpoint lte (read_message d).
Proof.
  intros Hd Hg Hl. destruct (ok_oid d Hd) as (hex & Hhex & _).
  assert (Hid : InternalId (read_message d) = IdObjectID hex) by (cbn; by rewrite Hhex).
  transitivity (forallb (fun o => match_operator o.1 o.2 (doc_get "_id" d)) (g ++ l) = true).
  { destruct (g ++ l); [done|]. unfold matches. cbn [forallb fst snd match_condition]. by rewrite andb_true_r. }
  rewrite forallb_app, andb_true_iff, Hhex. unfold after_breakpoint, upto_breakpoint. rewrite Hid.
  apply Morphisms_Prop.and_iff_morphism.
  - unfold id_condition in Hg. destruct (String.eqb_spec gt "") as [->|Hne]; [injection Hg as <-; cbn; tauto|].
    destruct (ObjectIDFromHex gt) as [o|]; [|done]. injection Hg as <-. cbn. rewrite andb_true_r.
    split; [right; by exists o, hex|]. intros [?|(o' & h & [= <-] & [= <-] & ?)]; done.
  - unfold id_condition in Hl. destruct (String.eqb_spec lte "") as [->|Hne]; [injection Hl as <-; cbn; tauto|].
    destruct (ObjectIDFromHex lte) as [o|]; [|done]. injection Hl as <-. cbn. rewrite andb_true_r, negb_true_iff.
    split; [right; by exists o, hex|]. intros [?|(o' & h & [= <-] & [= <-] & ?)]; done.
Qed.

Lemma matches_expiry date d :
  message_ok d ->
  matches (match date with
           | Some date => [("expiry_date", BDoc [("$lte", bson_time date)])]
           | None => []
           end) d = true <->
  match date with Some date => ExpiryDate (read_message d) <= date | None => True end.
Proof.
  intros Hd. destruct date as [date|]; [|done]. destruct (ok_expiry d Hd) as [ms Hms].
  unfold matches. cbn [forallb fst snd match_condition]. cbn [read_message ExpiryDate]. rewrite Hms. cbn.
  rewrite !andb_true_r, Z.leb_le. unfold time_of_date, Millisecond.
  split; [intros H|intros H]; [pose proof (Z.div_mod date 1000000 ltac:(done));
    pose proof (Z.mod_pos_bound date 1000000 ltac:(done)); lia|].
  apply Z.div_le_lower_bound; lia.
Qed.

(** The filter built for a query means the filter of the query. *)
Lemma matches_message f filter d :
  message_ok d -> getMongoMessage f = inl filter ->
  matches filter d = true <-> filter_holds f (read_message d) /\ breakpoints_hold f (read_message d).
Proof.
  intros Hd Hf. destruct f as [f|]; cbn [getMongoMessage] in Hf; [|injection Hf as <-; done].
  destruct (id_condition "$gt" _) as [g|] eqn:Eg; [|done].
  destruct (id_condition "$lte" _) as [l|] eqn:El; [|done]. injection Hf as <-.
  rewrite !matches_app, !andb_true_iff, matches_ids, matches_expiry by done.
  rewrite (matches_oid _ _ _ _ _ Hd Eg El), (matches_string "queue"), (matches_string "queue_prefix")
    by auto using ok_queue_value, ok_prefix.
  unfold filter_holds, breakpoints_hold. cbn [read_message Queue QueuePrefix]. tauto.
Qed.

Lemma plain_filter_app f g : plain_filter (f ++ g) = plain_filter f && plain_filter g.
Proof. unfold plain_filter. apply forallb_app. Qed.

Lemma strings_are_strings l : forallb is_string (map BString l) = true.
Proof. by induction l. Qed.

Lemma getMongoMessage_plain f filter : getMongoMessage f = inl filter -> plain_filter filter = true.
Proof.
  destruct f as [f|]; cbn [getMongoMessage]; [|by intros [= <-]].
  destruct (id_condition "$gt" _) as [g|] eqn:Eg; [|done].
  destruct (id_condition "$lte" _) as [l|] eqn:El; [|done]. intros [= <-].
  rewrite !plain_filter_app. repeat (apply andb_true_iff; split).
  - destruct (Ids f) as [[|i [|j ids]]|]; try done. unfold plain_filter.
    cbn [ids_condition forallb fst snd plain_condition plain_operator String.eqb Ascii.eqb Bool.eqb].
    by rewrite strings_are_strings.
  - by case_if.
  - by case_if.
  - unfold id_condition in *. destruct (String.eqb (InternalIdBreakpointGt f) ""), (String.eqb (InternalIdBreakpointLte f) "");
      repeat match goal with H : context [ObjectIDFromHex ?t] |- _ => destruct (ObjectIDFromHex t) end;
      simplify_eq; done.
  - by destruct (f_ExpiryDate f).
Qed.
(** ** Updates of a document *)

Lemma typed_value k t d v :
  message_doc d = true -> doc_get k d = Some v -> (k, t) ∈ message_types -> t v = true.
Proof. intros Hd Hv Hin. exact (typed_elem _ _ _ _ _ Hd Hv Hin). Qed.

(** A document of the right types is one of a message when it has the fields. *)
Lemma message_ok_intro d hex :
  message_doc d = true -> get_string "queue" d <> "" -> get_string "id" d <> "" ->
  is_Some (doc_get "score" d) -> is_Some (doc_get "expiry_date" d) -> is_Some (doc_get "queue_prefix" d) ->
  doc_get "_id" d = Some (BObjectID hex) -> oid_ok (C := C) hex -> message_ok d.
Proof.
  intros Hd Hq Hi [s Hs] [e He] [p Hp] Ho Hhex. split; try done.
  - pose proof (typed_value _ is_double _ _ Hd Hs ltac:(unfold message_types; set_solver)) as Ht.
    unfold get_double. rewrite Hs. by destruct s.
  - pose proof (typed_value _ is_date _ _ Hd He ltac:(unfold message_types; set_solver)) as Ht.
    destruct e; try done. by eexists.
  - pose proof (typed_value _ is_string _ _ Hd Hp ltac:(unfold message_types; set_solver)) as Ht.
    unfold get_string. rewrite Hp. by destruct p.
  - by exists hex.
Qed.

Lemma get_string_changed k d d' changes :
  changed d d' changes -> doc_get k changes = None -> get_string k d' = get_string k d.
Proof. unfold get_string. intros Hc Hk. by rewrite Hc, Hk. Qed.

Lemma message_ok_changed d d' changes :
  message_ok d -> changed d d' changes -> message_doc d' = true ->
  doc_get "queue" changes = None -> doc_get "id" changes = None -> doc_get "_id" changes = None ->
  message_ok d' /\ doc_key d' = doc_key d.
Proof.
  intros Hd Hc Ht Hq Hi Ho. unfold doc_key.
  rewrite (get_string_changed _ _ _ _ Hc Hq), (get_string_changed _ _ _ _ Hc Hi). split; [|done].
  destruct (ok_oid d Hd) as (hex & Hhex & Hok).
  assert (Hsome : forall k, is_Some (doc_get k d) -> is_Some (doc_get k d')).
  { intros k [v Hv]. rewrite Hc, Hv. destruct (doc_get k changes); by eexists. }
  apply (message_ok_intro _ hex); try done.
  - rewrite (get_string_changed _ _ _ _ Hc Hq). by apply ok_queue.
  - rewrite (get_string_changed _ _ _ _ Hc Hi). by apply ok_id.
  - apply Hsome. rewrite ok_score by done. by eexists.
  - apply Hsome. destruct (ok_expiry d Hd) as [ms ->]. by eexists.
  - apply Hsome. rewrite ok_prefix by done. by eexists.
  - by rewrite Hc, Ho.
Qed.

Lemma insert_keyed env now m :
  Queue m <> "" -> ID m <> "" -> keyed_update doc_key message_ok (insert_model env now m) (msg_key m).
Proof.
  intros Hq Hi. split; [intros d; apply matches_key| |].
  - intros d d' Hd Hk Hu. destruct (insert_update_match env now m d) as (d1 & Hd1 & Hc).
    rewrite Hu in Hd1. injection Hd1 as <-. rewrite <- Hk.
    apply (message_ok_changed _ _ _ Hd Hc); [|by rewrite insert_fields_get..].
    eapply typed_changed; [exact Hc|apply ok_typed, Hd|]. apply forallb_forall. intros kv Hkv%in_rev. revert kv Hkv. apply forallb_forall, insert_fields_typed.
  - intros _ hex d' Hhex Hu. destruct (insert_update_new env now hex m) as (d1 & Hd1 & Hc).
    change (upsert_seed _ _) with (insert_seed hex (ID m) (Queue m)) in Hu.
    rewrite Hu in Hd1. injection Hd1 as <-. pose proof (read_new env now hex m d' Hc) as Hr.
    split; [|by rewrite doc_key_read, Hr].
    assert (Hget : forall k, doc_get k (rev (insert_on_insert now m) ++ rev (insert_fields env m)) =
      match doc_get k (rev (insert_on_insert now m)) with Some v => Some v
      | None => doc_get k (rev (insert_fields env m)) end) by (intros; apply doc_get_app).
    apply (message_ok_intro _ hex); try done.
    + eapply typed_changed; [exact Hc|by vm_compute|]. rewrite forallb_app. apply andb_true_iff. split; [by vm_compute|].
      apply forallb_forall. intros kv Hkv%in_rev. revert kv Hkv. apply forallb_forall, insert_fields_typed.
    + change (Queue (read_message d') <> ""). by rewrite Hr.
    + change (ID (read_message d') <> ""). by rewrite Hr.
    + rewrite Hc, Hget. by eexists.
    + rewrite Hc, Hget, insert_fields_get. by eexists.
    + rewrite Hc, Hget, insert_fields_get. by eexists.
    + rewrite Hc, Hget, insert_fields_get. done.
Qed.

(** An answer does not insert, and keeps the key. *)
Lemma answer_keyed m update :
  (forall d d', message_ok d -> apply_update false update d = Some d' ->
     message_doc d' = true /\ exists changes, changed d d' changes /\
       doc_get "queue" changes = None /\ doc_get "id" changes = None /\ doc_get "_id" changes = None) ->
  keyed_update doc_key message_ok
    {| m_filter := key_filter (ID m) (Queue m); m_update := update; m_upsert := false |} (msg_key m).
Proof.
  intros Hup. split; [intros d; apply matches_key| |done]. intros d d' Hd Hk Hu. destruct (Hup d d' Hd Hu) as (Ht & ch & Hc & Hq & Hi & Ho).
  rewrite <- Hk. by apply (message_ok_changed _ _ _ Hd Hc).
Qed.

Lemma ack_keyed m :
  keyed_update doc_key message_ok
    {| m_filter := key_filter (ID m) (Queue m); m_update := ack_update m; m_upsert := false |} (msg_key m).
Proof.
  apply answer_keyed. intros d d' Hd Hu. pose proof (ok_typed d Hd) as Ht.
  split; [by eapply ack_typed|]. destruct (ack_changed m d d' Ht Hu) as (l & total & Hc & _). by eexists.
Qed.

Lemma nack_keyed m :
  keyed_update doc_key message_ok
    {| m_filter := key_filter (ID m) (Queue m); m_update := nack_update m; m_upsert := false |} (msg_key m).
Proof.
  apply answer_keyed. intros d d' Hd Hu. pose proof (ok_typed d Hd) as Ht.
  split; [by eapply nack_typed|]. destruct (nack_changed m d d' Ht Hu) as (l & Hc & _). by eexists.
Qed.
(** ** Insertions *)

Definition named (m : Message) : Prop := Queue m <> "" /\ ID m <> "".

(** The message an insertion leaves for [m], from the one stored before. *)
Definition mongo_inserted (now : Time) (m : Message) (before : option Message) (v : Message) : Prop :=
  match before with
  | Some b => v = mongo_updated m b
  | None => exists hex, oid_ok (C := C) hex /\ v = mongo_new hex now m
  end.

Lemma insert_step env now m docs docs' n u :
  docs_ok docs -> named m -> update_step (oid_ok (C := C)) (insert_model env now m) docs docs' n u ->
  docs_ok docs' /\ 0 <= n /\ 0 <= u /\ n + u <= 1 /\
  (forall k, k <> msg_key m -> find_doc docs' k = find_doc docs k) /\
  exists d, find_doc docs' (msg_key m) = Some d /\
    mongo_inserted now m (read_message <$> find_doc docs (msg_key m)) (read_message d).
Proof.
  intros Hok [Hq Hi] Hs. destruct (update_step_key _ _ _ _ _ _ _ _ Hok (insert_keyed env now m Hq Hi) Hs)
    as ((Hok' & Hother & Hkey) & ? & ? & ?).
  split_and!; try done. destruct (find_doc docs (msg_key m)) as [d|] eqn:E; cbn.
  - destruct Hkey as (d' & Hd' & Hu). exists d'. split; [done|].
    destruct (insert_update_match env now m d) as (d1 & Hd1 & Hc). rewrite Hu in Hd1. injection Hd1 as <-.
    by eapply read_updated.
  - destruct Hkey as (hex & d' & Hd' & Hhex & Hu). exists d'. split; [done|]. exists hex. split; [done|].
    destruct (insert_update_new env now hex m) as (d1 & Hd1 & Hc).
    change (upsert_seed _ _) with (insert_seed hex (ID m) (Queue m)) in Hu. rewrite Hu in Hd1. injection Hd1 as <-.
    by eapply read_new.
Qed.

Lemma insert_steps env now ms : forall docs docs' n u,
  docs_ok docs -> Forall named ms ->
  update_steps (oid_ok (C := C)) (map (insert_model env now) ms) docs docs' n u ->
  docs_ok docs' /\ 0 <= n /\ 0 <= u /\ n + u <= Z.of_nat (length ms) /\
  (forall k, k ∉ msg_key <$> ms -> find_doc docs' k = find_doc docs k) /\
  (forall k, find_doc docs k <> None \/ k ∈ msg_key <$> ms -> find_doc docs' k <> None) /\
  (NoDup (msg_key <$> ms) -> forall m, m ∈ ms -> exists d, find_doc docs' (msg_key m) = Some d /\
     mongo_inserted now m (read_message <$> find_doc docs (msg_key m)) (read_message d)).
Proof.
  induction ms as [|m ms IH]; intros docs docs' n u Hok Hn Hs; inversion Hs; subst.
  { split_and!; try lia.
    - by eapply coll_ok_perm.
    - intros k _. by eapply find_key_perm.
    - intros k [Hk|Hk]; [|set_solver]. by rewrite (find_key_perm _ message_ok docs docs').
    - set_solver. }
  apply Forall_cons in Hn as [Hm Hms].
  match goal with H : update_step _ _ _ _ _ _ |- _ =>
    apply insert_step in H as (Hok1 & ? & ? & ? & Hother & d & Hd & Hread); [|done..] end.
  match goal with H : update_steps _ _ _ _ _ _ |- _ =>
    apply IH in H as (Hok' & ? & ? & ? & Hrest & Hsome & Hin); [|done..] end.
  rewrite fmap_cons. split_and!; try done; try lia.
  - cbn [length]. lia.
  - intros k [Hk Hk']%not_elem_of_cons. by rewrite Hrest, Hother.
  - intros k Hk. apply Hsome. destruct (decide (k = msg_key m)) as [->|Hne]; [left; congruence|].
    rewrite Hother by done. set_solver.
  - intros [Hni Hnd]%NoDup_cons m' [->|Hm']%elem_of_cons.
    + exists d. by rewrite Hrest.
    + destruct (Hin Hnd m' Hm') as (d' & Hd' & Hr). exists d'. split; [done|]. rewrite <- Hother; [done|].
      intros E. apply Hni. rewrite <- E. by apply (list_elem_of_fmap_2 msg_key).
Qed.

(** The models of a batch are those of its messages. *)
Lemma insert_models_ok env now ms updates :
  insert_models env now ms = inl updates -> Forall named ms /\ updates = map (insert_model env now) ms.
Proof.
  revert updates. induction ms as [|m ms IH]; intros updates; cbn [insert_models]; [by intros [= <-]|].
  destruct (String.eqb_spec (Queue m) "") as [|Hq]; [done|].
  destruct (String.eqb_spec (ID m) "") as [|Hi]; [done|].
  destruct (insert_models env now ms) as [us|]; [|done]. intros [= <-].
  destruct (IH us eq_refl) as [Hms ->]. split; [|done]. constructor; [by split|done].
Qed.

Lemma insert_models_plain env now ms :
  Forall (fun m => plain_filter (m_filter m) = true) (map (insert_model env now) ms).
Proof. apply Forall_map, Forall_true. done. Qed.

(** Some of the models of a batch are those of some of its messages. *)
Lemma submseteq_models {A B} (f : A -> B) (l : list A) (l' : list B) (P : A -> Prop) :
  Forall P l -> l' ⊆+ map f l -> exists l0, l' = map f l0 /\ Forall P l0.
Proof.
  intros HP Hsub. assert (Hall : Forall (fun y => exists x, P x /\ y = f x) l').
  { apply Forall_forall. intros y Hy. eapply elem_of_submseteq in Hsub; [|exact Hy].
    apply list_elem_of_fmap in Hsub as (x & -> & Hx). exists x. split; [|done].
    rewrite Forall_forall in HP. by apply HP. }
  clear Hsub. induction Hall as [|y l' (x & Hx & ->) _ (l0 & -> & Hl0)]; [by exists []|].
  exists (x :: l0). split; [done|by constructor].
Qed.
End Facts.
