(* ===== verification/MongoSpec.v ===== *)
(** * The contract of the MongoDB storage

    The effect of each operation on the messages and configurations stored,
    and the instance of [StorageSpec], for every server and driver that keep
    their laws. *)

From S2P Require Import Prelude GoStrings Float64 Dtime Message Storage Mongo MongoStorage MongoDocs.
From S2P Require Import MongoFacts.
#[local] Open Scope string_scope.
#[local] Open Scope list_scope.
#[local] Open Scope Z_scope.

Section Spec.
Context {C : Type} {HO : MongoOps C} {HA : AnyCodec} {HB : BsonDecoder}.
Implicit Types s : MongoStorage C.

(** ** State *)

Definition messages s : list Doc := coll_docs (client s) (messagesCollection s).
Definition configurations s : list Doc := coll_docs (client s) (queueConfigurationCollection s).

(** A document of a configuration. *)
Record config_ok (d : Doc) : Prop := {
  cok_typed : configuration_doc d = true;
  cok_id : doc_get "_id" d = Some (BString (get_string "_id" d));
  cok_max : 0 <= get_int "max_elements" d
}.

Abbreviation configs_ok := (coll_ok (get_string "_id") config_ok).
Abbreviation messages_ok := (coll_ok doc_key message_ok).
Abbreviation find_doc := (find_key doc_key).
Abbreviation find_config := (find_key (get_string "_id")).

(** Both read preferences see the same messages; messages and configurations
    are in different collections; the documents are well formed. *)
Record mongo_inv (s : MongoStorage C) : Prop := {
  inv_primary : namespace (messagesCollectionPrimaryRead s) = namespace (messagesCollection s);
  inv_apart : namespace (queueConfigurationCollection s) <> namespace (messagesCollection s);
  inv_messages : messages_ok (messages s);
  inv_configs : configs_ok (configurations s)
}.

Definition mongo_stored (s : MongoStorage C) (q i : string) : option Message :=
  read_message <$> find_doc (messages s) (q, i).

Definition mongo_config (s : MongoStorage C) (q : string) : option QueueConfiguration :=
  read_configuration <$> find_config (configurations s) q.

(** A change of the messages leaves the configurations as they are, and the
    other way round. *)
Lemma change_messages s c :
  mongo_inv s -> same_other_docs (messagesCollection s) (client s) c ->
  messages_ok (coll_docs c (messagesCollection s)) ->
  mongo_inv (with_client c s) /\ configurations (with_client c s) = configurations s.
Proof.
  intros [Hp Ha Hm Hc] Hsame Hm'.
  assert (E : configurations (with_client c s) = configurations s) by (by apply Hsame).
  split; [|done]. split; try done. by rewrite E.
Qed.

Lemma change_configurations s c :
  mongo_inv s -> same_other_docs (queueConfigurationCollection s) (client s) c ->
  configs_ok (coll_docs c (queueConfigurationCollection s)) ->
  mongo_inv (with_client c s) /\ messages (with_client c s) = messages s.
Proof.
  intros [Hp Ha Hm Hc] Hsame Hc'.
  assert (E : messages (with_client c s) = messages s) by (apply Hsame; by apply not_eq_sym).
  split; [|done]. split; try done. by rewrite E.
Qed.

(** ** Reading the documents *)

Lemma mongo_stored_Some s q i m :
  mongo_inv s -> mongo_stored s q i = Some m <->
  exists d, d ∈ messages s /\ message_ok d /\ m = read_message d /\ msg_key m = (q, i).
Proof.
  intros [_ _ Hm _]. unfold mongo_stored. rewrite fmap_Some. split.
  - intros (d & Hd & ->). apply (find_key_Some _ message_ok) in Hd as [Hd Hk]; [|done]. exists d.
    split_and!; try done. by apply (elem_of_coll doc_key message_ok) in Hd as [? _].
  - intros (d & Hd & _ & -> & Hk). exists d. split; [|done]. by apply (find_key_Some _ message_ok).
Qed.

Lemma decode_all_map {A} (decode : Doc -> A + error) (read : Doc -> A) ds :
  Forall (fun d => decode d = inl (read d)) ds -> decode_all decode ds = inl (map read ds).
Proof. induction 1 as [|d ds Hd _ IH]; cbn; [done|]. by rewrite Hd, IH. Qed.

(** ** Filters on a key *)

(** The documents that a deletion leaves. *)
Lemma find_doc_filter (keep : Doc -> bool) docs docs' k :
  messages_ok docs -> docs' ≡ₚ List.filter keep docs ->
  messages_ok docs' /\
  find_doc docs' k = match find_doc docs k with
                     | Some d => if keep d then Some d else None | None => None end.
Proof.
  intros Hok Hp. assert (Hok1 : messages_ok (List.filter keep docs)).
  { destruct Hok as [Hall Hnd]. split.
    - apply Forall_forall. intros d [Hd _]%elem_of_filter_iff. rewrite Forall_forall in Hall. by apply Hall.
    - eapply sublist_NoDup; [exact Hnd|apply fmap_sublist, filter_sublist]. }
  assert (Hok' : messages_ok docs') by (eapply coll_ok_perm; [symmetry; exact Hp|done]).
  split; [done|]. apply option_eq. intros d. rewrite (find_key_Some _ message_ok), Hp, elem_of_filter_iff by done.
  destruct (find_doc docs k) as [d0|] eqn:E.
  - apply (find_key_Some _ message_ok) in E as [Hd0 Hk0]; [|done]. split.
    + intros [[Hd Hkeep] Hk]. assert (Some d = Some d0) as [= ->].
      { transitivity (find_doc docs k); [symmetry|]; by apply (find_key_Some _ message_ok). }
      by rewrite Hkeep.
    + destruct (keep d0) eqn:Ek; [|done]. by intros [= <-].
  - apply find_key_None in E. split; [|done]. intros [[Hd _] Hk]. destruct E. apply list_elem_of_fmap. by exists d.
Qed.

Definition remove_filter (q : string) (ids : list string) : Doc :=
  [("queue", BString q); ("id", BDoc [("$in", BArray (map BString ids))])].

Lemma remove_filter_plain q ids : plain_filter (remove_filter q ids) = true.
Proof.
  unfold plain_filter, remove_filter. cbn [forallb fst snd plain_condition plain_operator String.eqb Ascii.eqb Bool.eqb].
  by rewrite strings_are_strings.
Qed.

Lemma matches_remove q ids d :
  message_ok d ->
  matches (remove_filter q ids) d = true <-> (doc_key d).1 = q /\ (doc_key d).2 ∈ ids.
Proof.
  intros Hd. unfold matches, remove_filter. cbn [forallb fst snd].
  rewrite eqb_string_value by (by apply ok_queue_value).
  rewrite andb_true_r, andb_true_iff, String.eqb_eq, in_strings_value by (by apply ok_id_value).
  cbn. naive_solver.
Qed.

(** ** Insertions *)

Context {HM : Mongo C}.

Lemma Insert_inserts env ms s s' r :
  mongo_inv s -> Insert env ms s = (s', r) ->
  mongo_inv s' /\ configurations s' = configurations s /\
  (forall n k, r = ((n, k), None) ->
     Forall named ms /\ 0 <= n /\ 0 <= k /\ n + k <= Z.of_nat (length ms) /\
     (forall q i, (q, i) ∉ msg_key <$> ms -> mongo_stored s' q i = mongo_stored s q i) /\
     (forall m, m ∈ ms -> exists m', mongo_stored s' (Queue m) (ID m) = Some m') /\
     (NoDup (msg_key <$> ms) -> forall m, m ∈ ms -> exists v, mongo_stored s' (Queue m) (ID m) = Some v /\
        mongo_inserted (C := C) (Now env) m (mongo_stored s (Queue m) (ID m)) v)).
Proof using HM.
  intros Hs. unfold Insert. destruct (insert_models env (Now env) ms) as [us|err] eqn:E; cycle 1.
  { intros [= <- <-]. split; [done|]. split; [done|]. intros n k [=]. }
  apply insert_models_ok in E as [Hn ->]. pose proof (insert_models_plain env (Now env) ms) as Hpl.
  destruct (BulkWrite _ _ _) as [c [res|err]] eqn:Eb; intros [= <- <-].
  - apply mongo_BulkWrite in Eb as (Hsame & Hz & ms' & Hp & Hsteps); [|done].
    apply Permutation_map_inv in Hp as (ms1 & -> & Hp1). symmetry in Hp1.
    assert (Hn1 : Forall named ms1) by (by rewrite Hp1).
    apply insert_steps in Hsteps as (Hok & ? & ? & Hle & Hother & Hsome & Hin); [|apply Hs|done].
    destruct (change_messages s c Hs Hsame Hok) as [Hs' Ec]. split; [done|]. split; [done|].
    intros n k [= <- <-]. rewrite Hz. rewrite Hp1 in Hle. setoid_rewrite Hp1 in Hother.
    setoid_rewrite Hp1 in Hsome. setoid_rewrite Hp1 in Hin.
    split_and!; try done; try lia.
    + intros q i Hqi. unfold mongo_stored, messages. cbn. by rewrite Hother.
    + intros m Hm. unfold mongo_stored, messages. cbn.
      destruct (find_doc (coll_docs c _) (Queue m, ID m)) as [d|] eqn:Ed; [by eexists|].
      destruct (Hsome (Queue m, ID m)); [right; by apply (list_elem_of_fmap_2 msg_key)|done].
    + intros Hnd m Hm. destruct (Hin Hnd m Hm) as (d & Hd & Hr). exists (read_message d).
      unfold mongo_stored, messages. cbn. unfold msg_key in Hd. by rewrite Hd.
  - apply mongo_BulkWrite_error in Eb as (Hsame & ms' & n & u & Hsub & Hsteps); [|done].
    destruct (submseteq_models _ _ _ named Hn Hsub) as (l0 & -> & Hl0).
    apply insert_steps in Hsteps as (Hok & _); [|apply Hs|done].
    destruct (change_messages s c Hs Hsame Hok) as [Hs' Ec]. split; [done|]. split; [done|]. intros n0 k0 [=].
Qed.
(** ** Acks and nacks *)

Lemma update_message_updates m update s s' r :
  mongo_inv s ->
  keyed_update doc_key message_ok
    {| m_filter := key_filter (ID m) (Queue m); m_update := update; m_upsert := false |} (msg_key m) ->
  update_message m update s = (s', r) ->
  mongo_inv s' /\ configurations s' = configurations s /\
  (forall n, r = (n, None) -> 0 <= n <= 1 /\
     (forall q i, (q, i) <> msg_key m -> mongo_stored s' q i = mongo_stored s q i) /\
     match find_doc (messages s) (msg_key m) with
     | None => mongo_stored s' (Queue m) (ID m) = None
     | Some d => exists d', message_ok d /\ apply_update false update d = Some d' /\
         mongo_stored s' (Queue m) (ID m) = Some (read_message d')
     end).
Proof using HM.
  intros Hs Hk. unfold update_message. destruct (UpdateOne _ _ _) as [c [res|err]] eqn:E; intros [= <- <-].
  - apply mongo_UpdateOne in E as [Hsame Hstep]; [|done].
    apply (update_step_key _ _ _ _ _ _ _ _ (inv_messages s Hs) Hk) in Hstep as ((Hok & Hother & Hd) & ? & ? & ?).
    destruct (change_messages s c Hs Hsame Hok) as [Hs' Ec]. split; [done|]. split; [done|].
    intros n [= <-]. split; [lia|]. split.
    + intros q i Hqi. unfold mongo_stored, messages. cbn. by rewrite Hother.
    + change (mongo_stored (with_client c s) (Queue m) (ID m))
        with (read_message <$> find_doc (coll_docs c (messagesCollection s)) (msg_key m)).
      destruct (find_doc (messages s) (msg_key m)) as [d|] eqn:Ed; cbn in Hd.
      * destruct Hd as (d' & -> & Hu). exists d'. split; [|done].
        apply (find_key_Some _ message_ok) in Ed as [Ed _]; [|apply Hs].
        by apply (elem_of_coll doc_key message_ok) in Ed as [? _]; [|apply Hs].
      * by rewrite Hd.
  - apply mongo_UpdateOne_error in E as [Hsame Hstep]; [|done].
    assert (Hok : messages_ok (coll_docs c (messagesCollection s))).
    { destruct Hstep as [->|(n & u & Hstep)]; [apply Hs|].
      by apply (update_step_key _ _ _ _ _ _ _ _ (inv_messages s Hs) Hk) in Hstep as ((? & _) & _). }
    destruct (change_messages s c Hs Hsame Hok) as [Hs' Ec]. split; [done|]. split; [done|]. intros n [=].
Qed.

Lemma Ack_acks m s s' r :
  mongo_inv s -> Ack m s = (s', r) ->
  mongo_inv s' /\ configurations s' = configurations s /\
  (forall n, r = (n, None) -> 0 <= n <= 1 /\
     (forall q i, (q, i) <> msg_key m -> mongo_stored s' q i = mongo_stored s q i) /\
     match mongo_stored s (Queue m) (ID m) with
     | None => mongo_stored s' (Queue m) (ID m) = None
     | Some v => exists total, mongo_stored s' (Queue m) (ID m) = Some (mongo_acked total m v) /\
         added (TotalScoreSubtract v) (LastScoreSubtract m) total
     end).
Proof using HM.
  intros Hs Hr. apply update_message_updates in Hr as (Hs' & Ec & Hr); [|done|apply ack_keyed].
  split; [done|]. split; [done|]. intros n Hn. destruct (Hr n Hn) as (? & ? & Hd). split; [done|]. split; [done|].
  unfold mongo_stored at 1. unfold msg_key in Hd. destruct (find_doc _ _) as [d|]; cbn; [|done].
  destruct Hd as (d' & Hd & Hu & ->). destruct (read_acked m d d' (ok_typed d Hd) Hu) as (total & -> & ?).
  by exists total.
Qed.

Lemma Nack_nacks m s s' r :
  mongo_inv s -> Nack m s = (s', r) ->
  mongo_inv s' /\ configurations s' = configurations s /\
  (forall n, r = (n, None) -> 0 <= n <= 1 /\
     (forall q i, (q, i) <> msg_key m -> mongo_stored s' q i = mongo_stored s q i) /\
     mongo_stored s' (Queue m) (ID m) = mongo_nacked m <$> mongo_stored s (Queue m) (ID m)).
Proof using HM.
  intros Hs Hr. apply update_message_updates in Hr as (Hs' & Ec & Hr); [|done|apply nack_keyed].
  split; [done|]. split; [done|]. intros n Hn. destruct (Hr n Hn) as (? & ? & Hd). split; [done|]. split; [done|].
  unfold mongo_stored at 2. unfold msg_key in Hd. destruct (find_doc _ _) as [d|]; cbn; [|done].
  destruct Hd as (d' & Hd & Hu & ->). by rewrite (read_nacked m d d' (ok_typed d Hd) Hu).
Qed.

(** ** Queries *)

Lemma mongo_Find_returns opt s :
  0 <= opt_limit opt -> exists r, Find opt s = Ret r.
Proof using Type.
  intros Hl. unfold Find. destruct (getMongoMessage _); [|by eexists].
  destruct (mongo_Find _ _ _ _); [|by eexists].
  replace (Limit (default no_find_options opt) <? 0) with false; cycle 1.
  { symmetry. apply Z.ltb_ge. by destruct opt. }
  destruct (decode_all _ _); by eexists.
Qed.

Lemma find_limit_take {A} limit (l : list A) : 0 <= limit ->
  exists n, find_limit limit l = take n l /\
    (0 < limit -> Z.of_nat (length (take n l)) <= limit) /\
    (take n l = l \/ 0 < limit /\ Z.of_nat (length (take n l)) = limit).
Proof using Type.
  intros Hl. unfold find_limit. destruct (Z.eqb_spec limit 0) as [->|Hne].
  - exists (length l). rewrite take_ge by lia. split_and!; [done|lia|auto].
  - exists (Z.to_nat limit). rewrite length_take. split_and!; [done|lia|].
    destruct (decide (Z.of_nat (length l) <= limit)); [left; apply take_ge; lia|right; lia].
Qed.

(** The documents found, before the projection. *)
Definition found_run opt s (ms : list Message) : Prop :=
  exists filter found, getMongoMessage (opt_filter opt) = inl filter /\
    found ≡ₚ List.filter (matches filter) (messages s) /\
    StronglySorted (sort_allows (getMongoSort (opt_sort opt))) found /\
    ms = mongo_view (opt_projection opt) <$> (read_message <$> find_limit (opt_limit opt) found).

(** A query fails only on a breakpoint it cannot read or on an error of the
    server: the documents can be decoded. *)
Lemma Find_cases opt s ms err :
  mongo_inv s -> projection_ok (opt_projection opt) = true -> 0 <= opt_limit opt ->
  Find opt s = Ret (ms, err) ->
  match err with
  | None => found_run opt s ms
  | Some e => ms = [] /\ (getMongoMessage (opt_filter opt) = inr e \/
                exists cause, e = WrapError "error finding storage elements" cause)
  end.
Proof using HM.
  intros Hs Hproj Hl. unfold Find. set (o := default no_find_options opt).
  assert (Hf : opt_InternalFilter o = opt_filter opt) by (by destruct opt).
  assert (Hp : Projection o = opt_projection opt) by (by destruct opt).
  assert (Hli : Limit o = opt_limit opt) by (by destruct opt).
  assert (Hso : Sort o = opt_sort opt) by (by destruct opt). rewrite Hf, Hp, Hli, Hso.
  destruct (getMongoMessage _) as [filter|e] eqn:Ef; [|intros [= <- <-]; by split; [|left]].
  set (coll := if Retry o then _ else _). set (args := {| fa_Projection := _ |}).
  assert (Hcoll : coll_docs (client s) coll = messages s).
  { unfold coll, messages, coll_docs. destruct (Retry o); [|done]. by rewrite (inv_primary s Hs). }
  destruct (mongo_Find coll filter args (client s)) as [ds|e] eqn:E;
    [|intros [= <- <-]; split; [done|right; by eexists]].
  rewrite (proj2 (Z.ltb_ge _ _)) by done.
  apply (mongo_Find_finds _ _ _ (default [] (opt_projection opt))) in E as (found & Hfound & Hsort & ->);
    [|by eapply getMongoMessage_plain|done|exact Hproj|done]. rewrite Hcoll in Hfound.
  rewrite (decode_all_map _ read_message); cycle 1.
  { apply Forall_map, Forall_forall. intros d Hd. apply decode_message_doc, typed_project, ok_typed.
    assert (Hd' : d ∈ found).
    { destruct (find_limit_take (fa_Limit args) found Hl) as (n & Hn & _). rewrite Hn in Hd.
      eapply elem_of_sublist; [exact Hd|apply sublist_take]. }
    rewrite Hfound in Hd'. apply elem_of_filter_iff in Hd' as [Hd' _].
    by apply (elem_of_coll doc_key message_ok) in Hd' as [? _]; [|apply Hs]. }
  intros [= <- <-]. exists filter, found. split_and!; try done.
  rewrite map_map, <- list_fmap_compose. apply list_fmap_ext. intros j d _. apply read_project.
Qed.

Lemma Find_run opt s ms :
  mongo_inv s -> projection_ok (opt_projection opt) = true -> 0 <= opt_limit opt ->
  Find opt s = Ret (ms, None) -> found_run opt s ms.
Proof using HM. intros Hs Hp Hl Hr. by apply (Find_cases opt s ms None). Qed.
Lemma breakpoints_none f m : no_breakpoints f -> breakpoints_hold (C := C) f m.
Proof using Type. destruct f as [f|]; [|done]. intros [Hg Hl]. split; by left. Qed.

(** The documents a filter without breakpoints finds are those selected. *)
Lemma selected_docs f filter s m :
  mongo_inv s -> getMongoMessage f = inl filter -> no_breakpoints f ->
  m ∈ read_message <$> List.filter (matches filter) (messages s) <->
  mongo_stored s (Queue m) (ID m) = Some m /\ filter_holds f m.
Proof using Type.
  intros Hs Hf Hb. rewrite mongo_stored_Some by done. split.
  - intros (d & -> & [Hd Hm]%elem_of_filter_iff)%list_elem_of_fmap.
    pose proof Hd as [Hok _]%(elem_of_coll doc_key message_ok); [|apply Hs].
    apply (matches_message _ _ _ Hok Hf) in Hm as [Hm _]. split; [|done]. by exists d.
  - intros [(d & Hd & Hok & -> & _) Hm]. apply list_elem_of_fmap. exists d. split; [done|].
    apply elem_of_filter_iff. split; [done|]. apply (matches_message _ _ _ Hok Hf). split; [done|].
    by apply breakpoints_none.
Qed.

Lemma sort_le_allows key d d' :
  message_ok d -> message_ok d' -> sort_allows [(key, BInt 1)] d d' ->
  sort_le key (read_message d) (read_message d').
Proof using Type.
  intros Hd Hd' Hs. split; intros ->.
  - exact (Hs _ _ (ok_score _ Hd) (ok_score _ Hd')).
  - destruct (ok_expiry _ Hd) as [ms E], (ok_expiry _ Hd') as [ms' E']. specialize (Hs _ _ E E').
    cbn in Hs |- *. rewrite E, E'. unfold time_of_date, Millisecond. lia.
Qed.

Lemma Find_answers env opt s ms :
  mongo_inv s -> no_breakpoints (opt_filter opt) -> projection_ok (opt_projection opt) = true ->
  0 <= opt_limit opt -> Find opt s = Ret (ms, None) ->
  exists vs, ms = mongo_view (opt_projection opt) <$> vs /\ answers (mongo_stored s) false env opt vs.
Proof using HM.
  intros Hs Hb Hp Hl Hr. apply Find_run in Hr as (filter & found & Hf & Hfound & Hsort & ->); [|done..].
  destruct (find_limit_take (opt_limit opt) found Hl) as (n & -> & Hle & Hall).
  exists (read_message <$> take n found). split; [done|].
  assert (Hsel : forall m, m ∈ read_message <$> found <->
    mongo_stored s (Queue m) (ID m) = Some m /\ selected false env (opt_filter opt) m).
  { intros m. rewrite Hfound, selected_docs by done. unfold selected. split; [|tauto].
    by intros [? ?]. }
  assert (Hok : Forall message_ok found).
  { rewrite Hfound. apply Forall_forall. intros d [Hd _]%elem_of_filter_iff.
    by apply (elem_of_coll doc_key message_ok) in Hd as [? _]; [|apply Hs]. }
  assert (Htake : take n (read_message <$> found) = read_message <$> take n found) by (by rewrite fmap_take).
  rewrite <- Htake. assert (Hlen : length (take n (read_message <$> found)) = length (take n found))
    by (rewrite Htake; apply length_fmap).
  assert (Hleft : forall q i m, mongo_stored s q i = Some m -> selected false env (opt_filter opt) m ->
    m ∉ take n (read_message <$> found) -> m ∈ drop n (read_message <$> found)).
  { intros q i m Hm Hse Hni. assert (Hin : m ∈ read_message <$> found).
    { apply Hsel. split; [|done]. pose proof Hm as (d & _ & _ & _ & [= -> ->])%mongo_stored_Some; done. }
    rewrite <- (take_drop n) in Hin. apply elem_of_app in Hin as [?|?]; done. }
  split.
  - eapply sublist_NoDup; [|apply fmap_sublist, sublist_take]. rewrite Hfound, <- list_fmap_compose.
    destruct (inv_messages s Hs) as [_ Hnd].
    eapply sublist_NoDup; [exact Hnd|apply fmap_sublist, filter_sublist].
  - apply Forall_forall. intros m Hm. apply Hsel. eapply elem_of_sublist; [exact Hm|apply sublist_take].
  - rewrite Hlen. exact Hle.
  - intros q i m Hm Hse Hni. rewrite Hlen. destruct Hall as [Heq|?]; [|done]. destruct Hni.
    rewrite Htake, Heq. apply Hsel. split; [|done].
    pose proof Hm as (d & _ & _ & _ & [= -> ->])%mongo_stored_Some; done.
  - intros key Hk _. assert (Hss : StronglySorted (sort_le key) (read_message <$> found)).
    { rewrite Hk in Hsort. cbn in Hsort. clear -Hsort Hok. induction Hsort as [|d l Hl IH Hd]; [constructor|].
      apply Forall_cons in Hok as [Hd0 Hok]. rewrite fmap_cons. constructor; [by apply IH|].
      apply Forall_fmap, Forall_forall. intros d' Hd'. rewrite Forall_forall in Hd, Hok.
      apply sort_le_allows; auto. }
    split; [by apply StronglySorted_take|]. intros q i m m' Hm Hse Hni Hin.
    eapply StronglySorted_take_drop; [exact Hss|exact Hin|by eapply Hleft].
Qed.

Lemma mongo_Count_counts opt copt s n :
  mongo_inv s -> no_breakpoints (opt_filter opt) -> Count opt copt s = Ret (n, None) ->
  exists l, NoDup l /\ n = Z.of_nat (length l) /\
    forall q i, (q, i) ∈ l <-> exists m, mongo_stored s q i = Some m /\ filter_holds (opt_filter opt) m.
Proof using HM.
  intros Hs Hb. unfold Count. destruct opt as [opt|]; [|done]. cbn in Hb.
  destruct (getMongoMessage _) as [filter|] eqn:Ef; [|done]. destruct copt as [copt|]; [|done].
  destruct (CountDocuments _ _ _ _) as [k|] eqn:E; [|done]. intros [= <-].
  apply mongo_CountDocuments in E as ->; [|by eapply getMongoMessage_plain].
  exists (msg_key <$> (read_message <$> List.filter (matches filter) (messages s))). split_and!.
  - rewrite <- list_fmap_compose. destruct (inv_messages s Hs) as [_ Hnd].
    eapply sublist_NoDup; [exact Hnd|apply fmap_sublist, filter_sublist].
  - by rewrite !length_fmap.
  - intros q i. rewrite list_elem_of_fmap. cbn. split.
    + intros (m & [= -> ->] & Hm). apply (selected_docs _ _ _ _ Hs Ef Hb) in Hm as [Hm ?]. by exists m.
    + intros (m & Hm & Hh). exists m. pose proof Hm as (d & _ & _ & _ & [= <- <-])%mongo_stored_Some; [|done].
      split; [done|]. by apply (selected_docs _ _ _ _ Hs Ef Hb).
Qed.
(** ** Removals *)

Definition stored_ids (s : MongoStorage C) (q : string) (ids : list string) : list string :=
  List.filter (fun i => bool_decide (is_Some (mongo_stored s q i))) ids.

Lemma stored_is_Some s q i :
  mongo_inv s -> is_Some (mongo_stored s q i) <-> (q, i) ∈ doc_key <$> messages s.
Proof using Type.
  intros Hs. unfold mongo_stored. rewrite fmap_is_Some, <- not_eq_None_Some, find_key_None.
  split; [apply dec_stable|auto].
Qed.

(** As many documents match as ids are stored. *)
Lemma length_removed s q ids :
  mongo_inv s -> NoDup ids ->
  length (List.filter (matches (remove_filter q ids)) (messages s)) = length (stored_ids s q ids).
Proof using Type.
  intros Hs Hnd. destruct (inv_messages s Hs) as [Hok Hk]. rewrite Forall_forall in Hok.
  rewrite <- (length_fmap doc_key), <- (length_fmap (pair q) (stored_ids s q ids)).
  apply Permutation_length, NoDup_Permutation.
  - eapply sublist_NoDup; [exact Hk|apply fmap_sublist, filter_sublist].
  - apply NoDup_fmap_2; [by intros ? ? [= ?]|]. eapply sublist_NoDup; [exact Hnd|apply filter_sublist].
  - intros [q0 i]. rewrite !list_elem_of_fmap. split.
    + intros (d & Hd & [Hin Hm]%elem_of_filter_iff). apply matches_remove in Hm as [Hq Hi]; [|by apply Hok].
      rewrite <- Hd in Hq, Hi. cbn [fst snd] in Hq, Hi. subst q0. exists i. split; [done|].
      apply elem_of_filter_iff. split; [done|]. apply bool_decide_eq_true, stored_is_Some; [done|].
      rewrite Hd. by apply list_elem_of_fmap_2.
    + intros (j & [= -> ->] & [Hj Hst]%elem_of_filter_iff).
      apply bool_decide_eq_true, stored_is_Some in Hst; [|done].
      apply list_elem_of_fmap in Hst as (d & Hd & Hin). exists d. split; [done|].
      apply elem_of_filter_iff. split; [done|]. apply matches_remove; [by apply Hok|]. by rewrite <- Hd.
Qed.

(** The deletion of one chunk. *)
Lemma chunk_eq i (ids : list string) :
  drop i (take (if Nat.ltb (length ids) (i + deleteChunkSize) then length ids else i + deleteChunkSize) ids)
  = take deleteChunkSize (drop i ids).
Proof using Type.
  rewrite take_drop_commute, Nat.add_comm. destruct (Nat.ltb_spec (length ids) (deleteChunkSize + i)); [|done].
  by rewrite !take_ge by lia.
Qed.

(** A deletion that fails has deleted some of the documents. *)
Lemma coll_ok_part {K} `{EqDecision K} (key : Doc -> K) (ok : Doc -> Prop) docs gone docs' :
  coll_ok key ok docs -> docs ≡ₚ gone ++ docs' -> coll_ok key ok docs'.
Proof using Type.
  intros Hok Hp. destruct (coll_ok_perm key ok docs (gone ++ docs') Hp Hok) as [Hall Hnd].
  apply Forall_app in Hall as [_ Hall]. rewrite fmap_app in Hnd. apply NoDup_app in Hnd as (_ & _ & Hnd). by split.
Qed.

Lemma part_stored s c gone :
  mongo_inv s -> messages s ≡ₚ gone ++ coll_docs c (messagesCollection s) ->
  messages_ok (coll_docs c (messagesCollection s)) /\
  forall q i, mongo_stored (with_client c s) q i = mongo_stored s q i \/
    mongo_stored (with_client c s) q i = None /\ exists d, d ∈ gone /\ message_ok d /\ doc_key d = (q, i).
Proof using HM.
  intros Hs Hp. pose proof (inv_messages s Hs) as Hok.
  assert (Hok' : messages_ok (coll_docs c (messagesCollection s))) by (by eapply coll_ok_part).
  split; [done|]. intros q i. change (mongo_stored (with_client c s) q i)
    with (read_message <$> find_doc (coll_docs c (messagesCollection s)) (q, i)). unfold mongo_stored.
  destruct (find_doc (coll_docs c _) (q, i)) as [d|] eqn:Ed.
  - apply (find_key_Some _ message_ok) in Ed as [Hd Hk]; [|done]. left.
    assert (find_doc (messages s) (q, i) = Some d) as ->; [|done].
    apply (find_key_Some _ message_ok); [done|]. split; [|done]. rewrite Hp. set_solver.
  - destruct (find_doc (messages s) (q, i)) as [d|] eqn:Em; [right|by left]. split; [done|]. exists d.
    apply (find_key_Some _ message_ok) in Em as [Hd Hk]; [|done].
    destruct (elem_of_coll doc_key message_ok _ _ Hok Hd) as [Hdok _].
    rewrite Hp, elem_of_app in Hd. destruct Hd as [Hd|Hd]; [done|]. exfalso.
    apply (find_key_None doc_key) in Ed. apply Ed. rewrite <- Hk. by apply list_elem_of_fmap_2.
Qed.

Lemma chunk_deletion i ids q s s' res :
  mongo_inv s -> attemptChunkDeletion i ids q s = (s', res) ->
  let chunk := take deleteChunkSize (drop i ids) in
  mongo_inv s' /\ configurations s' = configurations s /\
  (forall q0 j, mongo_stored s' q0 j = mongo_stored s q0 j \/ mongo_stored s' q0 j = None /\ q0 = q /\ j ∈ chunk) /\
  (forall n, res = inl n ->
     (forall q0 j, mongo_stored s' q0 j = if decide (q0 = q /\ j ∈ chunk) then None else mongo_stored s q0 j) /\
     (NoDup chunk -> n = Z.of_nat (length (stored_ids s q chunk)))).
Proof using HM.
  intros Hs. unfold attemptChunkDeletion. rewrite chunk_eq. set (chunk := take _ _).
  fold (remove_filter q chunk).
  destruct (DeleteMany _ _ _) as [c [n|err]] eqn:E; intros [= <- <-].
  - apply mongo_DeleteMany in E as (Hsame & Hdocs & Hn); [|apply remove_filter_plain].
    destruct (find_doc_filter _ _ _ ("", "") (inv_messages s Hs) Hdocs) as [Hok _].
    destruct (change_messages s c Hs Hsame Hok) as [Hs' Ec].
    assert (Hst : forall q0 j, mongo_stored (with_client c s) q0 j =
      if decide (q0 = q /\ j ∈ chunk) then None else mongo_stored s q0 j).
    { intros q0 j. change (mongo_stored (with_client c s) q0 j)
        with (read_message <$> find_doc (coll_docs c (messagesCollection s)) (q0, j)).
      unfold mongo_stored.
      rewrite (proj2 (find_doc_filter _ _ _ (q0, j) (inv_messages s Hs) Hdocs)).
      fold (messages s). destruct (find_doc (messages s) (q0, j)) as [d|] eqn:Ed; [|by case_decide].
      apply (find_key_Some _ message_ok) in Ed as [Hd Hk]; [|apply Hs].
      destruct (elem_of_coll doc_key message_ok _ _ (inv_messages s Hs) Hd) as [Hdok _].
      pose proof (matches_remove q chunk d Hdok) as Hm. rewrite Hk in Hm. cbn [fst snd] in Hm. destruct (matches _ d); cbn [negb].
      - rewrite decide_True; [done|]. by apply Hm.
      - rewrite decide_False; [done|]. intros Hx. by apply Hm in Hx. }
    split; [done|]. split; [done|]. split.
    + intros q0 j. rewrite Hst. case_decide; naive_solver.
    + intros n' [= <-]. split; [done|]. intros Hnd. by rewrite Hn, <- length_removed.
  - apply mongo_DeleteMany_error in E as (Hsame & gone & Hdocs & Hgone); [|apply remove_filter_plain].
    destruct (part_stored s c gone Hs Hdocs) as [Hok Hst].
    destruct (change_messages s c Hs Hsame Hok) as [Hs' Ec]. split; [done|]. split; [done|]. split; [|done].
    intros q0 j. destruct (Hst q0 j) as [?|(? & d & Hd & Hdok & Hk)]; [by left|right]. split; [done|].
    rewrite Forall_forall in Hgone. apply Hgone in Hd. apply (matches_remove q chunk d Hdok) in Hd. by rewrite Hk in Hd.
Qed.

(** The rounds from the [i]-th id on delete the ids left. *)
Lemma remove_loop_removes q ids : forall fuel i n s s' n' err,
  (length ids - i <= fuel)%nat -> mongo_inv s -> remove_loop fuel i q ids n s = (s', (n', err)) ->
  mongo_inv s' /\ configurations s' = configurations s /\
  (forall q0 j, mongo_stored s' q0 j = mongo_stored s q0 j \/ mongo_stored s' q0 j = None /\ q0 = q /\ j ∈ drop i ids) /\
  (err = None ->
     (forall q0 j, mongo_stored s' q0 j =
        if decide (q0 = q /\ j ∈ drop i ids) then None else mongo_stored s q0 j) /\
     (NoDup ids -> n' = n + Z.of_nat (length (stored_ids s q (drop i ids))))).
Proof using HM.
  induction fuel as [|fuel IH]; intros i n s s' n' err Hf Hs; cbn [remove_loop];
    (destruct (Nat.ltb_spec i (length ids)) as [Hi|Hi]; [|
      intros [= <- <- <-]; rewrite drop_ge by lia; split_and!; auto; intros _; split;
        [intros; by rewrite decide_False by set_solver|cbn; lia]]); [lia|].
  destruct (attemptChunkDeletion i ids q s) as [s1 res] eqn:E.
  apply chunk_deletion in E as (Hs1 & Ec1 & Hany1 & H1); [|done].
  set (chunk := take deleteChunkSize (drop i ids)) in *. set (rest := drop (i + deleteChunkSize) ids).
  assert (Hsplit : drop i ids = chunk ++ rest) by (unfold chunk, rest; by rewrite <- drop_drop, take_drop).
  destruct res as [k|e]; cycle 1.
  { intros [= <- <- <-]. split_and!; try done. intros q0 j. rewrite Hsplit, elem_of_app. naive_solver. }
  intros Hr.
  apply IH in Hr as (Hs' & Ec & Hany & H2); [|unfold deleteChunkSize; lia|done].
  destruct (H1 k eq_refl) as [Hst1 Hk]. split; [done|]. split; [congruence|]. split.
  { intros q0 j. fold rest in Hany. rewrite Hsplit, elem_of_app. destruct (Hany q0 j) as [-> |(? & ? & ?)]; naive_solver. }
  intros He. destruct (H2 He) as [Hst2 Hn]. fold rest in Hst2, Hn. rewrite Hsplit. split.
  - intros q0 j. rewrite Hst2, Hst1. pose proof (elem_of_app chunk rest j) as Happ.
    repeat case_decide; tauto.
  - intros Hnd. assert (Hnd' : NoDup (chunk ++ rest)).
    { rewrite <- Hsplit. eapply sublist_NoDup; [exact Hnd|apply sublist_drop]. }
    apply NoDup_app in Hnd' as (Hnc & Hdis & _). rewrite (Hn Hnd), (Hk Hnc).
    unfold stored_ids at 3. rewrite List.filter_app, length_app. fold (stored_ids s q chunk).
    assert (Hext : stored_ids s1 q rest = List.filter (fun j => bool_decide (is_Some (mongo_stored s q j))) rest).
    { unfold stored_ids. apply filter_ext_in. intros j Hj. apply list_elem_of_In in Hj. rewrite Hst1, decide_False; [done|].
      intros [_ Hjc]. by apply (Hdis j). }
    rewrite Hext. lia.
Qed.

Lemma mongo_Remove_removes q ids s s' n err :
  mongo_inv s -> Remove q ids s = (s', (n, err)) ->
  mongo_inv s' /\ configurations s' = configurations s /\
  (forall q0 j, mongo_stored s' q0 j = mongo_stored s q0 j \/ mongo_stored s' q0 j = None /\ q0 = q /\ j ∈ ids) /\
  (err = None ->
     (forall q0 j, mongo_stored s' q0 j =
        if decide (q0 = q /\ j ∈ ids) then None else mongo_stored s q0 j) /\
     (NoDup ids -> n = Z.of_nat (length (stored_ids s q ids)))).
Proof using HM.
  intros Hs. unfold Remove. destruct (Nat.eqb_spec (length ids) 0) as [E|E].
  - intros [= <- <- <-]. destruct ids; [|done]. split_and!; auto. intros _.
    split; [|done]. intros q0 j. by rewrite decide_False by set_solver.
  - intros Hr. apply remove_loop_removes in Hr; [|lia|done]. by rewrite drop_0 in Hr.
Qed.
(** ** Configurations *)

Lemma mongo_config_Some s q c :
  mongo_inv s -> mongo_config s q = Some c <->
  exists d, d ∈ configurations s /\ config_ok d /\ c = read_configuration d /\ cfg_Queue c = q.
Proof using Type.
  intros [_ _ _ Hc]. unfold mongo_config. rewrite fmap_Some. split.
  - intros (d & Hd & ->). apply (find_key_Some (get_string "_id") config_ok) in Hd as [Hd Hk]; [|done]. exists d.
    split_and!; try done. by apply (elem_of_coll (get_string "_id") config_ok) in Hd as [? _].
  - intros (d & Hd & _ & -> & Hk). exists d. split; [|done]. by apply (find_key_Some (get_string "_id") config_ok).
Qed.

Lemma matches_config q d : config_ok d -> matches [("_id", BString q)] d = true <-> get_string "_id" d = q.
Proof using Type.
  intros Hd. unfold matches. cbn [forallb fst snd]. rewrite eqb_string_value by apply cok_id, Hd.
  rewrite andb_true_r, String.eqb_eq. naive_solver.
Qed.

Definition config_model (q : string) (n : Z) : UpdateOneModel :=
  {| m_filter := [("_id", BString q)]; m_update := [("$set", BDoc [("max_elements", BInt n)])];
     m_upsert := true |}.

Lemma config_keyed q n : 0 <= n -> keyed_update (get_string "_id") config_ok (config_model q n) q.
Proof using Type.
  intros Hn. split; [intros d; apply matches_config| |].
  - intros d d' Hd Hk. change (apply_update false _ d) with (Some (doc_set "max_elements" (BInt n) d)).
    intros [= <-]. assert (Hs : get_string "_id" (doc_set "max_elements" (BInt n) d) = get_string "_id" d)
      by (unfold get_string; by rewrite doc_get_set).
    split; [|by rewrite Hs]. destruct Hd as [Ht Hi Hm]. split.
    + eapply typed_changed; [apply (changed_set d d []), changed_refl|exact Ht|done].
    + by rewrite Hs, doc_get_set.
    + unfold get_int. by rewrite doc_get_set.
  - intros _ hex d' _. change (apply_update true _ _)
      with (Some [("_id", BString q); ("max_elements", BInt n)]). intros [= <-]. split; [|done]. by split.
Qed.

Lemma config_updated q n docs docs' a b :
  0 <= n -> configs_ok docs -> update_step (oid_ok (C := C)) (config_model q n) docs docs' a b ->
  configs_ok docs' /\
  (forall q', q' <> q -> find_config docs' q' = find_config docs q') /\
  exists d, find_config docs' q = Some d /\ read_configuration d = {| cfg_Queue := q; MaxElements := n |}.
Proof using Type.
  intros Hn Hok Hs. apply (update_step_key _ _ _ _ _ _ _ _ Hok (config_keyed q n Hn)) in Hs
    as ((Hok' & Hother & Hd) & _). split; [done|]. split; [done|].
  destruct (find_config docs q) as [d|] eqn:E.
  - destruct Hd as (d' & Hd' & Hu). exists d'. split; [done|].
    change (apply_update false _ d) with (Some (doc_set "max_elements" (BInt n) d)) in Hu. injection Hu as <-.
    apply (find_key_Some (get_string "_id") config_ok) in E as [_ Hk]; [|done].
    unfold read_configuration, get_string, get_int. rewrite !doc_get_set. cbn. unfold get_string in Hk. by rewrite Hk.
  - destruct Hd as (hex & d' & Hd' & _ & Hu). exists d'. split; [done|].
    change (apply_update true _ _) with (Some [("_id", BString q); ("max_elements", BInt n)]) in Hu.
    by injection Hu as <-.
Qed.

(** The edit of a limit; 0 elements are no edit. *)
Lemma Edit_run cfg s :
  EditQueueConfiguration cfg s =
  if MaxElements cfg =? 0 then (s, None)
  else let '(c, res) := UpdateOne (queueConfigurationCollection s)
                          (config_model (cfg_Queue cfg) (MaxElements (normalized cfg))) (client s) in
       (with_client c s, match res with inl _ => None | inr err => Some err end).
Proof using Type.
  unfold EditQueueConfiguration, config_model. destruct (Z.eqb_spec (MaxElements cfg) 0) as [|Hne]; [done|].
  cbn [negb normalized MaxElements]. replace (if MaxElements cfg <? 0 then 0 else MaxElements cfg)
    with (Z.max 0 (MaxElements cfg)); [done|]. destruct (Z.ltb_spec (MaxElements cfg) 0); lia.
Qed.

Lemma Edit_edits cfg s s' err :
  mongo_inv s -> EditQueueConfiguration cfg s = (s', err) ->
  mongo_inv s' /\ messages s' = messages s /\
  (forall q, q <> cfg_Queue cfg -> mongo_config s' q = mongo_config s q) /\
  (err = None -> mongo_config s' (cfg_Queue cfg) =
     if MaxElements cfg =? 0 then mongo_config s (cfg_Queue cfg) else Some (normalized cfg)).
Proof using HM.
  intros Hs. rewrite Edit_run. destruct (Z.eqb_spec (MaxElements cfg) 0) as [|Hne]; [by intros [= <- <-]|].
  set (n := MaxElements (normalized cfg)). assert (Hn : 0 <= n) by (unfold n; cbn; lia).
  destruct (UpdateOne _ _ _) as [c [r|e]] eqn:E; intros [= <- <-].
  - apply mongo_UpdateOne in E as [Hsame Hstep]; [|done].
    apply config_updated in Hstep as (Hok & Hother & d & Hd & Hr); [|done|apply Hs].
    destruct (change_configurations s c Hs Hsame Hok) as [Hs' Em]. split; [done|]. split; [done|]. split.
    + intros q Hq. unfold mongo_config, configurations. cbn. by rewrite Hother.
    + intros _. unfold mongo_config, configurations. cbn. by rewrite Hd; cbn; rewrite Hr.
  - apply mongo_UpdateOne_error in E as [Hsame [Hdocs|(a & b & Hstep)]]; [| |done].
    + destruct (change_configurations s c Hs Hsame) as [Hs' Em]; [rewrite Hdocs; apply Hs|].
      split; [done|]. split; [done|]. split; [|done]. intros q _. unfold mongo_config, configurations. cbn. by rewrite Hdocs.
    + apply config_updated in Hstep as (Hok & Hother & _); [|done|apply Hs].
      destruct (change_configurations s c Hs Hsame Hok) as [Hs' Em]. split; [done|]. split; [done|]. split; [|done].
      intros q Hq. unfold mongo_config, configurations. cbn. by rewrite Hother.
Qed.

Lemma Get_gets q s c : mongo_inv s -> GetQueueConfiguration q s = (c, None) -> c = mongo_config s q.
Proof using HM.
  intros Hs. unfold GetQueueConfiguration. destruct (FindOne _ _ _) as [[d|]|] eqn:E; [| |done];
    apply mongo_FindOne in E; try done; fold (configurations s) in E.
  - destruct E as [Hd Hm]. pose proof (elem_of_coll (get_string "_id") config_ok _ _ (inv_configs s Hs) Hd) as [Hok _].
    rewrite (decode_configuration_doc d (cok_typed d Hok)). intros [= <-]. symmetry.
    apply mongo_config_Some; [done|]. exists d. split_and!; try done. by apply matches_config in Hm.
  - intros [= <-]. symmetry. apply eq_None_not_Some. intros [c Hc].
    apply mongo_config_Some in Hc as (d & Hd & Hok & -> & Hq); [|done].
    rewrite Forall_forall in E. specialize (E _ Hd). apply not_true_iff_false in E. apply E.
    by apply matches_config.
Qed.

Lemma List_lists s l :
  mongo_inv s -> ListQueueConfigurations s = (l, None) ->
  NoDup (cfg_Queue <$> l) /\ forall c, c ∈ l <-> mongo_config s (cfg_Queue c) = Some c.
Proof using HM.
  intros Hs. unfold ListQueueConfigurations. destruct (mongo_Find _ _ _ _) as [ds|] eqn:E; [|done].
  apply (mongo_Find_finds _ _ _ []) in E as (found & Hfound & _ & ->); [|done..].
  rewrite filter_true in Hfound. fold (configurations s) in Hfound. cbn [find_limit fa_Limit no_options].
  assert (Hproj : map (project []) found = found).
  { rewrite <- (map_id found) at 2. apply map_ext. intros d. unfold project.
    rewrite <- (filter_true d) at 2. apply filter_ext. intros kv. apply orb_true_r. }
  unfold find_limit. cbn [fa_Limit no_options Z.eqb]. rewrite Hproj, (decode_all_map _ read_configuration).
  - intros [= <-]. rewrite <- list_fmap_compose. split.
    + rewrite Hfound. apply (inv_configs s Hs).
    + intros c. rewrite mongo_config_Some by done.
      change (map read_configuration found) with (read_configuration <$> found).
      rewrite Hfound, list_elem_of_fmap. split.
      * intros (d & -> & Hd). exists d. split_and!; try done.
        by apply (elem_of_coll (get_string "_id") config_ok) in Hd as [? _]; [|apply Hs].
      * intros (d & Hd & _ & -> & _). by exists d.
  - rewrite Hfound. apply Forall_forall. intros d Hd.
    apply (elem_of_coll (get_string "_id") config_ok) in Hd as [Hd _]; [|apply Hs]. by apply decode_configuration_doc, cok_typed.
Qed.

(** ** Flush *)

Lemma Flush_empties s s' n :
  mongo_inv s -> Flush s = (s', (n, None)) ->
  mongo_inv s' /\ messages s' = [] /\ configurations s' = [] /\
  n = Z.of_nat (length (messages s) + length (configurations s)).
Proof using HM.
  intros Hs. unfold Flush. destruct (DeleteMany (messagesCollection s) [] (client s)) as [c1 [k1|]] eqn:E1; [|done].
  destruct (DeleteMany _ [] c1) as [c2 [k2|]] eqn:E2; [|done]. intros [= <- <-].
  apply mongo_DeleteMany in E1 as (Hsame1 & Hd1 & Hk1); [|done].
  apply mongo_DeleteMany in E2 as (Hsame2 & Hd2 & Hk2); [|done].
  assert (Hnone : forall docs : list Doc, List.filter (fun d => negb (matches [] d)) docs = []) by (by induction docs).
  rewrite Hnone in Hd1, Hd2. apply Permutation_nil_r in Hd1, Hd2.
  change (matches []) with (fun _ : Doc => true) in Hk1, Hk2. rewrite filter_true in Hk1, Hk2.
  pose proof (inv_apart s Hs) as Hne.
  assert (Ec : coll_docs c1 (queueConfigurationCollection s) = configurations s) by (by apply Hsame1).
  assert (Em : messages (with_client c2 s) = []).
  { unfold messages. cbn. rewrite <- Hd1. apply Hsame2. by apply not_eq_sym. }
  split; [|split; [done|split; [done|]]].
  - split; [apply Hs|done|rewrite Em; split; constructor|unfold configurations; cbn; rewrite Hd2; split; constructor].
  - rewrite Hk1, Hk2, Ec. fold (messages s). lia.
Qed.

Lemma delete_all_ok {K} `{EqDecision K} (key : Doc -> K) (ok : Doc -> Prop) coll c c' r :
  DeleteMany coll [] c = (c', r) -> coll_ok key ok (coll_docs c coll) ->
  same_other_docs coll c c' /\ coll_ok key ok (coll_docs c' coll).
Proof using HM.
  intros E Hok. destruct r as [n|e].
  - apply mongo_DeleteMany in E as (Hsame & Hd & _); [|done]. split; [done|].
    apply (coll_ok_part key ok (coll_docs c coll) (coll_docs c coll)); [done|]. rewrite Hd.
    assert (Hnone : forall docs : list Doc, List.filter (fun d => negb (matches [] d)) docs = []) by (by induction docs).
    by rewrite Hnone, app_nil_r.
  - apply mongo_DeleteMany_error in E as (Hsame & gone & Hd & _); [|done]. split; [done|].
    by apply (coll_ok_part key ok (coll_docs c coll) gone).
Qed.

Lemma Flush_keeps s s' r : mongo_inv s -> Flush s = (s', r) -> mongo_inv s'.
Proof using HM.
  intros [Hp Hne Hm Hc]. unfold Flush.
  destruct (DeleteMany (messagesCollection s) [] (client s)) as [c1 r1] eqn:E1.
  apply (delete_all_ok doc_key message_ok) in E1 as (Hsame1 & Hm1); [|done].
  assert (Hc1 : configs_ok (coll_docs c1 (queueConfigurationCollection s))) by (by unfold coll_docs; rewrite Hsame1).
  destruct r1 as [k1|e1]; [|by intros [= <- _]].
  destruct (DeleteMany _ [] c1) as [c2 r2] eqn:E2.
  apply (delete_all_ok (get_string "_id") config_ok) in E2 as (Hsame2 & Hc2); [|done].
  assert (Hm2 : messages_ok (coll_docs c2 (messagesCollection s))) by (by unfold coll_docs; rewrite Hsame2 by (by apply not_eq_sym)).
  destruct r2; intros [= <- _]; by split.
Qed.

(** ** The contract *)

#[export] Instance MongoStorage_spec : StorageSpec (MongoStorage C).
Proof using HM.
  refine {|
    storage_inv := mongo_inv;
    queue_name_ok := fun _ => True;
    stored := mongo_stored;
    config := mongo_config;
    storage_hides := false;
    view := mongo_view;
    kept_time := date_precision
  |}.
  - intros s q i m Hs Hm. apply mongo_stored_Some in Hm as (d & _ & Hd & -> & [= <- <-]); [|done].
    split_and!; try done; [apply (ok_queue d Hd)|apply (ok_id d Hd)].
  - intros env ms s s' n k Hs _ Hr. apply Insert_inserts in Hr as (Hs' & Ec & Hr); [|done].
    destruct (Hr n k eq_refl) as (_ & ? & ? & ? & ? & ? & _). split_and!; try done.
    intros q. unfold config, mongo_config. by rewrite Ec.
  - intros env ms s s' n k Hs _ Hnd Hr m Hm. apply Insert_inserts in Hr as (_ & _ & Hr); [|done].
    destruct (Hr n k eq_refl) as (_ & _ & _ & _ & _ & _ & Hin). destruct (Hin Hnd m Hm) as (v & Hv & Hi).
    exists v. split; [done|]. unfold mongo_inserted in Hi. destruct (mongo_stored s _ _); [by subst v|]. by destruct Hi as (hex & _ & ->).
  - intros env ms s s' r Hs _ Hr. by apply Insert_inserts in Hr as (? & _).
  - intros env opt s _. apply mongo_Find_returns.
  - apply mongo_view_none.
  - intros p m Hp Ha. cbn. by rewrite (asks_keeps _ p Hp Ha).
  - intros p m Hp Ha. cbn. by rewrite (asks_keeps _ p Hp Ha).
  - intros p m Hp Ha. cbn. by rewrite (asks_keeps _ p Hp Ha).
  - intros env opt s ms. apply Find_answers.
  - intros env q ids s s' n Hs Hr. apply mongo_Remove_removes in Hr as (Hs' & Ec & _ & Hr); [|done].
    destruct (Hr eq_refl) as [H1 H2]. split_and!; try done. intros q'. unfold mongo_config. by rewrite Ec.
  - intros env q ids s s' n e Hs Hr. apply mongo_Remove_removes in Hr as (Hs' & Ec & Hr & _); [|done].
    split_and!; try done; [intros q'; unfold mongo_config; by rewrite Ec|].
    intros q' i. destruct (Hr q' i) as [?|(? & _)]; auto.
  - intros env m s s' n Hs _ Hr. apply Ack_acks in Hr as (Hs' & Ec & Hr); [|done].
    destruct (Hr n eq_refl) as (_ & Hne & Hm). split_and!; try done.
    + intros q'. unfold mongo_config. by rewrite Ec.
    + destruct (mongo_stored s _ _) as [v|]; [|done]. destruct Hm as (total & Hm & _). by eexists.
  - intros env m s s' n Hs _ Hr. apply Nack_nacks in Hr as (Hs' & Ec & Hr); [|done].
    destruct (Hr n eq_refl) as (_ & Hne & Hm). split_and!; try done.
    + intros q'. unfold mongo_config. by rewrite Ec.
    + destruct (mongo_stored s _ _) as [v|]; [|done]. by eexists.
  - intros env opt copt s n. apply mongo_Count_counts.
  - intros env cfg s s' Hs Hr. apply Edit_edits in Hr as (Hs' & Em & Hne & Hc); [|done].
    split; [done|]. split; [intros q i; unfold mongo_stored; by rewrite Em|].
    intros q. destruct (Z.eqb_spec (MaxElements cfg) 0) as [Hz|Hz].
    + rewrite decide_False by tauto. destruct (decide (q = cfg_Queue cfg)) as [->|?]; auto.
    + destruct (decide (q = cfg_Queue cfg)) as [->|Hq]; [rewrite decide_True by done; auto|].
      rewrite decide_False by tauto. auto.
  - intros env cfg s s' e Hs Hr. apply Edit_edits in Hr as (Hs' & Em & Hne & _); [|done].
    split; [done|]. split; [intros q i; unfold mongo_stored; by rewrite Em|done].
  - intros env q s c Hs. by apply Get_gets.
  - intros s q c Hs Hc. apply mongo_config_Some in Hc as (d & _ & Hd & -> & Hq); [|done].
    split; [done|]. apply (cok_max d Hd).
  - intros env s l Hs. by apply List_lists.
  - intros env s s' n Hs Hr. apply Flush_empties in Hr as (Hs' & Em & Ec & _); [|done].
    split; [done|]. unfold mongo_stored, mongo_config. by rewrite Em, Ec.
Defined.

#[export] Instance MongoStorage_content : InsertContent (MongoStorage C).
Proof using HM.
  refine {| overwrites_empty := false; keeps_timeless := false |}.
  intros env ms s s' n k Hs _ Hnd Hr m Hm. apply Insert_inserts in Hr as (_ & _ & Hr); [|done].
  destruct (Hr n k eq_refl) as (_ & _ & _ & _ & _ & _ & Hin). destruct (Hin Hnd m Hm) as (v & Hv & Hi).
  exists v. split; [done|]. unfold mongo_inserted in Hi. unfold stored, MongoStorage_spec.
  destruct (mongo_stored s _ _) as [b|]; [subst v|destruct Hi as (hex & _ & ->)]; (split; [split|done]); cbn;
    repeat case_match; cbn; try done; try (by bool_hyps); by destruct (Payload m), (Metadata m).
Defined.

(** The names listed are those of the messages stored. *)
Lemma distinct_names s field l (name : Message -> string) :
  mongo_inv s -> top_level field = true ->
  (forall d, name (read_message d) = get_string field d) ->
  (forall d, message_ok d -> doc_get field d = Some (BString (get_string field d))) ->
  distinct field s = (l, None) ->
  NoDup l /\ forall n, n ∈ l <-> exists q i m, mongo_stored s q i = Some m /\ name m = n.
Proof using HM.
  intros Hs Htop Hof Hget. unfold distinct. destruct (Distinct _ _ _ _) as [l0|] eqn:E; [|done].
  intros [= <-]. pose proof (inv_messages s Hs) as [Hok _]. rewrite Forall_forall in Hok.
  apply mongo_Distinct in E as [Hnd Hl]; [|done|done|]; cycle 1.
  { apply Forall_forall. intros d Hd. by rewrite (Hget d (Hok d Hd)). }
  split; [done|]. intros n. rewrite Hl. fold (messages s). split.
  - intros (d & Hd & _ & Hn). rewrite (Hget d (Hok d Hd)) in Hn. injection Hn as <-.
    exists (get_string "queue" d), (get_string "id" d), (read_message d). split; [|apply Hof].
    apply mongo_stored_Some; [done|]. exists d. split_and!; try done. by apply Hok.
  - intros (q & i & m & Hm & <-). apply mongo_stored_Some in Hm as (d & Hd & Hdok & -> & _); [|done].
    exists d. rewrite (Hget d Hdok), Hof. done.
Qed.
End Spec.
