(* ===== verification/MongoProps.v ===== *)
(** * Properties of the MongoDB storage

    What queries find, what insertions and answers leave in the documents,
    and the loop of the removals; with witnesses on the model server. *)

From S2P Require Import Prelude GoStrings Float64 Dtime Message Cache Fixtures Storage.
From S2P Require Import Mongo MongoModel MongoStorage MongoDocs MongoFacts MongoSpec.
#[local] Open Scope string_scope.
#[local] Open Scope list_scope.
#[local] Open Scope Z_scope.

Section Properties.
Context {C : Type} {HO : MongoOps C} {HM : Mongo C} {HA : AnyCodec} {HB : BsonDecoder}.
Implicit Types s : MongoStorage C.

(** C26. A query of the MongoDB storage finds exactly the messages its filter
    means: without limit and projection, the messages returned are the stored
    ones in the queue, with the prefix, among the ids and up to the expiry
    date the filter gives, and after the one breakpoint and up to the other in
    the order of the internal ids; each of them once. *)
Theorem mongo_Find_exact opt s ms
    (Hs : mongo_inv s) (Hp : opt_projection opt = None) (Hl : opt_limit opt = 0)
    (Hr : Find opt s = Ret (ms, None)) :
  NoDup (msg_key <$> ms) /\
  forall m, m ∈ ms <-> mongo_stored s (Queue m) (ID m) = Some m /\
    filter_holds (opt_filter opt) m /\ breakpoints_hold (C := C) (opt_filter opt) m.
Proof using HM.
  apply Find_run in Hr as (filter & found & Hf & Hfound & _ & ->); [|done|by rewrite Hp|by rewrite Hl].
  rewrite Hp, Hl. cbn [find_limit Z.eqb].
  assert (Hview : mongo_view None <$> (read_message <$> found) = read_message <$> found).
  { rewrite <- (list_fmap_id (read_message <$> found)) at 2. apply list_fmap_ext. intros; apply mongo_view_none. }
  unfold find_limit. cbn [Z.eqb]. rewrite Hview. split.
  - rewrite <- list_fmap_compose, Hfound. destruct (inv_messages s Hs) as [_ Hnd].
    eapply sublist_NoDup; [exact Hnd|apply fmap_sublist, filter_sublist].
  - intros m. rewrite Hfound, mongo_stored_Some, list_elem_of_fmap by done. setoid_rewrite elem_of_filter_iff.
    split.
    + intros (d & -> & Hd & Hm). destruct (elem_of_coll doc_key message_ok _ _ (inv_messages s Hs) Hd) as [Hok _].
      apply (matches_message _ _ _ Hok Hf) in Hm. split; [by exists d|done].
    + intros ((d & Hd & Hok & -> & _) & Hm). exists d. split; [done|]. split; [done|].
      by apply (matches_message _ _ _ Hok Hf).
Qed.

(** The query for one message. *)
Definition find_one (q i : string) : option FindOptions := Some {|
  Projection := None; Sort := None; Limit := 1;
  opt_InternalFilter := Some {|
    InternalIdBreakpointGt := ""; InternalIdBreakpointLte := ""; Ids := Some [i]; f_Queue := q;
    f_QueuePrefix := ""; f_ExpiryDate := None |};
  Retry := false; Comment := "" |}.

Lemma find_one_found (env : Env) s q i v ms :
  mongo_inv s -> q <> "" -> mongo_stored s q i = Some v -> Find (find_one q i) s = Ret (ms, None) -> ms = [v].
Proof using HM.
  intros Hs Hq Hv Hr. apply (Find_answers env) in Hr as (vs & -> & [Hnd Hall Hlim Hcomp _]); [|done..].
  rewrite (list_fmap_ext _ id), list_fmap_id by (intros; apply mongo_view_none).
  pose proof Hv as (d & _ & _ & _ & [= <- <-])%mongo_stored_Some; [|done].
  assert (Hsel : selected false env (opt_filter (find_one (Queue v) (ID v))) v).
  { split; [|done]. cbn. split; [by right|]. split; [by left|]. split; [|done]. apply list_elem_of_singleton. done. }
  rewrite Forall_forall in Hall. specialize (Hlim ltac:(done)). cbn in Hlim.
  destruct (decide (v ∈ vs)) as [Hin|Hni]; cycle 1.
  { destruct (Hcomp _ _ v Hv Hsel Hni) as [_ Hlen]. cbn in Hlen. destruct vs as [|x vs]; [done|].
    destruct (Hall x (list_elem_of_here _ _)) as [Hx [(Hqx & _ & Hix & _) _]]. cbn in Hqx, Hix.
    apply list_elem_of_singleton in Hix. destruct Hqx as [|Hqx]; [done|]. rewrite Hqx, Hix, Hv in Hx.
    injection Hx as <-. destruct Hni. apply list_elem_of_here. }
  destruct vs as [|x [|y vs]]; [by apply elem_of_nil in Hin| |cbn in Hlim; lia].
  by apply list_elem_of_singleton in Hin as <-.
Qed.

(** C27. What is inserted is found: after an insertion that succeeds, a query
    for the queue and the id of one of its messages returns that message
    alone.  A new message has the content, the score and the date of the one
    inserted, to the millisecond, and none of its lock, its breakpoint or its
    timeless flag; a message that was stored takes the new content, except
    the empty fields, and keeps its score, its last use and its counters. *)
Theorem mongo_insert_roundtrip (env : Env) ms s s' n k m found
    (Hs : mongo_inv s) (Hnd : NoDup (msg_key <$> ms)) (Hm : m ∈ ms)
    (Hi : Insert env ms s = (s', ((n, k), None)))
    (Hf : Find (find_one (Queue m) (ID m)) s' = Ret (found, None)) :
  0 <= n /\ 0 <= k /\ n + k <= Z.of_nat (length ms) /\
  exists v, found = [v] /\
    match mongo_stored s (Queue m) (ID m) with
    | Some b => v = mongo_updated m b
    | None => exists hex, v = mongo_new hex (Now env) m
    end.
Proof using HM.
  apply Insert_inserts in Hi as (Hs' & _ & Hi); [|done].
  destruct (Hi n k eq_refl) as (Hn & ? & ? & ? & _ & _ & Hin). split_and!; try done.
  destruct (Hin Hnd m Hm) as (v & Hv & Hins). exists v. split.
  - eapply (find_one_found env); [exact Hs'| |exact Hv|exact Hf].
    rewrite Forall_forall in Hn. by apply Hn.
  - unfold mongo_inserted in Hins. destruct (mongo_stored s _ _); [done|].
    destruct Hins as (hex & _ & ->). by exists hex.
Qed.

(** An ack of the MongoDB storage that succeeds changes the message it
    names and no other: its score, lock time, breakpoint, last use and last
    score difference are those of the ack, the difference is added to the
    total, the uses and the acks are counted, and the nacks in a row start
    again from 0.  A nack changes the score and the lock time, counts the
    nacks, and the acks in a row start again from 0.  An answer to a message
    that is not stored changes nothing. *)
Theorem mongo_answer_fields t m s s' n
    (Hs : mongo_inv s)
    (Hr : (match t with LOCK_ACK => Ack m s | LOCK_NACK => Nack m s end) = (s', (n, None))) :
  (forall q i, (q, i) <> msg_key m -> mongo_stored s' q i = mongo_stored s q i) /\
  match mongo_stored s (Queue m) (ID m) with
  | None => mongo_stored s' (Queue m) (ID m) = None
  | Some v =>
      match t with
      | LOCK_ACK => exists total, mongo_stored s' (Queue m) (ID m) = Some (mongo_acked total m v) /\
          added (TotalScoreSubtract v) (LastScoreSubtract m) total
      | LOCK_NACK => mongo_stored s' (Queue m) (ID m) = Some (mongo_nacked m v)
      end
  end.
Proof using HM.
  destruct t.
  - apply Ack_acks in Hr as (_ & _ & Hr); [|done]. by destruct (Hr n eq_refl) as (_ & ? & ?).
  - apply Nack_nacks in Hr as (_ & _ & Hr); [|done]. destruct (Hr n eq_refl) as (_ & ? & ->).
    split; [done|]. by destruct (mongo_stored s _ _).
Qed.

(** ** Removals *)

Lemma remove_loop_fuel q ids : forall fuel fuel' i n s,
  (length ids - i <= fuel * 100)%nat -> (length ids - i <= fuel' * 100)%nat ->
  remove_loop fuel i q ids n s = remove_loop fuel' i q ids n s.
Proof using Type.
  induction fuel as [|fuel IH]; intros [|fuel'] i n s H1 H2; cbn [remove_loop];
    destruct (Nat.ltb_spec i (length ids)); try done; try lia.
  destruct (attemptChunkDeletion _ _ _ _) as [s1 [k|e]]; [|done]. apply IH; unfold deleteChunkSize; lia.
Qed.

(** The loop of a removal ends: a hundredth of the number of ids, rounded
    up, is enough for its rounds, whatever the server answers.  Without an
    error none of the ids is left, no other message is touched, and the number
    reported is that of the ids that were stored; with one, only messages with
    one of the ids may be gone, and the others are as they were. *)
Theorem mongo_Remove_terminates fuel q ids s
    (Hs : mongo_inv s) (Hfuel : (length ids <= fuel * 100)%nat) :
  exists s' n err, remove_loop fuel 0 q ids 0 s = (s', (n, err)) /\ Remove q ids s = (s', (n, err)) /\
    mongo_inv s' /\
    (forall q0 i, mongo_stored s' q0 i = mongo_stored s q0 i \/
       mongo_stored s' q0 i = None /\ q0 = q /\ i ∈ ids) /\
    (err = None ->
       (forall q0 i, mongo_stored s' q0 i =
          if decide (q0 = q /\ i ∈ ids) then None else mongo_stored s q0 i) /\
       (NoDup ids -> n = Z.of_nat (length (stored_ids s q ids)))).
Proof using HM.
  destruct (Remove q ids s) as [s' [n err]] eqn:E. exists s', n, err.
  pose proof (mongo_Remove_removes q ids s s' n err Hs E) as (Hs' & _ & Hany & Hok).
  split; [|done]. etransitivity; [|exact E]. unfold Remove. destruct (Nat.eqb_spec (length ids) 0) as [Hz|Hz].
  - destruct ids; [by destruct fuel|done].
  - apply remove_loop_fuel; lia.
Qed.
End Properties.

(** ** Witnesses, on the model server *)

#[local] Existing Instances model_codec model_decoder.

Definition new_mongo : MongoStorage MongoModel :=
  NewMongoStorage {| data := ∅; next_oid := 1; down := false |} "deckard" "queue" "queue_configuration".

Lemma new_mongo_inv : mongo_inv new_mongo.
Proof. split; [done|done|split; constructor|split; constructor]. Qed.

Definition ab_messages : list Message := [msg "q" "a" 10 0; msg "q" "b" 5 0].

Lemma ab_keys : NoDup (msg_key <$> ab_messages).
Proof. apply (bool_decide_unpack _). by vm_compute. Qed.

Definition ab_mongo : MongoStorage MongoModel := (Insert (at_ms 1000) ab_messages new_mongo).1.

Lemma ab_mongo_insert : Insert (at_ms 1000) ab_messages new_mongo = (ab_mongo, ((2, 0), None)).
Proof. vm_compute. reflexivity. Qed.

Lemma ab_mongo_inv : mongo_inv ab_mongo.
Proof.
  pose proof (Insert_inserts _ _ _ _ _ new_mongo_inv ab_mongo_insert) as (? & _). done.
Qed.

(** The message found by a query. *)
Definition found_by (opt : option FindOptions) (s : MongoStorage MongoModel) : list Message :=
  match Find opt s with Ret (ms, _) => ms | Panic _ => [] end.

(** The messages of the queue after the first internal id. *)
Definition after_first : option FindOptions := Some {|
  Projection := None; Sort := None; Limit := 0;
  opt_InternalFilter := Some {|
    InternalIdBreakpointGt := hex_digits 24 1; InternalIdBreakpointLte := ""; Ids := None;
    f_Queue := "q"; f_QueuePrefix := ""; f_ExpiryDate := None |};
  Retry := false; Comment := "" |}.

Lemma mongo_Find_exact_witness :
  let ms := found_by after_first ab_mongo in
  Find after_first ab_mongo = Ret (ms, None) /\ (ID <$> ms) = ["b"] /\
  forall m, m ∈ ms <-> mongo_stored ab_mongo (Queue m) (ID m) = Some m /\
    filter_holds (opt_filter after_first) m /\
    breakpoints_hold (C := MongoModel) (opt_filter after_first) m.
Proof.
  intros ms. assert (E : Find after_first ab_mongo = Ret (ms, None)) by (vm_compute; reflexivity).
  split; [exact E|]. split; [vm_compute; reflexivity|].
  destruct (mongo_Find_exact after_first ab_mongo ms ab_mongo_inv eq_refl eq_refl E) as [_ Hm]. exact Hm.
Defined.

Lemma mongo_insert_roundtrip_witness :
  let m := msg "q" "a" 10 0 in
  let found := found_by (find_one "q" "a") ab_mongo in
  Find (find_one "q" "a") ab_mongo = Ret (found, None) /\
  exists hex, found = [mongo_new hex (Now (at_ms 1000)) m].
Proof.
  intros m found.
  assert (E : Find (find_one "q" "a") ab_mongo = Ret (found, None)) by (vm_compute; reflexivity).
  split; [exact E|].
  destruct (mongo_insert_roundtrip (at_ms 1000) ab_messages new_mongo ab_mongo 2 0 m found
    new_mongo_inv ab_keys (list_elem_of_here _ _) ab_mongo_insert E) as (_ & _ & _ & v & Hf & hex & Hv).
  exists hex. rewrite Hf, Hv. reflexivity.
Defined.

Lemma mongo_answer_fields_witness :
  let s' := (Ack (msg "q" "b" 7 500) ab_mongo).1 in
  Ack (msg "q" "b" 7 500) ab_mongo = (s', (1, None)) /\
  mongo_stored s' "q" "a" = mongo_stored ab_mongo "q" "a" /\
  exists v total, mongo_stored ab_mongo "q" "b" = Some v /\
    mongo_stored s' "q" "b" = Some (mongo_acked total (msg "q" "b" 7 500) v).
Proof.
  intros s'. assert (E : Ack (msg "q" "b" 7 500) ab_mongo = (s', (1, None))) by (vm_compute; reflexivity).
  split; [exact E|].
  destruct (mongo_answer_fields LOCK_ACK (msg "q" "b" 7 500) ab_mongo s' 1 ab_mongo_inv E) as [Hne Hm].
  split; [by apply Hne|]. change (Queue (msg "q" "b" 7 500)) with "q" in Hm.
  change (ID (msg "q" "b" 7 500)) with "b" in Hm.
  destruct (mongo_stored ab_mongo "q" "b") as [v|] eqn:Ev.
  - destruct Hm as (total & Hm & _). exists v, total. split; [reflexivity|exact Hm].
  - vm_compute in Ev. discriminate.
Defined.

Lemma mongo_Remove_terminates_witness :
  exists s' n err, remove_loop 1 0 "q" ["a"; "c"] 0 ab_mongo = (s', (n, err)) /\
    (n, err) = (1, None) /\ mongo_stored s' "q" "a" = None.
Proof.
  destruct (mongo_Remove_terminates 1 "q" ["a"; "c"] ab_mongo ab_mongo_inv) as
    (s' & n & err & Hl & Hr & _ & _ & Hok); [cbn; lia|].
  exists s', n, err. split; [exact Hl|].
  assert (E : (Remove "q" ["a"; "c"] ab_mongo).2 = (1, None)) by (vm_compute; reflexivity).
  rewrite Hr in E. split; [exact E|]. injection E as -> ->. destruct (Hok eq_refl) as [Hst _].
  rewrite Hst, decide_True; [reflexivity|]. split; [reflexivity|]. apply list_elem_of_here.
Defined.
