(* ===== verification/StorageEquivalence.v ===== *)
(** * Two storages are interchangeable

    Any two implementations of the storage contract that run the same
    operations keep the same messages with the same scores, and the same
    configurations: the memory storage stands for the MongoDB one, up to what
    the contract leaves open. *)

From S2P Require Import Prelude GoStrings Float64 Dtime Message Fixtures Storage.
From S2P Require Import MemoryStorage MemoryStorageFacts StorageProps QueueProps.
From S2P Require Import Mongo MongoModel MongoStorage MongoDocs MongoFacts MongoSpec MongoProps.
#[local] Open Scope string_scope.
#[local] Open Scope list_scope.
#[local] Open Scope Z_scope.

(** The operations that change a storage. *)
Inductive change :=
  | CInsert (messages : list Message)
  | CAck (m : Message)
  | CNack (m : Message)
  | CRemove (queue : string) (ids : list string)
  | CEdit (cfg : QueueConfiguration)
  | CFlush.

(** The messages of one insertion have distinct keys. *)
Definition change_ok (op : change) : Prop :=
  match op with CInsert ms => NoDup (msg_key <$> ms) | _ => True end.

Section One.
Context {S : Type} `{HS : StorageSpec S}.

Definition run_change (env : Env) (op : change) (s : S) : S * option error :=
  match op with
  | CInsert ms => let '(s', r) := storage_Insert env ms s in (s', r.2)
  | CAck m => let '(s', r) := storage_Ack env m s in (s', r.2)
  | CNack m => let '(s', r) := storage_Nack env m s in (s', r.2)
  | CRemove queue ids => let '(s', r) := storage_Remove env queue ids s in (s', r.2)
  | CEdit cfg => storage_EditQueueConfiguration env cfg s
  | CFlush => let '(s', r) := storage_Flush env s in (s', r.2)
  end.

(** Every operation of the history runs without an error. *)
Fixpoint changes_run (h : list (Env * change)) (s s' : S) : Prop :=
  match h with
  | [] => s' = s
  | (env, op) :: h' => exists s1, run_change env op s = (s1, None) /\ changes_run h' s1 s'
  end.

Definition change_names_ok (op : change) : Prop :=
  match op with
  | CInsert ms => Forall (fun m => queue_name_ok (Queue m)) ms
  | CAck m | CNack m => queue_name_ok (Queue m)
  | _ => True
  end.

(** The scores and limits an operation leaves, from those before it. *)
Definition score_after (op : change) (score : string -> string -> option float64) (q i : string) : option float64 :=
  match op with
  | CInsert ms =>
      match score q i with
      | Some s => Some s
      | None => Score <$> List.find (fun m => bool_decide (msg_key m = (q, i))) ms
      end
  | CAck m | CNack m => if decide ((q, i) = msg_key m) then (fun _ => Score m) <$> score q i else score q i
  | CRemove queue ids => if decide (q = queue /\ i ∈ ids) then None else score q i
  | CEdit _ => score q i
  | CFlush => None
  end.

Definition config_after (op : change) (cfg : string -> option QueueConfiguration) (q : string) :
    option QueueConfiguration :=
  match op with
  | CEdit c => if decide (q = cfg_Queue c /\ MaxElements c <> 0) then Some (normalized c) else cfg q
  | CFlush => None
  | _ => cfg q
  end.

Definition score_of (s : S) (q i : string) : option float64 := Score <$> stored s q i.

Lemma fmap_Some_eq {A B} (f : A -> B) a : f <$> Some a = Some (f a).
Proof using Type. done. Qed.

Lemma fmap_None_eq {A B} (f : A -> B) : f <$> (None : option A) = None.
Proof using Type. done. Qed.

Lemma find_message (ms : list Message) m :
  NoDup (msg_key <$> ms) -> m ∈ ms ->
  List.find (fun m' => bool_decide (msg_key m' = msg_key m)) ms = Some m.
Proof using Type.
  intros Hnd Hm. induction ms as [|m0 ms IH]; [by apply elem_of_nil in Hm|]. cbn.
  rewrite fmap_cons in Hnd. apply NoDup_cons in Hnd as [Hni Hnd].
  apply elem_of_cons in Hm as [->|Hm]; [by rewrite bool_decide_eq_true_2|].
  rewrite bool_decide_eq_false_2; [by apply IH|]. intros E. apply Hni. rewrite E.
  by apply (list_elem_of_fmap_2 msg_key).
Qed.

Lemma answer_scores (s s' : S) m :
  (forall q i, (q, i) <> msg_key m -> stored s' q i = stored s q i) ->
  match stored s (Queue m) (ID m) with
  | None => stored s' (Queue m) (ID m) = None
  | Some v => exists v', stored s' (Queue m) (ID m) = Some v' /\ Score v' = Score m
  end ->
  forall q i, score_of s' q i =
    if decide ((q, i) = msg_key m) then (fun _ => Score m) <$> score_of s q i else score_of s q i.
Proof using Type.
  intros Hne Hm q i. unfold score_of. case_decide as E; [|by rewrite Hne].
  injection E as -> ->. destruct (stored s _ _) as [v|]; cbn; [|by rewrite Hm].
  destruct Hm as (v' & -> & Hv). cbn. by rewrite Hv.
Qed.

(** The contract determines the scores and the limits. *)
Lemma run_change_determined env op (s s' : S) :
  storage_inv s -> change_ok op -> change_names_ok op -> run_change env op s = (s', None) ->
  storage_inv s' /\ (forall q i, score_of s' q i = score_after op (score_of s) q i) /\
  (forall q, config s' q = config_after op (config s) q).
Proof using HS.
  intros Hs Hok Hn Hr. destruct op as [ms|m|m|qn ids|cfg|]; cbn in Hr, Hok, Hn.
  - destruct (storage_Insert env ms s) as [s1 [[n k] e]] eqn:E. injection Hr as <- He. cbn in He. subst e.
    pose proof (spec_storage_Insert_score env ms s s1 n k Hs Hn Hok E) as Hsc.
    apply spec_storage_Insert in E as (Hs' & Hc & _ & _ & _ & Hother & _); [|done..].
    split; [done|]. split; [|done]. intros q i. unfold score_of, score_after.
    destruct (decide ((q, i) ∈ msg_key <$> ms)) as [Hin|Hni].
    + apply list_elem_of_fmap in Hin as (m & [= -> ->] & Hm). destruct (Hsc m Hm) as (v & Hv & Hscore).
      rewrite Hv, fmap_Some_eq, Hscore. destruct (stored s _ _) as [b|]; [done|].
      rewrite fmap_None_eq. change (Queue m, ID m) with (msg_key m). by rewrite (find_message ms m Hok Hm).
    + rewrite Hother by done. destruct (stored s q i) as [b|]; [done|]. rewrite fmap_None_eq.
      destruct (List.find _ ms) as [m|] eqn:Ef; [|done]. apply List.find_some in Ef as [Hm Hk].
      apply bool_decide_eq_true in Hk. destruct Hni. rewrite <- Hk. apply list_elem_of_fmap_2.
      by apply list_elem_of_In.
  - destruct (storage_Ack env m s) as [s1 [n e]] eqn:E. injection Hr as <- He. cbn in He. subst e.
    apply spec_storage_Ack in E as (Hs' & Hc & Hne & Hm); [|done..].
    split; [done|]. split; [|done]. apply answer_scores; [done|].
    destruct (stored s _ _); [|done]. destruct Hm as (v' & Hv' & Hsc & _). by exists v'.
  - destruct (storage_Nack env m s) as [s1 [n e]] eqn:E. injection Hr as <- He. cbn in He. subst e.
    apply spec_storage_Nack in E as (Hs' & Hc & Hne & Hm); [|done..].
    split; [done|]. split; [|done]. apply answer_scores; [done|].
    destruct (stored s _ _); [|done]. destruct Hm as (v' & Hv' & Hsc & _). by exists v'.
  - destruct (storage_Remove env qn ids s) as [s1 [n e]] eqn:E. injection Hr as <- He. cbn in He. subst e.
    apply spec_storage_Remove in E as (Hs' & Hc & Hst & _); [|done]. split; [done|]. split; [|done].
    intros q i. unfold score_of. cbn. rewrite Hst. by case_decide.
  - apply spec_EditQueueConfiguration in Hr as (Hs' & Hst & Hc); [|done]. split; [done|]. split; [|done].
    intros q i. unfold score_of. cbn. by rewrite Hst.
  - destruct (storage_Flush env s) as [s1 [n e]] eqn:E. injection Hr as <- He. cbn in He. subst e.
    apply spec_storage_Flush in E as (Hs' & Hst & Hc); [|done]. split; [done|]. split; [|done].
    intros q i. unfold score_of. by rewrite Hst.
Qed.
End One.

(** What is observed of a storage by its scores and its limits does not depend
    on the implementation. *)
Lemma score_after_ext op f g q i :
  (forall q i, f q i = g q i) -> score_after op f q i = score_after op g q i.
Proof. intros H. destruct op; cbn; by rewrite ?H. Qed.

Lemma config_after_ext op f g q :
  (forall q, f q = g q) -> config_after op f q = config_after op g q.
Proof. intros H. destruct op; cbn; by rewrite ?H. Qed.

Section Two.
Context {S1 S2 : Type} `{HS1 : StorageSpec S1} `{HS2 : StorageSpec S2}.

(** The two storages hold the same messages, with the same scores, and the
    same limits. *)
Definition same_content (s1 : S1) (s2 : S2) : Prop :=
  (forall q i, Score <$> stored s1 q i = Score <$> stored s2 q i) /\
  (forall q, config s1 q = config s2 q).

Lemma storages_alike h (s1 s1' : S1) (s2 s2' : S2)
    (H1 : storage_inv s1) (H2 : storage_inv s2) (Hsame : same_content s1 s2)
    (Hok : Forall (fun x => change_ok x.2) h)
    (Hn1 : Forall (fun x => change_names_ok (S := S1) x.2) h)
    (Hn2 : Forall (fun x => change_names_ok (S := S2) x.2) h)
    (Hr1 : changes_run h s1 s1') (Hr2 : changes_run h s2 s2') :
  storage_inv s1' /\ storage_inv s2' /\ same_content s1' s2'.
Proof using HS1 HS2.
  revert s1 s2 H1 H2 Hsame Hr1 Hr2.
  induction h as [|[env op] h IH]; intros s1 s2 H1 H2 Hsame Hr1 Hr2; [cbn in *; by subst|].
  apply Forall_cons in Hok as [Hop Hok], Hn1 as [Hop1 Hn1], Hn2 as [Hop2 Hn2].
  destruct Hr1 as (t1 & Hc1 & Hr1), Hr2 as (t2 & Hc2 & Hr2).
  apply run_change_determined in Hc1 as (Ht1 & Hs1 & Hg1); [|done..].
  apply run_change_determined in Hc2 as (Ht2 & Hs2 & Hg2); [|done..].
  apply (IH Hok Hn1 Hn2 t1 t2); try done. destruct Hsame as [Hsc Hcf]. split.
  - intros q i. etransitivity; [apply Hs1|]. etransitivity; [|symmetry; apply Hs2]. by apply score_after_ext.
  - intros q. rewrite Hg1, Hg2. by apply config_after_ext.
Qed.
End Two.

(** ** The memory storage and the MongoDB storage *)

Lemma mongo_names_ok {C} {HO : MongoOps C} {HM : Mongo C} {HA : AnyCodec} {HB : BsonDecoder} op :
  change_names_ok (S := MongoStorage C) op.
Proof. destruct op as [ms| | | | |]; try exact I. apply Forall_forall. intros m _. exact I. Qed.

(** C19. The memory storage and the MongoDB storage are interchangeable:
    started with the same content, and run through the same insertions, acks,
    nacks, removals, edits and flushes, none of which fails, they end with the
    same messages, the same scores and the same limits. The queues have no
    colon in their name, and no message is twice in one insertion. *)
Theorem storages_equivalent {C} {HO : MongoOps C} {HM : Mongo C} {HA : AnyCodec} {HB : BsonDecoder}
    h (memory memory' : MemoryStorage) (mongo mongo' : MongoStorage C)
    (H1 : mem_storage_inv memory) (H2 : mongo_inv mongo) (Hsame : same_content memory mongo)
    (Hok : Forall (fun x => change_ok x.2) h)
    (Hnames : Forall (fun x => change_names_ok (S := MemoryStorage) x.2) h)
    (Hr1 : changes_run h memory memory') (Hr2 : changes_run h mongo mongo') :
  mem_storage_inv memory' /\ mongo_inv mongo' /\ same_content memory' mongo'.
Proof.
  apply (storages_alike (HS1 := MemoryStorage_spec) (HS2 := MongoStorage_spec)) with h memory mongo; try done.
  apply Forall_forall. intros x _. apply mongo_names_ok.
Qed.

(** The state a history leaves, whether or not its operations fail. *)
Fixpoint run_changes {S} {HS : Storage S} (h : list (Env * change)) (s : S) : S :=
  match h with [] => s | (env, op) :: h' => run_changes h' (run_change env op s).1 end.

Section Typed.
Context {C : Type} {HO : MongoOps C} {HM : Mongo C} {HA : AnyCodec} {HB : BsonDecoder}.
Implicit Types s : MongoStorage C.

Lemma run_change_keeps env op s : mongo_inv s -> mongo_inv (run_change env op s).1.
Proof using HM.
  intros Hs. destruct op as [ms|m|m|q ids|cfg|]; cbn.
  - destruct (Insert env ms s) as [s' r] eqn:E. by apply Insert_inserts in E as (? & _).
  - destruct (Ack m s) as [s' r] eqn:E. by apply Ack_acks in E as (? & _).
  - destruct (Nack m s) as [s' r] eqn:E. by apply Nack_nacks in E as (? & _).
  - destruct (Remove q ids s) as [s' [n e]] eqn:E. by apply mongo_Remove_removes in E as (? & _).
  - destruct (EditQueueConfiguration cfg s) as [s' e] eqn:E. by apply Edit_edits in E as (? & _).
  - destruct (Flush s) as [s' r] eqn:E. by apply Flush_keeps in E.
Qed.

(** C37. The documents stay well typed: after any insertions, acks, nacks,
    removals, edits and flushes, those that fail included, every document of
    the messages has fields of the types of the struct, no two have the same
    queue and id, and no query fails because a document cannot be decoded:
    it fails only on a breakpoint that is not an object id or because the
    server reports an error. *)
Theorem mongo_documents_typed h s (Hs : mongo_inv s) :
  let s' := run_changes h s in
  Forall (fun d => message_doc d = true) (messages s') /\ NoDup (doc_key <$> messages s') /\
  forall opt ms e, projection_ok (opt_projection opt) = true -> 0 <= opt_limit opt ->
    Find opt s' = Ret (ms, Some e) ->
    getMongoMessage (opt_filter opt) = inr e \/
    exists cause, e = WrapError "error finding storage elements" cause.
Proof using HM.
  assert (Hs' : mongo_inv (run_changes h s)).
  { revert s Hs. induction h as [|[env op] h IH]; intros s Hs; [done|]. by apply IH, run_change_keeps. }
  intros s'. split_and!.
  - apply Forall_forall. intros d Hd.
    by apply ok_typed, (elem_of_coll doc_key message_ok _ _ (inv_messages _ Hs') Hd).
  - apply (inv_messages _ Hs').
  - intros opt ms e Hp Hl Hf. by apply (Find_cases opt s' ms (Some e)) in Hf as (_ & Hf).
Qed.
End Typed.

#[local] Existing Instances model_codec model_decoder.

(** Two messages are added, one is answered, one is removed, and the queue
    gets a limit. *)
Definition ab_history : list (Env * change) := [
  (at_ms 1000, CInsert ab_messages); (at_ms 2000, CAck (msg "q" "b" 7 500));
  (at_ms 3000, CRemove "q" ["a"]); (at_ms 4000, CInsert ab_messages);
  (at_ms 4500, CNack (msg "q" "b" 8 0));
  (at_ms 5000, CEdit {| cfg_Queue := "q"; MaxElements := 10 |})].

(** Whether every operation of a history returns without an error. *)
Fixpoint changes_ok {S} {HS : Storage S} (h : list (Env * change)) (s : S) : bool :=
  match h with
  | [] => true
  | (env, op) :: h' =>
      match run_change env op s with (s1, None) => changes_ok h' s1 | _ => false end
  end.

Lemma changes_ok_run {S} {HS : Storage S} h :
  forall s : S, changes_ok h s = true -> changes_run h s (run_changes h s).
Proof.
  induction h as [|[env op] h IH]; intros s; cbn [changes_ok changes_run run_changes]; [done|].
  destruct (run_change env op s) as [s1 [err|]] eqn:E; [done|]. intros H. exists s1.
  split; [done|]. cbn. by apply IH.
Qed.

Lemma storages_equivalent_witness :
  let memory := run_changes ab_history NewMemoryStorage in
  let mongo := run_changes ab_history new_mongo in
  same_content memory mongo /\ (Score <$> stored mongo "q" "a") = (Score <$> stored memory "q" "a") /\
  docs memory <> ∅.
Proof.
  intros memory mongo.
  assert (Hq : plain_queue "q") by apply plain_q.
  assert (Hr1 : changes_run ab_history NewMemoryStorage memory).
  { apply changes_ok_run. vm_compute. reflexivity. }
  assert (Hr2 : changes_run ab_history new_mongo mongo).
  { apply changes_ok_run. vm_compute. reflexivity. }
  destruct (storages_equivalent ab_history NewMemoryStorage memory new_mongo mongo) as (_ & _ & Hs).
  - apply NewMemoryStorage_inv.
  - exact new_mongo_inv.
  - split; reflexivity.
  - repeat (apply Forall_cons_2; [first [exact I|exact ab_keys]|]). apply Forall_nil_2.
  - repeat constructor; exact Hq.
  - exact Hr1.
  - exact Hr2.
  - split; [exact Hs|]. split; [|vm_compute; discriminate]. destruct Hs as [Hs _]. symmetry. apply Hs.
Defined.

(** The messages inserted again are updated, and the one removed is back. *)
Lemma mongo_documents_typed_witness :
  let s' := run_changes ab_history ab_mongo in
  length (messages s') = 2%nat /\ Forall (fun d => message_doc d = true) (messages s').
Proof.
  intros s'. split; [vm_compute; reflexivity|].
  destruct (mongo_documents_typed ab_history ab_mongo ab_mongo_inv) as (Ht & _). exact Ht.
Defined.

(** ** Where the two storages differ *)

Definition timeless_message : Message :=
  {| ID := "a"; Description := "first"; Queue := "q"; ExpiryDate := 5 * Second; Timeless := true;
     Metadata := None; Payload := None; StringPayload := ""; LockMs := 0; InternalId := IdNil;
     Score := f64_zero; LastUsage := None; Breakpoint := ""; LastScoreSubtract := f64_zero;
     TotalScoreSubtract := f64_zero; UsageCount := 0; QueuePrefix := "q"; QueueSuffix := "";
     Diagnostics := None |}.

Definition again : Message := msg "q" "a" 10 0.

(** MongoDB forgets that a message is timeless, keeps the description of a
    message inserted again without one, and finds a message that has expired. *)
Lemma storages_differ :
  let insert_twice := [(at_ms 1000, CInsert [timeless_message]); (at_ms 2000, CInsert [again])] in
  let memory := run_changes insert_twice NewMemoryStorage in
  let mongo := run_changes insert_twice new_mongo in
  let memory1 := run_changes (take 1 insert_twice) NewMemoryStorage in
  let mongo1 := run_changes (take 1 insert_twice) new_mongo in
  (Timeless <$> stored memory1 "q" "a", Timeless <$> stored mongo1 "q" "a") = (Some true, Some false) /\
  (Description <$> stored memory "q" "a", Description <$> stored mongo "q" "a") = (Some "", Some "first") /\
  match storage_Find (at_ms 99999999999999) (find_one "q" "a") (run_changes (drop 1 insert_twice) NewMemoryStorage),
        storage_Find (at_ms 99999999999999) (find_one "q" "a") (run_changes (drop 1 insert_twice) new_mongo) with
  | Ret (ms, None), Ret (ms', None) => (length ms, length ms') = (0%nat, 1%nat)
  | _, _ => False
  end.
Proof. vm_compute. repeat split. Qed.
