(* ===== verification/StorageErrors.v ===== *)
(** * Storages that fail

    What a call of a storage leaves behind whether it fails or not: the class
    [StorageRobust] states it beside the contract of Storage.v, which says
    what the calls that succeed do, and both storages are instances.  The
    theorems about operations that run at the same time use it. *)

From S2P Require Import Prelude GoStrings Float64 Dtime Message Storage MemoryStorage MemoryStorageFacts.
From S2P Require Import Mongo MongoStorage MongoDocs MongoFacts MongoSpec.
#[local] Open Scope string_scope.
#[local] Open Scope list_scope.
#[local] Open Scope Z_scope.

(** Two messages expire at the same time, if they do. *)
Definition same_expiry (v v' : Message) : Prop :=
  ExpiryDate v' = ExpiryDate v /\ Timeless v' = Timeless v.

(** The same messages are stored, and each expires when it did. *)
Definition same_life (w w' : string -> string -> option Message) : Prop :=
  forall q i, option_Forall2 same_expiry (w q i) (w' q i).

#[export] Instance same_expiry_refl : Reflexive same_expiry.
Proof. by split. Qed.

Lemma same_life_eq (w w' : string -> string -> option Message) : (forall q i, w' q i = w q i) -> same_life w w'.
Proof. intros H q i. rewrite H. destruct (w q i); by constructor. Qed.

(** A change of one message. *)
Lemma same_life_at (w w' : string -> string -> option Message) q0 i0 :
  (forall q i, (q, i) <> (q0, i0) -> w' q i = w q i) -> option_Forall2 same_expiry (w q0 i0) (w' q0 i0) ->
  same_life w w'.
Proof.
  intros Hother Hat q i. destruct (decide ((q, i) = (q0, i0))) as [[= -> ->]|Hne]; [done|].
  rewrite Hother by done. destruct (w q i); by constructor.
Qed.

Class StorageRobust (S : Type) `{HSS : StorageSpec S} := {
  (** an insertion that fails may have stored some of its messages *)
  robust_Insert : forall env ms s s' r,
    storage_inv s -> Forall (fun m => queue_name_ok (Queue m)) ms -> storage_Insert env ms s = (s', r) ->
    storage_inv s' /\
    (forall q i, (q, i) ∉ msg_key <$> ms -> stored s' q i = stored s q i) /\
    (forall q i, stored s q i <> None -> stored s' q i <> None);

  (** an ack or a nack that fails may have been written *)
  robust_Ack : forall env m s s' r,
    storage_inv s -> queue_name_ok (Queue m) -> storage_Ack env m s = (s', r) ->
    storage_inv s' /\ same_life (stored s) (stored s');
  robust_Nack : forall env m s s' r,
    storage_inv s -> queue_name_ok (Queue m) -> storage_Nack env m s = (s', r) ->
    storage_inv s' /\ same_life (stored s) (stored s');

  (** a removal that fails removes no other message *)
  robust_Remove : forall env q ids s s' r,
    storage_inv s -> storage_Remove env q ids s = (s', r) ->
    storage_inv s' /\
    (forall q' i, stored s' q' i = stored s q' i \/ stored s' q' i = None /\ q' = q /\ i ∈ ids);

  (** a flush that fails may have removed some messages *)
  robust_Flush : forall env s s' r,
    storage_inv s -> storage_Flush env s = (s', r) ->
    storage_inv s' /\ (forall q i, stored s' q i = None \/ stored s' q i = stored s q i)
}.

(** ** The memory storage *)

#[export] Instance MemoryStorage_robust : StorageRobust MemoryStorage.
Proof.
  split.
  - intros env ms s s' [r err] Hs Hms H. apply insert_loop_spec in H as (H1 & _ & _ & H2 & H3 & _); [|done..].
    split_and!; [done|done|]. intros q i Hn. apply not_eq_None_Some, H3. by apply not_eq_None_Some.
  - intros env m s s' [n err] Hs Hq H. apply Ack_replaces in H as (_ & H1 & _ & _ & H2 & H3); [|done..].
    split; [done|]. apply (same_life_at _ _ (Queue m) (ID m)); [exact H2|]. cbn [stored MemoryStorage_spec]. rewrite H3.
    by destruct (mem_stored s (Queue m) (ID m)); constructor.
  - intros env m s s' [n err] Hs Hq H. apply Nack_replaces in H as (_ & H1 & _ & _ & H2 & H3); [|done..].
    split; [done|]. apply (same_life_at _ _ (Queue m) (ID m)); [exact H2|]. cbn [stored MemoryStorage_spec]. rewrite H3.
    by destruct (mem_stored s (Queue m) (ID m)); constructor.
  - intros env q ids s s' [n err] Hs H. apply Remove_removes in H as (_ & H1 & _ & H2 & _); [|done].
    split; [done|]. intros q' i. cbn [stored MemoryStorage_spec]. rewrite H2. case_decide; naive_solver.
  - intros env s s' r Hs [= <- _]. split; [split; apply map_Forall_empty|]. by left.
Qed.

(** ** The MongoDB storage *)

Section MongoRobust.
Context {C : Type} {HO : MongoOps C} {HA : AnyCodec} {HB : BsonDecoder} {HM : Mongo C}.
Implicit Types s : MongoStorage C.
Abbreviation find_doc := (find_key doc_key).

Lemma mongo_Insert_robust env ms s s' r :
  mongo_inv s -> Insert env ms s = (s', r) ->
  (forall q i, (q, i) ∉ msg_key <$> ms -> mongo_stored s' q i = mongo_stored s q i) /\
  (forall q i, mongo_stored s q i <> None -> mongo_stored s' q i <> None).
Proof using HM.
  intros Hs. unfold Insert. destruct (insert_models env (Now env) ms) as [us|err] eqn:E; [|by intros [= <- <-]].
  apply insert_models_ok in E as [Hn ->]. pose proof (insert_models_plain env (Now env) ms) as Hpl.
  destruct (BulkWrite _ _ _) as [c r'] eqn:Eb. intros Hr.
  assert (s' = with_client c s) as -> by (destruct r'; by injection Hr). clear Hr.
  assert (Hrun : exists ms1, (forall m, m ∈ ms1 -> m ∈ ms) /\ Forall named ms1 /\ exists n u,
    update_steps (oid_ok (C := C)) (map (insert_model env (Now env)) ms1) (messages s)
      (coll_docs c (messagesCollection s)) n u).
  { destruct r' as [res|err].
    - apply mongo_BulkWrite in Eb as (_ & _ & ms' & Hp & Hsteps); [|done].
      apply Permutation_map_inv in Hp as (ms1 & -> & Hp1). exists ms1. split; [by intros m; rewrite Hp1|].
      split; [by rewrite <- Hp1|]. by do 2 eexists.
    - apply mongo_BulkWrite_error in Eb as (_ & ms' & n & u & Hsub & Hsteps); [|done].
      destruct (submseteq_models (insert_model env (Now env)) ms ms' (fun m => named m /\ m ∈ ms)) as (l0 & -> & Hl0%Forall_and); [|done|].
      { apply Forall_forall. intros m Hm. split; [|done]. rewrite Forall_forall in Hn. by apply Hn. }
      destruct Hl0 as [Hl0 Hin]. exists l0. split; [by rewrite Forall_forall in Hin|]. split; [done|]. by do 2 eexists. }
  destruct Hrun as (ms1 & Hsub & Hn1 & n & u & Hsteps).
  apply insert_steps in Hsteps as (_ & _ & _ & _ & Hother & Hsome & _); [|apply Hs|done].
  unfold mongo_stored, messages. cbn. split.
  - intros q i Hqi. rewrite Hother; [done|]. intros (m & Hk & Hm)%list_elem_of_fmap. apply Hqi.
    rewrite Hk. apply list_elem_of_fmap_2. by apply Hsub.
  - intros q i Hs1. destruct (find_doc (coll_docs c _) (q, i)) eqn:Ed; [done|].
    destruct (Hsome (q, i)); [left|done]. intros Hnone. apply Hs1. unfold messages in Hnone. by rewrite Hnone.
Qed.

Lemma update_message_life m update s s' r :
  mongo_inv s ->
  keyed_update doc_key message_ok
    {| m_filter := key_filter (ID m) (Queue m); m_update := update; m_upsert := false |} (msg_key m) ->
  (forall d d', message_ok d -> apply_update false update d = Some d' ->
     same_expiry (read_message d) (read_message d')) ->
  update_message m update s = (s', r) -> same_life (mongo_stored s) (mongo_stored s').
Proof using HM.
  intros Hs Hk Hread. unfold update_message. destruct (UpdateOne _ _ _) as [c r'] eqn:E. intros Hr.
  assert (Hs' : s' = with_client c s) by (destruct r'; by injection Hr). subst s'. clear Hr.
  assert (Hstep : coll_docs c (messagesCollection s) = messages s \/ exists n u,
    update_step (oid_ok (C := C)) {| m_filter := key_filter (ID m) (Queue m); m_update := update; m_upsert := false |}
      (messages s) (coll_docs c (messagesCollection s)) n u).
  { destruct r' as [res|err].
    - apply mongo_UpdateOne in E as [_ Hstep]; [|done]. right. by do 2 eexists.
    - by apply mongo_UpdateOne_error in E as [_ Hstep]. }
  destruct Hstep as [Heq|(n & u & Hstep)].
  { apply same_life_eq. intros q i. unfold mongo_stored, messages. cbn. by rewrite Heq. }
  apply (update_step_key _ _ _ _ _ _ _ _ (inv_messages s Hs) Hk) in Hstep as ((_ & Hother & Hd) & _).
  apply (same_life_at _ _ (Queue m) (ID m)); unfold mongo_stored, messages in *; cbn.
  { intros q i Hne. by rewrite Hother. }
  change (Queue m, ID m) with (msg_key m).
  destruct (find_doc (coll_docs (client s) _) (msg_key m)) as [d|] eqn:Ed; cbn in Hd.
  - destruct Hd as (d' & -> & Hu). constructor. apply Hread; [|done].
    apply (find_key_Some _ message_ok) in Ed as [Ed _]; [|apply Hs].
    by apply (elem_of_coll doc_key message_ok) in Ed as [? _]; [|apply Hs].
  - rewrite Hd. constructor.
Qed.

Lemma delete_all_life s c r :
  mongo_inv s -> DeleteMany (messagesCollection s) [] (client s) = (c, r) ->
  forall q i, mongo_stored (with_client c s) q i = None \/ mongo_stored (with_client c s) q i = mongo_stored s q i.
Proof using HM.
  intros Hs E q i. destruct r as [n|e].
  - apply mongo_DeleteMany in E as (_ & Hd & _); [|done]. left.
    assert (Hnone : forall docs : list Doc, List.filter (fun d => negb (matches [] d)) docs = []) by (by induction docs).
    rewrite Hnone in Hd. apply Permutation_nil_r in Hd. unfold mongo_stored, messages. cbn. by rewrite Hd.
  - apply mongo_DeleteMany_error in E as (_ & gone & Hd & _); [|done].
    destruct (part_stored s c gone Hs Hd) as [_ Hst]. destruct (Hst q i) as [?|[? _]]; auto.
Qed.

Lemma mongo_Flush_robust s s' r :
  mongo_inv s -> Flush s = (s', r) ->
  forall q i, mongo_stored s' q i = None \/ mongo_stored s' q i = mongo_stored s q i.
Proof using HM.
  intros Hs. unfold Flush. destruct (DeleteMany (messagesCollection s) [] (client s)) as [c1 r1] eqn:E1.
  pose proof (delete_all_life s c1 r1 Hs E1) as H1. destruct r1 as [k1|e1]; [|by intros [= <- _]].
  destruct (DeleteMany _ [] c1) as [c2 r2] eqn:E2. intros Hr q i.
  assert (s' = with_client c2 s) as -> by (destruct r2; by injection Hr).
  assert (Hsame : same_other_docs (queueConfigurationCollection s) c1 c2).
  { destruct r2 as [n|e]; [by apply mongo_DeleteMany in E2 as [? _]|by apply mongo_DeleteMany_error in E2 as [? _]]. }
  destruct (H1 q i) as [H0|H0]; [left|right]; rewrite <- H0; unfold mongo_stored, messages, coll_docs; cbn;
    rewrite Hsame; try done; apply not_eq_sym, Hs.
Qed.

#[export] Instance MongoStorage_robust : StorageRobust (MongoStorage C).
Proof using HM.
  split.
  - intros env ms s s' r Hs _ H. split; [by apply Insert_inserts in H as [? _]|]. by apply (mongo_Insert_robust env ms s s' r).
  - intros env m s s' r Hs _ H. split; [by apply Ack_acks in H as [? _]|].
    apply (update_message_life _ _ _ _ _ Hs (ack_keyed m)) in H; [done|]. intros d d' Hd Hu.
    by destruct (read_acked m d d' (ok_typed d Hd) Hu) as (total & -> & _).
  - intros env m s s' r Hs _ H. split; [by apply Nack_nacks in H as [? _]|].
    apply (update_message_life _ _ _ _ _ Hs (nack_keyed m)) in H; [done|]. intros d d' Hd Hu.
    by rewrite (read_nacked m d d' (ok_typed d Hd) Hu).
  - intros env q ids s s' [n err] Hs H. by apply mongo_Remove_removes in H as (? & _ & ? & _).
  - intros env s s' r Hs H. split; [by eapply Flush_keeps|]. by apply (mongo_Flush_robust s s' r).
Qed.
End MongoRobust.
