(* ===== verification/Redis.v ===== *)
(** * The Redis server

    The commands the Redis cache sends, as a class: the server is not part of
    the program, and what the program relies on is stated as laws, the
    documented behaviour of each command on the value of a key.  [RedisModel]
    is a concrete server with one map of keys.  Scripts run on the server as
    one step; a command that fails stops the script and keeps the effects of
    the commands before it. *)

From S2P Require Import Prelude Float64 GoStrings.
#[local] Open Scope string_scope.
#[local] Open Scope list_scope.
#[local] Open Scope Z_scope.

(** ** Values *)

Inductive RedisValue :=
  | RString (s : string)
  | RZSet (z : gmap string float64).

(** Members by score, and by their bytes for equal scores. *)
Definition zless (x y : string * float64) : bool :=
  f64_ltb x.2 y.2 || f64_eqb x.2 y.2 && str_ltb x.1 y.1.

Definition zsorted (z : gmap string float64) : list (string * float64) :=
  stable_sort zless (map_to_list z).

(** The scores between two bounds; [None] is an infinite bound. *)
Definition in_bounds (minScore maxScore : option float64) (s : float64) : bool :=
  match minScore with None => true | Some m => f64_leb m s end &&
  match maxScore with None => true | Some m => f64_leb s m end.

Definition bound_ok (b : option float64) : bool :=
  match b with None => true | Some x => negb (f64_is_nan x) end.

(** [LIMIT 0 count]: a negative count is no limit. *)
Definition zlimit {A} (count : Z) (l : list A) : list A :=
  if count <? 0 then l else take (Z.to_nat count) l.

(** [ZRANGE key 0 stop]: a negative index counts from the end. *)
Definition zrange_to {A} (stop : Z) (l : list A) : list A :=
  let stop := if stop <? 0 then Z.of_nat (length l) + stop else stop in
  take (Z.to_nat (stop + 1)) l.

Definition zadd (pairs : list (float64 * string)) (z : gmap string float64) : gmap string float64 :=
  foldl (fun z p => <[p.2 := p.1]> z) z pairs.

Definition zrem (members : list string) (z : gmap string float64) : gmap string float64 :=
  foldl (fun z m => delete m z) z members.

(** ** Commands *)

(** A server state [R]; a command returns a value or an error.  [SCAN] gives
    the batches of a whole iteration.  [lua_unpack_limit] is the number of
    values [unpack] can return on the stack of the script interpreter. *)
Class RedisOps (R : Type) := {
  redis_value : R -> string -> option RedisValue;
  ZREM : string -> list string -> R -> R * (Z + error);
  ZADD : string -> list (float64 * string) -> R -> R * (Z + error);
  ZSCORE : string -> string -> R -> option float64 + error;
  ZRANGE : string -> Z -> R -> list string + error;
  ZRANGEBYSCORE : string -> option float64 -> option float64 -> Z -> R -> list string + error;
  ZREVRANGEBYSCORE : string -> option float64 -> option float64 -> Z -> R -> list string + error;
  GET : string -> R -> option string + error;
  SET : string -> string -> R -> R * (unit + error);
  DEL : list string -> R -> R * (Z + error);
  SCAN : string -> R -> list (list string) + error;
  lua_unpack_limit : Z
}.

Section Views.
Context {R : Type} `{RedisOps R}.

(** The sorted set of a key, empty when there is no such key. *)
Definition zset (r : R) (key : string) : gmap string float64 :=
  match redis_value r key with Some (RZSet z) => z | _ => ∅ end.

(** The key does not hold a string. *)
Definition zset_key (r : R) (key : string) : Prop := forall s, redis_value r key <> Some (RString s).

(** The key does not hold a sorted set. *)
Definition string_key (r : R) (key : string) : Prop := forall z, redis_value r key <> Some (RZSet z).

Definition same_others (key : string) (r r' : R) : Prop :=
  forall k, k <> key -> redis_value r' k = redis_value r k.
End Views.

(** The characters with a meaning in a pattern of [SCAN]. *)
Definition glob_special (c : ascii) : bool :=
  existsb (Ascii.eqb c) ["*"; "?"; "["; "]"; "\"; "^"]%char.

Definition plain_text (s : string) : Prop :=
  Forall (fun c => glob_special c = false) (list_ascii_of_string s).

(** The documented behaviour of the commands on one key. *)
Class RedisCommands (R : Type) `{RedisOps R} := {
  (** a sorted set without elements is deleted *)
  redis_no_empty : forall r key, redis_value r key <> Some (RZSet ∅);

  redis_ZREM : forall key members r, zset_key r key -> members <> [] ->
    exists r', ZREM key members r
        = (r', inl (Z.of_nat (size (zset r key)) - Z.of_nat (size (zset r' key)))) /\
      zset r' key = zrem members (zset r key) /\ zset_key r' key /\ same_others key r r';

  redis_ZADD : forall key pairs r, zset_key r key -> pairs <> [] ->
    Forall (fun p => f64_is_nan p.1 = false) pairs ->
    exists r', ZADD key pairs r
        = (r', inl (Z.of_nat (size (zset r' key)) - Z.of_nat (size (zset r key)))) /\
      zset r' key = zadd pairs (zset r key) /\ zset_key r' key /\ same_others key r r';

  (** a score that is not a number is refused, and nothing is added *)
  redis_ZADD_nan : forall key pairs r, zset_key r key -> pairs <> [] ->
    ~ Forall (fun p => f64_is_nan p.1 = false) pairs -> exists e, ZADD key pairs r = (r, inr e);

  redis_ZSCORE : forall key member r, zset_key r key -> ZSCORE key member r = inl (zset r key !! member);

  redis_ZRANGE : forall key stop r, zset_key r key ->
    ZRANGE key stop r = inl (zrange_to stop (zsorted (zset r key)).*1);

  redis_ZRANGEBYSCORE : forall key minScore maxScore count r, zset_key r key ->
    ZRANGEBYSCORE key minScore maxScore count r =
      if bound_ok minScore && bound_ok maxScore
      then inl (zlimit count (List.filter (fun x => in_bounds minScore maxScore x.2)
                                (zsorted (zset r key))).*1)
      else inr (ErrorString "ERR min or max is not a float");

  redis_ZREVRANGEBYSCORE : forall key maxScore minScore count r, zset_key r key ->
    ZREVRANGEBYSCORE key maxScore minScore count r =
      if bound_ok minScore && bound_ok maxScore
      then inl (zlimit count (reverse (List.filter (fun x => in_bounds minScore maxScore x.2)
                                (zsorted (zset r key))).*1))
      else inr (ErrorString "ERR min or max is not a float");

  redis_GET : forall key r, string_key r key ->
    GET key r = inl (match redis_value r key with Some (RString s) => Some s | _ => None end);

  redis_SET : forall key v r, exists r', SET key v r = (r', inl tt) /\
    redis_value r' key = Some (RString v) /\ same_others key r r';

  redis_unpack : 4000 <= @lua_unpack_limit R _
}.

(** A node of Redis: the commands on one key, and those on the keys the node
    has. *)
Class Redis (R : Type) `{RedisOps R} := {
  redis_commands :: RedisCommands R;

  (** a node of a cluster may refuse to delete several keys at once *)
  redis_DEL : forall keys r, keys <> [] ->
    (exists r' n, DEL keys r = (r', inl n) /\
       (forall k, k ∈ keys -> redis_value r' k = None) /\
       (forall k, k ∉ keys -> redis_value r' k = redis_value r k)) \/
    ((1 < length keys)%nat /\ exists msg, DEL keys r = (r, inr (ErrorString msg)) /\
       Contains msg "CROSSSLOT" = true);

  (** a whole iteration gives every key that matches; here for the patterns
      with one star and no other special character *)
  redis_SCAN : forall prefix suffix r, plain_text prefix -> plain_text suffix ->
    exists batches, SCAN (prefix ++ "*" ++ suffix) r = inl batches /\
      forall k, k ∈ concat batches <->
        is_Some (redis_value r k) /\ exists name, k = (prefix ++ name ++ suffix)%string
}.

(** ** Scripts *)

Definition Script (R A : Type) : Type := R -> R * (A + error).

#[export] Instance Script_ret {R} : MRet (Script R) := fun A a r => (r, inl a).

#[export] Instance Script_bind {R} : MBind (Script R) :=
  fun A B k m r => match m r with (r', inl a) => k a r' | (r', inr e) => (r', inr e) end.

(** [redis.call] of a command that does not change the server. *)
Definition read {R A} (f : R -> A + error) : Script R A := fun r => (r, f r).

(** [unpack] of a table. *)
Definition unpack {R A} `{RedisOps R} (l : list A) : Script R (list A) :=
  if Z.of_nat (length l) <=? @lua_unpack_limit R _ then mret l
  else fun r => (r, inr (ErrorString "too many results to unpack")).

(** The replies of a script that returns [''] or a table. *)
Inductive RedisReply := ReplyString (s : string) | ReplyArray (l : list string).

(** ** A concrete server *)

Abbreviation RedisModel := (gmap string RedisValue).

(** A key of an empty sorted set does not exist. *)
Definition model_value (r : RedisModel) (key : string) : option RedisValue :=
  match r !! key with
  | Some (RZSet z) => if decide (z = ∅) then None else Some (RZSet z)
  | v => v
  end.

Definition wrong_type : error :=
  ErrorString "WRONGTYPE Operation against a key holding the wrong kind of value".

(** Runs [f] on the sorted set of a key. *)
Definition on_zset {A} (key : string) (r : RedisModel) (f : gmap string float64 -> A) : A + error :=
  match model_value r key with
  | Some (RString _) => inr wrong_type
  | Some (RZSet z) => inl (f z)
  | None => inl (f ∅)
  end.

(** Patterns with stars; the other special characters stand for themselves. *)
Fixpoint model_match (pattern k : string) : bool :=
  match pattern with
  | EmptyString => String.eqb k ""
  | String c pattern' =>
      if Ascii.eqb c "*" then any_suffix (model_match pattern') k
      else match k with EmptyString => false | String d k' => Ascii.eqb c d && model_match pattern' k' end
  end.

Definition update_zset (key : string) (f : gmap string float64 -> gmap string float64)
    (count : Z -> Z -> Z) (r : RedisModel) : RedisModel * (Z + error) :=
  match on_zset key r (fun z => z) with
  | inr e => (r, inr e)
  | inl z => (<[key := RZSet (f z)]> r, inl (count (Z.of_nat (size z)) (Z.of_nat (size (f z)))))
  end.

#[export] Instance RedisModel_Ops : RedisOps RedisModel := {
  redis_value := model_value;
  ZREM key members := update_zset key (zrem members) (fun before after => before - after);
  ZADD key pairs r :=
    if forallb (fun p => negb (f64_is_nan p.1)) pairs
    then update_zset key (zadd pairs) (fun before after => after - before) r
    else (r, inr (ErrorString "ERR value is not a valid float"));
  ZSCORE key member r := on_zset key r (fun z => z !! member);
  ZRANGE key stop r := on_zset key r (fun z => zrange_to stop (zsorted z).*1);
  ZRANGEBYSCORE key minScore maxScore count r :=
    if bound_ok minScore && bound_ok maxScore
    then on_zset key r (fun z =>
           zlimit count (List.filter (fun x => in_bounds minScore maxScore x.2) (zsorted z)).*1)
    else inr (ErrorString "ERR min or max is not a float");
  ZREVRANGEBYSCORE key maxScore minScore count r :=
    if bound_ok minScore && bound_ok maxScore
    then on_zset key r (fun z =>
           zlimit count (reverse (List.filter (fun x => in_bounds minScore maxScore x.2) (zsorted z)).*1))
    else inr (ErrorString "ERR min or max is not a float");
  GET key r :=
    match model_value r key with
    | Some (RString s) => inl (Some s)
    | Some (RZSet _) => inr wrong_type
    | None => inl None
    end;
  SET key v r := (<[key := RString v]> r, inl tt);
  DEL keys r :=
    let r' := foldl (fun r k => delete k r) r keys in
    (r', inl (Z.of_nat (size r) - Z.of_nat (size r')));
  SCAN pattern r :=
    inl [List.filter (fun k => bool_decide (is_Some (model_value r k)) && model_match pattern k)
           (map_to_list r).*1];
  lua_unpack_limit := 8000
}.

(** ** The model keeps the laws *)

Lemma model_insert_zset key z (r : RedisModel) :
  zset (<[key := RZSet z]> r : RedisModel) key = z.
Proof.
  unfold zset. cbn. unfold model_value. rewrite lookup_insert_eq. by case_decide.
Qed.

Lemma model_insert_other key v (r : RedisModel) : same_others key r (<[key := v]> r : RedisModel).
Proof. intros k Hk. cbn. unfold model_value. by rewrite lookup_insert_ne. Qed.

Lemma model_zset_key_insert key z (r : RedisModel) : zset_key (<[key := RZSet z]> r : RedisModel) key.
Proof. intros s. cbn. unfold model_value. rewrite lookup_insert_eq. by case_decide. Qed.

Lemma on_zset_ok {A} key (r : RedisModel) (f : gmap string float64 -> A) :
  zset_key r key -> on_zset key r f = inl (f (zset r key)).
Proof.
  intros Hk. unfold on_zset, zset. cbn. specialize (Hk : forall s, model_value r key <> _).
  destruct (model_value r key) as [[s|z]|]; [by destruct (Hk s)|done|done].
Qed.

Lemma update_zset_ok key f count (r : RedisModel) :
  zset_key r key -> exists r', update_zset key f count r
      = (r', inl (count (Z.of_nat (size (zset r key))) (Z.of_nat (size (zset r' key))))) /\
    zset r' key = f (zset r key) /\ zset_key r' key /\ same_others key r r'.
Proof.
  intros Hk. unfold update_zset. rewrite on_zset_ok by done. eexists. split; [|split; [|split]].
  - f_equal. by rewrite model_insert_zset.
  - by rewrite model_insert_zset.
  - apply model_zset_key_insert.
  - apply model_insert_other.
Qed.

Lemma foldl_delete_lookup (keys : list string) : forall (r : RedisModel) k,
  foldl (fun r k => delete k r) r keys !! k = if decide (k ∈ keys) then None else r !! k.
Proof.
  induction keys as [|k0 keys IH]; intros r k; cbn [foldl].
  { rewrite decide_False; [done|]. set_solver. }
  rewrite IH. destruct (decide (k ∈ keys)); [by rewrite decide_True by set_solver|].
  destruct (decide (k = k0)) as [->|Hne]; [rewrite lookup_delete_eq, decide_True by set_solver; done|].
  rewrite lookup_delete_ne, decide_False by set_solver. done.
Qed.

Lemma model_match_plain suffix k :
  plain_text suffix -> model_match suffix k = true <-> k = suffix.
Proof.
  revert k. induction suffix as [|c suffix IH]; intros k Hp; cbn.
  { by rewrite String.eqb_eq. }
  apply Forall_cons in Hp as [Hc Hp]. cbn in Hc. apply orb_false_iff in Hc as [-> _].
  destruct k as [|d k]; [done|]. rewrite andb_true_iff, Ascii.eqb_eq, IH by done. naive_solver.
Qed.

Lemma model_match_star prefix suffix k :
  plain_text prefix -> plain_text suffix ->
  model_match (prefix ++ "*" ++ suffix) k = true <-> exists name, k = (prefix ++ name ++ suffix)%string.
Proof.
  intros Hp Hs. revert k. induction prefix as [|c prefix IH]; intros k; rewrite ?append_cons, ?append_nil.
  - cbn [model_match]. change (Ascii.eqb "*" "*") with true. cbv iota. setoid_rewrite append_nil.
    induction k as [|d k IHk]; cbn [any_suffix]; rewrite orb_true_iff, model_match_plain by done.
    + split; [intros [<-|?]; [by exists ""|done]|]. intros [[] ?]; [by left|done].
    + rewrite IHk. split.
      * intros [<-|[name ->]]; [by exists ""|by exists (String d name)].
      * intros [[|d' name] E]; [by left|]. right. rewrite append_cons in E. injection E as -> ->. by exists name.
  - apply Forall_cons in Hp as [Hc Hp]. cbn [model_match]. apply orb_false_iff in Hc as [-> _].
    destruct k as [|d k]; [naive_solver|]. rewrite andb_true_iff, Ascii.eqb_eq, IH by done.
    setoid_rewrite append_cons. naive_solver.
Qed.

#[export] Instance RedisModel_Commands : RedisCommands RedisModel.
Proof.
  split.
  - intros r key. cbn. unfold model_value. destruct (r !! key) as [[s|z]|]; [done| |done].
    case_decide; [done|]. by intros [= ->].
  - intros key members r Hk _. by apply update_zset_ok.
  - intros key pairs r Hk _ Hp. cbn. rewrite (proj2 (forallb_forall _ _)); [by apply update_zset_ok|].
    intros p Hin%list_elem_of_In. rewrite Forall_forall in Hp. by rewrite Hp.
  - intros key pairs r Hk _ Hp. cbn. destruct (forallb _ pairs) eqn:E; [|by eexists].
    destruct Hp. apply Forall_forall. intros p Hin%list_elem_of_In. rewrite forallb_forall in E.
    specialize (E _ Hin). by apply negb_true_iff in E.
  - intros key member r Hk. cbn. by rewrite on_zset_ok.
  - intros key stop r Hk. cbn. by rewrite on_zset_ok.
  - intros key mn mx count r Hk. cbn. case_if; [|done]. by rewrite on_zset_ok.
  - intros key mx mn count r Hk. cbn. case_if; [|done]. by rewrite on_zset_ok.
  - intros key r Hk. cbn in *. specialize (Hk : forall z, model_value r key <> _).
    destruct (model_value r key) as [[s|z]|]; [done|by destruct (Hk z)|done].
  - intros key v r. eexists. split; [done|]. split; [|apply model_insert_other].
    cbn. unfold model_value. by rewrite lookup_insert_eq.
  - cbn. lia.
Qed.

#[export] Instance RedisModel_Redis : Redis RedisModel.
Proof.
  split; [apply _|..].
  - intros keys r _. left. do 2 eexists. split; [done|]. split; intros k Hk; cbn; unfold model_value;
      rewrite foldl_delete_lookup; [by rewrite decide_True|by rewrite decide_False].
  - intros prefix suffix r Hp Hs. eexists. split; [done|]. intros k. cbn [concat]. rewrite app_nil_r.
    rewrite list_elem_of_In, filter_In, <- list_elem_of_In, andb_true_iff, model_match_star,
      bool_decide_eq_true by done.
    cbn. split; [tauto|]. intros [Hv Hm]. split; [|done].
    assert (Hr : is_Some (r !! k)) by (unfold model_value in Hv; destruct (r !! k); [done|by destruct Hv]).
    destruct Hr as [v Hk]. apply list_elem_of_fmap. exists (k, v). split; [done|]. by apply elem_of_map_to_list.
Qed.
