(* ===== verification/RedisScripts.v ===== *)
(** * The scripts of the Redis cache

    [internal/queue/cache/redis_cache_scripts.go]: each Lua script as a
    computation on the server.  [KEYS] are keys, [ARGV] the arguments: scores
    are the floating-point numbers their texts are read as, a number of
    elements is an integer, and an absent bound of a pull ([-inf], [+inf]) is
    [None].  A script runs as one step, and one that fails keeps the effects
    of the commands before the failure. *)

From S2P Require Import Prelude Float64 Score Redis.
#[local] Open Scope string_scope.
#[local] Open Scope list_scope.
#[local] Open Scope Z_scope.

Section Scripts.
Context {R : Type} `{RedisOps R}.

(** [for i, key in ipairs(elements) do ... end]. *)
Fixpoint for_ipairs {A} (f : A -> Script R Z) (l : list A) : Script R unit :=
  match l with
  | [] => mret tt
  | x :: l' => _ ← f x; for_ipairs f l'
  end.

Fixpoint remove_loop (ARGV KEYS : list string) (total : Z) : Script R Z :=
  match KEYS with
  | [] => mret total
  | pool :: KEYS' =>
      members ← unpack ARGV;
      n ← ZREM pool members;
      remove_loop ARGV KEYS' (total + n)
  end.

Definition removeElementScript (KEYS ARGV : list string) : Script R Z := remove_loop ARGV KEYS 0.

Definition moveElementScript (destination source : string) (score : float64) (element : string) :
    Script R Z :=
  removed ← ZREM source [element];
  if 0 <? removed then ZADD destination [(score, element)] else mret 0.

Definition lockElementScript (active lock lockScores : string) (score : float64) (element : string)
    (resultScore : float64) : Script R Z :=
  removed ← ZREM active [element];
  if 0 <? removed then
    result ← ZADD lock [(score, element)];
    if f64_eqb resultScore (f64_of_Z (-1)) then mret result
    else ZADD lockScores [(resultScore, element)]
  else mret 0.

(** A sorted set of [KEYS] contains [element]. *)
Fixpoint exists_in (KEYS : list string) (element : string) : Script R bool :=
  match KEYS with
  | [] => mret false
  | pool :: KEYS' =>
      score ← read (ZSCORE pool element);
      match score with Some _ => mret true | None => exists_in KEYS' element end
  end.

(** The pairs of [ARGV] to insert. *)
Fixpoint to_insert (KEYS : list string) (ARGV : list (float64 * string)) :
    Script R (list (float64 * string)) :=
  match ARGV with
  | [] => mret []
  | (score, element) :: ARGV' =>
      found ← exists_in KEYS element;
      rest ← to_insert KEYS ARGV';
      mret (if found : bool then rest else (score, element) :: rest)
  end.

(** [unpack] of a table with two values for each pair. *)
Definition unpack_pairs {A} (l : list A) : Script R (list A) :=
  if 2 * Z.of_nat (length l) <=? @lua_unpack_limit R _ then mret l
  else fun r => (r, inr (ErrorString "too many results to unpack")).

Definition addElementsScript (destination : string) (KEYS : list string)
    (ARGV : list (float64 * string)) : Script R RedisReply :=
  toInsert ← to_insert (destination :: KEYS) ARGV;
  match toInsert with
  | [] => mret (ReplyArray [])
  | _ =>
      pairs ← unpack_pairs toInsert;
      _ ← ZADD destination pairs;
      mret (ReplyArray toInsert.*2)
  end.

Definition containsElementScript (KEYS : list string) (element : string) : Script R Z :=
  found ← exists_in KEYS element;
  mret (if found : bool then 1 else 0).

Definition moveFilteredElementsScript (destination source : string) (score newScore : float64)
    (n : Z) : Script R RedisReply :=
  elements ← read (ZREVRANGEBYSCORE source (Some score) (Some f64_zero) n);
  match elements with
  | [] => mret (ReplyString "")
  | _ =>
      _ ← for_ipairs (fun key => ZADD destination [(newScore, key)]) elements;
      members ← unpack elements;
      _ ← ZREM source members;
      mret (ReplyArray elements)
  end.

Fixpoint bulk_data (lockScores : string) (defaultScore : float64) (elements : list string) :
    Script R (list (float64 * string)) :=
  match elements with
  | [] => mret []
  | key :: elements' =>
      lockScore ← read (ZSCORE lockScores key);
      rest ← bulk_data lockScores defaultScore elements';
      mret ((default defaultScore lockScore, key) :: rest)
  end.

Definition unlockElementsScript (lock destination lockScores : string) (n : Z)
    (timestamp defaultScore : float64) : Script R RedisReply :=
  elements ← read (ZREVRANGEBYSCORE lock (Some timestamp) (Some f64_zero) n);
  match elements with
  | [] => mret (ReplyString "")
  | _ =>
      bulkData ← bulk_data lockScores defaultScore elements;
      pairs ← unpack_pairs bulkData;
      _ ← ZADD destination pairs;
      members ← unpack elements;
      _ ← ZREM lock members;
      members ← unpack elements;
      _ ← ZREM lockScores members;
      mret (ReplyArray elements)
  end.

(** [tostring] of a number that is an integer: from [10^14] on it is written
    with an exponent, and the server refuses it as an index. *)
Definition lua_index (z : Z) : Script R Z :=
  if Z.abs z <? 10 ^ 14 then mret z
  else fun r => (r, inr (ErrorString "ERR value is not an integer or out of range")).

Definition pullElementsScript (source destination : string) (n : Z) (newScore : float64)
    (minScore maxScore : option float64) : Script R RedisReply :=
  elements ←
    match minScore, maxScore with
    | None, None => stop ← lua_index (n - 1); read (ZRANGE source stop)
    | _, _ => read (ZRANGEBYSCORE source minScore maxScore n)
    end;
  match elements with
  | [] => mret (ReplyString "")
  | _ =>
      _ ← for_ipairs (fun key => ZADD destination [(newScore, key)]) elements;
      members ← unpack elements;
      _ ← ZREM source members;
      mret (ReplyArray elements)
  end.
End Scripts.
