(* ===== verification/RedisCache.v ===== *)
(** * The Redis cache

    [internal/queue/cache/redis_cache.go]: the second implementation of the
    cache.  Each pool of a queue is a sorted set, from message id to score,
    under a key with the name of the queue in braces; the scripts of
    [RedisScripts.v] move ids between them.  The client is that of a single
    node; the record keeps the server it talks to as its state. *)

From S2P Require Import Prelude Float64 Dtime Utils Score Message Cache.
From S2P Require Import GoStrings Redis RedisScripts.
#[local] Open Scope string_scope.
#[local] Open Scope list_scope.
#[local] Open Scope Z_scope.

Record RedisCache {R : Type} := { Client : R; keyPrefix : string }.
Arguments RedisCache R : clear implicits.

Definition errQueueNameContainsClusterHashTag : error :=
  ErrorString "queue names cannot contain '{' or '}'".

(** ** Keys *)

Definition POOL_SUFFIX : string := ":queue:".
Definition PROCESSING_POOL_SUFFIX : string := ":tmp".
Definition LOCK_ACK_SUFFIX : string := ":" ++ LockType_string LOCK_ACK.
Definition LOCK_NACK_SUFFIX : string := ":" ++ LockType_string LOCK_NACK.
Definition SCORE_SUFFIX : string := ":score".
Definition LOCK_ACK_SCORE_SUFFIX : string := ":" ++ LockType_string LOCK_ACK ++ SCORE_SUFFIX.
Definition LOCK_NACK_SCORE_SUFFIX : string := ":" ++ LockType_string LOCK_NACK ++ SCORE_SUFFIX.

(** The argument is the configured [cache.prefix]. *)
Definition resolveConfiguredPrefix (CachePrefix : string) : string :=
  let prefix := TrimSpace CachePrefix in
  if String.eqb prefix "" then "deckard_v1" else Trim prefix [":"].

Definition validateQueueName (queue : string) : option error :=
  if ContainsAny queue "{}" then Some errQueueNameContainsClusterHashTag else None.

Section Keys.
Context {R : Type}.
Implicit Types cache : RedisCache R.

Definition configuredPrefix cache : string :=
  if String.eqb (keyPrefix cache) "" then "deckard_v1" else keyPrefix cache.

Definition fullPrefix cache : string := configuredPrefix cache.
Definition poolPrefix cache : string := configuredPrefix cache ++ POOL_SUFFIX.

Definition generalCacheKey cache (key : string) : string := fullPrefix cache ++ ":{" ++ key ++ "}".

Definition activePool cache (queue : string) : string := poolPrefix cache ++ "{" ++ queue ++ "}".

Definition processingPool cache (queue : string) : string :=
  poolPrefix cache ++ "{" ++ queue ++ "}" ++ PROCESSING_POOL_SUFFIX.

Definition lockPool cache (queue : string) (lockType : LockType) : string :=
  poolPrefix cache ++ "{" ++ queue ++ "}" ++ ":" ++ LockType_string lockType.

Definition lockPoolScore cache (queue : string) (lockType : LockType) : string :=
  poolPrefix cache ++ "{" ++ queue ++ "}" ++ ":" ++ LockType_string lockType ++ SCORE_SUFFIX.

(** The pattern a listing scans for. *)
Definition searchPattern cache (poolType : PoolType) (pattern : string) : string :=
  match poolType with
  | PRIMARY_POOL => activePool cache pattern
  | PROCESSING_POOL => processingPool cache pattern
  | LOCK_ACK_POOL => lockPool cache pattern LOCK_ACK
  | LOCK_NACK_POOL => lockPool cache pattern LOCK_NACK
  end.
End Keys.

(** The regular expressions [(.+)<suffix>$] with the replacement [$1]: the
    suffix is taken off when a character other than a line feed is before it. *)
Definition suffix_ReplaceAllString (suffix queue : string) : string :=
  let rest := TrimSuffix queue suffix in
  if HasSuffix queue suffix && negb (String.eqb rest "") && negb (HasSuffix rest (bytes [10%nat]))
  then rest else queue.

(** The suffix of the regular expression for a pool type; [None] is the [nil]
    expression. *)
Definition pool_regex (poolType : PoolType) : option string :=
  match poolType with
  | PRIMARY_POOL => None
  | PROCESSING_POOL => Some PROCESSING_POOL_SUFFIX
  | LOCK_ACK_POOL => Some LOCK_ACK_SUFFIX
  | LOCK_NACK_POOL => Some LOCK_NACK_SUFFIX
  end.

Definition unwrapClusterHashTag (queue : string) : string :=
  if (String.length queue <? 2)%nat || negb (HasPrefix queue "{") || negb (HasSuffix queue "}")
  then queue
  else str_drop 1 (str_take (String.length queue - 1) queue).

Definition parseQueueKey {R} (cache : RedisCache R) (key : string) (suffixRegex : option string) :
    string :=
  let queue := TrimPrefix key (poolPrefix cache) in
  let queue := match suffixRegex with
               | Some suffix => suffix_ReplaceAllString suffix queue
               | None => queue
               end in
  unwrapClusterHashTag queue.

Fixpoint uniq_loop (seen values : list string) : list string :=
  match values with
  | [] => []
  | v :: values' =>
      if bool_decide (v ∈ seen) then uniq_loop seen values' else v :: uniq_loop (v :: seen) values'
  end.

Definition uniqStrings (values : list string) : list string := uniq_loop [] values.

(** The suffixes [filterQueueSuffix] drops. *)
Definition reserved_suffix (queue : string) : bool :=
  HasSuffix queue PROCESSING_POOL_SUFFIX || HasSuffix queue LOCK_ACK_SUFFIX ||
  HasSuffix queue LOCK_NACK_SUFFIX || HasSuffix queue LOCK_NACK_SCORE_SUFFIX ||
  HasSuffix queue LOCK_ACK_SCORE_SUFFIX.

Definition filterQueueSuffix (data : list string) : list string :=
  List.filter (fun d => negb (reserved_suffix d)) data.

(** [parseResult] and [resultToIds]: a reply is [''] or a table of ids. *)
Definition parseResult (cmd : RedisReply + error) : result (list string) :=
  match cmd with
  | inr err => ([], Some (WrapError "error parsing result" err))
  | inl (ReplyString s) =>
      if String.eqb s "" then ([], None)
      else ([], Some (ErrorString ("invalid redis response: " ++ s)))
  | inl (ReplyArray ids) => (ids, None)
  end.

Section Operations.
Context {R : Type} `{RedisOps R} `{Gopart}.
Implicit Types cache : RedisCache R.

Definition with_client cache (r : R) : RedisCache R := {| Client := r; keyPrefix := keyPrefix cache |}.

(** Runs a script on the server. *)
Definition Run {A} (script : Script R A) cache : RedisCache R * (A + error) :=
  let '(r, res) := script (Client cache) in (with_client cache r, res).

(** ** Moves of one message *)

Definition MakeAvailable (message : Message) cache : RedisCache R * result bool :=
  if String.eqb (Queue message) "" then (cache, (false, Some (ErrorString "invalid message queue")))
  else match validateQueueName (Queue message) with
  | Some err => (cache, (false, Some err))
  | None =>
      match Run (moveElementScript (activePool cache (Queue message))
                   (processingPool cache (Queue message)) (Score message) (ID message)) cache with
      | (cache', inr err) =>
          (cache', (false, Some (WrapError "error making element available on cache" err)))
      | (cache', inl val) => (cache', (val =? 1, None))
      end
  end.

Definition LockMessage (env : Env) (message : Message) (lockType : LockType) cache :
    RedisCache R * result bool :=
  if String.eqb (Queue message) "" then (cache, (false, Some (ErrorString "invalid queue to lock")))
  else match validateQueueName (Queue message) with
  | Some err => (cache, (false, Some err))
  | None =>
      if LockMs message <=? 0 then (cache, (false, Some (ErrorString "invalid lock time")))
      else
        let lockScore := (NowMs env +64 LockMs message)%go in
        match Run (lockElementScript (processingPool cache (Queue message))
                     (lockPool cache (Queue message) lockType)
                     (lockPoolScore cache (Queue message) lockType)
                     (f64_of_Z lockScore) (ID message) (Score message)) cache with
        | (cache', inr err) => (cache', (false, Some (WrapError "error locking cache element" err)))
        | (cache', inl val) => (cache', (val =? 1, None))
        end
  end.

(** ** Moves of many messages *)

Definition UnlockMessages (env : Env) (queue : string) (lockType : LockType) cache :
    RedisCache R * result (list string) :=
  match validateQueueName queue with
  | Some err => (cache, ([], Some err))
  | None =>
      let defaultScore :=
        match lockType with LOCK_ACK => GetScoreByDefaultAlgorithm env | LOCK_NACK => Min end in
      let '(cache', cmd) :=
        Run (unlockElementsScript (lockPool cache queue lockType) (activePool cache queue)
               (lockPoolScore cache queue lockType) 1000 (f64_of_Z (NowMs env)) defaultScore) cache in
      (cache', parseResult cmd)
  end.

Definition PullMessages (env : Env) (queue : string) (n : Z) (minScore maxScore : option float64)
    (ackDeadlineMs : Z) cache : RedisCache R * result (list string) :=
  match validateQueueName queue with
  | Some err => (cache, ([], Some err))
  | None =>
      let ackDeadlineMs := if ackDeadlineMs =? 0 then DefaultTimeoutMs else ackDeadlineMs in
      let newScore := (TimeToMs (Now env) +64 ackDeadlineMs)%go in
      let '(cache', cmd) :=
        Run (pullElementsScript (activePool cache queue) (processingPool cache queue) n
               (f64_of_Z newScore) minScore maxScore) cache in
      (cache', parseResult cmd)
  end.

Definition TimeoutMessages (env : Env) (queue : string) cache : RedisCache R * result (list string) :=
  match validateQueueName queue with
  | Some err => (cache, ([], Some err))
  | None =>
      let timeoutTime := TimeToMs (Now env) in
      let '(cache', cmd) :=
        Run (moveFilteredElementsScript (activePool cache queue) (processingPool cache queue)
               (f64_of_Z timeoutTime) Min 1000) cache in
      (cache', parseResult cmd)
  end.

(** ** Insertion and removal *)

(** The loop over the partitions of the messages. *)
Fixpoint insert_loop (queue : string) (messages : list Message) (partitions : list (Z * Z))
    (insertions : list string) cache : RedisCache R * result (list string) :=
  match partitions with
  | [] => (cache, (insertions, None))
  | (low, high) :: partitions' =>
      let args := map (fun m => (Score m, ID m)) (slice low high messages) in
      let '(cache', cmd) :=
        Run (addElementsScript (activePool cache queue)
               [lockPool cache queue LOCK_NACK; lockPool cache queue LOCK_ACK; processingPool cache queue]
               args) cache in
      match parseResult cmd, cmd with
      | (_, Some _), inr err => (cache', ([], Some (WrapError "error inserting cache" err)))
      | (_, Some err), inl _ => (cache', ([], Some (ErrorString "error inserting cache: %!w(<nil>)")))
      | (inserts, None), _ => insert_loop queue messages partitions' (insertions ++ inserts) cache'
      end
  end.

Definition Insert (queue : string) (messages : list Message) cache :
    RedisCache R * result (list string) :=
  match validateQueueName queue with
  | Some err => (cache, ([], Some err))
  | None =>
      if existsb (fun m => negb (String.eqb (Queue m) queue)) messages
      then (cache, ([], Some (ErrorString "invalid queue to insert data")))
      else insert_loop queue messages (Partition (Z.of_nat (length messages)) 2000) [] cache
  end.

Fixpoint remove_partitions (queue : string) (ids : list string) (partitions : list (Z * Z)) (total : Z)
    cache : RedisCache R * result Z :=
  match partitions with
  | [] => (cache, (total, None))
  | (low, high) :: partitions' =>
      match Run (removeElementScript
               [activePool cache queue; processingPool cache queue;
                lockPool cache queue LOCK_ACK; lockPool cache queue LOCK_NACK;
                lockPoolScore cache queue LOCK_ACK; lockPoolScore cache queue LOCK_NACK]
               (slice low high ids)) cache with
      | (cache', inr err) => (cache', (total, Some (WrapError "error removing cache elements" err)))
      | (cache', inl result) => remove_partitions queue ids partitions' ((total +64 result)%go) cache'
      end
  end.

Definition Remove (queue : string) (ids : list string) cache : RedisCache R * result Z :=
  match validateQueueName queue with
  | Some err => (cache, (0, Some err))
  | None => remove_partitions queue ids (Partition (Z.of_nat (length ids)) 4000) 0 cache
  end.

(** ** Queries *)

Definition containsElement (queuePool i : string) cache : result bool :=
  match ZSCORE queuePool i (Client cache) with
  | inr err => (false, Some (WrapError "error checking processing" err))
  | inl None => (false, None)
  | inl (Some _) => (true, None)
  end.

Definition IsProcessing (queue i : string) cache : result bool :=
  match validateQueueName queue with
  | Some err => (false, Some err)
  | None => containsElement (processingPool cache queue) i cache
  end.

(** The batches of the iteration, one after the other. *)
Definition scanKeys (client : R) (pattern : string) : list string + error :=
  match SCAN pattern client with
  | inr err => inr err
  | inl batches => inl (concat batches)
  end.

Definition ListQueues (pattern : string) (poolType : PoolType) cache : result (list string) :=
  match scanKeys (Client cache) (searchPattern cache poolType pattern) with
  | inr err => ([], Some (WrapError "error listing cache queues" err))
  | inl data =>
      let data := map (fun queue => parseQueueKey cache queue (pool_regex poolType)) data in
      match poolType with
      | PRIMARY_POOL => (filterQueueSuffix (uniqStrings data), None)
      | _ => (uniqStrings data, None)
      end
  end.

Definition Get (key : string) cache : result string :=
  match GET (generalCacheKey cache key) (Client cache) with
  | inr err => ("", Some (WrapError "error getting cache element" err))
  | inl None => ("", None)
  | inl (Some value) => (value, None)
  end.

Definition Set_ (key value : string) cache : RedisCache R * option error :=
  match SET (generalCacheKey cache key) value (Client cache) with
  | (r, inr err) => (with_client cache r, Some (WrapError "error setting cache element" err))
  | (r, inl _) => (with_client cache r, None)
  end.

(** ** Flush *)

(** One key at a time, when the keys of a partition are not on one node. *)
Fixpoint del_each (partition : list string) (client : R) : R * option error :=
  match partition with
  | [] => (client, None)
  | key :: partition' =>
      match DEL [key] client with
      | (client', inr err) => (client', Some err)
      | (client', inl _) => del_each partition' client'
      end
  end.

Fixpoint del_partitions (keysToDelete : list string) (partitions : list (Z * Z)) (client : R) :
    R * option error :=
  match partitions with
  | [] => (client, None)
  | (low, high) :: partitions' =>
      let partition := slice low high keysToDelete in
      match DEL partition client with
      | (client', inl _) => del_partitions keysToDelete partitions' client'
      | (client', inr err) =>
          if negb (Contains (error_Error err) "CROSSSLOT") then (client', Some err)
          else match del_each partition client' with
               | (client'', Some err) => (client'', Some err)
               | (client'', None) => del_partitions keysToDelete partitions' client''
               end
      end
  end.

Definition deleteByPattern (client : R) (pattern : string) : R * option error :=
  match SCAN pattern client with
  | inr err => (client, Some err)
  | inl batches =>
      let keysToDelete := uniqStrings (concat batches) in
      del_partitions keysToDelete (Partition (Z.of_nat (length keysToDelete)) 1000) client
  end.

(** An error is only logged. *)
Definition Flush cache : RedisCache R :=
  let pattern := (fullPrefix cache ++ ":*")%string in
  with_client cache (deleteByPattern (Client cache) pattern).1.
End Operations.

#[export] Instance RedisCache_Cache {R} `{RedisOps R} `{Gopart} : Cache (RedisCache R) := {
  cache_MakeAvailable := fun _ => MakeAvailable;
  cache_IsProcessing := IsProcessing;
  cache_PullMessages := fun env q n mn mx dl c => Ret (PullMessages env q n mn mx dl c);
  cache_TimeoutMessages := TimeoutMessages;
  cache_LockMessage := LockMessage;
  cache_UnlockMessages := UnlockMessages;
  cache_ListQueues := fun _ pattern p c => Ret (ListQueues pattern p c);
  cache_Insert := fun _ => Insert;
  cache_Remove := fun _ => Remove;
  cache_Flush := fun _ => Flush;
  cache_Get := fun _ => Get;
  cache_Set := fun _ => Set_
}.
