(* ===== verification/RedisKeys.v ===== *)
(** * The keys of the Redis cache and their sorted sets

    The six keys of a queue and their injectivity, and lemmas on sorted sets
    and on the queries of a range of scores. *)

From Stdlib Require Import SpecFloat.
From S2P Require Import Prelude Float64 Dtime Utils Score Message Cache.
From S2P Require Import GoStrings Redis RedisScripts RedisCache.
#[local] Open Scope string_scope.
#[local] Open Scope list_scope.
#[local] Open Scope Z_scope.

(** ** Keys *)

(** The sorted sets of a queue: its pools, and the scores of the messages of
    a lock pool. *)
Inductive Slot := PoolSlot (p : PoolType) | ScoreSlot (t : LockType).

#[export] Instance Slot_eq_dec : EqDecision Slot.
Proof. solve_decision. Defined.

Definition slot_suffix (s : Slot) : string :=
  match s with
  | PoolSlot PRIMARY_POOL => ""
  | PoolSlot PROCESSING_POOL => PROCESSING_POOL_SUFFIX
  | PoolSlot LOCK_ACK_POOL => LOCK_ACK_SUFFIX
  | PoolSlot LOCK_NACK_POOL => LOCK_NACK_SUFFIX
  | ScoreSlot LOCK_ACK => LOCK_ACK_SCORE_SUFFIX
  | ScoreSlot LOCK_NACK => LOCK_NACK_SCORE_SUFFIX
  end.

Definition all_slots : list Slot :=
  [PoolSlot PRIMARY_POOL; PoolSlot PROCESSING_POOL; PoolSlot LOCK_ACK_POOL; PoolSlot LOCK_NACK_POOL;
   ScoreSlot LOCK_ACK; ScoreSlot LOCK_NACK].

(** [zrem] of one list after another. *)
Lemma zrem_app ids1 ids2 z : zrem (ids1 ++ ids2) z = zrem ids2 (zrem ids1 z).
Proof. unfold zrem. apply foldl_app. Qed.

Lemma elem_of_all_slots s : s ∈ all_slots.
Proof. unfold all_slots. destruct s as [[]|[]]; set_solver. Qed.

(** A name without braces. *)
Definition valid_queue (q : string) : Prop := validateQueueName q = None.

#[export] Instance valid_queue_dec q : Decision (valid_queue q).
Proof. unfold valid_queue. destruct (validateQueueName q); [right|left]; done. Defined.

Lemma validate_invalid q : ~ valid_queue q -> validateQueueName q = Some errQueueNameContainsClusterHashTag.
Proof. unfold valid_queue, validateQueueName. by case_if. Qed.

Lemma valid_queue_chars q :
  valid_queue q -> ("{"%char ∉ list_ascii_of_string q) /\ ("}"%char ∉ list_ascii_of_string q).
Proof.
  unfold valid_queue, validateQueueName. case_if; [done|]. intros _.
  rewrite ContainsAny_false in E. split; intros Hc; apply (E _ Hc); set_solver.
Qed.

(** The text up to the first brace. *)
Lemma brace_inj q q' s s' :
  ("}"%char ∉ list_ascii_of_string q) -> ("}"%char ∉ list_ascii_of_string q') ->
  (q +:+ String "}" s) = (q' +:+ String "}" s') -> q = q' /\ s = s'.
Proof.
  revert q'. induction q as [|c q IH]; intros [|c' q'] Hq Hq'; rewrite ?append_cons, ?append_nil;
    simpl in Hq, Hq'; intros E; injection E as E.
  - done.
  - subst. set_solver.
  - subst. set_solver.
  - subst c'. destruct (IH q') as [-> ->]; [set_solver..|done|done].
Qed.

(** The text between the first brace and the last one. *)
Lemma last_brace_inj q q' s s' :
  ("}"%char ∉ list_ascii_of_string q) -> ("}"%char ∉ list_ascii_of_string s) ->
  (q +:+ String "}" s) = (q' +:+ String "}" s') -> q = q' /\ s = s'.
Proof.
  revert q'. induction q as [|c q IH]; intros [|c' q'] Hq Hs; rewrite ?append_cons, ?append_nil;
    simpl in Hq; intros E.
  - by injection E.
  - injection E as <- ->. destruct Hs. rewrite list_ascii_append. simpl. set_solver.
  - injection E as -> _. set_solver.
  - injection E as <- E. destruct (IH q') as [-> ->]; [set_solver|done..].
Qed.

Lemma slot_suffix_plain s :
  ("}"%char ∉ list_ascii_of_string (slot_suffix s)) /\ plain_text (slot_suffix s).
Proof. by destruct s as [[]|[]]; split; apply (bool_decide_eq_true_1 _); vm_compute. Qed.

Lemma slot_suffix_inj s s' : slot_suffix s = slot_suffix s' -> s = s'.
Proof. destruct s as [[]|[]], s' as [[]|[]]; intros E; try done; discriminate E. Qed.

Section CacheKeys.
Context {R : Type}.
Implicit Types c : RedisCache R.

Definition slot_key c (q : string) (s : Slot) : string :=
  poolPrefix c ++ "{" ++ q ++ "}" ++ slot_suffix s.

Lemma slot_key_app c q s :
  slot_key c q s = (poolPrefix c +:+ ("{" +:+ (q +:+ String "}" (slot_suffix s)))).
Proof. reflexivity. Qed.

Lemma slot_key_inj c q q' s s' :
  valid_queue q -> valid_queue q' -> slot_key c q s = slot_key c q' s' -> q = q' /\ s = s'.
Proof.
  intros [_ Hq]%valid_queue_chars [_ Hq']%valid_queue_chars. rewrite !slot_key_app.
  intros E%(inj _)%(inj _).
  apply brace_inj in E as [-> E]; [|done..]. split; [done|]. by apply slot_suffix_inj.
Qed.

#[export] Instance slot_key_queue_inj c q : Inj (=) (=) (slot_key c q).
Proof.
  intros s s'. rewrite !slot_key_app. intros E%(inj _)%(inj _)%(inj _).
  injection E as E. by apply slot_suffix_inj.
Qed.

Lemma slot_key_general c q s k : slot_key c q s <> generalCacheKey c k.
Proof.
  rewrite slot_key_app. unfold poolPrefix, generalCacheKey, fullPrefix. rewrite append_assoc.
  by intros E%(inj _).
Qed.

#[export] Instance generalCacheKey_inj c : Inj (=) (=) (generalCacheKey c).
Proof.
  intros k k'. unfold generalCacheKey. intros E%(inj _)%(inj _). by apply append_inj_r in E.
Qed.

Lemma activePool_slot c q : activePool c q = slot_key c q (PoolSlot PRIMARY_POOL).
Proof. reflexivity. Qed.

Lemma processingPool_slot c q : processingPool c q = slot_key c q (PoolSlot PROCESSING_POOL).
Proof. reflexivity. Qed.

Lemma lockPool_slot c q t : lockPool c q t = slot_key c q (PoolSlot (lock_pool t)).
Proof. by destruct t. Qed.

Lemma lockPoolScore_slot c q t : lockPoolScore c q t = slot_key c q (ScoreSlot t).
Proof. by destruct t. Qed.
End CacheKeys.

(** ** Sorted sets *)

Lemma zrem_lookup members z i : zrem members z !! i = if decide (i ∈ members) then None else z !! i.
Proof.
  unfold zrem. revert z. induction members as [|m members IH]; intros z; cbn [foldl].
  { rewrite decide_False; [done|]. set_solver. }
  rewrite IH. destruct (decide (i ∈ members)); [by rewrite decide_True by set_solver|].
  destruct (decide (i = m)) as [->|Hne]; [by rewrite lookup_delete_eq, decide_True by set_solver|].
  rewrite lookup_delete_ne, decide_False by set_solver. done.
Qed.

Lemma zadd_Some pairs z i x : zadd pairs z !! i = Some x -> z !! i = Some x \/ (x, i) ∈ pairs.
Proof.
  unfold zadd. revert z. induction pairs as [|[y j] pairs IH]; intros z; cbn [foldl fst snd]; [by left|].
  intros [H|H]%IH; [|right; set_solver]. apply lookup_insert_Some in H as [[-> ->]|[_ H]]; set_solver.
Qed.

Lemma zadd_is_Some pairs z i : is_Some (zadd pairs z !! i) <-> i ∈ pairs.*2 \/ is_Some (z !! i).
Proof.
  unfold zadd. revert z. induction pairs as [|[y j] pairs IH]; intros z; cbn [foldl]; [set_solver|].
  rewrite IH, fmap_cons, elem_of_cons, lookup_insert_is_Some'. simpl. naive_solver.
Qed.

Lemma zadd_lookup_in pairs z x i : NoDup pairs.*2 -> (x, i) ∈ pairs -> zadd pairs z !! i = Some x.
Proof.
  intros Hnd Hi. induction pairs as [|[y j] l IH] using rev_ind; [set_solver|].
  unfold zadd. rewrite foldl_app. cbn [foldl fst snd]. rewrite fmap_app in Hnd.
  apply NoDup_app in Hnd as (Hnd & Hdis & _). apply elem_of_app in Hi as [Hi|Hi].
  - assert (Hij : i ∈ l.*2) by (apply list_elem_of_fmap; by exists (x, i)).
    rewrite lookup_insert_ne; [by apply IH|]. intros <-. apply (Hdis j Hij). set_solver.
  - apply list_elem_of_singleton in Hi as [= -> ->]. apply lookup_insert_eq.
Qed.

Lemma zadd_one_size s i z :
  Z.of_nat (size (zadd [(s, i)] z)) - Z.of_nat (size z) = if decide (is_Some (z !! i)) then 0 else 1.
Proof.
  unfold zadd. cbn [foldl fst snd]. case_decide as Hd.
  - destruct Hd as [x Hx]. rewrite map_size_insert_Some by eauto. lia.
  - rewrite map_size_insert_None by (by apply eq_None_not_Some). lia.
Qed.

Lemma zrem_one_size i z :
  Z.of_nat (size z) - Z.of_nat (size (zrem [i] z)) = if decide (is_Some (z !! i)) then 1 else 0.
Proof.
  unfold zrem. cbn [foldl]. case_decide as Hd.
  - rewrite map_size_delete_Some by done.
    destruct (size z) eqn:E; [|lia]. destruct Hd as [x Hx]. apply map_size_empty_inv in E. set_solver.
  - rewrite map_size_delete_None by (by apply eq_None_not_Some). lia.
Qed.

Lemma f64_eqb_key x y :
  f64_eqb x y = match f64_key x, f64_key y with
                | Some a, Some b => negb (lex_ltb a b) && negb (lex_ltb b a)
                | _, _ => false
                end.
Proof.
  unfold f64_eqb, SFeqb, SFcompare.
  destruct x as [sx|sx| |sx mx ex], y as [sy|sy| |sy my ey]; try destruct sx; try destruct sy;
    try reflexivity; simpl; rewrite pos_compare_cont_Z;
    destruct (Z.compare_spec ex ey), (Z.compare_spec (Z.pos mx) (Z.pos my)); simpl;
    rewrite <- ?Pos2Z.opp_pos; lia.
Qed.

(** Scores that are numbers, and the bytes of the ids, order the elements. *)
Lemma zless_weak_order : weak_order zless (fun p => f64_is_nan p.2 = false).
Proof.
  split.
  - intros [i x] [j y] Hx Hy. unfold zless. cbn [fst snd] in *.
    rewrite orb_true_iff, orb_false_iff, andb_true_iff, andb_false_iff. intros [H|[He Hs]].
    + split; [by apply f64_ltb_asym|]. left. revert H. rewrite f64_eqb_key, f64_ltb_key.
      destruct (f64_key x), (f64_key y); try done. intros ->. by rewrite andb_false_r.
    + split; [|right; by apply str_ltb_asym]. revert He. rewrite f64_eqb_key, f64_ltb_key.
      destruct (f64_key x), (f64_key y); try done. by intros [_ ?%negb_true_iff]%andb_true_iff.
  - intros [i x] [j y] [k z] Hx Hy Hz. unfold zless. cbn [fst snd] in *.
    rewrite !orb_false_iff, !andb_false_iff. intros [H1 E1] [H2 E2].
    split; [by apply (f64_nltb_trans x y z)|]. revert H1 H2 E1 E2.
    apply f64_key_nan in Hx as [a Ha], Hy as [b Hb], Hz as [d Hd].
    rewrite !f64_eqb_key, !f64_ltb_key, Ha, Hb, Hd, !andb_false_iff, !negb_false_iff.
    intros H1 H2 E1 E2. destruct (lex_ltb d a) eqn:E; [by left; right|]. right.
    assert (H3 : lex_ltb b a = false) by (by apply (lex_nltb_trans b d a)).
    assert (H4 : lex_ltb d b = false) by (by apply (lex_nltb_trans d a b)).
    destruct E1 as [[E1|E1]|E1]; [congruence..|]. destruct E2 as [[E2|E2]|E2]; [congruence..|].
    by eapply str_nltb_trans.
Qed.

(** The elements of a sorted set in order. *)
Lemma zsorted_perm z : zsorted z ≡ₚ map_to_list z.
Proof. apply stable_sort_perm. Qed.

Lemma elem_of_zsorted z i x : (i, x) ∈ zsorted z <-> z !! i = Some x.
Proof. rewrite zsorted_perm. apply elem_of_map_to_list. Qed.

(** In a set of numbers, an element does not have a lower score than an earlier one. *)
Lemma zsorted_sorted z :
  (forall i x, z !! i = Some x -> f64_is_nan x = false) ->
  StronglySorted (fun p p' => f64_ltb p'.2 p.2 = false) (zsorted z).
Proof.
  intros Hn. eapply StronglySorted_impl; [|apply (stable_sort_sorted zless _ zless_weak_order)].
  - intros [i x] [j y]. unfold zless. by intros [? _]%orb_false_iff.
  - apply Forall_forall. intros [i x] Hx%elem_of_map_to_list. by apply Hn in Hx.
Qed.

Lemma NoDup_zsorted z : NoDup (zsorted z).*1.
Proof. rewrite zsorted_perm. apply NoDup_fst_map_to_list. Qed.

Lemma NoDup_filter_fst {A B} (f : A * B -> bool) l : NoDup l.*1 -> NoDup (List.filter f l).*1.
Proof. intros Hd. eapply sublist_NoDup; [exact Hd|]. apply fmap_sublist, filter_sublist. Qed.

Lemma elem_of_filter_fst {B} (f : string * B -> bool) l i :
  i ∈ (List.filter f l).*1 -> exists x, (i, x) ∈ l /\ f (i, x) = true.
Proof.
  rewrite list_elem_of_fmap. intros ([i' x] & -> & Hx). exists x.
  by rewrite list_elem_of_In, <- filter_In, <- list_elem_of_In.
Qed.

Lemma zlimit_sublist {A} n (l : list A) : sublist (zlimit n l) l.
Proof. unfold zlimit. case_if; [done|]. apply sublist_take. Qed.

Lemma zrange_to_sublist {A} n (l : list A) : sublist (zrange_to n l) l.
Proof. apply sublist_take. Qed.
