(* ===== verification/RedisEffects.v ===== *)
(** * The effects of the scripts

    What each script of [RedisScripts.v] does to the six sorted sets of one
    queue, as a function of those sets, on a server that keeps the documented
    behaviour of its commands.  The keys that are not of the queue are not
    changed. *)

From S2P Require Import Prelude Float64 Score Message Cache.
From S2P Require Import Redis RedisScripts RedisCache RedisKeys.
#[local] Open Scope string_scope.
#[local] Open Scope list_scope.
#[local] Open Scope Z_scope.

Lemma script_bind {R A B} (m : Script R A) (k : A -> Script R B) r r' a :
  m r = (r', inl a) -> (m ≫= k) r = k a r'.
Proof. unfold mbind, Script_bind. by intros ->. Qed.

Lemma script_bind_error {R A B} (m : Script R A) (k : A -> Script R B) r r' e :
  m r = (r', inr e) -> (m ≫= k) r = (r', inr e).
Proof. unfold mbind, Script_bind. by intros ->. Qed.

(** Runs the first command of a script, whose result is known. *)
Ltac run_step E :=
  erewrite script_bind by exact E; cbv beta;
  try change (0 <? 1) with true; try change (0 <? 0) with false; cbv iota.

(** The sorted sets of a queue. *)
Definition Sets : Type := Slot -> gmap string float64.

Definition upd (f : Sets) (s : Slot) (z : gmap string float64) : Sets :=
  fun s' => if decide (s' = s) then z else f s'.

Lemma upd_eq f s z : upd f s z s = z.
Proof. unfold upd. by rewrite decide_True. Qed.

Lemma upd_ne f s s' z : s' <> s -> upd f s z s' = f s'.
Proof. unfold upd. intros. by rewrite decide_False. Qed.

Section Effects.
Context {R : Type} {HO : RedisOps R} {HR : RedisCommands R}.
Context (key : Slot -> string) `{Hkey : !Inj (=) (=) key}.
Context (r0 : R).

(** The server [r] has the sets [f] under the keys of the queue, and the
    values of [r0] under every other key. *)
Record at_sets (r : R) (f : Sets) : Prop := {
  at_zset_key : forall s, zset_key r (key s);
  at_others : forall k, (forall s, k <> key s) -> redis_value r k = redis_value r0 k;
  at_value : forall s, zset r (key s) = f s
}.

Lemma at_sets_ext r f g : (forall s, f s = g s) -> at_sets r f -> at_sets r g.
Proof. intros Hfg [? ? Hv]. split; [done..|]. intros s. by rewrite Hv. Qed.

(** A command that replaces the sorted set of one key. *)
Lemma at_sets_upd r r' f s z :
  at_sets r f -> zset r' (key s) = z -> zset_key r' (key s) -> same_others (key s) r r' ->
  at_sets r' (upd f s z).
Proof using Hkey.
  intros [Hk Ho Hv] Hz Hzk Hs. split.
  - intros s'. destruct (decide (s' = s)) as [->|Hne]; [done|]. intros v.
    rewrite Hs by (by intros E%(inj key)). apply Hk.
  - intros k Hn. rewrite Hs by apply Hn. by apply Ho.
  - intros s'. unfold upd. case_decide as Hd; [by subst|]. unfold zset.
    rewrite Hs by (by intros E%(inj key)). apply Hv.
Qed.

Lemma ZREM_at r f s members :
  members <> [] -> at_sets r f ->
  exists r', ZREM (key s) members r
      = (r', inl (Z.of_nat (size (f s)) - Z.of_nat (size (zrem members (f s))))) /\
    at_sets r' (upd f s (zrem members (f s))).
Proof using HR Hkey.
  intros Hm Hat. destruct (redis_ZREM (key s) members r) as (r' & E & Hz & Hk & Ho); [apply Hat|done|].
  rewrite (at_value _ _ Hat) in E, Hz. rewrite Hz in E. exists r'. split; [done|].
  by eapply at_sets_upd.
Qed.

Lemma ZADD_at r f s pairs :
  pairs <> [] -> Forall (fun p => f64_is_nan p.1 = false) pairs -> at_sets r f ->
  exists r', ZADD (key s) pairs r
      = (r', inl (Z.of_nat (size (zadd pairs (f s))) - Z.of_nat (size (f s)))) /\
    at_sets r' (upd f s (zadd pairs (f s))).
Proof using HR Hkey.
  intros Hm Hn Hat.
  destruct (redis_ZADD (key s) pairs r) as (r' & E & Hz & Hk & Ho); [apply Hat|done..|].
  rewrite (at_value _ _ Hat) in E, Hz. rewrite Hz in E. exists r'. split; [done|].
  by eapply at_sets_upd.
Qed.

Lemma ZADD_nan_at r f s pairs :
  pairs <> [] -> ~ Forall (fun p => f64_is_nan p.1 = false) pairs -> at_sets r f ->
  exists e, ZADD (key s) pairs r = (r, inr e).
Proof using HR. intros Hm Hn Hat. apply redis_ZADD_nan; [apply Hat|done..]. Qed.

Lemma ZSCORE_at r f s i : at_sets r f -> ZSCORE (key s) i r = inl (f s !! i).
Proof using HR. intros Hat. rewrite redis_ZSCORE by apply Hat. by rewrite (at_value _ _ Hat). Qed.

Lemma unpack_at {A} (l : list A) r : Z.of_nat (length l) <= 4000 -> unpack l r = (r, inl l).
Proof using HR.
  intros Hl. unfold unpack. pose proof redis_unpack.
  by rewrite (proj2 (Z.leb_le _ _)) by lia.
Qed.

Lemma unpack_pairs_at {A} (l : list A) r : Z.of_nat (length l) <= 2000 -> unpack_pairs l r = (r, inl l).
Proof using HR.
  intros Hl. unfold unpack_pairs. pose proof redis_unpack.
  by rewrite (proj2 (Z.leb_le _ _)) by lia.
Qed.

(** ** Removal *)

(** The elements of [ids] in the sets of some slots. *)
Definition removed (ids : list string) (f : Sets) (slots : list Slot) : Z :=
  foldr (fun s n => Z.of_nat (size (f s)) - Z.of_nat (size (zrem ids (f s))) + n) 0 slots.

Lemma remove_loop_at ids slots : ids <> [] -> Z.of_nat (length ids) <= 4000 -> NoDup slots ->
  forall total r f, at_sets r f ->
  exists r', remove_loop ids (map key slots) total r = (r', inl (total + removed ids f slots)) /\
    at_sets r' (fun s => if decide (s ∈ slots) then zrem ids (f s) else f s).
Proof using HR Hkey.
  intros Hne Hlen. induction slots as [|s slots IH]; intros Hd total r f Hat; cbn [map remove_loop].
  - exists r. rewrite Z.add_0_r. split; [done|]. eapply at_sets_ext; [|exact Hat]. intros s.
    rewrite decide_False; [done|]. set_solver.
  - apply NoDup_cons in Hd as [Hn Hd]. erewrite script_bind by (by apply unpack_at).
    destruct (ZREM_at r f s ids Hne Hat) as (r1 & E & Hat1). erewrite script_bind by exact E.
    destruct (IH Hd (total + (Z.of_nat (size (f s)) - Z.of_nat (size (zrem ids (f s))))) r1 _ Hat1)
      as (r2 & E2 & Hat2).
    exists r2. split.
    + rewrite E2. do 2 f_equal. cbn [removed foldr].
      assert (Hs : removed ids (upd f s (zrem ids (f s))) slots = removed ids f slots).
      { clear -Hn. induction slots as [|s' slots IH]; [done|]. cbn [removed foldr].
        apply not_elem_of_cons in Hn as [Hs Hn]. unfold removed in IH. rewrite IH by done.
        by rewrite upd_ne by done. }
      rewrite Hs. unfold removed. lia.
    + eapply at_sets_ext; [|exact Hat2]. intros s'. cbv beta. unfold upd.
      destruct (decide (s' = s)) as [->|Hs].
      * rewrite decide_False by done. by rewrite decide_True by set_solver.
      * apply decide_ext. set_solver.
Qed.

(** ** One message *)

Lemma ZREM_one_at r f s i :
  at_sets r f ->
  exists r', ZREM (key s) [i] r = (r', inl (if decide (is_Some (f s !! i)) then 1 else 0)) /\
    at_sets r' (upd f s (zrem [i] (f s))).
Proof using HR Hkey.
  intros Hat. destruct (ZREM_at r f s [i]) as (r' & E & Hat'); [done..|].
  exists r'. by rewrite <- zrem_one_size.
Qed.

Lemma ZADD_one_at r f s x i :
  f64_is_nan x = false -> at_sets r f ->
  exists r', ZADD (key s) [(x, i)] r = (r', inl (if decide (is_Some (f s !! i)) then 0 else 1)) /\
    at_sets r' (upd f s (zadd [(x, i)] (f s))).
Proof using HR Hkey.
  intros Hx Hat. destruct (ZADD_at r f s [(x, i)]) as (r' & E & Hat'); [done|by repeat constructor|done|].
  exists r'. by rewrite <- zadd_one_size with (s := x).
Qed.

Lemma ZADD_one_nan_at r f s x i :
  f64_is_nan x = true -> at_sets r f -> exists e, ZADD (key s) [(x, i)] r = (r, inr e).
Proof using HR.
  intros Hx Hat. eapply ZADD_nan_at; [done| |exact Hat]. intros Hf.
  apply Forall_cons in Hf as [Hf _]. simpl in Hf. congruence.
Qed.

(** The sets after [i] has left the slot [s]. *)
Definition without (f : Sets) (s : Slot) (i : string) : Sets := upd f s (zrem [i] (f s)).

Lemma without_absent f s i s' : f s !! i = None -> without f s i s' = f s'.
Proof.
  intros Hn. unfold without, upd. case_decide as Hd; [subst|done]. apply map_eq. intros j.
  rewrite zrem_lookup. case_decide as Hj; [|done]. apply list_elem_of_singleton in Hj as ->. done.
Qed.

(** A move succeeds when the source has the element; an element with a score
    that is not a number is lost. *)
Lemma moveElementScript_at r f dst src x i :
  dst <> src -> at_sets r f ->
  exists r' res, moveElementScript (key dst) (key src) x i r = (r', res) /\
    match f src !! i with
    | None => res = inl 0 /\ at_sets r' f
    | Some _ =>
        if f64_is_nan x then (exists e, res = inr e) /\ at_sets r' (without f src i)
        else res = inl (if decide (is_Some (f dst !! i)) then 0 else 1) /\
             at_sets r' (upd (without f src i) dst (zadd [(x, i)] (f dst)))
    end.
Proof using HR Hkey.
  intros Hne Hat. unfold moveElementScript.
  destruct (ZREM_one_at r f src i Hat) as (r1 & E1 & Hat1). fold (without f src i) in Hat1.
  destruct (f src !! i) as [y|] eqn:Hi.
  - rewrite decide_True in E1 by done. destruct (f64_is_nan x) eqn:Hx.
    + destruct (ZADD_one_nan_at r1 _ dst x i Hx Hat1) as (e & E2). do 2 eexists. split.
      { erewrite script_bind by exact E1. exact E2. } split; [by eexists|exact Hat1].
    + destruct (ZADD_one_at r1 _ dst x i Hx Hat1) as (r2 & E2 & Hat2).
      unfold without in E2, Hat2 at 2. rewrite upd_ne in E2, Hat2 by done. do 2 eexists. split.
      { erewrite script_bind by exact E1. exact E2. } by split.
  - rewrite decide_False in E1 by (by intros [? ?]). do 2 eexists. split.
    { by erewrite script_bind by exact E1. } split; [done|].
    eapply at_sets_ext; [|exact Hat1]. intros s. by apply without_absent.
Qed.

(** A lock moves the element and keeps its score, unless it is [-1]. *)
Lemma lockElementScript_at r f active lock t x i y :
  lock <> active -> active <> ScoreSlot t -> lock <> ScoreSlot t ->
  f64_is_nan x = false -> at_sets r f ->
  let locked := upd (without f active i) lock (zadd [(x, i)] (f lock)) in
  exists r' res, lockElementScript (key active) (key lock) (key (ScoreSlot t)) x i y r = (r', res) /\
    match f active !! i with
    | None => res = inl 0 /\ at_sets r' f
    | Some _ =>
        if f64_eqb y (f64_of_Z (-1)) then
          res = inl (if decide (is_Some (f lock !! i)) then 0 else 1) /\ at_sets r' locked
        else if f64_is_nan y then (exists e, res = inr e) /\ at_sets r' locked
        else res = inl (if decide (is_Some (f (ScoreSlot t) !! i)) then 0 else 1) /\
             at_sets r' (upd locked (ScoreSlot t) (zadd [(y, i)] (f (ScoreSlot t))))
    end.
Proof using HR Hkey.
  intros Hla Has Hls Hx Hat locked. unfold lockElementScript.
  destruct (ZREM_one_at r f active i Hat) as (r1 & E1 & Hat1). fold (without f active i) in Hat1.
  destruct (f active !! i) as [z|] eqn:Hi.
  2:{ rewrite decide_False in E1 by (by intros [? ?]). do 2 eexists. split.
      { by erewrite script_bind by exact E1. } split; [done|].
      eapply at_sets_ext; [|exact Hat1]. intros s. by apply without_absent. }
  rewrite decide_True in E1 by done.
  destruct (ZADD_one_at r1 _ lock x i Hx Hat1) as (r2 & E2 & Hat2).
  unfold without in E2, Hat2 at 2. rewrite upd_ne in E2, Hat2 by done. fold locked in Hat2.
  assert (Hs : locked (ScoreSlot t) = f (ScoreSlot t)).
  { unfold locked, without. by rewrite !upd_ne by done. }
  destruct (f64_eqb y _) eqn:Hy; [|destruct (f64_is_nan y) eqn:Hn].
  - do 2 eexists. split; [|by split]. run_step E1. by run_step E2.
  - destruct (ZADD_one_nan_at r2 _ (ScoreSlot t) y i Hn Hat2) as (e & E3). do 2 eexists. split.
    { run_step E1. run_step E2. exact E3. } split; [by eexists|exact Hat2].
  - destruct (ZADD_one_at r2 _ (ScoreSlot t) y i Hn Hat2) as (r3 & E3 & Hat3). rewrite Hs in E3, Hat3.
    do 2 eexists. split; [|by split]. run_step E1. run_step E2. exact E3.
Qed.

(** ** Many messages *)

Lemma for_ZADD_at dst x elements : f64_is_nan x = false -> forall r f, at_sets r f ->
  exists r', for_ipairs (fun k => ZADD (key dst) [(x, k)]) elements r = (r', inl tt) /\
    at_sets r' (upd f dst (zadd (map (pair x) elements) (f dst))).
Proof using HR Hkey.
  intros Hx. induction elements as [|i elements IH]; intros r f Hat; cbn [for_ipairs map].
  - exists r. split; [done|]. eapply at_sets_ext; [|exact Hat]. intros s. unfold upd.
    case_decide as Hd; [by rewrite Hd|done].
  - destruct (ZADD_one_at r f dst x i Hx Hat) as (r1 & E1 & Hat1). erewrite script_bind by exact E1.
    destruct (IH r1 _ Hat1) as (r2 & E2 & Hat2). exists r2. split; [exact E2|].
    eapply at_sets_ext; [|exact Hat2]. intros s. rewrite upd_eq. unfold upd. by destruct (decide (s = dst)).
Qed.

(** The tail of the scripts that move a list of elements. *)
Definition move_all (dst src : string) (x : float64) (elements : list string) : Script R RedisReply :=
  _ ← for_ipairs (fun k => ZADD dst [(x, k)]) elements;
  members ← unpack elements;
  _ ← ZREM src members;
  mret (ReplyArray elements).

Definition moved_sets (f : Sets) (dst src : Slot) (pairs : list (float64 * string)) : Sets :=
  upd (upd f dst (zadd pairs (f dst))) src (zrem pairs.*2 (f src)).

Lemma moved_sets_nil f dst src s : moved_sets f dst src [] s = f s.
Proof using Type.
  unfold moved_sets, upd. destruct (decide (s = src)) as [->|]; [done|].
  by destruct (decide (s = dst)) as [->|].
Qed.

Lemma move_all_at dst src x elements r f :
  dst <> src -> elements <> [] -> Z.of_nat (length elements) <= 4000 -> f64_is_nan x = false ->
  at_sets r f ->
  exists r', move_all (key dst) (key src) x elements r = (r', inl (ReplyArray elements)) /\
    at_sets r' (moved_sets f dst src (map (pair x) elements)).
Proof using HR Hkey.
  intros Hds Hne Hlen Hx Hat. unfold move_all.
  destruct (for_ZADD_at dst x elements Hx r f Hat) as (r1 & E1 & Hat1).
  destruct (ZREM_at r1 _ src elements Hne Hat1) as (r2 & E2 & Hat2).
  exists r2. split.
  - erewrite script_bind by exact E1. erewrite script_bind by (by apply unpack_at).
    by erewrite script_bind by exact E2.
  - eapply at_sets_ext; [|exact Hat2]. intros s. unfold moved_sets.
    rewrite (upd_ne _ _ src) by congruence. rewrite map_map. by rewrite map_id.
Qed.

(** The elements of a slot in a range of scores, the highest scores first. *)
Definition rev_range (f : Sets) (s : Slot) (x : float64) (n : Z) : list string :=
  zlimit n (reverse (List.filter (fun p => in_bounds (Some f64_zero) (Some x) p.2) (zsorted (f s))).*1).

Lemma moveFilteredElementsScript_at dst src x y n r f :
  dst <> src -> 0 <= n <= 4000 -> f64_is_nan x = false -> f64_is_nan y = false -> at_sets r f ->
  let elements := rev_range f src x n in
  exists r', moveFilteredElementsScript (key dst) (key src) x y n r
      = (r', inl (match elements with [] => ReplyString "" | _ => ReplyArray elements end)) /\
    at_sets r' (moved_sets f dst src (map (pair y) elements)).
Proof using HR Hkey.
  intros Hds Hn Hx Hy Hat elements. unfold moveFilteredElementsScript.
  assert (E : read (ZREVRANGEBYSCORE (key src) (Some x) (Some f64_zero) n) r = (r, inl elements)).
  { unfold read. rewrite redis_ZREVRANGEBYSCORE by apply Hat. simpl. rewrite Hx. simpl.
    by rewrite (at_value _ _ Hat). }
  assert (Hlen : Z.of_nat (length elements) <= 4000).
  { unfold elements, rev_range, zlimit. case_if; bool_hyps; [lia|]. rewrite length_take. lia. }
  destruct elements as [|i elements'] eqn:Ee.
  - exists r. split; [by erewrite script_bind by exact E|]. eapply at_sets_ext; [|exact Hat].
    intros s. by rewrite moved_sets_nil.
  - destruct (move_all_at dst src y (i :: elements') r f) as (r' & E' & Hat'); [done..|].
    exists r'. split; [|exact Hat']. erewrite script_bind by exact E. exact E'.
Qed.

(** The elements a pull takes. *)
Definition pulled_elements (f : Sets) (s : Slot) (n : Z) (minScore maxScore : option float64) :
    list string :=
  match minScore, maxScore with
  | None, None => zrange_to (n - 1) (zsorted (f s)).*1
  | _, _ => zlimit n (List.filter (fun p => in_bounds minScore maxScore p.2) (zsorted (f s))).*1
  end.

Lemma length_pulled_elements f s n mn mx :
  0 < n -> Z.of_nat (length (pulled_elements f s n mn mx)) <= n.
Proof using Type.
  intros Hn. unfold pulled_elements, zrange_to, zlimit.
  destruct mn, mx; repeat case_if; bool_hyps; try lia; rewrite length_take; lia.
Qed.

Lemma pullElementsScript_at src dst n x mn mx r f :
  dst <> src -> 0 < n <= 4000 -> f64_is_nan x = false -> at_sets r f ->
  let elements := pulled_elements f src n mn mx in
  if bound_ok mn && bound_ok mx then
    exists r', pullElementsScript (key src) (key dst) n x mn mx r
        = (r', inl (match elements with [] => ReplyString "" | _ => ReplyArray elements end)) /\
      at_sets r' (moved_sets f dst src (map (pair x) elements))
  else exists e, pullElementsScript (key src) (key dst) n x mn mx r = (r, inr e).
Proof using HR Hkey.
  intros Hds Hn Hx Hat elements. unfold pullElementsScript.
  set (query := match mn, mx with None, None => _ | _, _ => _ end).
  assert (E : query r = if bound_ok mn && bound_ok mx then (r, inl elements)
                        else (r, inr (ErrorString "ERR min or max is not a float"))).
  { unfold query, elements, pulled_elements. destruct mn as [mn|], mx as [mx|].
    1-3: unfold read; rewrite redis_ZRANGEBYSCORE by apply Hat; rewrite (at_value _ _ Hat); by case_if.
    cbn. unfold lua_index. rewrite (proj2 (Z.ltb_lt _ _)) by lia.
    unfold mbind, Script_bind, read. cbn. rewrite redis_ZRANGE by apply Hat. by rewrite (at_value _ _ Hat). }
  destruct (bound_ok mn && bound_ok mx).
  2:{ eexists. by erewrite script_bind_error by exact E. }
  pose proof (length_pulled_elements f src n mn mx) as Hlen. fold elements in Hlen.
  destruct elements as [|i elements'] eqn:Ee.
  - exists r. split; [by erewrite script_bind by exact E|]. eapply at_sets_ext; [|exact Hat].
    intros s. by rewrite moved_sets_nil.
  - destruct (move_all_at dst src x (i :: elements') r f) as (r' & E' & Hat'); [done|done|lia|done..|].
    exists r'. split; [|exact Hat']. erewrite script_bind by exact E. exact E'.
Qed.

(** ** Unlocking *)

(** The scores the unlocked elements get: the ones kept with the lock. *)
Definition unlock_pairs (f : Sets) (scores : Slot) (d : float64) (elements : list string) :
    list (float64 * string) :=
  map (fun i => (default d (f scores !! i), i)) elements.

Lemma unlock_pairs_snd f scores d elements : (unlock_pairs f scores d elements).*2 = elements.
Proof using Type.
  unfold unlock_pairs. induction elements as [|i elements IH]; [done|]. cbn [map]. by rewrite fmap_cons, IH.
Qed.

Lemma bulk_data_at scores d r f : at_sets r f -> forall elements,
  bulk_data (key scores) d elements r = (r, inl (unlock_pairs f scores d elements)).
Proof using HR.
  intros Hat. induction elements as [|i elements IH]; [done|]. cbn [bulk_data].
  assert (E : read (ZSCORE (key scores) i) r = (r, inl (f scores !! i))).
  { unfold read. by rewrite (ZSCORE_at r f). }
  run_step E. run_step IH. done.
Qed.

Definition unlocked_sets (f : Sets) (lock dst scores : Slot) (d : float64) (elements : list string) : Sets :=
  upd (moved_sets f dst lock (unlock_pairs f scores d elements)) scores (zrem elements (f scores)).

Lemma unlockElementsScript_at lock dst scores n x d r f :
  dst <> lock -> scores <> lock -> scores <> dst -> 0 <= n <= 1000 ->
  f64_is_nan x = false -> f64_is_nan d = false ->
  (forall i y, f scores !! i = Some y -> f64_is_nan y = false) -> at_sets r f ->
  let elements := rev_range f lock x n in
  exists r', unlockElementsScript (key lock) (key dst) (key scores) n x d r
      = (r', inl (match elements with [] => ReplyString "" | _ => ReplyArray elements end)) /\
    at_sets r' (unlocked_sets f lock dst scores d elements).
Proof using HR Hkey.
  intros Hdl Hsl Hsd Hn Hx Hd Hsc Hat elements. unfold unlockElementsScript.
  assert (E : read (ZREVRANGEBYSCORE (key lock) (Some x) (Some f64_zero) n) r = (r, inl elements)).
  { unfold read. rewrite redis_ZREVRANGEBYSCORE by apply Hat. simpl. rewrite Hx. simpl.
    by rewrite (at_value _ _ Hat). }
  assert (Hlen : Z.of_nat (length elements) <= 1000).
  { unfold elements, rev_range, zlimit. case_if; bool_hyps; [lia|]. rewrite length_take. lia. }
  run_step E. clear E. destruct elements as [|i elements'] eqn:Ee; cbv iota.
  { exists r. split; [done|]. eapply at_sets_ext; [|exact Hat].
    intros s. unfold unlocked_sets, upd. destruct (decide (s = scores)) as [->|]; [done|].
    by rewrite moved_sets_nil. }
  clearbody elements. rewrite <- Ee in *. assert (Hne : elements <> []) by congruence.
  pose proof (bulk_data_at scores d r f Hat elements) as Eb.
  set (pairs := unlock_pairs f scores d elements) in *.
  assert (Hps : pairs.*2 = elements) by apply unlock_pairs_snd.
  assert (Hpl : length pairs = length elements) by apply length_map.
  assert (Ep : unpack_pairs pairs r = (r, inl pairs)) by (apply unpack_pairs_at; lia).
  assert (Hpne : pairs <> []) by (intros E; rewrite E in Hpl; by destruct elements).
  assert (Hpn : Forall (fun p => f64_is_nan p.1 = false) pairs).
  { apply Forall_forall. intros p (j & -> & _)%list_elem_of_fmap. simpl.
    destruct (f scores !! j) as [y|] eqn:Ej; [by eapply Hsc|done]. }
  destruct (ZADD_at r f dst pairs Hpne Hpn Hat) as (r1 & E1 & Hat1).
  destruct (ZREM_at r1 _ lock elements Hne Hat1) as (r2 & E2 & Hat2).
  destruct (ZREM_at r2 _ scores elements Hne Hat2) as (r3 & E3 & Hat3).
  assert (Eu : forall r, unpack elements r = (r, inl elements)) by (intros; apply unpack_at; lia).
  exists r3. split.
  - run_step Eb. run_step Ep. run_step E1. run_step (Eu r1). run_step E2. run_step (Eu r2).
    run_step E3. by rewrite Ee.
  - eapply at_sets_ext; [|exact Hat3]. intros s. unfold unlocked_sets, moved_sets.
    fold pairs. rewrite (upd_ne _ _ scores) by done. rewrite (upd_ne _ _ scores) by done.
    rewrite (upd_ne _ _ lock) by congruence. by rewrite Hps.
Qed.

(** ** Insertion *)

Lemma exists_in_at i r f : at_sets r f -> forall slots,
  exists_in (map key slots) i r = (r, inl (existsb (fun s => bool_decide (is_Some (f s !! i))) slots)).
Proof using HR.
  intros Hat. induction slots as [|s slots IH]; [done|]. cbn [map exists_in existsb].
  assert (E : read (ZSCORE (key s) i) r = (r, inl (f s !! i))).
  { unfold read. by rewrite (ZSCORE_at r f). }
  run_step E. destruct (f s !! i) as [y|]; [done|]. rewrite IH.
  rewrite (bool_decide_eq_false_2 (is_Some None)) by apply is_Some_None. done.
Qed.

(** The pairs whose element is in no set of the slots. *)
Definition absent_pairs (f : Sets) (slots : list Slot) (pairs : list (float64 * string)) :
    list (float64 * string) :=
  List.filter (fun p => negb (existsb (fun s => bool_decide (is_Some (f s !! p.2))) slots)) pairs.

Lemma to_insert_at slots r f : at_sets r f -> forall pairs,
  to_insert (map key slots) pairs r = (r, inl (absent_pairs f slots pairs)).
Proof using HR.
  intros Hat. induction pairs as [|[x i] pairs IH]; [done|]. cbn [to_insert].
  pose proof (exists_in_at i r f Hat slots) as E. run_step E. run_step IH.
  unfold absent_pairs. cbn [List.filter snd]. by destruct (existsb _ slots).
Qed.

Lemma addElementsScript_at dst slots pairs r f :
  Z.of_nat (length pairs) <= 2000 -> at_sets r f ->
  let new := absent_pairs f (dst :: slots) pairs in
  (Forall (fun p => f64_is_nan p.1 = false) new /\
   exists r', addElementsScript (key dst) (map key slots) pairs r = (r', inl (ReplyArray new.*2)) /\
     at_sets r' (upd f dst (zadd new (f dst)))) \/
  (~ Forall (fun p => f64_is_nan p.1 = false) new /\
   exists e, addElementsScript (key dst) (map key slots) pairs r = (r, inr e)).
Proof using HR Hkey.
  intros Hlen Hat new. unfold addElementsScript.
  pose proof (to_insert_at (dst :: slots) r f Hat pairs) as E. fold new in E.
  assert (Hl : Z.of_nat (length new) <= 2000).
  { pose proof (sublist_length _ _ (filter_sublist (fun p : float64 * string =>
      negb (existsb (fun s => bool_decide (is_Some (f s !! p.2))) (dst :: slots))) pairs)) as Hs.
    unfold new, absent_pairs. lia. }
  destruct new as [|p new'] eqn:En.
  { left. split; [constructor|]. exists r. split; [by run_step E|]. eapply at_sets_ext; [|exact Hat].
    intros s. unfold upd. by destruct (decide (s = dst)) as [->|]. }
  clear En new. assert (Hne : p :: new' <> []) by done.
  assert (Eu : unpack_pairs (p :: new') r = (r, inl (p :: new'))) by (by apply unpack_pairs_at).
  destruct (Forall_dec (fun p : float64 * string => f64_is_nan p.1 = false) (p :: new')) as [Hf|Hf].
  - left. split; [done|]. destruct (ZADD_at r f dst _ Hne Hf Hat) as (r1 & E1 & Hat1).
    exists r1. split; [|done]. run_step E. run_step Eu. by run_step E1.
  - right. split; [done|]. destruct (ZADD_nan_at r f dst _ Hne Hf Hat) as (e & E1).
    exists e. run_step E. run_step Eu. by erewrite script_bind_error by exact E1.
Qed.
End Effects.
