(* ===== verification/RedisFacts.v ===== *)
(** * The Redis cache: invariant and cache contract

    The invariant of the keys of a cache (no message in two pools of a queue,
    the scores kept for locked messages only, no score that is not a number,
    no other keys under the prefix), the moves each operation makes, and the
    instance of the contract of [Cache.v]. *)

From S2P Require Import Prelude Float64 Dtime Utils Score Message Cache.
From S2P Require Import GoStrings Redis RedisScripts RedisCache RedisKeys RedisEffects.
#[local] Open Scope string_scope.
#[local] Open Scope list_scope.
#[local] Open Scope Z_scope.

(** ** Generic lemmas *)

Lemma moved_sets_score f src dst pairs t :
  moved_sets f (PoolSlot dst) (PoolSlot src) pairs (ScoreSlot t) = f (ScoreSlot t).
Proof. unfold moved_sets. by rewrite !upd_ne. Qed.

Lemma zrem_not_nan members z i x :
  (forall i x, z !! i = Some x -> f64_is_nan x = false) -> zrem members z !! i = Some x -> f64_is_nan x = false.
Proof. intros Hz. rewrite zrem_lookup. case_decide; [done|]. apply Hz. Qed.

Lemma zadd_not_nan pairs z i x :
  Forall (fun p => f64_is_nan p.1 = false) pairs ->
  (forall i x, z !! i = Some x -> f64_is_nan x = false) -> zadd pairs z !! i = Some x -> f64_is_nan x = false.
Proof.
  intros Hp Hz [H|H]%zadd_Some; [by eapply Hz|]. rewrite Forall_forall in Hp. by apply Hp in H.
Qed.

Lemma upd_not_nan f s z :
  (forall s i x, f s !! i = Some x -> f64_is_nan x = false) ->
  (forall i x, z !! i = Some x -> f64_is_nan x = false) ->
  forall s' i x, upd f s z s' !! i = Some x -> f64_is_nan x = false.
Proof. intros Hf Hz s' i x. unfold upd. case_decide; [apply Hz|apply Hf]. Qed.

Lemma moved_sets_not_nan f src dst pairs :
  (forall s i x, f s !! i = Some x -> f64_is_nan x = false) ->
  Forall (fun p => f64_is_nan p.1 = false) pairs ->
  forall s i x, moved_sets f dst src pairs s !! i = Some x -> f64_is_nan x = false.
Proof.
  intros Hf Hp. apply upd_not_nan; [apply upd_not_nan; [done|]|].
  - intros i x. apply zadd_not_nan; [done|apply Hf].
  - intros i x. apply zrem_not_nan. apply Hf.
Qed.

Lemma upd_comm f s1 s2 z1 z2 s : s1 <> s2 -> upd (upd f s1 z1) s2 z2 s = upd (upd f s2 z2) s1 z1 s.
Proof. intros. unfold upd. by repeat case_decide; subst. Qed.

(** ** The invariant *)

Section Invariant.
Context {R : Type} {HO : RedisOps R} {HR : RedisCommands R}.
Implicit Types c : RedisCache R.

(** The sorted sets of a queue. *)
Definition sets c (q : string) : Sets := fun s => zset (Client c) (slot_key c q s).

Definition in_pool c (P : PoolType) (q i : string) : Prop := is_Some (sets c q (PoolSlot P) !! i).

#[export] Instance in_pool_dec c P q i : Decision (in_pool c P q i).
Proof. unfold in_pool. apply _. Defined.

(** The pool a message is in; a queue whose name has braces has none. *)
Definition redis_where_is c (q i : string) : option PoolType :=
  if decide (valid_queue q) then
    if decide (in_pool c PRIMARY_POOL q i) then Some PRIMARY_POOL
    else if decide (in_pool c PROCESSING_POOL q i) then Some PROCESSING_POOL
    else if decide (in_pool c LOCK_ACK_POOL q i) then Some LOCK_ACK_POOL
    else if decide (in_pool c LOCK_NACK_POOL q i) then Some LOCK_NACK_POOL
    else None
  else None.

(** The value of a general key. *)
Definition redis_key_value c (k : string) : string :=
  match redis_value (Client c) (generalCacheKey c k) with Some (RString s) => s | _ => "" end.

Record redis_inv c : Prop := {
  inv_prefix : plain_text (configuredPrefix c);
  inv_zset : forall q s, valid_queue q -> zset_key (Client c) (slot_key c q s);
  inv_string : forall k, string_key (Client c) (generalCacheKey c k);
  inv_keys : forall k, HasPrefix k (fullPrefix c +:+ ":") = true -> is_Some (redis_value (Client c) k) ->
    (exists q s, valid_queue q /\ k = slot_key c q s) \/ (exists k', k = generalCacheKey c k');
  inv_unique : forall q i P P', valid_queue q -> in_pool c P q i -> in_pool c P' q i -> P = P';
  inv_scores : forall q i t, valid_queue q -> is_Some (sets c q (ScoreSlot t) !! i) ->
    in_pool c (lock_pool t) q i;
  inv_not_nan : forall q s i x, valid_queue q -> sets c q s !! i = Some x -> f64_is_nan x = false
}.

Lemma where_is_cases c q i : valid_queue q ->
  match redis_where_is c q i with
  | Some P => in_pool c P q i
  | None => forall P, ~ in_pool c P q i
  end.
Proof using HR.
  intros Hq. unfold redis_where_is. rewrite decide_True by done.
  destruct (decide (in_pool c PRIMARY_POOL q i)); [done|].
  destruct (decide (in_pool c PROCESSING_POOL q i)); [done|].
  destruct (decide (in_pool c LOCK_ACK_POOL q i)); [done|].
  destruct (decide (in_pool c LOCK_NACK_POOL q i)); [done|]. by intros [].
Qed.

Lemma where_is_invalid c q i : ~ valid_queue q -> redis_where_is c q i = None.
Proof using HR. intros. unfold redis_where_is. by rewrite decide_False. Qed.

Lemma where_is_Some c q i P : redis_inv c -> valid_queue q ->
  redis_where_is c q i = Some P <-> in_pool c P q i.
Proof using HR.
  intros Hc Hq. pose proof (where_is_cases c q i Hq) as H1.
  destruct (redis_where_is c q i) as [P'|].
  - split; [by intros [= ->]|]. intros Hp. f_equal. by eapply inv_unique.
  - split; [done|]. intros Hp. by destruct (H1 P).
Qed.

Lemma where_is_None c q i : valid_queue q ->
  redis_where_is c q i = None <-> forall P, ~ in_pool c P q i.
Proof using HR.
  intros Hq. pose proof (where_is_cases c q i Hq) as H1.
  destruct (redis_where_is c q i) as [P'|]; [|done]. split; [done|]. intros Hn. by destruct (Hn P').
Qed.

Lemma where_is_ext c c' q i : redis_inv c -> redis_inv c' ->
  (forall P, valid_queue q -> in_pool c' P q i <-> in_pool c P q i) ->
  redis_where_is c' q i = redis_where_is c q i.
Proof using HR.
  intros Hc Hc' Hp. destruct (decide (valid_queue q)) as [Hq|Hq].
  2:{ by rewrite !where_is_invalid. }
  destruct (redis_where_is c q i) as [P|] eqn:E.
  - apply where_is_Some in E; [|done..]. apply where_is_Some; [done..|]. by apply Hp.
  - rewrite where_is_None in E by done. apply where_is_None; [done|]. intros P Hin. apply (E P).
    by apply Hp.
Qed.

Lemma valid_slot_ne c q q' s s' :
  valid_queue q -> valid_queue q' -> q' <> q -> slot_key c q' s' <> slot_key c q s.
Proof using HR. intros ?? Hne E. by apply slot_key_inj in E as [? _]. Qed.

Lemma at_sets_start c q : redis_inv c -> valid_queue q ->
  at_sets (slot_key c q) (Client c) (Client c) (sets c q).
Proof using HR. intros Hc Hq. split; [intros s; by apply inv_zset|done..]. Qed.

(** The cache keeps its invariant and its keys, the messages [ids] of [q] are
    in the pool [p], and the others where they were. *)
Definition redis_post c c' (q : string) (ids : list string) (p : option PoolType) : Prop :=
  redis_inv c' /\ (forall k, redis_key_value c' k = redis_key_value c k) /\
  moved (redis_where_is c) q ids p (redis_where_is c').

(** The messages of the other queues are where they were. *)
Definition only_queue c c' (q : string) : Prop :=
  forall q' i, q' <> q -> redis_where_is c' q' i = redis_where_is c q' i.

Lemma moved_only c c' q ids p : moved (redis_where_is c) q ids p (redis_where_is c') -> only_queue c c' q.
Proof using Type. intros Hm q' i Hne. rewrite Hm. rewrite decide_False; [done|tauto]. Qed.

(** A change of the sorted sets of one queue that leaves the messages [ids] in
    the pool [p], and the others where they were. *)
Lemma redis_step c q r' f ids p :
  redis_inv c -> valid_queue q -> at_sets (slot_key c q) (Client c) r' f ->
  (forall P i, is_Some (f (PoolSlot P) !! i) <-> if decide (i ∈ ids) then p = Some P else in_pool c P q i) ->
  (forall t i, is_Some (f (ScoreSlot t) !! i) -> is_Some (f (PoolSlot (lock_pool t)) !! i)) ->
  (forall s i x, f s !! i = Some x -> f64_is_nan x = false) ->
  redis_post c (with_client c r') q ids p.
Proof using HR.
  intros Hc Hq [Hk Ho Hv] Hpool Hscore Hnan. set (c' := with_client c r').
  assert (Hgen : forall k, redis_value r' (generalCacheKey c k) = redis_value (Client c) (generalCacheKey c k)).
  { intros k. apply Ho. intros s E. by apply (slot_key_general c q s k). }
  assert (Hother : forall q' s, valid_queue q' -> q' <> q ->
    redis_value r' (slot_key c q' s) = redis_value (Client c) (slot_key c q' s)).
  { intros q' s Hq' Hne. apply Ho. intros s'. by apply valid_slot_ne. }
  assert (Hsame : forall s, sets c' q s = f s) by exact Hv.
  assert (Hne : forall q' s, valid_queue q' -> q' <> q -> sets c' q' s = sets c q' s).
  { intros q' s Hq' Hn. unfold sets, zset.
    change (slot_key c' q' s) with (slot_key c q' s). simpl. by rewrite Hother. }
  assert (Hpq : forall P i, in_pool c' P q i <-> if decide (i ∈ ids) then p = Some P else in_pool c P q i).
  { intros P i. unfold in_pool at 1. rewrite Hsame. apply Hpool. }
  assert (Hpo : forall P q' i, valid_queue q' -> q' <> q -> in_pool c' P q' i <-> in_pool c P q' i).
  { intros P q' i Hq' Hn. unfold in_pool. by rewrite Hne. }
  assert (Hc' : redis_inv c').
  { split.
    - apply Hc.
    - intros q' s Hq'. destruct (decide (q' = q)) as [->|Hn]; [apply Hk|]. intros v.
      change (slot_key c' q' s) with (slot_key c q' s). simpl. rewrite Hother by done. by apply inv_zset.
    - intros k z. change (generalCacheKey c' k) with (generalCacheKey c k). simpl. rewrite Hgen.
      by apply inv_string.
    - intros k Hp Hs. change (fullPrefix c') with (fullPrefix c) in Hp.
      destruct (decide (k ∈ map (slot_key c q) all_slots)) as [Hin|Hn].
      { apply list_elem_of_fmap in Hin as (s & -> & _). left. by exists q, s. }
      apply (inv_keys c Hc k Hp). simpl in Hs. rewrite Ho in Hs; [done|]. intros s ->. apply Hn.
      apply list_elem_of_fmap. exists s. split; [done|]. apply elem_of_all_slots.
    - intros q' i P P' Hq'. destruct (decide (q' = q)) as [->|Hn].
      + rewrite !Hpq. case_decide; [congruence|]. by apply inv_unique.
      + rewrite !Hpo by done. by apply inv_unique.
    - intros q' i t Hq'. destruct (decide (q' = q)) as [->|Hn].
      + unfold in_pool. rewrite !Hsame. apply Hscore.
      + rewrite Hne, Hpo by done. by apply inv_scores.
    - intros q' s i x Hq'. destruct (decide (q' = q)) as [->|Hn].
      + rewrite Hsame. apply Hnan.
      + rewrite Hne by done. by apply inv_not_nan. }
  split; [done|]. split.
  - intros k. unfold redis_key_value. simpl.
    change (generalCacheKey c' k) with (generalCacheKey c k). by rewrite Hgen.
  - intros q' i. destruct (decide (q' = q)) as [->|Hn].
    + destruct (decide (i ∈ ids)) as [Hi|Hi].
      * rewrite decide_True by done. destruct p as [P|].
        -- apply where_is_Some; [done..|]. rewrite Hpq. by rewrite decide_True.
        -- apply where_is_None; [done|]. intros P. rewrite Hpq. by rewrite decide_True.
      * rewrite decide_False by tauto. apply where_is_ext; [done..|]. intros P _. rewrite Hpq.
        by rewrite decide_False.
    + rewrite decide_False by tauto. apply where_is_ext; [done..|]. intros P Hq'. by apply Hpo.
Qed.

(** ** Moves between pools *)

(** The sets of slots after some elements moved from one pool to another. *)
Lemma moved_sets_pools c q src dst pairs :
  redis_inv c -> valid_queue q -> dst <> src -> Forall (fun i => in_pool c src q i) pairs.*2 ->
  forall P i, is_Some (moved_sets (sets c q) (PoolSlot dst) (PoolSlot src) pairs (PoolSlot P) !! i) <->
    if decide (i ∈ pairs.*2) then Some dst = Some P else in_pool c P q i.
Proof using HR.
  intros Hc Hq Hds Hin P i. rewrite Forall_forall in Hin. unfold moved_sets.
  destruct (decide (P = src)) as [->|Hs].
  - rewrite upd_eq, zrem_lookup. destruct (decide (i ∈ pairs.*2)); [|done].
    split; [by intros [? ?]|congruence].
  - rewrite upd_ne by congruence. destruct (decide (P = dst)) as [->|Hd].
    + rewrite upd_eq, zadd_is_Some. destruct (decide (i ∈ pairs.*2)); [tauto|].
      unfold in_pool. tauto.
    + rewrite upd_ne by congruence. destruct (decide (i ∈ pairs.*2)) as [Hi|Hi]; [|done].
      split; [|congruence]. intros HP. destruct Hs. by eapply inv_unique; [..|apply Hin].
Qed.

(** A pool that no lock fills has no score. *)
Lemma not_locked_no_score c q i P t :
  redis_inv c -> valid_queue q -> in_pool c P q i -> P <> lock_pool t ->
  sets c q (ScoreSlot t) !! i = None.
Proof using HR.
  intros Hc Hq Hp Hne. apply eq_None_not_Some. intros Hs. apply Hne.
  eapply inv_unique; [done..|exact Hp|by apply inv_scores].
Qed.

(** The move between pools that are not lock pools, or into one without a
    score. *)
Lemma redis_move c q r' src dst pairs :
  redis_inv c -> valid_queue q -> dst <> src -> (forall t, src <> lock_pool t) ->
  Forall (fun i => in_pool c src q i) pairs.*2 ->
  Forall (fun p => f64_is_nan p.1 = false) pairs ->
  at_sets (slot_key c q) (Client c) r' (moved_sets (sets c q) (PoolSlot dst) (PoolSlot src) pairs) ->
  redis_post c (with_client c r') q pairs.*2 (Some dst).
Proof using HR.
  intros Hc Hq Hds Hsrc Hin Hnan Hat. eapply redis_step; [done..|exact Hat| | |].
  - by apply moved_sets_pools.
  - intros t i. rewrite moved_sets_score, moved_sets_pools by done. intros Hs.
    pose proof (inv_scores c Hc q i t Hq Hs) as Hl. destruct (decide (i ∈ pairs.*2)) as [Hi|Hi]; [|done].
    rewrite Forall_forall in Hin. specialize (Hin i Hi). destruct (Hsrc t).
    by eapply inv_unique; [..|exact Hl].
  - apply moved_sets_not_nan; [|done]. intros s i x. by apply inv_not_nan.
Qed.

Lemma with_client_id c : with_client c (Client c) = c.
Proof using HR. by destruct c. Qed.

(** Nothing changes. *)
Lemma redis_same c q p : redis_inv c ->
  redis_post c c q [] p.
Proof using HR. intros Hc. split; [done|]. split; [done|]. apply moved_nil. Qed.

(** A script that leaves the sets as they were. *)
Lemma redis_unchanged c q r' p : redis_inv c -> valid_queue q ->
  at_sets (slot_key c q) (Client c) r' (sets c q) ->
  redis_post c (with_client c r') q [] p.
Proof using HR.
  intros Hc Hq Hat. eapply redis_step; [done..|exact Hat| | |].
  - intros P i. rewrite decide_False; [done|]. set_solver.
  - intros t i. by apply inv_scores.
  - intros s i x. by apply inv_not_nan.
Qed.

Lemma Run_eq {A} (script : Script R A) c r' res :
  script (Client c) = (r', res) -> Run script c = (with_client c r', res).
Proof using HR. unfold Run. by intros ->. Qed.

(** A message that left the processing pool for no other pool. *)
Lemma lost_post c q r' i :
  redis_inv c -> valid_queue q -> in_pool c PROCESSING_POOL q i ->
  at_sets (slot_key c q) (Client c) r' (without (sets c q) (PoolSlot PROCESSING_POOL) i) ->
  redis_post c (with_client c r') q [i] None.
Proof using HR.
  intros Hc Hq Hp Hat. eapply redis_step; [done..|exact Hat| | |].
  - intros P j. unfold without. destruct (decide (P = PROCESSING_POOL)) as [->|HP].
    + rewrite upd_eq, zrem_lookup. destruct (decide (j ∈ [i])); [|done].
      split; [by intros [? ?]|done].
    + rewrite upd_ne by congruence. destruct (decide (j ∈ [i])) as [Hi|Hi]; [|done].
      split; [|done]. intros Hin. apply list_elem_of_singleton in Hi as ->. destruct HP.
      by eapply inv_unique.
  - intros t j. unfold without. rewrite upd_ne by done. intros Hs.
    pose proof (inv_scores c Hc _ j t Hq Hs) as Hl. by destruct t; rewrite upd_ne by done.
  - apply upd_not_nan; [intros s j x; by apply inv_not_nan|].
    intros j x. apply zrem_not_nan. intros j' x'. by apply inv_not_nan.
Qed.

Lemma redis_MakeAvailable_moves m c c' b err :
  redis_inv c -> MakeAvailable m c = (c', (b, err)) ->
  redis_inv c' /\ (forall k, redis_key_value c' k = redis_key_value c k) /\
  (b = true -> err = None /\ redis_where_is c (Queue m) (ID m) = Some PROCESSING_POOL) /\
  (err = None -> redis_where_is c (Queue m) (ID m) = Some PROCESSING_POOL -> b = true) /\
  (err = None \/ f64_is_nan (Score m) = false ->
   moved (redis_where_is c) (Queue m) (if b then [ID m] else []) (Some PRIMARY_POOL) (redis_where_is c')) /\
  only_queue c c' (Queue m).
Proof using HR.
  intros Hc. unfold MakeAvailable.
  destruct (String.eqb (Queue m) ""); [intros [= <- <- <-]; split_and!; try done; intros; apply moved_nil|].
  destruct (decide (valid_queue (Queue m))) as [Hq|Hq].
  2:{ rewrite validate_invalid by done. intros [= <- <- <-]. split_and!; try done; intros; apply moved_nil. }
  rewrite (Hq : validateQueueName (Queue m) = None), activePool_slot, processingPool_slot.
  destruct (moveElementScript_at (slot_key c (Queue m)) (Client c) (Client c) _ (PoolSlot PRIMARY_POOL)
    (PoolSlot PROCESSING_POOL) (Score m) (ID m) ltac:(done) (at_sets_start c (Queue m) Hc Hq))
    as (r' & res & E & Hres).
  rewrite (Run_eq _ _ _ _ E).
  assert (Hw := where_is_Some c (Queue m) (ID m) PROCESSING_POOL Hc Hq).
  destruct (sets c (Queue m) (PoolSlot PROCESSING_POOL) !! ID m) as [y|] eqn:Ei.
  - assert (Hp : in_pool c PROCESSING_POOL (Queue m) (ID m)) by (unfold in_pool; by rewrite Ei).
    destruct (f64_is_nan (Score m)) eqn:Hn; destruct Hres as [Hr Hat].
    + destruct Hr as [e ->]. intros [= <- <- <-].
      pose proof (lost_post c (Queue m) r' (ID m) Hc Hq Hp Hat) as Hpost.
      destruct Hpost as (Hi & Hk & Hm). split_and!; try done; [intros [?|?]; [done|congruence]|by eapply moved_only].
    + subst res. assert (HnP : sets c (Queue m) (PoolSlot PRIMARY_POOL) !! ID m = None).
      { apply eq_None_not_Some. intros Hs. by pose proof (inv_unique c Hc _ _ _ _ Hq Hs Hp). }
      rewrite decide_False by (by rewrite HnP; intros [? ?]). intros [= <- <- <-].
      destruct (redis_move c (Queue m) r' PROCESSING_POOL PRIMARY_POOL [(Score m, ID m)])
        as (Hi & Hk & Hm); [done..|by intros []|by repeat constructor|by repeat constructor| |].
      { eapply at_sets_ext; [|exact Hat]. intros s. unfold moved_sets, without. by apply upd_comm. }
      split_and!; try done; [intros _; split; [done|]; by apply Hw|by eapply moved_only].
  - destruct Hres as [-> Hat]. intros [= <- <- <-].
    destruct (redis_unchanged c (Queue m) r' (Some PRIMARY_POOL) Hc Hq Hat) as (Hi & Hk & Hm).
    split_and!; try done; [intros _ [y Hy]%Hw; congruence|by eapply moved_only].
Qed.

(** The sets after a message has been locked, with its score kept or not. *)
Lemma lock_post c q r' t x i f :
  redis_inv c -> valid_queue q -> in_pool c PROCESSING_POOL q i -> f64_is_nan x = false ->
  let locked := upd (without (sets c q) (PoolSlot PROCESSING_POOL) i) (PoolSlot (lock_pool t))
                  (zadd [(x, i)] (sets c q (PoolSlot (lock_pool t)))) in
  at_sets (slot_key c q) (Client c) r' f ->
  (forall s, f s = locked s) \/
  (exists y, f64_is_nan y = false /\
     forall s, f s = upd locked (ScoreSlot t) (zadd [(y, i)] (sets c q (ScoreSlot t))) s) ->
  redis_post c (with_client c r') q [i] (Some (lock_pool t)).
Proof using HR.
  intros Hc Hq Hp Hx locked Hat Hf. set (g := moved_sets (sets c q) (PoolSlot (lock_pool t))
    (PoolSlot PROCESSING_POOL) [(x, i)]).
  assert (Hlg : forall s, locked s = g s).
  { intros s. unfold locked, g, moved_sets, without. apply upd_comm. by destruct t. }
  assert (Hpools : forall P, f (PoolSlot P) = g (PoolSlot P)).
  { intros P. rewrite <- Hlg. destruct Hf as [Hf|(y & _ & Hf)]; rewrite Hf; [done|]. by rewrite upd_ne. }
  assert (Hmove : forall P j, is_Some (f (PoolSlot P) !! j) <->
    if decide (j ∈ [i]) then Some (lock_pool t) = Some P else in_pool c P q j).
  { intros P j. rewrite Hpools. apply (moved_sets_pools c q PROCESSING_POOL (lock_pool t) [(x, i)]);
      [done..|by destruct t|by repeat constructor]. }
  assert (Hg : forall s j y, g s !! j = Some y -> f64_is_nan y = false).
  { apply moved_sets_not_nan; [intros s j y; by apply inv_not_nan|by repeat constructor]. }
  eapply redis_step; [done..|exact Hat|exact Hmove| |].
  - intros t' j Hs. apply Hmove. destruct (decide (j ∈ [i])) as [Hj|Hj].
    + apply list_elem_of_singleton in Hj as ->. destruct (decide (t' = t)) as [->|Ht]; [done|].
      assert (Hn : f (ScoreSlot t') !! i = None); [|by rewrite Hn in Hs; destruct Hs].
      assert (Hgn : g (ScoreSlot t') !! i = None).
      { unfold g. rewrite moved_sets_score. eapply not_locked_no_score; [done..|exact Hp|by destruct t']. }
      destruct Hf as [Hf|(y & _ & Hf)]; rewrite Hf; [by rewrite Hlg|]. rewrite upd_ne by congruence.
      by rewrite Hlg.
    + apply inv_scores; [done..|]. destruct Hf as [Hf|(y & _ & Hf)]; rewrite Hf in Hs.
      * rewrite Hlg in Hs. unfold g in Hs. by rewrite moved_sets_score in Hs.
      * destruct (decide (t' = t)) as [->|Ht].
        -- rewrite upd_eq in Hs. apply zadd_is_Some in Hs as [Hs|Hs]; [|done]. done.
        -- rewrite upd_ne, Hlg in Hs by congruence. unfold g in Hs. by rewrite moved_sets_score in Hs.
  - intros s j z. destruct Hf as [Hf|(y & Hy & Hf)]; rewrite Hf; [rewrite Hlg; apply Hg|].
    revert s j z. apply upd_not_nan; [intros s j z; rewrite Hlg; apply Hg|].
    intros j z. apply zadd_not_nan; [by repeat constructor|]. intros j' z'. by apply inv_not_nan.
Qed.

Lemma redis_LockMessage_moves env m t c c' b err :
  redis_inv c -> LockMessage env m t c = (c', (b, err)) ->
  redis_inv c' /\ (forall k, redis_key_value c' k = redis_key_value c k) /\
  (b = true -> err = None /\ redis_where_is c (Queue m) (ID m) = Some PROCESSING_POOL) /\
  (err = None -> redis_where_is c (Queue m) (ID m) = Some PROCESSING_POOL -> b = true) /\
  (err = None \/ f64_is_nan (Score m) = false ->
   moved (redis_where_is c) (Queue m) (if b then [ID m] else []) (Some (lock_pool t)) (redis_where_is c')) /\
  only_queue c c' (Queue m).
Proof using HR.
  intros Hc. unfold LockMessage.
  destruct (String.eqb (Queue m) ""); [intros [= <- <- <-]; split_and!; try done; intros; apply moved_nil|].
  destruct (decide (valid_queue (Queue m))) as [Hq|Hq].
  2:{ rewrite validate_invalid by done. intros [= <- <- <-]. split_and!; try done; intros; apply moved_nil. }
  rewrite (Hq : validateQueueName (Queue m) = None), processingPool_slot, lockPool_slot, lockPoolScore_slot.
  destruct (LockMs m <=? 0); [intros [= <- <- <-]; split_and!; try done; intros; apply moved_nil|].
  set (x := f64_of_Z _). assert (Hx : f64_is_nan x = false) by apply f64_of_Z_not_nan. clearbody x.
  destruct (lockElementScript_at (slot_key c (Queue m)) (Client c) (Client c) _
    (PoolSlot PROCESSING_POOL) (PoolSlot (lock_pool t)) t x (ID m) (Score m)
    ltac:(by destruct t) ltac:(done) ltac:(done) Hx (at_sets_start c (Queue m) Hc Hq))
    as (r' & res & E & Hres).
  rewrite (Run_eq _ _ _ _ E). clear E.
  assert (Hw := where_is_Some c (Queue m) (ID m) PROCESSING_POOL Hc Hq).
  destruct (sets c (Queue m) (PoolSlot PROCESSING_POOL) !! ID m) as [y|] eqn:Ei.
  2:{ destruct Hres as [-> Hat]. intros [= <- <- <-].
      destruct (redis_unchanged c (Queue m) r' (Some (lock_pool t)) Hc Hq Hat) as (Hi & Hk & Hm).
      split_and!; try done; [intros _ [z Hz]%Hw; congruence|by eapply moved_only]. }
  assert (Hp : in_pool c PROCESSING_POOL (Queue m) (ID m)) by (unfold in_pool; by rewrite Ei).
  assert (Hnl : sets c (Queue m) (PoolSlot (lock_pool t)) !! ID m = None).
  { apply eq_None_not_Some. intros Hs.
    pose proof (inv_unique c Hc _ _ _ _ Hq Hs Hp). by destruct t. }
  assert (Hns : sets c (Queue m) (ScoreSlot t) !! ID m = None).
  { eapply not_locked_no_score; [done..|exact Hp|by destruct t]. }
  rewrite Hnl, Hns in Hres. rewrite decide_False in Hres by (by intros [? ?]).
  pose proof (lock_post c (Queue m) r' t x (ID m)) as Hpost.
  destruct (f64_eqb (Score m) _) eqn:Eu; [|destruct (f64_is_nan (Score m)) eqn:Hn];
    destruct Hres as [Hr Hat]; specialize (Hpost _ Hc Hq Hp Hx Hat).
  - destruct Hpost as (Hi & Hk & Hm); [by left|]. subst res. intros [= <- <- <-].
    split_and!; try done; [intros _; split; [done|]; by apply Hw|by eapply moved_only].
  - destruct Hpost as (Hi & Hk & Hm); [by left|]. destruct Hr as [e ->]. intros [= <- <- <-].
    split_and!; try done; [intros [?|?]; [done|congruence]|by eapply moved_only].
  - destruct Hpost as (Hi & Hk & Hm); [right; by exists (Score m)|]. subst res. intros [= <- <- <-].
    split_and!; try done; [intros _; split; [done|]; by apply Hw|by eapply moved_only].
Qed.

(** ** Many messages *)

Lemma parseResult_elements elements :
  parseResult (inl (match elements with [] => ReplyString "" | _ => ReplyArray elements end)) = (elements, None).
Proof using HR. by destruct elements. Qed.

Lemma map_pair_snd (x : float64) (l : list string) : (map (pair x) l).*2 = l.
Proof using HR. induction l as [|i l IH]; [done|]. cbn [map]. by rewrite fmap_cons, IH. Qed.

Lemma map_pair_not_nan (x : float64) (l : list string) :
  f64_is_nan x = false -> Forall (fun p => f64_is_nan p.1 = false) (map (pair x) l).
Proof using HR. intros Hx. induction l; by constructor. Qed.

Lemma pulled_elements_facts c q n mn mx :
  let ids := pulled_elements (sets c q) (PoolSlot PRIMARY_POOL) n mn mx in
  NoDup ids /\ Forall (fun i => in_pool c PRIMARY_POOL q i) ids.
Proof using HR.
  set (z := sets c q (PoolSlot PRIMARY_POOL)).
  assert (Hs : sublist (pulled_elements (sets c q) (PoolSlot PRIMARY_POOL) n mn mx) (zsorted z).*1).
  { unfold pulled_elements. fold z. destruct mn, mx;
      (etransitivity; [first [apply zlimit_sublist|apply zrange_to_sublist]|]); try done;
      apply fmap_sublist, filter_sublist. }
  split; [eapply sublist_NoDup; [apply NoDup_zsorted|exact Hs]|]. apply Forall_forall. intros i Hi.
  pose proof (elem_of_sublist _ _ _ Hi Hs) as ([j x] & -> & Hx%elem_of_zsorted)%list_elem_of_fmap.
  by exists x.
Qed.

Lemma rev_range_facts c q P x n :
  let ids := rev_range (sets c q) (PoolSlot P) x n in
  NoDup ids /\ Forall (fun i => in_pool c P q i) ids.
Proof using HR.
  set (z := sets c q (PoolSlot P)).
  assert (Hd : NoDup (reverse (List.filter (fun p => in_bounds (Some f64_zero) (Some x) p.2) (zsorted z)).*1)).
  { rewrite reverse_Permutation. apply NoDup_filter_fst, NoDup_zsorted. }
  split; [eapply sublist_NoDup; [exact Hd|apply zlimit_sublist]|]. apply Forall_forall. intros i Hi.
  eapply elem_of_sublist in Hi; [|apply zlimit_sublist]. rewrite elem_of_reverse in Hi.
  apply elem_of_filter_fst in Hi as (y & Hy%elem_of_zsorted & _). by exists y.
Qed.

(** The score of a pulled message: when its processing times out. *)
Definition pull_deadline (env : Env) (ackDeadlineMs : Z) : float64 :=
  f64_of_Z (wrap64 (NowMs env + if ackDeadlineMs =? 0 then DefaultTimeoutMs else ackDeadlineMs)).

Lemma redis_PullMessages_moves env q n mn mx dl c c' ids err :
  redis_inv c -> 0 < n <= 4000 -> PullMessages env q n mn mx dl c = (c', (ids, err)) ->
  redis_post c c' q ids (Some PROCESSING_POOL) /\
  NoDup ids /\ Z.of_nat (length ids) <= n /\
  Forall (fun i => redis_where_is c q i = Some PRIMARY_POOL) ids /\
  (err = None -> ids = if decide (valid_queue q)
                       then pulled_elements (sets c q) (PoolSlot PRIMARY_POOL) n mn mx else []) /\
  (forall i, i ∈ ids -> sets c' q (PoolSlot PROCESSING_POOL) !! i = Some (pull_deadline env dl)).
Proof using HR.
  intros Hc Hn. unfold PullMessages. destruct (decide (valid_queue q)) as [Hq|Hq].
  2:{ rewrite validate_invalid by done. intros [= <- <- <-].
      split; [by apply redis_same|]. split_and!; [constructor|simpl; lia|constructor|done|set_solver]. }
  rewrite (Hq : validateQueueName q = None), activePool_slot, processingPool_slot.
  change (f64_of_Z _) with (pull_deadline env dl). set (x := pull_deadline env dl).
  assert (Hx : f64_is_nan x = false) by apply f64_of_Z_not_nan.
  pose proof (pullElementsScript_at (slot_key c q) (Client c) (PoolSlot PRIMARY_POOL)
    (PoolSlot PROCESSING_POOL) n x mn mx (Client c) _ ltac:(done) Hn Hx (at_sets_start c q Hc Hq)) as He.
  cbv zeta in He. set (elements := pulled_elements _ _ _ _ _) in *.
  destruct (bound_ok mn && bound_ok mx).
  - destruct He as (r' & E & Hat). rewrite (Run_eq _ _ _ _ E), parseResult_elements. intros [= <- <- <-].
    destruct (pulled_elements_facts c q n mn mx) as [Hd Hin]. fold elements in Hd, Hin.
    split; [|split_and!; [done|apply length_pulled_elements; lia| |done|]].
    + rewrite <- (map_pair_snd x elements). apply (redis_move c q r' PRIMARY_POOL PROCESSING_POOL);
        [done|done|done|by intros []|by rewrite map_pair_snd|by apply map_pair_not_nan|done].
    + eapply Forall_impl; [exact Hin|]. intros i Hi. by apply where_is_Some.
    + intros i Hi. unfold sets at 1. change (slot_key (with_client c r') q) with (slot_key c q).
      rewrite (at_value _ _ _ _ Hat). unfold moved_sets. rewrite upd_ne, upd_eq by done.
      apply zadd_lookup_in; [by rewrite map_pair_snd|]. apply list_elem_of_fmap. by exists i.
  - destruct He as [e E]. rewrite (Run_eq _ _ _ _ E), with_client_id. intros [= <- <- <-].
    split; [by apply redis_same|]. split_and!; [constructor|simpl; lia|constructor|done|set_solver].
Qed.

(** The messages of a pool with a score from 0 to [x], the highest first. *)
Definition due c (P : PoolType) (q : string) (x : float64) (n : Z) : list string :=
  if decide (valid_queue q) then rev_range (sets c q) (PoolSlot P) x n else [].

Lemma redis_TimeoutMessages_moves env q c c' ids err :
  redis_inv c -> TimeoutMessages env q c = (c', (ids, err)) ->
  redis_post c c' q ids (Some PRIMARY_POOL) /\
  NoDup ids /\ Forall (fun i => redis_where_is c q i = Some PROCESSING_POOL) ids /\
  ids = due c PROCESSING_POOL q (f64_of_Z (NowMs env)) 1000.
Proof using HR.
  intros Hc. unfold TimeoutMessages, due. destruct (decide (valid_queue q)) as [Hq|Hq].
  2:{ rewrite validate_invalid by done. intros [= <- <- <-].
      split; [by apply redis_same|]. split_and!; [constructor|constructor|done]. }
  rewrite (Hq : validateQueueName q = None), activePool_slot, processingPool_slot.
  change (TimeToMs (Now env)) with (NowMs env).
  destruct (moveFilteredElementsScript_at (slot_key c q) (Client c) (PoolSlot PRIMARY_POOL)
    (PoolSlot PROCESSING_POOL) (f64_of_Z (NowMs env)) Min 1000 (Client c) _ ltac:(done) ltac:(lia)
    (f64_of_Z_not_nan _) (f64_of_Z_not_nan _) (at_sets_start c q Hc Hq)) as (r' & E & Hat).
  set (elements := rev_range _ _ _ _) in *.
  rewrite (Run_eq _ _ _ _ E), parseResult_elements. intros [= <- <- <-].
  destruct (rev_range_facts c q PROCESSING_POOL (f64_of_Z (NowMs env)) 1000) as [Hd Hin].
  fold elements in Hd, Hin. split; [|split_and!; [done| |done]].
  - rewrite <- (map_pair_snd Min elements). apply (redis_move c q r' PROCESSING_POOL PRIMARY_POOL);
      [done|done|done|by intros []|by rewrite map_pair_snd|by apply map_pair_not_nan|done].
  - eapply Forall_impl; [exact Hin|]. intros i Hi. by apply where_is_Some.
Qed.

Definition unlock_score (env : Env) (t : LockType) : float64 :=
  match t with LOCK_ACK => GetScoreByDefaultAlgorithm env | LOCK_NACK => Min end.

Lemma unlock_score_not_nan env t : f64_is_nan (unlock_score env t) = false.
Proof using HR. destruct t; [apply f64_of_Z_not_nan|done]. Qed.

Lemma redis_UnlockMessages_moves env q t c c' ids err :
  redis_inv c -> UnlockMessages env q t c = (c', (ids, err)) ->
  redis_post c c' q ids (Some PRIMARY_POOL) /\
  NoDup ids /\ Forall (fun i => redis_where_is c q i = Some (lock_pool t)) ids /\
  ids = due c (lock_pool t) q (f64_of_Z (NowMs env)) 1000 /\
  (valid_queue q -> forall i, i ∈ ids -> sets c' q (PoolSlot PRIMARY_POOL) !! i =
     Some (default (unlock_score env t) (sets c q (ScoreSlot t) !! i))).
Proof using HR.
  intros Hc. unfold UnlockMessages, due. destruct (decide (valid_queue q)) as [Hq|Hq].
  2:{ rewrite validate_invalid by done. intros [= <- <- <-].
      split; [by apply redis_same|]. split_and!; [constructor|constructor|done|done]. }
  rewrite (Hq : validateQueueName q = None), activePool_slot, lockPool_slot, lockPoolScore_slot.
  fold (unlock_score env t). set (d := unlock_score env t).
  assert (Hd : f64_is_nan d = false) by apply unlock_score_not_nan.
  destruct (unlockElementsScript_at (slot_key c q) (Client c) (PoolSlot (lock_pool t))
    (PoolSlot PRIMARY_POOL) (ScoreSlot t) 1000 (f64_of_Z (NowMs env)) d (Client c) _
    ltac:(by destruct t) ltac:(by destruct t) ltac:(done) ltac:(lia) (f64_of_Z_not_nan _) Hd
    (fun i y => inv_not_nan c Hc q _ i y Hq) (at_sets_start c q Hc Hq)) as (r' & E & Hat).
  set (elements := rev_range _ _ _ _) in *.
  rewrite (Run_eq _ _ _ _ E), parseResult_elements. intros [= <- <- <-].
  destruct (rev_range_facts c q (lock_pool t) (f64_of_Z (NowMs env)) 1000) as [Hnd Hin].
  fold elements in Hnd, Hin.
  set (pairs := unlock_pairs (sets c q) (ScoreSlot t) d elements).
  assert (Hps : pairs.*2 = elements) by apply unlock_pairs_snd.
  assert (Hpn : Forall (fun p => f64_is_nan p.1 = false) pairs).
  { apply Forall_forall. intros p (j & -> & _)%list_elem_of_fmap. simpl.
    destruct (sets c q (ScoreSlot t) !! j) as [y|] eqn:Ej; [by eapply inv_not_nan|done]. }
  unfold unlocked_sets in Hat. fold pairs in Hat.
  set (g := moved_sets _ _ _ pairs) in Hat.
  assert (Hpools : forall P i, is_Some (g (PoolSlot P) !! i) <->
    if decide (i ∈ elements) then Some PRIMARY_POOL = Some P else in_pool c P q i).
  { rewrite <- Hps. apply moved_sets_pools; [done|done|by destruct t|by rewrite Hps]. }
  split; [|split_and!; [done| |done|]].
  - eapply redis_step; [done..|exact Hat| | |].
    + intros P i. rewrite upd_ne by done. apply Hpools.
    + intros t' i. rewrite (upd_ne _ _ (PoolSlot _)) by done. destruct (decide (t' = t)) as [->|Ht].
      * rewrite upd_eq, zrem_lookup. rewrite Hpools. destruct (decide (i ∈ elements)).
        { by intros [? ?]. } by apply inv_scores.
      * rewrite upd_ne by congruence. unfold g at 1. rewrite moved_sets_score, Hpools. intros Hs.
        pose proof (inv_scores c Hc q i t' Hq Hs) as Hl.
        destruct (decide (i ∈ elements)) as [Hi|Hi]; [|done]. rewrite Forall_forall in Hin.
        pose proof (inv_unique c Hc q i _ _ Hq Hl (Hin i Hi)) as Ep. by destruct t, t'.
    + apply upd_not_nan; [apply moved_sets_not_nan; [|done]|].
      * intros s i x. by apply inv_not_nan.
      * intros i x. apply zrem_not_nan. intros i' x'. by apply inv_not_nan.
  - eapply Forall_impl; [exact Hin|]. intros i Hi. by apply where_is_Some.
  - intros _ i Hi. unfold sets at 1. change (slot_key (with_client c r') q) with (slot_key c q).
    rewrite (at_value _ _ _ _ Hat). rewrite upd_ne by done. unfold g, moved_sets.
    rewrite upd_ne by (by destruct t). rewrite upd_eq.
    apply zadd_lookup_in; [by rewrite Hps|]. apply list_elem_of_fmap. by exists i.
Qed.

(** ** Insertion *)

Definition not_nan (m : Message) : Prop := f64_is_nan (Score m) = false.

Definition score_pairs (ms : list Message) : list (float64 * string) := map (fun m => (Score m, ID m)) ms.

Lemma redis_post_trans c0 c1 c2 q ids1 ids2 p :
  redis_post c0 c1 q ids1 p -> redis_post c1 c2 q ids2 p -> redis_post c0 c2 q (ids1 ++ ids2) p.
Proof using HR.
  intros (_ & Hk1 & Hm1) (Hi & Hk2 & Hm2). split; [done|]. split; [intros k; by rewrite Hk2|].
  intros q' i. rewrite Hm2, Hm1. repeat case_decide; try done; set_solver.
Qed.

Definition insert_slots : list Slot :=
  [PoolSlot PRIMARY_POOL; PoolSlot LOCK_NACK_POOL; PoolSlot LOCK_ACK_POOL; PoolSlot PROCESSING_POOL].

Lemma elem_of_absent_pairs c q pairs x i :
  valid_queue q ->
  (x, i) ∈ absent_pairs (sets c q) insert_slots pairs <->
  (x, i) ∈ pairs /\ redis_where_is c q i = None.
Proof using HR.
  intros Hq. unfold absent_pairs. rewrite list_elem_of_In, filter_In, <- list_elem_of_In, negb_true_iff.
  apply and_iff_compat_l. rewrite where_is_None by done. cbn [existsb insert_slots snd].
  rewrite !orb_false_iff, !bool_decide_eq_false. unfold in_pool. split.
  - intros (? & ? & ? & ? & _) []; done.
  - intros Hn. split_and!; try done; apply Hn.
Qed.

(** One call of the script. *)
Lemma add_step c q ms :
  redis_inv c -> valid_queue q -> Z.of_nat (length ms) <= 2000 ->
  let new := (absent_pairs (sets c q) insert_slots (score_pairs ms)).*2 in
  exists c' res,
    Run (addElementsScript (slot_key c q (PoolSlot PRIMARY_POOL))
          (map (slot_key c q) [PoolSlot LOCK_NACK_POOL; PoolSlot LOCK_ACK_POOL; PoolSlot PROCESSING_POOL])
          (score_pairs ms)) c = (c', res) /\
    keyPrefix c' = keyPrefix c /\
    ((res = inl (ReplyArray new) /\ redis_post c c' q new (Some PRIMARY_POOL)) \/
     (exists e, res = inr e /\ c' = c /\ ~ Forall not_nan ms)).
Proof using HR.
  intros Hc Hq Hlen new.
  destruct (addElementsScript_at (slot_key c q) (Client c) (PoolSlot PRIMARY_POOL)
    [PoolSlot LOCK_NACK_POOL; PoolSlot LOCK_ACK_POOL; PoolSlot PROCESSING_POOL] (score_pairs ms) (Client c) _
    ltac:(by unfold score_pairs; rewrite length_map) (at_sets_start c q Hc Hq))
    as [(Hn & r' & E & Hat)|(Hn & e & E)]; rewrite (Run_eq _ _ _ _ E); do 2 eexists; split; try done;
    split; try done.
  - left. split; [done|]. fold insert_slots in Hat, Hn.
    set (pairs := absent_pairs (sets c q) insert_slots (score_pairs ms)) in *.
    assert (Habs : forall i, i ∈ new -> forall P, ~ in_pool c P q i).
    { intros i ([x i'] & -> & Hx)%list_elem_of_fmap.
      apply elem_of_absent_pairs in Hx as [_ Hx]; [|done]. by apply where_is_None. }
    eapply redis_step; [done..|exact Hat| | |].
    + intros P i. destruct (decide (P = PRIMARY_POOL)) as [->|HP].
      * rewrite upd_eq, zadd_is_Some. change (pairs.*2) with new.
        destruct (decide (i ∈ new)); [tauto|]. unfold in_pool. tauto.
      * rewrite upd_ne by congruence. destruct (decide (i ∈ new)) as [Hi|Hi]; [|done].
        split; [intros Hs; by destruct (Habs i Hi P)|congruence].
    + intros t i. rewrite !upd_ne by (by destruct t). by apply inv_scores.
    + apply upd_not_nan; [intros s i x; by apply inv_not_nan|].
      intros i x. apply zadd_not_nan; [done|]. intros i' x'. by apply inv_not_nan.
  - right. exists e. split; [done|]. split; [apply with_client_id|]. intros Hok. apply Hn.
    apply Forall_forall. intros [x i] Hx. fold insert_slots in Hx. apply elem_of_absent_pairs in Hx as [Hx _]; [|done].
    apply list_elem_of_fmap in Hx as (m & [= -> ->] & Hm). rewrite Forall_forall in Hok. by apply Hok.
Qed.

(** What an insertion of the messages [ms] gives. *)
Definition insert_post c c' q (ms : list Message) (new : list string) : Prop :=
  redis_post c c' q new (Some PRIMARY_POOL) /\
  (forall i, i ∈ new -> redis_where_is c q i = None /\ i ∈ ID <$> ms) /\
  (forall i, i ∈ ID <$> ms -> redis_where_is c q i = None -> i ∈ new).

Lemma absent_insert_post c c' q ms :
  valid_queue q ->
  let new := (absent_pairs (sets c q) insert_slots (score_pairs ms)).*2 in
  redis_post c c' q new (Some PRIMARY_POOL) -> insert_post c c' q ms new.
Proof using HR.
  intros Hq new Hpost. split; [done|]. split.
  - intros i ([x i'] & -> & Hx)%list_elem_of_fmap.
    apply elem_of_absent_pairs in Hx as [Hx Hn]; [|done]. split; [done|].
    apply list_elem_of_fmap in Hx as (m & [= -> ->] & Hm). simpl. by apply list_elem_of_fmap_2.
  - intros i (m & -> & Hm)%list_elem_of_fmap Hn. apply list_elem_of_fmap.
    exists (Score m, ID m). split; [done|]. apply elem_of_absent_pairs; [done|]. split; [|done].
    unfold score_pairs. apply list_elem_of_fmap. by exists m.
Qed.

Lemma insert_post_app c0 c1 c2 q ms1 ms2 new1 new2 :
  insert_post c0 c1 q ms1 new1 -> insert_post c1 c2 q ms2 new2 ->
  insert_post c0 c2 q (ms1 ++ ms2) (new1 ++ new2).
Proof using HR.
  intros (Hp1 & Hn1 & Ha1) (Hp2 & Hn2 & Ha2). pose proof Hp1 as (_ & _ & Hm1).
  assert (Hw : forall i, redis_where_is c1 q i = if decide (i ∈ new1) then Some PRIMARY_POOL else redis_where_is c0 q i).
  { intros i. rewrite Hm1. apply decide_ext. tauto. }
  split; [by eapply redis_post_trans|]. split; intros i.
  - rewrite fmap_app, !elem_of_app. intros [Hi|Hi]; [apply Hn1 in Hi as [? ?]; tauto|].
    apply Hn2 in Hi as [Hi ?]. rewrite Hw in Hi. case_decide; [done|]. tauto.
  - rewrite fmap_app, !elem_of_app. intros Hi Hn. destruct (decide (i ∈ new1)) as [?|H1]; [by left|].
    destruct Hi as [Hi|Hi]; [by left; apply Ha1|]. right. apply Ha2; [done|]. rewrite Hw.
    by rewrite decide_False.
Qed.

Lemma insert_loop_moves q ms : valid_queue q -> forall parts,
  Forall (fun p => Z.of_nat (length (slice p.1 p.2 ms)) <= 2000) parts ->
  forall acc c c' ids err, redis_inv c -> insert_loop q ms parts acc c = (c', (ids, err)) ->
  redis_inv c' /\ (forall k, redis_key_value c' k = redis_key_value c k) /\ only_queue c c' q /\
  let sliced := concat (map (fun p => slice p.1 p.2 ms) parts) in
  match err with
  | None => exists new, ids = acc ++ new /\ insert_post c c' q sliced new
  | Some _ => ids = [] /\ ~ Forall not_nan sliced
  end.
Proof using HR.
  intros Hq. induction parts as [|[low high] parts IH]; intros Hparts acc c c' ids err Hc.
  - cbn. intros [= <- <- <-]. split_and!; [done..|]. exists []. rewrite app_nil_r. split; [done|].
    split; [by apply redis_same|]. split; intros i; set_solver.
  - apply Forall_cons in Hparts as [Hlen Hparts]. cbn [insert_loop map concat fst snd] in *.
    rewrite activePool_slot, processingPool_slot, !lockPool_slot.
    destruct (add_step c q (slice low high ms) Hc Hq Hlen) as (c1 & res & E & _ & Hres).
    unfold score_pairs in E at 1. cbn [map] in E. cbn [lock_pool]. rewrite E.
    destruct Hres as [[-> Hpost]|(e & -> & -> & Hn)]; cbn [parseResult].
    + apply absent_insert_post in Hpost; [|done]. set (new := _.*2) in *.
      pose proof Hpost as ((Hc1 & Hk1 & Hm1) & _). intros E2. apply moved_only in Hm1.
      apply IH in E2 as (Hc' & Hk' & Ho & Hpost'); [|done..]. split; [done|].
      split; [intros k; by rewrite Hk'|]. split; [intros q' i Hne; by rewrite Ho, Hm1|]. destruct err as [err|].
      * destruct Hpost' as [-> Hn]. split; [done|]. rewrite Forall_app. tauto.
      * destruct Hpost' as (new' & -> & Hpost'). exists (new ++ new'). split; [by rewrite app_assoc|].
        by eapply insert_post_app.
    + intros [= <- <- <-]. split_and!; [done..|]. rewrite Forall_app. tauto.
Qed.
End Invariant.

Section InsertAndRemove.
Context {R : Type} {HO : RedisOps R} {HR : RedisCommands R} {HG : Gopart}.
Implicit Types c : RedisCache R.

Lemma redis_Insert_moves q ms c c' ids err :
  redis_inv c -> Insert q ms c = (c', (ids, err)) ->
  redis_inv c' /\ (forall k, redis_key_value c' k = redis_key_value c k) /\
  (forall i, i ∈ ids -> redis_where_is c q i = None /\ i ∈ ID <$> ms) /\
  (err = None -> forall i, i ∈ ID <$> ms -> redis_where_is c q i = None -> i ∈ ids) /\
  (err = None \/ Forall not_nan ms -> moved (redis_where_is c) q ids (Some PRIMARY_POOL) (redis_where_is c')) /\
  only_queue c c' q.
Proof using HR.
  intros Hc. unfold Insert. destruct (decide (valid_queue q)) as [Hq|Hq].
  2:{ rewrite validate_invalid by done. intros [= <- <- <-].
      split_and!; [done|done|set_solver|done|intros; apply moved_nil|done]. }
  rewrite (Hq : validateQueueName q = None).
  destruct (existsb _ ms).
  { intros [= <- <- <-]. split_and!; [done|done|set_solver|done|intros; apply moved_nil|done]. }
  pose proof (Partition_size _ ms 2000 ltac:(lia)) as Hsize.
  pose proof (Partition_cover _ ms 2000 ltac:(lia)) as Hcover. intros E.
  apply insert_loop_moves in E as (Hc' & Hk & Ho & Hres); [|done|eapply Forall_impl; [exact Hsize|]; by intros p [_ ?]|done].
  cbv zeta in Hres. rewrite Hcover in Hres. split; [done|]. split; [done|]. destruct err as [err|].
  - destruct Hres as [-> Hn]. split_and!; [set_solver|done| |done]. intros [?|?]; done.
  - destruct Hres as (new & -> & (_ & _ & Hm) & Hn & Ha). by split_and!.
Qed.

(** ** Removal *)

(** The number of elements in the six sorted sets of a queue. *)
Definition total_size c (q : string) : Z :=
  foldr (fun s n => Z.of_nat (size (sets c q s)) + n) 0 all_slots.

Lemma remove_step c q ids :
  redis_inv c -> valid_queue q -> ids <> [] -> Z.of_nat (length ids) <= 4000 ->
  exists c',
    Run (removeElementScript
           [activePool c q; processingPool c q; lockPool c q LOCK_ACK; lockPool c q LOCK_NACK;
            lockPoolScore c q LOCK_ACK; lockPoolScore c q LOCK_NACK] ids) c
      = (c', inl (total_size c q - total_size c' q)) /\
    redis_post c c' q ids None /\ (forall s, sets c' q s = zrem ids (sets c q s)).
Proof using HR.
  intros Hc Hq Hne Hlen.
  assert (Hnd : NoDup all_slots) by (apply (bool_decide_eq_true_1 _); vm_compute; reflexivity).
  destruct (remove_loop_at (slot_key c q) (Client c) ids all_slots Hne Hlen Hnd 0 (Client c) _
    (at_sets_start c q Hc Hq)) as (r' & E & Hat).
  assert (Hat' : at_sets (slot_key c q) (Client c) r' (fun s => zrem ids (sets c q s))).
  { eapply at_sets_ext; [|exact Hat]. intros s. cbv beta. rewrite decide_True; [done|]. apply elem_of_all_slots. }
  exists (with_client c r'). split; [|split; [|apply Hat']].
  - unfold removeElementScript. change [activePool c q; _; _; _; _; _] with (map (slot_key c q) all_slots).
    rewrite (Run_eq _ _ _ _ E). do 2 f_equal. rewrite Z.add_0_l. unfold total_size.
    assert (Hs : forall s, sets (with_client c r') q s = zrem ids (sets c q s)) by apply Hat'.
    cbn [removed foldr all_slots]. rewrite !Hs. lia.
  - eapply redis_step; [done..|exact Hat'| | |].
    + intros P i. cbv beta. rewrite zrem_lookup. case_decide; [|done]. split; [by intros [? ?]|done].
    + intros t i. cbv beta. rewrite !zrem_lookup. case_decide; [done|]. by apply inv_scores.
    + intros s i x. apply zrem_not_nan. intros i' x'. by apply inv_not_nan.
Qed.

Lemma remove_partitions_moves q ids : valid_queue q -> forall parts,
  Forall (fun p => slice p.1 p.2 ids <> [] /\ Z.of_nat (length (slice p.1 p.2 ids)) <= 4000) parts ->
  forall total c, redis_inv c ->
  exists c', remove_partitions q ids parts (wrap64 total) c
      = (c', (wrap64 (total + (total_size c q - total_size c' q)), None)) /\
    let sliced := concat (map (fun p => slice p.1 p.2 ids) parts) in
    redis_post c c' q sliced None /\ (forall s, sets c' q s = zrem sliced (sets c q s)).
Proof using HR.
  intros Hq. induction parts as [|[low high] parts IH]; intros Hparts total c Hc.
  - exists c. split; [|split; [by apply redis_same|done]]. cbn. do 3 f_equal. lia.
  - apply Forall_cons in Hparts as [[Hne Hlen] Hparts]. cbn [remove_partitions map concat fst snd] in *.
    destruct (remove_step c q (slice low high ids) Hc Hq Hne Hlen) as (c1 & E & Hpost & Hsets).
    rewrite E. pose proof Hpost as (Hc1 & _). rewrite wrap64_add_l.
    destruct (IH Hparts (total + (total_size c q - total_size c1 q)) c1 Hc1) as (c2 & E2 & Hpost2 & Hsets2).
    exists c2. split; [|split; [by eapply redis_post_trans|]].
    + rewrite E2. do 3 f_equal. lia.
    + intros s. by rewrite Hsets2, Hsets, zrem_app.
Qed.

Lemma redis_Remove_moves q ids c : redis_inv c -> valid_queue q ->
  exists c', Remove q ids c = (c', (wrap64 (total_size c q - total_size c' q), None)) /\
    redis_post c c' q ids None /\ (forall s, sets c' q s = zrem ids (sets c q s)).
Proof using HR.
  intros Hc Hq. unfold Remove. rewrite (Hq : validateQueueName q = None).
  destruct (remove_partitions_moves q ids Hq _ (Partition_size _ ids 4000 ltac:(lia)) 0 c Hc)
    as (c' & E & Hpost).
  cbv zeta in Hpost. rewrite Partition_cover in Hpost by lia. exists c'. by split.
Qed.

Lemma Remove_invalid q ids c : ~ valid_queue q ->
  Remove q ids c = (c, (0, Some errQueueNameContainsClusterHashTag)).
Proof using HR. intros Hq. unfold Remove. by rewrite validate_invalid. Qed.

(** ** General keys *)

Lemma Get_value k c : redis_inv c -> Get k c = (redis_key_value c k, None).
Proof using HR.
  intros Hc. unfold Get. rewrite redis_GET by (by apply inv_string). unfold redis_key_value.
  by destruct (redis_value (Client c) (generalCacheKey c k)) as [[s|z]|].
Qed.

(** The keys of a cache after a change of the keys that are not of a queue. *)
Lemma same_sets c c' q : keyPrefix c' = keyPrefix c ->
  (forall s, redis_value (Client c') (slot_key c q s) = redis_value (Client c) (slot_key c q s)) ->
  forall s, sets c' q s = sets c q s.
Proof using HR.
  intros Hk Hv s. unfold sets, zset. destruct c as [r p], c' as [r' p']. simpl in *. subst p'.
  change (slot_key {| Client := r'; keyPrefix := p |} q s) with (slot_key {| Client := r; keyPrefix := p |} q s).
  by rewrite Hv.
Qed.

Lemma Set_moves k v c : redis_inv c ->
  exists c', Set_ k v c = (c', None) /\ redis_inv c' /\
    (forall q i, redis_where_is c' q i = redis_where_is c q i) /\
    (forall k', redis_key_value c' k' = if decide (k' = k) then v else redis_key_value c k').
Proof using HR.
  intros Hc. unfold Set_.
  destruct (redis_SET (generalCacheKey c k) v (Client c)) as (r' & E & Hv & Ho). rewrite E.
  exists (with_client c r'). split; [done|]. set (c' := with_client c r').
  assert (Hslot : forall q s, redis_value r' (slot_key c q s) = redis_value (Client c) (slot_key c q s)).
  { intros q s. apply Ho, slot_key_general. }
  assert (Hs : forall q s, sets c' q s = sets c q s) by (intros q; by apply same_sets).
  assert (Hp : forall P q i, in_pool c' P q i <-> in_pool c P q i).
  { intros P q i. unfold in_pool. by rewrite Hs. }
  assert (Hgen : forall k', redis_value r' (generalCacheKey c k') =
    if decide (k' = k) then Some (RString v) else redis_value (Client c) (generalCacheKey c k')).
  { intros k'. case_decide as Hk; [by subst|]. apply Ho. by intros E'%(inj _). }
  assert (Hc' : redis_inv c').
  { split.
    - apply Hc.
    - intros q s Hq x. change (slot_key c' q s) with (slot_key c q s). simpl. rewrite Hslot.
      by apply inv_zset.
    - intros k' z. change (generalCacheKey c' k') with (generalCacheKey c k'). simpl. rewrite Hgen.
      case_decide; [done|]. by apply inv_string.
    - intros key Hpre Hk. destruct (decide (key = generalCacheKey c k)) as [->|Hne]; [right; by exists k|].
      apply (inv_keys c Hc key Hpre). by rewrite <- Ho.
    - intros q i P P' Hq. rewrite !Hp. by apply inv_unique.
    - intros q i t Hq. rewrite Hs, Hp. by apply inv_scores.
    - intros q s i x Hq. rewrite Hs. by apply inv_not_nan. }
  split; [done|]. split; [intros q i; by apply where_is_ext|].
  intros k'. unfold redis_key_value. change (generalCacheKey c' k') with (generalCacheKey c k'). simpl.
  rewrite Hgen. by case_decide.
Qed.

End InsertAndRemove.

(** ** Flush *)

Lemma elem_of_uniq_loop values : forall seen v,
  v ∈ uniq_loop seen values <-> v ∈ values /\ v ∉ seen.
Proof.
  induction values as [|w values IH]; intros seen v; cbn [uniq_loop]; [set_solver|].
  case_bool_decide as Hw; rewrite ?elem_of_cons, IH, ?not_elem_of_cons.
  - split; [naive_solver|]. intros [[->|?] ?]; [done|]. done.
  - destruct (decide (v = w)) as [->|]; naive_solver.
Qed.

Lemma elem_of_uniqStrings values v : v ∈ uniqStrings values <-> v ∈ values.
Proof. unfold uniqStrings. rewrite elem_of_uniq_loop. set_solver. Qed.

Lemma NoDup_uniq_loop values : forall seen, NoDup (uniq_loop seen values).
Proof.
  induction values as [|w values IH]; intros seen; cbn [uniq_loop]; [constructor|].
  case_bool_decide; [done|]. constructor; [|done]. rewrite elem_of_uniq_loop. set_solver.
Qed.

Lemma NoDup_uniqStrings values : NoDup (uniqStrings values).
Proof. apply NoDup_uniq_loop. Qed.

Lemma plain_text_append s t : plain_text s -> plain_text t -> plain_text (s +:+ t).
Proof. unfold plain_text. rewrite list_ascii_append. apply Forall_app_2. Qed.

Section Flush.
Context {R : Type} {HO : RedisOps R} {HR : Redis R} {HG : Gopart}.
Implicit Types c : RedisCache R.

Lemma del_each_values keys : forall r : R,
  exists r', del_each keys r = (r', None) /\
    forall k, redis_value r' k = if decide (k ∈ keys) then None else redis_value r k.
Proof using HR.
  induction keys as [|key keys IH]; intros r; cbn [del_each].
  - exists r. split; [done|]. intros k. rewrite decide_False; [done|]. set_solver.
  - destruct (redis_DEL [key] r ltac:(done)) as [(r1 & n & E & Hin & Hout)|[Hlen _]]; [|cbn in Hlen; lia].
    rewrite E. destruct (IH r1) as (r2 & E2 & Hv). exists r2. split; [done|]. intros k. rewrite Hv.
    destruct (decide (k ∈ keys)) as [Hk|Hk]; [by rewrite decide_True by set_solver|].
    destruct (decide (k = key)) as [->|Hne]; [rewrite decide_True by set_solver; apply Hin; set_solver|].
    rewrite decide_False by set_solver. apply Hout. set_solver.
Qed.

Lemma del_partitions_values keys : forall parts (r : R),
  Forall (fun p => slice p.1 p.2 keys <> []) parts ->
  exists r', del_partitions keys parts r = (r', None) /\
    forall k, redis_value r' k =
      if decide (k ∈ concat (map (fun p => slice p.1 p.2 keys) parts)) then None else redis_value r k.
Proof using HR.
  induction parts as [|[low high] parts IH]; intros r Hp; cbn [del_partitions map concat].
  - exists r. split; [done|]. intros k. rewrite decide_False; [done|]. set_solver.
  - apply Forall_cons in Hp as [Hne Hp]. cbn [fst snd] in *.
    assert (Hstep : exists r1, (forall k, redis_value r1 k =
        if decide (k ∈ slice low high keys) then None else redis_value r k) /\
      del_partitions keys ((low, high) :: parts) r = del_partitions keys parts r1).
    { destruct (redis_DEL (slice low high keys) r Hne) as [(r1 & n & E & Hin & Hout)|(_ & msg & E & Hmsg)].
      - exists r1. split; [|cbn [del_partitions]; by rewrite E]. intros k. case_decide; auto.
      - destruct (del_each_values (slice low high keys) r) as (r1 & E1 & Hv). exists r1. split; [done|].
        cbn [del_partitions]. rewrite E. cbn [error_Error]. by rewrite Hmsg, E1. }
    destruct Hstep as (r1 & Hr1 & Hstep). cbn [del_partitions] in Hstep. rewrite Hstep.
    destruct (IH r1 Hp) as (r2 & E2 & Hv). exists r2. split; [done|]. intros k. rewrite Hv, Hr1.
    repeat case_decide; set_solver.
Qed.

Lemma deleteByPattern_values (prefix : string) (r : R) : plain_text prefix ->
  exists r', deleteByPattern r (prefix +:+ "*") = (r', None) /\
    forall k, redis_value r' k = if HasPrefix k prefix then None else redis_value r k.
Proof using HR.
  intros Hp. unfold deleteByPattern.
  destruct (redis_SCAN prefix "" r Hp ltac:(constructor)) as (batches & E & Hb).
  rewrite append_nil_r in E. rewrite E. set (keys := uniqStrings (concat batches)).
  pose proof (Partition_size _ keys 1000 ltac:(lia)) as Hsize.
  destruct (del_partitions_values keys (Partition (Z.of_nat (length keys)) 1000) r) as (r' & E' & Hv).
  { eapply Forall_impl; [exact Hsize|]. by intros p [? _]. }
  rewrite Partition_cover in Hv by lia. exists r'. split; [done|]. intros k. rewrite Hv.
  assert (Hk : k ∈ keys <-> is_Some (redis_value r k) /\ HasPrefix k prefix = true).
  { unfold keys. rewrite elem_of_uniqStrings, Hb, HasPrefix_true. by setoid_rewrite append_nil_r. }
  destruct (decide (k ∈ keys)) as [Hin|Hin].
  - apply Hk in Hin as [_ ->]. done.
  - destruct (HasPrefix k prefix); [|done]. apply eq_None_not_Some. intros Hs. by apply Hin, Hk.
Qed.

(** A flush deletes every key under the prefix and no other key. *)
Lemma Flush_values c k : redis_inv c ->
  redis_value (Client (Flush c)) k =
  if HasPrefix k (fullPrefix c +:+ ":") then None else redis_value (Client c) k.
Proof using HR.
  intros Hc. unfold Flush. rewrite <- (append_assoc _ ":" "*" : _ = (fullPrefix c +:+ ":*")%string).
  destruct (deleteByPattern_values (fullPrefix c +:+ ":") (Client c)) as (r' & E & Hv).
  { apply plain_text_append; [apply Hc|by repeat constructor]. }
  rewrite E. apply Hv.
Qed.

(** A cache without keys under its prefix is empty. *)
Lemma emptied_moves c c' : redis_inv c -> keyPrefix c' = keyPrefix c ->
  (forall k, redis_value (Client c') k =
     if HasPrefix k (fullPrefix c +:+ ":") then None else redis_value (Client c) k) ->
  redis_inv c' /\ (forall k, redis_key_value c' k = "") /\ (forall q i, redis_where_is c' q i = None).
Proof using HR.
  destruct c' as [r' p]. cbn [keyPrefix]. intros Hc -> Hv. set (c' := {| Client := r'; keyPrefix := keyPrefix c |}) in *.
  assert (Hslot : forall q s, redis_value (Client c') (slot_key c q s) = None).
  { intros q s. rewrite Hv by done. unfold slot_key, poolPrefix, POOL_SUFFIX.
    rewrite (proj2 (HasPrefix_true _ _)); [done|]. exists ("queue:" +:+ "{" +:+ q +:+ "}" +:+ slot_suffix s).
    unfold fullPrefix. by rewrite !append_assoc. }
  assert (Hgen : forall k, redis_value (Client c') (generalCacheKey c k) = None).
  { intros k. rewrite Hv by done. unfold generalCacheKey.
    rewrite (proj2 (HasPrefix_true _ _)); [done|]. exists ("{" +:+ k +:+ "}"). by rewrite append_assoc. }
  assert (Hs : forall q s, sets c' q s = ∅).
  { intros q s. unfold sets, zset. change (slot_key c' q s) with (slot_key c q s). by rewrite Hslot. }
  assert (Hp : forall P q i, ~ in_pool c' P q i).
  { intros P q i [x Hx]. by rewrite Hs in Hx. }
  split; [|split].
  - split.
    + apply Hc.
    + intros q s Hq x. change (slot_key c' q s) with (slot_key c q s). by rewrite Hslot.
    + intros k z. change (generalCacheKey c' k) with (generalCacheKey c k). by rewrite Hgen.
    + intros k Hk. change (fullPrefix c') with (fullPrefix c) in Hk. rewrite Hv, Hk by done. by intros [? ?].
    + intros q i P P' Hq Hin. by destruct (Hp _ _ _ Hin).
    + intros q i t Hq. rewrite Hs. by intros [? ?].
    + intros q s i x Hq. by rewrite Hs.
  - intros k. unfold redis_key_value. change (generalCacheKey c' k) with (generalCacheKey c k). by rewrite Hgen.
  - intros q i. destruct (decide (valid_queue q)) as [Hq|Hq]; [|by apply where_is_invalid].
    by apply where_is_None.
Qed.

Lemma Flush_moves c : redis_inv c ->
  redis_inv (Flush c) /\ (forall k, redis_key_value (Flush c) k = "") /\
  (forall q i, redis_where_is (Flush c) q i = None).
Proof using HR. intros Hc. apply (emptied_moves c); [done|done|]. intros k. by apply Flush_values. Qed.
End Flush.

(** ** The contract *)

(** The messages unlocked, with the one queue they are of. *)
Lemma unlocked_of_queue (w w' : string -> string -> option PoolType) q ids src dst :
  NoDup ids -> Forall (fun i => w q i = src) ids -> moved w q ids dst w' ->
  exists unlocked : list (string * string),
    ids = unlocked.*2 /\ NoDup unlocked /\ Forall (fun x => w x.1 x.2 = src) unlocked /\
    forall q' i, w' q' i = if decide ((q', i) ∈ unlocked) then dst else w q' i.
Proof.
  intros Hd Hf Hm. exists (map (pair q) ids). split_and!.
  - clear. induction ids as [|i ids IH]; [done|]. cbn [map]. by rewrite fmap_cons, <- IH.
  - apply NoDup_fmap; [by intros ? ? [= ->]|done].
  - rewrite Forall_forall in Hf. apply Forall_forall. intros x (i & -> & Hi)%list_elem_of_fmap. by apply Hf.
  - intros q' i. rewrite Hm. apply decide_ext. rewrite list_elem_of_fmap. naive_solver.
Qed.

#[export] Instance RedisCache_spec {R} {HO : RedisOps R} {HR : Redis R} {HG : Gopart} : CacheSpec (RedisCache R).
Proof.
  refine {|
    cache_inv := redis_inv;
    where_is := redis_where_is;
    cache_key := redis_key_value;
    cache_msg_ok := not_nan;
    cache_pull_ok := fun n => 0 < n <= 4000
  |}; simpl.
  - intros env m c c' b err Hc E. destruct (redis_MakeAvailable_moves m c c' b err Hc E) as (? & ? & ? & ? & ? & _).
    by split_and!.
  - intros env m t c c' b err Hc E.
    destruct (redis_LockMessage_moves env m t c c' b err Hc E) as (? & ? & ? & ? & ? & _). by split_and!.
  - intros env q n mn mx dl c c' ids err Hc Hn [= E].
    destruct (redis_PullMessages_moves env q n mn mx dl c c' ids err Hc Hn E) as ((? & ? & ?) & ? & ? & ? & _ & _).
    by split_and!.
  - intros env q c c' ids err Hc E.
    destruct (redis_TimeoutMessages_moves env q c c' ids err Hc E) as ((? & ? & ?) & ? & ? & _). by split_and!.
  - intros env q t c c' ids err Hc E.
    destruct (redis_UnlockMessages_moves env q t c c' ids err Hc E) as ((? & ? & Hm) & Hd & Hf & _).
    split_and!; [done..|]. by eapply (unlocked_of_queue _ _ q).
  - intros env q ms c c' ids err Hc E. destruct (redis_Insert_moves q ms c c' ids err Hc E) as (? & ? & ? & ? & ? & _).
    by split_and!.
  - intros env q ids c c' n err Hc E. destruct (decide (valid_queue q)) as [Hq|Hq].
    + destruct (redis_Remove_moves q ids c Hc Hq) as (c1 & E1 & (Hi & Hk & Hm) & _). rewrite E1 in E.
      injection E as <- _ <-. split_and!; [done..|]. by exists ids.
    + rewrite Remove_invalid in E by done. injection E as <- _ <-. split_and!; [done..|]. exists [].
      split; [set_solver|]. split; [done|apply moved_nil].
  - intros env c. apply Flush_moves.
  - intros env k c v Hc. rewrite Get_value by done. by intros [= <-].
  - intros env k v c c' Hc E. destruct (Set_moves k v c Hc) as (c1 & E1 & ?). rewrite E1 in E.
    by injection E as <-.
  - intros env k v c c' e Hc E. destruct (Set_moves k v c Hc) as (c1 & E1 & ?). by rewrite E1 in E.
Defined.
