(* ===== verification/RedisProps.v ===== *)
(** * The Redis cache: properties

    The life cycle of the messages of a Redis cache, the order of a pull, the
    timeout and unlock tasks, the count of a removal, the listing of the
    queues and the flush of a namespace, on any server that keeps the
    documented behaviour of its commands. *)

From Stdlib Require Import SpecFloat.
From S2P Require Import Prelude Float64 Dtime Utils Score Message Cache Fixtures CacheProps.
From S2P Require Import GoStrings Redis RedisScripts RedisCache RedisKeys RedisEffects RedisFacts.
#[local] Open Scope string_scope.
#[local] Open Scope list_scope.
#[local] Open Scope Z_scope.

(** ** Concrete inputs *)

(** Consecutive ranges of [size] indexes; [fuel] is at least their number. *)
Fixpoint ranges (fuel : nat) (low len size : Z) : list (Z * Z) :=
  match fuel with
  | O => []
  | S fuel' => if len <=? low then [] else (low, Z.min (low + size) len) :: ranges fuel' (low + size) len size
  end.

Lemma ranges_ok {A} (l : list A) size : 0 < size -> forall fuel low,
  0 <= low -> Z.of_nat (length l) - low <= Z.of_nat fuel ->
  concat (map (fun p => slice p.1 p.2 l) (ranges fuel low (Z.of_nat (length l)) size))
    = drop (Z.to_nat low) l /\
  Forall (fun p => slice p.1 p.2 l <> [] /\ Z.of_nat (length (slice p.1 p.2 l)) <= size)
    (ranges fuel low (Z.of_nat (length l)) size).
Proof.
  intros Hs. induction fuel as [|fuel IH]; intros low Hl Hf; cbn [ranges].
  { split; [|constructor]. cbn. rewrite drop_ge; [done|lia]. }
  case_if; bool_hyps; [split; [|constructor]; cbn; rewrite drop_ge; [done|lia]|].
  destruct (IH (low + size)) as [Hc Hp]; [lia|lia|]. cbn [map concat fst snd]. split.
  - rewrite Hc. unfold slice. rewrite <- (take_drop (Z.to_nat size) (drop (Z.to_nat low) l)) at 2.
    rewrite drop_drop, <- Z2Nat.inj_add by lia. f_equal.
    destruct (Z.le_gt_cases (low + size) (Z.of_nat (length l))) as [Hle|Hgt].
    + rewrite Z.min_l by lia. f_equal. lia.
    + rewrite Z.min_r by lia. rewrite !take_ge; [done|rewrite length_drop; lia..].
  - constructor; [|done]. cbn [fst snd]. unfold slice.
    assert (Hlen : Z.of_nat (length (take (Z.to_nat (Z.min (low + size) (Z.of_nat (length l)) - low))
      (drop (Z.to_nat low) l))) = Z.min size (Z.of_nat (length l) - low)).
    { rewrite length_take, length_drop. lia. }
    split; [|lia]. intros E0. rewrite E0 in Hlen. simpl in Hlen. lia.
Qed.

Definition chunks : Gopart.
Proof.
  refine {| Partition := fun len size => ranges (Z.to_nat len) 0 len size |}.
  - intros A l size Hs. apply (ranges_ok l size Hs); lia.
  - intros A l size Hs. apply (ranges_ok l size Hs); lia.
Defined.

#[local] Existing Instance chunks.

Abbreviation ModelCache := (RedisCache RedisModel).

Definition new_cache : ModelCache := {| Client := ∅; keyPrefix := "deckard_v1" |}.

Lemma new_cache_inv : redis_inv new_cache.
Proof.
  assert (Hv : forall k, redis_value (Client new_cache) k = None) by done.
  assert (Hs : forall q s, sets new_cache q s = ∅) by done.
  split.
  - apply (bool_decide_eq_true_1 _). vm_compute. reflexivity.
  - intros q s _ x. by rewrite Hv.
  - intros k z. by rewrite Hv.
  - intros k _ [v Hk]. by rewrite Hv in Hk.
  - intros q i P P' _ [x Hx]. by rewrite Hs in Hx.
  - intros q i t _ [x Hx]. by rewrite Hs in Hx.
  - intros q s i x _ Hx. by rewrite Hs in Hx.
Qed.

(** The next state of a run, when its result is known. *)
Lemma run_result {A B} (p : A * B) (b : B) : p.2 = b -> p = (p.1, b).
Proof. by destruct p; intros <-. Qed.

(** ** Life cycle *)

(** Two messages inserted in one queue. *)
Definition two_inserted : ModelCache := (Insert "q" [msg "q" "a" 10 0; msg "q" "b" 5 0] new_cache).1.

Section Properties.
Context {R : Type} {HO : RedisOps R} {HR : Redis R} {HG : Gopart}.
Implicit Types c : RedisCache R.

(** C18. The Redis cache refines the life cycle of a message as the memory cache
    does: from a cache that keeps the invariant, after any history of calls
    and whatever the next one, a message moves only along the edges that call
    may take, and the invariant is kept (no message in two pools, scores kept
    for locked messages only).  The calls are those the implementation
    supports: messages with scores that are numbers, and pulls of 1 to 4000
    messages. *)
Theorem redis_cache_life_cycle (h : list (Env * cache_op)) env op c0 c c'
    (Hinv : redis_inv c0) (Hok : Forall (fun x => op_ok (C := RedisCache R) x.2) h)
    (Hreach : run_ops h c0 = Ret c) (Hop : op_ok (C := RedisCache R) op) (Hrun : run_op env op c = Ret c') :
  redis_inv c' /\ forall q i, life_step q i op (redis_where_is c q i) (redis_where_is c' q i).
Proof using Type.
  assert (Hc : redis_inv c) by exact (run_ops_inv (HS := RedisCache_spec) h c0 c Hinv Hok Hreach).
  exact (run_op_life (HS := RedisCache_spec) env op c c' Hc Hop Hrun).
Qed.
End Properties.

(** One of them pulled. *)
Definition one_pulled : ModelCache := (PullMessages (at_ms 1000) "q" 1 None None 0 two_inserted).1.

Lemma redis_cache_life_cycle_witness :
  redis_where_is two_inserted "q" "b" = Some PRIMARY_POOL /\
  redis_where_is one_pulled "q" "b" = Some PROCESSING_POOL /\
  life_step "q" "b" (OpPullMessages "q" 1 None None 0)
    (redis_where_is two_inserted "q" "b") (redis_where_is one_pulled "q" "b").
Proof.
  split; [vm_compute; reflexivity|]. split; [vm_compute; reflexivity|].
  refine (proj2 (redis_cache_life_cycle [(at_ms 0, OpInsert "q" [msg "q" "a" 10 0; msg "q" "b" 5 0])]
    (at_ms 1000) (OpPullMessages "q" 1 None None 0) new_cache two_inserted one_pulled new_cache_inv
    _ _ _ _) "q" "b").
  - by repeat constructor.
  - reflexivity.
  - simpl. lia.
  - reflexivity.
Defined.

(** ** Pull *)

Section Pull.
Context {R : Type} {HO : RedisOps R} {HR : RedisCommands R}.
Implicit Types c : RedisCache R.

(** The scores of the available messages of a queue. *)
Definition available_score c (q i : string) : option float64 := sets c q (PoolSlot PRIMARY_POOL) !! i.

(** A pull takes the first elements in the bounds. *)
Lemma pulled_elements_take f s n mn mx : 0 < n ->
  pulled_elements f s n mn mx =
  (take (Z.to_nat n) (List.filter (fun p => in_bounds mn mx p.2) (zsorted (f s)))).*1.
Proof using Type.
  intros Hn. rewrite fmap_take. unfold pulled_elements, zrange_to, zlimit.
  rewrite (proj2 (Z.ltb_ge n 0)) by lia.
  destruct mn, mx; try done. rewrite (proj2 (Z.ltb_ge (n - 1) 0)) by lia.
  rewrite Z.sub_add. f_equal. f_equal. symmetry. apply filter_true.
Qed.

(** C22. A pull of the Redis cache gives the best messages: each id once, only
    available messages whose score is in the bounds, in order of score, at
    most [n]; the limit is applied after the bounds, so a message that is
    available, in the bounds and not taken is left only when [n] messages
    with scores that are not higher were taken.  The messages taken are to
    time out at the ack deadline. *)
Theorem redis_pull_best env q n mn mx dl c c' ids
    (Hc : redis_inv c) (Hq : valid_queue q) (Hn : 0 < n <= 4000)
    (Hpull : PullMessages env q n mn mx dl c = (c', (ids, None))) :
  let eligible i := exists x, available_score c q i = Some x /\ in_bounds mn mx x = true in
  let best i j := forall x y, available_score c q i = Some x -> available_score c q j = Some y ->
    f64_leb x y = true in
  NoDup ids /\ Forall eligible ids /\ Z.of_nat (length ids) <= n /\ StronglySorted best ids /\
  (forall j, eligible j -> j ∉ ids -> Z.of_nat (length ids) = n /\ Forall (fun i => best i j) ids) /\
  (forall i, i ∈ ids -> sets c' q (PoolSlot PROCESSING_POOL) !! i = Some (pull_deadline env dl)).
Proof using HR.
  intros eligible best.
  destruct (redis_PullMessages_moves env q n mn mx dl c c' ids None Hc Hn Hpull) as (_ & Hnd & Hlen & _ & Hids & Hdl).
  specialize (Hids eq_refl). rewrite decide_True, pulled_elements_take in Hids by (done || lia).
  set (z := sets c q (PoolSlot PRIMARY_POOL)) in *.
  set (l := List.filter (fun p => in_bounds mn mx p.2) (zsorted z)) in *.
  assert (Hl : forall i x, (i, x) ∈ l <-> z !! i = Some x /\ in_bounds mn mx x = true).
  { intros i x. unfold l. by rewrite elem_of_filter_iff, elem_of_zsorted. }
  assert (Hsorted : StronglySorted (fun p p' => f64_ltb p'.2 p.2 = false) l).
  { apply StronglySorted_filter, zsorted_sorted. intros i x. by apply inv_not_nan. }
  assert (Hbest : forall p p', p ∈ l -> p' ∈ l -> f64_ltb p'.2 p.2 = false -> best p.1 p'.1).
  { intros [i x] [j y] [Hi _]%Hl [Hj _]%Hl Hlt x' y' Hx Hy. unfold available_score in Hx, Hy. simpl in *.
    fold z in Hx, Hy. simplify_eq. apply f64_nltb_leb; [by eapply inv_not_nan..|done]. }
  assert (Htake : forall p, p ∈ take (Z.to_nat n) l -> p ∈ l).
  { intros p Hp. eapply elem_of_sublist; [exact Hp|apply sublist_take]. }
  split; [done|]. split; [|split; [done|split; [|split; [|done]]]].
  - rewrite Hids, Forall_forall. intros i ([i' x] & -> & Hx%Htake)%list_elem_of_fmap.
    exists x. by apply Hl.
  - rewrite Hids. eapply StronglySorted_fst; [|apply StronglySorted_take; exact Hsorted].
    intros p p' Hp%Htake Hp'%Htake. by apply Hbest.
  - intros j (y & Hy & Hb) Hj. assert (Hin : (j, y) ∈ l) by by apply Hl.
    assert (Hdrop : (j, y) ∈ drop (Z.to_nat n) l).
    { rewrite <- (take_drop (Z.to_nat n) l) in Hin. apply elem_of_app in Hin as [Hin|?]; [|done].
      destruct Hj. rewrite Hids. apply list_elem_of_fmap. by exists (j, y). }
    split.
    + rewrite Hids, length_fmap, length_take. destruct (Nat.le_gt_cases (length l) (Z.to_nat n)); [|lia].
      rewrite drop_ge in Hdrop by done. by apply not_elem_of_nil in Hdrop.
    + rewrite Hids, Forall_forall. intros i (p & -> & Hp)%list_elem_of_fmap.
      apply (Hbest p (j, y)); [by apply Htake|done|].
      by eapply (StronglySorted_take_drop _ _ _ _ _ Hsorted).
Qed.

(** ** Timeout and unlock *)

(** The messages that are due: only such messages, the highest scores first
    when there are more than [n]. *)
Lemma due_facts c P q x n :
  redis_inv c -> valid_queue q -> 0 <= n ->
  let ids := due c P q x n in
  let score i := sets c q (PoolSlot P) !! i in
  let overdue i := exists s, score i = Some s /\ f64_leb f64_zero s = true /\ f64_leb s x = true in
  NoDup ids /\ Z.of_nat (length ids) <= n /\ Forall overdue ids /\
  (forall j, overdue j -> j ∉ ids -> Z.of_nat (length ids) = n /\
     Forall (fun i => forall s s', score j = Some s -> score i = Some s' -> f64_leb s s' = true) ids).
Proof using HR.
  intros Hc Hq Hn ids score overdue.
  set (z := sets c q (PoolSlot P)) in *.
  set (l := reverse (List.filter (fun p => in_bounds (Some f64_zero) (Some x) p.2) (zsorted z))).
  assert (Hids : ids = (take (Z.to_nat n) l).*1).
  { unfold ids, due. rewrite decide_True by done. unfold rev_range, zlimit.
    rewrite (proj2 (Z.ltb_ge n 0)) by lia. unfold l. by rewrite fmap_take, fmap_reverse. }
  assert (Hl : forall i s, (i, s) ∈ l <-> z !! i = Some s /\ f64_leb f64_zero s = true /\ f64_leb s x = true).
  { intros i s. unfold l. rewrite elem_of_reverse, elem_of_filter_iff, elem_of_zsorted.
    unfold in_bounds. by rewrite andb_true_iff. }
  assert (Hsorted : StronglySorted (fun p p' => f64_ltb p.2 p'.2 = false) l).
  { apply (StronglySorted_reverse (fun p p' => f64_ltb p'.2 p.2 = false)).
    apply StronglySorted_filter, zsorted_sorted. intros i s. by apply inv_not_nan. }
  assert (Htake : forall p, p ∈ take (Z.to_nat n) l -> p ∈ l).
  { intros p Hp. eapply elem_of_sublist; [exact Hp|apply sublist_take]. }
  split; [|split; [|split]].
  - unfold ids, due. rewrite decide_True by done. apply rev_range_facts.
  - rewrite Hids, length_fmap, length_take. lia.
  - rewrite Hids, Forall_forall. intros i ([i' s] & -> & Hs%Htake)%list_elem_of_fmap.
    exists s. by apply Hl.
  - intros j (s & Hs) Hj. assert (Hin : (j, s) ∈ l) by by apply Hl.
    assert (Hdrop : (j, s) ∈ drop (Z.to_nat n) l).
    { rewrite <- (take_drop (Z.to_nat n) l) in Hin. apply elem_of_app in Hin as [Hin|?]; [|done].
      destruct Hj. rewrite Hids. apply list_elem_of_fmap. by exists (j, s). }
    split.
    + rewrite Hids, length_fmap, length_take. destruct (Nat.le_gt_cases (length l) (Z.to_nat n)); [|lia].
      rewrite drop_ge in Hdrop by done. by apply not_elem_of_nil in Hdrop.
    + rewrite Hids, Forall_forall. intros i ([i' s'] & -> & Hp)%list_elem_of_fmap t t' Ht Ht'.
      pose proof (StronglySorted_take_drop _ _ _ _ _ Hsorted Hp Hdrop) as Hlt. apply Htake in Hp.
      apply Hl in Hp as [Hp _]. destruct Hs as [Hs _]. unfold score in Hs, Ht, Ht'. simpl in *.
      simplify_eq. apply f64_nltb_leb; [by eapply inv_not_nan..|done].
Qed.

(** One call of the timeout task of the Redis cache makes available only
    messages whose ack deadline has passed, to the millisecond, and, unless it
    moves its maximum of 1000, all of them; when there are more, the ones with
    the latest deadlines are moved first.  No other message moves. *)
Theorem redis_timeout_overdue env q c c' ids err
    (Hc : redis_inv c) (Hq : valid_queue q)
    (Htimeout : TimeoutMessages env q c = (c', (ids, err))) :
  let deadline i := sets c q (PoolSlot PROCESSING_POOL) !! i in
  let overdue i := exists x, deadline i = Some x /\ f64_leb f64_zero x = true /\
    f64_leb x (f64_of_Z (NowMs env)) = true in
  NoDup ids /\ (length ids <= Z.to_nat 1000)%nat /\ Forall overdue ids /\
  ((length ids < Z.to_nat 1000)%nat -> forall j, overdue j -> j ∈ ids) /\
  (forall j, overdue j -> j ∉ ids ->
     Forall (fun i => forall x y, deadline j = Some x -> deadline i = Some y -> f64_leb x y = true) ids) /\
  moved (redis_where_is c) q ids (Some PRIMARY_POOL) (redis_where_is c').
Proof using HR.
  intros deadline overdue.
  destruct (redis_TimeoutMessages_moves env q c c' ids err Hc Htimeout) as ((_ & _ & Hm) & Hnd & _ & Hids).
  destruct (due_facts c PROCESSING_POOL q (f64_of_Z (NowMs env)) 1000 Hc Hq ltac:(lia))
    as (_ & Hlen & Hover & Hleft).
  rewrite <- Hids in Hlen, Hover, Hleft. split_and!; [done|lia|done| | |done].
  - intros Hlt j Hj. destruct (decide (j ∈ ids)) as [|Hn]; [done|].
    destruct (Hleft j Hj Hn) as [Hfull _]. lia.
  - intros j Hj Hn. by destruct (Hleft j Hj Hn) as [_ ?].
Qed.

(** The sets of a locked message. *)
Lemma LockMessage_sets env m t c c' err :
  redis_inv c -> LockMessage env m t c = (c', (true, err)) ->
  valid_queue (Queue m) /\ 0 < LockMs m /\
  sets c' (Queue m) (PoolSlot (lock_pool t)) !! ID m = Some (f64_of_Z (wrap64 (NowMs env + LockMs m))) /\
  sets c' (Queue m) (ScoreSlot t) !! ID m
    = if f64_eqb (Score m) (f64_of_Z (-1)) then None else Some (Score m).
Proof using HR.
  intros Hc Hlock.
  pose proof (redis_LockMessage_moves env m t c c' true err Hc Hlock) as (_ & _ & Hb & _).
  destruct (Hb eq_refl) as [-> Hw]. clear Hb. revert Hlock. unfold LockMessage.
  destruct (String.eqb (Queue m) ""); [done|].
  destruct (decide (valid_queue (Queue m))) as [Hq|Hq]; [|by rewrite where_is_invalid in Hw].
  rewrite (Hq : validateQueueName (Queue m) = None), processingPool_slot, lockPool_slot, lockPoolScore_slot.
  destruct (Z.leb_spec (LockMs m) 0) as [|Hms]; [done|]. set (x := f64_of_Z _).
  assert (Hx : f64_is_nan x = false) by apply f64_of_Z_not_nan.
  apply where_is_Some in Hw; [|done..].
  assert (Hns : sets c (Queue m) (ScoreSlot t) !! ID m = None).
  { eapply not_locked_no_score; [done..|exact Hw|by destruct t]. }
  destruct (lockElementScript_at (slot_key c (Queue m)) (Client c) (Client c) _
    (PoolSlot PROCESSING_POOL) (PoolSlot (lock_pool t)) t x (ID m) (Score m)
    ltac:(by destruct t) ltac:(done) ltac:(done) Hx (at_sets_start c (Queue m) Hc Hq))
    as (r' & res & E & Hres).
  rewrite (Run_eq _ _ _ _ E). unfold in_pool in Hw. destruct Hw as [y Hy]. rewrite Hy, Hns in Hres.
  destruct (f64_eqb (Score m) _); [|destruct (f64_is_nan (Score m))]; destruct Hres as [Hr Hat].
  - subst res. intros [= <-]. split; [done|]. split; [done|].
    assert (Hs : forall s, sets (with_client c r') (Queue m) s = _) by apply Hat. rewrite !Hs, upd_eq.
    split; [apply zadd_lookup_in; [apply NoDup_singleton|set_solver]|].
    unfold without. by rewrite !upd_ne.
  - by destruct Hr as [e ->].
  - subst res. intros [= <-]. split; [done|]. split; [done|].
    assert (Hs : forall s, sets (with_client c r') (Queue m) s = _) by apply Hat. rewrite !Hs, upd_eq.
    rewrite (upd_ne _ (ScoreSlot t)), upd_eq by done.
    split; apply zadd_lookup_in; (apply NoDup_singleton || set_solver).
Qed.

(** C23. A lock of the Redis cache lasts as long as it was asked for and gives
    the score back: a message locked at one time and unlocked by a later run
    of the unlock task was locked for at least its lock time, and is available
    again with the score it was locked with (the default score of the lock
    type when it had none).  A run of the task after the lock time, with
    fewer than 1000 messages to unlock, does unlock it. *)
Theorem redis_lock_roundtrip env env' m t c c1 c2 err ids err'
    (Hc : redis_inv c)
    (Hlock : LockMessage env m t c = (c1, (true, err)))
    (Hunlock : UnlockMessages env' (Queue m) t c1 = (c2, (ids, err')))
    (Hnow : 0 <= NowMs env) (Hend : NowMs env + LockMs m <= 2 ^ 53) (Hnow' : 0 <= NowMs env' <= 2 ^ 53) :
  (ID m ∈ ids ->
     NowMs env + LockMs m <= NowMs env' /\
     available_score c2 (Queue m) (ID m) =
       Some (if f64_eqb (Score m) Undefined then unlock_score env' t else Score m)) /\
  (NowMs env + LockMs m <= NowMs env' -> (length ids < Z.to_nat 1000)%nat -> ID m ∈ ids).
Proof using HR.
  destruct (LockMessage_sets env m t c c1 err Hc Hlock) as (Hq & Hms & Hl & Hs).
  destruct (redis_LockMessage_moves env m t c c1 true err Hc Hlock) as (Hc1 & _).
  destruct (redis_UnlockMessages_moves env' (Queue m) t c1 c2 ids err' Hc1 Hunlock) as (_ & _ & _ & Hids & Hav).
  destruct (due_facts c1 (lock_pool t) (Queue m) (f64_of_Z (NowMs env')) 1000 Hc1 Hq ltac:(lia))
    as (_ & _ & Hover & Hleft).
  rewrite <- Hids in Hover, Hleft.
  rewrite wrap64_id in Hl by (unfold is_int64, min_int64, max_int64; lia).
  split.
  - intros Hin. rewrite Forall_forall in Hover. destruct (Hover _ Hin) as (x & Hx & _ & Hle). split.
    + rewrite Hl in Hx. injection Hx as <-. rewrite f64_of_Z_leb in Hle by lia. by apply Z.leb_le.
    + unfold available_score. rewrite Hav by done. rewrite Hs. change (f64_of_Z (-1)) with Undefined.
      by destruct (f64_eqb (Score m) Undefined).
  - intros Hle Hlt. destruct (decide (ID m ∈ ids)) as [|Hn]; [done|].
    destruct (Hleft (ID m)) as [Hfull _]; [|done|lia]. eexists. split; [exact Hl|].
    change f64_zero with (f64_of_Z 0). rewrite !f64_of_Z_leb by lia. split; apply Z.leb_le; lia.
Qed.
End Pull.

Lemma Insert_inv q ms c : redis_inv c -> redis_inv (Insert (R := RedisModel) q ms c).1.
Proof.
  intros Hc. destruct (Insert q ms c) as [c' [ids err]] eqn:E. by apply redis_Insert_moves in E as [? _].
Qed.

Lemma Pull_inv env q n mn mx dl (c : ModelCache) :
  redis_inv c -> 0 < n <= 4000 -> redis_inv (PullMessages env q n mn mx dl c).1.
Proof.
  intros Hc Hn. destruct (PullMessages env q n mn mx dl c) as [c' [ids err]] eqn:E.
  by apply redis_PullMessages_moves in E as ((? & _) & _).
Qed.

Lemma two_inserted_inv : redis_inv two_inserted.
Proof. apply Insert_inv, new_cache_inv. Qed.

Lemma redis_pull_best_witness :
  let c' := (PullMessages (at_ms 1000) "q" 1 (Some (f64_of_Z 6)) None 500 two_inserted).1 in
  PullMessages (at_ms 1000) "q" 1 (Some (f64_of_Z 6)) None 500 two_inserted = (c', (["a"], None)) /\
  available_score two_inserted "q" "b" = Some (f64_of_Z 5) /\
  sets c' "q" (PoolSlot PROCESSING_POOL) !! "a" = Some (f64_of_Z 1500).
Proof.
  intros c'. assert (E : PullMessages (at_ms 1000) "q" 1 (Some (f64_of_Z 6)) None 500 two_inserted
    = (c', (["a"], None))) by (apply run_result; vm_compute; reflexivity).
  split; [exact E|]. split; [vm_compute; reflexivity|].
  destruct (redis_pull_best (at_ms 1000) "q" 1 (Some (f64_of_Z 6)) None 500 two_inserted c' ["a"]
    two_inserted_inv ltac:(vm_compute; reflexivity) ltac:(lia) E) as (_ & _ & _ & _ & _ & H).
  rewrite (H "a") by (clear; set_solver). vm_compute. reflexivity.
Defined.

(** Both messages pulled at one second, for 500 ms. *)
Definition both_pulled : ModelCache := (PullMessages (at_ms 1000) "q" 10 None None 500 two_inserted).1.

Lemma both_pulled_inv : redis_inv both_pulled.
Proof. apply Pull_inv; [apply two_inserted_inv|lia]. Qed.

Lemma redis_timeout_overdue_witness :
  (TimeoutMessages (at_ms 1499) "q" both_pulled).2 = ([], None) /\
  let c' := (TimeoutMessages (at_ms 1500) "q" both_pulled).1 in
  TimeoutMessages (at_ms 1500) "q" both_pulled = (c', (["b"; "a"], None)) /\
  redis_where_is c' "q" "a" = Some PRIMARY_POOL.
Proof.
  split; [vm_compute; reflexivity|]. intros c'.
  assert (E : TimeoutMessages (at_ms 1500) "q" both_pulled = (c', (["b"; "a"], None)))
    by (apply run_result; vm_compute; reflexivity).
  split; [exact E|].
  destruct (redis_timeout_overdue (at_ms 1500) "q" both_pulled c' _ None both_pulled_inv
    ltac:(vm_compute; reflexivity) E) as (_ & _ & _ & _ & _ & Hm).
  rewrite Hm. rewrite decide_True; [done|]. split; [done|clear; set_solver].
Defined.

Lemma redis_lock_roundtrip_witness :
  let m := msg "q" "a" 7 300 in
  let c1 := (LockMessage (at_ms 1200) m LOCK_NACK both_pulled).1 in
  let c2 := (UnlockMessages (at_ms 1500) "q" LOCK_NACK c1).1 in
  LockMessage (at_ms 1200) m LOCK_NACK both_pulled = (c1, (true, None)) /\
  (UnlockMessages (at_ms 1499) "q" LOCK_NACK c1).2 = ([], None) /\
  UnlockMessages (at_ms 1500) "q" LOCK_NACK c1 = (c2, (["a"], None)) /\
  available_score c2 "q" "a" = Some (f64_of_Z 7).
Proof.
  intros m c1 c2.
  assert (E1 : LockMessage (at_ms 1200) m LOCK_NACK both_pulled = (c1, (true, None)))
    by (apply run_result; vm_compute; reflexivity).
  assert (E2 : UnlockMessages (at_ms 1500) "q" LOCK_NACK c1 = (c2, (["a"], None)))
    by (apply run_result; vm_compute; reflexivity).
  split; [exact E1|]. split; [vm_compute; reflexivity|]. split; [exact E2|].
  destruct (redis_lock_roundtrip (at_ms 1200) (at_ms 1500) m LOCK_NACK both_pulled c1 c2 None ["a"] None
    both_pulled_inv E1 E2) as [H _]; [vm_compute; discriminate|vm_compute; discriminate|split; vm_compute; discriminate|].
  destruct (H ltac:(clear; set_solver)) as [_ Hs]. exact Hs.
Defined.

(** ** Answers and removals *)

Section Removal.
Context {R : Type} {HO : RedisOps R} {HR : Redis R} {HG : Gopart}.
Implicit Types c : RedisCache R.

(** A message of the Redis cache that is made available with a score that
    is not a number is lost: the call reports an error, and the message, which
    was being processed, is in no pool any more. *)
Theorem redis_MakeAvailable_nan m c
    (Hc : redis_inv c) (Hqueue : Queue m <> "")
    (Hw : redis_where_is c (Queue m) (ID m) = Some PROCESSING_POOL)
    (Hnan : f64_is_nan (Score m) = true) :
  exists c' err, MakeAvailable m c = (c', (false, Some err)) /\ redis_inv c' /\
    moved (redis_where_is c) (Queue m) [ID m] None (redis_where_is c').
Proof using HR.
  destruct (decide (valid_queue (Queue m))) as [Hq|Hq]; [|by rewrite where_is_invalid in Hw].
  apply where_is_Some in Hw; [|done..]. unfold MakeAvailable.
  rewrite (proj2 (String.eqb_neq _ _) Hqueue), (Hq : validateQueueName (Queue m) = None).
  rewrite activePool_slot, processingPool_slot.
  destruct (moveElementScript_at (slot_key c (Queue m)) (Client c) (Client c) _ (PoolSlot PRIMARY_POOL)
    (PoolSlot PROCESSING_POOL) (Score m) (ID m) ltac:(done) (at_sets_start c (Queue m) Hc Hq))
    as (r' & res & E & Hres).
  rewrite (Run_eq _ _ _ _ E). pose proof Hw as [y Hy]. unfold in_pool in Hw. rewrite Hy, Hnan in Hres.
  destruct Hres as [[e ->] Hat].
  destruct (lost_post c (Queue m) r' (ID m) Hc Hq Hw Hat) as (Hc' & _ & Hm). by do 2 eexists.
Qed.

(** The elements of a list that a predicate holds of. *)
Definition count (f : string -> bool) (l : list string) : Z := Z.of_nat (length (List.filter f l)).

Lemma count_cons f i l : count f (i :: l) = (if f i then 1 else 0) + count f l.
Proof using Type. unfold count. simpl. destruct (f i); simpl; lia. Qed.

Lemma zrem_size ids z : NoDup ids ->
  Z.of_nat (size z) - Z.of_nat (size (zrem ids z)) = count (fun i => bool_decide (is_Some (z !! i))) ids.
Proof using Type.
  revert z. induction ids as [|i ids IH]; intros z Hnd; [unfold count; simpl; lia|].
  apply NoDup_cons in Hnd as [Hi Hnd]. change (i :: ids) with ([i] ++ ids) at 1. rewrite zrem_app, count_cons.
  assert (Hcount : count (fun j => bool_decide (is_Some (z !! j))) ids
    = count (fun j => bool_decide (is_Some (zrem [i] z !! j))) ids).
  { unfold count. do 2 f_equal. apply List.filter_ext_in. intros j Hj%list_elem_of_In.
    rewrite zrem_lookup, decide_False; [done|]. intros ->%list_elem_of_singleton. done. }
  rewrite Hcount, <- IH by done. pose proof (zrem_one_size i z).
  case_bool_decide; [rewrite decide_True in H by done|rewrite decide_False in H by done]; lia.
Qed.

Definition in_some_pool c (q i : string) : bool := bool_decide (redis_where_is c q i <> None).
Definition has_kept_score c (q i : string) : bool :=
  bool_decide (is_Some (sets c q (ScoreSlot LOCK_ACK) !! i)) || bool_decide (is_Some (sets c q (ScoreSlot LOCK_NACK) !! i)).

(** A message is in one of the four pools at most, and has a score kept for
    one lock type at most. *)
Lemma count_slots c q ids : redis_inv c -> valid_queue q ->
  foldr (fun s n => count (fun i => bool_decide (is_Some (sets c q s !! i))) ids + n) 0 all_slots
  = count (in_some_pool c q) ids + count (has_kept_score c q) ids.
Proof using HR.
  intros Hc Hq. unfold all_slots. cbn [foldr].
  induction ids as [|i ids IH]; [done|]. rewrite !count_cons.
  assert (Hsc : ~ (is_Some (sets c q (ScoreSlot LOCK_ACK) !! i) /\ is_Some (sets c q (ScoreSlot LOCK_NACK) !! i))).
  { intros [H1 H2]. apply (inv_scores c Hc _ _ _ Hq) in H1, H2. by pose proof (inv_unique c Hc _ _ _ _ Hq H1 H2). }
  unfold in_some_pool at 1, has_kept_score at 1.
  pose proof (where_is_cases c q i Hq) as Hw. destruct (redis_where_is c q i) as [P|].
  - rewrite (bool_decide_eq_true_2 (Some P <> None)) by done. unfold in_pool in Hw.
    assert (HP : forall P', bool_decide (is_Some (sets c q (PoolSlot P') !! i)) = bool_decide (P = P')).
    { intros P'. apply bool_decide_ext. split; [intros HP'; by eapply inv_unique|by intros <-]. }
    cbv beta. rewrite !HP. clear HP Hw. 
    destruct (bool_decide_reflect (is_Some (sets c q (ScoreSlot LOCK_ACK) !! i))),
      (bool_decide_reflect (is_Some (sets c q (ScoreSlot LOCK_NACK) !! i))); try tauto;
      destruct P; simpl; lia.
  - rewrite (bool_decide_eq_false_2 (None <> None)) by tauto.
    assert (HP : forall P, bool_decide (is_Some (sets c q (PoolSlot P) !! i)) = false)
      by (intros P; apply bool_decide_eq_false, Hw).
    cbv beta. rewrite !HP. do 2 case_bool_decide; try tauto; simpl; lia.
Qed.

(** A removal of the Redis cache forgets exactly the ids given.  The number
    it reports counts a message twice when it was locked with a score: once
    for its pool and once for the score kept with the lock. *)
Theorem redis_Remove_count q ids c
    (Hc : redis_inv c) (Hq : valid_queue q) (Hnd : NoDup ids) (Hlen : Z.of_nat (length ids) < 2 ^ 62) :
  exists c', Remove q ids c
      = (c', (count (in_some_pool c q) ids + count (has_kept_score c q) ids, None)) /\
    redis_inv c' /\ moved (redis_where_is c) q ids None (redis_where_is c').
Proof using HR.
  destruct (redis_Remove_moves q ids c Hc Hq) as (c' & E & (Hc' & _ & Hm) & Hsets). exists c'.
  split; [|done]. rewrite E. do 3 f_equal. rewrite <- count_slots by done.
  assert (Htotal : total_size c q - total_size c' q
    = foldr (fun s n => count (fun i => bool_decide (is_Some (sets c q s !! i))) ids + n) 0 all_slots).
  { unfold total_size, all_slots. cbn [foldr]. rewrite !Hsets. rewrite <- !zrem_size by done. lia. }
  rewrite Htotal, wrap64_id; [done|]. rewrite count_slots by done.
  assert (Hle : forall f, 0 <= count f ids <= Z.of_nat (length ids)).
  { intros f. pose proof (sublist_length _ _ (filter_sublist f ids)). unfold count. lia. }
  pose proof (Hle (in_some_pool c q)). pose proof (Hle (has_kept_score c q)).
  unfold is_int64, min_int64, max_int64. lia.
Qed.
End Removal.

Lemma redis_MakeAvailable_nan_witness :
  let m := {| ID := "a"; Description := ""; Queue := "q"; ExpiryDate := 0; Timeless := false;
    Metadata := None; Payload := None; StringPayload := ""; LockMs := 0; InternalId := IdNil;
    Score := S754_nan; LastUsage := None; Breakpoint := ""; LastScoreSubtract := f64_zero;
    TotalScoreSubtract := f64_zero; UsageCount := 0; QueuePrefix := "q"; QueueSuffix := "";
    Diagnostics := None |} in
  redis_where_is both_pulled "q" "a" = Some PROCESSING_POOL /\
  exists c' err, MakeAvailable m both_pulled = (c', (false, Some err)) /\
    redis_where_is c' "q" "a" = None.
Proof.
  intros m. split; [vm_compute; reflexivity|].
  destruct (redis_MakeAvailable_nan m both_pulled both_pulled_inv ltac:(done)
    ltac:(vm_compute; reflexivity) ltac:(reflexivity)) as (c' & err & E & _ & Hm).
  exists c', err. split; [exact E|]. rewrite Hm, decide_True; [done|]. split; [done|].
  apply list_elem_of_singleton. reflexivity.
Defined.

(** [a] locked with its score. *)
Definition one_locked : ModelCache := (LockMessage (at_ms 1200) (msg "q" "a" 7 300) LOCK_NACK both_pulled).1.

Lemma one_locked_inv : redis_inv one_locked.
Proof.
  unfold one_locked. destruct (LockMessage _ _ _ _) as [c' [b err]] eqn:E.
  by apply redis_LockMessage_moves in E as [? _]; [|apply both_pulled_inv].
Qed.

Lemma redis_Remove_count_witness :
  (Remove "q" ["a"; "z"] one_locked).2 = (2, None) /\
  exists c', Remove "q" ["a"; "z"] one_locked = (c', (2, None)) /\ redis_where_is c' "q" "a" = None.
Proof.
  split; [vm_compute; reflexivity|].
  destruct (redis_Remove_count "q" ["a"; "z"] one_locked one_locked_inv
    ltac:(vm_compute; reflexivity) ltac:(apply (bool_decide_eq_true_1 _); reflexivity)
    ltac:(vm_compute; reflexivity)) as (c' & E & _ & Hm).
  exists c'. split.
  - assert (Hn : count (in_some_pool one_locked "q") ["a"; "z"] + count (has_kept_score one_locked "q") ["a"; "z"] = 2)
      by (vm_compute; reflexivity).
    rewrite Hn in E. exact E.
  - rewrite Hm, decide_True; [done|]. split; [done|]. apply list_elem_of_here.
Defined.

(** ** Keys *)

Section Listing.
Context {R : Type} {HO : RedisOps R} {HR : Redis R} {HG : Gopart}.
Implicit Types c : RedisCache R.

Lemma pool_key_slot c P q : searchPattern c P q = slot_key c q (PoolSlot P).
Proof using Type. by destruct P. Qed.

(** Taking off the suffix of a pool, and the braces. *)
Lemma suffix_ReplaceAllString_brace (s suffix : string) :
  suffix_ReplaceAllString suffix ((s +:+ "}") +:+ suffix) = (s +:+ "}").
Proof using Type.
  unfold suffix_ReplaceAllString. rewrite TrimSuffix_append, HasSuffix_append.
  assert (Hlf : HasSuffix (s +:+ "}") (bytes [10%nat]) = false).
  { apply not_true_iff_false. intros [t E]%HasSuffix_true. by apply append_last_inj in E as [_ ?]. }
  rewrite Hlf. destruct (String.eqb_spec (s +:+ "}") "") as [E|]; [by destruct s|done].
Qed.

Lemma unwrapClusterHashTag_braces q : unwrapClusterHashTag ("{" +:+ (q +:+ "}")) = q.
Proof using Type.
  unfold unwrapClusterHashTag.
  assert (Hlen : String.length ("{" +:+ (q +:+ "}")) = S (S (String.length q))).
  { rewrite !append_length. simpl. lia. }
  rewrite Hlen. rewrite (proj2 (HasPrefix_true _ _)) by eauto.
  rewrite <- (append_assoc "{" q "}"), HasSuffix_append. cbn [orb negb Nat.ltb Nat.leb].
  replace (S (S (String.length q)) - 1)%nat with (String.length ("{" +:+ q)) by (rewrite append_length; simpl; lia).
  rewrite str_take_append. apply (str_drop_append "{" q).
Qed.

Lemma parse_pool_key c P q : parseQueueKey c (searchPattern c P q) (pool_regex P) = q.
Proof using Type.
  unfold parseQueueKey. rewrite pool_key_slot, slot_key_app, TrimPrefix_append.
  assert (Hk : ("{" +:+ (q +:+ String "}" (slot_suffix (PoolSlot P))))
    = ((("{" +:+ q) +:+ "}") +:+ slot_suffix (PoolSlot P))) by (by rewrite !append_assoc).
  rewrite Hk. destruct P; cbn [pool_regex slot_suffix];
    rewrite ?suffix_ReplaceAllString_brace, ?append_nil_r, append_assoc; apply unwrapClusterHashTag_braces.
Qed.

(** The key the operations use for each sorted set of a queue. *)
Definition queue_key c (s : Slot) (q : string) : string :=
  match s with
  | PoolSlot PRIMARY_POOL => activePool c q
  | PoolSlot PROCESSING_POOL => processingPool c q
  | PoolSlot LOCK_ACK_POOL => lockPool c q LOCK_ACK
  | PoolSlot LOCK_NACK_POOL => lockPool c q LOCK_NACK
  | ScoreSlot t => lockPoolScore c q t
  end.

Lemma queue_key_slot c s q : queue_key c s q = slot_key c q s.
Proof using Type. by destruct s as [[]|[]]. Qed.

(** C38. The keys of the Redis cache.  The name of a queue, any text, is read
    back from the key of each of its pools.  A queue has six sorted sets, its
    four pools and the scores of its two lock pools: for any names, braces
    included, the keys of one set for different queues are different, and so
    are the keys of different sets of one queue; for the names the cache
    accepts, the keys of different sets of different queues are different as
    well; and the general keys are different from all of these and from each
    other. *)
Theorem redis_keys_roundtrip c :
  (forall P q, parseQueueKey c (queue_key c (PoolSlot P) q) (pool_regex P) = q) /\
  (forall P q, searchPattern c P q = queue_key c (PoolSlot P) q) /\
  (forall s q q', queue_key c s q = queue_key c s q' -> q = q') /\
  (forall s s' q, queue_key c s q = queue_key c s' q -> s = s') /\
  (forall s s' q q', valid_queue q -> valid_queue q' ->
     queue_key c s q = queue_key c s' q' -> s = s' /\ q = q') /\
  (forall s q k, generalCacheKey c k <> queue_key c s q) /\
  (forall k k', generalCacheKey c k = generalCacheKey c k' -> k = k').
Proof using Type.
  split_and!.
  - intros P q. rewrite queue_key_slot, <- pool_key_slot. apply parse_pool_key.
  - intros P q. by rewrite queue_key_slot, pool_key_slot.
  - intros s q q'. rewrite !queue_key_slot, !slot_key_app. intros E%(inj _)%(inj _). by apply append_inj_r in E.
  - intros s s' q. rewrite !queue_key_slot. apply (inj _).
  - intros s s' q q' Hq Hq'. rewrite !queue_key_slot. intros E%slot_key_inj; [|done..]. by destruct E as [-> ->].
  - intros s q k E. rewrite queue_key_slot in E. by eapply slot_key_general.
  - intros k k'. apply (inj _).
Qed.

Lemma plain_prefix c : redis_inv c -> plain_text (poolPrefix c +:+ "{").
Proof using HR.
  intros Hc. apply plain_text_append; [apply plain_text_append; [apply Hc|]|];
    apply (bool_decide_eq_true_1 _); vm_compute; reflexivity.
Qed.

(** The keys a scan for a pool gives: those of the queues that have messages
    in it. *)
Lemma scan_pool c P : redis_inv c ->
  exists data, scanKeys (Client c) (searchPattern c P "*") = inl data /\
    forall k, k ∈ data <-> exists q, valid_queue q /\ k = searchPattern c P q /\ exists i, in_pool c P q i.
Proof using HR.
  intros Hc. destruct (slot_suffix_plain (PoolSlot P)) as [Hbrace Hplain].
  destruct (redis_SCAN (poolPrefix c +:+ "{") (String "}" (slot_suffix (PoolSlot P))) (Client c)
    (plain_prefix c Hc)) as (batches & E & Hb).
  { by apply (plain_text_append "}"); [repeat constructor|]. }
  assert (Hpat : ((poolPrefix c +:+ "{") +:+ ("*" +:+ String "}" (slot_suffix (PoolSlot P)))) = searchPattern c P "*").
  { by rewrite pool_key_slot, append_assoc, slot_key_app. }
  rewrite Hpat in E. exists (concat batches). split; [unfold scanKeys; by rewrite E|].
  intros k. rewrite Hb. split.
  - intros [Hs (name & Hk)]. rewrite append_assoc in Hk. change (slot_key c name (PoolSlot P)) with k in Hk.
    assert (Hkey : k = slot_key c name (PoolSlot P)) by exact Hk. clear Hk.
    destruct (inv_keys c Hc k) as [(q & s & Hq & Hks)|(k' & Hk')]; [|done| |].
    + apply HasPrefix_true. exists ("queue:" +:+ ("{" +:+ (name +:+ String "}" (slot_suffix (PoolSlot P))))).
      rewrite Hkey, slot_key_app. unfold poolPrefix, POOL_SUFFIX, fullPrefix. by rewrite !append_assoc.
    + assert (name = q /\ s = PoolSlot P) as [-> ->].
      { rewrite Hkey, !slot_key_app in Hks. apply (inj _), (inj _) in Hks. symmetry in Hks.
        destruct (valid_queue_chars q Hq) as [_ Hqb].
        destruct (last_brace_inj q name _ _ Hqb (proj1 (slot_suffix_plain s)) Hks) as [-> Hss].
        split; [done|]. by apply slot_suffix_inj. }
      exists q. rewrite pool_key_slot. split; [done|]. split; [done|].
      pose proof (inv_zset c Hc q (PoolSlot P) Hq) as Hz. pose proof (redis_no_empty (Client c) k) as Hne.
      destruct Hs as [[x|z] Hv]; [rewrite Hkey in Hv; by apply Hz in Hv|].
      assert (Hsets : sets c q (PoolSlot P) = z) by (unfold sets, zset; by rewrite <- Hkey, Hv).
      destruct (map_choose z) as (i & x & Hi); [intros ->; congruence|].
      exists i. unfold in_pool. rewrite Hsets. by eexists.
    + exfalso. rewrite Hkey in Hk'. by eapply slot_key_general.
  - intros (q & Hq & -> & i & x & Hx). rewrite pool_key_slot. split.
    + unfold sets, zset in Hx. destruct (redis_value (Client c) _); [by eexists|done].
    + exists q. by rewrite append_assoc, slot_key_app.
Qed.

(** What a listing gives for the keys of some queues. *)
Lemma parsed_listing c P data (listed : string -> Prop) :
  (forall k, k ∈ data <-> exists q, listed q /\ k = searchPattern c P q) ->
  let names := map (fun queue => parseQueueKey c queue (pool_regex P)) data in
  exists qs, (match P with
    | PRIMARY_POOL => (filterQueueSuffix (uniqStrings names), None)
    | _ => (uniqStrings names, None)
    end : result (list string)) = (qs, None) /\ NoDup qs /\
    forall q, q ∈ qs <-> listed q /\ (P = PRIMARY_POOL -> reserved_suffix q = false).
Proof using Type.
  intros Hdata names.
  assert (Huniq : forall q, q ∈ uniqStrings names <-> listed q).
  { intros q. rewrite elem_of_uniqStrings. unfold names. rewrite list_elem_of_fmap. split.
    - intros (k & -> & (q' & Hq & ->)%Hdata). by rewrite parse_pool_key.
    - intros Hq. exists (searchPattern c P q). split; [by rewrite parse_pool_key|]. apply Hdata. by exists q. }
  destruct P; eexists; (split; [reflexivity|]).
  1: { split.
    - eapply sublist_NoDup; [apply (NoDup_uniqStrings names)|apply filter_sublist].
    - intros q. unfold filterQueueSuffix. rewrite elem_of_filter_iff, Huniq, negb_true_iff. naive_solver. }
  all: split; [apply NoDup_uniqStrings|]; intros q; rewrite Huniq; naive_solver.
Qed.

(** The queues with messages in a pool. *)
Lemma scan_listed c P : redis_inv c ->
  exists data, scanKeys (Client c) (searchPattern c P "*") = inl data /\
    forall k, k ∈ data <-> exists q, (exists i, redis_where_is c q i = Some P) /\ k = searchPattern c P q.
Proof using HR.
  intros Hc. destruct (scan_pool c P Hc) as (data & E & Hdata). exists data. split; [done|].
  intros k. rewrite Hdata. split; intros (q & H1 & H2).
  - destruct H2 as (-> & i & Hi). exists q. split; [|done]. exists i. by apply where_is_Some.
  - destruct H1 as [i Hi]. exists q. destruct (decide (valid_queue q)) as [Hq|Hq]; [|by rewrite where_is_invalid in Hi].
    split; [done|]. split; [done|]. exists i. by apply where_is_Some.
Qed.

(** The listing of the queues of a pool gives, each once, the names of the
    queues that have messages in the pool; of the primary pool, it leaves out
    the queues whose names end in a suffix reserved for the other pools. *)
Theorem redis_ListQueues_correct P c (Hc : redis_inv c) :
  exists qs, ListQueues "*" P c = (qs, None) /\ NoDup qs /\
    forall q, q ∈ qs <-> (exists i, redis_where_is c q i = Some P) /\
                         (P = PRIMARY_POOL -> reserved_suffix q = false).
Proof using HR.
  destruct (scan_listed c P Hc) as (data & E & Hdata). unfold ListQueues. rewrite E.
  by apply parsed_listing.
Qed.

(** A flush deletes exactly the keys that start with the prefix of the
    cache and a colon: the cache is empty afterwards and every other key of
    the server is kept, but a cache on the same server whose own prefix
    starts in that way loses its messages as well. *)
Theorem redis_Flush_namespace c (Hc : redis_inv c) :
  (forall k, redis_value (Client (Flush c)) k =
     if HasPrefix k (fullPrefix c +:+ ":") then None else redis_value (Client c) k) /\
  (forall q i, redis_where_is (Flush c) q i = None) /\
  (forall prefix, HasPrefix prefix (fullPrefix c +:+ ":") = true ->
     forall q i, redis_where_is {| Client := Client (Flush c); keyPrefix := prefix |} q i = None).
Proof using HR.
  pose proof (fun k => Flush_values c k Hc) as Hv. split; [done|]. split; [by apply Flush_moves|].
  intros prefix Hp q i. destruct (decide (valid_queue q)) as [Hq|Hq]; [|by apply where_is_invalid].
  set (other := {| Client := Client (Flush c); keyPrefix := prefix |}).
  apply where_is_None; [done|]. intros P [x Hx].
  assert (Hnone : redis_value (Client other) (slot_key other q (PoolSlot P)) = None).
  { simpl. rewrite Hv, (proj2 (HasPrefix_true _ _)); [done|]. apply HasPrefix_true in Hp as [t ->].
    rewrite slot_key_app. unfold poolPrefix, configuredPrefix. simpl.
    destruct (String.eqb_spec ((fullPrefix c +:+ ":") +:+ t) "") as [E0|_].
    - exfalso. destruct (fullPrefix c); [by rewrite append_nil in E0|done].
    - rewrite (append_assoc (_ +:+ t)), (append_assoc (fullPrefix c +:+ ":") t). by eexists. }
  unfold sets, zset in Hx. by rewrite Hnone in Hx.
Qed.
End Listing.

Lemma redis_ListQueues_correct_witness :
  exists qs, ListQueues "*" PROCESSING_POOL one_locked = (qs, None) /\ qs = ["q"] /\
    exists i, redis_where_is one_locked "q" i = Some PROCESSING_POOL.
Proof.
  destruct (redis_ListQueues_correct PROCESSING_POOL one_locked one_locked_inv) as (qs & E & _ & Hqs).
  exists qs. split; [exact E|]. assert (H : qs = ["q"]).
  { assert (Hv : (ListQueues "*" PROCESSING_POOL one_locked).1 = ["q"]) by (vm_compute; reflexivity).
    rewrite E in Hv. exact Hv. }
  split; [exact H|]. apply Hqs. rewrite H. apply list_elem_of_here.
Defined.

(** A second cache on the server, with a longer prefix. *)
Definition blue_cache : ModelCache :=
  (Insert "q" [msg "q" "x" 1 0] {| Client := Client two_inserted; keyPrefix := "deckard_v1:blue" |}).1.

Definition on_server (c : ModelCache) (prefix : string) : ModelCache :=
  {| Client := Client c; keyPrefix := prefix |}.

Lemma redis_Flush_namespace_witness :
  redis_where_is two_inserted "q" "a" = Some PRIMARY_POOL /\
  redis_where_is (Flush two_inserted) "q" "a" = None /\
  redis_where_is blue_cache "q" "x" = Some PRIMARY_POOL /\
  redis_where_is (on_server (Flush (on_server blue_cache "deckard_v1")) "deckard_v1:blue") "q" "x" = None.
Proof.
  split; [vm_compute; reflexivity|]. split.
  - destruct (redis_Flush_namespace two_inserted two_inserted_inv) as (_ & H & _). apply H.
  - split; vm_compute; reflexivity.
Defined.
