(* ===== verification/RedisCluster.v ===== *)
(** * The Redis cache in cluster mode

    [internal/queue/cache/redis_cache.go] over the client of a Redis Cluster.
    The keys are spread over the masters by hash slot: a script runs on the
    master of its keys, which must all be in one slot, and the commands
    without a key ([SCAN]) are sent to every master.  On the master of a queue
    an operation does what it does on a single node ([RedisCache.v]).

    The hash slots and the assignment of the slots to the masters belong to
    the cluster and to the driver, and are the parameter [Topology]. *)

From stdpp Require Import vector.
From S2P Require Import Prelude Float64 Dtime Utils Score Message Cache.
From S2P Require Import GoStrings Redis RedisScripts RedisCache.
#[local] Open Scope string_scope.
#[local] Open Scope list_scope.
#[local] Open Scope Z_scope.

(** ** The cluster *)

(** Of a key with braces only the text between the first opening brace and
    the next closing one is hashed, if there is any. *)
Class Topology (N : nat) := {
  key_slot : string -> Z;
  slot_master : Z -> fin N;
  (** the order in which the masters finish the calls of [ForEachMaster] *)
  finish_order : Env -> list (fin N);

  key_slot_tag : forall before tag after,
    "{"%char ∉ list_ascii_of_string before -> tag <> "" -> "}"%char ∉ list_ascii_of_string tag ->
    key_slot (before ++ "{" ++ tag ++ "}" ++ after) = key_slot tag;
  finish_once : forall env, NoDup (finish_order env);
  finish_all : forall env n, n ∈ finish_order env
}.

(** The reply of a master to a script whose keys are in several slots. *)
Definition CROSSSLOT : error := ErrorString "CROSSSLOT Keys in request don't hash to the same slot".

Record ClusterCache {R : Type} {N : nat} := { masters : vec R N; clusterPrefix : string }.
Arguments ClusterCache R N : clear implicits.

Section Cluster.
Context {R : Type} {N : nat} {HT : Topology N}.
Implicit Types cache : ClusterCache R N.

(** The names of the keys do not depend on the client. *)
Definition cluster_keys cache : RedisCache () := {| Client := tt; keyPrefix := clusterPrefix cache |}.

(** The cache over the client of one master. *)
Definition node cache (n : fin N) : RedisCache R :=
  {| Client := masters cache !!! n; keyPrefix := clusterPrefix cache |}.

Definition with_node cache (n : fin N) (node' : RedisCache R) : ClusterCache R N :=
  {| masters := vinsert n (Client node') (masters cache); clusterPrefix := clusterPrefix cache |}.

Definition key_master (key : string) : fin N := slot_master (key_slot key).

Definition on_master {A} (n : fin N) (f : RedisCache R -> RedisCache R * A) cache : ClusterCache R N * A :=
  let '(node', a) := f (node cache n) in (with_node cache n node', a).

Definition same_slot (keys : list string) : bool :=
  match keys with
  | [] => true
  | key :: keys' => forallb (fun k => key_slot k =? key_slot key) keys'
  end.

(** [f] runs a script with the keys [key :: keys]; [refused] is its result
    when the script is refused. *)
Definition on_slot {A} (key : string) (keys : list string) (refused : error -> A)
    (f : RedisCache R -> RedisCache R * A) cache : ClusterCache R N * A :=
  if same_slot (key :: keys) then on_master (key_master key) f cache else (cache, refused CROSSSLOT).

(** The calls of [fn] on the masters, in the order they finish: an error of
    one is the error of the whole. *)
Fixpoint for_each {A} (fn : fin N -> A + error) (order : list (fin N)) : list A + error :=
  match order with
  | [] => inl []
  | n :: order' =>
      match fn n, for_each fn order' with
      | inr err, _ => inr err
      | inl _, inr err => inr err
      | inl a, inl rest => inl (a :: rest)
      end
  end.

Definition ForEachMaster {A} (env : Env) (fn : fin N -> A + error) : list A + error :=
  for_each fn (finish_order env).
End Cluster.

(** ** The operations *)

Section Operations.
Context {R : Type} {HO : RedisOps R} {HG : Gopart} {N : nat} {HT : Topology N}.
Implicit Types cache : ClusterCache R N.

Definition MakeAvailable (message : Message) cache : ClusterCache R N * result bool :=
  let queue := Queue message in
  if String.eqb queue "" then (cache, (false, Some (ErrorString "invalid message queue")))
  else match validateQueueName queue with
  | Some err => (cache, (false, Some err))
  | None =>
      on_slot (activePool (cluster_keys cache) queue) [processingPool (cluster_keys cache) queue]
        (fun err => (false, Some (WrapError "error making element available on cache" err)))
        (RedisCache.MakeAvailable message) cache
  end.

Definition LockMessage (env : Env) (message : Message) (lockType : LockType) cache :
    ClusterCache R N * result bool :=
  let queue := Queue message in
  if String.eqb queue "" then (cache, (false, Some (ErrorString "invalid queue to lock")))
  else match validateQueueName queue with
  | Some err => (cache, (false, Some err))
  | None =>
      if LockMs message <=? 0 then (cache, (false, Some (ErrorString "invalid lock time")))
      else
        on_slot (processingPool (cluster_keys cache) queue)
          [lockPool (cluster_keys cache) queue lockType; lockPoolScore (cluster_keys cache) queue lockType]
          (fun err => (false, Some (WrapError "error locking cache element" err)))
          (RedisCache.LockMessage env message lockType) cache
  end.

(** [parseResult] of a script that is refused. *)
Definition refused_ids (err : error) : result (list string) := parseResult (inr err).

Definition UnlockMessages (env : Env) (queue : string) (lockType : LockType) cache :
    ClusterCache R N * result (list string) :=
  match validateQueueName queue with
  | Some err => (cache, ([], Some err))
  | None =>
      on_slot (lockPool (cluster_keys cache) queue lockType)
        [activePool (cluster_keys cache) queue; lockPoolScore (cluster_keys cache) queue lockType]
        refused_ids (RedisCache.UnlockMessages env queue lockType) cache
  end.

Definition PullMessages (env : Env) (queue : string) (n : Z) (minScore maxScore : option float64)
    (ackDeadlineMs : Z) cache : ClusterCache R N * result (list string) :=
  match validateQueueName queue with
  | Some err => (cache, ([], Some err))
  | None =>
      on_slot (activePool (cluster_keys cache) queue) [processingPool (cluster_keys cache) queue]
        refused_ids (RedisCache.PullMessages env queue n minScore maxScore ackDeadlineMs) cache
  end.

Definition TimeoutMessages (env : Env) (queue : string) cache : ClusterCache R N * result (list string) :=
  match validateQueueName queue with
  | Some err => (cache, ([], Some err))
  | None =>
      on_slot (activePool (cluster_keys cache) queue) [processingPool (cluster_keys cache) queue]
        refused_ids (RedisCache.TimeoutMessages env queue) cache
  end.

(** Without messages no script is run. *)
Definition Insert (queue : string) (messages : list Message) cache :
    ClusterCache R N * result (list string) :=
  match validateQueueName queue with
  | Some err => (cache, ([], Some err))
  | None =>
      if existsb (fun m => negb (String.eqb (Queue m) queue)) messages
      then (cache, ([], Some (ErrorString "invalid queue to insert data")))
      else match Partition (Z.of_nat (length messages)) 2000 with
      | [] => (cache, ([], None))
      | _ =>
          on_slot (activePool (cluster_keys cache) queue)
            [lockPool (cluster_keys cache) queue LOCK_NACK; lockPool (cluster_keys cache) queue LOCK_ACK;
             processingPool (cluster_keys cache) queue]
            (fun err => ([], Some (WrapError "error inserting cache" err)))
            (RedisCache.Insert queue messages) cache
      end
  end.

Definition Remove (queue : string) (ids : list string) cache : ClusterCache R N * result Z :=
  match validateQueueName queue with
  | Some err => (cache, (0, Some err))
  | None =>
      match Partition (Z.of_nat (length ids)) 4000 with
      | [] => (cache, (0, None))
      | _ =>
          on_slot (activePool (cluster_keys cache) queue)
            [processingPool (cluster_keys cache) queue;
             lockPool (cluster_keys cache) queue LOCK_ACK; lockPool (cluster_keys cache) queue LOCK_NACK;
             lockPoolScore (cluster_keys cache) queue LOCK_ACK; lockPoolScore (cluster_keys cache) queue LOCK_NACK]
            (fun err => (0, Some (WrapError "error removing cache elements" err)))
            (RedisCache.Remove queue ids) cache
      end
  end.

(** Commands with one key. *)
Definition IsProcessing (queue i : string) cache : result bool :=
  RedisCache.IsProcessing queue i (node cache (key_master (processingPool (cluster_keys cache) queue))).

Definition Get (key : string) cache : result string :=
  RedisCache.Get key (node cache (key_master (generalCacheKey (cluster_keys cache) key))).

Definition Set_ (key value : string) cache : ClusterCache R N * option error :=
  on_master (key_master (generalCacheKey (cluster_keys cache) key)) (RedisCache.Set_ key value) cache.

(** Every master is scanned, and one that fails makes the listing fail. *)
Definition ListQueues (env : Env) (pattern : string) (poolType : PoolType) cache : result (list string) :=
  match ForEachMaster env (fun master =>
          scanKeys (Client (node cache master)) (searchPattern (cluster_keys cache) poolType pattern)) with
  | inr err => ([], Some (WrapError "error listing cache queues across cluster shards" err))
  | inl batches =>
      let data := map (fun queue => parseQueueKey (cluster_keys cache) queue (pool_regex poolType)) (concat batches) in
      match poolType with
      | PRIMARY_POOL => (filterQueueSuffix (uniqStrings data), None)
      | _ => (uniqStrings data, None)
      end
  end.

(** On every master, whether the others fail or not; an error is only
    logged. *)
Definition Flush cache : ClusterCache R N :=
  let pattern := (fullPrefix (cluster_keys cache) ++ ":*")%string in
  {| masters := vmap (fun master => (deleteByPattern master pattern).1) (masters cache);
     clusterPrefix := clusterPrefix cache |}.
End Operations.
#[export] Instance ClusterCache_Cache {R} `{RedisOps R} `{Gopart} {N} `{Topology N} :
    Cache (ClusterCache R N) := {
  cache_MakeAvailable := fun _ => MakeAvailable;
  cache_IsProcessing := IsProcessing;
  cache_PullMessages := fun env q n mn mx dl c => Ret (PullMessages env q n mn mx dl c);
  cache_TimeoutMessages := TimeoutMessages;
  cache_LockMessage := LockMessage;
  cache_UnlockMessages := UnlockMessages;
  cache_ListQueues := fun env pattern p c => Ret (ListQueues env pattern p c);
  cache_Insert := fun _ => Insert;
  cache_Remove := fun _ => Remove;
  cache_Flush := fun _ => Flush;
  cache_Get := fun _ => Get;
  cache_Set := fun _ => Set_
}.
