(* ===== verification/RedisClusterProps.v ===== *)
(** * The Redis cache in cluster mode: contract and properties

    The keys of a queue are in one hash slot, so the operations on the queue
    run on one master; the contract of [Cache.v] follows from that of the
    cache on a single node, applied to the master of each queue, and the
    listing over all the masters is that of one server with all the keys. *)

From stdpp Require Import vector finite.
From S2P Require Import Prelude Float64 Dtime Utils Score Message Cache Fixtures.
From S2P Require Import GoStrings Redis RedisScripts RedisCluster RedisCache RedisKeys RedisEffects RedisFacts RedisProps.
#[local] Open Scope string_scope.
#[local] Open Scope list_scope.
#[local] Open Scope Z_scope.

(** ** Operations keep the prefix *)

Section Prefix.
Context {R : Type} {HO : RedisOps R} {HG : Gopart}.

Definition keeps_prefix {A} (f : RedisCache R -> RedisCache R * A) : Prop :=
  forall d, keyPrefix (f d).1 = keyPrefix d.

Ltac prefix_kept :=
  repeat (case_match || simplify_eq/=); done.

Lemma Run_prefix {A} (script : Script R A) d : keyPrefix (Run script d).1 = keyPrefix d.
Proof using Type. unfold Run. by destruct (script (Client d)). Qed.

Lemma MakeAvailable_prefix m : keeps_prefix (MakeAvailable m).
Proof using Type. intros d. unfold MakeAvailable, Run. prefix_kept. Qed.

Lemma LockMessage_prefix env m t : keeps_prefix (LockMessage env m t).
Proof using Type. intros d. unfold LockMessage, Run. prefix_kept. Qed.

Lemma UnlockMessages_prefix env q t : keeps_prefix (UnlockMessages env q t).
Proof using Type. intros d. unfold UnlockMessages, Run. prefix_kept. Qed.

Lemma PullMessages_prefix env q n mn mx dl : keeps_prefix (PullMessages env q n mn mx dl).
Proof using Type. intros d. unfold PullMessages, Run. prefix_kept. Qed.

Lemma TimeoutMessages_prefix env q : keeps_prefix (TimeoutMessages env q).
Proof using Type. intros d. unfold TimeoutMessages, Run. prefix_kept. Qed.

Lemma insert_loop_prefix q ms parts : forall acc, keeps_prefix (insert_loop q ms parts acc).
Proof using Type.
  induction parts as [|[low high] parts IH]; intros acc d; [done|]. cbn [insert_loop].
  match goal with |- context [Run ?script d] =>
    pose proof (Run_prefix script d) as E; destruct (Run script d) as [d' cmd] end.
  cbn [fst] in E. rewrite <- E. repeat case_match; try done. apply IH.
Qed.

Lemma Insert_prefix q ms : keeps_prefix (Insert q ms).
Proof using Type. intros d. unfold Insert. repeat case_match; try done. apply insert_loop_prefix. Qed.

Lemma remove_partitions_prefix q ids parts : forall total, keeps_prefix (remove_partitions q ids parts total).
Proof using Type.
  induction parts as [|[low high] parts IH]; intros total d; [done|]. cbn [remove_partitions].
  match goal with |- context [Run ?script d] =>
    pose proof (Run_prefix script d) as E; destruct (Run script d) as [d' [n|err]] end;
    cbn [fst] in E; rewrite <- E; [apply IH|done].
Qed.

Lemma Remove_prefix q ids : keeps_prefix (Remove q ids).
Proof using Type. intros d. unfold Remove. case_match; [done|]. apply remove_partitions_prefix. Qed.

Lemma Set_prefix k v : keeps_prefix (Set_ k v).
Proof using Type. intros d. unfold Set_. prefix_kept. Qed.
End Prefix.

(** ** Hash slots *)

Section Slots.
Context {N : nat} {HT : Topology N}.

(** A key with the text [tag] in its first braces. *)
Lemma tagged_slot prefix tag after :
  "{"%char ∉ list_ascii_of_string prefix -> tag <> "" -> valid_queue tag ->
  key_slot (prefix +:+ ("{" +:+ (tag +:+ String "}" after))) = key_slot tag.
Proof using Type.
  intros Hp Hne [_ Hq]%valid_queue_chars. by apply key_slot_tag.
Qed.

Lemma POOL_SUFFIX_plain prefix :
  "{"%char ∉ list_ascii_of_string prefix -> "{"%char ∉ list_ascii_of_string (prefix +:+ POOL_SUFFIX).
Proof using Type.
  intros Hp. rewrite list_ascii_append, not_elem_of_app. split; [done|].
  apply (bool_decide_eq_true_1 _). vm_compute. reflexivity.
Qed.

Lemma slot_key_slot {R} (c : RedisCache R) q s :
  "{"%char ∉ list_ascii_of_string (configuredPrefix c) -> q <> "" -> valid_queue q ->
  key_slot (slot_key c q s) = key_slot q.
Proof using Type.
  intros Hp Hne Hq. rewrite slot_key_app. apply tagged_slot; [by apply POOL_SUFFIX_plain|done..].
Qed.
End Slots.

(** ** The invariant *)

Section Contract.
Context {R : Type} {HO : RedisOps R} {HR : Redis R} {HG : Gopart} {N : nat} {HT : Topology N}.
Implicit Types c : ClusterCache R N.

(** The master of a queue. *)
Definition queue_master c (q : string) : fin N := key_master (activePool (cluster_keys c) q).

Definition cluster_where c (q i : string) : option PoolType := redis_where_is (node c (queue_master c q)) q i.

Definition cluster_key_value c (k : string) : string :=
  redis_key_value (node c (key_master (generalCacheKey (cluster_keys c) k))) k.

(** Every master has a well-formed cache of the queues it owns and of no other;
    the prefix has no opening brace, so that the braces of the queue are the
    first of its keys, and the keys of the queue with the empty name, which
    have no text in their braces, are in several slots. *)
Record cluster_inv c : Prop := {
  cluster_nodes : forall n, redis_inv (node c n);
  cluster_placed : forall n q i, n <> queue_master c q -> redis_where_is (node c n) q i = None;
  cluster_plain : "{"%char ∉ list_ascii_of_string (configuredPrefix (cluster_keys c));
  cluster_empty : forall P, P <> PRIMARY_POOL ->
    key_slot (searchPattern (cluster_keys c) P "") <> key_slot (activePool (cluster_keys c) "")
}.

Lemma node_with_node c n d : keyPrefix d = clusterPrefix c -> node (with_node c n d) n = d.
Proof using Type. destruct d. unfold node. simpl. intros ->. by rewrite vlookup_insert. Qed.

Lemma node_with_other c n m d : m <> n -> node (with_node c n d) m = node c m.
Proof using Type. intros Hne. unfold node. simpl. by rewrite vlookup_insert_ne. Qed.

(** An operation on the messages of one queue, on the master of the queue. *)
Lemma routed c q d :
  let n := queue_master c q in
  cluster_inv c -> keyPrefix d = clusterPrefix c -> redis_inv d ->
  (forall k, redis_key_value d k = redis_key_value (node c n) k) -> only_queue (node c n) d q ->
  cluster_inv (with_node c n d) /\
  (forall k, cluster_key_value (with_node c n d) k = cluster_key_value c k) /\
  (forall q' i, cluster_where (with_node c n d) q' i =
     if decide (q' = q) then redis_where_is d q' i else cluster_where c q' i).
Proof using HR.
  intros n Hc Hp Hd Hk Ho. set (c' := with_node c n d).
  assert (Hn : node c' n = d) by by apply node_with_node.
  assert (Hm : forall m, m <> n -> node c' m = node c m) by (intros; by apply node_with_other).
  split; [split|split].
  - intros m. destruct (decide (m = n)) as [->|Hne]; [by rewrite Hn|]. rewrite Hm by done. by apply cluster_nodes.
  - intros m q' i Hne. change (queue_master c' q') with (queue_master c q') in Hne.
    destruct (decide (m = n)) as [->|Hmn]; [|rewrite Hm by done; by apply cluster_placed].
    rewrite Hn, Ho; [by apply cluster_placed|]. by intros ->.
  - apply Hc.
  - apply Hc.
  - intros k. unfold cluster_key_value. change (cluster_keys c') with (cluster_keys c).
    destruct (decide (key_master (generalCacheKey (cluster_keys c) k) = n)) as [E|Hne]; [by rewrite E, Hn|by rewrite Hm].
  - intros q' i. unfold cluster_where. change (queue_master c' q') with (queue_master c q').
    destruct (decide (q' = q)) as [->|Hq]; [by fold n; rewrite Hn|].
    destruct (decide (queue_master c q' = n)) as [E|Hne]; [rewrite E, Hn; by apply Ho|by rewrite Hm].
Qed.

(** A script that is refused changes nothing; one that runs, runs on one node. *)
Lemma on_slot_cases {A} key ks refused (f : RedisCache R -> RedisCache R * A) c c' a :
  on_slot key ks refused f c = (c', a) ->
  (same_slot (key :: ks) = false /\ c' = c /\ a = refused CROSSSLOT) \/
  (same_slot (key :: ks) = true /\ exists d, f (node c (key_master key)) = (d, a) /\ c' = with_node c (key_master key) d).
Proof using Type.
  unfold on_slot, on_master. case_match eqn:E; [|intros [= <- <-]; by left].
  destruct (f (node c (key_master key))) as [d b]. intros [= <- <-]. right. split; [done|]. by exists d.
Qed.

(** The scripts on a queue run on the master of the queue, but for the empty
    name. *)
Lemma queue_slot c q s : cluster_inv c -> valid_queue q -> q <> "" ->
  key_slot (slot_key (cluster_keys c) q s) = key_slot q.
Proof using HR. intros Hc Hq Hne. apply slot_key_slot; [apply Hc|done..]. Qed.

Lemma queue_slots c q s ss : cluster_inv c -> valid_queue q -> q <> "" ->
  same_slot (map (slot_key (cluster_keys c) q) (s :: ss)) = true /\
  key_master (slot_key (cluster_keys c) q s) = queue_master c q.
Proof using HR.
  intros Hc Hq Hne. split.
  - cbn [map same_slot]. apply forallb_forall. intros k (s' & <- & _)%in_map_iff.
    apply Z.eqb_eq. by rewrite !queue_slot.
  - unfold queue_master, key_master. rewrite activePool_slot. by rewrite !queue_slot.
Qed.

(** Those on the empty name, with the key of the available messages among
    theirs, are refused. *)
Lemma empty_slots c P ks k : cluster_inv c -> P <> PRIMARY_POOL ->
  searchPattern (cluster_keys c) P "" ∈ k :: ks -> activePool (cluster_keys c) "" ∈ k :: ks -> same_slot (k :: ks) = false.
Proof using HR.
  intros Hc HP Hin1 Hin2. apply not_true_is_false. intros Hs. cbn [same_slot] in Hs.
  rewrite forallb_forall in Hs.
  assert (Hk : forall k', k' ∈ k :: ks -> key_slot k' = key_slot k).
  { intros k' [->|Hk]%elem_of_cons; [done|]. apply Z.eqb_eq, Hs. by apply list_elem_of_In. }
  apply (cluster_empty c Hc P HP). by rewrite (Hk _ Hin1), (Hk _ Hin2).
Qed.

(** What the operations on a queue have in common. *)
Definition cluster_step c c' (q : string) (d : RedisCache R) : Prop :=
  cluster_inv c' /\ (forall k, cluster_key_value c' k = cluster_key_value c k) /\
  forall q' i, cluster_where c' q' i =
    if decide (q' = q) then redis_where_is d q' i else cluster_where c q' i.

Lemma step_moved c c' q d ids p :
  cluster_step c c' q d ->
  moved (redis_where_is (node c (queue_master c q))) q ids p (redis_where_is d) ->
  moved (cluster_where c) q ids p (cluster_where c').
Proof using Type.
  intros (_ & _ & Hw) Hm q' i. rewrite Hw. destruct (decide (q' = q)) as [->|Hne]; [by rewrite Hm|].
  rewrite decide_False; [done|tauto].
Qed.

(** An operation whose script has the keys of the slots [s :: ss] of a queue. *)
Lemma slot_operation {A} (f : RedisCache R -> RedisCache R * A) refused c c' a q s ss :
  cluster_inv c -> valid_queue q -> keeps_prefix f ->
  (forall d b, f (node c (queue_master c q)) = (d, b) ->
     redis_inv d /\ (forall k, redis_key_value d k = redis_key_value (node c (queue_master c q)) k) /\
     only_queue (node c (queue_master c q)) d q) ->
  (exists P, P <> PRIMARY_POOL /\ PoolSlot P ∈ s :: ss /\ PoolSlot PRIMARY_POOL ∈ s :: ss) \/ q <> "" ->
  on_slot (slot_key (cluster_keys c) q s) (map (slot_key (cluster_keys c) q) ss) refused f c = (c', a) ->
  (c' = c /\ a = refused CROSSSLOT) \/
  exists d, f (node c (queue_master c q)) = (d, a) /\ cluster_step c c' q d.
Proof using HR.
  intros Hc Hq Hpre Hf Hkeys E. apply on_slot_cases in E as [(_ & -> & ->)|(Hs & d & E & ->)]; [by left|].
  destruct (decide (q = "")) as [->|Hne].
  - destruct Hkeys as [(P & HP & Hin1 & Hin2)|?]; [|done]. exfalso.
    rewrite (empty_slots c P) in Hs; [done|done|done| |].
    + rewrite pool_key_slot. change (slot_key ?c ?q s :: ?l) with (map (slot_key c q) (s :: ss)).
      by apply list_elem_of_fmap_2.
    + rewrite activePool_slot. change (slot_key ?c ?q s :: ?l) with (map (slot_key c q) (s :: ss)).
      by apply list_elem_of_fmap_2.
  - right. destruct (queue_slots c q s ss Hc Hq Hne) as [_ Hmaster]. rewrite Hmaster in E |- *.
    exists d. split; [done|]. destruct (Hf d a E) as (? & ? & ?).
    pose proof (Hpre (node c (queue_master c q))) as Hp. rewrite E in Hp. by apply routed.
Qed.

(** ** The operations *)

(** A call that returns before it runs a script, or whose script is refused. *)
Ltac stays := intros; simplify_eq/=; split_and!; try done; try (by intros []); try (intros; apply moved_nil).

Lemma cluster_MakeAvailable_moves m c c' b err :
  cluster_inv c -> RedisCluster.MakeAvailable m c = (c', (b, err)) ->
  cluster_inv c' /\ (forall k, cluster_key_value c' k = cluster_key_value c k) /\
  (b = true -> err = None /\ cluster_where c (Queue m) (ID m) = Some PROCESSING_POOL) /\
  (err = None -> cluster_where c (Queue m) (ID m) = Some PROCESSING_POOL -> b = true) /\
  (err = None \/ not_nan m ->
   moved (cluster_where c) (Queue m) (if b then [ID m] else []) (Some PRIMARY_POOL) (cluster_where c')).
Proof using HR.
  intros Hc. unfold RedisCluster.MakeAvailable.
  destruct (String.eqb_spec (Queue m) "") as [|Hne]; [stays|].
  destruct (decide (valid_queue (Queue m))) as [Hq|Hq]; [|rewrite validate_invalid by done; stays].
  rewrite (Hq : validateQueueName (Queue m) = None), activePool_slot, processingPool_slot. intros E.
  eapply (slot_operation (MakeAvailable m) _ _ _ _ (Queue m) _ [PoolSlot PROCESSING_POOL]) in E
    as [[-> [= -> ->]]|(d & E & Hstep)]; [stays| |done|done|apply MakeAvailable_prefix| |by right].
  - apply redis_MakeAvailable_moves in E as (_ & _ & Hb & He & Hm & _); [|by apply cluster_nodes].
    split; [apply Hstep|]. split; [apply Hstep|]. split_and!; [done..|].
    intros Hok. eapply step_moved; [exact Hstep|by apply Hm].
  - intros d [b' err'] Ed. apply redis_MakeAvailable_moves in Ed as (? & ? & _ & _ & _ & ?); [done|by apply cluster_nodes].
Qed.

Lemma cluster_LockMessage_moves env m t c c' b err :
  cluster_inv c -> RedisCluster.LockMessage env m t c = (c', (b, err)) ->
  cluster_inv c' /\ (forall k, cluster_key_value c' k = cluster_key_value c k) /\
  (b = true -> err = None /\ cluster_where c (Queue m) (ID m) = Some PROCESSING_POOL) /\
  (err = None -> cluster_where c (Queue m) (ID m) = Some PROCESSING_POOL -> b = true) /\
  (err = None \/ not_nan m ->
   moved (cluster_where c) (Queue m) (if b then [ID m] else []) (Some (lock_pool t)) (cluster_where c')).
Proof using HR.
  intros Hc. unfold RedisCluster.LockMessage.
  destruct (String.eqb_spec (Queue m) "") as [|Hne]; [stays|].
  destruct (decide (valid_queue (Queue m))) as [Hq|Hq]; [|rewrite validate_invalid by done; stays].
  rewrite (Hq : validateQueueName (Queue m) = None).
  destruct (LockMs m <=? 0); [stays|].
  rewrite processingPool_slot, lockPool_slot, lockPoolScore_slot. intros E.
  eapply (slot_operation (LockMessage env m t) _ _ _ _ (Queue m) _ [PoolSlot (lock_pool t); ScoreSlot t]) in E
    as [[-> [= -> ->]]|(d & E & Hstep)]; [stays| |done|done|apply LockMessage_prefix| |by right].
  - apply redis_LockMessage_moves in E as (_ & _ & Hb & He & Hm & _); [|by apply cluster_nodes].
    split; [apply Hstep|]. split; [apply Hstep|]. split_and!; [done..|].
    intros Hok. eapply step_moved; [exact Hstep|by apply Hm].
  - intros d [b' err'] Ed. apply redis_LockMessage_moves in Ed as (? & ? & _ & _ & _ & ?); [done|by apply cluster_nodes].
Qed.

(** The operations that move the messages they return from a pool to
    another. *)
Definition cluster_moves c c' q (ids : list string) (src dst : PoolType) : Prop :=
  cluster_inv c' /\ (forall k, cluster_key_value c' k = cluster_key_value c k) /\
  NoDup ids /\ Forall (fun i => cluster_where c q i = Some src) ids /\
  moved (cluster_where c) q ids (Some dst) (cluster_where c').

Lemma moves_operation (f : RedisCache R -> RedisCache R * result (list string)) q s ss src dst c c' ids err :
  cluster_inv c -> keeps_prefix f ->
  (forall d ids err, f (node c (queue_master c q)) = (d, (ids, err)) ->
     redis_post (node c (queue_master c q)) d q ids (Some dst) /\ NoDup ids /\
     Forall (fun i => cluster_where c q i = Some src) ids) ->
  (exists P, P <> PRIMARY_POOL /\ PoolSlot P ∈ s :: ss /\ PoolSlot PRIMARY_POOL ∈ s :: ss) ->
  match validateQueueName q with
  | Some err => (c, ([], Some err))
  | None => on_slot (slot_key (cluster_keys c) q s) (map (slot_key (cluster_keys c) q) ss)
              RedisCluster.refused_ids f c
  end = (c', (ids, err)) ->
  cluster_moves c c' q ids src dst /\
  (ids = [] \/ exists d, f (node c (queue_master c q)) = (d, (ids, err))).
Proof using HR.
  intros Hc Hpre Hf Hkeys.
  assert (Hstay : cluster_moves c c q [] src dst).
  { split_and!; [done|done|constructor|constructor|apply moved_nil]. }
  destruct (decide (valid_queue q)) as [Hq|Hq].
  2:{ rewrite validate_invalid by done. intros [= <- <- <-]. split; [done|by left]. }
  rewrite (Hq : validateQueueName q = None). intros E.
  eapply slot_operation in E as [[-> [= -> ->]]|(d & E & Hstep)];
    [split; [done|by left]| |done|exact Hq|exact Hpre| |by left].
  - split; [|right; by exists d]. destruct (Hf d ids err E) as (Hpost & ? & ?).
    split; [apply Hstep|]. split; [apply Hstep|]. split_and!; [done..|].
    eapply step_moved; [exact Hstep|apply Hpost].
  - intros d [b e] Ed. destruct (Hf d b e Ed) as ((? & ? & ?) & _). split_and!; [done..|]. by eapply moved_only.
Qed.

Lemma cluster_PullMessages_moves env q n mn mx dl c c' ids err :
  cluster_inv c -> 0 < n <= 4000 -> RedisCluster.PullMessages env q n mn mx dl c = (c', (ids, err)) ->
  cluster_moves c c' q ids PRIMARY_POOL PROCESSING_POOL /\ Z.of_nat (length ids) <= n.
Proof using HR.
  intros Hc Hn. unfold RedisCluster.PullMessages. rewrite activePool_slot, processingPool_slot. intros E.
  apply (moves_operation (PullMessages env q n mn mx dl) q _ [PoolSlot PROCESSING_POOL] PRIMARY_POOL PROCESSING_POOL) in E
    as (Hm & Hids).
  - split; [done|]. destruct Hids as [->|(d & Ed)]; [simpl; lia|].
    apply redis_PullMessages_moves in Ed as (_ & _ & ? & _); [done|by apply cluster_nodes|done].
  - done.
  - apply PullMessages_prefix.
  - intros d b e Ed. apply redis_PullMessages_moves in Ed as (? & ? & _ & ? & _); [done|by apply cluster_nodes|done].
  - exists PROCESSING_POOL. set_solver.
Qed.

Lemma cluster_TimeoutMessages_moves env q c c' ids err :
  cluster_inv c -> RedisCluster.TimeoutMessages env q c = (c', (ids, err)) ->
  cluster_moves c c' q ids PROCESSING_POOL PRIMARY_POOL.
Proof using HR.
  intros Hc. unfold RedisCluster.TimeoutMessages. rewrite activePool_slot, processingPool_slot. intros E.
  apply (moves_operation (TimeoutMessages env q) q _ [PoolSlot PROCESSING_POOL] PROCESSING_POOL PRIMARY_POOL) in E
    as [Hm _]; [done|done|apply TimeoutMessages_prefix| |exists PROCESSING_POOL; set_solver].
  intros d b e Ed. apply redis_TimeoutMessages_moves in Ed as (? & ? & ? & _); [done|by apply cluster_nodes].
Qed.

Lemma cluster_UnlockMessages_moves env q t c c' ids err :
  cluster_inv c -> RedisCluster.UnlockMessages env q t c = (c', (ids, err)) ->
  cluster_moves c c' q ids (lock_pool t) PRIMARY_POOL.
Proof using HR.
  intros Hc. unfold RedisCluster.UnlockMessages. rewrite activePool_slot, lockPool_slot, lockPoolScore_slot. intros E.
  apply (moves_operation (UnlockMessages env q t) q _ [PoolSlot PRIMARY_POOL; ScoreSlot t] (lock_pool t) PRIMARY_POOL) in E
    as [Hm _]; [done|done|apply UnlockMessages_prefix| |exists (lock_pool t); split; [by destruct t|set_solver]].
  intros d b e Ed. apply redis_UnlockMessages_moves in Ed as (? & ? & ? & _); [done|by apply cluster_nodes].
Qed.

Lemma cluster_Insert_moves q ms c c' ids err :
  cluster_inv c -> RedisCluster.Insert q ms c = (c', (ids, err)) ->
  cluster_inv c' /\ (forall k, cluster_key_value c' k = cluster_key_value c k) /\
  (forall i, i ∈ ids -> cluster_where c q i = None /\ i ∈ ID <$> ms) /\
  (err = None -> forall i, i ∈ ID <$> ms -> cluster_where c q i = None -> i ∈ ids) /\
  (err = None \/ Forall not_nan ms ->
   moved (cluster_where c) q ids (Some PRIMARY_POOL) (cluster_where c')).
Proof using HR.
  intros Hc. unfold RedisCluster.Insert.
  assert (Hstay : forall e : error, (c, ([], Some e)) = (c', (ids, err)) ->
    cluster_inv c' /\ (forall k, cluster_key_value c' k = cluster_key_value c k) /\
    (forall i, i ∈ ids -> cluster_where c q i = None /\ i ∈ ID <$> ms) /\
    (err = None -> forall i, i ∈ ID <$> ms -> cluster_where c q i = None -> i ∈ ids) /\
    (err = None \/ Forall not_nan ms ->
     moved (cluster_where c) q ids (Some PRIMARY_POOL) (cluster_where c'))).
  { intros e [= <- <- <-]. split_and!; [done|done|set_solver|done|intros; apply moved_nil]. }
  destruct (decide (valid_queue q)) as [Hq|Hq]; [|rewrite validate_invalid by done; apply Hstay].
  rewrite (Hq : validateQueueName q = None).
  destruct (existsb _ ms); [apply Hstay|].
  destruct (Partition _ 2000) as [|p parts] eqn:Ep.
  { intros [= <- <- <-]. pose proof (Partition_cover _ ms 2000 ltac:(lia)) as Hnil. rewrite Ep in Hnil.
    cbn in Hnil. subst ms. split_and!; [done|done|set_solver|set_solver|intros; apply moved_nil]. }
  rewrite activePool_slot, processingPool_slot, !lockPool_slot. intros E.
  eapply (slot_operation (Insert q ms) _ _ _ _ q _
    [PoolSlot LOCK_NACK_POOL; PoolSlot LOCK_ACK_POOL; PoolSlot PROCESSING_POOL]) in E
    as [[-> E]|(d & E & Hstep)]; [by eapply Hstay; rewrite E| |done|done|apply Insert_prefix| |].
  - apply redis_Insert_moves in E as (_ & _ & Hn & Ha & Hm & _); [|by apply cluster_nodes].
    split; [apply Hstep|]. split; [apply Hstep|]. split_and!; [done..|].
    intros Hok. eapply step_moved; [exact Hstep|by apply Hm].
  - intros d [b e] Ed. apply redis_Insert_moves in Ed as (? & ? & _ & _ & _ & ?); [done|by apply cluster_nodes].
  - left. exists PROCESSING_POOL. set_solver.
Qed.

Lemma cluster_Remove_moves q ids c c' n err :
  cluster_inv c -> RedisCluster.Remove q ids c = (c', (n, err)) ->
  cluster_inv c' /\ (forall k, cluster_key_value c' k = cluster_key_value c k) /\
  exists gone, gone ⊆ ids /\ (err = None -> ids ⊆ gone) /\
    moved (cluster_where c) q gone None (cluster_where c').
Proof using HR.
  intros Hc. unfold RedisCluster.Remove.
  assert (Hstay : forall e : error, (c, (0, Some e)) = (c', (n, err)) ->
    cluster_inv c' /\ (forall k, cluster_key_value c' k = cluster_key_value c k) /\
    exists gone, gone ⊆ ids /\ (err = None -> ids ⊆ gone) /\
      moved (cluster_where c) q gone None (cluster_where c')).
  { intros e [= <- <- <-]. split_and!; [done|done|]. exists []. split; [set_solver|]. split; [done|apply moved_nil]. }
  destruct (decide (valid_queue q)) as [Hq|Hq]; [|rewrite validate_invalid by done; apply Hstay].
  rewrite (Hq : validateQueueName q = None).
  destruct (Partition _ 4000) as [|p parts] eqn:Ep.
  { intros [= <- <- <-]. pose proof (Partition_cover _ ids 4000 ltac:(lia)) as Hnil. rewrite Ep in Hnil.
    cbn in Hnil. subst ids. split_and!; [done|done|]. exists []. split; [done|]. split; [done|apply moved_nil]. }
  rewrite activePool_slot, processingPool_slot, !lockPool_slot, !lockPoolScore_slot. intros E.
  assert (Hnode := redis_Remove_moves q ids (node c (queue_master c q)) (cluster_nodes c Hc _) Hq).
  destruct Hnode as (d1 & E1 & (Hd & Hk & Hm) & _).
  eapply (slot_operation (Remove q ids) _ _ _ _ q _
    [PoolSlot PROCESSING_POOL; PoolSlot LOCK_ACK_POOL; PoolSlot LOCK_NACK_POOL; ScoreSlot LOCK_ACK; ScoreSlot LOCK_NACK]) in E
    as [[-> E]|(d & E & Hstep)]; [by eapply Hstay; rewrite E| |done|done|apply Remove_prefix| |].
  - rewrite E1 in E. injection E as <- <- <-. split; [apply Hstep|]. split; [apply Hstep|].
    exists ids. split; [done|]. split; [done|]. by eapply step_moved.
  - intros d b Ed. rewrite E1 in Ed. injection Ed as <- _. split_and!; [done..|]. by eapply moved_only.
  - left. exists PROCESSING_POOL. set_solver.
Qed.

(** ** Keys and flush *)

Lemma cluster_Get_value k c : cluster_inv c -> RedisCluster.Get k c = (cluster_key_value c k, None).
Proof using HR. intros Hc. apply Get_value. by apply cluster_nodes. Qed.

Lemma cluster_Set_moves k v c : cluster_inv c ->
  exists c', RedisCluster.Set_ k v c = (c', None) /\ cluster_inv c' /\
    (forall q i, cluster_where c' q i = cluster_where c q i) /\
    (forall k', cluster_key_value c' k' = if decide (k' = k) then v else cluster_key_value c k').
Proof using HR.
  intros Hc. unfold RedisCluster.Set_, on_master. set (n := key_master _).
  destruct (Set_moves k v (node c n) (cluster_nodes c Hc n)) as (d & E & Hd & Hw & Hk).
  pose proof (Set_prefix k v (node c n)) as Hp. rewrite E in Hp |- *. cbn [fst] in Hp.
  exists (with_node c n d). split; [done|]. set (c' := with_node c n d).
  assert (Hn : node c' n = d) by by apply node_with_node.
  assert (Hm : forall m, m <> n -> node c' m = node c m) by (intros; by apply node_with_other).
  assert (Hwhere : forall m q i, redis_where_is (node c' m) q i = redis_where_is (node c m) q i).
  { intros m q i. destruct (decide (m = n)) as [->|Hne]; [by rewrite Hn, Hw|by rewrite Hm]. }
  split; [split|split].
  - intros m. destruct (decide (m = n)) as [->|Hne]; [by rewrite Hn|]. rewrite Hm by done. by apply cluster_nodes.
  - intros m q i Hne. rewrite Hwhere. by apply cluster_placed.
  - apply Hc.
  - apply Hc.
  - intros q i. apply Hwhere.
  - intros k'. unfold cluster_key_value. change (cluster_keys c') with (cluster_keys c).
    destruct (decide (key_master (generalCacheKey (cluster_keys c) k') = n)) as [Ek|Hne].
    + by rewrite Ek, Hn, Hk.
    + rewrite Hm by done. rewrite decide_False; [done|]. by intros ->.
Qed.

Lemma node_Flush c n : node (RedisCluster.Flush c) n = Flush (node c n).
Proof using Type. unfold node. simpl. by rewrite vlookup_map. Qed.

Lemma cluster_Flush_moves c : cluster_inv c ->
  cluster_inv (RedisCluster.Flush c) /\ (forall k, cluster_key_value (RedisCluster.Flush c) k = "") /\
  (forall q i, cluster_where (RedisCluster.Flush c) q i = None).
Proof using HR.
  intros Hc. assert (Hn : forall n, redis_inv (Flush (node c n)) /\ (forall k, redis_key_value (Flush (node c n)) k = "") /\
    (forall q i, redis_where_is (Flush (node c n)) q i = None)).
  { intros n. apply Flush_moves. by apply cluster_nodes. }
  split; [split|split]; try apply Hc.
  - intros n. rewrite node_Flush. apply Hn.
  - intros n q i _. rewrite node_Flush. apply Hn.
  - intros k. unfold cluster_key_value. rewrite node_Flush. apply Hn.
  - intros q i. unfold cluster_where. rewrite node_Flush. apply Hn.
Qed.
End Contract.

(** The cache in cluster mode keeps the contract of a cache. *)
#[export] Instance ClusterCache_spec {R} {HO : RedisOps R} {HR : Redis R} {HG : Gopart} {N} {HT : Topology N} :
    CacheSpec (ClusterCache R N).
Proof.
  refine {|
    cache_inv := cluster_inv;
    where_is := cluster_where;
    cache_key := cluster_key_value;
    cache_msg_ok := not_nan;
    cache_pull_ok := fun n => 0 < n <= 4000
  |}; simpl.
  - intros env m c c' b err. apply cluster_MakeAvailable_moves.
  - intros env m t c c' b err. apply cluster_LockMessage_moves.
  - intros env q n mn mx dl c c' ids err Hc Hn [= E].
    destruct (cluster_PullMessages_moves env q n mn mx dl c c' ids err Hc Hn E) as ((? & ? & ? & ? & ?) & ?).
    by split_and!.
  - intros env q c c' ids err. apply cluster_TimeoutMessages_moves.
  - intros env q t c c' ids err Hc E.
    destruct (cluster_UnlockMessages_moves env q t c c' ids err Hc E) as (? & ? & Hd & Hf & Hm).
    split_and!; [done..|]. by eapply (unlocked_of_queue _ _ q).
  - intros env q ms c c' ids err. apply cluster_Insert_moves.
  - intros env q ids c c' n err. apply cluster_Remove_moves.
  - intros env c. apply cluster_Flush_moves.
  - intros env k c v Hc. rewrite cluster_Get_value by done. by intros [= <-].
  - intros env k v c c' Hc E. destruct (cluster_Set_moves k v c Hc) as (c1 & E1 & ?). rewrite E1 in E.
    by injection E as <-.
  - intros env k v c c' e Hc E. destruct (cluster_Set_moves k v c Hc) as (c1 & E1 & ?). by rewrite E1 in E.
Defined.

(** ** Properties *)

Section Properties.
Context {R : Type} {HO : RedisOps R} {HR : Redis R} {HG : Gopart} {N : nat} {HT : Topology N}.
Implicit Types c : ClusterCache R N.

Lemma for_each_ok {A} (fn : fin N -> A + error) (value : fin N -> A) order :
  (forall n, fn n = inl (value n)) -> for_each fn order = inl (map value order).
Proof using Type.
  intros Hfn. induction order as [|n order IH]; [done|]. cbn [for_each map]. by rewrite Hfn, IH.
Qed.

(** A listing that succeeds has scanned every master. *)
Lemma for_each_all {A} (fn : fin N -> A + error) order results :
  for_each fn order = inl results -> Forall2 (fun n a => fn n = inl a) order results.
Proof using Type.
  revert results. induction order as [|n order IH]; intros results; cbn [for_each]; [by intros [= <-]|].
  destruct (fn n) as [a|] eqn:E; [|done]. destruct (for_each fn order); [|done]. intros [= <-].
  constructor; [done|by apply IH].
Qed.

(** C25. The listing over a cluster is that of one server with all the keys: each
    once, the names of the queues that have messages in the pool on any of the
    masters (of the primary pool, without the names that end in a reserved
    suffix), whatever the order the masters answer in. *)
Theorem cluster_ListQueues_correct env P c (Hc : cluster_inv c) :
  exists qs, RedisCluster.ListQueues env "*" P c = (qs, None) /\ NoDup qs /\
    forall q, q ∈ qs <-> (exists i, cluster_where c q i = Some P) /\
                         (P = PRIMARY_POOL -> reserved_suffix q = false).
Proof using HR.
  assert (Hscan : forall n, exists data,
    scanKeys (Client (node c n)) (searchPattern (cluster_keys c) P "*") = inl data /\
    forall k, k ∈ data <-> exists q, (exists i, redis_where_is (node c n) q i = Some P) /\
                                     k = searchPattern (cluster_keys c) P q).
  { intros n. exact (scan_listed (node c n) P (cluster_nodes c Hc n)). }
  apply fin_choice in Hscan as (data & Hdata).
  unfold RedisCluster.ListQueues, ForEachMaster. rewrite (for_each_ok _ data) by apply Hdata.
  apply parsed_listing. intros k. rewrite list_elem_of_In, in_concat. split.
  - intros (l & (n & <- & _)%in_map_iff & Hk%list_elem_of_In). apply Hdata in Hk as (q & [i Hi] & ->).
    exists q. split; [|done]. exists i. unfold cluster_where.
    destruct (decide (n = queue_master c q)) as [->|Hne]; [done|]. by rewrite cluster_placed in Hi.
  - intros (q & [i Hi] & ->). exists (data (queue_master c q)). split.
    + apply in_map, list_elem_of_In, finish_all.
    + apply list_elem_of_In, Hdata. exists q. split; [|done]. by exists i.
Qed.
End Properties.

(** ** One master for each queue *)

Section OneMaster.
Context {R : Type} {HO : RedisOps R} {HG : Gopart} {N : nat} {HT : Topology N}.
Implicit Types c : ClusterCache R N.

Lemma on_master_same {A} (f : RedisCache R -> RedisCache R * A) n c a :
  f (node c n) = (node c n, a) -> on_master n f c = (c, a).
Proof using Type.
  unfold on_master. intros ->. f_equal. destruct c as [rs p]. unfold with_node. simpl.
  by rewrite vlookup_insert_self.
Qed.

Lemma on_slot_master {A} c q s ss refused (f : RedisCache R -> RedisCache R * A) :
  "{"%char ∉ list_ascii_of_string (configuredPrefix (cluster_keys c)) -> valid_queue q -> q <> "" ->
  on_slot (slot_key (cluster_keys c) q s) (map (slot_key (cluster_keys c) q) ss) refused f c
    = on_master (slot_master (key_slot q)) f c.
Proof using Type.
  intros Hp Hq Hne. unfold on_slot.
  assert (Hs : forall s', key_slot (slot_key (cluster_keys c) q s') = key_slot q) by (intros; by apply slot_key_slot).
  assert (same_slot (slot_key (cluster_keys c) q s :: map (slot_key (cluster_keys c) q) ss) = true) as ->.
  { cbn [same_slot]. apply forallb_forall. intros k (s' & <- & _)%in_map_iff. apply Z.eqb_eq. by rewrite !Hs. }
  unfold key_master. by rewrite Hs.
Qed.

Lemma cluster_Remove_node c q ids :
  "{"%char ∉ list_ascii_of_string (configuredPrefix (cluster_keys c)) -> valid_queue q -> q <> "" ->
  RedisCluster.Remove q ids c = on_master (slot_master (key_slot q)) (Remove q ids) c.
Proof using Type.
  intros Hp Hq Hne. unfold RedisCluster.Remove. rewrite (Hq : validateQueueName q = None).
  destruct (Partition _ 4000) eqn:Ep.
  - symmetry. apply on_master_same. unfold Remove. by rewrite (Hq : validateQueueName q = None), Ep.
  - rewrite activePool_slot, processingPool_slot, !lockPool_slot, !lockPoolScore_slot.
    by apply (on_slot_master c q _ [PoolSlot PROCESSING_POOL; PoolSlot LOCK_ACK_POOL; PoolSlot LOCK_NACK_POOL;
                      ScoreSlot LOCK_ACK; ScoreSlot LOCK_NACK]).
Qed.

Lemma cluster_Insert_node c q ms :
  "{"%char ∉ list_ascii_of_string (configuredPrefix (cluster_keys c)) -> valid_queue q -> q <> "" ->
  RedisCluster.Insert q ms c = on_master (slot_master (key_slot q)) (Insert q ms) c.
Proof using Type.
  intros Hp Hq Hne. unfold RedisCluster.Insert. rewrite (Hq : validateQueueName q = None).
  destruct (existsb _ ms) eqn:Em; [|destruct (Partition _ 2000) eqn:Ep].
  - symmetry. apply on_master_same. unfold Insert. by rewrite (Hq : validateQueueName q = None), Em.
  - symmetry. apply on_master_same. unfold Insert. by rewrite (Hq : validateQueueName q = None), Em, Ep.
  - rewrite activePool_slot, processingPool_slot, !lockPool_slot.
    by apply (on_slot_master c q _ [PoolSlot LOCK_NACK_POOL; PoolSlot LOCK_ACK_POOL; PoolSlot PROCESSING_POOL]).
Qed.

(** C24. The operations of the cache in cluster mode, on a queue with a name that is
    accepted and not empty, do what they do on a single node, on the master
    that owns the slot of the name; the other masters are not touched, and no
    script is refused for keys of different slots.  The prefix must not have
    an opening brace. *)
Theorem cluster_one_master c q
    (Hprefix : "{"%char ∉ list_ascii_of_string (configuredPrefix (cluster_keys c)))
    (Hq : valid_queue q) (Hne : q <> "") :
  let master := slot_master (key_slot q) in
  (forall m, Queue m = q -> RedisCluster.MakeAvailable m c = on_master master (MakeAvailable m) c) /\
  (forall env m t, Queue m = q -> RedisCluster.LockMessage env m t c = on_master master (LockMessage env m t) c) /\
  (forall env n mn mx dl,
     RedisCluster.PullMessages env q n mn mx dl c = on_master master (PullMessages env q n mn mx dl) c) /\
  (forall env, RedisCluster.TimeoutMessages env q c = on_master master (TimeoutMessages env q) c) /\
  (forall env t, RedisCluster.UnlockMessages env q t c = on_master master (UnlockMessages env q t) c) /\
  (forall ms, RedisCluster.Insert q ms c = on_master master (Insert q ms) c) /\
  (forall ids, RedisCluster.Remove q ids c = on_master master (Remove q ids) c) /\
  (forall i, RedisCluster.IsProcessing q i c = IsProcessing q i (node c master)).
Proof using Type.
  intros master. apply String.eqb_neq in Hne as Hneb.
  pose proof (fun A s ss refused f => on_slot_master (A := A) c q s ss refused f Hprefix Hq Hne) as Hon.
  split_and!.
  - intros m Hm. unfold RedisCluster.MakeAvailable. rewrite Hm, Hneb, (Hq : validateQueueName q = None).
    rewrite activePool_slot, processingPool_slot. apply (Hon _ _ [PoolSlot PROCESSING_POOL]).
  - intros env m t Hm. unfold RedisCluster.LockMessage. rewrite Hm, Hneb, (Hq : validateQueueName q = None).
    destruct (LockMs m <=? 0) eqn:El.
    + symmetry. apply on_master_same. unfold LockMessage. by rewrite Hm, Hneb, (Hq : validateQueueName q = None), El.
    + rewrite processingPool_slot, lockPool_slot, lockPoolScore_slot.
      apply (Hon _ _ [PoolSlot (lock_pool t); ScoreSlot t]).
  - intros. unfold RedisCluster.PullMessages. rewrite (Hq : validateQueueName q = None), activePool_slot, processingPool_slot.
    apply (Hon _ _ [PoolSlot PROCESSING_POOL]).
  - intros. unfold RedisCluster.TimeoutMessages. rewrite (Hq : validateQueueName q = None), activePool_slot, processingPool_slot.
    apply (Hon _ _ [PoolSlot PROCESSING_POOL]).
  - intros env t. unfold RedisCluster.UnlockMessages.
    rewrite (Hq : validateQueueName q = None), activePool_slot, lockPool_slot, lockPoolScore_slot.
    apply (Hon _ _ [PoolSlot PRIMARY_POOL; ScoreSlot t]).
  - intros ms. by apply cluster_Insert_node.
  - intros ids. by apply cluster_Remove_node.
  - intros i. unfold RedisCluster.IsProcessing, key_master. rewrite processingPool_slot. by rewrite slot_key_slot.
Qed.
End OneMaster.

(** ** A concrete cluster *)

(** The text before and after the first [c]. *)
Fixpoint cut (c : ascii) (s : string) : option (string * string) :=
  match s with
  | EmptyString => None
  | String d s' =>
      if Ascii.eqb d c then Some ("", s')
      else match cut c s' with Some (before, after) => Some (String d before, after) | None => None end
  end.

Definition hash_tag (key : string) : string :=
  match cut "{" key with
  | None => key
  | Some (_, rest) =>
      match cut "}" rest with
      | None => key
      | Some (tag, _) => if String.eqb tag "" then key else tag
      end
  end.

(** CRC16 with the polynomial [0x1021]. *)
Definition crc16_bit (crc : Z) : Z :=
  if Z.testbit crc 15 then Z.lxor (Z.land (Z.shiftl crc 1) 65535) 4129 else Z.shiftl crc 1.

Definition crc16_byte (crc : Z) (c : ascii) : Z :=
  Nat.iter 8 crc16_bit (Z.lxor crc (Z.shiftl (Z.of_nat (nat_of_ascii c)) 8)).

Definition crc16 (s : string) : Z := foldl crc16_byte 0 (list_ascii_of_string s).

Example crc16_check : crc16 "123456789" = 12739.
Proof. vm_compute. reflexivity. Qed.

Lemma cut_first c before after :
  c ∉ list_ascii_of_string before -> cut c (before +:+ String c after) = Some (before, after).
Proof.
  induction before as [|d before IH]; intros Hn; rewrite ?append_cons, ?append_nil; cbn [cut].
  - by rewrite Ascii.eqb_refl.
  - cbn in Hn. apply not_elem_of_cons in Hn as [Hne Hn]. rewrite IH by done.
    by rewrite (proj2 (Ascii.eqb_neq d c)) by congruence.
Qed.

Lemma cut_none c s : c ∉ list_ascii_of_string s -> cut c s = None.
Proof.
  induction s as [|d s IH]; intros Hn; [done|]. cbn in Hn. apply not_elem_of_cons in Hn as [Hne Hn].
  cbn [cut]. rewrite IH by done. by rewrite (proj2 (Ascii.eqb_neq d c)) by congruence.
Qed.

Lemma cut_suffix c d s before after :
  cut c s = Some (before, after) -> d ∉ list_ascii_of_string s -> d ∉ list_ascii_of_string after.
Proof.
  revert before after. induction s as [|e s IH]; intros before after; cbn [cut]; [done|].
  cbn [list_ascii_of_string]. rewrite not_elem_of_cons. case_match; [intros [= <- <-] [_ ?]; done|].
  destruct (cut c s) as [[b a]|]; [|done]. intros [= <- <-] [_ ?]. by eapply IH.
Qed.

(** Two masters with half of the 16384 slots each. *)
Definition two_masters : Topology 2.
Proof.
  refine {|
    key_slot := fun key => crc16 (hash_tag key) mod 16384;
    slot_master := fun slot => if slot <? 8192 then 0%fin else 1%fin;
    finish_order := fun _ => [1%fin; 0%fin]
  |}.
  - intros before tag after Hb Hne Ht. do 2 f_equal. unfold hash_tag.
    change ("{" ++ tag ++ "}" ++ after)%string with (String "{" (tag +:+ String "}" after)).
    rewrite (cut_first "{"), (cut_first "}") by done.
    rewrite (proj2 (String.eqb_neq _ _)) by done.
    destruct (cut "{" tag) as [[b a]|] eqn:E; [|done].
    rewrite cut_none; [done|]. by eapply cut_suffix.
  - intros _. apply (bool_decide_eq_true_1 _). vm_compute. reflexivity.
  - intros _ n. apply (bool_decide_eq_true_1 _). revert n. apply fin_S_inv; [vm_compute; reflexivity|].
    intros n. revert n. apply fin_S_inv; [vm_compute; reflexivity|]. intros n. by inv_fin n.
Defined.

#[local] Existing Instances chunks two_masters.

Abbreviation ModelCluster := (ClusterCache RedisModel 2).

Definition new_cluster : ModelCluster :=
  {| masters := vreplicate 2 (∅ : RedisModel); clusterPrefix := "deckard_v1" |}.

Lemma new_node n : node new_cluster n = new_cache.
Proof. unfold node, new_cluster, new_cache. cbn [masters clusterPrefix]. by rewrite vlookup_replicate. Qed.

Lemma new_cache_empty q i : redis_where_is new_cache q i = None.
Proof.
  destruct (decide (valid_queue q)) as [Hv|Hv]; [|by apply where_is_invalid].
  apply where_is_None; [exact Hv|]. intros P [x Hx]. discriminate.
Qed.

Lemma new_cluster_inv : cluster_inv new_cluster.
Proof.
  split.
  - intros n. rewrite new_node. exact new_cache_inv.
  - intros n q i _. rewrite new_node. apply new_cache_empty.
  - apply (bool_decide_eq_true_1 _). vm_compute. reflexivity.
  - intros [] HP; [destruct (HP eq_refl)|vm_compute; discriminate..].
Qed.

Lemma new_cluster_empty q i : cluster_where new_cluster q i = None.
Proof. unfold cluster_where. rewrite new_node. apply new_cache_empty. Qed.

(** A message in each of two queues, which are not on the same master. *)
Definition two_queues : ModelCluster :=
  (RedisCluster.Insert "r" [msg "r" "b" 5 0] (RedisCluster.Insert "q" [msg "q" "a" 10 0] new_cluster).1).1.

Lemma two_queues_inv : cluster_inv two_queues.
Proof.
  unfold two_queues. destruct (RedisCluster.Insert "q" _ new_cluster) as [c1 [ids1 err1]] eqn:E1.
  destruct (RedisCluster.Insert "r" _ _) as [c2 [ids2 err2]] eqn:E2.
  apply cluster_Insert_moves in E1 as [Hc1 _]; [|exact new_cluster_inv].
  by apply cluster_Insert_moves in E2 as [Hc2 _].
Qed.

Lemma cluster_ListQueues_correct_witness :
  queue_master two_queues "q" <> queue_master two_queues "r" /\
  exists qs, RedisCluster.ListQueues (at_ms 0) "*" PRIMARY_POOL two_queues = (qs, None) /\
    "q" ∈ qs /\ "r" ∈ qs.
Proof.
  split; [vm_compute; discriminate|].
  destruct (cluster_ListQueues_correct (at_ms 0) PRIMARY_POOL two_queues two_queues_inv) as (qs & E & _ & Hqs).
  exists qs. split; [exact E|]. split; apply Hqs; (split; [|reflexivity]).
  - exists "a". vm_compute. reflexivity.
  - exists "b". vm_compute. reflexivity.
Defined.

(** The prefix in the hypothesis is the default one. *)
Lemma cluster_one_master_witness :
  RedisCluster.PullMessages (at_ms 0) "q" 1 None None 0 two_queues
    = on_master (slot_master (key_slot "q")) (PullMessages (at_ms 0) "q" 1 None None 0) two_queues /\
  (RedisCluster.PullMessages (at_ms 0) "q" 1 None None 0 two_queues).2 = (["a"], None).
Proof.
  split; [|vm_compute; reflexivity].
  refine (proj1 (proj2 (proj2 (cluster_one_master two_queues "q" _ _ _))) _ _ _ _ _).
  - apply (bool_decide_eq_true_1 _). vm_compute. reflexivity.
  - reflexivity.
  - discriminate.
Defined.

(** The scripts on the queue with the empty name are refused. *)
Example empty_name_refused :
  (RedisCluster.PullMessages (at_ms 0) "" 1 None None 0 two_queues).2
    = ([], Some (WrapError "error parsing result" CROSSSLOT)) /\
  (PullMessages (at_ms 0) "" 1 None None 0 new_cache).2 = ([], None).
Proof. split; vm_compute; reflexivity. Qed.
