(* ===== verification/Connection.v ===== *)
(** * Connecting to the storage and the cache

    [NewMongoStorage] and [NewRedisCache]: the options from the configuration
    and the retries.  The drivers are the parameters: what they answer to the
    i-th attempt, and whether the context is cancelled during the i-th
    delay.  Next to its result a function that connects gives the clients it
    has opened and closed. *)

From stdpp Require Import vector.
From S2P Require Import Prelude GoStrings Float64 Dtime Utils GoTime Message Cache Storage.
From S2P Require Import Config ConfigProps.
From S2P Require Import MemoryCache MemoryStorage Mongo MongoStorage Redis RedisCluster RedisCache.
#[local] Open Scope string_scope.
#[local] Open Scope list_scope.
#[local] Open Scope Z_scope.

(** ** What is opened and closed *)

Inductive Resource := MongoClient | RedisClient | ServerListener.

#[export] Instance Resource_eq_dec : EqDecision Resource.
Proof. solve_decision. Defined.

Inductive Effect := Opened (r : Resource) | Closed (r : Resource).

#[export] Instance Effect_eq_dec : EqDecision Effect.
Proof. solve_decision. Defined.

(** How many of a kind are open after these effects. *)
Fixpoint open_after (r : Resource) (l : list Effect) : Z :=
  match l with
  | [] => 0
  | Opened r' :: l' => (if decide (r' = r) then 1 else 0) + open_after r l'
  | Closed r' :: l' => (if decide (r' = r) then -1 else 0) + open_after r l'
  end.

Lemma open_after_app r l l' : open_after r (l ++ l') = open_after r l + open_after r l'.
Proof. induction l as [|[] l IH]; cbn; [done|rewrite IH; lia..]. Qed.

(** ** MongoDB *)

Definition errStorageUriRequired : error :=
  ErrorString "storage.uri (DECKARD_STORAGE_URI) is required when storage.type is MONGODB".

Inductive ReadPref := PrimaryPreferred | SecondaryPreferred.

(** The options of a client that the program sets. *)
Record ClientOptions := {
  AppName : string;
  ApplyURI : string;
  ServerSelectionTimeout : option Z;
  ReadPreference : option ReadPref
}.

Definition SetReadPreference (rp : ReadPref) (opts : ClientOptions) : ClientOptions :=
  {| AppName := AppName opts; ApplyURI := ApplyURI opts;
     ServerSelectionTimeout := ServerSelectionTimeout opts; ReadPreference := Some rp |}.

(** What the driver answers to the attempts of one connection. *)
Record MongoDial (C : Type) := {
  mongo_Connect : nat -> C + error;
  mongo_Ping : nat -> C -> option error;
  (** [<-ctx.Done()] while waiting for the timer: the error of the context *)
  mongo_delay : nat -> option error
}.
Arguments mongo_Connect {C} _ _.
Arguments mongo_Ping {C} _ _ _.
Arguments mongo_delay {C} _ _.

Section Mongo.
Context {C : Type}.
Implicit Types dial : MongoDial C.

(** The i-th attempt; a time-out of the attempt is an error of the driver. *)
Definition createClient dial (i : nat) : C + error :=
  match mongo_Connect dial i with
  | inr err => inr (WrapError "error connecting to client" err)
  | inl client =>
      match mongo_Ping dial i client with
      | Some err => inr (WrapError "error pinging client" err)
      | None => inl client
      end
  end.

(** [mongo.Connect] gives a client before it is pinged; one that does not
    answer is not disconnected. *)
Definition connected dial (i : nat) : list Effect :=
  match mongo_Connect dial i with inl _ => [Opened MongoClient] | inr _ => [] end.

Definition failed_after (attempts : Z) (err : error) : error :=
  WrapError (("failed to connect to MongoDB after " +:+ FormatInt attempts) +:+ " attempt(s)") err.

(** The loop from attempt [i] on; [fuel] is the number of attempts left. *)
Fixpoint mongo_attempts (fuel i : nat) (attempts : Z) (retryEnabled : bool) (err : option error) dial :
    list Effect * (option C + error) :=
  match fuel with
  | O => ([], match err with Some err => inr (failed_after attempts err) | None => inl None end)
  | S fuel' =>
      match createClient dial i with
      | inl client => (connected dial i, inl (Some client))
      | inr err =>
          if negb retryEnabled || (Z.of_nat i =? attempts) then
            (connected dial i, inr (failed_after attempts err))
          else match mongo_delay dial i with
               | Some cause => (connected dial i, inr (WrapError "mongo connection retries canceled" cause))
               | None =>
                   let '(effects, r) := mongo_attempts fuel' (S i) attempts retryEnabled (Some err) dial in
                   (connected dial i ++ effects, r)
               end
      end
  end.

(** [None] as a client is the nil pointer. *)
Definition waitForClient (attempts : Z) (retryEnabled : bool) dial : list Effect * (option C + error) :=
  let attempts := if attempts <? 1 then 1 else attempts in
  mongo_attempts (Z.to_nat attempts) 1 attempts retryEnabled None dial.
End Mongo.

(** ** Redis *)

Definition errCacheUriRequired : error :=
  ErrorString "cache.uri (DECKARD_CACHE_URI) is required when cache.type is REDIS".

Definition errCacheConnectionRetryAttemptsInvalid : error :=
  ErrorString "cache.connection.retry.attempts must be greater than 0".

Record RedisDial (Options R : Type) := {
  redis_ParseURL : string -> Options + error;
  redis_NewClient : Options -> R;
  InstrumentTracing : R -> option error;
  redis_Ping : nat -> R -> string * option error;
  redis_Close : R -> option error;
  (** [waitForRetry], after the i-th attempt *)
  waitForRetry : nat -> option error
}.
Arguments redis_ParseURL {Options R} _ _.
Arguments redis_NewClient {Options R} _ _.
Arguments InstrumentTracing {Options R} _ _.
Arguments redis_Ping {Options R} _ _ _.
Arguments redis_Close {Options R} _ _.
Arguments waitForRetry {Options R} _ _.

Section Redis.
Context {Options R : Type}.
Implicit Types dial : RedisDial Options R.

Definition parse_uri (message uri : string) dial : Options + error :=
  if String.eqb uri "" then inr errCacheUriRequired
  else match redis_ParseURL dial uri with
       | inr err => inr (WrapError message err)
       | inl options => inl options
       end.

Definition singleNodeOptionsFromConfig (uri : string) dial : Options + error :=
  parse_uri "error parsing redis uri" uri dial.

Definition clusterOptionsFromConfig (uri : string) dial : Options + error :=
  parse_uri "error parsing redis cluster uri" uri dial.

(** The error the loop ends with. *)
Fixpoint redis_attempts (fuel i : nat) (retryEnabled : bool) (err : option error) (redisClient : R) dial :
    option error :=
  match fuel with
  | O => err
  | S fuel' =>
      let '(pingResult, err) := redis_Ping dial i redisClient in
      if (match err with None => String.eqb pingResult "PONG" | Some _ => false end) || negb retryEnabled
      then err
      else match waitForRetry dial i with
           | Some waitErr => Some waitErr
           | None => redis_attempts fuel' (S i) retryEnabled err redisClient dial
           end
  end.

(** [name] is what the messages call the client. *)
Definition wait_for_client (name : string) (attempts : Z) (retryEnabled : bool) (options : Options) dial :
    list Effect * (R + error) :=
  if attempts <? 1 then ([], inr errCacheConnectionRetryAttemptsInvalid)
  else
    let redisClient := redis_NewClient dial options in
    match InstrumentTracing dial redisClient with
    | Some err =>
        ([Opened RedisClient; Closed RedisClient],
         inr (match redis_Close dial redisClient with
              | Some closeErr =>
                  WrapError ((("error setting up " +:+ name) +:+ " tracing and closing ") +:+ (name +:+ " client"))
                    (JoinError err closeErr)
              | None => WrapError (("error setting up " +:+ name) +:+ " tracing") err
              end))
    | None =>
        match redis_attempts (Z.to_nat attempts) 1 retryEnabled None redisClient dial with
        | Some err =>
            ([Opened RedisClient; Closed RedisClient],
             inr (match redis_Close dial redisClient with
                  | Some closeErr =>
                      WrapError ((("error connecting to " +:+ name) +:+ " and closing ") +:+ (name +:+ " client"))
                        (JoinError err closeErr)
                  | None => err
                  end))
        | None => ([Opened RedisClient], inl redisClient)
        end
    end.

Definition waitForSingleNodeClient := wait_for_client "redis".
Definition waitForClusterClient := wait_for_client "redis cluster".

Definition createSingleNodeClient (uri : string) (attempts : Z) (retryEnabled : bool) dial :
    list Effect * (R + error) :=
  match singleNodeOptionsFromConfig uri dial with
  | inr err => ([], inr err)
  | inl options => waitForSingleNodeClient attempts retryEnabled options dial
  end.

Definition createClusterClient (uri : string) (attempts : Z) (retryEnabled : bool) dial :
    list Effect * (R + error) :=
  match clusterOptionsFromConfig uri dial with
  | inr err => ([], inr err)
  | inl options => waitForClusterClient attempts retryEnabled options dial
  end.
End Redis.

(** ** The storage and the cache of the configuration *)

Section Create.
Context {V : Type} {HV : Viper V}.
Context {C Options R : Type}.
Variable env : Environ.
Variable v : V.

(** A short time-out for a server on the same host. *)
Definition createOptions : ClientOptions + error :=
  let uri := Config.Get env StorageUri v in
  if String.eqb uri "" then inr errStorageUriRequired
  else inl {| AppName := project_Name; ApplyURI := uri;
              ServerSelectionTimeout := if Contains uri "localhost" then Some Second else None;
              ReadPreference := None |}.

(** Two connections to one server, one for each read preference; the state of
    the server is what the storage works on.  [driver] gives the client of some
    options. *)
Definition NewMongoStorage (driver : ClientOptions -> MongoDial C) (server : C) :
    list Effect * (MongoStorage C + error) :=
  match createOptions with
  | inr err => ([], inr err)
  | inl options =>
      let attempts := GetInt env StorageConnectionRetryAttempts v in
      let retryEnabled := GetBool env StorageConnectionRetryEnabled v in
      let '(effects, client) :=
        waitForClient attempts retryEnabled (driver (SetReadPreference SecondaryPreferred options)) in
      match client with
      | inr err => (effects, inr err)
      | inl _ =>
          let '(effects', primaryClient) :=
            waitForClient attempts retryEnabled (driver (SetReadPreference PrimaryPreferred options)) in
          (effects ++ effects',
           match primaryClient with
           | inr err => inr err
           | inl _ =>
               inl (MongoStorage.NewMongoStorage server (Config.Get env MongoDatabase v) (Config.Get env MongoCollection v)
                      (Config.Get env MongoQueueConfigurationCollection v))
           end)
      end
  end.

(** The cache over the client of one node, or that of a cluster in cluster
    mode. *)
Definition NewRedisCache {N} (dial : RedisDial Options R) (clusterDial : RedisDial Options (vec R N)) :
    list Effect * ((RedisCache R + ClusterCache R N) + error) :=
  let uri := Config.Get env CacheUri v in
  let attempts := GetInt env CacheConnectionRetryAttempts v in
  let retryEnabled := GetBool env CacheConnectionRetryEnabled v in
  let prefix := resolveConfiguredPrefix (Config.Get env CachePrefix v) in
  if GetBool env RedisClusterMode v then
    let '(effects, client) := createClusterClient uri attempts retryEnabled clusterDial in
    (effects,
     match client with
     | inr err => inr err
     | inl client => inl (inr {| masters := client; clusterPrefix := prefix |})
     end)
  else
    let '(effects, client) := createSingleNodeClient uri attempts retryEnabled dial in
    (effects,
     match client with
     | inr err => inr err
     | inl client => inl (inl {| Client := client; keyPrefix := prefix |})
     end).

(** [isMemoryInstance] of [main]. *)
Definition isMemoryInstance : bool :=
  String.eqb (Config.Get env CacheType v) "MEMORY" && String.eqb (Config.Get env StorageType v) "MEMORY".
End Create.

(** ** What the retries do *)

Section MongoRetries.
Context {C : Type}.
Implicit Types dial : MongoDial C.

(** Attempt [i] is made: it is the first, or all those before it failed, the
    retries are enabled and no delay was cut short. *)
Definition attempted dial (retryEnabled : bool) (i : nat) : Prop :=
  (i = 1%nat \/ retryEnabled = true) /\
  forall j, (1 <= j < i)%nat -> (exists err, createClient dial j = inr err) /\ mongo_delay dial j = None.

Lemma mongo_attempts_not_nil dial retryEnabled attempts : forall fuel i err,
  (1 <= fuel)%nat \/ err <> None -> (mongo_attempts fuel i attempts retryEnabled err dial).2 <> inl None.
Proof using Type.
  induction fuel as [|fuel IH]; intros i err Hf; cbn [mongo_attempts].
  - destruct err; [done|]. destruct Hf; [lia|done].
  - destruct (createClient dial i) as [|e]; [done|]. case_if; [done|]. destruct (mongo_delay dial i); [done|].
    specialize (IH (S i) (Some e)). destruct (mongo_attempts _ _ _ _ _ _). apply IH. by right.
Qed.

(** The client the loop returns is that of an attempt it makes. *)
Lemma mongo_attempts_connects dial retryEnabled attempts : forall fuel i err client,
  Z.of_nat i + Z.of_nat fuel = attempts + 1 ->
  (mongo_attempts fuel i attempts retryEnabled err dial).2 = inl (Some client) <->
   exists k, (i <= k < i + fuel)%nat /\ (k = i \/ retryEnabled = true) /\ createClient dial k = inl client /\
     forall j, (i <= j < k)%nat -> (exists err, createClient dial j = inr err) /\ mongo_delay dial j = None.
Proof using Type.
  induction fuel as [|fuel IH]; intros i err client Hsum; cbn [mongo_attempts].
  { split; [by destruct err|]. intros (k & Hk & _). lia. }
  destruct (createClient dial i) as [c|err'] eqn:Ec; cbn [snd].
  { split.
    - intros [= ->]. exists i. split_and!; [lia|lia|by left|done|lia].
    - intros (k & Hk & _ & Hck & Hbefore). destruct (decide (k = i)) as [->|Hne]; [congruence|].
      destruct (Hbefore i) as [[e He] _]; [lia|congruence]. }
  assert (Hstop : forall e : error,
      retryEnabled = false \/ fuel = O \/ mongo_delay dial i <> None ->
      inr e = inl (Some client) <->
      exists k, (i <= k < i + S fuel)%nat /\ (k = i \/ retryEnabled = true) /\ createClient dial k = inl client /\
      forall j, (i <= j < k)%nat -> (exists err, createClient dial j = inr err) /\ mongo_delay dial j = None).
  { intros e Hwhy. split; [done|]. intros (k & Hk & Hr & Hck & Hbefore).
    destruct (decide (k = i)) as [->|Hne]; [congruence|].
    destruct Hwhy as [Hw|[Hw|Hw]]; [destruct Hr; congruence|lia|].
    destruct (Hbefore i) as [_ Hd]; [lia|done]. }
  destruct (negb retryEnabled || (Z.of_nat i =? attempts)) eqn:Eb; cbn [snd].
  { apply Hstop. apply orb_true_iff in Eb as [Eb|Eb]; [left; by destruct retryEnabled|].
    apply Z.eqb_eq in Eb. right. left. lia. }
  apply orb_false_iff in Eb as [Er Eb].
  destruct (mongo_delay dial i) as [cause|] eqn:Ed; [apply Hstop; by right; right|].
  specialize (IH (S i) (Some err') client ltac:(lia)).
  destruct (mongo_attempts fuel (S i) attempts retryEnabled (Some err') dial) as [effects r]. cbn [snd] in IH |- *.
  rewrite IH. split.
  - intros (k & Hk & Hr & Hck & Hbefore). exists k. split; [lia|]. split; [right; by destruct retryEnabled|].
    split; [done|]. intros j Hj. destruct (decide (j = i)) as [->|]; [by eauto|]. apply Hbefore. lia.
  - intros (k & Hk & Hr & Hck & Hbefore).
    destruct (decide (k = i)) as [->|Hne]; [congruence|]. exists k. split; [lia|].
    split; [right; by destruct retryEnabled|]. split; [done|]. intros j Hj. apply Hbefore. lia.
Qed.

(** Connecting to MongoDB: the result is the client of the first attempt
    that connects and is answered, among as many as are configured (at least
    one, and only one when the retries are disabled) and before the context
    is cancelled during a delay; without one it is an error, never a nil
    client. *)
Theorem mongo_connection attempts retryEnabled dial :
  (forall client, (waitForClient attempts retryEnabled dial).2 = inl (Some client) <->
    exists i, (1 <= i)%nat /\ Z.of_nat i <= Z.max 1 attempts /\
      attempted dial retryEnabled i /\ createClient dial i = inl client) /\
  (waitForClient attempts retryEnabled dial).2 <> inl None.
Proof using Type.
  unfold waitForClient. set (n := if attempts <? 1 then 1 else attempts).
  assert (Hn : n = Z.max 1 attempts) by (unfold n; case_if; bool_hyps; lia). split.
  - intros client. rewrite mongo_attempts_connects by lia. split.
    + intros (k & Hk & Hr & Hck & Hb). exists k. split; [lia|]. split; [lia|]. by split.
    + intros (k & Hk & Hle & [Hr Hb] & Hck). exists k. split_and!; [lia|lia|done|done|done].
  - apply mongo_attempts_not_nil. left. lia.
Qed.

(** The clients of [k] attempts from the i-th on, when all of them fail: those
    whose ping failed. *)
Definition pings_failed dial (i k : nat) : Z :=
  open_after MongoClient (concat (map (connected dial) (seq i k))).

Lemma open_connected dial i : 0 <= open_after MongoClient (connected dial i) <= 1.
Proof using Type. unfold connected. destruct (mongo_Connect dial i); vm_compute; by split. Qed.

Lemma pings_failed_nonneg dial i k : 0 <= pings_failed dial i k.
Proof using Type.
  unfold pings_failed. revert i. induction k as [|k IH]; intros i; cbn [seq map concat]; [done|].
  rewrite open_after_app. pose proof (open_connected dial i). specialize (IH (S i)). lia.
Qed.

Lemma mongo_attempts_opens dial retryEnabled attempts : forall fuel i err,
  exists k, (k <= fuel)%nat /\
    (forall j, (i <= j < i + k)%nat -> exists err, createClient dial j = inr err) /\
    open_after MongoClient (mongo_attempts fuel i attempts retryEnabled err dial).1 =
      pings_failed dial i k +
      match (mongo_attempts fuel i attempts retryEnabled err dial).2 with inl (Some _) => 1 | _ => 0 end /\
    forall r, r <> MongoClient -> open_after r (mongo_attempts fuel i attempts retryEnabled err dial).1 = 0.
Proof using Type.
  assert (Hother : forall i r, r <> MongoClient -> open_after r (connected dial i) = 0).
  { intros i r Hr. unfold connected. destruct (mongo_Connect dial i); cbn; [|done]. by rewrite decide_False. }
  assert (Hone : forall i err, createClient dial i = inr err ->
    open_after MongoClient (connected dial i) = pings_failed dial i 1).
  { intros i err _. unfold pings_failed. cbn. by rewrite app_nil_r. }
  induction fuel as [|fuel IH]; intros i err; cbn [mongo_attempts].
  { exists 0%nat. split; [lia|]. split; [lia|]. by destruct err. }
  destruct (createClient dial i) as [c|err'] eqn:Ec.
  { exists 0%nat. split; [lia|]. split; [lia|]. split; [|by apply Hother]. cbn. revert Ec. unfold createClient, connected.
    destruct (mongo_Connect dial i); [done|done]. }
  destruct (negb retryEnabled || (Z.of_nat i =? attempts)).
  { exists 1%nat. cbn [fst snd]. rewrite (Hone i err' Ec). split; [lia|]. split; [|split; [lia|by apply Hother]].
    intros j Hj. assert (j = i) as -> by lia. by exists err'. }
  destruct (mongo_delay dial i) as [cause|].
  { exists 1%nat. cbn [fst snd]. rewrite (Hone i err' Ec). split; [lia|]. split; [|split; [lia|by apply Hother]].
    intros j Hj. assert (j = i) as -> by lia. by exists err'. }
  destruct (IH (S i) (Some err')) as (k & Hk & Hj & Ho & Hr).
  destruct (mongo_attempts fuel (S i) attempts retryEnabled (Some err') dial) as [effects r]. cbn [fst snd] in *.
  exists (S k). split; [lia|]. split; [|split].
  - intros j Hle. destruct (decide (j = i)) as [->|]; [by exists err'|]. apply Hj. lia.
  - rewrite open_after_app, Ho. unfold pings_failed. cbn [seq map concat]. rewrite open_after_app. lia.
  - intros r' Hr'. by rewrite open_after_app, Hother, Hr.
Qed.

(** A connection leaves behind the clients whose ping failed, and the one it
    returns. *)
Lemma waitForClient_opens attempts retryEnabled dial :
  exists k, Z.of_nat k <= Z.max 1 attempts /\
    (forall j, (1 <= j <= k)%nat -> exists err, createClient dial j = inr err) /\
    open_after MongoClient (waitForClient attempts retryEnabled dial).1 =
      pings_failed dial 1 k +
      match (waitForClient attempts retryEnabled dial).2 with inl _ => 1 | inr _ => 0 end /\
    forall r, r <> MongoClient -> open_after r (waitForClient attempts retryEnabled dial).1 = 0.
Proof using Type.
  destruct (mongo_connection attempts retryEnabled dial) as [_ Hnil]. unfold waitForClient in *.
  set (n := if attempts <? 1 then 1 else attempts) in *.
  assert (Hn : n = Z.max 1 attempts) by (unfold n; case_if; bool_hyps; lia).
  destruct (mongo_attempts_opens dial retryEnabled n (Z.to_nat n) 1 None) as (k & Hk & Hj & Ho & Hr).
  exists k. split; [lia|]. split; [intros j Hle; apply Hj; lia|]. split; [|done]. rewrite Ho. f_equal.
  destruct (mongo_attempts _ _ _ _ _ _) as [effects [[c|]|e]]; try done.
Qed.
End MongoRetries.

Section RedisRetries.
Context {Options R : Type}.
Implicit Types dial : RedisDial Options R.

(** When the server answers to every attempt, but never with the text the loop
    waits for, the client is returned without an error. *)
Lemma redis_accepts_other_answers dial client n :
  (forall i, exists answer, redis_Ping dial i client = (answer, None) /\ answer <> "PONG") ->
  (forall i, waitForRetry dial i = None) -> (1 <= n)%nat ->
  redis_attempts n 1 true None client dial = None.
Proof using Type.
  intros Hping Hwait Hn. generalize 1%nat as i. clear Hn.
  induction n as [|n IH]; intros i; [done|]. cbn [redis_attempts].
  destruct (Hping i) as (answer & -> & Hne). apply String.eqb_neq in Hne. rewrite Hne. cbn.
  by rewrite Hwait.
Qed.

(** A connection that fails closes the client it has opened. *)
Lemma wait_for_client_opens name attempts retryEnabled options dial r :
  open_after r (wait_for_client name attempts retryEnabled options dial).1 =
  match (wait_for_client name attempts retryEnabled options dial).2 with
  | inl _ => if decide (RedisClient = r) then 1 else 0
  | inr _ => 0
  end.
Proof using Type.
  unfold wait_for_client. destruct (attempts <? 1); [done|]. cbv zeta.
  destruct (InstrumentTracing dial _); [cbn; case_decide; done|].
  destruct (redis_attempts _ _ _ _ _ _); cbn; case_decide; done.
Qed.
End RedisRetries.

(** ** What the creation of a storage and of a cache leaves open *)

Section Opens.
Context {V : Type} {HV : Viper V}.
Context {C Options R : Type}.
Variable env : Environ.
Variable v : V.

(** Two clients of MongoDB when it is created; nothing else is closed, so that
    the clients of the pings that failed stay open, and the first connection
    when the second one fails. *)
Lemma NewMongoStorage_opens driver (server : C) :
  exists k k' : nat,
  open_after MongoClient (NewMongoStorage env v driver server).1 =
    (match createOptions env v with
     | inr _ => 0
     | inl options =>
         pings_failed (driver (SetReadPreference SecondaryPreferred options)) 1 k +
         pings_failed (driver (SetReadPreference PrimaryPreferred options)) 1 k'
     end) +
    (match createOptions env v with
     | inr _ => 0
     | inl options =>
         match (waitForClient (GetInt env StorageConnectionRetryAttempts v)
                  (GetBool env StorageConnectionRetryEnabled v)
                  (driver (SetReadPreference SecondaryPreferred options))).2 with
         | inl _ => match (NewMongoStorage env v driver server).2 with inl _ => 2 | inr _ => 1 end
         | inr _ => 0
         end
     end) /\
  (forall s, (NewMongoStorage env v driver server).2 = inl s ->
     2 <= open_after MongoClient (NewMongoStorage env v driver server).1) /\
  forall r, r <> MongoClient -> open_after r (NewMongoStorage env v driver server).1 = 0.
Proof using Type.
  unfold NewMongoStorage. destruct (createOptions env v) as [options|]; [|by exists 0%nat, 0%nat].
  destruct (waitForClient_opens (GetInt env StorageConnectionRetryAttempts v)
    (GetBool env StorageConnectionRetryEnabled v) (driver (SetReadPreference SecondaryPreferred options)))
    as (k & _ & _ & Ho & Hr).
  destruct (waitForClient _ _ (driver (SetReadPreference SecondaryPreferred options))) as [e1 [c|err]]; cbn [fst snd] in *.
  - destruct (waitForClient_opens (GetInt env StorageConnectionRetryAttempts v)
      (GetBool env StorageConnectionRetryEnabled v) (driver (SetReadPreference PrimaryPreferred options)))
      as (k' & _ & _ & Ho' & Hr').
    destruct (waitForClient _ _ (driver (SetReadPreference PrimaryPreferred options))) as [e2 r2]; cbn [fst snd] in *.
    exists k, k'. rewrite open_after_app, Ho, Ho'.
    pose proof (pings_failed_nonneg (driver (SetReadPreference SecondaryPreferred options)) 1 k).
    pose proof (pings_failed_nonneg (driver (SetReadPreference PrimaryPreferred options)) 1 k').
    split; [destruct r2; lia|]. split.
    + intros s. destruct r2; [lia|done].
    + intros r Hne. by rewrite open_after_app, Hr, Hr'.
  - exists k, 0%nat. rewrite Ho. cbn. split; [lia|]. by split.
Qed.

Lemma NewRedisCache_opens {N} dial (clusterDial : RedisDial Options (vec R N)) r :
  open_after r (NewRedisCache env v dial clusterDial).1 =
  match (NewRedisCache env v dial clusterDial).2 with
  | inl _ => if decide (RedisClient = r) then 1 else 0
  | inr _ => 0
  end.
Proof using Type.
  unfold NewRedisCache, createClusterClient, createSingleNodeClient. destruct (GetBool env RedisClusterMode v).
  - destruct (clusterOptionsFromConfig _ _) as [options|]; [|done].
    pose proof (wait_for_client_opens "redis cluster" (GetInt env CacheConnectionRetryAttempts v)
      (GetBool env CacheConnectionRetryEnabled v) options clusterDial r) as H.
    unfold waitForClusterClient. by destruct (wait_for_client _ _ _ _ _) as [e []].
  - destruct (singleNodeOptionsFromConfig _ _) as [options|]; [|done].
    pose proof (wait_for_client_opens "redis" (GetInt env CacheConnectionRetryAttempts v)
      (GetBool env CacheConnectionRetryEnabled v) options dial r) as H.
    unfold waitForSingleNodeClient. by destruct (wait_for_client _ _ _ _ _) as [e []].
Qed.
End Opens.
