(* ===== verification/StartUp.v ===== *)
(** * The start of the process

    [main] in [internal/cmd/deckard/main.go]: the components it creates from
    the configuration, in order, what it starts with them, and what it closes
    when it returns or panics, with the clients and the listener they open.
    The outside world (servers, files, the network)
    is a parameter; from the wait for a signal on, the process is the machine
    of [Lifecycle.v]. *)

From stdpp Require Import vector.
From S2P Require Import Prelude GoStrings Float64 Dtime Utils GoTime Message Cache Storage AuditTrail AuditSender.
From S2P Require Import Lifecycle Config ConfigProps Server Tracing MemoryCache MemoryStorage Mongo MongoStorage.
From S2P Require Import Redis RedisCluster RedisCache Connection.
#[local] Open Scope string_scope.
#[local] Open Scope list_scope.
#[local] Open Scope Z_scope.

(** ** The outside world *)

Record Outside (C Options R Certificate Pool Listener : Type) (N : nat) := {
  (** [otlptrace.New] *)
  otlptrace_New : unit + error;
  mongo_driver : ClientOptions -> MongoDial C;
  mongo_server : C;
  redis_dial : RedisDial Options R;
  cluster_dial : RedisDial Options (vec R N);
  (** [elasticsearch.NewClient], and [Ping]: whether the answer is an error *)
  es_NewClient : option error;
  es_Ping : bool + error;
  host : Host Certificate Pool Listener;
  services : list string
}.
Arguments otlptrace_New {_ _ _ _ _ _ _} _.
Arguments mongo_driver {_ _ _ _ _ _ _} _ _.
Arguments mongo_server {_ _ _ _ _ _ _} _.
Arguments redis_dial {_ _ _ _ _ _ _} _.
Arguments cluster_dial {_ _ _ _ _ _ _} _.
Arguments es_NewClient {_ _ _ _ _ _ _} _.
Arguments es_Ping {_ _ _ _ _ _ _} _.
Arguments host {_ _ _ _ _ _ _} _.
Arguments services {_ _ _ _ _ _ _} _.

(** The implementations behind the interfaces. *)
Inductive AnyStorage (C : Type) := StorageMemory (s : MemoryStorage) | StorageMongo (s : MongoStorage C).
Arguments StorageMemory {C} s.
Arguments StorageMongo {C} s.

Inductive AnyCache (R : Type) (N : nat) :=
  | CacheMemory (c : MemoryCache) | CacheRedis (c : RedisCache R) | CacheCluster (c : ClusterCache R N).
Arguments CacheMemory {R N} c.
Arguments CacheRedis {R N} c.
Arguments CacheCluster {R N} c.

(** ** Effects *)

(** What [main] does, in the order it happens. *)
Inductive StartEvent :=
  | Configured | LoggerConfigured | MetricsServed | TracingInitialised
  | StorageCreated | CacheCreated | AuditorCreated | SenderStarted
  | ServerStarted (memoryInstance : bool) | TaskScheduled (t : Task) (delay : Z)
  | SignalsNotified | ShutdownPerformed
  | CacheClosed | StorageClosed
  (** a client or the listener is opened or closed *)
  | Did (e : Effect).

#[export] Instance StartEvent_eq_dec : EqDecision StartEvent.
Proof. solve_decision. Defined.

(** A computation adds events, registers deferred calls (the last one first)
    and returns or panics. *)
Definition Main (A : Type) : Type :=
  list StartEvent * list StartEvent -> (list StartEvent * list StartEvent) * (A + error).

#[export] Instance Main_ret : MRet Main := fun A a w => (w, inl a).


Definition emit (e : StartEvent) : Main unit := fun w => ((w.1 ++ [e], w.2), inl tt).

Definition defer (l : list StartEvent) : Main unit := fun w => ((w.1, l ++ w.2), inl tt).

(** A function that opens or closes something, and may fail: main panics. *)
Definition create {A} (x : list Effect * (A + error)) : Main A :=
  fun w => ((w.1 ++ map Did x.1, w.2), x.2).

(** [if err != nil { panic(err) }]. *)
Definition or_panic {A} (r : A + error) : Main A := fun w => (w, r).

Definition check (err : option error) : Main unit :=
  or_panic (match err with None => inl tt | Some err => inr err end).

Fixpoint each {A} (f : A -> Main unit) (l : list A) : Main unit :=
  match l with
  | [] => mret tt
  | x :: l' => _ ← f x; each f l'
  end.

Section StartUp.
Context {V : Type} {HV : Viper V}.
Context {C Options R Certificate Pool Listener : Type} {N : nat}.
Variable env : Environ.
Variable v : V.
Variable outside : Outside C Options R Certificate Pool Listener N.

(** ** Creation of the components *)

(** [trace.Init]: what it installs is in [Tracing.v]. *)
Definition trace_Init : option error := (Tracing.Init env (otlptrace_New outside) no_tracing).2.

Definition CreateStorage (storageType : string) : list Effect * (AnyStorage C + error) :=
  if String.eqb storageType "MONGODB" then
    let '(effects, r) := NewMongoStorage env v (mongo_driver outside) (mongo_server outside) in
    (effects, match r with inl s => inl (StorageMongo s) | inr err => inr err end)
  else if String.eqb storageType "MEMORY" then ([], inl (StorageMemory NewMemoryStorage))
  else ([], inr (ErrorString "invalid storage type ")).

Definition CreateCache (cacheType : string) : list Effect * (AnyCache R N + error) :=
  if String.eqb cacheType "REDIS" then
    let '(effects, r) := NewRedisCache env v (redis_dial outside) (cluster_dial outside) in
    (effects,
     match r with
     | inl (inl c) => inl (CacheRedis c)
     | inl (inr c) => inl (CacheCluster c)
     | inr err => inr err
     end)
  else if String.eqb cacheType "MEMORY" then ([], inl (CacheMemory NewMemoryCache))
  else ([], inr (ErrorString "invalid cache type")).

(** The deferred [dataStorage.Close(ctx)] and [dataCache.Close(ctx)]: the
    errors are only logged. *)
Definition close_storage (s : AnyStorage C) : list StartEvent :=
  match s with
  | StorageMemory _ => []
  | StorageMongo _ => [Did (Closed MongoClient); Did (Closed MongoClient)]
  end ++ [StorageClosed].

Definition close_cache (c : AnyCache R N) : list StartEvent :=
  match c with CacheMemory _ => [] | _ => [Did (Closed RedisClient)] end ++ [CacheClosed].

(** [audit.NewAuditor]. *)
Definition create_auditor : AuditorImpl + error :=
  if negb (GetBool env AuditEnabled v) then inl (NewAuditor false)
  else match es_NewClient outside with
  | Some err => inr err
  | None =>
      match es_Ping outside with
      | inr err => inr err
      | inl true => inr (ErrorString "error with ping request")
      | inl false => inl (NewAuditor true)
      end
  end.

(** ** What is started *)

Definition task_delay (t : Task) : Z :=
  GetDuration env
    (match t with
     | UNLOCK => HousekeeperTaskUnlockDelay
     | TIMEOUT => HousekeeperTaskTimeoutDelay
     | METRICS => HousekeeperTaskMetricsDelay
     | RECOVERY => HousekeeperTaskUpdateDelay
     | MAX_ELEMENTS => HousekeeperTaskMaxElementsDelay
     | TTL => HousekeeperTaskTTLDelay
     end) v.

Definition startHouseKeeperJobs : Main unit :=
  each (fun t => emit (TaskScheduled t (task_delay t))) tasks.

(** The server, with the listener [ServeGRPCServer] opens first. *)
Definition serve : list Effect * (GrpcServer Certificate Pool Listener + error) :=
  let '(listen, r) := ServeGRPCServer env v (services outside) (host outside) in
  (match listen with Some _ => [Opened ServerListener] | None => [] end, r).

Definition startGrpcServer : Main (GrpcServer Certificate Pool Listener) :=
  server ← create serve;
  _ ← emit (ServerStarted (isMemoryInstance env v));
  mret server.

(** [PerformShutdown]; [GracefulStop] closes the listener of the server. *)
Definition performShutdown (server : option (GrpcServer Certificate Pool Listener)) : Main unit :=
  _ ← (match server with Some _ => emit (Did (Closed ServerListener)) | None => mret tt end);
  emit ShutdownPerformed.

(** The body of [main]. *)
Definition main_body : Main (AnyStorage C * AnyCache R N) :=
  _ ← emit Configured;
  _ ← emit LoggerConfigured;
  _ ← emit MetricsServed;
  _ ← check trace_Init;
  _ ← emit TracingInitialised;
  dataStorage ← create (CreateStorage (Config.Get env StorageType v));
  _ ← emit StorageCreated;
  _ ← defer (close_storage dataStorage);
  dataCache ← create (CreateCache (Config.Get env CacheType v));
  _ ← emit CacheCreated;
  _ ← defer (close_cache dataCache);
  _ ← or_panic create_auditor;
  _ ← emit AuditorCreated;
  _ ← emit SenderStarted;
  server ← (if GetBool env GrpcEnabled v then server ← startGrpcServer; mret (Some server) else mret None);
  _ ← (if GetBool env HousekeeperEnabled v then startHouseKeeperJobs else mret tt);
  _ ← emit SignalsNotified;
  _ ← performShutdown server;
  mret (dataStorage, dataCache).

(** The events of the process and the error it panics with: the deferred calls
    are made when [main] returns, and also when it panics. *)
Definition main : list StartEvent * option error :=
  let '((events, deferred), res) := main_body ([], []) in
  (events ++ deferred, match res with inl _ => None | inr err => Some err end).
End StartUp.

(** ** What the start does *)

Section Properties.
Context {V : Type} {HV : Viper V}.
Context {C Options R Certificate Pool Listener : Type} {N : nat}.
Implicit Types outside : Outside C Options R Certificate Pool Listener N.

(** The steps of a run, and how many of a kind it leaves open. *)
Definition steps (events : list StartEvent) : list StartEvent :=
  List.filter (fun e => match e with Did _ => false | _ => true end) events.

Definition left_open (events : list StartEvent) (r : Resource) : Z :=
  open_after r (omap (fun e => match e with Did e => Some e | _ => None end) events).

Lemma left_open_app l l' r : left_open (l ++ l') r = left_open l r + left_open l' r.
Proof using Type. unfold left_open. by rewrite omap_app, open_after_app. Qed.

Lemma left_open_Did l r : left_open (map Did l) r = open_after r l.
Proof using Type.
  unfold left_open. f_equal. induction l as [|e l IH]; [done|]. cbn [map omap list_omap]. by rewrite IH.
Qed.

Lemma steps_app l l' : steps (l ++ l') = steps l ++ steps l'.
Proof using Type. unfold steps. apply List.filter_app. Qed.

Lemma steps_Did l : steps (map Did l) = [].
Proof using Type. by induction l. Qed.

(** The clients of MongoDB that the creation of the storage leaves open once
    the storage is closed: those whose ping failed, and the first connection
    when the second one fails ([NewMongoStorage_opens]). *)
Definition storage_leaves env (v : V) outside : Z :=
  let '(effects, r) := CreateStorage env v outside (Config.Get env StorageType v) in
  open_after MongoClient effects - match r with inl (StorageMongo _) => 2 | _ => 0 end.





#[local] Arguments steps : simpl never.
#[local] Arguments left_open : simpl never.

Lemma steps_cons e l : steps (e :: l) = match e with Did _ => steps l | _ => e :: steps l end.
Proof using Type. by destruct e. Qed.

Lemma steps_close_storage (s : AnyStorage C) : steps (close_storage s) = [StorageClosed].
Proof using Type. by destruct s. Qed.

Lemma steps_close_cache (c : AnyCache R N) : steps (close_cache c) = [CacheClosed].
Proof using Type. by destruct c. Qed.

Lemma left_open_nil r : left_open [] r = 0.
Proof using Type. done. Qed.

Lemma left_open_cons e l r :
  left_open (e :: l) r = (match e with Did e => open_after r [e] | _ => 0 end) + left_open l r.
Proof using Type. unfold left_open. destruct e as [| | | | | | | | | | | | | |[]]; cbn; lia. Qed.


Lemma storage_leaves_nonneg env (v : V) outside : 0 <= storage_leaves env v outside.
Proof using Type.
  unfold storage_leaves, CreateStorage. destruct (String.eqb _ "MONGODB").
  - pose proof (NewMongoStorage_opens env v (mongo_driver outside) (mongo_server outside)) as (k & k' & Ho & Hs & _).
    destruct (NewMongoStorage _ _ _ _) as [effects [s|e]]; cbn [fst snd] in *; [specialize (Hs s eq_refl); lia|].
    rewrite Ho. destruct (createOptions env v) as [options|]; [|lia].
    pose proof (pings_failed_nonneg (mongo_driver outside (SetReadPreference SecondaryPreferred options)) 1 k).
    pose proof (pings_failed_nonneg (mongo_driver outside (SetReadPreference PrimaryPreferred options)) 1 k').
    destruct (snd (waitForClient _ _ _)); lia.
  - by destruct (String.eqb _ "MEMORY").
Qed.






Lemma listener_opened r : open_after r [Opened ServerListener] = match r with ServerListener => 1 | _ => 0 end.
Proof using Type. by destruct r. Qed.

Lemma listener_closed r : open_after r [Closed ServerListener] = match r with ServerListener => -1 | _ => 0 end.
Proof using Type. by destruct r. Qed.

(** The steps of some events, and what they leave open. *)
Ltac events :=
  rewrite ?app_nil_r, ?steps_cons, ?left_open_cons, ?steps_app, ?left_open_app, ?steps_Did, ?left_open_Did,
    ?steps_cons, ?left_open_cons, ?steps_app, ?left_open_app, ?steps_Did, ?left_open_Did,
    ?steps_close_storage, ?steps_close_cache, ?left_open_nil, ?listener_opened, ?listener_closed;
  cbn [app].


End Properties.

(** ** Examples *)

Section Examples.

#[local] Existing Instance ModelViper_Viper.

Definition outside_world : Outside unit unit RedisModel (string * string) (list string) string 2 := {|
  otlptrace_New := inl tt;
  mongo_driver := fun _ => {| mongo_Connect := fun _ => inl tt; mongo_Ping := fun _ _ => None; mongo_delay := fun _ => None |};
  mongo_server := tt;
  redis_dial := {| redis_ParseURL := fun _ => inl tt; redis_NewClient := fun _ => ∅; InstrumentTracing := fun _ => None;
                   redis_Ping := fun _ _ => ("PONG", None); redis_Close := fun _ => None; waitForRetry := fun _ => None |};
  cluster_dial := {| redis_ParseURL := fun _ => inl tt; redis_NewClient := fun _ => vreplicate 2 ∅;
                     InstrumentTracing := fun _ => None; redis_Ping := fun _ _ => ("PONG", None);
                     redis_Close := fun _ => None; waitForRetry := fun _ => None |};
  es_NewClient := None; es_Ping := inl false; host := model_host; services := ["blipai.deckard.Deckard"] |}.

Definition run_main (env : Environ) : list StartEvent * option error :=
  main env (viper (Configure [] no_viper)) outside_world.

(** Without a configuration the process starts, in memory. *)
Example starts_in_memory :
  (run_main (fun _ => None)).2 = None /\
  ServerStarted true ∈ (run_main (fun _ => None)).1 /\
  TaskScheduled METRICS (60 * Second) ∈ (run_main (fun _ => None)).1.
Proof. split_and!; [vm_compute; reflexivity|apply (bool_decide_eq_true_1 _); vm_compute; reflexivity..]. Qed.

(** A Redis cache without an address: the storage that was created is closed,
    and nothing is served. *)
Example redis_without_address :
  run_main (fun name => if String.eqb name "DECKARD_CACHE_TYPE" then Some "REDIS" else None) =
  ([Configured; LoggerConfigured; MetricsServed; TracingInitialised; StorageCreated; StorageClosed],
   Some errCacheUriRequired).
Proof. vm_compute. reflexivity. Qed.

(** Two certificates and one key: the start fails once the listener is open,
    and the listener is not closed. *)
Example listener_left_open :
  let '(events, err) := run_main (fun name =>
    if String.eqb name "DECKARD_TLS_SERVER_CERT_FILE_PATHS" then Some "a.pem,b.pem"
    else if String.eqb name "DECKARD_TLS_SERVER_KEY_FILE_PATHS" then Some "a.key" else None) in
  bool_decide (err = None) = false /\ left_open events ServerListener = 1.
Proof. vm_compute. by split. Qed.

(** A MongoDB that answers to the first client only: it is left connected, and
    so are the clients of the ten attempts of the second connection. *)
Example first_client_left_open :
  let outside := {|
    otlptrace_New := otlptrace_New outside_world;
    mongo_driver := fun options => {|
      mongo_Connect := fun _ => inl tt;
      mongo_Ping := fun _ _ => match ReadPreference options with
                               | Some PrimaryPreferred => Some (ErrorString "no primary") | _ => None end;
      mongo_delay := fun _ => None |};
    mongo_server := tt; redis_dial := redis_dial outside_world; cluster_dial := cluster_dial outside_world;
    es_NewClient := None; es_Ping := inl false; host := model_host; services := [] |} in
  let '(events, err) := main (fun name =>
    if String.eqb name "DECKARD_STORAGE_TYPE" then Some "MONGODB"
    else if String.eqb name "DECKARD_STORAGE_URI" then Some "mongodb://storage" else None)
    (viper (Configure [] no_viper)) outside in
  bool_decide (err = None) = false /\ left_open events MongoClient = 11.
Proof. vm_compute. by split. Qed.
End Examples.
