(* ===== verification/Production.v ===== *)
(** * The production composition

    The queue over the MongoDB storage and the Redis cache, of one node or of a
    cluster: the theorems on the queue, proved against the two contracts, hold
    of it. *)

From S2P Require Import Prelude GoStrings Float64 Dtime Utils Message Cache Fixtures Storage AuditTrail.
From S2P Require Import Queue QueueFacts QueueProps QueueHistory.
From S2P Require Import Mongo MongoModel MongoStorage MongoDocs MongoFacts MongoSpec MongoProps.
From S2P Require Import Redis RedisScripts RedisCluster RedisCache RedisKeys RedisEffects RedisFacts RedisProps.
From S2P Require Import RedisClusterProps.
#[local] Open Scope string_scope.
#[local] Open Scope list_scope.
#[local] Open Scope Z_scope.

(** A pull names a queue and asks for at most 4000 messages. *)
Definition production_op_ok (op : queue_op) : Prop :=
  match op with
  | QPull queue n _ _ _ => queue <> "" /\ valid_queue queue /\ 0 < n <= 4000
  | _ => True
  end.

(** ** Over any cache that keeps the contract *)

Section InStep.
Context {C : Type} {HO : MongoOps C} {HM : Mongo C} {HA : AnyCodec} {HB : BsonDecoder}.
Context {K : Type} {HK : Cache K} {HS : CacheSpec K}.

Abbreviation Q := (Queue (MongoStorage C) K AuditLog).

(** The messages stored are those in the pools of the cache. *)
Definition in_step (q : Q) : Prop :=
  forall qn i, where_is (cache q) qn i = None <-> mongo_stored (storage q) qn i = None.

Lemma agree_in_step env (q : Q) :
  agree env q <-> (mongo_inv (storage q) /\ cache_inv (cache q)) /\ in_step q.
Proof using HM.
  assert (Hlive : forall qn i m, live env (storage q) qn i m <-> mongo_stored (storage q) qn i = Some m).
  { intros qn i m. split; [by intros [? _]|]. intros H. split; [done|]. intros Hh. discriminate Hh. }
  split.
  - intros (Hq & Hc & Hb). split; [exact Hq|]. intros qn i. split; intros Hn.
    + destruct (mongo_stored (storage q) qn i) as [m|] eqn:E; [|done].
      destruct (Hc qn i m); [by apply Hlive|exact Hn].
    + destruct (where_is (cache q) qn i) as [P|] eqn:E; [|done].
      destruct (Hb qn i); [|exact Hn]. cbn. rewrite E. discriminate.
  - intros (Hq & Hs). split; [exact Hq|]. split.
    + intros qn i m Hl%Hlive Hn. apply Hs in Hn. congruence.
    + intros qn i Hn Hst. apply Hn, Hs, Hst.
Qed.

Lemma in_step_runs h (q q' : Q) :
  Forall (fun x => op_names_ok (S := MongoStorage C) (C := K) x.2) h ->
  mongo_inv (storage q) -> cache_inv (cache q) -> in_step q -> runs h q q' ->
  mongo_inv (storage q') /\ cache_inv (cache q') /\ in_step q'.
Proof using HM.
  intros Hok. revert q.
  induction Hok as [|[env op] h Hop Hok IH]; intros q Hs Hc Hin Hruns; [cbn in Hruns; by subst|].
  destruct Hruns as (q1 & Hrun & Hruns).
  assert (Hag : agree env q) by (by apply agree_in_step).
  assert (Hag1 : agree env q1) by (eapply agree_step; [exact Hag|exact Hop|exact Hrun]).
  apply agree_in_step in Hag1 as [[? ?] ?]. by apply (IH q1).
Qed.

(** The operations production runs, when the cache accepts their pulls and
    removes the messages of the queues they name. *)
Lemma production_names_ok h :
  (forall n, 0 < n <= 4000 -> cache_pull_ok (C := K) n) ->
  (forall qn, qn <> "" -> valid_queue qn -> cache_Remove_ok (C := K) qn) ->
  Forall (fun x : Env * queue_op => production_op_ok x.2) h ->
  Forall (fun x => op_names_ok (S := MongoStorage C) (C := K) x.2) h.
Proof using HM.
  intros Hpull Hremove Hh. eapply Forall_impl; [exact Hh|]. intros [env op].
  destruct op as [ms|qn n mn mx dl| | | | |]; intros Hok; try exact I.
  - apply Forall_forall. intros m _. exact I.
  - destruct Hok as (Hne & Hv & Hn). split; [exact Hne|]. split; [by apply Hpull|by apply Hremove].
Qed.
End InStep.

Section Production.
Context {C : Type} {HO : MongoOps C} {HM : Mongo C} {HA : AnyCodec} {HB : BsonDecoder}.
Context {R : Type} {HRO : RedisOps R} {HR : Redis R} {HG : Gopart}.

Abbreviation ProductionQueue := (Queue (MongoStorage C) (RedisCache R) AuditLog).

Lemma redis_Remove_ok qn : valid_queue qn -> cache_Remove_ok (C := RedisCache R) qn.
Proof using HR.
  intros Hq env ids c Hc. destruct (redis_Remove_moves qn ids c Hc Hq) as (c1 & E & _).
  cbn. by rewrite E.
Qed.

(** C5. In production, with the MongoDB storage and the Redis cache, the two
    stay in step: start from a queue where the messages stored are those in
    the pools of the cache, and run any operations that report no error, at
    any times; then a message is in a pool of the cache exactly when it is
    stored.  No message is lost, and none is handed out that is not stored. *)
Theorem production_in_step h (q q' : ProductionQueue)
    (Hstorage : mongo_inv (storage q)) (Hcache : redis_inv (cache q)) (Hstart : in_step q)
    (Hok : Forall (fun x => production_op_ok x.2) h) (Hruns : runs h q q') :
  mongo_inv (storage q') /\ redis_inv (cache q') /\ in_step q'.
Proof using HR HM.
  refine (in_step_runs (HS := RedisCache_spec) h q q' _ Hstorage Hcache Hstart Hruns).
  apply production_names_ok; [done| |exact Hok]. intros qn _. apply redis_Remove_ok.
Qed.

Lemma redis_in_step (q : ProductionQueue) qn i : in_step q ->
  redis_where_is (cache q) qn i = None <-> mongo_stored (storage q) qn i = None.
Proof using Type. intros Hs. exact (Hs qn i). Qed.

Context {N : nat} {HT : Topology N}.

Abbreviation ClusterQueue := (Queue (MongoStorage C) (ClusterCache R N) AuditLog).

Lemma cluster_Remove_ok qn : qn <> "" -> valid_queue qn -> cache_Remove_ok (C := ClusterCache R N) qn.
Proof using HR.
  intros Hne Hq env ids c Hc. cbn.
  destruct (redis_Remove_moves qn ids (node c (slot_master (key_slot qn))) (cluster_nodes c Hc _) Hq) as (d & E & _).
  rewrite cluster_Remove_node by (apply Hc || done). unfold on_master. by rewrite E.
Qed.

(** The same with a Redis cluster: whatever masters the messages of the
    queues are on, a message is in a pool of the cache exactly when it is
    stored, after any operations that report no error. *)
Theorem cluster_in_step h (q q' : ClusterQueue)
    (Hstorage : mongo_inv (storage q)) (Hcache : cluster_inv (cache q)) (Hstart : in_step q)
    (Hok : Forall (fun x => production_op_ok x.2) h) (Hruns : runs h q q') :
  mongo_inv (storage q') /\ cluster_inv (cache q') /\ in_step q'.
Proof using HR HM.
  refine (in_step_runs (HS := ClusterCache_spec) h q q' _ Hstorage Hcache Hstart Hruns).
  apply production_names_ok; [done| |exact Hok]. exact cluster_Remove_ok.
Qed.

Lemma cluster_queue_in_step (q : ClusterQueue) qn i : in_step q ->
  cluster_where (cache q) qn i = None <-> mongo_stored (storage q) qn i = None.
Proof using Type. intros Hs. exact (Hs qn i). Qed.
End Production.

(** ** Witness, on the model servers *)

#[local] Existing Instances model_codec model_decoder chunks.

Section Histories.
Context {K : Type} {HK : Cache K}.

Abbreviation MQ := (Queue (MongoStorage MongoModel) K AuditLog).

Definition next_state (o : outcome (MQ * option error)) (q : MQ) : MQ :=
  match o with Ret (q', _) => q' | Panic _ => q end.

(** The queue a history leaves. *)
Fixpoint queue_after (h : list (Env * queue_op)) (q : MQ) : MQ :=
  match h with
  | [] => q
  | (env, op) :: h' => queue_after h' (next_state (run_queue_op env op q) q)
  end.

(** Whether every operation of a history returns without an error. *)
Fixpoint runs_ok (h : list (Env * queue_op)) (q : MQ) : bool :=
  match h with
  | [] => true
  | (env, op) :: h' =>
      match run_queue_op env op q with Ret (q1, None) => runs_ok h' q1 | _ => false end
  end.

Lemma runs_ok_runs h : forall q, runs_ok h q = true -> runs h q (queue_after h q).
Proof using Type.
  induction h as [|[env op] h IH]; intros q; cbn [runs_ok runs queue_after]; [done|].
  destruct (run_queue_op env op q) as [[q1 [err|]]|] eqn:E; try done. intros H. exists q1.
  split; [done|]. cbn. by apply IH.
Qed.
End Histories.

Definition new_production_queue : Queue (MongoStorage MongoModel) (RedisCache RedisModel) AuditLog :=
  {| storage := new_mongo; cache := new_cache; auditor := []; metrics := [] |}.

Lemma production_in_step_witness :
  let q := queue_after busy_queue_history new_production_queue in
  runs busy_queue_history new_production_queue q /\
  redis_where_is (cache q) "q" "b" = Some PRIMARY_POOL /\
  mongo_stored (storage q) "q" "b" <> None /\ mongo_stored (storage q) "q" "a" = None.
Proof.
  intros q.
  assert (Hrun : runs busy_queue_history new_production_queue q).
  { apply runs_ok_runs. vm_compute. reflexivity. }
  assert (Hb : redis_where_is (cache q) "q" "b" = Some PRIMARY_POOL) by (vm_compute; reflexivity).
  destruct (production_in_step busy_queue_history new_production_queue q) as (_ & _ & Hs).
  - exact new_mongo_inv.
  - exact new_cache_inv.
  - intros qn i. split; intros _; [reflexivity|].
    destruct (decide (valid_queue qn)) as [Hv|Hv]; [|by apply where_is_invalid].
    apply where_is_None; [exact Hv|]. intros P [x Hx]. discriminate.
  - repeat (apply Forall_cons_2; [cbn; first [exact I|repeat split; (reflexivity || discriminate)]|]). apply Forall_nil_2.
  - exact Hrun.
  - split; [exact Hrun|]. split; [exact Hb|]. split.
    + intros Hn. apply (redis_in_step q "q" "b" Hs) in Hn. rewrite Hb in Hn. discriminate.
    + apply (redis_in_step q "q" "a" Hs). vm_compute. reflexivity.
Defined.

#[local] Existing Instance two_masters.

Definition new_cluster_queue : Queue (MongoStorage MongoModel) ModelCluster AuditLog :=
  {| storage := new_mongo; cache := new_cluster; auditor := []; metrics := [] |}.

Lemma cluster_in_step_witness :
  let q := queue_after busy_queue_history new_cluster_queue in
  runs busy_queue_history new_cluster_queue q /\
  cluster_where (cache q) "q" "b" = Some PRIMARY_POOL /\
  mongo_stored (storage q) "q" "b" <> None /\ mongo_stored (storage q) "q" "a" = None.
Proof.
  intros q.
  assert (Hrun : runs busy_queue_history new_cluster_queue q).
  { apply runs_ok_runs. vm_compute. reflexivity. }
  assert (Hb : cluster_where (cache q) "q" "b" = Some PRIMARY_POOL) by (vm_compute; reflexivity).
  destruct (cluster_in_step busy_queue_history new_cluster_queue q) as (_ & _ & Hs).
  - exact new_mongo_inv.
  - exact new_cluster_inv.
  - intros qn i. split; intros _; [reflexivity|]. apply new_cluster_empty.
  - repeat (apply Forall_cons_2; [cbn; first [exact I|repeat split; (reflexivity || discriminate)]|]). apply Forall_nil_2.
  - exact Hrun.
  - split; [exact Hrun|]. split; [exact Hb|]. split.
    + intros Hn. apply (cluster_queue_in_step q "q" "b" Hs) in Hn. rewrite Hb in Hn. discriminate.
    + apply (cluster_queue_in_step q "q" "a" Hs). vm_compute. reflexivity.
Defined.
