(* ===== verification/ProductionRecovery.v ===== *)
(** * The recovery of the cache, in production

    The recovery of [Recovery] over the MongoDB storage, whose internal ids
    are object ids in the order of their digits, and the Redis cache, of one
    node or of a cluster.  It refills the cache when the cache can name every
    queue stored, and never ends when it cannot. *)

From S2P Require Import Prelude GoStrings Float64 Dtime Utils Score Message Cache Fixtures Storage AuditTrail.
From S2P Require Import Metrics Queue QueueFacts QueueProps QueueHistory Housekeeper Recovery.
From S2P Require Import Mongo MongoModel MongoStorage MongoDocs MongoFacts MongoSpec MongoProps.
From S2P Require Import Redis RedisScripts RedisCluster RedisCache RedisKeys RedisEffects RedisFacts RedisProps.
From S2P Require Import RedisClusterProps Production.
#[local] Open Scope string_scope.
#[local] Open Scope list_scope.
#[local] Open Scope Z_scope.

(** ** Object ids *)

Lemma str_ltb_total s t : str_ltb s t = false -> str_ltb t s = false -> s = t.
Proof.
  unfold str_ltb. rewrite (String.compare_antisym t s).
  destruct (String.compare s t) eqn:E; [|done|done]. intros _ _. by apply String.compare_eq_iff.
Qed.

Section MongoSource.
Context {C : Type} {HO : MongoOps C} {HM : Mongo C} {HA : AnyCodec} {HB : BsonDecoder}.
Implicit Types s : MongoStorage C.

(** The digits of the object id of a message. *)
Definition oid_of (m : Message) : string :=
  match InternalId m with IdObjectID hex => hex | _ => "" end.

Lemma str_weak_order : weak_order str_ltb (fun _ => True).
Proof using Type.
  split; [intros x y _ _; apply str_ltb_asym|]. intros x y z _ _ _. apply str_nltb_trans.
Qed.

Lemma oid_not_a_key hex : oid_ok (C := C) hex -> hex <> "" /\ hex <> RECOVERY_FINISHED.
Proof using HM. intros H%mongo_ObjectIDFromHex. by split; intros ->. Qed.

#[export] Instance MongoStorage_ids : InternalIds (MongoStorage C) := {|
  Iid := string; iid_ltb := str_ltb; iid_of := oid_of; iid_text := fun hex => hex;
  iid_ok := oid_ok (C := C); iid_order := str_weak_order; iid_text_ok := oid_not_a_key
|}.

Abbreviation mongo_breakpoint := (option (Iid (MongoStorage C))).

(** The object ids tell the messages apart, as the index of the collection
    on [_id] enforces. *)
Definition oids_unique s : Prop := NoDup (oid_of <$> (read_message <$> messages s)).

(** The server answers the queries on the messages. *)
Definition answers_queries s : Prop :=
  forall coll filter args, exists ds, mongo_Find coll filter args (client s) = inl ds.

Lemma stored_oid m d : message_ok d -> m = read_message d ->
  InternalId m = IdObjectID (oid_of m) /\ oid_ok (C := C) (oid_of m) /\
  doc_get "_id" d = Some (BObjectID (oid_of m)).
Proof using Type.
  intros Hd ->. destruct (ok_oid d Hd) as (hex & E & Hhex). unfold oid_of. cbn. by rewrite E.
Qed.

(** A query with breakpoints that are object ids returns. *)
Lemma Find_answers_run opt s :
  mongo_inv s -> answers_queries s -> projection_ok (opt_projection opt) = true -> 0 <= opt_limit opt ->
  (exists filter, getMongoMessage (C := C) (opt_filter opt) = inl filter) ->
  exists ms, Find opt s = Ret (ms, None) /\ found_run opt s ms.
Proof using HM.
  intros Hs Hans Hp Hl (filter & Hf). destruct (mongo_Find_returns opt s Hl) as ([ms err] & E).
  pose proof (Find_cases opt s ms err Hs Hp Hl E) as Hr. destruct err as [e|]; [exfalso|by exists ms].
  destruct Hr as (_ & [Hr|[cause ->]]); [congruence|]. revert E. unfold Find.
  replace (opt_InternalFilter _) with (opt_filter opt) by (by destruct opt). rewrite Hf.
  destruct (Hans (if Retry (default no_find_options opt) then messagesCollectionPrimaryRead s else messagesCollection s)
    filter {|
      fa_Projection := getMongoProjection (Projection (default no_find_options opt));
      fa_Sort := getMongoSort (Sort (default no_find_options opt));
      fa_Limit := Limit (default no_find_options opt);
      fa_BatchSize := find_batch_size (Limit (default no_find_options opt));
      fa_Comment := Comment (default no_find_options opt) |}) as (ds & ->).
  case_if; [done|]. by destruct (decode_all _ ds).
Qed.

(** The documents found are in the order of their object ids. *)
Lemma sort_allows_oids (d : Z) found :
  Forall message_ok found -> d = 1 \/ d = -1 ->
  StronglySorted (sort_allows (getMongoSort (Some [("_id", d)]))) found ->
  StronglySorted (fun m m' => if d =? 1 then iid_le (S := MongoStorage C) m m' else iid_le (S := MongoStorage C) m' m)
    (read_message <$> found).
Proof using Type.
  intros Hok Hd Hs. induction Hs as [|x l Hl IH Hx]; [constructor|].
  apply Forall_cons in Hok as [Hx0 Hok]. rewrite fmap_cons. constructor; [by apply IH|].
  apply Forall_fmap, Forall_forall. intros y Hy. cbn. rewrite Forall_forall in Hx, Hok.
  destruct (stored_oid (read_message x) x Hx0 eq_refl) as (_ & _ & Ex).
  destruct (stored_oid (read_message y) y (Hok y Hy) eq_refl) as (_ & _ & Ey).
  specialize (Hx y Hy). unfold iid_le. cbn.
  destruct Hd as [->| ->]; cbn in Hx |- *; specialize (Hx _ _ Ex Ey); exact Hx.
Qed.

Lemma elem_of_messages s m :
  mongo_inv s -> m ∈ read_message <$> messages s <-> mongo_stored s (Message.Queue m) (ID m) = Some m.
Proof using Type.
  intros Hs. rewrite mongo_stored_Some, list_elem_of_fmap by done. split.
  - intros (d & -> & Hd). exists d. split; [done|].
    by apply (elem_of_coll doc_key message_ok) in Hd as [? _]; [|apply Hs].
  - intros (d & Hd & _ & -> & _). by exists d.
Qed.

Lemma stored_in_messages s q i m :
  mongo_inv s -> mongo_stored s q i = Some m -> m ∈ read_message <$> messages s.
Proof using Type.
  intros Hs (d & Hd & _ & -> & _)%mongo_stored_Some; [|done]. by apply list_elem_of_fmap_2.
Qed.

Lemma stored_message_oid s q i m : mongo_inv s -> mongo_stored s q i = Some m ->
  InternalId m = IdObjectID (oid_of m) /\ oid_ok (C := C) (oid_of m).
Proof using Type.
  intros Hs (d & _ & Hd & E & _)%mongo_stored_Some; [|done].
  by destruct (stored_oid m d Hd E) as (? & ? & _).
Qed.

Lemma NoDup_messages s : mongo_inv s -> NoDup (read_message <$> messages s).
Proof using Type.
  intros Hs. apply (NoDup_fmap_1 msg_key). rewrite <- list_fmap_compose. apply (inv_messages s Hs).
Qed.

(** The filter of a round selects the messages between two object ids. *)
Lemma round_breakpoints (b : mongo_breakpoint) r m :
  bp_valid b -> oid_ok (C := C) r -> InternalId m = IdObjectID (oid_of m) ->
  breakpoints_hold (C := C) (opt_InternalFilter (recovery_options (bp_text b) r)) m <->
  after_b b m = true /\ upto (S := MongoStorage C) r m.
Proof using HM.
  intros Hb Hr Hm. cbn. unfold after_breakpoint, upto_breakpoint, upto. rewrite Hm.
  assert (Hne : forall hex, oid_ok (C := C) hex -> hex <> "") by (intros hex Hhex; by apply oid_not_a_key).
  apply Morphisms_Prop.and_iff_morphism.
  - destruct b as [hex|]; cbn; [|by split; [|left]]. cbn in Hb. split.
    + intros [?|(o & h & Ho & [= <-] & ?)]; [by apply Hne in Hb|]. rewrite Hb in Ho. by injection Ho as <-.
    + intros ?. right. by exists hex, (oid_of m).
  - split.
    + intros [->|(o & h & Ho & [= <-] & ?)]; [by apply Hne in Hr|]. rewrite Hr in Ho. by injection Ho as <-.
    + intros ?. right. by exists r, (oid_of m).
Qed.

Lemma round_filter (b : mongo_breakpoint) r :
  bp_valid b -> oid_ok (C := C) r ->
  exists filter, getMongoMessage (C := C) (opt_InternalFilter (recovery_options (bp_text b) r)) = inl filter.
Proof using HM.
  intros Hb Hr. cbn. unfold id_condition. destruct b as [hex|]; cbn in *.
  - case_if; rewrite ?Hb; case_if; rewrite ?Hr; by eexists.
  - case_if; rewrite ?Hr; by eexists.
Qed.

(** The messages of the documents a filter finds. *)
Lemma found_messages f filter found s :
  mongo_inv s -> getMongoMessage (C := C) f = inl filter ->
  found ≡ₚ List.filter (matches filter) (messages s) ->
  Forall message_ok found /\ NoDup (read_message <$> found) /\
  forall m, m ∈ read_message <$> found <->
    mongo_stored s (Message.Queue m) (ID m) = Some m /\ filter_holds f m /\ breakpoints_hold (C := C) f m.
Proof using Type.
  intros Hs Hf Hp.
  assert (Hin : forall d, d ∈ found <-> d ∈ messages s /\ message_ok d /\ matches filter d = true).
  { intros d. rewrite Hp, elem_of_filter_iff. split; [|tauto]. intros [Hd Hm].
    by pose proof Hd as [Hok _]%(elem_of_coll doc_key message_ok); [|apply Hs]. }
  split; [|split].
  - apply Forall_forall. intros d Hd. by apply Hin in Hd as (_ & ? & _).
  - rewrite Hp. eapply sublist_NoDup; [exact (NoDup_messages s Hs)|apply fmap_sublist, filter_sublist].
  - intros m. rewrite list_elem_of_fmap. split.
    + intros (d & -> & (Hd & Hok & Hm)%Hin). apply (matches_message _ _ _ Hok Hf) in Hm. split; [|done].
      apply elem_of_messages; [done|]. by apply list_elem_of_fmap_2.
    + intros [(d & Hd & Hok & -> & _)%mongo_stored_Some Hm]; [|done]. exists d. split; [done|].
      apply Hin. split; [done|]. split; [done|]. by apply (matches_message _ _ _ Hok Hf).
Qed.

Lemma mongo_round env (b : mongo_breakpoint) r s :
  mongo_inv s -> answers_queries s -> bp_valid b -> oid_ok (C := C) r ->
  exists vs, Find (Some (recovery_options (bp_text b) r)) s = Ret (mongo_view recovery_projection <$> vs, None) /\
    batch (S := MongoStorage C) (mongo_stored s) (shown (MongoStorage C) env) b r vs.
Proof using HM.
  intros Hs Hans Hb Hr. set (opt := Some (recovery_options (bp_text b) r)).
  destruct (Find_answers_run opt s) as (ms & E & filter & found & Hf & Hfound & Hsort & ->);
    [done|done|by vm_compute|done|by apply round_filter|].
  destruct (found_messages _ _ _ _ Hs Hf Hfound) as (Hok & Hnd & Hin).
  apply (sort_allows_oids 1) in Hsort; [|done|by left]. cbn [Z.eqb Pos.eqb] in Hsort.
  destruct (find_limit_take (opt_limit opt) found ltac:(done)) as (n & Htake & _ & Hall).
  rewrite Htake in E. set (l := read_message <$> found) in *.
  assert (Et : read_message <$> take n found = take n l) by (unfold l; by rewrite fmap_take).
  exists (read_message <$> take n found). split; [exact E|]. rewrite Et.
  assert (Hsel : forall m, m ∈ l <-> mongo_stored s (Message.Queue m) (ID m) = Some m /\
    after_b b m = true /\ upto (S := MongoStorage C) r m).
  { intros m. rewrite Hin. split; intros [Hm Hx]; (split; [exact Hm|]);
      destruct (stored_message_oid s _ _ m Hs Hm) as [Ho _];
      pose proof (round_breakpoints b r m Hb Hr Ho) as Hbp; [apply Hbp, Hx|].
    split; [|by apply Hbp]. cbn. split; [by left|]. by split; [left|]. }
  split.
  - eapply sublist_NoDup; [exact Hnd|apply sublist_take].
  - intros m Hm. apply Hsel. eapply elem_of_sublist; [exact Hm|apply sublist_take].
  - intros q i m Hst _ Ha Hu Hnin.
    assert (Hml : m ∈ l).
    { apply Hsel. split; [|done]. apply elem_of_messages; [done|]. by eapply stored_in_messages. }
    destruct Hall as [Heq|[_ Hlen]]; [rewrite <- Et, Heq in Hnin; done|].
    split; [by rewrite <- Et, length_fmap|]. intros m' Hm'.
    eapply (StronglySorted_take_drop (iid_le (S := MongoStorage C))); [exact Hsort|exact Hm'|].
    rewrite <- (take_drop n l), elem_of_app in Hml. by destruct Hml.
  - by apply StronglySorted_take.
Qed.

Lemma mongo_last s :
  mongo_inv s -> answers_queries s ->
  exists vs, Find (Some last_options) s = Ret (mongo_view (Projection last_options) <$> vs, None) /\
    match vs with
    | [] => forall q i m, mongo_stored s q i <> Some m
    | m :: _ => mongo_stored s (Message.Queue m) (ID m) = Some m /\
        forall q i m', mongo_stored s q i = Some m' -> iid_le (S := MongoStorage C) m' m
    end.
Proof using HM.
  intros Hs Hans. set (opt := Some last_options).
  destruct (Find_answers_run opt s) as (ms & E & filter & found & Hf & Hfound & Hsort & ->);
    [done|done|by vm_compute|done|by eexists|].
  destruct (found_messages _ _ _ _ Hs Hf Hfound) as (Hok & _ & Hin).
  apply (sort_allows_oids (-1)) in Hsort; [|done|by right]. cbn [Z.eqb Pos.eqb] in Hsort.
  exists (read_message <$> find_limit (opt_limit opt) found). split; [exact E|].
  assert (Hall : forall q i m, mongo_stored s q i = Some m -> m ∈ read_message <$> found).
  { intros q i m Hm. apply Hin. split; [|done]. apply elem_of_messages; [done|]. by eapply stored_in_messages. }
  change (find_limit (opt_limit opt) found) with (take 1 found).
  destruct found as [|d found]; cbn [take fmap list_fmap].
  - intros q i m Hm%Hall. by apply elem_of_nil in Hm.
  - split; [apply Hin; apply list_elem_of_here|]. intros q i m' Hm%Hall.
    rewrite fmap_cons in Hm, Hsort. apply StronglySorted_inv in Hsort as [_ Hd].
    apply elem_of_cons in Hm as [->|Hm]; [apply iid_le_refl|]. rewrite Forall_forall in Hd. by apply Hd.
Qed.

Lemma NoDup_fmap_inj_on {X Y} (f : X -> Y) (l : list X) x y :
  NoDup (f <$> l) -> x ∈ l -> y ∈ l -> f x = f y -> x = y.
Proof using Type.
  intros Hnd (j & Hj)%list_elem_of_lookup (j' & Hj')%list_elem_of_lookup E.
  assert (j = j') as ->; [|congruence].
  eapply NoDup_lookup; [exact Hnd| |]; rewrite list_lookup_fmap; [by rewrite Hj|by rewrite Hj', E].
Qed.

#[export] Instance MongoStorage_source : RecoverySource (MongoStorage C).
Proof using HM.
  refine {|
    source_ok := fun s => oids_unique s /\ answers_queries s;
    stored_list := fun s => read_message <$> messages s
  |}.
  - intros s Hs. split; [exact (NoDup_messages s Hs)|]. intros m. exact (elem_of_messages s m Hs).
  - intros s q i m Hs _ Hm. exact (proj2 (stored_message_oid s q i m Hs Hm)).
  - intros s q i m q' i' m' Hs [Hu _] Hm Hm' Hle Hge.
    eapply NoDup_fmap_inj_on; [exact Hu|exact (stored_in_messages s q i m Hs Hm)|exact (stored_in_messages s q' i' m' Hs Hm')|].
    by apply str_ltb_total.
  - intros s q i m p Hs _ Hm Hp. destruct (stored_message_oid s q i m Hs Hm) as [Ho _].
    cbn. unfold GetStringInternalId. by destruct Hp as [->| ->]; cbn; rewrite Ho.
  - intros env b r s Hs [_ Hans] Hb Hr. by apply mongo_round.
  - intros env s Hs [_ Hans]. destruct (mongo_last s Hs Hans) as (vs & E & Hvs). exists vs.
    split; [exact E|]. destruct vs as [|m vs].
    + intros q i m Hm _. exact (Hvs q i m Hm).
    + destruct Hvs as [Hm Hmax]. split; [exact Hm|]. intros q i m' Hm' _. exact (Hmax q i m' Hm').
Defined.
End MongoSource.

(** ** The Redis cache *)

Section RedisSource.
Context {R : Type} {HO : RedisOps R} {HR : Redis R} {HG : Gopart}.

(** An insertion of messages with numbers as scores does not fail. *)
Lemma redis_Insert_ok q ms (c : RedisCache R) : redis_inv c -> valid_queue q ->
  Forall (fun m => Message.Queue m = q /\ not_nan m) ms ->
  exists c' ids, RedisCache.Insert q ms c = (c', (ids, None)).
Proof using HR.
  intros Hc Hq Hms. destruct (RedisCache.Insert q ms c) as [c' [ids err]] eqn:E. exists c', ids.
  destruct err as [err|]; [exfalso|done]. revert E. unfold RedisCache.Insert.
  rewrite (Hq : validateQueueName q = None). destruct (existsb _ ms) eqn:Ex.
  { apply existsb_exists in Ex as (m & Hm & Hne). rewrite <- list_elem_of_In in Hm.
    rewrite Forall_forall in Hms. apply negb_true_iff, String.eqb_neq in Hne. by destruct (Hms m Hm). }
  pose proof (Partition_size _ ms 2000 ltac:(lia)) as Hsize.
  pose proof (Partition_cover _ ms 2000 ltac:(lia)) as Hcover. intros E.
  apply insert_loop_moves in E as (_ & _ & _ & Hres); [|done|eapply Forall_impl; [exact Hsize|]; by intros p [_ ?]|done].
  cbv zeta in Hres. rewrite Hcover in Hres. destruct Hres as [_ Hn]. apply Hn.
  eapply Forall_impl; [exact Hms|]. by intros m [_ ?].
Qed.

#[export] Instance RedisCache_reliable : ReliableCache (RedisCache R).
Proof using HR.
  refine {| cache_name_ok := valid_queue |}.
  - intros env k c Hc. exact (Get_value k c Hc).
  - intros env k v c Hc. destruct (Set_moves k v c Hc) as (c' & E & _). by exists c'.
  - intros env q ms c Hc Hq Hms. exact (redis_Insert_ok q ms c Hc Hq Hms).
Defined.

Context {N : nat} {HT : Topology N}.

#[export] Instance ClusterCache_reliable : ReliableCache (ClusterCache R N).
Proof using HR.
  refine {| cache_name_ok := fun q => valid_queue q /\ q <> "" |}.
  - intros env k c Hc. exact (cluster_Get_value k c Hc).
  - intros env k v c Hc. destruct (cluster_Set_moves k v c Hc) as (c' & E & _). by exists c'.
  - intros env q ms c Hc [Hq Hne] Hms.
    destruct (redis_Insert_ok q ms (node c (slot_master (key_slot q))) (cluster_nodes c Hc _) Hq Hms) as (d & ids & E).
    exists (with_node c (slot_master (key_slot q)) d), ids.
    cbn. rewrite cluster_Insert_node by (apply Hc || done). unfold on_master. by rewrite E.
Defined.

(** A name with braces is refused by both. *)
Lemma redis_refuses q : ~ valid_queue q -> refuses (C := RedisCache R) q.
Proof using Type.
  intros Hq env ms c _. cbn. unfold RedisCache.Insert. rewrite validate_invalid by done. by do 3 eexists.
Qed.

Lemma cluster_refuses q : ~ valid_queue q -> refuses (C := ClusterCache R N) q.
Proof using Type.
  intros Hq env ms c _. cbn. unfold RedisCluster.Insert. rewrite validate_invalid by done. by do 3 eexists.
Qed.
End RedisSource.

(** ** The recovery over MongoDB *)

Section MongoRecovery.
Context {C : Type} {HO : MongoOps C} {HM : Mongo C} {HA : AnyCodec} {HB : BsonDecoder}.
Context {K : Type} `{HRC : ReliableCache K}.

Abbreviation Q := (Queue (MongoStorage C) K AuditLog).

Lemma clamp_not_nan m : not_nan m -> not_nan (clamp_score (mongo_view recovery_projection m)).
Proof using Type.
  intros Hm. unfold clamp_score. case_if; [by vm_compute|]. case_if; [by vm_compute|]. exact Hm.
Qed.

Lemma mongo_recovery_reaches envs (q : Q) :
  mongo_inv (storage q) -> cache_inv (cache q) ->
  oids_unique (storage q) -> answers_queries (storage q) -> insertable (C := K) (storage q) -> backed q ->
  key q RECOVERY_STORAGE_BREAKPOINT_KEY = "" /\ key q RECOVERY_RUNNING <> "true" ->
  Z.of_nat (length (messages (storage q))) < recovery_batch * Z.of_nat (length envs) ->
  exists q', run_recovery envs q = Ret q' /\ storage q' = storage q /\ finished q' /\
    cache_inv (cache q') /\ in_step q'.
Proof using HM HRC.
  intros Hs Hc Hu Hans Hins Hb Hfresh Hn.
  destruct (recovery_reaches envs q) as (q' & Hrun & Hst & Hf & Hag); try done.
  - clear. induction envs; constructor; [done|]. apply Forall_true. intros e m _ Hh. discriminate Hh.
  - cbn. by rewrite length_fmap.
  - exists q'. apply agree_in_step in Hag as [[_ ?] ?]. by split_and!.
Qed.
End MongoRecovery.

Section Production.
Context {C : Type} {HO : MongoOps C} {HM : Mongo C} {HA : AnyCodec} {HB : BsonDecoder}.
Context {R : Type} {HRO : RedisOps R} {HR : Redis R} {HG : Gopart}.

Abbreviation ProductionQueue := (Queue (MongoStorage C) (RedisCache R) AuditLog).

(** The cache can name every queue stored, and every score is a number. *)
Definition cacheable (s : MongoStorage C) : Prop := forall qn i m,
  mongo_stored s qn i = Some m -> valid_queue qn /\ not_nan m.

(** C11. In production, with the MongoDB storage and the Redis cache, the
    recovery refills the cache and ends.  Start from a queue whose cache has no
    recovery state (a new or flushed Redis) and holds stored messages only,
    where every stored queue name is one the cache accepts and every score is
    a number, and the server answers the queries; run the task as many times
    as there are batches of 4000 messages, and once more when the last batch
    is full.  No call fails, the storage is unchanged, the recovery is marked
    as finished, and a message is in a pool of the cache exactly when it is
    stored. *)
Theorem production_recovery_completes (envs : list Env) (q : ProductionQueue)
    (Hstorage : mongo_inv (storage q)) (Hcache : redis_inv (cache q))
    (Hids : oids_unique (storage q)) (Hserver : answers_queries (storage q))
    (Hnames : cacheable (storage q)) (Hbacked : backed q)
    (Hfresh : key q RECOVERY_STORAGE_BREAKPOINT_KEY = "" /\ key q RECOVERY_RUNNING <> "true")
    (Hrounds : Z.of_nat (length (messages (storage q))) < recovery_batch * Z.of_nat (length envs)) :
  exists q', run_recovery envs q = Ret q' /\ storage q' = storage q /\ finished q' /\
    redis_inv (cache q') /\ in_step q'.
Proof using HM HR.
  apply (mongo_recovery_reaches (HRC := RedisCache_reliable) envs q); try done.
  intros qn i m Hm. destruct (Hnames qn i m Hm) as [Hq Hs]. split; [exact Hq|]. exact (clamp_not_nan m Hs).
Qed.

(** A stored message whose queue has braces in its name blocks the recovery:
    the storage takes it ([Insert] only checks that the name is not empty), and
    the cache refuses it and with it the batch it is in.  However often the
    task runs, the recovery is never marked as finished, and while it runs no
    message that has expired or exceeds a limit is removed. *)
Theorem recovery_blocked (envs : list Env) (q : ProductionQueue) qn i m
    (Hstorage : mongo_inv (storage q)) (Hcache : redis_inv (cache q))
    (Hids : oids_unique (storage q)) (Hserver : answers_queries (storage q))
    (Hstored : mongo_stored (storage q) qn i = Some m) (Hname : ~ valid_queue qn)
    (Hfresh : key q RECOVERY_STORAGE_BREAKPOINT_KEY = "" /\ key q RECOVERY_RUNNING <> "true")
    (Hruns : envs <> []) :
  exists q', run_recovery envs q = Ret q' /\ storage q' = storage q /\
    key q' RECOVERY_STORAGE_BREAKPOINT_KEY <> RECOVERY_FINISHED /\ key q' RECOVERY_RUNNING = "true" /\
    (forall env ongoing date, RemoveTTLMessages env ongoing date q' = Ret (q', (false, None))) /\
    (forall env ongoing, RemoveExceedingMessages env ongoing q' = Ret (q', (false, None))).
Proof using HM HR.
  destruct (recovery_stuck (HRS := MongoStorage_source) (HRC := RedisCache_reliable) (storage q) qn i m Hstorage (conj Hids Hserver) Hstored
    (redis_refuses qn Hname) envs q) as (q' & b & r & Hrun & Hst); try done; [|apply Hfresh..|].
  { apply Forall_true. intros env Hh. discriminate Hh. }
  exists q'. pose proof (stuck_no_removal _ _ _ _ _ Hst). pose proof Hst as [E _ Hrunning _ _ Hk [Hb _]].
  split_and!; try done; [|apply H..]. rewrite Hk. by apply bp_text_ok.
Qed.
End Production.

Section Cluster.
Context {C : Type} {HO : MongoOps C} {HM : Mongo C} {HA : AnyCodec} {HB : BsonDecoder}.
Context {R : Type} {HRO : RedisOps R} {HR : Redis R} {HG : Gopart} {N : nat} {HT : Topology N}.

(** The same with a Redis cluster. *)
Theorem cluster_recovery_completes (envs : list Env) (q : Queue (MongoStorage C) (ClusterCache R N) AuditLog)
    (Hstorage : mongo_inv (storage q)) (Hcache : cluster_inv (cache q))
    (Hids : oids_unique (storage q)) (Hserver : answers_queries (storage q))
    (Hnames : cacheable (storage q)) (Hbacked : backed q)
    (Hfresh : key q RECOVERY_STORAGE_BREAKPOINT_KEY = "" /\ key q RECOVERY_RUNNING <> "true")
    (Hrounds : Z.of_nat (length (messages (storage q))) < recovery_batch * Z.of_nat (length envs)) :
  exists q', run_recovery envs q = Ret q' /\ storage q' = storage q /\ finished q' /\
    cluster_inv (cache q') /\ in_step q'.
Proof using HM HR.
  apply (mongo_recovery_reaches (HRC := ClusterCache_reliable) envs q); try done.
  intros qn i m Hm. destruct (Hnames qn i m Hm) as [Hq Hs]. split; [split; [exact Hq|]|exact (clamp_not_nan m Hs)].
  by destruct (spec_stored_key (StorageSpec := MongoStorage_spec) _ _ _ _ Hstorage Hm) as (_ & _ & ? & _).
Qed.
End Cluster.

(** ** Witnesses, on the model servers *)

#[local] Existing Instances model_codec model_decoder chunks.

Lemma model_answers (s : MongoStorage MongoModel) : down (client s) = false -> answers_queries s.
Proof. intros Hd coll filter args. cbn. rewrite Hd. by eexists. Qed.

(** The object ids of the documents, to compare them in one computation. *)
Lemma oids_unique_decide (s : MongoStorage MongoModel) :
  bool_decide (NoDup (oid_of <$> (read_message <$> messages s))) = true -> oids_unique s.
Proof. apply bool_decide_eq_true. Qed.

(** A storage and an empty Redis, as after it was flushed. *)
Definition with_empty_cache (s : MongoStorage MongoModel) :
    Queue (MongoStorage MongoModel) (RedisCache RedisModel) AuditLog :=
  {| storage := s; cache := new_cache; auditor := []; metrics := [] |}.

Lemma with_empty_cache_backed s : backed (with_empty_cache s).
Proof.
  intros qn i Hn. exfalso. apply Hn. change (redis_where_is new_cache qn i = None).
  destruct (decide (valid_queue qn)) as [Hv|Hv]; [|by apply where_is_invalid].
  apply where_is_None; [exact Hv|]. intros P [x Hx]. discriminate.
Qed.

Lemma production_recovery_completes_witness :
  exists q', run_recovery [at_ms 2000] (with_empty_cache ab_mongo) = Ret q' /\ finished q' /\ in_step q' /\
    redis_where_is (cache q') "q" "a" <> None /\ redis_where_is (cache q') "q" "b" <> None.
Proof.
  destruct (production_recovery_completes [at_ms 2000] (with_empty_cache ab_mongo))
    as (q' & Hrun & Hst & Hf & _ & Hin).
  - exact ab_mongo_inv.
  - exact new_cache_inv.
  - apply oids_unique_decide. vm_compute. reflexivity.
  - apply model_answers. vm_compute. reflexivity.
  - intros qn i m Hm. apply stored_in_messages in Hm as Hin; [|exact ab_mongo_inv].
    apply mongo_stored_Some in Hm as (d & _ & _ & _ & [= <- <-]); [|exact ab_mongo_inv].
    revert m Hin. apply Forall_forall. vm_compute. repeat constructor.
  - apply with_empty_cache_backed.
  - split; [reflexivity|]. vm_compute. discriminate.
  - vm_compute. reflexivity.
  - exists q'. split; [exact Hrun|]. split; [exact Hf|]. split; [exact Hin|].
    split; intros Hn.
    + apply (redis_in_step q' "q" "a" Hin) in Hn. rewrite Hst in Hn. revert Hn. vm_compute. discriminate.
    + apply (redis_in_step q' "q" "b" Hin) in Hn. rewrite Hst in Hn. revert Hn. vm_compute. discriminate.
Defined.

(** A message of the queue [a{b], accepted by the storage. *)
Definition braces_mongo : MongoStorage MongoModel :=
  (MongoStorage.Insert (at_ms 1000) [msg "a{b" "c" 5 0] ab_mongo).1.

Lemma braces_mongo_insert :
  MongoStorage.Insert (at_ms 1000) [msg "a{b" "c" 5 0] ab_mongo = (braces_mongo, ((1, 0), None)).
Proof. vm_compute. reflexivity. Qed.

Lemma braces_mongo_inv : mongo_inv braces_mongo.
Proof. by pose proof (Insert_inserts _ _ _ _ _ ab_mongo_inv braces_mongo_insert) as (? & _). Qed.

Lemma recovery_blocked_witness :
  exists q', run_recovery [at_ms 2000; at_ms 3000; at_ms 4000] (with_empty_cache braces_mongo) = Ret q' /\
    key q' RECOVERY_RUNNING = "true" /\ key q' RECOVERY_STORAGE_BREAKPOINT_KEY <> RECOVERY_FINISHED.
Proof.
  destruct (mongo_stored braces_mongo "a{b" "c") as [m|] eqn:Em; [|vm_compute in Em; discriminate].
  destruct (recovery_blocked [at_ms 2000; at_ms 3000; at_ms 4000] (with_empty_cache braces_mongo) "a{b" "c" m)
    as (q' & Hrun & _ & Hk & Hr & _).
  - exact braces_mongo_inv.
  - exact new_cache_inv.
  - apply oids_unique_decide. vm_compute. reflexivity.
  - apply model_answers. vm_compute. reflexivity.
  - exact Em.
  - vm_compute. discriminate.
  - split; [reflexivity|]. vm_compute. discriminate.
  - discriminate.
  - exists q'. split; [exact Hrun|]. by split.
Defined.
