(* ===== verification/Interleaving.v ===== *)
(** * Operations that run at the same time

    The server runs each request in a goroutine of its own, and the
    housekeeper runs beside them; the storage and the cache are shared, and
    nothing orders the calls of different operations ([internal/queue/queue.go]
    takes no lock).  An operation is therefore a thread: a sequence of steps,
    each of which is one call of the storage or of the cache with the records
    made after it, and a run is any interleaving of the steps of the threads.
    A call is one step: a method of the memory cache holds its lock while it
    runs, a script of Redis runs alone, and [Linearizability.v] shows it of the
    methods of the memory storage (an insertion, which is two steps for each
    message, is taken as one here).

    A thread that runs alone is the operation of Queue.v. *)

From S2P Require Import Prelude Float64 Dtime Utils Score Message Cache Storage AuditTrail Queue.
From S2P Require Import QueueFacts QueueProps QueueHistory.
#[local] Open Scope string_scope.
#[local] Open Scope list_scope.
#[local] Open Scope Z_scope.

(** ** Threads *)

(** How far an operation has come: the call it makes next, with the values it
    has at hand.  [Begin] is the first call of any operation. *)
Inductive Phase :=
  | Begin
  | CacheInsert (members : list (string * list Message))
  | FindFirst (ids : list string)
  | FindAgain (messages : list Message) (notFound : list string)
  | Forget (messages retryMessages : list Message) (retryNotFound : list string)
  | Release
  | CacheRemove (storageCount : Z)
  | StorageFlush
  | Done (err : option error).

Section Threads.
Context {S C A : Type} `{HSt : Storage S} `{HCa : Cache C} `{HAu : Auditor A}.
Abbreviation Q := (Queue S C A).

(** The end of an operation, with its error. *)
Definition done_with {R} (m : Comp Q (result R)) : Comp Q Phase := r ← m; mret (Done r.2).

Definition add_step (env : Env) (messages : list Message) (ph : Phase) : Comp Q Phase :=
  match ph with
  | Begin =>
      r ← AddMessagesToStorage env messages;
      match r.2 with
      | Some err => mret (Done (Some err))
      | None => mret (CacheInsert (map_range (env_order env) (membersByQueue messages)))
      end
  | CacheInsert ((queueName, elements) :: l') =>
      r ← on_cache (cache_Insert env queueName elements);
      match r with
      | (_, Some err) => mret (Done (Some (WrapError "error inserting cache data" err)))
      | (insertions, None) =>
          _ ← for_each (fun i => audit env (entry i queueName INSERT_CACHE "")) insertions;
          mret (CacheInsert l')
      end
  | CacheInsert [] => mret (Done None)
  | _ => mret ph
  end.

Definition pull_step (env : Env) (queue : string) (n : Z) (minScore maxScore : option float64)
    (ackDeadlineMs : Z) (ph : Phase) : Comp Q Phase :=
  match ph with
  | Begin =>
      r ← on_cache_o (cache_PullMessages env queue n minScore maxScore ackDeadlineMs);
      match r with
      | (_, Some err) => mret (Done (Some err))
      | (ids, None) =>
          if Nat.eqb (length ids) 0 then
            _ ← metric_Add "deckard_messages_empty_queue" 1 [("queue", GetQueuePrefix queue)];
            mret (Done None)
          else mret (FindFirst ids)
      end
  | FindFirst ids =>
      r ← getFromStorage env ids queue [("score", 1)] false;
      match r with
      | (_, _, Some err) => mret (Done (Some err))
      | (messages, notFound, None) =>
          if Nat.eqb (length notFound) 0 then mret (Done None) else mret (FindAgain messages notFound)
      end
  | FindAgain messages notFound =>
      r ← getFromStorage env notFound queue [("score", 1)] true;
      match r with
      | (_, _, Some err) => mret (Done (Some err))
      | (retryMessages, retryNotFound, None) =>
          if Nat.ltb 0 (length retryNotFound) then
            _ ← metric_Add "deckard_messages_not_found_in_storage" (Z.of_nat (length notFound))
                  [("queue", GetQueuePrefix queue)];
            _ ← for_each (fun i => audit env (entry i queue MISSING_STORAGE "")) retryNotFound;
            mret (Forget messages retryMessages retryNotFound)
          else done_with (pull_finish env queue messages retryMessages)
      end
  | Forget messages retryMessages retryNotFound =>
      _ ← on_cache (cache_Remove env queue retryNotFound);
      done_with (pull_finish env queue messages retryMessages)
  | _ => mret ph
  end.

(** The last call of an ack or a nack. *)
Definition release_call (t : LockType) (env : Env) (msg : Message) : Comp Q (result bool) :=
  if 0 <? LockMs msg then on_cache (cache_LockMessage env msg t)
  else on_cache (cache_MakeAvailable env msg).

(** The lock time an audit entry carries. *)
Definition audited_lock (msg : Message) : Z := if 0 <? LockMs msg then LockMs msg else 0.

Definition answer_step (t : LockType) (env : Env) (msg : Message) (reason : string) (ph : Phase) :
    Comp Q Phase :=
  match ph with
  | Begin =>
      if String.eqb (Message.Queue msg) "" then
        mret (Done (Some (ErrorString "message has a invalid queue")))
      else if String.eqb (ID msg) "" then
        mret (Done (Some (ErrorString "message has a invalid ID")))
      else
        r ← on_storage (match t with
                        | LOCK_ACK => storage_Ack env msg
                        | LOCK_NACK => storage_Nack env msg
                        end);
        match r with
        | (_, Some err) => mret (Done (Some err))
        | (_, None) =>
            _ ← (match t with
                 | LOCK_ACK => metric_Add "deckard_ack" 1
                     [("queue", GetQueuePrefix (Message.Queue msg)); ("reason", reason)]
                 | LOCK_NACK => mret tt
                 end);
            mret Release
        end
  | Release =>
      r ← release_call t env msg;
      let metric := match t with
        | LOCK_ACK => mret tt
        | LOCK_NACK => metric_Add "deckard_nack" 1
            [("queue", GetQueuePrefix (Message.Queue msg)); ("reason", reason)]
        end in
      match r with
      | (_, Some err) => _ ← metric; mret (Done (Some err))
      | (_, None) =>
          _ ← audit env (message_entry msg (match t with LOCK_ACK => ACK | LOCK_NACK => NACK end)
                           reason (audited_lock msg));
          _ ← metric;
          mret (Done None)
      end
  | _ => mret ph
  end.

Definition remove_step (env : Env) (queue reason : string) (ids : list string) (ph : Phase) :
    Comp Q Phase :=
  match ph with
  | Begin =>
      r ← on_storage (storage_Remove env queue ids);
      match r with
      | (_, Some err) => mret (Done (Some err))
      | (storageCount, None) => mret (CacheRemove storageCount)
      end
  | CacheRemove storageCount =>
      r ← on_cache (cache_Remove env queue ids);
      match r with
      | (_, Some err) => mret (Done (Some err))
      | (cacheCount, None) =>
          _ ← for_each (fun i => audit env (entry i queue REMOVE reason)) ids;
          mret (Done None)
      end
  | _ => mret ph
  end.

Definition flush_step (env : Env) (ph : Phase) : Comp Q Phase :=
  match ph with
  | Begin => _ ← on_cache (fun c => (cache_Flush env c, tt)); mret StorageFlush
  | StorageFlush => r ← on_storage (storage_Flush env); mret (Done r.2)
  | _ => mret ph
  end.

(** One step of an operation. *)
Definition thread_step (env : Env) (op : queue_op) (ph : Phase) : Comp Q Phase :=
  match op with
  | QAdd messages => add_step env messages ph
  | QPull queue n mn mx dl => pull_step env queue n mn mx dl ph
  | QAnswer t m reason => answer_step t env m reason ph
  | QTimeout queue => match ph with Begin => done_with (TimeoutMessages env queue) | _ => mret ph end
  | QUnlock queue t =>
      match ph with Begin => done_with (on_cache (cache_UnlockMessages env queue t)) | _ => mret ph end
  | QRemove queue reason ids => remove_step env queue reason ids ph
  | QFlush => flush_step env ph
  end.

(** ** Runs *)

(** The threads with the storage and the cache they share. *)
Record World := { shared : Q; threads : list (queue_op * Phase) }.

(** A step of the [i]-th thread; a thread that is done makes none. *)
Definition world_step (env : Env) (i : nat) (w : World) : outcome World :=
  match threads w !! i with
  | None => Ret w
  | Some (op, ph) =>
      obind (thread_step env op ph (shared w)) (fun '(q', ph') =>
        Ret {| shared := q'; threads := <[i := (op, ph')]> (threads w) |})
  end.

(** The threads take their steps in any order: a schedule names the thread of
    each step, with the environment the step runs in. *)
Fixpoint run_schedule (schedule : list (Env * nat)) (w : World) : outcome World :=
  match schedule with
  | [] => Ret w
  | (env, i) :: schedule' => obind (world_step env i w) (run_schedule schedule')
  end.

(** The threads of a list of operations, none of which has begun. *)
Definition started (ops : list queue_op) (q : Q) : World :=
  {| shared := q; threads := map (fun op => (op, Begin)) ops |}.

(** A thread by itself. *)
Fixpoint run_thread (n : nat) (env : Env) (op : queue_op) (ph : Phase) : Comp Q Phase :=
  match n with
  | O => mret ph
  | Datatypes.S n' => ph' ← thread_step env op ph; run_thread n' env op ph'
  end.

(** The steps an operation takes at most: an addition makes a call for each
    queue of its messages. *)
Definition steps_left (op : queue_op) (ph : Phase) : nat :=
  match op, ph with
  | _, Done _ => 0
  | QAdd messages, Begin => 2 + size (membersByQueue messages)
  | QAdd _, CacheInsert l => 1 + length l
  | QPull _ _ _ _ _, Begin => 4
  | QPull _ _ _ _ _, FindFirst _ => 3
  | QPull _ _ _ _ _, FindAgain _ _ => 2
  | QPull _ _ _ _ _, Forget _ _ _ => 1
  | QAnswer _ _ _, Begin | QRemove _ _ _, Begin | QFlush, Begin => 2
  | QTimeout _, Begin | QUnlock _ _, Begin => 1
  | QAnswer _ _ _, Release | QRemove _ _ _, CacheRemove _ | QFlush, StorageFlush => 1
  | _, _ => 0
  end%nat.
End Threads.
Arguments World : clear implicits.

(** ** A thread by itself is the operation *)

Section Alone.
Context {S C A : Type} {HSt : Storage S} {HCa : Cache C} {HAu : Auditor A}.
Abbreviation Q := (Queue S C A).
Implicit Types q : Q.

(** The end of a computation that gives an error. *)
Definition ends (o : outcome (Q * option error)) : outcome (Q * Phase) :=
  obind o (fun '(q, err) => Ret (q, Done err)).

Lemma run_done n env op err q : run_thread n env op (Done err) q = Ret (q, Done err).
Proof.
  induction n as [|n IH]; [done|]. cbn [run_thread].
  rewrite (bind_eq _ _ q q (Done err)); [apply IH|]. by destruct op.
Qed.

Lemma run_step n env op ph q :
  run_thread (Datatypes.S n) env op ph q =
  obind (thread_step env op ph q) (fun '(q', ph') => run_thread n env op ph' q').
Proof. done. Qed.

Lemma run_add_members n env messages l : forall count q,
  (length l < n)%nat ->
  run_thread n env (QAdd messages) (CacheInsert l) q =
  ends (obind (add_members env "" l count q) (fun '(q', r) => Ret (q', r.2))).
Proof.
  revert n. induction l as [|[queueName elements] l IH]; intros n count q Hn; destruct n as [|n]; try (cbn in Hn; lia).
  { rewrite run_step. cbn. apply run_done. }
  rewrite run_step. cbn [thread_step add_step add_members]. unfold mbind, Comp_bind.
  destruct (on_cache (cache_Insert env queueName elements) q) as [[q1 [ins [err|]]]|]; cbn [obind]; [apply run_done| |done].
  destruct (for_each _ ins q1) as [[q2 []]|]; cbn [obind]; [|done].
  apply IH. cbn in Hn. lia.
Qed.

Lemma bind_run {St R R'} (m : Comp St R) (k : R -> Comp St R') s :
  mbind k m s = obind (m s) (fun '(s', a) => k a s').
Proof. done. Qed.

Lemma ret_run {St R} (a : R) (s : St) : (mret a : Comp St R) s = Ret (s, a).
Proof. done. Qed.

Ltac next n := destruct n as [|n]; [cbn in *; lia|rewrite run_step].

Ltac is_call m :=
  lazymatch m with
  | on_storage _ => idtac | on_cache _ => idtac | on_cache_o _ => idtac
  | getFromStorage _ _ _ _ _ => idtac | metric_Add _ _ _ => idtac | audit _ _ => idtac
  | for_each _ _ => idtac | TimeoutMessages _ _ => idtac
  | pull_finish _ _ _ _ => idtac | cache_PullMessages _ _ _ _ _ _ => idtac
  end.

(** Runs the two sides of the equation together, call by call. *)
Ltac alone :=
  repeat first
    [ progress unfold done_with, release_call, audited_lock
    | progress rewrite ?bind_run, ?ret_run
    | progress cbn [obind fst snd ends]
    | rewrite run_done
    | match goal with E : (0 <? _) = _ |- _ => rewrite E end
    | match goal with
      | n : nat |- context [run_thread ?n _ _ _ _] => is_var n; destruct n as [|n]; [cbn in *; lia|rewrite run_step; cbn [thread_step add_step pull_step answer_step remove_step flush_step]]
      | |- context [obind (?m ?q) _] => is_var q; is_call m; destruct (m q) as [[? ?]|]
      | |- context [match ?b with true => _ | false => _ end] => destruct b
      | r : _ * _ |- _ => destruct r
      | r : result _ |- _ => destruct r
      | r : option error |- _ => destruct r
      end ].


Lemma length_members env ms : length (map_range (env_order env) (membersByQueue ms)) = size (membersByQueue ms).
Proof. apply length_map_range. Qed.

(** An operation is its thread run alone: after at most [steps_left op
    Begin] steps it is done, in the state and with the error of the operation
    of the queue, with the same records in the audit trail and the same
    counters; and it panics when the operation does. *)
Lemma thread_alone n env op q
    (Hn : (steps_left op Begin <= n)%nat) :
  run_thread n env op Begin q = ends (run_queue_op env op q).
Proof.
  destruct op as [messages| qn k mn mx dl|t m reason|qn|qn t|qn reason ids|]; cbn [run_queue_op steps_left] in *.
  - next n. cbn [thread_step add_step]. rewrite !bind_run.
    destruct (AddMessagesToStorage env messages q) as [[q1 [r [err|]]]|]; cbn; [apply run_done| |done].
    unfold mret, Comp_ret. cbn [obind].
    rewrite (run_add_members _ _ _ _ 0) by (rewrite length_members; lia). reflexivity.
  - unfold Pull, pull_retry. alone; reflexivity.
  - unfold answer, Ack, Nack. destruct (0 <? LockMs m) eqn:El, t; alone; reflexivity.
  - alone; reflexivity.
  - alone; reflexivity.
  - unfold Remove. alone; reflexivity.
  - unfold Flush. alone; reflexivity.
Qed.
End Alone.

