(* ===== verification/InterleavingFacts.v ===== *)
(** * Facts on operations that run at the same time

    What one step of a thread does to the messages stored and cached
    ([step_does]), from the contracts of the storage and of the cache, and
    the two invariants of the runs: [safe], by which the live messages are in
    the cache or accounted for, and [justified], by which the messages of the
    cache are stored. *)

From S2P Require Import Prelude Float64 Dtime Utils Score Message Cache Storage StorageErrors AuditTrail.
From S2P Require Import Queue QueueFacts QueueProps QueueHistory Interleaving.
#[local] Open Scope string_scope.
#[local] Open Scope list_scope.
#[local] Open Scope Z_scope.

Lemma moved_keeps (w : string -> string -> option PoolType) queue ids p w' :
  moved w queue ids (Some p) w' -> forall qn i, w qn i <> None -> w' qn i <> None.
Proof. intros Hm qn i Hw. rewrite Hm. by case_decide. Qed.

Lemma added_cons queueName els l qn i :
  added ((queueName, els) :: l) qn i <-> queueName = qn /\ i ∈ ID <$> els \/ added l qn i.
Proof.
  unfold added. split.
  - intros (e & [[= <- <-]|Hin]%elem_of_cons & Hi); [by left|right; by exists e].
  - intros [[<- Hi]|(e & Hin & Hi)]; [exists els|exists e]; set_solver.
Qed.

(** Follows a computation that returned to its end. *)
Ltac to_the_end H :=
  repeat first
    [ progress unfold done_with in H
    | match type of H with
      | mbind _ _ _ = Ret _ => apply bind_Ret in H as (? & ? & _ & H)
      | mret _ _ = Ret _ => apply ret_Ret in H; simplify_eq
      | context [match ?x with _ => _ end] => destruct x
      end ].

Section Interleaving.
Context {S C A : Type} `{HSR : StorageRobust S} `{HCS : CacheSpec C} `{HA : Auditor A}.
Abbreviation Q := (Queue S C A).
Abbreviation Thread := (queue_op * Phase)%type.
Implicit Types q : Q.
Implicit Types th : Thread.

(** ** What a thread is about to do *)

(** The thread has stored the message and has yet to put it in the cache. *)
Definition pending th (qn i : string) : Prop :=
  match th with (QAdd _, CacheInsert l) => added l qn i | _ => False end.

(** The thread has found the message gone and has yet to take it out of the
    cache: a removal after its first call, or a pull whose queries found no
    message. *)
Definition forgetting th (qn i : string) : Prop :=
  match th with
  | (QPull queue _ _ _ _, Forget _ _ ids) => queue = qn /\ i ∈ ids
  | (QRemove queue _ ids, CacheRemove _) => queue = qn /\ i ∈ ids
  | _ => False
  end.

(** The thread is an addition of the message that ended with an error. *)
Definition add_failed th (qn i : string) : Prop :=
  match th with (QAdd ms, Done (Some _)) => (qn, i) ∈ msg_key <$> ms | _ => False end.

(** The thread is a removal of the message that ended with an error. *)
Definition remove_failed th (qn i : string) : Prop :=
  match th with (QRemove queue _ ids, Done (Some _)) => queue = qn /\ i ∈ ids | _ => False end.

(** The thread is a removal of the message that has yet to take it out of the
    cache. *)
Definition removing th (qn i : string) : Prop :=
  match th with (QRemove queue _ ids, CacheRemove _) => queue = qn /\ i ∈ ids | _ => False end.

(** The thread is a flush that has emptied the cache and not the storage. *)
Definition flush_open th : Prop :=
  match th with (QFlush, StorageFlush) | (QFlush, Done (Some _)) => True | _ => False end.

(** The arguments of an operation are ones its calls handle: the names of the
    queues, the scores the cache can keep, the sizes of the pulls. *)
Definition op_ok (op : queue_op) : Prop :=
  match op with
  | QAdd ms => Forall (fun m => queue_name_ok (Message.Queue m) /\ cache_msg_ok (C := C) m) ms
  | QPull queue n _ _ _ => queue <> "" /\ cache_pull_ok (C := C) n
  | QAnswer _ m _ => queue_name_ok (Message.Queue m) /\ cache_msg_ok (C := C) m
  | _ => True
  end.

(** The values a thread has at hand. *)
Definition thread_ok th : Prop :=
  op_ok th.1 /\
  match th with
  | (QAdd ms, CacheInsert l) =>
      (forall qn i, added l qn i -> (qn, i) ∈ msg_key <$> ms) /\ Forall (fun x => Forall cache_msg_ok x.2) l
  | (QPull _ _ _ _ _, FindFirst ids) => NoDup ids /\ ids <> []
  | (QPull _ _ _ _ _, FindAgain _ nf) => NoDup nf /\ nf <> []
  | _ => True
  end.

(** ** One step *)

(** What a step of a thread does to the messages stored and cached. *)
Record step_does (env : Env) (op : queue_op) (ph : Phase) q (ph' : Phase) q' : Prop := {
  sd_inv : queue_inv q';
  sd_thread : thread_ok (op, ph');
  (** only the first call of an addition makes a message live *)
  sd_live : forall qn i m, live env (storage q') qn i m ->
    (exists m0, live env (storage q) qn i m0) \/
    (exists ms, op = QAdd ms /\ ph = Begin /\ (qn, i) ∈ msg_key <$> ms);
  (** ... and it will put it in the cache, unless it fails *)
  sd_added : forall ms qn i, op = QAdd ms -> ph = Begin -> (qn, i) ∈ msg_key <$> ms ->
    pending (op, ph') qn i \/ add_failed (op, ph') qn i;
  (** a message leaves the cache when it is forgotten or by a flush *)
  sd_cached : forall qn i, where_is (cache q) qn i <> None -> where_is (cache q') qn i = None ->
    forgetting (op, ph) qn i \/ flush_open (op, ph');
  (** a message stays pending until it is in the cache or the addition fails *)
  sd_pending : forall qn i, pending (op, ph) qn i ->
    pending (op, ph') qn i \/ where_is (cache q') qn i <> None \/ add_failed (op, ph') qn i;
  (** only messages that are not live come to be forgotten *)
  sd_forgetting : forall qn i m, forgetting (op, ph') qn i -> ~ live env (storage q') qn i m;
  (** a flush is over when the storage is empty *)
  sd_flush : flush_open (op, ph) -> flush_open (op, ph') \/ forall qn i, stored (storage q') qn i = None;
  sd_failed : forall qn i, add_failed (op, ph) qn i -> add_failed (op, ph') qn i;
  (** only the addition of a message puts it in the cache *)
  sd_new : forall qn i, where_is (cache q) qn i = None -> where_is (cache q') qn i <> None -> pending (op, ph) qn i;
  (** a message leaves the storage by its removal or by a flush *)
  sd_lost : forall qn i, stored (storage q) qn i <> None -> stored (storage q') qn i = None ->
    (exists queue reason ids, op = QRemove queue reason ids /\ ph = Begin /\ queue = qn /\ i ∈ ids /\
       (removing (op, ph') qn i \/ remove_failed (op, ph') qn i)) \/
    op = QFlush /\ ph = StorageFlush;
  (** what is pending is stored *)
  sd_waiting : forall qn i, pending (op, ph') qn i -> pending (op, ph) qn i \/ stored (storage q') qn i <> None;
  (** a removal ends with the message out of the cache, unless it fails *)
  sd_removing : forall qn i, removing (op, ph) qn i ->
    where_is (cache q') qn i = None \/ remove_failed (op, ph') qn i;
  sd_remove_failed : forall qn i, remove_failed (op, ph) qn i -> remove_failed (op, ph') qn i;
  (** a flush begins by emptying the cache *)
  sd_emptied : op = QFlush -> ph' = StorageFlush -> ph = Begin /\ forall qn i, where_is (cache q') qn i = None
}.

(** Changes that keep the live messages. *)
Lemma live_same_life env (s s' : S) qn i m :
  same_life (stored s) (stored s') -> live env s' qn i m -> exists m0, live env s qn i m0.
Proof using HSR HCS HA.
  intros Hl [Hst Hsh]. specialize (Hl qn i). rewrite Hst in Hl. inversion Hl as [v v' [He Ht] Ev Ev'|]; subst.
  exists v. split; [done|]. intros Hh. specialize (Hsh Hh). unfold expired in *. congruence.
Qed.

Lemma live_kept env (s s' : S) qn i m :
  stored s' qn i = None \/ stored s' qn i = stored s qn i -> live env s' qn i m -> live env s qn i m.
Proof using HSR HCS HA. intros [Hn|He] [Hst Hsh]; [congruence|]. split; [congruence|done]. Qed.

(** A step that is one call of the cache and moves messages it has. *)
Lemma cache_call env op ph q ph' q' :
  queue_inv q -> storage q' = storage q -> cache_inv (cache q') -> thread_ok (op, ph') ->
  (forall qn i, where_is (cache q) qn i <> None -> where_is (cache q') qn i = None ->
     forgetting (op, ph) qn i \/ flush_open (op, ph')) ->
  (forall qn i m, forgetting (op, ph') qn i -> ~ live env (storage q) qn i m) ->
  (forall qn i, pending (op, ph) qn i ->
     pending (op, ph') qn i \/ where_is (cache q') qn i <> None \/ add_failed (op, ph') qn i) ->
  (flush_open (op, ph) -> flush_open (op, ph')) -> (forall qn i, add_failed (op, ph) qn i -> add_failed (op, ph') qn i) ->
  (forall ms, op = QAdd ms -> ph <> Begin) ->
  (forall qn i, where_is (cache q) qn i = None -> where_is (cache q') qn i <> None -> pending (op, ph) qn i) ->
  (forall qn i, pending (op, ph') qn i -> pending (op, ph) qn i) ->
  (forall qn i, removing (op, ph) qn i -> where_is (cache q') qn i = None \/ remove_failed (op, ph') qn i) ->
  (forall qn i, remove_failed (op, ph) qn i -> remove_failed (op, ph') qn i) ->
  (op = QFlush -> ph' = StorageFlush -> ph = Begin /\ forall qn i, where_is (cache q') qn i = None) ->
  step_does env op ph q ph' q'.
Proof using HSR HCS HA.
  intros [HSi HCi] Hst Hc Hth Hcache Hforget Hp Hf Hfail Hnot Hnew Hwait Hrem Hrf Hem. split; try done.
  - split; [by rewrite Hst|done].
  - intros qn i m Hl. rewrite Hst in Hl. left. by exists m.
  - intros ms qn i Hop Hph. by destruct (Hnot ms).
  - intros qn i m. rewrite Hst. apply Hforget.
  - intros Ho. left. auto.
  - intros qn i. by rewrite Hst.
  - intros qn i Hpe. left. auto.
Qed.

(** Nothing happens. *)
Lemma no_call env op ph q :
  queue_inv q -> thread_ok (op, ph) -> (forall qn i, ~ forgetting (op, ph) qn i) ->
  (forall ms, op = QAdd ms -> ph <> Begin) -> (op = QFlush -> ph <> StorageFlush) ->
  step_does env op ph q ph q.
Proof using HSR HCS HA.
  intros Hq Hth Hf Hnot Hnf. apply cache_call; try done; [apply Hq|..].
  - intros qn i m Hfo. by apply Hf in Hfo.
  - intros qn i. by left.
  - intros qn i Hr. destruct (Hf qn i). by destruct op, ph.
  - intros Hop Hph. by destruct (Hnf Hop).
Qed.

Lemma thread_ok_members env ms :
  op_ok (QAdd ms) -> thread_ok (QAdd ms, CacheInsert (map_range (env_order env) (membersByQueue ms))).
Proof using HSR HCS HA.
  intros Hop. split; [done|]. split; [intros qn i; apply added_members|].
  apply Forall_forall. intros [qn els] Hin. apply elem_of_map_range in Hin. rewrite membersByQueue_lookup in Hin.
  apply Forall_forall. intros m Hm. cbn [snd] in Hm. assert (Hms : m ∈ ms).
  { destruct (List.filter _ ms) as [|m0 l0] eqn:E; [done|]. injection Hin as <-. rewrite <- E in Hm.
    apply list_elem_of_In, filter_In in Hm as [Hm _]. by apply list_elem_of_In. }
  cbn in Hop. rewrite Forall_forall in Hop. by apply Hop.
Qed.

Lemma add_begin_does env ms q ph' q' :
  queue_inv q -> op_ok (QAdd ms) -> add_step env ms Begin q = Ret (q', ph') ->
  step_does env (QAdd ms) Begin q ph' q'.
Proof using HSR HCS HA.
  intros [HSi HCi] Hop Hrun.
  assert (Hnames : Forall (fun m => queue_name_ok (Message.Queue m)) ms).
  { eapply Forall_impl; [exact Hop|]. by intros m [? _]. }
  cbn [add_step] in Hrun. unfold AddMessagesToStorage in Hrun. apply bind_Ret in Hrun as (q1 & r & Hs & Hrun).
  comp_step Hs. pose proof Hs as Hr. apply robust_Insert in Hr as (HSi' & Hother & Hkept); [|done..].
  assert (Hcase : q' = q1 /\ ((exists err, ph' = Done (Some err)) \/
    ph' = CacheInsert (map_range (env_order env) (membersByQueue ms)) /\
    forall m, m ∈ ms -> exists m', stored (storage q1) (Message.Queue m) (ID m) = Some m')).
  { destruct r as [[n k] [err|]]; cbn [snd] in Hrun; comp_step Hrun; (split; [done|]); [left; by eexists|right].
    split; [done|]. by apply spec_storage_Insert in Hs as (_ & _ & _ & _ & _ & _ & Hin). }
  destruct Hcase as [-> Hcase]. split; try done.
  - split; [done|congruence].
  - destruct Hcase as [[err ->]|[-> _]]; [by split|by apply thread_ok_members].
  - intros qn i m [Hst Hsh]. destruct (decide ((qn, i) ∈ msg_key <$> ms)) as [Hin|Hin].
    + right. by exists ms.
    + left. exists m. split; [by rewrite <- Hother|done].
  - intros ms0 qn i [= <-] _ Hin. destruct Hcase as [[err ->]|[-> _]]; [by right|left]. by apply added_members.
  - intros qn i Hw Hn. congruence.
  - intros qn i Hn Hw. congruence.
  - intros qn i Hst Hn. by apply Hkept in Hst.
  - intros qn i Hp. right. destruct Hcase as [[err ->]|[-> Hst]]; [done|].
    apply added_members, list_elem_of_fmap in Hp as (m & [= -> ->] & Hm). by destruct (Hst m Hm) as [m' ->].
Qed.

Lemma add_insert_does env ms queueName els l q ph' q' :
  let ph := CacheInsert ((queueName, els) :: l) in
  queue_inv q -> thread_ok (QAdd ms, ph) -> add_step env ms ph q = Ret (q', ph') ->
  step_does env (QAdd ms) ph q ph' q'.
Proof using HSR HCS HA.
  intros ph Hq Hth Hrun. pose proof Hq as [HSi HCi]. pose proof Hth as [Hop [Hin Hok]].
  apply Forall_cons in Hok as [Hels Hok].
  cbn [add_step ph] in Hrun. apply bind_Ret in Hrun as (q1 & [ins err] & Hs & Hrun). comp_step Hs.
  apply spec_Insert in Hs as (HCi' & _ & Hsub & Hall & Hm); [|done]. specialize (Hm (or_intror Hels)).
  assert (Hd : same_data q1 q' /\ (ph' = CacheInsert l /\ err = None \/ exists e, ph' = Done (Some e))).
  { destruct err as [err|]; comp_step Hrun; (split; [split; congruence|]); [right; by eexists|by left]. }
  destruct Hd as [[Hst' Hc'] Hcase].
  assert (Hkeep : forall qn i, where_is (cache q) qn i <> None -> where_is (cache q') qn i <> None)
    by (intros qn i; rewrite Hc'; by eapply moved_keeps).
  assert (Hnew : forall qn i, where_is (cache q) qn i = None -> where_is (cache q') qn i <> None ->
    qn = queueName /\ i ∈ ID <$> els).
  { intros qn i Hn Hw. rewrite Hc', Hm in Hw. case_decide as Hd; [|by rewrite Hn in Hw]. destruct Hd as [-> Hi].
    split; [done|]. by apply Hsub. }
  apply cache_call; try done; try congruence.
  - destruct Hcase as [[-> _]|[e ->]]; split; try done. split; [|done]. intros qn i Ha. apply Hin, added_cons. by right.
  - intros qn i Hw Hn. by destruct (Hkeep qn i Hw).
  - intros qn i Hp. destruct Hcase as [[-> ->]|[e ->]]; [|right; right; by apply Hin].
    apply added_cons in Hp as [[<- Hi]|Hp]; [|by left]. right. left.
    destruct (where_is (cache q) queueName i) as [p|] eqn:E; [apply Hkeep; congruence|].
    rewrite Hc', Hm, decide_True; [done|]. split; [done|]. by apply Hall.
  - intros qn i Hn Hw. apply added_cons. left. by destruct (Hnew qn i Hn Hw) as [-> ?].
  - intros qn i Hp. destruct Hcase as [[-> _]|[e ->]]; [|done]. apply added_cons. by right.
Qed.

Lemma add_step_does env ms ph q ph' q' :
  queue_inv q -> thread_ok (QAdd ms, ph) -> add_step env ms ph q = Ret (q', ph') ->
  step_does env (QAdd ms) ph q ph' q'.
Proof using HSR HCS HA.
  intros Hq Hth Hrun.
  destruct ph; try (cbn in Hrun; comp_step Hrun; apply no_call; [done|done|by intros ? ? []|done|done]).
  - apply add_begin_does; [done|by destruct Hth|done].
  - destruct members as [|[queueName els] l]; [|by apply add_insert_does].
    cbn [add_step] in Hrun. pose proof Hth as [Hop _]. comp_step Hrun. apply cache_call; try done; [by destruct Hq|].
    intros qn i (e & He & _). set_solver.
Qed.

(** ... of an operation that adds nothing and is not a flush. *)
Lemma quiet_call env op ph q ph' q' :
  match op with QAdd _ | QFlush => False | _ => True end ->
  queue_inv q -> storage q' = storage q -> cache_inv (cache q') -> thread_ok (op, ph') ->
  (forall qn i, where_is (cache q) qn i <> None -> where_is (cache q') qn i = None -> forgetting (op, ph) qn i) ->
  (forall qn i m, forgetting (op, ph') qn i -> ~ live env (storage q) qn i m) ->
  (forall qn i, where_is (cache q) qn i = None -> where_is (cache q') qn i = None) ->
  (forall qn i, removing (op, ph) qn i -> where_is (cache q') qn i = None \/ remove_failed (op, ph') qn i) ->
  (forall qn i, remove_failed (op, ph) qn i -> remove_failed (op, ph') qn i) ->
  step_does env op ph q ph' q'.
Proof using HSR HCS HA.
  intros Hop Hq Hst Hc Hth Hcache Hforget Hnone Hrem Hrf.
  apply cache_call; try done; try (destruct op; done).
  - intros qn i Hw Hn. left. auto.
  - intros qn i Hn Hw. by apply Hnone in Hn.
Qed.

(** ... and keeps the messages of the cache. *)
Lemma keeping_call env op ph q ph' q' :
  match op with QAdd _ | QFlush | QRemove _ _ _ => False | _ => True end ->
  queue_inv q -> storage q' = storage q -> cache_inv (cache q') -> thread_ok (op, ph') ->
  (forall qn i m, forgetting (op, ph') qn i -> ~ live env (storage q) qn i m) ->
  (forall qn i, where_is (cache q') qn i = None <-> where_is (cache q) qn i = None) ->
  step_does env op ph q ph' q'.
Proof using HSR HCS HA.
  intros Hop Hq Hst Hc Hth Hforget Hw. apply quiet_call; try done; try (by destruct op).
  - intros qn i Hn Hn'. by apply Hw in Hn'.
  - intros qn i Hn. by apply Hw.
Qed.

Lemma pull_finish_same env queue ms ms' q q' ph :
  done_with (pull_finish env queue ms ms') q = Ret (q', ph) -> same_data q q' /\ exists err, ph = Done err.
Proof using HSR HCS HA.
  unfold done_with, pull_finish. intros Hrun. apply bind_Ret in Hrun as (q1 & r & Hs & Hrun). comp_step Hrun.
  destruct (Nat.eqb _ _); comp_step Hs; (split; [done|by eexists]).
Qed.

(** A pull leaves the messages of its range in the cache. *)
Lemma moved_pulled (w w' : string -> string -> option PoolType) queue ids (p p' : PoolType) :
  moved w queue ids (Some p) w' -> Forall (fun i => w queue i = Some p') ids ->
  forall qn i, w' qn i = None <-> w qn i = None.
Proof using Type.
  intros Hm Hids. apply (moved_Some_None w queue ids p w' Hm). intros i Hi.
  rewrite Forall_forall in Hids. by rewrite Hids.
Qed.

Lemma pull_begin_does env queue n mn mx dl q ph' q' :
  queue_inv q -> op_ok (QPull queue n mn mx dl) -> pull_step env queue n mn mx dl Begin q = Ret (q', ph') ->
  step_does env (QPull queue n mn mx dl) Begin q ph' q'.
Proof using HSR HCS HA.
  intros Hq [Hqn Hn] Hrun. pose proof Hq as [HSi HCi].
  cbn [pull_step] in Hrun; apply bind_Ret in Hrun as (q1 & r & Hs & Hrun).
  comp_step Hs. destruct r as [ids err].
  apply spec_PullMessages in Hs as (HCi' & _ & Hnd & _ & Hids & Hm); [|done..].
  assert (Hd : same_data q1 q' /\ thread_ok (QPull queue n mn mx dl, ph') /\
    forall qn i, ~ forgetting (QPull queue n mn mx dl, ph') qn i).
  { destruct err as [err|]; [comp_step Hrun; split_and!; try done; by intros ? ? []|].
    destruct (Nat.eqb_spec (length ids) 0) as [E|E]; comp_step Hrun;
      (split_and!; [done|split; [done|]|by intros ? ? []]); [done|].
    split; [done|]. by intros ->. }
  destruct Hd as ([Hst Hc] & Hth' & Hnf). apply keeping_call; try done; try congruence.
  - intros qn i m Hf. by apply Hnf in Hf.
  - rewrite Hc. by eapply moved_pulled.
Qed.

Lemma get_same env ids queue sort retry q q' r : getFromStorage env ids queue sort retry q = Ret (q', r) -> q' = q.
Proof using HSR HCS HA. unfold getFromStorage. intros Hs. comp_step Hs. destruct r0 as [? [?|]]; by comp_step Hs. Qed.

Lemma pull_step_does env queue n mn mx dl ph q ph' q' :
  queue_inv q -> thread_ok (QPull queue n mn mx dl, ph) -> pull_step env queue n mn mx dl ph q = Ret (q', ph') ->
  step_does env (QPull queue n mn mx dl) ph q ph' q'.
Proof using HSR HCS HA.
  intros Hq Hth Hrun. pose proof Hq as [HSi HCi]. pose proof Hth as [[Hqn Hn] Hph].
  destruct ph; try (cbn in Hrun; comp_step Hrun; apply no_call; [done|done|by intros ? ? []|done|done]);
    [by apply pull_begin_does| | |]; cbn [pull_step] in Hrun; apply bind_Ret in Hrun as (q1 & r & Hs & Hrun).
  - pose proof (get_same _ _ _ _ _ _ _ _ Hs) as ->.
    destruct r as [[ms nf] [err|]]; [comp_step Hrun; apply keeping_call; try done; by intros ? ? ? []|].
    destruct Hph as [Hnd Hne].
    apply getFromStorage_spec in Hs as (_ & _ & _ & _ & Hnd' & _); [|done..].
    destruct (Nat.eqb_spec (length nf) 0) as [E|E]; comp_step Hrun; apply keeping_call; try done.
    split; [done|]. split; [done|]. by intros ->.
  - pose proof (get_same _ _ _ _ _ _ _ _ Hs) as ->.
    destruct r as [[ms nf] [err|]]; [comp_step Hrun; by apply keeping_call|].
    destruct Hph as [Hnd Hne].
    apply getFromStorage_spec in Hs as (_ & _ & _ & _ & _ & Hnf & _); [|done..].
    destruct (Nat.ltb_spec 0 (length nf)) as [E|E].
    + assert (Hd : same_data q q' /\ ph' = Forget messages ms nf) by (comp_step Hrun; split; [split; congruence|done]).
      destruct Hd as [[Hst Hc] ->]. apply keeping_call; try done; try congruence.
      * intros qn i m [<- Hi]. apply Hnf in Hi as [_ Hi]. apply Hi.
      * by rewrite Hc.
    + apply pull_finish_same in Hrun as ([Hst Hc] & err & ->). apply keeping_call; try done; try congruence. by rewrite Hc.
  - comp_step Hs. destruct r as [k err]. apply spec_Remove in Hs as (HCi' & _ & gone & Hsub & _ & Hm); [|done].
    apply pull_finish_same in Hrun as ([Hst Hc] & err' & ->). apply quiet_call; try done; try congruence.
    + intros qn i Hw Hnone. rewrite Hc, Hm in Hnone. case_decide as Hd; [|done]. destruct Hd as [-> Hi].
      split; [done|]. by apply Hsub.
    + intros qn i Hnone. rewrite Hc, Hm. by case_decide.
Qed.

Lemma answer_step_does env t m reason ph q ph' q' :
  queue_inv q -> thread_ok (QAnswer t m reason, ph) -> answer_step t env m reason ph q = Ret (q', ph') ->
  step_does env (QAnswer t m reason) ph q ph' q'.
Proof using HSR HCS HA.
  intros Hq Hth Hrun. pose proof Hq as [HSi HCi]. pose proof Hth as [[Hname Hok] _].
  destruct ph; try (cbn in Hrun; comp_step Hrun; apply no_call; [done|done|by intros ? ? []|done|done]);
    cbn [answer_step] in Hrun.
  - destruct (String.eqb _ ""); [comp_step Hrun; by apply quiet_call|].
    destruct (String.eqb _ ""); [comp_step Hrun; by apply quiet_call|].
    apply bind_Ret in Hrun as (q1 & r & Hs & Hrun). comp_step Hs.
    assert (Hstore : storage_inv (storage q1) /\ same_life (stored (storage q)) (stored (storage q1))).
    { destruct t; [by apply robust_Ack in Hs|by apply robust_Nack in Hs]. }
    destruct Hstore as [HSi' Hlife].
    assert (Hd : same_data q1 q').
    { destruct r as [k [err|]]; [by comp_step Hrun|]. destruct t; by comp_step Hrun. }
    assert (Hth' : thread_ok (QAnswer t m reason, ph')) by exact (conj (conj Hname Hok) I).
    destruct Hd as [Hst Hc]. split; try done.
    + split; [by rewrite Hst|congruence].
    + intros qn i v Hl. left. rewrite Hst in Hl. by eapply live_same_life.
    + intros qn i Hw Hn. congruence.
    + intros qn i Hw Hn. congruence.
    + intros qn i Hs1 Hn. rewrite Hst in Hn. specialize (Hlife qn i). rewrite Hn in Hlife. by inversion Hlife.
  - unfold release_call in Hrun. apply bind_Ret in Hrun as (q1 & r & Hs & Hrun).
    assert (Hcache : storage q1 = storage q /\ cache_inv (cache q1) /\
      forall qn i, where_is (cache q1) qn i = None <-> where_is (cache q) qn i = None).
    { destruct r as [b err]. destruct (0 <? LockMs m); comp_step Hs;
        [apply spec_LockMessage in Hs as (? & _ & Hb & _ & Hm)|apply spec_MakeAvailable in Hs as (? & _ & Hb & _ & Hm)];
        try done; (split_and!; [done|done|]); (eapply moved_Some_None; [apply Hm; by right|]);
        intros i Hi; destruct b; try set_solver; destruct (Hb eq_refl) as [_ Hw]; set_solver. }
    destruct Hcache as (Hst & HCi' & Hkeep).
    assert (Hd : same_data q1 q') by (destruct r as [b [err|]], t; comp_step Hrun; split; congruence).
    assert (Hth' : thread_ok (QAnswer t m reason, ph')) by exact (conj (conj Hname Hok) I).
    destruct Hd as [Hst' Hc']. apply keeping_call; try done; try congruence. by rewrite Hc'.
Qed.

Lemma remove_step_does env queue reason ids ph q ph' q' :
  queue_inv q -> thread_ok (QRemove queue reason ids, ph) -> remove_step env queue reason ids ph q = Ret (q', ph') ->
  step_does env (QRemove queue reason ids) ph q ph' q'.
Proof using HSR HCS HA.
  intros Hq Hth Hrun. pose proof Hq as [HSi HCi].
  destruct ph; try (cbn in Hrun; comp_step Hrun; apply no_call; [done|done|by intros ? ? []|done|done]);
    cbn [remove_step] in Hrun; apply bind_Ret in Hrun as (q1 & r & Hs & Hrun); comp_step Hs.
  - pose proof Hs as (HSi' & Hkept)%robust_Remove; [|done].
    assert (Hd : q' = q1 /\
      (forall qn i m, forgetting (QRemove queue reason ids, ph') qn i -> ~ live env (storage q1) qn i m) /\
      (forall i, i ∈ ids -> removing (QRemove queue reason ids, ph') queue i \/
                            remove_failed (QRemove queue reason ids, ph') queue i)).
    { destruct r as [k [err|]]; comp_step Hrun; [split_and!; [done|by intros ? ? ? []|by right]|].
      split_and!; [done| |by left].
      intros qn i m [<- Hi] [Hst _]. apply spec_storage_Remove in Hs as (_ & _ & Hgone & _); [|done].
      rewrite Hgone, decide_True in Hst; done. }
    destruct Hd as (-> & Hf & Hcase). split; try done.
    + split; [done|congruence].
    + intros qn i m Hl. left. exists m. eapply live_kept; [|exact Hl]. destruct (Hkept qn i) as [?|[? _]]; auto.
    + intros qn i Hw Hn. congruence.
    + intros qn i Hw Hn. congruence.
    + intros qn i Hst Hn. destruct (Hkept qn i) as [He|(_ & -> & Hi)]; [congruence|]. left.
      exists queue, reason, ids. split_and!; try done. by apply Hcase.
  - destruct r as [k err]. apply spec_Remove in Hs as (HCi' & _ & gone & Hsub & Hall & Hm); [|done].
    assert (Hd : same_data q1 q' /\ ph' = Done err).
    { destruct err as [err|]; comp_step Hrun; split; try done. }
    destruct Hd as ([Hst Hc] & ->). apply quiet_call; try done; try congruence.
    + intros qn i Hw Hn. rewrite Hc, Hm in Hn. case_decide as Hd; [|done]. destruct Hd as [-> Hi].
      split; [done|]. by apply Hsub.
    + intros qn i Hn. rewrite Hc, Hm. by case_decide.
    + intros qn i [<- Hi]. destruct err as [err|]; [by right|left]. rewrite Hc, Hm, decide_True; [done|].
      split; [done|]. by apply Hall.
Qed.

Lemma flush_step_does env ph q ph' q' :
  queue_inv q -> thread_ok (QFlush, ph) -> flush_step env ph q = Ret (q', ph') ->
  step_does env QFlush ph q ph' q'.
Proof using HSR HCS HA.
  intros Hq Hth Hrun. pose proof Hq as [HSi HCi].
  destruct ph; try (cbn in Hrun; comp_step Hrun; apply no_call; [done|done|by intros ? ? []|done|done]);
    cbn [flush_step] in Hrun; apply bind_Ret in Hrun as (q1 & r & Hs & Hrun); comp_step Hs.
  - injection Hs as Hc _. comp_step Hrun. destruct (spec_Flush env (cache q) HCi) as (HCi' & _ & Hnone). rewrite Hc in HCi', Hnone.
    apply cache_call; try done.
    + intros qn i _ _. by right.
    + intros qn i _ Hw. by destruct (Hw (Hnone qn i)).
  - destruct r as [n err]. comp_step Hrun. pose proof Hs as (HSi' & Hkept)%robust_Flush; [|done]. split; try done.
    + split; [done|congruence].
    + intros qn i m Hl. left. exists m. by eapply live_kept.
    + intros qn i Hw Hn. congruence.
    + intros _. destruct err as [err|]; [by left|right]. by apply spec_storage_Flush in Hs as (_ & ? & _).
    + intros qn i Hw Hn. congruence.
    + intros qn i _ _. by right.
Qed.

Lemma thread_step_does env op ph q ph' q' :
  queue_inv q -> thread_ok (op, ph) -> thread_step env op ph q = Ret (q', ph') ->
  step_does env op ph q ph' q'.
Proof using HSR HCS HA.
  intros Hq Hth Hrun. pose proof Hq as [HSi HCi].
  destruct op; cbn [thread_step] in Hrun;
    [by apply add_step_does|by apply pull_step_does|by apply answer_step_does| | |by apply remove_step_does|by apply flush_step_does].
  - destruct ph; try (comp_step Hrun; apply no_call; [done|done|by intros ? ? []|done|done]).
    assert (Hd : storage q' = storage q /\ cache_inv (cache q') /\
      (forall qn i, where_is (cache q') qn i = None <-> where_is (cache q) qn i = None) /\ exists err, ph' = Done err).
    { unfold done_with, TimeoutMessages in Hrun. apply bind_Ret in Hrun as (q1 & r & Hs & Hrun). comp_step Hrun.
      apply bind_Ret in Hs as (q2 & [ids err] & Hs & Hs1). comp_step Hs. rename q1 into q'.
      apply spec_TimeoutMessages in Hs as (HCi' & _ & _ & Hids & Hm); [|done].
      assert (Hd : same_data q2 q').
      { destruct err; [by comp_step Hs1|]. destruct (Nat.ltb 0 _); comp_step Hs1; split; congruence. }
      destruct Hd as [Hst Hc]. split_and!; [congruence|congruence| |by eexists].
      rewrite Hc. by eapply moved_pulled. }
    destruct Hd as (? & ? & Hkeep & err & ->). by apply keeping_call.
  - destruct ph; try (comp_step Hrun; apply no_call; [done|done|by intros ? ? []|done|done]).
    unfold done_with in Hrun. apply bind_Ret in Hrun as (q1 & [ids err] & Hs & Hrun). comp_step Hrun. comp_step Hs.
    apply spec_UnlockMessages in Hs as (HCi' & _ & unlocked & _ & _ & Hun & Hm); [|done].
    apply keeping_call; try done. intros qn i. rewrite Hm. case_decide as Hin; [|done].
    rewrite Forall_forall in Hun. apply Hun in Hin. cbn in Hin. by rewrite Hin.
Qed.

(** ** Runs *)

(** Every thread of a state. *)
Definition each (P : Thread -> Prop) (w : World S C A) : Prop := forall th, th ∈ threads w -> P th.

(** A message is accounted for when it is in the cache, or a thread is about
    to put it there, or an addition of it or a flush failed, or a flush is
    about to remove it from the storage. *)
Definition accounted (w : World S C A) (qn i : string) : Prop :=
  where_is (cache (shared w)) qn i <> None \/
  exists th, th ∈ threads w /\ (pending th qn i \/ add_failed th qn i \/ flush_open th).

Record safe (env : Env) (w : World S C A) : Prop := {
  safe_inv : queue_inv (shared w);
  safe_threads : each thread_ok w;
  safe_live : forall qn i m, live env (storage (shared w)) qn i m -> accounted w qn i;
  safe_forgotten : forall qn i m, live env (storage (shared w)) qn i m -> each (fun th => ~ forgetting th qn i) w
}.

(** The step does not store a message that another thread is about to take
    out of the cache. *)
Definition stores_forgotten (w : World S C A) (i : nat) : Prop :=
  match threads w !! i with
  | Some (QAdd ms, Begin) =>
      Exists (fun m => Exists (fun th => forgetting th (Message.Queue m) (ID m)) (threads w)) ms
  | _ => False
  end.

(** A property of every step of a run. *)
Fixpoint at_each_step (P : World S C A -> nat -> Prop) (schedule : list (Env * nat)) (w : World S C A) : Prop :=
  match schedule with
  | [] => True
  | (env, i) :: schedule' =>
      P w i /\ match world_step env i w with Ret w' => at_each_step P schedule' w' | Panic _ => True end
  end.

Lemma at_each_step_impl (P P' : World S C A -> nat -> Prop) schedule : forall w,
  (forall w i, P w i -> P' w i) -> at_each_step P schedule w -> at_each_step P' schedule w.
Proof using Type.
  induction schedule as [|[env i] schedule IH]; intros w HP; [done|]. intros [Hp Hrest]. split; [auto|].
  destruct (world_step env i w); [by apply IH|done].
Qed.

(** The clock of a schedule does not go back. *)
Fixpoint ordered_from (now : Time) (schedule : list (Env * nat)) : Prop :=
  match schedule with
  | [] => True
  | (env, _) :: schedule' => now <= Now env /\ ordered_from (Now env) schedule'
  end.

Lemma world_step_Ret env i (w w' : World S C A) :
  world_step env i w = Ret w' ->
  w' = w /\ threads w !! i = None \/
  exists op ph ph', threads w !! i = Some (op, ph) /\
    thread_step env op ph (shared w) = Ret (shared w', ph') /\ threads w' = <[i := (op, ph')]> (threads w).
Proof using Type.
  unfold world_step. destruct (threads w !! i) as [[op ph]|]; [|intros [= <-]; by left].
  destruct (thread_step env op ph (shared w)) as [[q' ph']|] eqn:E; cbn; [|done]. intros [= <-]. right.
  by exists op, ph, ph'.
Qed.

Lemma elem_of_set_thread i (th0 th th' : Thread) (l : list Thread) :
  l !! i = Some th0 -> th ∈ <[i := th']> l -> th = th' \/ th ∈ l.
Proof using Type.
  intros _ Hin. apply list_elem_of_lookup in Hin as [j Hj]. apply list_lookup_insert_Some in Hj as [(_ & <- & _)|[_ Hj]];
    [by left|right]. by apply list_elem_of_lookup_2 in Hj.
Qed.

Lemma set_thread_elem i (th0 th th' : Thread) (l : list Thread) :
  l !! i = Some th0 -> th ∈ l -> th = th0 \/ th ∈ <[i := th']> l.
Proof using Type.
  intros Hi Hin. apply list_elem_of_lookup in Hin as [j Hj]. destruct (decide (j = i)) as [->|Hne].
  - left. congruence.
  - right. apply (list_elem_of_lookup_2 _ j). by rewrite list_lookup_insert_ne.
Qed.

Lemma set_thread_in i (th0 th' : Thread) (l : list Thread) : l !! i = Some th0 -> th' ∈ <[i := th']> l.
Proof using Type.
  intros Hi. apply (list_elem_of_lookup_2 _ i). rewrite list_lookup_insert_eq; [done|]. by eapply lookup_lt_Some.
Qed.

Lemma safe_later env env' w : Now env <= Now env' -> safe env w -> safe env' w.
Proof using Type.
  intros Hle [Hq Hths Hacc Hfor].
  assert (Hl : forall qn i m, live env' (storage (shared w)) qn i m -> live env (storage (shared w)) qn i m)
    by (intros *; by apply live_later).
  split; try done; eauto.
Qed.

Lemma safe_step env env' i w w' :
  safe env w -> Now env <= Now env' -> ~ stores_forgotten w i -> world_step env' i w = Ret w' -> safe env' w'.
Proof using HSR HCS HA.
  intros [Hq Hths Hacc Hfor] Hle Hclean Hstep.
  assert (Hearlier : forall qn i m, live env' (storage (shared w)) qn i m -> live env (storage (shared w)) qn i m)
    by (intros *; by apply live_later).
  apply world_step_Ret in Hstep as [[-> _]|(op & ph & ph' & Hi & Hstep & Hth')].
  { split; try done; eauto. }
  pose proof (list_elem_of_lookup_2 _ _ _ Hi) as Hin.
  apply thread_step_does in Hstep as [Hinv Hok Hlive Hadded Hcached Hpend Hforg Hflush Hfail _ _ _ _ _ _]; [|done|by apply Hths].
  assert (Hnew : (op, ph') ∈ threads w') by (rewrite Hth'; by eapply set_thread_in).
  assert (Hold : forall th, th ∈ threads w -> th = (op, ph) \/ th ∈ threads w')
    by (intros th; rewrite Hth'; by apply set_thread_elem).
  assert (Hback : forall th, th ∈ threads w' -> th = (op, ph') \/ th ∈ threads w)
    by (intros th; rewrite Hth'; by eapply elem_of_set_thread).
  split; [done| | |].
  - intros th [->|Hth]%Hback; [done|by apply Hths].
  - intros qn j m Hl. pose proof Hl as [(m0 & Hl0)|(ms & -> & -> & Hms)]%Hlive; cycle 1.
    { destruct (Hadded ms qn j eq_refl eq_refl Hms); right; exists (QAdd ms, ph'); auto. }
    apply Hearlier in Hl0. destruct (Hacc _ _ _ Hl0) as [Hw|(th & Hth & Hcase)].
    + destruct (where_is (cache (shared w')) qn j) eqn:E; [left; congruence|].
      destruct (Hcached qn j Hw E) as [Hf|Ho]; [by destruct (Hfor _ _ _ Hl0 _ Hin)|].
      right. exists (op, ph'). auto.
    + apply Hold in Hth as [->|Hth]; [|right; by exists th]. destruct Hcase as [Hp|[Hf|Ho]].
      * destruct (Hpend _ _ Hp) as [?|[?|?]]; [right; exists (op, ph'); auto|by left|right; exists (op, ph'); auto].
      * right. exists (op, ph'). auto.
      * destruct (Hflush Ho) as [?|Hnone]; [right; exists (op, ph'); auto|]. destruct Hl as [Hst _]. congruence.
  - intros qn j m Hl th [->|Hth]%Hback; [intros Hf; by eapply Hforg|].
    pose proof Hl as [(m0 & Hl0)|(ms & -> & -> & Hms)]%Hlive; [by eapply Hfor; eauto|].
    intros Hf. apply Hclean. unfold stores_forgotten. rewrite Hi.
    apply list_elem_of_fmap in Hms as (m1 & [= -> ->] & Hm1). apply Exists_exists. exists m1. split; [done|]. apply Exists_exists. by exists th.
Qed.

(** The time of the last step of a schedule. *)
Definition last_time (now : Time) (schedule : list (Env * nat)) : Time :=
  foldl (fun _ x => Now x.1) now schedule.

Lemma safe_run schedule : forall env env' w w',
  safe env w -> ordered_from (Now env) schedule ->
  at_each_step (fun w i => ~ stores_forgotten w i) schedule w -> run_schedule schedule w = Ret w' ->
  last_time (Now env) schedule <= Now env' -> safe env' w'.
Proof using HSR HCS HA.
  induction schedule as [|[env1 i] schedule IH]; intros env env' w w' Hs Hord Hclean Hrun Hlast.
  { injection Hrun as <-. by eapply safe_later. }
  destruct Hord as [Hle Hord]. destruct Hclean as [Hc Hclean]. cbn in Hrun.
  destruct (world_step env1 i w) as [w1|] eqn:E; [|done]. cbn in Hrun.
  eapply (IH env1); [by eapply safe_step|done|done|done|done].
Qed.

(** ** The messages of the cache *)

(** The thread is a flush that is about to empty the storage. *)
Definition flushing th : Prop := match th with (QFlush, StorageFlush) => True | _ => False end.

(** The thread is about to put messages in the cache. *)
Definition caching th : Prop :=
  match th with (QAdd _, CacheInsert (_ :: _)) => True | _ => False end.

Lemma pending_caching th qn i : pending th qn i -> caching th.
Proof using Type.
  destruct th as [op ph]. destruct op; try done. destruct ph; try done. destruct members; [|done].
  intros (els & Hin & _). by apply not_elem_of_nil in Hin.
Qed.

(** The step takes a message out of the storage that another thread is about
    to put in the cache, or puts one in the cache while a flush is under way. *)
Definition removes_pending (w : World S C A) (i : nat) : Prop :=
  match threads w !! i with
  | Some (QRemove queue _ ids, Begin) => Exists (fun j => Exists (fun th => pending th queue j) (threads w)) ids
  | Some (QFlush, StorageFlush) => Exists caching (threads w)
  | Some (QAdd _, CacheInsert _) => Exists flushing (threads w)
  | _ => False
  end.

Record justified (w : World S C A) : Prop := {
  just_inv : queue_inv (shared w);
  just_threads : each thread_ok w;
  (** a message of the cache is stored, unless its removal is not over or failed *)
  just_cached : forall qn i, where_is (cache (shared w)) qn i <> None ->
    stored (storage (shared w)) qn i <> None \/
    exists th, th ∈ threads w /\ (removing th qn i \/ remove_failed th qn i);
  just_pending : forall qn i, stored (storage (shared w)) qn i = None -> each (fun th => ~ pending th qn i) w;
  just_flush : (QFlush, StorageFlush) ∈ threads w -> forall qn i, where_is (cache (shared w)) qn i = None
}.

Lemma justified_cached env i op ph ph' (w w' : World S C A) :
  justified w -> ~ removes_pending w i -> threads w !! i = Some (op, ph) ->
  threads w' = <[i := (op, ph')]> (threads w) -> step_does env op ph (shared w) ph' (shared w') ->
  forall qn j, where_is (cache (shared w')) qn j <> None ->
    stored (storage (shared w')) qn j <> None \/
    exists th, th ∈ threads w' /\ (removing th qn j \/ remove_failed th qn j).
Proof using HSR HCS HA.
  intros [Hq Hths Hcached Hpend Hflush] Hclean Hi Hth' Hdoes qn j Hw.
  pose proof (list_elem_of_lookup_2 _ _ _ Hi) as Hin.
  assert (Hnew : (op, ph') ∈ threads w') by (rewrite Hth'; by eapply set_thread_in).
  destruct (stored (storage (shared w')) qn j) eqn:Est; [by left|right].
  assert (Hlost : stored (storage (shared w)) qn j <> None ->
    exists th, th ∈ threads w' /\ (removing th qn j \/ remove_failed th qn j)).
  { intros Hst. destruct (sd_lost _ _ _ _ _ _ Hdoes qn j Hst Est) as [(? & ? & ? & _ & _ & _ & _ & ?)|[-> ->]];
      [by exists (op, ph')|].
    destruct (where_is (cache (shared w)) qn j) eqn:E; [by rewrite (Hflush Hin) in E|].
    by destruct (sd_new _ _ _ _ _ _ Hdoes qn j E Hw). }
  destruct (where_is (cache (shared w)) qn j) eqn:E.
  - destruct (Hcached qn j) as [Hst|(th & Hth & Hcase)]; [congruence|by apply Hlost|].
    rewrite Hth'. destruct (set_thread_elem i (op, ph) th (op, ph') _ Hi Hth) as [->|Hin']; [|by exists th].
    exists (op, ph'). split; [by eapply set_thread_in|]. right. destruct Hcase as [Hr|Hr].
    + by destruct (sd_removing _ _ _ _ _ _ Hdoes qn j Hr).
    + by apply (sd_remove_failed _ _ _ _ _ _ Hdoes).
  - apply Hlost. intros Hst. apply (Hpend qn j Hst (op, ph) Hin). by apply (sd_new _ _ _ _ _ _ Hdoes).
Qed.

Lemma justified_step env i (w w' : World S C A) :
  justified w -> ~ removes_pending w i -> world_step env i w = Ret w' -> justified w'.
Proof using HSR HCS HA.
  intros Hj Hclean Hstep. pose proof Hj as [Hq Hths _ Hpend Hflush].
  apply world_step_Ret in Hstep as [[-> _]|(op & ph & ph' & Hi & Hstep & Hth')]; [done|].
  pose proof (list_elem_of_lookup_2 _ _ _ Hi) as Hin.
  apply thread_step_does in Hstep as Hdoes; [|done|by apply Hths].
  assert (Hback : forall th, th ∈ threads w' -> th = (op, ph') \/ th ∈ threads w)
    by (intros th; rewrite Hth'; by eapply elem_of_set_thread).
  split; [by apply Hdoes| |by eapply justified_cached| |].
  - intros th [->|Hth]%Hback; [apply Hdoes|by apply Hths].
  - intros qn j Hst th Hth Hp.
    assert (Hold : exists th0, th0 ∈ threads w /\ pending th0 qn j).
    { apply Hback in Hth as [->|Hth]; [|by exists th]. exists (op, ph). split; [done|].
      by destruct (sd_waiting _ _ _ _ _ _ Hdoes qn j Hp). }
    destruct Hold as (th0 & Hth0 & Hp0).
    destruct (stored (storage (shared w)) qn j) as [v|] eqn:Est; [|by eapply Hpend].
    destruct (sd_lost _ _ _ _ _ _ Hdoes qn j) as [(qn' & reason & ids & -> & -> & -> & Hj' & _)|[-> ->]]; [congruence|done|..];
      apply Hclean; unfold removes_pending; rewrite Hi; rewrite Exists_exists; [exists j|exists th0].
      + split; [done|]. apply Exists_exists. by exists th0.
      + split; [done|]. by eapply pending_caching.
  - intros [Heq|Hth]%Hback qn j.
    + injection Heq as <- <-. by apply (sd_emptied _ _ _ _ _ _ Hdoes eq_refl eq_refl).
    + destruct (where_is (cache (shared w')) qn j) eqn:E; [|done]. exfalso. apply Hclean.
      assert (Hp : pending (op, ph) qn j) by (apply (sd_new _ _ _ _ _ _ Hdoes); [by apply Hflush|congruence]).
      unfold removes_pending. rewrite Hi. destruct op, ph; try done. apply Exists_exists. by exists (QFlush, StorageFlush).
Qed.

Lemma justified_run schedule : forall (w w' : World S C A),
  justified w -> at_each_step (fun w i => ~ removes_pending w i) schedule w ->
  run_schedule schedule w = Ret w' -> justified w'.
Proof using HSR HCS HA.
  induction schedule as [|[env i] schedule IH]; intros w w' Hj Hclean Hrun; [by injection Hrun as <-|].
  destruct Hclean as [Hc Hclean]. cbn in Hrun. destruct (world_step env i w) as [w1|] eqn:E; [|done].
  eapply IH; [by eapply justified_step|done|done].
Qed.

(** ** Threads finish *)

Lemma thread_progress env op ph q q' ph' :
  (0 < steps_left op ph)%nat -> thread_step env op ph q = Ret (q', ph') ->
  (steps_left op ph' < steps_left op ph)%nat /\ ((0 < steps_left op ph')%nat \/ exists err, ph' = Done err).
Proof using Type.
  intros Hpos Hrun. destruct op, ph; cbn in Hpos; try lia;
    cbn [thread_step add_step pull_step answer_step remove_step flush_step] in Hrun; to_the_end Hrun;
    cbn [steps_left length]; rewrite ?length_members; eauto with lia.
Qed.

(** The turns a thread gets in a schedule. *)
Fixpoint turns (i : nat) (schedule : list (Env * nat)) : nat :=
  match schedule with
  | [] => 0
  | (_, j) :: schedule' => (if decide (j = i) then 1 else 0) + turns i schedule'
  end%nat.

Lemma thread_finishes schedule : forall (w w' : World S C A) i op ph,
  threads w !! i = Some (op, ph) -> (0 < steps_left op ph)%nat \/ (exists err, ph = Done err) ->
  (steps_left op ph <= turns i schedule)%nat -> run_schedule schedule w = Ret w' ->
  exists err, threads w' !! i = Some (op, Done err).
Proof using Type.
  induction schedule as [|[env j] schedule IH]; intros w w' i op ph Hi Hph Hturns Hrun.
  - injection Hrun as <-. destruct Hph as [Hpos|[err ->]]; [cbn in Hturns; lia|by exists err].
  - cbn in Hrun. destruct (world_step env j w) as [w1|] eqn:E; [|done]. cbn in Hrun. cbn [turns] in Hturns.
    apply world_step_Ret in E as [[-> Hj]|(op' & ph0 & ph' & Hj & Hstep & Hth)].
    { eapply IH; [done|done| |done]. destruct (decide (j = i)); [congruence|lia]. }
    destruct (decide (j = i)) as [->|Hne].
    + rewrite Hi in Hj. injection Hj as <- <-.
      assert (Hi1 : threads w1 !! i = Some (op, ph'))
        by (rewrite Hth; apply list_lookup_insert_eq; by eapply lookup_lt_Some).
      destruct Hph as [Hpos|[err ->]].
      * apply thread_progress in Hstep as [Hlt Hph']; [|done]. eapply IH; [done|done|lia|done].
      * assert (ph' = Done err) as -> by (destruct op; by injection Hstep).
        eapply IH; [done|by right; exists err| |done]. destruct op; cbn; lia.
    + eapply IH; [by rewrite Hth, list_lookup_insert_ne|done|lia|done].
Qed.

(** ** The beginning of a run *)

Lemma started_threads (P : Thread -> Prop) ops q : (forall op, op ∈ ops -> P (op, Begin)) -> each P (started ops q).
Proof using Type. intros HP th (op & -> & Hop)%list_elem_of_fmap. by apply HP. Qed.

Lemma started_ok ops q : Forall op_ok ops -> each thread_ok (started ops q).
Proof using Type. intros Hops. apply started_threads. intros op Hop. rewrite Forall_forall in Hops. split; [auto|by destruct op]. Qed.

Lemma started_safe env ops q :
  queue_inv q -> complete env q -> Forall op_ok ops -> safe env (started ops q).
Proof using Type.
  intros Hq Hc Hops. split; [done|by apply started_ok|..].
  - intros qn i m Hl. left. by eapply Hc.
  - intros qn i m _. apply started_threads. intros op _ Hf. by destruct op.
Qed.

Lemma started_justified ops q : queue_inv q -> backed q -> Forall op_ok ops -> justified (started ops q).
Proof using Type.
  intros Hq Hb Hops. split; [done|by apply started_ok|..].
  - intros qn i Hw. left. by apply Hb.
  - intros qn i _. apply started_threads. intros op _ Hf. by destruct op.
  - intros (op & [=] & _)%list_elem_of_fmap.
Qed.

(** The first step of a schedule. *)
Lemma step_of env i op ph schedule (w w' : World S C A) :
  run_schedule ((env, i) :: schedule) w = Ret w' ->
  queue_inv (shared w) -> each thread_ok w -> threads w !! i = Some (op, ph) ->
  exists w1 ph', step_does env op ph (shared w) ph' (shared w1) /\
    thread_step env op ph (shared w) = Ret (shared w1, ph') /\
    (threads w1 = <[i := (op, ph')]> (threads w) /\ each thread_ok w1) /\ run_schedule schedule w1 = Ret w'.
Proof using HSR HCS HA.
  intros Hrun Hq Hths Hi. cbn in Hrun. destruct (world_step env i w) as [w1|] eqn:E; [|done]. cbn in Hrun.
  apply world_step_Ret in E as [[_ Hn]|(op' & ph0 & ph' & Hj & Hstep & Hth)]; [congruence|].
  rewrite Hi in Hj. injection Hj as <- <-. pose proof (list_elem_of_lookup_2 _ _ _ Hi) as Hin.
  apply thread_step_does in Hstep as Hdoes; [|done|by apply Hths]. exists w1, ph'. split_and!; try done.
  intros th Hin'. rewrite Hth in Hin'. eapply elem_of_set_thread in Hin' as [->|Hin']; [apply Hdoes|by apply Hths|done].
Qed.
End Interleaving.
