(* ===== verification/InterleavingProps.v ===== *)
(** * Properties of operations that run at the same time

    Every order of the calls of any number of operations, on every
    implementation of the storage and of the cache: no live message is lost,
    the storage and the cache agree at the end, every operation finishes, and
    the order that does lose a message. *)

From S2P Require Import Prelude Float64 Dtime Utils Score Message Cache MemoryCache MemoryCacheFacts.
From S2P Require Import Fixtures Storage MemoryStorage MemoryStorageFacts StorageErrors AuditTrail.
From S2P Require Import Queue QueueFacts QueueProps QueueHistory Interleaving InterleavingFacts.
#[local] Open Scope string_scope.
#[local] Open Scope list_scope.
#[local] Open Scope Z_scope.

Section Interleaving.
Context {S C A : Type} `{HSR : StorageRobust S} `{HCS : CacheSpec C} `{HA : Auditor A}.
Abbreviation Q := (Queue S C A).
Implicit Types q : Q.

(** C3. No interleaving of operations loses a message.  Whatever the order in
    which the calls of the operations [ops] run, and whichever of them fail,
    every message that can be handed out is in the cache, or accounted for by
    an operation: an addition that will put it there or that reported an
    error, or a flush under way or that reported an error.  The hypothesis
    excludes one order, which loses the message (see [readded_message_lost]):
    to store a message again between the moment another operation finds it
    gone and the moment that one takes it out of the cache. *)
Theorem live_messages_accounted_for ops schedule now q w' env
    (Hq : queue_inv q) (Hstart : complete (at_time now) q) (Hops : Forall op_ok ops)
    (Hclock : ordered_from now schedule)
    (Hundisturbed : at_each_step (fun w i => ~ stores_forgotten w i) schedule (started ops q))
    (Hrun : run_schedule schedule (started ops q) = Ret w') (Hlast : last_time now schedule <= Now env) :
  forall qn i m, live env (storage (shared w')) qn i m -> accounted w' qn i.
Proof using HSR HCS HA.
  apply (safe_run schedule (at_time now) env _ _ (started_safe (at_time now) ops q Hq Hstart Hops)); done.
Qed.

(** C2. When the operations are over, all without an error, the storage and the
    cache agree as if they had run one after the other: the messages that can
    be handed out are in the cache, and the messages of the cache are stored.
    Two orders are excluded: the one above, and its opposite, to remove a
    message from the storage (or to flush it) when an addition has stored it
    and has yet to put it in the cache. *)
Theorem concurrent_operations_agree ops schedule now q w' env
    (Hstart : agree (at_time now) q) (Hops : Forall op_ok ops) (Hclock : ordered_from now schedule)
    (Hundisturbed : at_each_step (fun w i => ~ stores_forgotten w i /\ ~ removes_pending w i) schedule (started ops q))
    (Hrun : run_schedule schedule (started ops q) = Ret w') (Hlast : last_time now schedule <= Now env)
    (Hdone : each (fun th => th.2 = Done None) w') :
  agree env (shared w').
Proof using HSR HCS HA.
  destruct Hstart as (Hq & Hc & Hb).
  assert (Hj : justified w').
  { eapply (justified_run schedule); [by apply started_justified| |exact Hrun].
    eapply at_each_step_impl; [|exact Hundisturbed]. by intros ? ? [_ ?]. }
  assert (Hs : safe env w').
  { eapply (safe_run schedule (at_time now)); [by apply started_safe|done| |done|done].
    eapply at_each_step_impl; [|exact Hundisturbed]. by intros ? ? [? _]. }
  split; [apply Hj|split].
  - intros qn i m Hl. destruct (safe_live _ _ Hs _ _ _ Hl) as [Hw|(th & Hth & Hcase)]; [done|exfalso].
    apply Hdone in Hth. destruct th as [op ph]. cbn in Hth. subst ph. by destruct op, Hcase as [|[|]].
  - intros qn i Hw. destruct (just_cached _ Hj _ _ Hw) as [Hst|(th & Hth & Hcase)]; [done|exfalso].
    apply Hdone in Hth. destruct th as [op ph]. cbn in Hth. subst ph. by destruct op, Hcase.
Qed.

(** C13. No operation waits for another one: each is over after a bounded number
    of its own steps, however the others are scheduled and whatever their
    calls return (when no call panics). *)
Theorem threads_finish ops schedule q w' i op
    (Hop : ops !! i = Some op) (Hturns : (steps_left op Begin <= turns i schedule)%nat)
    (Hrun : run_schedule schedule (started ops q) = Ret w') :
  exists err, threads w' !! i = Some (op, Done err).
Proof using Type.
  eapply thread_finishes; [|left|exact Hturns|exact Hrun].
  - cbn. by rewrite list_lookup_fmap, Hop.
  - destruct op; cbn; lia.
Qed.

(** C14. A message that is added again while it is being removed is lost: it is
    stored, and both operations report success, but it is not in the cache,
    so that no pull hands it out until a recovery puts it back.  This holds
    for every implementation of the storage and of the cache. *)
Theorem readded_message_lost env reason m q w'
    (Hq : queue_inv q) (Hm : op_ok (QAdd [m]))
    (Hrun : run_schedule [(env, 0%nat); (env, 1%nat); (env, 1%nat); (env, 1%nat); (env, 0%nat)]
              (started [QRemove (Message.Queue m) reason [ID m]; QAdd [m]] q) = Ret w')
    (Hdone : each (fun th => th.2 = Done None) w') :
  stored (storage (shared w')) (Message.Queue m) (ID m) <> None /\
  where_is (cache (shared w')) (Message.Queue m) (ID m) = None.
Proof using HSR HCS HA.
  set (rm := QRemove (Message.Queue m) reason [ID m]) in *. set (add := QAdd [m]) in *.
  assert (Hops : Forall op_ok [rm; add]) by (by repeat (constructor; [done|])).
  apply (step_of env 0 rm Begin) in Hrun as (w1 & ph1 & D1 & S1 & [T1 O1] & Hrun); [|done|by apply started_ok|done].
  cbn in T1. apply (step_of env 1 add Begin) in Hrun as (w2 & pa & D2 & _ & [T2 O2] & Hrun); [|apply D1|done|by rewrite T1].
  rewrite T1 in T2. cbn in T2. apply (step_of env 1 add pa) in Hrun as (w3 & pb & D3 & _ & [T3 O3] & Hrun); [|apply D2|done|by rewrite T2].
  rewrite T2 in T3. cbn in T3. apply (step_of env 1 add pb) in Hrun as (w4 & pc & D4 & _ & [T4 O4] & Hrun); [|apply D3|done|by rewrite T3].
  rewrite T3 in T4. cbn in T4. apply (step_of env 0 rm ph1) in Hrun as (w5 & ph2 & D5 & _ & [T5 O5] & Hrun); [|apply D4|done|by rewrite T4].
  rewrite T4 in T5. cbn in T5. injection Hrun as ->.
  assert (ph2 = Done None) as -> by (apply (Hdone (rm, ph2)); rewrite T5; set_solver).
  assert (pc = Done None) as -> by (apply (Hdone (add, pc)); rewrite T5; set_solver).
  assert (Hfailed : ~ add_failed (add, pa) (Message.Queue m) (ID m)).
  { intros Hf. apply (sd_failed _ _ _ _ _ _ D3), (sd_failed _ _ _ _ _ _ D4) in Hf. done. }
  assert (Hst2 : stored (storage (shared w2)) (Message.Queue m) (ID m) <> None).
  { destruct (sd_added _ _ _ _ _ _ D2 [m] (Message.Queue m) (ID m)) as [Hp|Hp]; [done|done|by apply list_elem_of_here| |done].
    by destruct (sd_waiting _ _ _ _ _ _ D2 _ _ Hp). }
  assert (Hkeep : forall ph ph' (q1 q2 : Q), step_does env add ph q1 ph' q2 ->
    stored (storage q1) (Message.Queue m) (ID m) <> None -> stored (storage q2) (Message.Queue m) (ID m) <> None).
  { intros ph ph' q1 q2 D Hst Hn. by destruct (sd_lost _ _ _ _ _ _ D _ _ Hst Hn) as [(? & ? & ? & [=] & _)|[[=] _]]. }
  assert (Hph1 : (exists k, ph1 = CacheRemove k) \/ exists e, ph1 = Done (Some e)).
  { cbn [thread_step remove_step rm] in S1. to_the_end S1; [right|left]; by eexists. }
  destruct Hph1 as [[k ->]|[e ->]].
  - split.
    + intros Hn. destruct (sd_lost _ _ _ _ _ _ D5 (Message.Queue m) (ID m)) as [(? & ? & ? & _ & [=] & _)|[[=] _]]; [|done].
      by apply (Hkeep _ _ _ _ D4), (Hkeep _ _ _ _ D3).
    + by destruct (sd_removing _ _ _ _ _ _ D5 (Message.Queue m) (ID m)) as [?|Hf];
        [split; [done|apply list_elem_of_here]|..].
  - assert (Hf : remove_failed (rm, Done (Some e)) (Message.Queue m) (ID m)) by (split; [done|apply list_elem_of_here]).
    by apply (sd_remove_failed _ _ _ _ _ _ D5) in Hf.
Qed.

End Interleaving.

(** ** Checks of concrete runs *)

#[export] Instance added_dec l qn i : Decision (added l qn i).
Proof.
  destruct (decide (Exists (fun x => x.1 = qn /\ i ∈ ID <$> x.2) l)) as [He|He]; rewrite Exists_exists in He;
    [left|right].
  - destruct He as ([qn' els] & Hin & <- & Hi). by exists els.
  - intros (els & Hin & Hi). apply He. by exists (qn, els).
Defined.

#[export] Instance pending_dec th qn i : Decision (pending th qn i).
Proof. destruct th as [op ph]. destruct op; try (right; tauto). destruct ph; try (right; tauto). cbn. apply _. Defined.

#[export] Instance forgetting_dec th qn i : Decision (forgetting th qn i).
Proof. destruct th as [op ph]. destruct op; try (right; tauto); destruct ph; try (right; tauto); cbn; apply _. Defined.

#[export] Instance caching_dec th : Decision (caching th).
Proof.
  destruct th as [op ph]. destruct op; try (right; tauto). destruct ph as [|[|]| | | | | | |];
    try (right; tauto). left. exact I.
Defined.

#[export] Instance flushing_dec th : Decision (flushing th).
Proof. destruct th as [op ph]. destruct op; try (right; tauto). destruct ph; try (right; tauto). left. exact I. Defined.

Section Checks.
Context {S C A : Type} {HSt : Storage S} {HCa : Cache C} {HAu : Auditor A}.

#[export] Instance stores_forgotten_dec (w : World S C A) i : Decision (stores_forgotten w i).
Proof. unfold stores_forgotten. destruct (threads w !! i) as [[op ph]|]; [|right; tauto]. destruct op, ph; apply _. Defined.

#[export] Instance removes_pending_dec (w : World S C A) i : Decision (removes_pending w i).
Proof. unfold removes_pending. destruct (threads w !! i) as [[op ph]|]; [|right; tauto]. destruct op, ph; apply _. Defined.

Fixpoint check_steps (P : World S C A -> nat -> bool) (schedule : list (Env * nat)) (w : World S C A) : bool :=
  match schedule with
  | [] => true
  | (env, i) :: schedule' =>
      P w i && match world_step env i w with Ret w' => check_steps P schedule' w' | Panic _ => true end
  end.

Lemma check_steps_holds (P : World S C A -> nat -> bool) (P' : World S C A -> nat -> Prop) schedule :
  (forall w i, P w i = true -> P' w i) -> forall w, check_steps P schedule w = true -> at_each_step P' schedule w.
Proof.
  intros HP. induction schedule as [|[env i] schedule IH]; intros w; [done|]. cbn. intros [Hp Hrest]%andb_true_iff.
  split; [by apply HP|]. destruct (world_step env i w); [by apply IH|done].
Qed.

(** No step of the run is in one of the excluded orders. *)
Definition undisturbed (w : World S C A) (i : nat) : bool :=
  negb (bool_decide (stores_forgotten w i)) && negb (bool_decide (removes_pending w i)).

Lemma undisturbed_holds w i : undisturbed w i = true -> ~ stores_forgotten w i /\ ~ removes_pending w i.
Proof.
  unfold undisturbed. rewrite andb_true_iff, !negb_true_iff, !bool_decide_eq_false. done.
Qed.

(** The state a run leaves. *)
Definition world_after (schedule : list (Env * nat)) (w : World S C A) : World S C A :=
  match run_schedule schedule w with Ret w' => w' | Panic _ => w end.

Definition all_done (w : World S C A) : bool :=
  forallb (fun th => match th.2 with Done None => true | _ => false end) (threads w).

Lemma all_done_each w : all_done w = true -> each (fun th => th.2 = Done None) w.
Proof.
  unfold all_done. rewrite forallb_forall. intros Hall th Hth. apply list_elem_of_In, Hall in Hth.
  by destruct th as [op [| | | | | | | |[err|]]].
Qed.
End Checks.

(** ** Witnesses, on the memory implementation *)

#[local] Existing Instance plain_glob.

(** Messages [a] and [b], stored and available. *)
Definition two_messages : MemoryQueue :=
  after (run_queue_op (at_ms 1000) (QAdd [msg "q" "a" 10 0; msg "q" "b" 5 0]) new_memory_queue).

Lemma two_messages_agree : agree (at_ms 1000) two_messages.
Proof.
  apply (agree_step (at_ms 1000) (QAdd [msg "q" "a" 10 0; msg "q" "b" 5 0]) new_memory_queue).
  - apply (new_memory_queue_agrees (Now (at_ms 1000))).
  - repeat constructor; apply plain_q.
  - vm_compute. reflexivity.
Qed.

(** A message is added and another one removed while both are pulled. *)
Definition concurrent_ops : list queue_op :=
  [QAdd [msg "q" "c" 1 0]; QPull "q" 5 None None 0; QRemove "q" "REQUEST" ["a"]].

Lemma concurrent_ops_ok : Forall (op_ok (S := MemoryStorage) (C := MemoryCache)) concurrent_ops.
Proof. pose proof plain_q. repeat constructor; done. Qed.

Definition concurrent_schedule : list (Env * nat) :=
  map (fun i => (at_ms 2000, i)) [2; 1; 0; 1; 2; 1; 0; 1; 0]%nat.

Lemma concurrent_undisturbed :
  at_each_step (fun w i => ~ stores_forgotten w i /\ ~ removes_pending w i) concurrent_schedule
    (started concurrent_ops two_messages).
Proof.
  apply (check_steps_holds undisturbed); [apply undisturbed_holds|]. vm_compute. reflexivity.
Qed.

Lemma concurrent_run : let w := started concurrent_ops two_messages in
  run_schedule concurrent_schedule w = Ret (world_after concurrent_schedule w).
Proof. vm_compute. reflexivity. Qed.

Lemma concurrent_operations_agree_witness :
  let w' := world_after concurrent_schedule (started concurrent_ops two_messages) in
  agree (at_ms 3000) (shared w') /\ where_is (cache (shared w')) "q" "a" = None /\
  where_is (cache (shared w')) "q" "b" = Some PROCESSING_POOL /\ where_is (cache (shared w')) "q" "c" = Some PRIMARY_POOL.
Proof.
  intros w'. split; [|vm_compute; auto].
  apply (concurrent_operations_agree concurrent_ops concurrent_schedule (Now (at_ms 1000)) two_messages).
  - apply two_messages_agree.
  - apply concurrent_ops_ok.
  - vm_compute. repeat split; discriminate.
  - apply concurrent_undisturbed.
  - apply concurrent_run.
  - vm_compute. discriminate.
  - apply all_done_each. vm_compute. reflexivity.
Defined.

Lemma live_messages_accounted_for_witness :
  let schedule := take 3 concurrent_schedule in
  let w' := world_after schedule (started concurrent_ops two_messages) in
  where_is (cache (shared w')) "q" "c" = None /\
  forall qn i m, live (at_ms 3000) (storage (shared w')) qn i m -> accounted w' qn i.
Proof.
  intros schedule w'. split; [vm_compute; reflexivity|].
  apply (live_messages_accounted_for concurrent_ops schedule (Now (at_ms 1000)) two_messages).
  - apply two_messages_agree.
  - apply two_messages_agree.
  - apply concurrent_ops_ok.
  - vm_compute. repeat split; discriminate.
  - apply (at_each_step_impl (fun w i => ~ stores_forgotten w i /\ ~ removes_pending w i)); [by intros ? ? [? _]|].
    apply (check_steps_holds undisturbed); [apply undisturbed_holds|]. vm_compute. reflexivity.
  - vm_compute. reflexivity.
  - vm_compute. discriminate.
Defined.

Lemma threads_finish_witness :
  let w' := world_after concurrent_schedule (started concurrent_ops two_messages) in
  exists err, threads w' !! 1%nat = Some (QPull "q" 5 None None 0, Done err).
Proof.
  apply (threads_finish concurrent_ops concurrent_schedule two_messages).
  - reflexivity.
  - vm_compute. lia.
  - apply concurrent_run.
Defined.

(** The message [a] is removed and added again; then a pull finds [b] only. *)
Lemma readded_message_lost_witness :
  let w' := world_after (map (fun i => (at_ms 2000, i)) [0; 1; 1; 1; 0]%nat)
              (started [QRemove "q" "REQUEST" ["a"]; QAdd [msg "q" "a" 10 0]] two_messages) in
  stored (storage (shared w')) "q" "a" <> None /\ where_is (cache (shared w')) "q" "a" = None /\
  match Pull (at_ms 3000) "q" 5 None None 0 (shared w') with
  | Ret (_, (Some found, None)) => ID <$> found = ["b"]
  | _ => False
  end.
Proof.
  intros w'.
  destruct (readded_message_lost (at_ms 2000) "REQUEST" (msg "q" "a" 10 0) two_messages w') as [Hst Hw].
  - apply two_messages_agree.
  - repeat constructor; apply plain_q.
  - vm_compute. reflexivity.
  - apply all_done_each. vm_compute. reflexivity.
  - split; [exact Hst|]. split; [exact Hw|]. vm_compute. reflexivity.
Defined.
